(* ===== verification/_CoqProject ===== *)
-Q . S2P
Prelude.v
Rounding.v
QtProperties.v
Cstdlib.v
Types.v
LogSink.v
Session.v
SessionFacts.v
SessionObservers.v
Crypto.v
CryptoTypes.v
Wire.v
Codec.v
Double.v
Transport.v
LoopbackCallbacks.v
Net.v
Sockets.v
Protocol.v
Registry.v
Signer.v
Rendezvous.v
RendezvousFacts.v
History.v
Directory.v
Introduction.v
Relay.v
RelayFacts.v
Switchboard.v
Servers.v
IpcServer.v
IpcStop.v
EngineContracts.v
ServiceEngine.v
ServiceClient.v
IpcLink.v
IpcMessages.v
SessionController.v
SessionTimers.v
UiMain.v
Input.v
Cursor.v
Capture.v
Native.v
Letterbox.v
LocalScreen.v
SckCapturer.v
Pipeline.v
Factories.v
Negotiation.v
TestBackends.v
Conformance.v
