(* ===== verification/Prelude.v ===== *)
(** * REDesk: a verification library

    REDesk is a remote-desktop program in C++: a privileged service on the
    controlled machine, a Qt front end that talks to it over a local socket, a
    rendezvous server that introduces peers, a relay that forwards datagrams
    for peers that cannot reach each other, and a core library of session
    policy, crypto, codec, transport, capture and input.  The repository builds
    with stub backends by default; those stubs, and all logic that does not
    depend on a backend, are what this library models.

    ** The files, and the code each models

    - [Prelude] (this file): fixed-width integers as [Z], byte lists, a small
      state monad, list lemmas, automation.  [Cstdlib]: [atoi] and [stoul], as
      the servers' argument parsing and the macOS capturer use them.
    - [Rounding]: the error of IEEE doubles, for the Standard Library's
      executable specification of binary64: what its operations return differs
      from the exact real result by a known bound.  [QtProperties]: Qt
      properties, their signals, and what the QML bindings on them show.
    - [Types]: core/common/types.h ([Status], [Result<T>], frames, packets),
      the level gate and the file-name loop of core/common/logging.cpp;
      [LogSink]: its stderr sink, the logger slot and the log macro.
    - [Session], [SessionFacts]: core/session.  [Session] has one definition
      per member function of [SessionManager] as a computation over [World]
      (the object, the clock, the callbacks made), the specification machine
      [spec_step], and the lemma [exec_refines] between the two;
      [SessionFacts] holds the theorems.  [SessionObservers] has the operations
      again with observers that call the manager from inside their callbacks.
    - [Crypto]: core/crypto (identities and safety numbers, the Noise session
      stub, the in-memory key store); [CryptoTypes]: the types it keeps.
    - [Wire]: the headers of proto/ (fragment arithmetic, tiers, capability
      bits, message tags); [IpcMessages]: the messages and the packed header of
      ipc.proto.h, against both ends of the local channel.
    - [Codec]: core/codec (negotiation, the stub encoder and decoder);
      [Negotiation]: its negotiation against the one of [Wire];
      [Factories]: the core's factories by build, and a device's identity.
    - [Double]: the IEEE double operations the congestion controller uses.
    - [Transport]: core/transport (loopback pair, congestion controller);
      [LoopbackCallbacks]: the pair with callbacks that call back.
    - [Net], [Sockets]: server/common/net.h and net.cpp, the values and the
      [Socket] class over a recorded trace of system calls.
    - [Protocol], [Registry], [Signer], [Rendezvous], [RendezvousFacts]:
      server/rendezvous.  [Registry] and [Signer] give the abstract classes as
      [Class]es with their laws and the implementations as instances;
      [Rendezvous] is the loop of main.cpp over those interfaces, and the
      theorems of [RendezvousFacts] hold for every implementation of them.
      [Directory] is what the server promises its users, a directory of leases,
      and the proof that it keeps it; [Introduction]: what the two peers see.
    - [Relay], [RelayFacts]: server/relay, in the same way.  [Switchboard] is
      its promise, lines between two addresses, with two Noise sessions that
      meet over it.  [History]: the rounds of an abstract specification between
      which what is idle may lapse, shared by [Directory] and [Switchboard].
    - [Servers]: the two processes, from their arguments to their system calls:
      the loops run against [Sockets] through the interface [ServerLoop].
    - [IpcServer]: service/src/ipc_server.cpp ([Socket]: the exact read and
      write loops; [Serve]: one connection and the accept loop; [Lifecycle]:
      start and stop); [IpcStop]: [stop] interleaved with the accept thread.
    - [EngineContracts]: the engine interfaces of engine_contracts.h as
      [Class]es, with their laws and instances that keep a record.
    - [ServiceEngine]: service/src/main.cpp, engine_stubs.cpp,
      service_lifecycle.cpp ([Engine]: the stubs as instances, [Daemon]: what
      main.cpp does with any instances).
    - [ServiceClient]: ui/src/ServiceClient.cpp; [IpcLink] runs it against
      [IpcServer] and the daemon's handler.
    - [SessionController]: ui/src/SessionController.cpp, with its client;
      [SessionTimers]: its event loop when nothing is called.  [UiMain]:
      ui/src/main.cpp over a class [Qt] with the laws its documentation states.
    - [Input]: core/input; [Capture]: core/capture, with the floating-point
      path of the cursor in [Cursor].
    - [Native]: the skeletons of platform/, the factories of every host and
      build; [SckCapturer]: the ScreenCaptureKit capturer of platform/macos over
      a recorded trace of framework calls.
    - [LocalScreen]: ui/src/LocalScreenSource.cpp over any capturer (the class
      [Capturer], whose instances are the stub and the macOS one), ScreenView,
      VideoItem; [Letterbox]: the rectangle a frame is painted into.
    - [Pipeline]: the stub capturer, codec, transport and Noise session one
      after the other.
    - [TestBackends]: the reference backends of tests/stub_backends.h;
      [Conformance]: the harness of tests/redesk_test.h and the six test programs,
      which evaluate to success.

    ** How code becomes definitions

    Objects are records with the members of the class, and a method is a
    function to its result and the new record, with the branches of the code in
    the code's order.  Unsigned w-bit values are integers with their wrap-around
    written out ([wrap]); bytes are integers below 256; a [std::map] whose order
    is not observable is a [gmap], a vector a list.  Calls that leave the modelled
    object (callbacks, Qt signals, datagrams, system calls) are appended to a
    trace in the record, in the order in which they are made.  What the outside
    answers is an argument: the n-th clock reading, the datagram [recv_from]
    returned, the segments a socket yields, the result of each system call, the
    count a [write] returned.  Theorems quantify over all of these.  An object
    with Qt properties carries what QML shows of them ([shown]), which changes
    only where the code emits the signal a property names.  libsodium,
    the random device and [QString::trimmed] are parameters.

    ** What the theorems show

    - Session policy: the manager refines its specification (replies, policy
      state and audit entries, for every sequence of calls); least privilege;
      default deny; completeness of the audit log; pins that never change;
      the deny list.  Also where it is weaker than its comments: [authorize]
      looks at no state, the allow list decides nothing.  With observers that
      call back: sessions, grants, pins and the log are only added to, from every
      call of an observer to the next, whether or not the calls return; they
      return when callbacks are ranked; a close from inside [authorize] is undone.
    - Crypto: when a session is complete; replay protection, and the one nonce
      that defeats it; the round trip, which gives the plaintext back exactly
      when both ends' stream keys agree, and a pair of sessions for which they
      do not; the sizes and ranges every call keeps; the 256 identities a key
      store can generate, in a build with real backends too.
    - Servers: the rendezvous server refines a directory of leases and the relay
      a switchboard, both for every sequence of inputs; an introduction reaches
      both peers, an id changes hands only after a minute of silence, two peers
      complete a Noise handshake over the relay, and from then on have a
      full-duplex channel.  Only vouched introductions are sent, each iteration sends at most
      one datagram of a known form, squat guard, freshness, what a lookup
      answers; the relay sends nothing to an address that has not spoken for the
      token, and forwards unchanged between paired legs.  Also: a keepalive
      redirects an id, a third party keeps an allocation alive.  The processes
      leak, share and double-close no descriptor, and send only to addresses
      they have heard from; a reply goes to its datagram's source.
    - Byte formats: the rendezvous frame codec is exact on arbitrary bytes; the
      stub codec's round trip, and the exact frame or the exact refusal of its
      decoder on arbitrary packets; the client's
      parser does not depend on how the stream is cut and is bounded.
    - Transport and codec control: delivery contract of the loopback pair, also
      under callbacks that call back, and when those return; the
      congestion controller's doubles agree with an integer reference and stay
      in bounds; keyframes when due; negotiation picks the best common choice on
      both ends, and where the two negotiations of the program differ; fragment
      counts.
    - Local IPC: at most one handler call per connection, for an authenticated
      peer and a bounded payload; requests are answered exactly; the endpoint
      is restricted before any peer can connect; [stop] wakes the accept thread
      from its blocking [accept] and ends in every interleaving with it, unless a
      silent client, which stalls the service, holds the thread, or the number of
      the closed socket has been given to another that listens; the two ends disagree on byte order, so that every reply drops the
      client.
    - Daemon and front end: the daemon body ends after at most 180 ticks over any
      engine, each stage given exactly what the one before produced, and does so
      as a service too, against its comment ([service_run_capped]); the
      controller always comes to rest, refines its session machine and brings up no
      session without a PIN having been accepted, although a stale timer can
      bring one up that was cancelled or never had its own PIN.  Its QML
      bindings are never stale.  A front end whose QML cannot be loaded ends
      with -1.
    - Stubs of capture and input: exact frames in order; the clipboard is a map;
      the loops of the cursor's sine end for every frame and the cursor stays
      around the middle of the screen, rounding included.
    - Preview: what its bindings show is true (of the backend only while it is
      active), frames are shown in order and pixel for pixel, in a rectangle
      that fits the item, centred and undistorted up to rounding; the system
      grant is asked for first; a stream that ends with an error is not noticed;
      the stub capturer shows nothing.
    - Composition: frames of the stub capturer survive the codec but fit neither
      the transport nor the Noise session.
    - Tests: all six programs exit with 0, as the harness defines it; the
      reference backends do what the tests sample on every input: codec and
      Noise round trips, per-channel delivery, the permission gate; the eight-bit
      nonce of the reference session repeats.

    ** Fuel and bounds

    [drainFrames] runs with the length of the receive buffer as fuel; every
    round removes at least the four bytes of a length prefix, and
    [client_read_bounds] states that a result is always reached.  [ReadExact]
    and [WriteExact] run with the number of bytes asked for, as each successful
    call moves at least one.  The daemon's [run_loop] runs with the tick cap of
    the code, and [daemon_run] and [daemon_any_engine] state that it ends.  The
    accept loop and the server loops are functions of the finite sequence of
    events that have happened; [Stuck] and [Waiting] are the states in which the
    code waits for more, and a server process runs for any given number of
    iterations.  The controller's event loop settles within two timers for each
    pending one ([ui_settles]).  Nested callbacks have a stack bound:
    [reentrant_delivery] gives one that is enough, [mutual_answers_overflow] a
    case in which none is.  For the observers of the session manager these are
    [observers_return] and [observer_retry_diverges]; [observers_keep] holds for
    every bound, of the calls that return and of those that do not.  The two loops of the
    cursor's sine run with [cursor_fuel]; [cursor_every_frame] shows them to end
    for every index below 2^53, where the conversion to a double is exact, and
    [angle_stalls] gives an angle, far beyond, at which the code's loop does not
    end.

    ** What is not modelled

    Signals, sleeping and log lines outside core/common are system I/O, and the
    mutexes of the stores are left out, as each store has one calling thread.
    The interleavings of [IpcStop] are sequentially consistent; the language
    gives the unsynchronised accesses to [listen_fd_] no meaning at all.  What
    [shutdown] and [close] do there to a thread in [accept] is what Linux does
    with Unix-domain sockets.
    The QML files are not C++ and hold no logic of their own; of the tests the
    printed text is left out.  The rung of the input ladder is never probed: the
    Linux and Windows backends are skeletons that refuse every call, and are
    modelled as that.  What Qt, the kernel and the platform frameworks do is a
    parameter everywhere. *)

From stdpp Require Export base tactics numbers list gmap strings pretty relations.
From Stdlib Require Export ZArith Lia.

Open Scope Z_scope.

(** ** Fixed-width unsigned integers, kept as [Z]

    [wrap w z] is the value a w-bit unsigned object takes when [z] is stored in
    it ([static_cast<uintW_t>(z)], or the result of unsigned arithmetic). *)

Definition wrap (w z : Z) : Z := z `mod` 2 ^ w.

Abbreviation to_u8 := (wrap 8).
Abbreviation to_u16 := (wrap 16).
Abbreviation to_u32 := (wrap 32).
Abbreviation to_u64 := (wrap 64).

(** [static_cast<int32_t>]: the representative of [z] modulo 2^32 in the signed range. *)
Definition to_s32 (z : Z) : Z :=
  let u := wrap 32 z in if u <? 2 ^ 31 then u else u - 2 ^ 32.

(** [fits w z]: [z] is representable in a w-bit unsigned object. *)
Definition fits (w z : Z) : Prop := 0 ≤ z < 2 ^ w.

#[export] Instance fits_dec w z : Decision (fits w z).
Proof. unfold fits. apply _. Defined.

Definition byte_ok (b : Z) : Prop := fits 8 b.
Abbreviation bytes_ok := (Forall byte_ok).

Create HintDb redesk.
Create Rewrite HintDb redesk.

Lemma wrap_fits w z : 0 ≤ w → fits w (wrap w z).
Proof. intros Hw. apply Z.mod_pos_bound. by apply Z.pow_pos_nonneg. Qed.

Lemma wrap_id w z : fits w z → wrap w z = z.
Proof. intros H. by apply Z.mod_small. Qed.

Lemma wrap_wrap w z : wrap w (wrap w z) = wrap w z.
Proof. apply Zmod_mod. Qed.

Lemma wrap_le w z : 0 ≤ w → 0 ≤ z → 0 ≤ wrap w z ≤ z.
Proof.
  intros Hw Hz. pose proof (wrap_fits w z Hw) as [? ?]. split; [done|].
  apply Z.mod_le; [done|]. by apply Z.pow_pos_nonneg.
Qed.

Lemma byte_ok_wrap z : byte_ok (to_u8 z).
Proof. by apply wrap_fits. Qed.

#[export] Hint Resolve wrap_fits byte_ok_wrap wrap_le : redesk.
#[export] Hint Resolve wrap_id : redesk.
#[export] Hint Rewrite wrap_wrap : redesk.

(** ** Bit-level lemmas *)

Lemma lor_shiftl_add a b k :
  fits k a → 0 ≤ k → Z.lor a (Z.shiftl b k) = a + b * 2 ^ k.
Proof.
  intros Ha Hk.
  assert (Z.land a (Z.shiftl b k) = 0) as Hd.
  { apply Z.bits_inj'. intros n Hn. rewrite Z.land_spec, Z.bits_0.
    destruct (decide (n < k)).
    - rewrite Z.shiftl_spec_low by lia. by rewrite andb_false_r.
    - rewrite <-(Z.mod_small a (2 ^ k)) by done.
      rewrite Z.mod_pow2_bits_high by lia. done. }
  rewrite <-Z.lxor_lor by done. rewrite <-Z.add_nocarry_lxor by done.
  by rewrite Z.shiftl_mul_pow2.
Qed.

Lemma shiftl_lor_add a b k :
  fits k a → 0 ≤ k → Z.lor (Z.shiftl b k) a = b * 2 ^ k + a.
Proof. intros. rewrite Z.lor_comm, lor_shiftl_add by done. lia. Qed.

Lemma land_255 z : Z.land z 255 = to_u8 z.
Proof. change 255 with (Z.ones 8). by rewrite Z.land_ones. Qed.

Lemma land_subset_l a b : Z.land (Z.land a b) b = Z.land a b.
Proof. by rewrite <-Z.land_assoc, Z.land_diag. Qed.

Lemma fits_land_r w a b : 0 ≤ w → fits w b → fits w (Z.land a b).
Proof.
  intros Hw Hb. rewrite <-(wrap_id w b) by done. unfold wrap.
  rewrite <-Z.land_ones, Z.land_assoc, Z.land_ones by lia. by apply wrap_fits.
Qed.

Lemma fits_testbit w a : 0 ≤ w → fits w a ↔ 0 ≤ a ∧ ∀ i, w ≤ i → Z.testbit a i = false.
Proof.
  intros Hw. split.
  - intros Ha. split; [by destruct Ha|]. intros i Hi.
    rewrite <-(Z.mod_small a (2 ^ w)) by done. by apply Z.mod_pow2_bits_high.
  - intros [Ha Hi]. assert (a `mod` 2 ^ w = a) as <-; [|by apply wrap_fits].
    apply Z.bits_inj'. intros n Hn. destruct (decide (n < w)).
    + by apply Z.mod_pow2_bits_low.
    + rewrite Z.mod_pow2_bits_high by lia. by rewrite Hi by lia.
Qed.

Lemma fits_lor w a b : 0 ≤ w → fits w a → fits w b → fits w (Z.lor a b).
Proof.
  intros Hw. rewrite !fits_testbit by done. intros [? Ha] [? Hb]. split.
  - by apply Z.lor_nonneg.
  - intros i ?. by rewrite Z.lor_spec, Ha, Hb.
Qed.

Lemma fits_lxor w a b : 0 ≤ w → fits w a → fits w b → fits w (Z.lxor a b).
Proof.
  intros Hw. rewrite !fits_testbit by done. intros [? Ha] [? Hb]. split.
  - by apply Z.lxor_nonneg.
  - intros i ?. by rewrite Z.lxor_spec, Ha, Hb.
Qed.

#[export] Hint Resolve fits_land_r fits_lor fits_lxor : redesk.

(** [bits_sub a b]: every bit set in [a] is set in [b]. *)
Definition bits_sub (a b : Z) : Prop := Z.land a b = a.

Lemma bits_sub_spec a b :
  bits_sub a b ↔ ∀ i, 0 ≤ i → Z.testbit a i = true → Z.testbit b i = true.
Proof.
  unfold bits_sub. split.
  - intros H i _ Ha. pose proof (f_equal (λ z, Z.testbit z i) H) as Hi. simpl in Hi.
    rewrite Z.land_spec, Ha in Hi. by destruct (Z.testbit b i).
  - intros H. apply Z.bits_inj'. intros i Hi. rewrite Z.land_spec.
    specialize (H i Hi). destruct (Z.testbit a i); simpl; auto.
Qed.

Lemma bits_sub_refl a : bits_sub a a.
Proof. apply Z.land_diag. Qed.

Lemma bits_sub_0 a : bits_sub 0 a.
Proof. done. Qed.

Lemma bits_sub_trans a b c : bits_sub a b → bits_sub b c → bits_sub a c.
Proof. rewrite !bits_sub_spec. auto. Qed.

Lemma bits_sub_lor_l a b c : bits_sub a b → bits_sub a (Z.lor b c).
Proof.
  rewrite !bits_sub_spec. intros H i ? Ha. rewrite Z.lor_spec. by rewrite (H i) by done.
Qed.

Lemma bits_sub_lor_r a b c : bits_sub a c → bits_sub a (Z.lor b c).
Proof. rewrite Z.lor_comm. apply bits_sub_lor_l. Qed.

Lemma bits_sub_lor a b c : bits_sub a c → bits_sub b c → bits_sub (Z.lor a b) c.
Proof.
  rewrite !bits_sub_spec. intros Ha Hb i ?. rewrite Z.lor_spec. intros [?|?]%orb_true_iff; auto.
Qed.

Lemma bits_sub_land_r a b : bits_sub (Z.land a b) b.
Proof. rewrite bits_sub_spec. intros i _. rewrite Z.land_spec. by intros [? ?]%andb_true_iff. Qed.

#[export] Hint Resolve bits_sub_refl bits_sub_0 bits_sub_lor bits_sub_land_r : redesk.
#[export] Hint Resolve bits_sub_lor_l bits_sub_lor_r | 5 : redesk.

(** ** Byte strings *)

(** The [n] low bytes of [z], least significant first. *)
Fixpoint le_bytes (n : nat) (z : Z) : list Z :=
  match n with
  | O => []
  | S n => to_u8 z :: le_bytes n (Z.shiftr z 8)
  end.

(** The unsigned value of a little-endian byte string. *)
Fixpoint le_value (bs : list Z) : Z :=
  match bs with
  | [] => 0
  | b :: bs => b + 256 * le_value bs
  end.

Definition be_value (bs : list Z) : Z := le_value (rev bs).
Definition be_bytes (n : nat) (z : Z) : list Z := rev (le_bytes n z).

Lemma length_le_bytes n z : length (le_bytes n z) = n.
Proof. revert z. induction n; intros; simpl; auto. Qed.

Lemma length_be_bytes n z : length (be_bytes n z) = n.
Proof. unfold be_bytes. by rewrite length_rev, length_le_bytes. Qed.

Lemma bytes_ok_le_bytes n z : bytes_ok (le_bytes n z).
Proof. revert z. induction n; intros; simpl; constructor; auto with redesk. Qed.

Lemma le_value_le_bytes n z : le_value (le_bytes n z) = wrap (8 * Z.of_nat n) z.
Proof.
  revert z. induction n as [|n IH]; intros z.
  - simpl. unfold wrap. by rewrite Z.mod_1_r.
  - cbn [le_bytes le_value]. rewrite IH. unfold wrap.
    replace (8 * Z.of_nat (S n)) with (8 + 8 * Z.of_nat n) by lia.
    rewrite Z.pow_add_r by lia. rewrite Z.shiftr_div_pow2 by lia.
    rewrite Z.rem_mul_r by lia. lia.
Qed.

Lemma le_value_bounds bs : bytes_ok bs → fits (8 * Z.of_nat (length bs)) (le_value bs).
Proof.
  induction 1 as [|b bs [? ?] _ IH]; [done|]. unfold fits in *. cbn [le_value length].
  replace (8 * Z.of_nat (S (length bs))) with (8 + 8 * Z.of_nat (length bs)) by lia.
  rewrite Z.pow_add_r by lia. change (2 ^ 8) with 256 in *. nia.
Qed.

Lemma be_value_bounds bs : bytes_ok bs → fits (8 * Z.of_nat (length bs)) (be_value bs).
Proof.
  intros H. unfold be_value. rewrite <-length_rev. apply le_value_bounds.
  by apply Forall_rev.
Qed.

Lemma le_bytes_le_value bs : bytes_ok bs → le_bytes (length bs) (le_value bs) = bs.
Proof.
  induction 1 as [|b bs Hb _ IH]; [done|]. cbn [length le_bytes le_value]. f_equal.
  - unfold wrap. change (2 ^ 8) with 256.
    rewrite (Z.mul_comm 256), Z_mod_plus_full. by apply Z.mod_small.
  - etrans; [|exact IH]. f_equal. rewrite Z.shiftr_div_pow2 by lia. change (2 ^ 8) with 256.
    destruct Hb. change (2 ^ 8) with 256 in *.
    rewrite (Z.mul_comm 256), Z.div_add, Z.div_small by lia. lia.
Qed.

Lemma be_value_be_bytes n z : be_value (be_bytes n z) = wrap (8 * Z.of_nat n) z.
Proof. unfold be_value, be_bytes. by rewrite rev_involutive, le_value_le_bytes. Qed.

#[export] Hint Resolve bytes_ok_le_bytes le_value_bounds be_value_bounds : redesk.
#[export] Hint Rewrite length_le_bytes length_be_bytes : redesk.

(** [std::string] contents as bytes and back. *)
Fixpoint bytes_of_string (s : string) : list Z :=
  match s with
  | EmptyString => []
  | String c s => Z.of_N (Ascii.N_of_ascii c) :: bytes_of_string s
  end.

Fixpoint string_of_bytes (bs : list Z) : string :=
  match bs with
  | [] => EmptyString
  | b :: bs => String (Ascii.ascii_of_N (Z.to_N b)) (string_of_bytes bs)
  end.

Lemma bytes_ok_bytes_of_string s : bytes_ok (bytes_of_string s).
Proof.
  induction s as [|c s IH]; simpl; constructor; [|done].
  pose proof (Ascii.N_ascii_bounded c). unfold byte_ok, fits. lia.
Qed.

Lemma string_of_bytes_of_string s : string_of_bytes (bytes_of_string s) = s.
Proof. induction s; simpl; [done|]. rewrite N2Z.id, Ascii.ascii_N_embedding. by f_equal. Qed.

Lemma bytes_of_string_of_bytes bs :
  bytes_ok bs → bytes_of_string (string_of_bytes bs) = bs.
Proof.
  induction 1 as [|b bs [? ?] _ IH]; simpl; [done|].
  rewrite Ascii.N_ascii_embedding by lia. rewrite Z2N.id by lia. by f_equal.
Qed.

Lemma bytes_of_string_inj s t : bytes_of_string s = bytes_of_string t → s = t.
Proof.
  intros H. by rewrite <-(string_of_bytes_of_string s), H, string_of_bytes_of_string.
Qed.

Lemma length_bytes_of_string s : length (bytes_of_string s) = String.length s.
Proof. induction s; simpl; auto. Qed.

#[export] Hint Resolve bytes_ok_bytes_of_string : redesk.

(** ** A state monad for the stateful parts *)

Definition State (S A : Type) : Type := S → A * S.

#[export] Instance state_ret {S} : MRet (State S) := λ A a s, (a, s).
#[export] Instance state_bind {S} : MBind (State S) :=
  λ A B f m s, let '(a, s') := m s in f a s'.

Definition get {S} : State S S := λ s, (s, s).
Definition gets {S A} (f : S → A) : State S A := λ s, (f s, s).
Definition modify {S} (f : S → S) : State S () := λ s, ((), f s).
Definition when {S} (b : bool) (m : State S ()) : State S () :=
  if b then m else mret ().

Lemma state_bind_run {S A B} (f : A → State S B) (m : State S A) s :
  (m ≫= f) s = f (m s).1 (m s).2.
Proof. unfold mbind, state_bind. by destruct (m s). Qed.

Lemma state_gets_run {S A} (f : S → A) s : gets f s = (f s, s).
Proof. done. Qed.

Lemma state_ret_run {S A} (a : A) (s : S) : (mret a : State S A) s = (a, s).
Proof. done. Qed.

Create Rewrite HintDb state.
#[export] Hint Rewrite @state_bind_run @state_gets_run @state_ret_run : state.

(** Unfold the monad's plumbing and compute. *)
Ltac run_state :=
  repeat (unfold mbind, state_bind, mret, state_ret, get, gets, modify, when in *; simpl in * ).

(** ** Reachability *)

Section reachability.
Context {S : Type} (step : S → S → Prop) (Inv : S → Prop).

Lemma rtc_invariant x y :
  (∀ a b, Inv a → step a b → Inv b) → rtc step x y → Inv x → Inv y.
Proof. intros Hstep. induction 1; eauto. Qed.
End reachability.

(** ** Histories

    [always P h]: every element of the history [h] had [P] of what was before it. *)

Definition always {A} (P : list A → A → Prop) (h : list A) : Prop :=
  ∀ pre e post, h = pre ++ e :: post → P pre e.

Lemma always_nil {A} (P : list A → A → Prop) : always P [].
Proof. intros pre e post H. by destruct pre. Qed.

Lemma always_snoc {A} (P : list A → A → Prop) h e :
  always P h → P h e → always P (h ++ [e]).
Proof.
  intros Hh He pre e' post H. destruct post as [|e2 post _] using rev_ind.
  - by apply app_inj_tail in H as [-> ->].
  - rewrite app_comm_cons, app_assoc in H. apply app_inj_tail in H as [H _]. by eapply Hh.
Qed.

#[export] Hint Resolve always_nil always_snoc : redesk.

(** ** Lists *)

Lemma take_app_exact {A} (l k : list A) n : length l = n → take n (l ++ k) = l.
Proof. intros <-. by rewrite take_app_length. Qed.

Lemma drop_app_exact {A} (l k : list A) n : length l = n → drop n (l ++ k) = k.
Proof. intros <-. by rewrite drop_app_length. Qed.

(** Case analysis on the tests the code makes. *)
Ltac case_tests :=
  repeat (case_match || case_decide || case_bool_decide); simplify_eq/=.

(** A result given by its equation. *)
Ltac exists_refl := eexists; split; [|reflexivity]; done.

(** ** The erase-and-count loop

    [for (it = m.begin(); it != m.end();) if (old(it)) { it = m.erase(it); ++n; }
    else ++it;] on a map, with the count. *)

Section erase_if.
Context {A : Type} (old : A → bool).

Definition erase_if (m : gmap string A) : Z * gmap string A :=
  map_fold (λ i x acc, if old x then (acc.1 + 1, delete i acc.2) else acc) (0, m) m.

(** What is left of [m] when the entries of [visited] have been visited. *)
Definition erase_inv (m : gmap string A) (acc : Z * gmap string A) (visited : gmap string A)
    : Prop :=
  visited ⊆ m →
  (∀ k, acc.2 !! k = match visited !! k with
                     | Some x => if old x then None else m !! k
                     | None => m !! k
                     end) ∧
  acc.1 = Z.of_nat (size m) - Z.of_nat (size acc.2).

Lemma erase_inv_step m acc visited i x :
  visited !! i = None → erase_inv m acc visited →
  erase_inv m (if old x then (acc.1 + 1, delete i acc.2) else acc) (<[i := x]> visited).
Proof.
  intros Hi IH Hsub. destruct IH as [Hmap Hcnt].
  { etrans; [|exact Hsub]. by apply insert_subseteq. }
  assert (m !! i = Some x) as Hm by (eapply lookup_weaken; [apply lookup_insert_eq|done]).
  destruct (old x) eqn:Es; simpl; split.
  - intros k. destruct (decide (k = i)) as [->|].
    + by rewrite lookup_delete_eq, lookup_insert_eq, Es.
    + by rewrite lookup_delete_ne, lookup_insert_ne by done.
  - rewrite Hcnt. rewrite map_size_delete_Some.
    + assert (size acc.2 ≠ 0%nat); [|lia].
      intros H0%map_size_empty_inv. specialize (Hmap i). rewrite H0, Hi, Hm in Hmap. done.
    + rewrite Hmap, Hi, Hm. by eexists.
  - intros k. rewrite Hmap. destruct (decide (k = i)) as [->|].
    + by rewrite Hi, lookup_insert_eq, Es.
    + by rewrite lookup_insert_ne by done.
  - done.
Qed.

(** The loop keeps exactly the entries that are not old, and counts the others. *)
Lemma erase_if_spec m :
  (erase_if m).2 = filter (λ '(_, x), old x = false) m ∧
  (erase_if m).1 = Z.of_nat (size m) - Z.of_nat (size (erase_if m).2).
Proof.
  assert (erase_inv m (erase_if m) m) as [Hm Hc].
  { unfold erase_if. apply (map_fold_weak_ind (erase_inv m)).
    - split; [|simpl; lia]. intros k. by rewrite lookup_empty.
    - intros. by apply erase_inv_step. }
  { done. }
  split; [|done]. apply map_eq. intros k. rewrite Hm.
  destruct (m !! k) as [x|] eqn:E.
  - destruct (old x) eqn:Es; symmetry.
    + apply map_lookup_filter_None. right. intros y Hy. simplify_eq. by rewrite Es.
    + by apply map_lookup_filter_Some.
  - symmetry. apply map_lookup_filter_None. by left.
Qed.
End erase_if.
