(* ===== verification/Rounding.v ===== *)
(** * Rounding errors of doubles

    What the Standard Library's executable binary64 computes, in real numbers:
    [dbl x v] says that the float [x] is finite and has the value [v], and each
    operation whose exact result is within range gives the value of that result
    up to one part in 2^53.  [Cursor] and [Letterbox] are proved with these. *)

From S2P Require Import Prelude.
From Stdlib Require Import SpecFloat Reals Lra.

#[local] Open Scope R_scope.

Notation "x ≤ y" := (Rle x y) : R_scope.
Notation "x ≤ y ≤ z" := (Rle x y ∧ Rle y z) : R_scope.
Notation "x < y ≤ z" := (Rlt x y ∧ Rle y z) : R_scope.
Notation "x ≤ y < z" := (Rle x y ∧ Rlt y z) : R_scope.

(** ** Powers of two *)

Definition pow2 (e : Z) : R := powerRZ 2 e.

(** The unit of the relative error. *)
Definition u : R := pow2 (-53).

Lemma pow2_pos e : 0 < pow2 e.
Proof. apply powerRZ_lt. lra. Qed.

Lemma pow2_0 : pow2 0 = 1.
Proof. done. Qed.

Lemma pow2_1 : pow2 1 = 2.
Proof. unfold pow2. simpl. lra. Qed.

Lemma pow2_add a b : pow2 (a + b) = pow2 a * pow2 b.
Proof. apply powerRZ_add. lra. Qed.

Lemma pow2_sub a b : pow2 (a - b) = pow2 a / pow2 b.
Proof.
  pose proof (pow2_pos b). apply (Rmult_eq_reg_r (pow2 b)); [|lra].
  rewrite <-pow2_add. replace (a - b + b)%Z with a by lia. field. lra.
Qed.

Lemma pow2_int n : (0 ≤ n)%Z → pow2 n = IZR (2 ^ n).
Proof.
  intros Hn. unfold pow2. rewrite <-(Z2Nat.id n) by done.
  by rewrite <-pow_powerRZ, <-pow_IZR.
Qed.

Lemma pow2_le a b : (a ≤ b)%Z → pow2 a ≤ pow2 b.
Proof.
  intros Hab. replace b with (a + (b - a))%Z by lia. rewrite pow2_add, (pow2_int (b - a)) by lia.
  pose proof (pow2_pos a). assert (1 ≤ IZR (2 ^ (b - a))); [|nra].
  apply IZR_le. pose proof (Z.pow_pos_nonneg 2 (b - a)). lia.
Qed.

Lemma pow2_lt_inv a b : pow2 a < pow2 b → (a < b)%Z.
Proof. intros H. apply Z.nle_gt. intros Hle%pow2_le. lra. Qed.

(** ** Digits *)

Lemma digits_log2 m : Z.pos (digits2_pos m) = (Z.log2 (Z.pos m) + 1)%Z.
Proof.
  induction m as [m IH|m IH|]; [| |done]; cbn [digits2_pos]; rewrite Pos2Z.inj_succ, IH.
  - rewrite Pos2Z.inj_xI, Z.log2_succ_double by lia. lia.
  - rewrite Pos2Z.inj_xO, Z.log2_double by lia. lia.
Qed.

Lemma digits_spec m d :
  Z.pos (digits2_pos m) = d → (0 < d ∧ 2 ^ (d - 1) ≤ Z.pos m < 2 ^ d)%Z.
Proof.
  rewrite digits_log2. intros <-. pose proof (Z.log2_nonneg (Z.pos m)).
  pose proof (Z.log2_spec (Z.pos m) ltac:(lia)) as Hs.
  replace (Z.log2 (Z.pos m) + 1 - 1)%Z with (Z.log2 (Z.pos m)) by lia. by split; [lia|].
Qed.

Lemma digits_bounds m d :
  Z.pos (digits2_pos m) = d → (0 < d)%Z ∧ pow2 (d - 1) ≤ IZR (Z.pos m) < pow2 d.
Proof.
  intros [Hd [Hl Hu]]%digits_spec. split; [done|]. rewrite !pow2_int by lia.
  split; [by apply IZR_le|by apply IZR_lt].
Qed.

Lemma digits_unique m d :
  (0 < d)%Z → (2 ^ (d - 1) ≤ Z.pos m < 2 ^ d)%Z → Z.pos (digits2_pos m) = d.
Proof.
  intros Hd Hm. rewrite digits_log2. assert (Z.log2 (Z.pos m) = d - 1)%Z; [|lia].
  apply Z.log2_unique; [lia|]. by replace (Z.succ (d - 1)) with d by lia.
Qed.

(** ** Shifting out bits *)

(** The record stands for [y]: the mantissa is its integer part, the two bits say
    where the rest lies in the unit. *)
Definition rep (r : shr_record) (y : R) : Prop :=
  (0 ≤ shr_m r)%Z ∧
  let f := y - IZR (shr_m r) in
  match shr_r r, shr_s r with
  | false, false => f = 0
  | false, true => 0 < f < 1 / 2
  | true, false => f = 1 / 2
  | true, true => 1 / 2 < f < 1
  end.

Lemma rep_floor r y : rep r y → IZR (shr_m r) ≤ y < IZR (shr_m r) + 1.
Proof. intros [_ H]. destruct (shr_r r), (shr_s r); lra. Qed.

Lemma shr_m_loc m l : shr_m (shr_record_of_loc m l) = m.
Proof. by destruct l as [|[]]. Qed.

Lemma shr_1_rep r y : rep r y → rep (shr_1 r) (y / 2).
Proof.
  destruct r as [m r s]. intros [Hm H]. cbn [shr_m shr_r shr_s] in *.
  destruct m as [|[p|p|]|]; [| | | |lia]; cbn [shr_1];
    (split; [cbn [shr_m]; lia|]); cbn [shr_m shr_r shr_s];
    rewrite ?(Pos2Z.inj_xI p), ?(Pos2Z.inj_xO p), ?plus_IZR, ?mult_IZR in H;
    destruct r, s; cbn [orb]; lra.
Qed.

Lemma shr_iter_rep p r y : rep r y → rep (SpecFloat.iter_pos shr_1 p r) (y / pow2 (Z.pos p)).
Proof.
  revert r y. induction p as [p IH|p IH|]; intros r y H; cbn [SpecFloat.iter_pos].
  - rewrite Pos2Z.inj_xI, <-Z.add_diag, !pow2_add.
    replace (y / _) with (y / 2 / pow2 (Z.pos p) / pow2 (Z.pos p)).
    + by apply IH, IH, shr_1_rep.
    + rewrite pow2_1. pose proof (pow2_pos (Z.pos p)). field. lra.
  - rewrite Pos2Z.inj_xO, <-Z.add_diag, !pow2_add.
    replace (y / _) with (y / pow2 (Z.pos p) / pow2 (Z.pos p)).
    + by apply IH, IH.
    + pose proof (pow2_pos (Z.pos p)). field. lra.
  - rewrite pow2_1. by apply shr_1_rep.
Qed.

Lemma shr_rep r e n y : (0 ≤ n)%Z → rep r y →
  ∃ r', shr r e n = (r', (e + n)%Z) ∧ rep r' (y / pow2 n).
Proof.
  intros Hn H. destruct n as [|p|p]; [| |lia]; cbn [shr].
  - exists r. rewrite Z.add_0_r. split; [done|]. by rewrite pow2_0, Rdiv_1_r.
  - eexists. split; [done|]. by apply shr_iter_rep.
Qed.

(** Rounding moves by at most a half, to one of the two neighbours. *)
Lemma round_rep r y :
  rep r y →
  let m := round_nearest_even (shr_m r) (loc_of_shr_record r) in
  (shr_m r ≤ m ≤ shr_m r + 1)%Z ∧ - (1 / 2) ≤ IZR m - y ≤ 1 / 2 ∧
  (shr_r r = false → shr_s r = false → IZR m = y).
Proof.
  destruct r as [m [] []]; intros [_ H]; cbn [shr_m shr_r shr_s loc_of_shr_record] in *;
    cbn [round_nearest_even]; [|destruct (Z.even m)|..]; rewrite ?plus_IZR;
    repeat split; done || lia || lra.
Qed.

(** ** Rounding a number in the normal range *)

Definition normal (m : positive) (e : Z) : Prop :=
  Z.pos (digits2_pos m) = 53%Z ∧ (-1074 ≤ e ≤ 971)%Z.

Definition canonical (m : positive) (e : Z) : Prop :=
  normal m e ∨ (e = -1074 ∧ Z.pos (digits2_pos m) ≤ 53)%Z.

Lemma fexp_normal k : (-1021 ≤ k)%Z → fexp 53 1024 k = (k - 53)%Z.
Proof. intros. unfold fexp, emin. lia. Qed.

Lemma fexp_subnormal k : (k ≤ -1021)%Z → fexp 53 1024 k = (-1074)%Z.
Proof. intros. unfold fexp, emin. lia. Qed.

Lemma shr_fexp_rep m e l y :
  let d := Zdigits2 m in
  (53 ≤ d)%Z → (-1021 ≤ d + e)%Z → rep (shr_record_of_loc m l) y →
  ∃ r, shr_fexp 53 1024 m e l = (r, (d + e - 53)%Z) ∧ rep r (y / pow2 (d - 53)).
Proof.
  intros d Hd He H. unfold shr_fexp. fold d. rewrite fexp_normal by done.
  destruct (shr_rep _ e (d + e - 53 - e) y ltac:(lia) H) as (r & -> & Hr).
  exists r. replace (d + e - 53 - e)%Z with (d - 53)%Z in * by lia.
  split; [|done]. by replace (e + (d - 53))%Z with (d + e - 53)%Z by lia.
Qed.

(** The second normalisation, of a mantissa that rounding may have carried to
    2^53. *)
Lemma carry m e :
  (2 ^ 52 ≤ m ≤ 2 ^ 53)%Z → (-1074 ≤ e ≤ 970)%Z →
  ∃ m' e' r, shr_fexp 53 1024 m e loc_Exact = (Build_shr_record (Z.pos m') false r, e') ∧
    normal m' e' ∧ IZR (Z.pos m') * pow2 e' = IZR m * pow2 e.
Proof.
  intros Hm He. destruct (decide (m = 2 ^ 53)%Z) as [->|Hne].
  - exists (2 ^ 52)%positive, (e + 1)%Z, false. split_and!.
    + unfold shr_fexp. change (Zdigits2 (2 ^ 53)) with 54%Z.
      rewrite fexp_normal by lia. by replace (54 + e - 53 - e)%Z with 1%Z by lia.
    + split; [done|lia].
    + rewrite pow2_add, pow2_1. change (2 ^ 53)%Z with (Z.pos (2 ^ 52) * 2)%Z.
      rewrite mult_IZR. ring.
  - destruct m as [|p|p]; [lia| |lia]. exists p, e, false.
    assert (Z.pos (digits2_pos p) = 53)%Z as Hd by (apply digits_unique; lia).
    split_and!; [|by split; lia|done].
    unfold shr_fexp. cbn [Zdigits2]. rewrite Hd, fexp_normal by lia.
    by replace (53 + e - 53 - e)%Z with 0%Z by lia.
Qed.

Lemma rep_exact m : (0 ≤ m)%Z → rep (shr_record_of_loc m loc_Exact) (IZR m).
Proof. intros Hm. split; [done|]. simpl. lra. Qed.

(** A mantissa of [d] bits, scaled to 53 of them. *)
Lemma mantissa_53 m l y :
  let d := Z.pos (digits2_pos m) in
  rep (shr_record_of_loc (Z.pos m) l) y → pow2 52 ≤ y / pow2 (d - 53) < pow2 53.
Proof.
  intros d H. pose proof (rep_floor _ _ H) as Hy. rewrite shr_m_loc in Hy.
  destruct (digits_bounds m d eq_refl) as (Hd & Hml & Hmu).
  assert (IZR (Z.pos m) + 1 ≤ pow2 d) as Hmd.
  { rewrite pow2_int in * by lia. rewrite <-plus_IZR. apply IZR_le. apply lt_IZR in Hmu. lia. }
  replace d with (d - 53 + 53)%Z in Hmd by lia.
  replace (d - 1)%Z with (d - 53 + 52)%Z in Hml by lia.
  rewrite pow2_add in Hml, Hmd. pose proof (pow2_pos (d - 53)) as Hp.
  set (z := y / pow2 (d - 53)). assert (y = z * pow2 (d - 53)) by (unfold z; field; lra).
  split; apply Rmult_le_reg_r with (pow2 (d - 53)) || apply Rmult_lt_reg_r with (pow2 (d - 53)); lra.
Qed.

Lemma round_aux_normal s m e l y :
  let d := Z.pos (digits2_pos m) in
  (53 ≤ d)%Z → (-1021 ≤ d + e ≤ 1023)%Z → rep (shr_record_of_loc (Z.pos m) l) y →
  ∃ m' e', binary_round_aux 53 1024 s (Z.pos m) e l = S754_finite s m' e' ∧
    normal m' e' ∧ Rabs (IZR (Z.pos m') * pow2 e' - y * pow2 e) ≤ u * (y * pow2 e).
Proof.
  intros d Hd He H. pose proof (rep_floor _ _ H) as Hy.
  destruct (digits_bounds m d eq_refl) as [_ Hm].
  rewrite shr_m_loc in Hy.
  destruct (shr_fexp_rep (Z.pos m) e l y Hd ltac:(apply He) H) as (r & Hr & Hrep).
  cbn [Zdigits2] in *. fold d in Hr, Hrep.
  set (z := y / pow2 (d - 53)) in *.
  assert (pow2 52 ≤ z < pow2 53) as Hz by by apply (mantissa_53 m l).
  destruct (round_rep r z Hrep) as (Hm1 & Herr & _).
  set (m1 := round_nearest_even (shr_m r) (loc_of_shr_record r)) in *.
  pose proof (rep_floor r z Hrep) as Hf. rewrite !pow2_int in Hz by lia.
  assert (2 ^ 52 ≤ shr_m r < 2 ^ 53)%Z as Hrm.
  { split; [apply Z.lt_succ_r, lt_IZR; rewrite succ_IZR|apply lt_IZR]; lra. }
  destruct (carry m1 (d + e - 53) ltac:(lia) ltac:(lia)) as (m' & e' & b & Hc & Hn & Hv).
  exists m', e'. unfold binary_round_aux. rewrite Hr. fold m1. rewrite Hc. cbn [shr_m].
  rewrite (proj2 (Z.leb_le _ _)) by (destruct Hn; lia).
  split_and!; [done|done|]. rewrite Hv.
  assert (y * pow2 e = z * pow2 (d + e - 53)) as ->.
  { unfold z. replace (d + e - 53)%Z with (d - 53 + e)%Z by lia. rewrite pow2_add.
    pose proof (pow2_pos (d - 53)). field. lra. }
  pose proof (pow2_pos (d + e - 53)) as Hp. rewrite <-Rmult_minus_distr_r, Rabs_mult.
  rewrite (Rabs_pos_eq (pow2 _)) by lra. rewrite <-Rmult_assoc.
  apply Rmult_le_compat_r; [lra|]. apply Rabs_le.
  assert (u * IZR (2 ^ 52) = 1 / 2) as Hu.
  { unfold u. rewrite <-pow2_int, <-pow2_add by lia. unfold pow2. simpl. lra. }
  assert (0 < u) by apply pow2_pos. nra.
Qed.

(** A mantissa that is already normal, or on the lowest exponent, stays. *)
Lemma round_aux_canonical s m e :
  canonical m e → binary_round_aux 53 1024 s (Z.pos m) e loc_Exact = S754_finite s m e.
Proof.
  intros H. assert (shr_fexp 53 1024 (Z.pos m) e loc_Exact =
    (shr_record_of_loc (Z.pos m) loc_Exact, e)) as E.
  { unfold shr_fexp. cbn [Zdigits2].
    replace (fexp 53 1024 (Z.pos (digits2_pos m) + e) - e)%Z with 0%Z; [done|].
    unfold fexp, emin. destruct H as [[-> ?]|[-> ?]]; lia. }
  unfold binary_round_aux. rewrite E. cbn [shr_record_of_loc shr_m loc_of_shr_record].
  cbn [round_nearest_even]. rewrite E. cbn [shr_record_of_loc shr_m].
  rewrite (proj2 (Z.leb_le _ _)); [done|]. destruct H as [[? ?]|[-> ?]]; lia.
Qed.

(** ** Floats and their values *)

Definition sgn (s : bool) : R := if s then -1 else 1.

Definition dbl (x : spec_float) (v : R) : Prop :=
  match x with
  | S754_zero _ => v = 0
  | S754_finite s m e => v = sgn s * (IZR (Z.pos m) * pow2 e) ∧ canonical m e
  | _ => False
  end.

(** [x] is [v] up to one part in 2^53. *)
Definition rounds (x : spec_float) (v : R) : Prop :=
  ∃ w, dbl x w ∧ Rabs (w - v) ≤ u * Rabs v.

Lemma u_pos : 0 < u.
Proof. apply pow2_pos. Qed.

Lemma rounds_exact x v : dbl x v → rounds x v.
Proof.
  intros H. exists v. split; [done|]. rewrite Rminus_diag, Rabs_R0.
  apply Rmult_le_pos; [left; apply u_pos|apply Rabs_pos].
Qed.

Lemma Rabs_sign s : Rabs (sgn s) = 1.
Proof. destruct s; simpl; [rewrite Rabs_left|rewrite Rabs_pos_eq]; lra. Qed.

Lemma Rabs_sgn s x : 0 ≤ x → Rabs (sgn s * x) = x.
Proof. intros Hx. rewrite Rabs_mult, Rabs_sign, Rabs_pos_eq by done. ring. Qed.

Lemma rounds_aux s m e l y :
  let d := Z.pos (digits2_pos m) in
  (53 ≤ d)%Z → (-1021 ≤ d + e ≤ 1023)%Z → rep (shr_record_of_loc (Z.pos m) l) y →
  rounds (binary_round_aux 53 1024 s (Z.pos m) e l) (sgn s * (y * pow2 e)).
Proof.
  intros d Hd He H. pose proof (rep_floor _ _ H) as Hy.
  destruct (round_aux_normal s m e l y Hd He H) as (m' & e' & -> & Hn & Herr).
  exists (sgn s * (IZR (Z.pos m') * pow2 e')). split; [split; [done|by left]|].
  assert (0 ≤ y * pow2 e).
  { apply Rmult_le_pos; [|left; apply pow2_pos].
    assert (0 < IZR (Z.pos m)) by by apply IZR_lt.
    rewrite shr_m_loc in Hy. lra. }
  rewrite Rabs_sgn, <-Rmult_minus_distr_l, Rabs_mult, Rabs_sign by done. lra.
Qed.

(** The exponent range of a value. *)
Lemma digits_range m e a b :
  pow2 a ≤ IZR (Z.pos m) * pow2 e → IZR (Z.pos m) * pow2 e < pow2 b →
  (a < Z.pos (digits2_pos m) + e ≤ b)%Z.
Proof.
  intros Ha Hb. destruct (digits_bounds m _ eq_refl) as [_ [Hl Hu]].
  pose proof (pow2_pos e).
  split; [apply pow2_lt_inv|apply Z.lt_pred_le, pow2_lt_inv].
  - rewrite pow2_add. eapply Rle_lt_trans; [exact Ha|]. by apply Rmult_lt_compat_r.
  - replace (Z.pred (Z.pos (digits2_pos m) + e)) with (Z.pos (digits2_pos m) - 1 + e)%Z by lia.
    rewrite pow2_add. eapply Rle_lt_trans; [|exact Hb]. apply Rmult_le_compat_r; lra.
Qed.

(** ** Normalising, addition and subtraction *)

Lemma iter_xO m d : Z.pos (Pos.iter xO m d) = (Z.pos m * 2 ^ Z.pos d)%Z.
Proof.
  induction d as [|d IH] using Pos.peano_ind; [rewrite Z.pow_1_r; simpl; lia|].
  rewrite Pos.iter_succ, Pos2Z.inj_xO, IH, Pos2Z.inj_succ, Z.pow_succ_r by lia. lia.
Qed.

Lemma shl_align_spec m e e' :
  ∃ mz ez, shl_align m e e' = (mz, ez) ∧ ez = Z.min e e' ∧
    Z.pos mz = (Z.pos m * 2 ^ (e - ez))%Z ∧
    (Z.pos (digits2_pos mz) + ez = Z.pos (digits2_pos m) + e)%Z ∧
    IZR (Z.pos mz) * pow2 ez = IZR (Z.pos m) * pow2 e.
Proof.
  assert (∃ mz ez, shl_align m e e' = (mz, ez) ∧ ez = Z.min e e' ∧
    Z.pos mz = (Z.pos m * 2 ^ (e - ez))%Z) as (mz & ez & Hs & Hez & Hm).
  { unfold shl_align. destruct (e' - e)%Z as [|d|d] eqn:Ed.
    - exists m, e. rewrite Z.sub_diag, Z.mul_1_r. split_and!; done || lia.
    - exists m, e. rewrite Z.sub_diag, Z.mul_1_r. split_and!; done || lia.
    - exists (Pos.iter xO m d), e'. rewrite iter_xO. replace (e - e')%Z with (Z.pos d) by lia.
      split_and!; done || lia. }
  exists mz, ez. split_and!; [done|done|done| |].
  - rewrite !digits_log2, Hm, Z.log2_mul_pow2 by lia. lia.
  - rewrite Hm, mult_IZR, <-pow2_int by lia. rewrite Rmult_assoc, <-pow2_add.
    by replace (e - ez + ez)%Z with e by lia.
Qed.

Lemma round_rounds s m e :
  (-1074 ≤ e)%Z → IZR (Z.pos m) * pow2 e < pow2 1023 →
  rounds (binary_round 53 1024 s m e) (sgn s * (IZR (Z.pos m) * pow2 e)).
Proof.
  intros He Hub. unfold binary_round. set (d := Z.pos (digits2_pos m)).
  destruct (shl_align_spec m e (fexp 53 1024 (d + e))) as (mz & ez & -> & Hez & _ & Hd & <-).
  fold d in Hd. rewrite <-Hd in Hez.
  assert (d + e ≤ 1023)%Z as Hde.
  { eapply proj2, (digits_range m e (- 1 - 1 + e)%Z 1023); [|done].
    rewrite pow2_add. apply Rmult_le_compat_r; [left; apply pow2_pos|].
    assert (1 ≤ IZR (Z.pos m)) by (apply IZR_le; lia). unfold pow2. simpl. lra. }
  destruct (decide (-1021 ≤ d + e)%Z) as [Hn|Hn].
  - rewrite Hd, fexp_normal in Hez by lia.
    destruct (decide (Z.pos (digits2_pos mz) < 53)%Z); [lia|].
    apply rounds_aux; [lia|lia|]. by apply rep_exact.
  - rewrite Hd, fexp_subnormal in Hez by lia. assert (ez = -1074)%Z as -> by lia.
    assert (canonical mz (-1074)) as Hc by (right; split; lia).
    rewrite round_aux_canonical by done. by apply rounds_exact.
Qed.

Lemma normalize_rounds z e b :
  (-1074 ≤ e)%Z → Rabs (IZR z * pow2 e) < pow2 1023 →
  rounds (binary_normalize 53 1024 z e b) (IZR z * pow2 e).
Proof.
  intros He Hub. pose proof (pow2_pos e). destruct z as [|m|m]; simpl.
  - apply rounds_exact. simpl. lra.
  - rewrite <-(Rmult_1_l (_ * _)). rewrite Rabs_pos_eq in Hub.
    + by apply (round_rounds false).
    + apply Rmult_le_pos; [by apply IZR_le|lra].
  - change (Z.neg m) with (- Z.pos m)%Z in *. rewrite opp_IZR in *.
    replace (- IZR (Z.pos m) * pow2 e) with (sgn true * (IZR (Z.pos m) * pow2 e)) in *
      by (simpl; ring).
    rewrite Rabs_sgn in Hub by (apply Rmult_le_pos; [by apply IZR_le|lra]).
    by apply round_rounds.
Qed.

(** Small mantissas are exact. *)
Lemma round_exact s m e :
  (Z.pos (digits2_pos m) ≤ 53)%Z → (-1021 ≤ Z.pos (digits2_pos m) + e ≤ 1023)%Z →
  dbl (binary_round 53 1024 s m e) (sgn s * (IZR (Z.pos m) * pow2 e)).
Proof.
  intros Hm He. unfold binary_round. set (d := Z.pos (digits2_pos m)) in *.
  destruct (shl_align_spec m e (fexp 53 1024 (d + e))) as (mz & ez & -> & Hez & _ & Hd & <-).
  rewrite fexp_normal in Hez by lia.
  assert (canonical mz ez) as Hc by (left; split; lia).
  by rewrite round_aux_canonical.
Qed.

Lemma normalize_exact z e b :
  (Z.abs z < 2 ^ 53)%Z → (-1021 ≤ e ≤ 970)%Z →
  dbl (binary_normalize 53 1024 z e b) (IZR z * pow2 e).
Proof.
  intros Hz He. assert (∀ m, Z.pos m < 2 ^ 53 → Z.pos (digits2_pos m) ≤ 53)%Z as Hd.
  { intros m Hm. rewrite digits_log2. assert (Z.log2 (Z.pos m) < 53)%Z; [|lia].
    by apply Z.log2_lt_pow2. }
  destruct z as [|m|m]; cbn [binary_normalize].
  - simpl. ring.
  - rewrite <-(Rmult_1_l (_ * _)). specialize (Hd m ltac:(lia)). apply (round_exact false); lia.
  - specialize (Hd m ltac:(lia)). change (Z.neg m) with (- Z.pos m)%Z. rewrite opp_IZR.
    replace (- IZR (Z.pos m) * pow2 e) with (sgn true * (IZR (Z.pos m) * pow2 e))
      by (simpl; ring).
    apply (round_exact true); lia.
Qed.

Lemma canonical_range m e : canonical m e → (-1074 ≤ e ≤ 971)%Z.
Proof. intros [[_ ?]|[-> _]]; lia. Qed.

Lemma cond_Zopp_sgn s m : IZR (cond_Zopp s (Z.pos m)) = sgn s * IZR (Z.pos m).
Proof. destruct s; simpl; [change (Z.neg m) with (- Z.pos m)%Z; rewrite opp_IZR|]; ring. Qed.

Lemma align_fst s m e e' :
  (e' ≤ e)%Z →
  IZR (cond_Zopp s (Z.pos (shl_align m e e').1)) * pow2 e' = sgn s * (IZR (Z.pos m) * pow2 e).
Proof.
  intros He. destruct (shl_align_spec m e e') as (mz & ez & -> & Hez & _ & _ & Hv). simpl fst.
  rewrite cond_Zopp_sgn, Rmult_assoc, <-Hv. by replace ez with e' by lia.
Qed.

Lemma dbl_add x y v w :
  dbl x v → dbl y w → Rabs (v + w) < pow2 1023 → rounds (SFadd 53 1024 x y) (v + w).
Proof.
  intros Hx Hy Hub. destruct x as [s| | |s m e]; try done.
  - simpl in Hx. subst v. rewrite Rplus_0_l. destruct y as [s'| | |]; try done;
      [|by apply rounds_exact].
    simpl in Hy. subst w. apply rounds_exact. by destruct s, s'.
  - destruct y as [s'| | |s' m' e']; try done.
    + simpl in Hy. subst w. rewrite Rplus_0_r. by apply rounds_exact.
    + destruct Hx as [-> Hc%canonical_range], Hy as [-> Hc'%canonical_range]. cbn [SFadd].
      rewrite <-(align_fst s m e (Z.min e e')), <-(align_fst s' m' e' (Z.min e e')) in * by lia.
      rewrite <-Rmult_plus_distr_r, <-plus_IZR in *. apply normalize_rounds; [lia|done].
Qed.

Lemma dbl_opp x v : dbl x v → dbl (SFopp x) (- v).
Proof.
  destruct x as [s| | |s m e]; try done; simpl; [intros ->; lra|].
  intros [-> Hc]. split; [|done]. destruct s; simpl; ring.
Qed.

Lemma dbl_sub x y v w :
  dbl x v → dbl y w → Rabs (v - w) < pow2 1023 → rounds (SFsub 53 1024 x y) (v - w).
Proof.
  intros Hx Hy Hub. destruct x as [s| | |s m e]; try done.
  - simpl in Hx. subst v. rewrite Rminus_0_l. apply rounds_exact.
    destruct y as [s'| | |s' m' e']; try done; simpl in *.
    + subst w. destruct s, s'; simpl; lra.
    + destruct Hy as [-> Hc]. split; [|done]. destruct s'; simpl; ring.
  - destruct y as [s'| | |s' m' e']; try done.
    + simpl in Hy. subst w. rewrite Rminus_0_r. by apply rounds_exact.
    + destruct Hx as [-> Hc%canonical_range], Hy as [-> Hc'%canonical_range]. cbn [SFsub].
      rewrite <-(align_fst s m e (Z.min e e')), <-(align_fst s' m' e' (Z.min e e')) in * by lia.
      rewrite <-Rmult_minus_distr_r, <-minus_IZR in *. apply normalize_rounds; [lia|done].
Qed.

(** ** Absolute errors

    Below the normal range a product or quotient is off by at most half of the
    smallest double, so that without any lower bound the error is at most
    [u * |v| + eta]. *)

Definition eta : R := pow2 (-1075).

Definition near (x : spec_float) (v : R) (δ : R) : Prop := ∃ w, dbl x w ∧ Rabs (w - v) ≤ δ.

Lemma near_exact x v : dbl x v → near x v (u * Rabs v + eta).
Proof.
  intros H. exists v. split; [done|]. rewrite Rminus_diag, Rabs_R0.
  apply Rplus_le_le_0_compat; [|left; apply pow2_pos].
  apply Rmult_le_pos; [left; apply u_pos|apply Rabs_pos].
Qed.

Lemma Zdigits2_bound m : (0 ≤ m)%Z → (0 ≤ Zdigits2 m ∧ m < 2 ^ Zdigits2 m)%Z.
Proof.
  intros Hm. destruct m as [|m|m]; [done| |lia].
  destruct (digits_spec m _ eq_refl) as (_ & _ & ?). by split.
Qed.

(** Shifting all the way down to the lowest exponent. *)
Lemma shr_tiny m e l y :
  (0 ≤ m)%Z → (e ≤ -1074)%Z → (Zdigits2 m + e ≤ -1022)%Z → rep (shr_record_of_loc m l) y →
  ∃ r, shr_fexp 53 1024 m e l = (r, (-1074)%Z) ∧ (0 ≤ shr_m r < 2 ^ 52)%Z ∧
    rep r (y / pow2 (-1074 - e)).
Proof.
  intros Hm He Hd H. destruct (Zdigits2_bound m Hm) as [Hd0 Hmu].
  destruct (shr_rep _ e (-1074 - e) y ltac:(lia) H) as (r & Hr & Hrep).
  replace (e + (-1074 - e))%Z with (-1074)%Z in Hr by lia.
  exists r. split_and!; [|apply Hrep| |done].
  { unfold shr_fexp. by rewrite fexp_subnormal by lia. }
  pose proof (rep_floor _ _ Hrep) as [Hf _]. pose proof (rep_floor _ _ H) as [_ Hy].
  rewrite shr_m_loc in Hy. pose proof (pow2_pos (-1074 - e)).
  apply lt_IZR. eapply Rle_lt_trans; [exact Hf|]. rewrite <-pow2_int by lia.
  apply (Rmult_lt_reg_r (pow2 (-1074 - e))); [done|].
  replace (y / _ * _) with y by (field; lra). rewrite <-pow2_add.
  eapply Rlt_le_trans; [exact Hy|]. apply Rle_trans with (pow2 (Zdigits2 m)); [|apply pow2_le; lia].
  rewrite pow2_int by done. rewrite <-plus_IZR. apply IZR_le. lia.
Qed.

(** The second normalisation leaves such a mantissa alone. *)
Lemma shr_lowest m :
  (0 ≤ m ≤ 2 ^ 52)%Z →
  shr_fexp 53 1024 m (-1074) loc_Exact = (Build_shr_record m false false, (-1074)%Z) ∧
  (Zdigits2 m ≤ 53)%Z.
Proof.
  intros Hm. assert (Zdigits2 m ≤ 53)%Z as Hd.
  { destruct m as [|p|p]; cbn [Zdigits2]; [lia| |lia]. rewrite digits_log2.
    assert (Z.log2 (Z.pos p) < 53)%Z; [|lia]. apply Z.log2_lt_pow2; lia. }
  split; [|done]. unfold shr_fexp.
  by replace (fexp 53 1024 (Zdigits2 m + -1074) - -1074)%Z with 0%Z by (unfold fexp, emin; lia).
Qed.

Lemma round_aux_tiny s m e l y :
  (0 ≤ m)%Z → (e ≤ -1074)%Z → (Zdigits2 m + e ≤ -1022)%Z → rep (shr_record_of_loc m l) y →
  near (binary_round_aux 53 1024 s m e l) (sgn s * (y * pow2 e)) eta.
Proof.
  intros Hm He Hd H. destruct (shr_tiny m e l y Hm He Hd H) as (r & Hr & Hr52 & Hrep).
  destruct (round_rep r _ Hrep) as (Hm1 & Herr & _).
  unfold binary_round_aux. rewrite Hr.
  set (m1 := round_nearest_even (shr_m r) (loc_of_shr_record r)) in *.
  destruct (shr_lowest m1 ltac:(lia)) as [-> Hdig]. cbn [shr_m].
  exists (sgn s * (IZR m1 * pow2 (-1074))). split.
  { destruct m1 as [|p|p]; [simpl; ring| |lia]. split; [done|]. right. auto. }
  pose proof (pow2_pos (-1074 - e)). set (z := y / pow2 (-1074 - e)) in *.
  assert (y * pow2 e = z * pow2 (-1074)) as ->.
  { replace (-1074)%Z with (-1074 - e + e)%Z by lia. rewrite pow2_add. unfold z. field. lra. }
  rewrite <-Rmult_minus_distr_l, <-Rmult_minus_distr_r, !Rabs_mult, Rabs_sign.
  pose proof (pow2_pos (-1074)). rewrite (Rabs_pos_eq (pow2 _)) by lra.
  assert (eta = 1 / 2 * pow2 (-1074)) as ->.
  { unfold eta. change (-1075)%Z with (-1074 - 1)%Z. rewrite pow2_sub, pow2_1. lra. }
  rewrite Rmult_1_l. apply Rmult_le_compat_r; [lra|]. apply Rabs_le. lra.
Qed.

(** What products and quotients come to: the exact result lies in the normal
    range, or has its last bit below the lowest exponent. *)
Definition fits_double (m e : Z) : Prop :=
  (Zdigits2 m + e ≤ 1023)%Z ∧
  ((53 ≤ Zdigits2 m ∧ -1021 ≤ Zdigits2 m + e) ∨ (e ≤ -1074 ∧ Zdigits2 m + e ≤ -1022))%Z.

Lemma eta_pos : 0 < eta.
Proof. apply pow2_pos. Qed.

Lemma rep_upper m l y : (0 ≤ m)%Z → rep (shr_record_of_loc m l) y → 0 ≤ y < pow2 (Zdigits2 m).
Proof.
  intros Hm H. pose proof (rep_floor _ _ H) as Hf. rewrite shr_m_loc in Hf.
  destruct (Zdigits2_bound m Hm) as [Hd Hmu]. rewrite pow2_int by done.
  assert (0 ≤ IZR m) by by apply IZR_le.
  assert (IZR m + 1 ≤ IZR (2 ^ Zdigits2 m)); [|lra]. rewrite <-plus_IZR. apply IZR_le. lia.
Qed.

Lemma round_aux_near s m e l y :
  (0 ≤ m)%Z → fits_double m e → rep (shr_record_of_loc m l) y →
  let v := sgn s * (y * pow2 e) in
  near (binary_round_aux 53 1024 s m e l) v (u * Rabs v + eta) ∧
  (pow2 (-1022) ≤ Rabs v → rounds (binary_round_aux 53 1024 s m e l) v).
Proof.
  intros Hm [Hu Hcase] H v. destruct (rep_upper m l y Hm H) as [Hy Hyu].
  assert (Rabs v = y * pow2 e) as Hv.
  { apply Rabs_sgn, Rmult_le_pos; [done|left; apply pow2_pos]. }
  pose proof eta_pos. pose proof u_pos.
  destruct Hcase as [[Hd He]|[He Hd]].
  - destruct m as [|m|m]; [done| |done].
    assert (rounds (binary_round_aux 53 1024 s (Z.pos m) e l) v) as Hr by by apply rounds_aux.
    split; [|done]. destruct Hr as (w & Hw & Herr). exists w. split; [done|lra].
  - pose proof (round_aux_tiny s m e l y Hm He Hd H) as (w & Hw & Herr).
    assert (0 ≤ u * Rabs v) by (apply Rmult_le_pos; [lra|apply Rabs_pos]).
    split; [exists w; split; [done|unfold v in *; lra]|].
    intros Hlow. rewrite Hv in Hlow.
    assert (y * pow2 e < pow2 (Zdigits2 m + e)) as Hlt.
    { rewrite pow2_add. apply Rmult_lt_compat_r; [apply pow2_pos|done]. }
    pose proof (Rle_lt_trans _ _ _ Hlow Hlt) as ?%pow2_lt_inv. lia.
Qed.

(** ** Products *)

(** The range in which nothing under- or overflows. *)
Definition in_range (v : R) : Prop := v = 0 ∨ pow2 (-1020) ≤ Rabs v < pow2 1023.

Lemma sgn_xorb s s' : sgn (xorb s s') = sgn s * sgn s'.
Proof. destruct s, s'; simpl; ring. Qed.

Lemma mag_pos m e : 0 < IZR (Z.pos m) * pow2 e.
Proof. apply Rmult_lt_0_compat; [by apply IZR_lt|apply pow2_pos]. Qed.

Lemma dbl_finite s m e v :
  v = sgn s * (IZR (Z.pos m) * pow2 e) → Rabs v = IZR (Z.pos m) * pow2 e ∧ v ≠ 0.
Proof.
  intros ->. pose proof (mag_pos m e). rewrite Rabs_sgn by lra. split; [done|].
  destruct s; simpl; lra.
Qed.

Lemma digits_product m m' :
  (Z.pos (digits2_pos m) + Z.pos (digits2_pos m') - 1 ≤ Z.pos (digits2_pos (m * m')) ≤
   Z.pos (digits2_pos m) + Z.pos (digits2_pos m'))%Z.
Proof.
  rewrite !digits_log2, Pos2Z.inj_mul.
  pose proof (Z.log2_mul_below (Z.pos m) (Z.pos m')). pose proof (Z.log2_mul_above (Z.pos m) (Z.pos m')).
  lia.
Qed.

(** Both statements about a product. *)
Lemma dbl_mul_both x y v w :
  dbl x v → dbl y w → Rabs (v * w) < pow2 1023 →
  near (SFmul 53 1024 x y) (v * w) (u * Rabs (v * w) + eta) ∧
  (in_range (v * w) → rounds (SFmul 53 1024 x y) (v * w)).
Proof.
  intros Hx Hy Hub. assert (v * w = 0 → dbl (SFmul 53 1024 x y) (v * w) →
    near (SFmul 53 1024 x y) (v * w) (u * Rabs (v * w) + eta) ∧
    (in_range (v * w) → rounds (SFmul 53 1024 x y) (v * w))) as Hzero.
  { intros Hz Hd. split; [|intros _; by apply rounds_exact]. by apply near_exact. }
  destruct x as [s| | |s m e]; try done.
  { simpl in Hx. subst v. apply Hzero; rewrite Rmult_0_l; [done|]. by destruct y. }
  destruct y as [s'| | |s' m' e']; try done.
  { simpl in Hy. subst w. apply Hzero; by rewrite Rmult_0_r. }
  clear Hzero. destruct Hx as [Hv Hc], Hy as [Hw Hc']. cbn [SFmul].
  assert (v * w = sgn (xorb s s') * (IZR (Z.pos (m * m')) * pow2 (e + e'))) as E.
  { rewrite sgn_xorb, Pos2Z.inj_mul, mult_IZR, pow2_add, Hv, Hw. ring. }
  destruct (dbl_finite _ _ _ _ E) as [Habs Hn0].
  pose proof (digits_product m m') as Hdp. rewrite Habs in Hub.
  assert (Z.pos (digits2_pos (m * m')) + (e + e') ≤ 1023)%Z as Hd.
  { destruct (digits_bounds (m * m') _ eq_refl) as (_ & Hl & _).
    apply Z.lt_pred_le, pow2_lt_inv. eapply Rle_lt_trans; [|exact Hub].
    replace (Z.pred (Z.pos (digits2_pos (m * m')) + (e + e')))
      with (Z.pos (digits2_pos (m * m')) - 1 + (e + e'))%Z by lia.
    rewrite pow2_add. apply Rmult_le_compat_r; [left; apply pow2_pos|done]. }
  destruct (round_aux_near (xorb s s') (Z.pos (m * m')) (e + e') loc_Exact (IZR (Z.pos (m * m'))))
    as [Hn Hr]; [done| |by apply rep_exact|].
  { split; [done|]. cbn [Zdigits2].
    destruct Hc as [[? ?]|[-> ?]], Hc' as [[? ?]|[-> ?]]; lia. }
  rewrite <-E in Hn, Hr. split; [done|]. intros [H0|[Hl _]]; [done|].
  apply Hr. pose proof (pow2_le (-1022) (-1020) ltac:(done)). lra.
Qed.

Lemma in_range_upper v : in_range v → Rabs v < pow2 1023.
Proof. intros [->|[_ ?]]; [rewrite Rabs_R0; apply pow2_pos|done]. Qed.

Lemma dbl_mul x y v w :
  dbl x v → dbl y w → in_range (v * w) → rounds (SFmul 53 1024 x y) (v * w).
Proof. intros Hx Hy Hr. apply dbl_mul_both; [done..|by apply in_range_upper|done]. Qed.

Lemma dbl_mul_near x y v w :
  dbl x v → dbl y w → Rabs (v * w) < pow2 1023 →
  near (SFmul 53 1024 x y) (v * w) (u * Rabs (v * w) + eta).
Proof. intros Hx Hy Hr. by apply dbl_mul_both. Qed.

(** ** Quotients *)

(** The location of the remainder [k] among [n] steps. *)
Lemma location_rep q n k :
  (0 ≤ q)%Z → (0 ≤ k < n)%Z →
  rep (shr_record_of_loc q (new_location n k)) (IZR q + IZR k / IZR n).
Proof.
  intros Hq Hk. assert (0 < IZR n) as Hn by (apply IZR_lt; lia).
  assert (IZR k / IZR n * IZR n = IZR k) as Hf by (field; lra).
  set (f := IZR k / IZR n) in *.
  assert (0 ≤ IZR k) by (apply IZR_le; lia). assert (IZR k < IZR n) by (apply IZR_lt; lia).
  assert ((2 * k < n)%Z → f < 1 / 2) as Hlt.
  { intros Hc%IZR_lt. rewrite mult_IZR in Hc. nra. }
  assert ((2 * k = n)%Z → f = 1 / 2) as Heq.
  { intros Hc%IZR_eq. rewrite mult_IZR in Hc. nra. }
  assert ((n < 2 * k)%Z → 1 / 2 < f) as Hgt.
  { intros Hc%IZR_lt. rewrite mult_IZR in Hc. nra. }
  unfold new_location, new_location_even, new_location_odd.
  destruct (decide (k = 0%Z)) as [->|Hk0].
  { destruct (Z.even n); (split; [done|]); simpl; nra. }
  assert (Z.eqb k 0 = false) as Hkb by by apply Z.eqb_neq.
  assert (0 < IZR k) by (apply IZR_lt; lia). assert (0 < f < 1) by nra.
  destruct (Z.even n) eqn:Ev; rewrite Hkb.
  - destruct (Z.compare_spec (2 * k) n); (split; [done|]); simpl.
    + rewrite Heq by done. lra.
    + specialize (Hlt ltac:(lia)). lra.
    + specialize (Hgt ltac:(lia)). lra.
  - assert (2 * k ≠ n)%Z by (intros <-; by rewrite Z.even_mul in Ev).
    destruct (Z.compare_spec (2 * k + 1) n); (split; [done|]); simpl.
    1, 2: specialize (Hlt ltac:(lia)); lra.
    specialize (Hgt ltac:(lia)). lra.
Qed.

Lemma Rdiv_scale a n b n' :
  b ≠ 0 → a * pow2 n / (b * pow2 n') = a / b * pow2 (n - n').
Proof. intros Hb. rewrite pow2_sub. pose proof (pow2_pos n'). field. lra. Qed.

Lemma div_lt a b a' b' : 0 < a → a < a' → 0 < b' → b' ≤ b → a / b < a' / b'.
Proof.
  intros. apply (Rmult_lt_reg_r (b * b')); [nra|].
  replace (a / b * (b * b')) with (a * b') by (field; lra).
  replace (a' / b' * (b * b')) with (a' * b) by (field; lra). nra.
Qed.

Lemma div_gt a b a' b' : 0 < a' → a' ≤ a → 0 < b → b < b' → a' / b' < a / b.
Proof.
  intros. apply (Rmult_lt_reg_r (b * b')); [nra|].
  replace (a / b * (b * b')) with (a * b') by (field; lra).
  replace (a' / b' * (b * b')) with (a' * b) by (field; lra). nra.
Qed.

(** The quotient lies above the power of two its operands' sizes tell. *)
Lemma quotient_lower m e m' e' :
  pow2 (Z.pos (digits2_pos m) + e - (Z.pos (digits2_pos m') + e') - 1) <
  IZR (Z.pos m) / IZR (Z.pos m') * pow2 (e - e').
Proof.
  set (d := Z.pos (digits2_pos m)). set (d' := Z.pos (digits2_pos m')).
  destruct (digits_bounds m d eq_refl) as (_ & Hml & _).
  destruct (digits_bounds m' d' eq_refl) as (_ & _ & Hmu').
  assert (0 < IZR (Z.pos m')) by by apply IZR_lt. pose proof (pow2_pos (d - 1)).
  pose proof (div_gt (IZR (Z.pos m)) (IZR (Z.pos m')) (pow2 (d - 1)) (pow2 d')
    ltac:(done) ltac:(done) ltac:(done) ltac:(done)) as Hgt.
  rewrite <-pow2_sub in Hgt. apply (Rmult_lt_compat_r (pow2 (e - e'))) in Hgt; [|apply pow2_pos].
  rewrite <-pow2_add in Hgt.
  by replace (d + e - (d' + e') - 1)%Z with (d - 1 - d' + (e - e'))%Z by lia.
Qed.

(** The integer quotient behind a division, and its remainder. *)
Lemma div_core_eq m e m' e' :
  let k := (Z.pos (digits2_pos m) + e - (Z.pos (digits2_pos m') + e'))%Z in
  let ez := Z.min (fexp 53 1024 k) (e - e') in
  let n := (Z.pos m * 2 ^ (e - e' - ez))%Z in
  SFdiv_core_binary 53 1024 (Z.pos m) e (Z.pos m') e' =
    ((n / Z.pos m')%Z, ez, new_location (Z.pos m') (n `mod` Z.pos m')).
Proof.
  intros k ez n. unfold SFdiv_core_binary. cbn [Zdigits2]. fold k. fold ez.
  assert (match (e - e' - ez)%Z with Z0 => Z.pos m | Z.pos _ => Z.shiftl (Z.pos m) (e - e' - ez)
    | Z.neg _ => 0%Z end = n) as ->.
  { unfold n. destruct (e - e' - ez)%Z as [|p|p] eqn:Es; [lia|by rewrite Z.shiftl_mul_pow2|lia]. }
  by rewrite (surjective_pairing (Z.div_eucl n (Z.pos m'))).
Qed.

Lemma div_exact m e m' e' ez :
  let n := (Z.pos m * 2 ^ (e - e' - ez))%Z in
  (ez ≤ e - e')%Z →
  (IZR (n / Z.pos m') + IZR (n `mod` Z.pos m') / IZR (Z.pos m')) * pow2 ez =
    IZR (Z.pos m) / IZR (Z.pos m') * pow2 (e - e').
Proof.
  intros n He. pose proof (Z.div_mod n (Z.pos m') ltac:(done)) as Hn.
  assert (0 < IZR (Z.pos m')) by by apply IZR_lt.
  assert (IZR (n / Z.pos m') + IZR (n `mod` Z.pos m') / IZR (Z.pos m')
    = IZR n / IZR (Z.pos m')) as ->.
  { rewrite Hn at 3. rewrite plus_IZR, mult_IZR. field. lra. }
  unfold n. rewrite mult_IZR, <-pow2_int by lia.
  replace (e - e')%Z with (e - e' - ez + ez)%Z at 2 by lia. rewrite pow2_add. field. lra.
Qed.

(** With the exponent of a normal quotient, it has all 53 bits. *)
Lemma div_full m m' s :
  (53 + Z.pos (digits2_pos m') - Z.pos (digits2_pos m) ≤ s)%Z → (0 ≤ s)%Z →
  (53 ≤ Zdigits2 (Z.pos m * 2 ^ s / Z.pos m'))%Z.
Proof.
  intros Hs Hs0. set (d := Z.pos (digits2_pos m)) in *. set (d' := Z.pos (digits2_pos m')) in *.
  destruct (digits_spec m d eq_refl) as [Hd [Hml _]], (digits_spec m' d' eq_refl) as [Hd' [_ Hmu]].
  assert (2 ^ 52 ≤ Z.pos m * 2 ^ s / Z.pos m')%Z as Hq.
  { apply Z.div_le_lower_bound; [lia|].
    transitivity (2 ^ d' * 2 ^ 52)%Z; [nia|]. rewrite <-Z.pow_add_r by lia.
    transitivity (2 ^ (d - 1) * 2 ^ s)%Z; [|by apply Z.mul_le_mono_nonneg_r; [apply Z.pow_nonneg|]].
    rewrite <-Z.pow_add_r by lia. apply Z.pow_le_mono_r; lia. }
  destruct (Z.pos m * 2 ^ s / Z.pos m')%Z as [|q|q]; [lia| |lia].
  cbn [Zdigits2]. rewrite digits_log2. apply Z.log2_le_pow2 in Hq; lia.
Qed.

Lemma mantissa_upper q y ez :
  (0 ≤ q)%Z → IZR q ≤ y → y * pow2 ez < pow2 1023 → (ez ≤ 1023)%Z → (Zdigits2 q + ez ≤ 1023)%Z.
Proof.
  intros Hq Hy Hu Hez. destruct q as [|q|q]; [done| |lia]. cbn [Zdigits2].
  destruct (digits_bounds q _ eq_refl) as (_ & Hql & _). apply Z.lt_pred_le, pow2_lt_inv.
  eapply Rle_lt_trans; [|exact Hu].
  replace (Z.pred (Z.pos (digits2_pos q) + ez)) with (Z.pos (digits2_pos q) - 1 + ez)%Z by lia.
  rewrite pow2_add. apply Rmult_le_compat_r; [left; apply pow2_pos|]. lra.
Qed.

(** The quotient of two mantissas, as the rounding takes it. *)
Lemma div_core m e m' e' :
  let x := IZR (Z.pos m) / IZR (Z.pos m') * pow2 (e - e') in
  x < pow2 1023 →
  ∃ q ez l y, SFdiv_core_binary 53 1024 (Z.pos m) e (Z.pos m') e' = (q, ez, l) ∧
    rep (shr_record_of_loc q l) y ∧ y * pow2 ez = x ∧ (0 ≤ q)%Z ∧ fits_double q ez.
Proof.
  intros x Hu. pose proof (quotient_lower m e m' e') as Hlow. fold x in Hlow.
  rewrite div_core_eq.
  set (k := (Z.pos (digits2_pos m) + e - (Z.pos (digits2_pos m') + e'))%Z) in *.
  set (ez := Z.min (fexp 53 1024 k) (e - e')). set (n := (Z.pos m * 2 ^ (e - e' - ez))%Z).
  pose proof (pow2_lt_inv _ _ (Rlt_trans _ _ _ Hlow Hu)) as Hk.
  assert (ez ≤ e - e')%Z as Hez by lia. pose proof (div_exact m e m' e' ez Hez) as Hy. fold n x in Hy.
  pose proof (Z.mod_pos_bound n (Z.pos m') ltac:(lia)) as Hr.
  assert (0 ≤ n / Z.pos m')%Z as Hq by (apply Z.div_pos; lia).
  pose proof (location_rep _ _ _ Hq Hr) as Hrep.
  set (y := IZR (n / Z.pos m') + IZR (n `mod` Z.pos m') / IZR (Z.pos m')) in *.
  pose proof (rep_floor _ _ Hrep) as Hf. rewrite shr_m_loc in Hf.
  exists (n / Z.pos m')%Z, ez, (new_location (Z.pos m') (n `mod` Z.pos m')), y.
  split_and!; [done|done|done|done|].
  assert (ez ≤ 1023)%Z as Hez1.
  { subst ez. destruct (Z.le_gt_cases (-1021) k); [rewrite fexp_normal by done; lia|].
    rewrite fexp_subnormal by lia. lia. }
  split; [apply (mantissa_upper _ y); [done|lra|by rewrite Hy|done]|].
  destruct (Z.le_gt_cases (-1021) k) as [Hk1|Hk1].
  - left. split; [apply div_full; subst ez; rewrite fexp_normal by done; lia|].
    destruct (rep_upper _ _ y Hq Hrep) as [_ Hyu].
    assert (x < pow2 (Zdigits2 (n / Z.pos m') + ez)) as Hxu.
    { rewrite pow2_add, <-Hy. apply Rmult_lt_compat_r; [apply pow2_pos|done]. }
    pose proof (pow2_lt_inv _ _ (Rlt_trans _ _ _ Hlow Hxu)). lia.
  - assert (ez ≤ -1074)%Z by (subst ez; rewrite fexp_subnormal by lia; lia). lia.
Qed.

(** Both statements about a quotient. *)
Lemma dbl_div_both x y v w :
  dbl x v → dbl y w → w ≠ 0 → Rabs (v / w) < pow2 1023 →
  near (SFdiv 53 1024 x y) (v / w) (u * Rabs (v / w) + eta) ∧
  (in_range (v / w) → rounds (SFdiv 53 1024 x y) (v / w)).
Proof.
  intros Hx Hy Hw0 Hub. destruct y as [s'| | |s' m' e']; try done.
  destruct x as [s| | |s m e]; try done.
  { simpl in Hx. subst v. rewrite Rdiv_0_l.
    split; [by apply near_exact|intros _; by apply rounds_exact]. }
  destruct Hx as [Hv Hc], Hy as [Hw Hc']. cbn [SFdiv].
  assert (0 < IZR (Z.pos m')) by by apply IZR_lt.
  set (q := IZR (Z.pos m) / IZR (Z.pos m') * pow2 (e - e')).
  assert (v / w = sgn (xorb s s') * q) as E.
  { unfold q. rewrite <-Rdiv_scale by lra. rewrite Hv, Hw. pose proof (pow2_pos e').
    destruct s, s'; simpl; field; lra. }
  assert (0 < q) as Hpos.
  { apply Rmult_lt_0_compat; [|apply pow2_pos]. by apply Rdiv_lt_0_compat; [apply IZR_lt|]. }
  rewrite E, Rabs_sgn in Hub by lra.
  destruct (div_core m e m' e' Hub) as (n & ez & l & y & -> & Hrep & Hq & Hn & Hfit).
  fold q in Hq. destruct (round_aux_near (xorb s s') n ez l y Hn Hfit Hrep) as [Hnear Hr].
  rewrite Hq, <-E in Hnear, Hr. split; [done|]. intros [H0|[Hl _]].
  - rewrite E in H0. destruct (xorb s s'); simpl in H0; lra.
  - apply Hr. pose proof (pow2_le (-1022) (-1020) ltac:(done)). lra.
Qed.

Lemma dbl_div x y v w :
  dbl x v → dbl y w → w ≠ 0 → in_range (v / w) → rounds (SFdiv 53 1024 x y) (v / w).
Proof. intros Hx Hy Hw Hr. apply dbl_div_both; [done..|by apply in_range_upper|done]. Qed.

Lemma dbl_div_near x y v w :
  dbl x v → dbl y w → w ≠ 0 → Rabs (v / w) < pow2 1023 →
  near (SFdiv 53 1024 x y) (v / w) (u * Rabs (v / w) + eta).
Proof. intros Hx Hy Hw Hr. by apply dbl_div_both. Qed.

(** ** Comparisons *)

Lemma mag_lt_exp m e m' e' :
  canonical m e → canonical m' e' → (e < e')%Z →
  IZR (Z.pos m) * pow2 e < IZR (Z.pos m') * pow2 e'.
Proof.
  intros Hc Hc' He.
  assert (Z.pos (digits2_pos m) ≤ 53)%Z as Hd by (destruct Hc as [[-> _]|[_ ?]]; lia).
  assert (Z.pos (digits2_pos m') = 53)%Z as Hd'
    by (apply canonical_range in Hc; destruct Hc' as [[-> _]|[-> _]]; lia).
  destruct (digits_bounds m _ eq_refl) as (_ & _ & Hm).
  destruct (digits_bounds m' _ eq_refl) as (_ & Hm' & _).
  pose proof (pow2_pos e). pose proof (pow2_pos e').
  apply Rlt_le_trans with (pow2 (53 + e)).
  - rewrite pow2_add. apply Rmult_lt_compat_r; [done|].
    eapply Rlt_le_trans; [exact Hm|]. by apply pow2_le.
  - apply Rle_trans with (pow2 (52 + e')); [apply pow2_le; lia|].
    rewrite pow2_add. apply Rmult_le_compat_r; [lra|]. rewrite Hd' in Hm'. done.
Qed.

Definition ordered (c : comparison) (v w : R) : Prop :=
  match c with Eq => v = w | Lt => v < w | Gt => w < v end.

Lemma mag_compare m e m' e' :
  canonical m e → canonical m' e' →
  ordered (match (e ?= e')%Z with Lt => Lt | Gt => Gt | Eq => Pos.compare_cont Eq m m' end)
    (IZR (Z.pos m) * pow2 e) (IZR (Z.pos m') * pow2 e').
Proof.
  intros Hc Hc'. destruct (Z.compare_spec e e') as [<-|He|He]; simpl; [|by apply mag_lt_exp..].
  pose proof (pow2_pos e). change (Pos.compare_cont Eq m m') with (m ?= m')%positive.
  destruct (Pos.compare_spec m m') as [<-|Hm|Hm]; simpl; [done|..];
    (apply Rmult_lt_compat_r; [done|apply IZR_lt; lia]).
Qed.

Lemma dbl_compare x y v w :
  dbl x v → dbl y w → ∃ c, SFcompare x y = Some c ∧ ordered c v w.
Proof.
  intros Hx Hy. destruct x as [s| | |s m e], y as [s'| | |s' m' e']; try done; simpl in *.
  - subst. by exists Eq.
  - destruct Hy as [-> _]. pose proof (mag_pos m' e'). subst v.
    eexists. split; [done|]. destruct s'; simpl; lra.
  - destruct Hx as [-> _]. pose proof (mag_pos m e). subst w.
    eexists. split; [done|]. destruct s; simpl; lra.
  - destruct Hx as [-> Hc], Hy as [-> Hc']. pose proof (mag_pos m e). pose proof (mag_pos m' e').
    pose proof (mag_compare m e m' e' Hc Hc') as Ho.
    eexists. split; [done|]. destruct s, s'; simpl; [|lra..|].
    + destruct (e ?= e')%Z; simpl in *; [destruct (Pos.compare_cont _ _ _)|..]; simpl in *; lra.
    + by rewrite !Rmult_1_l.
Qed.

Lemma dbl_ltb x y v w : dbl x v → dbl y w → SFltb x y = true ↔ v < w.
Proof.
  intros Hx Hy. destruct (dbl_compare x y v w Hx Hy) as (c & Hc & Ho).
  unfold SFltb. rewrite Hc. destruct c; simpl in Ho; split; done || (intros; lra).
Qed.

(** ** Working with bounds *)

Lemma Rabs_bounds a b : Rabs a ≤ b → - b ≤ a ≤ b.
Proof. unfold Rabs. destruct (Rcase_abs a); lra. Qed.

Lemma u_small : 0 < u ≤ 1 / 1000000000.
Proof.
  split; [apply u_pos|]. unfold u. change (-53)%Z with (- (53))%Z.
  unfold pow2. rewrite powerRZ_neg by lra. simpl. lra.
Qed.

(** The value of a rounded result lies between multiples of the exact one. *)
Lemma rounds_pos x v :
  rounds x v → 0 ≤ v → ∃ w, dbl x w ∧ v * (1 - u) ≤ w ≤ v * (1 + u).
Proof.
  intros (w & Hw & He) Hv. exists w. split; [done|].
  rewrite (Rabs_pos_eq v Hv) in He. apply Rabs_bounds in He. lra.
Qed.

Lemma in_range_pos v : pow2 (-1020) ≤ v → v < pow2 1023 → in_range v.
Proof.
  intros Hl Hu. right. rewrite Rabs_pos_eq; [done|]. pose proof (pow2_pos (-1020)). lra.
Qed.

