(* ===== verification/QtProperties.v ===== *)
(** * Properties and the bindings on them

    A [Q_PROPERTY] names a getter and the signal that announces a change.  A QML
    binding on a property reads it once and again whenever that signal is
    emitted (the signal's connections are direct, so it reads the object as it
    is at the [emit]).  [shown] is what the bindings hold; an object's model
    carries it and updates it by [rebind] where the code emits.

    A property is fresh when its binding holds what its getter returns.  The
    lemmas reduce the freshness of an object's properties to its updates: an
    update leaves the properties of other signals alone, and emitting the signal
    makes the others fresh. *)

From S2P Require Import Prelude.

Section bindings.
Context {O P V S : Type} `{EqDecision S}.
Context (read : O → P → V) (notify : P → S).

Definition rebind (s : S) (o : O) (shown : P → V) : P → V :=
  λ p, if decide (notify p = s) then read o p else shown p.

(** The properties in [A] are fresh. *)
Definition fresh_on (A : P → Prop) (o : O) (shown : P → V) : Prop :=
  ∀ p, A p → shown p = read o p.

Definition fresh : O → (P → V) → Prop := fresh_on (λ _, True).

Lemma fresh_weaken (A B : P → Prop) o sh :
  (∀ p, B p → A p) → fresh_on A o sh → fresh_on B o sh.
Proof. unfold fresh_on. naive_solver. Qed.

(** An update that only touches the properties of [s]. *)
Lemma fresh_update A s o o' sh :
  (∀ p, notify p ≠ s → read o' p = read o p) →
  fresh_on A o sh → fresh_on (λ p, A p ∧ notify p ≠ s) o' sh.
Proof. intros Hr Hf p [HA Hn]. rewrite Hr by done. by apply Hf. Qed.

Lemma fresh_emit A s o sh :
  fresh_on (λ p, A p ∧ notify p ≠ s) o sh → fresh_on A o (rebind s o sh).
Proof. intros Hf p HA. unfold rebind. case_decide; [done|]. by apply Hf. Qed.

Lemma fresh_emit_other A s o sh : fresh_on A o sh → fresh_on A o (rebind s o sh).
Proof. intros Hf. apply fresh_emit. apply (fresh_weaken A); [naive_solver|done]. Qed.

(** An update announced by the signal of what it touches. *)
Lemma fresh_announced A s o o' sh :
  (∀ p, notify p ≠ s → read o' p = read o p) →
  fresh_on A o sh → fresh_on A o' (rebind s o' sh).
Proof. intros Hr Hf. by apply fresh_emit, (fresh_update A s o). Qed.
End bindings.
