(* ===== verification/Cstdlib.v ===== *)
(** * Number parsing of the C and C++ libraries

    [std::atoi] and [std::stoul] on decimal text, and that both read back what
    [pretty] (the model of [%u] and [std::to_string]) writes. *)

From S2P Require Import Prelude.

(** [isspace] in the C locale. *)
Definition is_space (c : Ascii.ascii) : bool :=
  let n := Z.of_N (Ascii.N_of_ascii c) in (n =? 32) || ((9 <=? n) && (n <=? 13)).

Definition digit_value (c : Ascii.ascii) : option Z :=
  let n := Z.of_N (Ascii.N_of_ascii c) in
  if (48 <=? n) && (n <=? 57) then Some (n - 48) else None.

Fixpoint skip_spaces (s : string) : string :=
  match s with
  | EmptyString => s
  | String c rest => if is_space c then skip_spaces rest else s
  end.

(** The digits at the start of [s], after those read as [acc]. *)
Fixpoint read_digits (acc : Z) (s : string) : Z :=
  match s with
  | EmptyString => acc
  | String c rest =>
      match digit_value c with
      | Some d => read_digits (10 * acc + d) rest
      | None => acc
      end
  end.

(** [std::atoi]; [None] where the value is not an [int] and the result undefined. *)
Definition atoi (s : string) : option Z :=
  let v :=
    match skip_spaces s with
    | EmptyString => 0
    | String c rest as digits =>
        if bool_decide (c = Ascii.ascii_of_N 45) then - read_digits 0 rest
        else if bool_decide (c = Ascii.ascii_of_N 43) then read_digits 0 rest
        else read_digits 0 digits
    end in
  if (- 2 ^ 31 <=? v) && (v <? 2 ^ 31) then Some v else None.

(** [std::stoul(s)] with a 64-bit [unsigned long]; [None] where it throws: no
    digits, or a value out of range. *)
Definition stoul (s : string) : option Z :=
  let number digits :=
    match digits with
    | EmptyString => None
    | String c _ =>
        match digit_value c with
        | None => None
        | Some _ => let v := read_digits 0 digits in if v <? 2 ^ 64 then Some v else None
        end
    end in
  match skip_spaces s with
  | EmptyString => None
  | String c rest as digits =>
      if bool_decide (c = Ascii.ascii_of_N 45) then (λ v, to_u64 (- v)) <$> number rest
      else if bool_decide (c = Ascii.ascii_of_N 43) then number rest
      else number digits
  end.

(** ** Reading back what was written *)

Lemma digit_value_char n : (n < 10)%N → digit_value (pretty_N_char n) = Some (Z.of_N n).
Proof.
  intros Hn.
  assert (n = 0 ∨ n = 1 ∨ n = 2 ∨ n = 3 ∨ n = 4 ∨ n = 5 ∨ n = 6 ∨ n = 7 ∨ n = 8 ∨ n = 9)%N
    as Hcases by lia.
  by repeat (destruct Hcases as [->|Hcases]); subst.
Qed.

Lemma read_digits_pretty x s :
  read_digits 0 (pretty_N_go x s) = read_digits (Z.of_N x) s.
Proof.
  revert s. induction x as [x IH] using (well_founded_ind N.lt_wf_0). intros s.
  destruct (decide (x = 0%N)) as [->|Hx]; [by rewrite pretty_N_go_0|].
  rewrite pretty_N_go_step by lia. rewrite IH by (apply N.div_lt; lia). simpl.
  rewrite digit_value_char by (apply N.mod_lt; lia). f_equal.
  rewrite N2Z.inj_div, N2Z.inj_mod.
  pose proof (Z.div_mod (Z.of_N x) 10 ltac:(lia)). lia.
Qed.

Lemma read_digits_pretty_N (x : N) : read_digits 0 (pretty x) = Z.of_N x.
Proof.
  unfold pretty, pretty_N. case_decide as H0; [by subst|]. by rewrite read_digits_pretty.
Qed.

(** A written number starts with a digit. *)
Lemma pretty_N_go_head x c s :
  (∃ k, k < 10 ∧ c = pretty_N_char k)%N →
  ∃ k s', (k < 10)%N ∧ pretty_N_go x (String c s) = String (pretty_N_char k) s'.
Proof.
  revert c s. induction x as [x IH] using (well_founded_ind N.lt_wf_0).
  intros c s (k & Hk & ->).
  destruct (decide (x = 0%N)) as [->|Hx]; [rewrite pretty_N_go_0; by eauto|].
  rewrite pretty_N_go_step by lia. apply IH; [apply N.div_lt; lia|].
  eexists. split; [|done]. apply N.mod_lt. lia.
Qed.

Lemma pretty_head (x : N) : ∃ k s, (k < 10)%N ∧ pretty x = String (pretty_N_char k) s.
Proof.
  unfold pretty, pretty_N. case_decide as Hx; [by exists 0%N, ""|].
  rewrite pretty_N_go_step by lia. apply pretty_N_go_head.
  eexists. split; [|done]. apply N.mod_lt. lia.
Qed.

(** A digit is no space and no sign. *)
Lemma atoi_digits (x : N) s' k :
  (k < 10)%N → pretty x = String (pretty_N_char k) s' →
  atoi (pretty x) = let v := read_digits 0 (pretty x) in if v <? 2 ^ 31 then
    if - 2 ^ 31 <=? v then Some v else None else None.
Proof.
  intros Hk ->. unfold atoi.
  assert (k = 0 ∨ k = 1 ∨ k = 2 ∨ k = 3 ∨ k = 4 ∨ k = 5 ∨ k = 6 ∨ k = 7 ∨ k = 8 ∨ k = 9)%N
    as Hcases by lia.
  repeat (destruct Hcases as [->|Hcases]); subst; simpl;
    by destruct (_ <=? _), (_ <? _).
Qed.

Lemma atoi_pretty (x : N) : Z.of_N x < 2 ^ 31 → atoi (pretty x) = Some (Z.of_N x).
Proof.
  intros Hx. destruct (pretty_head x) as (k & s & Hk & Hp).
  rewrite (atoi_digits x s k Hk Hp). simpl.
  rewrite read_digits_pretty_N.
  rewrite (proj2 (Z.ltb_lt _ _)) by lia. by rewrite (proj2 (Z.leb_le _ _)) by lia.
Qed.

Lemma stoul_pretty (x : N) : Z.of_N x < 2 ^ 64 → stoul (pretty x) = Some (Z.of_N x).
Proof.
  intros Hx. destruct (pretty_head x) as (k & s & Hk & Hp).
  assert (read_digits 0 (pretty x) = Z.of_N x) as Hr by apply read_digits_pretty_N.
  rewrite Hp in *.
  transitivity (let v := read_digits 0 (String (pretty_N_char k) s) in
    if v <? 2 ^ 64 then Some v else None).
  - clear Hr Hp. assert (k = 0 ∨ k = 1 ∨ k = 2 ∨ k = 3 ∨ k = 4 ∨ k = 5 ∨ k = 6 ∨ k = 7 ∨
      k = 8 ∨ k = 9)%N as Hcases by lia.
    by repeat (destruct Hcases as [->|Hcases]); subst.
  - rewrite Hr. simpl. by rewrite (proj2 (Z.ltb_lt _ _)) by lia.
Qed.
