(* ===== verification/Types.v ===== *)
(** * Shared value types ([core/common/types.h]) and the log gate
    ([core/common/logging.h], [core/common/logging.cpp])

    Every component reports failures through [Status] and [Result<T>]; frames
    and packets are the records the capture, codec and transport layers pass. *)

From S2P Require Import Prelude.

(** ** Errors *)

Inductive ErrorCode :=
| Ok
| Unsupported
| PermissionDenied
| NotFound
| InvalidArgument
| Timeout
| ConnectionLost
| AccessLost
| Again
| Internal.

#[export] Instance ErrorCode_eq_dec : EqDecision ErrorCode.
Proof. solve_decision. Defined.

(** [struct Status]: a code and a message; [ok()] tests the code only. *)
Record Status := { code : ErrorCode; message : string }.

#[export] Instance Status_eq_dec : EqDecision Status.
Proof. solve_decision. Defined.

Definition Status_ok (s : Status) : bool := bool_decide (code s = Ok).
Definition success : Status := {| code := Ok; message := "" |}.
Definition error (c : ErrorCode) (msg : string) : Status :=
  {| code := c; message := msg |}.

(** Value initialisation, [T{}]: what [Result<T>::fail] stores as its value. *)
Class ValueInit (A : Type) := value_init : A.
#[export] Instance value_init_Z : ValueInit Z := 0.
#[export] Instance value_init_bool : ValueInit bool := false.
#[export] Instance value_init_string : ValueInit string := EmptyString.
#[export] Instance value_init_list {A} : ValueInit (list A) := [].
#[export] Instance value_init_option {A} : ValueInit (option A) := None.

(** [template <typename T> struct Result]. *)
Record Result (A : Type) := { status : Status; value : A }.
Arguments status {A} _.
Arguments value {A} _.

Definition Result_ok {A} (r : Result A) : bool := Status_ok (status r).
Definition good {A} (v : A) : Result A := {| status := success; value := v |}.
Definition fail {A} `{ValueInit A} (c : ErrorCode) (msg : string) : Result A :=
  {| status := error c msg; value := value_init |}.

(** ** Geometry and frames *)

Record Size := { width : Z; height : Z }.
Record Rect := { rect_x : Z; rect_y : Z; rect_width : Z; rect_height : Z }.

(** [enum class PixelFormat] has underlying type [int]; [PixelFormat_unnamed v]
    is the enum object that holds an [int] no enumerator names, which a
    [static_cast] from a wire integer can produce. *)
Inductive PixelFormat :=
| Unknown
| BGRA8
| NV12
| P010
| I444
| PixelFormat_unnamed (v : Z).

#[export] Instance PixelFormat_eq_dec : EqDecision PixelFormat.
Proof. solve_decision. Defined.

(** [static_cast<uint32_t>(format)]. *)
Definition PixelFormat_to_u32 (f : PixelFormat) : Z :=
  match f with
  | Unknown => 0
  | BGRA8 => 1
  | NV12 => 2
  | P010 => 3
  | I444 => 4
  | PixelFormat_unnamed v => to_u32 v
  end.

(** [static_cast<PixelFormat>(u)] for a [uint32_t]. *)
Definition PixelFormat_of_u32 (u : Z) : PixelFormat :=
  match to_s32 u with
  | 0 => Unknown
  | 1 => BGRA8
  | 2 => NV12
  | 3 => P010
  | 4 => I444
  | v => PixelFormat_unnamed v
  end.

(** [struct VideoFrame]; [native_handle] is the opaque pointer, [None] for null. *)
Record VideoFrame := {
  frame_size : Size;
  format : PixelFormat;
  timestamp_us : Z;
  native_handle : option Z;
  cpu_pixels : list Z;
  dirty_rects : list Rect;
  is_idle : bool;
}.

Definition VideoFrame_init : VideoFrame := {|
  frame_size := {| width := 0; height := 0 |};
  format := Unknown;
  timestamp_us := 0;
  native_handle := None;
  cpu_pixels := [];
  dirty_rects := [];
  is_idle := false;
|}.

#[export] Instance value_init_VideoFrame : ValueInit VideoFrame := VideoFrame_init.

Record EncodedPacket := {
  data : list Z;
  pkt_timestamp_us : Z;
  keyframe : bool;
}.

#[export] Instance value_init_EncodedPacket : ValueInit EncodedPacket :=
  {| data := []; pkt_timestamp_us := 0; keyframe := false |}.

(** ** Lemmas *)

Lemma Status_ok_success : Status_ok success = true.
Proof. done. Qed.

Lemma Status_ok_error c msg : c ≠ Ok → Status_ok (error c msg) = false.
Proof. intros. unfold Status_ok. by case_bool_decide. Qed.

Lemma to_s32_wrap z : wrap 32 (to_s32 z) = wrap 32 z.
Proof.
  unfold to_s32. case_match; [apply wrap_wrap|].
  unfold wrap. rewrite <-(Z_mod_plus_full _ (1) (2 ^ 32)).
  replace (z `mod` 2 ^ 32 - 2 ^ 32 + 1 * 2 ^ 32) with (z `mod` 2 ^ 32) by lia.
  apply Zmod_mod.
Qed.

Lemma to_s32_small z : - 2 ^ 31 ≤ z < 2 ^ 31 → to_s32 z = z.
Proof.
  intros H. unfold to_s32, wrap. destruct (decide (0 ≤ z)).
  - rewrite Z.mod_small by lia. case_match; lia.
  - rewrite <-(Z_mod_plus_full z 1), Z.mod_small by lia. case_match; lia.
Qed.

(** The enum object survives the cast to [uint32_t] and back. *)
Definition PixelFormat_wf (f : PixelFormat) : Prop :=
  match f with
  | PixelFormat_unnamed v => - 2 ^ 31 ≤ v < 2 ^ 31 ∧ ¬ (0 ≤ v ≤ 4)
  | _ => True
  end.

Lemma PixelFormat_of_to_u32 f :
  PixelFormat_wf f → PixelFormat_of_u32 (PixelFormat_to_u32 f) = f.
Proof.
  destruct f as [| | | | |v]; try done. intros [Hv Hn].
  unfold PixelFormat_of_u32, PixelFormat_to_u32.
  assert (to_s32 (to_u32 v) = v) as ->.
  { unfold to_s32. rewrite wrap_wrap. by apply to_s32_small. }
  repeat case_match; try done; lia.
Qed.

Lemma PixelFormat_to_u32_fits f : fits 32 (PixelFormat_to_u32 f).
Proof. destruct f; simpl; try (unfold fits; lia). by apply wrap_fits. Qed.

#[export] Hint Resolve PixelFormat_to_u32_fits : redesk.

(** ** The log level gate

    The sinks write to stderr and have no effect on the engine; what callers
    rely on is which statements are emitted: [StderrLogger::isEnabled] and the
    [REDESK_LOG] macro that skips formatting below the level. *)

Module Logging.

Inductive LogLevel := Trace | Debug | Info | Warn | Error | Off.

Definition level_index (l : LogLevel) : Z :=
  match l with
  | Trace => 0 | Debug => 1 | Info => 2 | Warn => 3 | Error => 4 | Off => 5
  end.

Definition toString (l : LogLevel) : string :=
  match l with
  | Trace => "TRACE"
  | Debug => "DEBUG"
  | Info => "INFO"
  | Warn => "WARN"
  | Error => "ERROR"
  | Off => "OFF"
  end.

(** [StderrLogger::isEnabled]. *)
Definition isEnabled (min_level level : LogLevel) : bool :=
  level_index min_level <=? level_index level.

(** [basename]: the part of [__FILE__] after the last slash or backslash. *)
Definition is_slash (c : Ascii.ascii) : bool :=
  bool_decide (c = Ascii.ascii_of_N 47) || bool_decide (c = Ascii.ascii_of_N 92).

Fixpoint has_slash (path : string) : bool :=
  match path with
  | EmptyString => false
  | String c rest => is_slash c || has_slash rest
  end.

Fixpoint basename (path : string) : string :=
  match path with
  | EmptyString => EmptyString
  | String c rest =>
      if has_slash rest then basename rest
      else if is_slash c then rest else path
  end.

End Logging.
