(* ===== verification/LogSink.v ===== *)
(** * The log sink ([core/common/logging.h], [core/common/logging.cpp])

    The process has one active logger in a slot; [REDESK_LOG] asks it whether a
    level is enabled, and if so builds the message and hands it over.  The
    default sink writes one line to stderr.  The clock and the time zone are
    parameters, and so is a custom sink, any [ILogger].  [Types.Logging] has the
    level gate and the file name. *)

From S2P Require Import Prelude Types.
Import Types.Logging.

(** ** Text as [fprintf] writes it *)

(** [%.*s] with the length of a view: up to the first NUL. *)
Fixpoint until_nul (s : string) : string :=
  match s with
  | EmptyString => EmptyString
  | String c rest =>
      if bool_decide (c = Ascii.ascii_of_N 0) then EmptyString else String c (until_nul rest)
  end.

Fixpoint spaces (n : nat) : string :=
  match n with O => EmptyString | S n => String (Ascii.ascii_of_N 32) (spaces n) end.
Fixpoint zeros (n : nat) : string :=
  match n with O => EmptyString | S n => String (Ascii.ascii_of_N 48) (zeros n) end.

(** [%-5s] and [%0nd] of a number that is not negative. *)
Definition pad_right (n : nat) (s : string) : string := s +:+ spaces (n - String.length s).
Definition pad_zero (n : nat) (z : Z) : string :=
  zeros (n - String.length (pretty z)) +:+ pretty z.

Definition newline : string := String (Ascii.ascii_of_N 10) EmptyString.

Lemma string_app_nil (s : string) : s +:+ "" = s.
Proof. induction s as [|c s IH]; [done|]. unfold String.append; fold String.append. by rewrite IH. Qed.

Lemma string_app_assoc (a b c : string) : a +:+ (b +:+ c) = (a +:+ b) +:+ c.
Proof. induction a as [|x a IH]; [done|]. unfold String.append; fold String.append. by rewrite IH. Qed.

(** ** Loggers *)

Class ILogger (L : Type) := {
  log : LogLevel → string → string → string → Z → L → L;
  isEnabled : LogLevel → L → bool;
}.

Section logging.
(** The system clock in milliseconds at the n-th reading, and local time. *)
Context (clock : nat → Z) (localtime : Z → Z * Z * Z).

(** The lines written so far, and the number of clock readings. *)
Record StderrLogger := { min_level_ : LogLevel; lines : list string; readings : nat }.

Definition makeStderrLogger (min_level : LogLevel) : StderrLogger :=
  {| min_level_ := min_level; lines := []; readings := O |}.

Definition timestamp (now : Z) : string :=
  let '(h, m, s) := localtime (now `div` 1000) in
  pad_zero 2 h +:+ ":" +:+ pad_zero 2 m +:+ ":" +:+ pad_zero 2 s +:+ "." +:+
  pad_zero 3 (now `mod` 1000).

Definition format_line (now : Z) (level : LogLevel) (category message file : string) (line : Z)
    : string :=
  "[" +:+ timestamp now +:+ " " +:+ pad_right 5 (toString level) +:+ " " +:+
  until_nul category +:+ "] " +:+ until_nul message +:+ " (" +:+
  until_nul (basename file) +:+ ":" +:+ pretty line +:+ ")" +:+ newline.

Definition StderrLogger_log (level : LogLevel) (category message file : string) (line : Z)
    (l : StderrLogger) : StderrLogger :=
  if negb (Logging.isEnabled (min_level_ l) level) then l
  else {| min_level_ := min_level_ l;
          lines := lines l ++ [format_line (clock (readings l)) level category message file line];
          readings := S (readings l) |}.

#[export] Instance StderrLogger_logger : ILogger StderrLogger := {
  log := StderrLogger_log;
  isEnabled level l := Logging.isEnabled (min_level_ l) level;
}.

Section process.
Context {Custom : Type} `{ILogger Custom}.

(** [activeSlot()], with a custom sink or the default one. *)
Definition Slot : Type := Custom + StderrLogger.

Definition activeSlot_init : Slot := inr (makeStderrLogger Info).

Definition slot_log (level : LogLevel) (category message file : string) (line : Z) (s : Slot)
    : Slot :=
  match s with
  | inl c => inl (log level category message file line c)
  | inr d => inr (log level category message file line d)
  end.
Definition slot_enabled (level : LogLevel) (s : Slot) : bool :=
  match s with inl c => isEnabled level c | inr d => isEnabled level d end.

(** [setLogger]; [None] for a null pointer. *)
Definition setLogger (sink : option Slot) (s : Slot) : Slot :=
  match sink with Some sink => sink | None => activeSlot_init end.

(** The accumulated pieces of a [LogLine]. *)
Record LogLine := { level_ : LogLevel; category_ : string; file_ : string; line_ : Z;
                    stream_ : string }.
Definition LogLine_new (level : LogLevel) (category file : string) (line : Z) : LogLine :=
  {| level_ := level; category_ := category; file_ := file; line_ := line; stream_ := "" |}.
Definition put (piece : string) (l : LogLine) : LogLine :=
  {| level_ := level_ l; category_ := category_ l; file_ := file_ l; line_ := line_ l;
     stream_ := stream_ l +:+ piece |}.
Definition LogLine_destroy (l : LogLine) (s : Slot) : Slot :=
  slot_log (level_ l) (category_ l) (stream_ l) (file_ l) (line_ l) s.

(** [REDESK_LOG(level, category) << piece << ...]. *)
Definition redesk_log (level : LogLevel) (category file : string) (line : Z)
    (pieces : list string) (s : Slot) : Slot :=
  if negb (slot_enabled level s) then s
  else LogLine_destroy
         (fold_left (λ l p, put p l) pieces (LogLine_new level category file line)) s.

(** ** What reaches stderr *)

Lemma put_all l pieces :
  fold_left (λ l p, put p l) pieces l =
    {| level_ := level_ l; category_ := category_ l; file_ := file_ l; line_ := line_ l;
       stream_ := stream_ l +:+ String.concat "" pieces |}.
Proof.
  revert l. induction pieces as [|p pieces IH]; intros l; simpl.
  - destruct l. simpl. by rewrite string_app_nil.
  - rewrite IH. simpl. f_equal. rewrite <-string_app_assoc. f_equal.
    by destruct pieces; [rewrite string_app_nil|].
Qed.

(** A statement writes one line to the default sink exactly if its level is at
    least the sink's, with the pieces in order, and reads the clock only then. *)
Lemma redesk_log_default level category file line pieces d :
  redesk_log level category file line pieces (inr d) = inr
    (if level_index (min_level_ d) <=? level_index level then
       {| min_level_ := min_level_ d;
          lines := lines d ++ [format_line (clock (readings d)) level category
                                (String.concat "" pieces) file line];
          readings := S (readings d) |}
     else d).
Proof.
  unfold redesk_log, LogLine_destroy. rewrite put_all. simpl.
  unfold Logging.isEnabled, StderrLogger_log, Logging.isEnabled.
  by destruct (level_index (min_level_ d) <=? level_index level) eqn:E; simpl; rewrite ?E.
Qed.

(** A null sink brings back the default sink at [Info]. *)
Lemma setLogger_null s : setLogger None s = inr (makeStderrLogger Info).
Proof. done. Qed.
End process.
End logging.

(** The line of a statement at 09:05:07.042. *)
Example format_example :
  format_line (λ _, (9, 5, 7)) 33000042 Logging.Warn "capture" "lost display" "/src/core/x.cpp" 12 =
    "[09:05:07.042 WARN  capture] lost display (x.cpp:12)" +:+ newline.
Proof. vm_compute. reflexivity. Qed.
