(* ===== verification/Session.v ===== *)
(** * The session manager ([core/session/session.h], [core/session/session.cpp])

    Default-deny capability gate, lifecycle and fingerprint-keyed audit log.
    [SessionManager::Impl] is the record [Impl]; a member function is a
    computation in [State World], where [World] adds what the code reads and
    calls outside the object: the clock (the n-th call of [nowMicros] reads
    [clock n]) and the sequence of observer callbacks it has made.  Callbacks
    are made, not interpreted; the file [SessionObservers] has the same operations
    with observers that call back into the manager. *)

From S2P Require Import Prelude Types.

(** ** Capabilities: [enum class Capabilities : uint32_t] *)

Abbreviation Capabilities := Z (only parsing).

Module Cap.
Definition None : Capabilities := 0.
Definition ViewOnly : Capabilities := Z.shiftl 1 0.
Definition Control : Capabilities := Z.shiftl 1 1.
Definition Clipboard : Capabilities := Z.shiftl 1 2.
Definition FileTransfer : Capabilities := Z.shiftl 1 3.
Definition Audio : Capabilities := Z.shiftl 1 4.
Definition InputInjection : Capabilities := Z.shiftl 1 5.
Definition Elevation : Capabilities := Z.shiftl 1 6.

(** [toString(Capabilities)]: the switch has one case per enumerator. *)
Definition toString (single : Capabilities) : string :=
  match single with
  | 0 => "None"
  | 1 => "ViewOnly"
  | 2 => "Control"
  | 4 => "Clipboard"
  | 8 => "FileTransfer"
  | 16 => "Audio"
  | 32 => "InputInjection"
  | 64 => "Elevation"
  | _ => "Mixed"
  end.
End Cap.

Definition hasCapability (granted needed : Capabilities) : bool :=
  Z.land granted needed =? needed.

(** ** States, events, records *)

Inductive SessionState := Pending | Authenticating | Active | Denied | Closed.

#[export] Instance SessionState_eq_dec : EqDecision SessionState.
Proof. solve_decision. Defined.

Definition SessionState_toString (s : SessionState) : string :=
  match s with
  | Pending => "Pending"
  | Authenticating => "Authenticating"
  | Active => "Active"
  | Denied => "Denied"
  | Closed => "Closed"
  end.

Inductive AuditEvent :=
| SessionRequested
| HandshakeStarted
| HandshakeCompleted
| AuthSucceeded
| AuthFailed
| CapabilityGranted
| CapabilityDenied
| PermissionCheckDenied
| KeyChangeDetected
| SessionActivated
| SessionClosed.

#[export] Instance AuditEvent_eq_dec : EqDecision AuditEvent.
Proof. solve_decision. Defined.

Definition AuditEvent_toString (ev : AuditEvent) : string :=
  match ev with
  | SessionRequested => "SessionRequested"
  | HandshakeStarted => "HandshakeStarted"
  | HandshakeCompleted => "HandshakeCompleted"
  | AuthSucceeded => "AuthSucceeded"
  | AuthFailed => "AuthFailed"
  | CapabilityGranted => "CapabilityGranted"
  | CapabilityDenied => "CapabilityDenied"
  | PermissionCheckDenied => "PermissionCheckDenied"
  | KeyChangeDetected => "KeyChangeDetected"
  | SessionActivated => "SessionActivated"
  | SessionClosed => "SessionClosed"
  end.

Record AuditRecord := {
  rec_timestamp_us : Z;
  peer_fingerprint : string;
  event : AuditEvent;
  detail : string;
}.

(** [struct PeerInfo]; the static key is carried and not consulted here. *)
Record PeerInfo := {
  redesk_id : string;
  fingerprint : string;
  static_key : list Z;
}.

(** [class Session]. *)
Record Session := {
  id_ : Z;
  peer_ : PeerInfo;
  state_ : SessionState;
  granted_ : Capabilities;
}.

Definition Session_new (id : Z) (peer : PeerInfo) : Session :=
  {| id_ := id; peer_ := peer; state_ := Pending; granted_ := Cap.None |}.

Definition isAllowed (s : Session) (needed : Capabilities) : bool :=
  bool_decide (state_ s = Active) && hasCapability (granted_ s) needed.

Definition setState (to : SessionState) (s : Session) : Session :=
  {| id_ := id_ s; peer_ := peer_ s; state_ := to; granted_ := granted_ s |}.

Definition grant (caps : Capabilities) (s : Session) : Session :=
  {| id_ := id_ s; peer_ := peer_ s; state_ := state_ s;
     granted_ := Z.lor (granted_ s) caps |}.

(** ** [struct SessionManager::Impl] *)

Record Impl := {
  sessions : gmap Z Session;
  next_id : Z;
  audit : list AuditRecord;
  state_cb : bool;
  audit_cb : bool;
  ceiling : Capabilities;
  allow_list : gset string;
  deny_list : gset string;
  tofu_pins : gmap string string;
}.

Definition Impl_init : Impl := {|
  sessions := ∅;
  next_id := 1;
  audit := [];
  state_cb := false;
  audit_cb := false;
  ceiling := Cap.ViewOnly;
  allow_list := ∅;
  deny_list := ∅;
  tofu_pins := ∅;
|}.

Inductive CallbackCall :=
| StateCall (session_id : Z) (to : SessionState)
| AuditCall (r : AuditRecord).

Record World := {
  impl : Impl;
  clock_reads : nat;
  calls : list CallbackCall;
}.

Definition World_init : World :=
  {| impl := Impl_init; clock_reads := 0; calls := [] |}.

(** Field updates. *)
Definition set_sessions (f : gmap Z Session → gmap Z Session) (i : Impl) : Impl :=
  {| sessions := f (sessions i); next_id := next_id i; audit := audit i;
     state_cb := state_cb i; audit_cb := audit_cb i; ceiling := ceiling i;
     allow_list := allow_list i; deny_list := deny_list i; tofu_pins := tofu_pins i |}.

Definition set_next_id (n : Z) (i : Impl) : Impl :=
  {| sessions := sessions i; next_id := n; audit := audit i;
     state_cb := state_cb i; audit_cb := audit_cb i; ceiling := ceiling i;
     allow_list := allow_list i; deny_list := deny_list i; tofu_pins := tofu_pins i |}.

Definition push_audit (r : AuditRecord) (i : Impl) : Impl :=
  {| sessions := sessions i; next_id := next_id i; audit := audit i ++ [r];
     state_cb := state_cb i; audit_cb := audit_cb i; ceiling := ceiling i;
     allow_list := allow_list i; deny_list := deny_list i; tofu_pins := tofu_pins i |}.

Definition set_callbacks (scb acb : bool) (i : Impl) : Impl :=
  {| sessions := sessions i; next_id := next_id i; audit := audit i;
     state_cb := scb; audit_cb := acb; ceiling := ceiling i;
     allow_list := allow_list i; deny_list := deny_list i; tofu_pins := tofu_pins i |}.

Definition set_ceiling (c : Capabilities) (i : Impl) : Impl :=
  {| sessions := sessions i; next_id := next_id i; audit := audit i;
     state_cb := state_cb i; audit_cb := audit_cb i; ceiling := c;
     allow_list := allow_list i; deny_list := deny_list i; tofu_pins := tofu_pins i |}.

Definition set_lists (allow deny : gset string) (i : Impl) : Impl :=
  {| sessions := sessions i; next_id := next_id i; audit := audit i;
     state_cb := state_cb i; audit_cb := audit_cb i; ceiling := ceiling i;
     allow_list := allow; deny_list := deny; tofu_pins := tofu_pins i |}.

Definition set_tofu_pins (f : gmap string string → gmap string string) (i : Impl) : Impl :=
  {| sessions := sessions i; next_id := next_id i; audit := audit i;
     state_cb := state_cb i; audit_cb := audit_cb i; ceiling := ceiling i;
     allow_list := allow_list i; deny_list := deny_list i; tofu_pins := f (tofu_pins i) |}.

Definition upd (f : Impl → Impl) : State World () :=
  modify (λ w, {| impl := f (impl w); clock_reads := clock_reads w; calls := calls w |}).

Definition call (c : CallbackCall) : State World () :=
  modify (λ w, {| impl := impl w; clock_reads := clock_reads w; calls := calls w ++ [c] |}).

(** ** The member functions *)

Section operations.
(** [clock n]: the count of microseconds the n-th reading of the system clock
    returns (a signed count, before the cast to [uint64_t]). *)
Context (clock : nat → Z).

Definition nowMicros : State World Z := λ w,
  (to_u64 (clock (clock_reads w)),
   {| impl := impl w; clock_reads := S (clock_reads w); calls := calls w |}).

Definition record (fp : string) (ev : AuditEvent) (det : string) : State World () :=
  now ← nowMicros;
  let r := {| rec_timestamp_us := now; peer_fingerprint := fp;
              event := ev; detail := det |} in
  upd (push_audit r);;
  cb ← gets (λ w, audit_cb (impl w));
  when cb (call (AuditCall r)).

(** [transition(Session& s, to)]: [s] is the element of the map with key [id]. *)
Definition transition (id : Z) (to : SessionState) : State World () :=
  upd (set_sessions (alter (setState to) id));;
  cb ← gets (λ w, state_cb (impl w));
  when cb (call (StateCall id to)).

Definition find (session_id : Z) : State World (option Session) :=
  gets (λ w, sessions (impl w) !! session_id).

(** [std::map::emplace] leaves an existing element alone. *)
Definition emplace (id : Z) (s : Session) (m : gmap Z Session) : gmap Z Session :=
  match m !! id with Some _ => m | None => <[id := s]> m end.

Definition beginSession (peer : PeerInfo) : State World (Result Z) :=
  denied ← gets (λ w, bool_decide (fingerprint peer ∈ deny_list (impl w)));
  if (denied : bool) then
    record (fingerprint peer) CapabilityDenied "peer on deny-list";;
    mret (fail PermissionDenied "peer is on the deny list")
  else
    id ← gets (λ w, next_id (impl w));
    upd (set_next_id (to_u64 (id + 1)));;
    upd (set_sessions (emplace id (Session_new id peer)));;
    record (fingerprint peer) SessionRequested ("id=" +:+ redesk_id peer);;
    mret (good id).

Definition unknown_session : Status := error NotFound "unknown session".

Definition onHandshakeStarted (session_id : Z) : State World Status :=
  it ← find session_id;
  match it with
  | None => mret unknown_session
  | Some s =>
      transition session_id Authenticating;;
      record (fingerprint (peer_ s)) HandshakeStarted "";;
      mret success
  end.

Definition onHandshakeCompleted (session_id : Z) (fp : string) : State World Status :=
  it ← find session_id;
  match it with
  | None => mret unknown_session
  | Some s =>
      (* [peer] is a copy: the session's own [peer_] is not assigned *)
      let peer_fp :=
        if bool_decide (fingerprint (peer_ s) = EmptyString) then fp
        else fingerprint (peer_ s) in
      record peer_fp HandshakeCompleted "";;
      denied ← gets (λ w, bool_decide (fp ∈ deny_list (impl w)));
      if (denied : bool) then
        record fp AuthFailed "peer on deny-list (post-handshake)";;
        transition session_id Denied;;
        mret (error PermissionDenied "peer denied")
      else
        pin ← gets (λ w, tofu_pins (impl w) !! redesk_id (peer_ s));
        match pin with
        | Some expected =>
            when (bool_decide (expected ≠ fp))
              (record fp KeyChangeDetected
                 ("id=" +:+ redesk_id (peer_ s) +:+ " expected=" +:+ expected))
        | None => upd (set_tofu_pins (<[redesk_id (peer_ s) := fp]>))
        end;;
        mret success
  end.

Definition allowed_bits (ceil requested : Capabilities) : Z :=
  Z.land requested (Z.lor ceil Cap.ViewOnly).
Definition refused_bits (ceil requested : Capabilities) : Z :=
  Z.land requested (to_u32 (Z.lnot (Z.lor ceil Cap.ViewOnly))).

Definition authorize (session_id : Z) (requested : Capabilities) : State World Status :=
  it ← find session_id;
  match it with
  | None => mret unknown_session
  | Some s =>
      let fp := fingerprint (peer_ s) in
      ceil ← gets (λ w, ceiling (impl w));
      let allowed := allowed_bits ceil requested in
      when (negb (refused_bits ceil requested =? 0))
        (record fp CapabilityDenied
           ("above ceiling: requested=" +:+ pretty requested +:+
            " ceiling=" +:+ pretty (Z.lor ceil Cap.ViewOnly)));;
      if allowed =? 0 then
        transition session_id Denied;;
        mret (error PermissionDenied "no requested capability is within policy")
      else
        upd (set_sessions (alter (grant (Z.lor allowed Cap.ViewOnly)) session_id));;
        record fp CapabilityGranted ("granted=" +:+ pretty (Z.lor allowed Cap.ViewOnly));;
        record fp AuthSucceeded "";;
        transition session_id Active;;
        record fp SessionActivated "";;
        mret success
  end.

Definition deny (session_id : Z) (reason : string) : State World Status :=
  it ← find session_id;
  match it with
  | None => mret unknown_session
  | Some s =>
      record (fingerprint (peer_ s)) AuthFailed reason;;
      transition session_id Denied;;
      mret success
  end.

Definition checkPermission (session_id : Z) (needed : Capabilities) : State World bool :=
  it ← find session_id;
  match it with
  | None => mret false
  | Some s =>
      if isAllowed s needed then mret true
      else
        record (fingerprint (peer_ s)) PermissionCheckDenied
          ("needed=" +:+ pretty needed +:+
           " state=" +:+ SessionState_toString (state_ s));;
        mret false
  end.

Definition closeSession (session_id : Z) : State World Status :=
  it ← find session_id;
  match it with
  | None => mret unknown_session
  | Some s =>
      transition session_id Closed;;
      record (fingerprint (peer_ s)) SessionClosed "";;
      mret success
  end.

Definition isBeingControlled (w : World) : bool :=
  existsb (λ '(_, s), bool_decide (state_ s = Active) &&
                      hasCapability (granted_ s) Cap.Control)
    (map_to_list (sessions (impl w))).

Definition setStateCallback (installed : bool) : State World () :=
  upd (λ i, set_callbacks installed (audit_cb i) i).
Definition setAuditCallback (installed : bool) : State World () :=
  upd (λ i, set_callbacks (state_cb i) installed i).
Definition setCapabilityCeiling (c : Capabilities) : State World () :=
  upd (set_ceiling c).
Definition allowPeer (fp : string) : State World () :=
  upd (λ i, set_lists ({[fp]} ∪ allow_list i) (deny_list i ∖ {[fp]}) i).
Definition denyPeer (fp : string) : State World () :=
  upd (λ i, set_lists (allow_list i ∖ {[fp]}) ({[fp]} ∪ deny_list i) i).

(** ** Sequences of calls *)

Inductive Op :=
| OpBegin (peer : PeerInfo)
| OpHandshakeStarted (id : Z)
| OpHandshakeCompleted (id : Z) (fp : string)
| OpAuthorize (id : Z) (requested : Capabilities)
| OpDeny (id : Z) (reason : string)
| OpCheck (id : Z) (needed : Capabilities)
| OpClose (id : Z)
| OpSetCeiling (c : Capabilities)
| OpAllowPeer (fp : string)
| OpDenyPeer (fp : string)
| OpSetStateCallback (installed : bool)
| OpSetAuditCallback (installed : bool).

(** What a call returns. *)
Inductive Reply :=
| RUnit
| RStatus (s : Status)
| RId (r : Result Z)
| RBool (b : bool).

Definition exec (o : Op) : State World Reply :=
  match o with
  | OpBegin peer => r ← beginSession peer; mret (RId r)
  | OpHandshakeStarted id => r ← onHandshakeStarted id; mret (RStatus r)
  | OpHandshakeCompleted id fp => r ← onHandshakeCompleted id fp; mret (RStatus r)
  | OpAuthorize id req => r ← authorize id req; mret (RStatus r)
  | OpDeny id reason => r ← deny id reason; mret (RStatus r)
  | OpCheck id needed => r ← checkPermission id needed; mret (RBool r)
  | OpClose id => r ← closeSession id; mret (RStatus r)
  | OpSetCeiling c => setCapabilityCeiling c;; mret RUnit
  | OpAllowPeer fp => allowPeer fp;; mret RUnit
  | OpDenyPeer fp => denyPeer fp;; mret RUnit
  | OpSetStateCallback b => setStateCallback b;; mret RUnit
  | OpSetAuditCallback b => setAuditCallback b;; mret RUnit
  end.

(** The world after a sequence of calls. *)
Definition run (ops : list Op) (w : World) : World :=
  fold_left (λ w o, (exec o w).2) ops w.
End operations.

(** ** Abstract specification

    What the manager promises about policy, without clock, callbacks and audit
    plumbing: the policy-relevant state [Policy] and, per call, the state
    after it and the audit entries it makes, in order. *)

Record Policy := {
  p_sessions : gmap Z Session;
  p_next_id : Z;
  p_ceiling : Capabilities;
  p_deny : gset string;
  p_pins : gmap string string;
}.

Definition Entry : Type := string * AuditEvent * string.

Definition policy_of (i : Impl) : Policy :=
  {| p_sessions := sessions i; p_next_id := next_id i; p_ceiling := ceiling i;
     p_deny := deny_list i; p_pins := tofu_pins i |}.

Definition entry_of (r : AuditRecord) : Entry :=
  (peer_fingerprint r, event r, detail r).

Definition entries (w : World) : list Entry := entry_of <$> audit (impl w).

Definition with_sessions (f : gmap Z Session → gmap Z Session) (p : Policy) : Policy :=
  {| p_sessions := f (p_sessions p); p_next_id := p_next_id p;
     p_ceiling := p_ceiling p; p_deny := p_deny p; p_pins := p_pins p |}.

Definition with_pins (f : gmap string string → gmap string string) (p : Policy) : Policy :=
  {| p_sessions := p_sessions p; p_next_id := p_next_id p;
     p_ceiling := p_ceiling p; p_deny := p_deny p; p_pins := f (p_pins p) |}.

(** What a call returns, leaves behind and logs. *)
Record Outcome := { reply : Reply; after : Policy; logged : list Entry }.
Definition outcome (r : Reply) (p : Policy) (es : list Entry) : Outcome :=
  {| reply := r; after := p; logged := es |}.

Definition spec_begin (peer : PeerInfo) (p : Policy) : Outcome :=
  if bool_decide (fingerprint peer ∈ p_deny p) then
    outcome (RId (fail PermissionDenied "peer is on the deny list")) p
      [(fingerprint peer, CapabilityDenied, "peer on deny-list")]
  else
    let id := p_next_id p in
    outcome (RId (good id))
      {| p_sessions := emplace id (Session_new id peer) (p_sessions p);
         p_next_id := to_u64 (id + 1);
         p_ceiling := p_ceiling p; p_deny := p_deny p; p_pins := p_pins p |}
      [(fingerprint peer, SessionRequested, "id=" +:+ redesk_id peer)].

Definition spec_handshake_completed (id : Z) (fp : string) (s : Session)
    (p : Policy) : Outcome :=
  let peer_fp := if bool_decide (fingerprint (peer_ s) = EmptyString) then fp
                 else fingerprint (peer_ s) in
  let completed := (peer_fp, HandshakeCompleted, EmptyString) in
  let rid := redesk_id (peer_ s) in
  if bool_decide (fp ∈ p_deny p) then
    outcome (RStatus (error PermissionDenied "peer denied"))
      (with_sessions (alter (setState Denied) id) p)
      [completed; (fp, AuthFailed, "peer on deny-list (post-handshake)")]
  else match p_pins p !! rid with
  | Some expected =>
      outcome (RStatus success) p
        (completed ::
         if bool_decide (expected ≠ fp)
         then [(fp, KeyChangeDetected, "id=" +:+ rid +:+ " expected=" +:+ expected)]
         else [])
  | None => outcome (RStatus success) (with_pins (<[rid := fp]>) p) [completed]
  end.

Definition spec_authorize (id : Z) (req : Capabilities) (s : Session)
    (p : Policy) : Outcome :=
  let fp := fingerprint (peer_ s) in
  let allowed := allowed_bits (p_ceiling p) req in
  let refused :=
    if refused_bits (p_ceiling p) req =? 0 then [] else
    [(fp, CapabilityDenied,
      "above ceiling: requested=" +:+ pretty req +:+
      " ceiling=" +:+ pretty (Z.lor (p_ceiling p) Cap.ViewOnly))] in
  if allowed =? 0 then
    outcome (RStatus (error PermissionDenied "no requested capability is within policy"))
      (with_sessions (alter (setState Denied) id) p) refused
  else
    outcome (RStatus success)
      (with_sessions (alter (setState Active ∘ grant (Z.lor allowed Cap.ViewOnly)) id) p)
      (refused ++ [(fp, CapabilityGranted, "granted=" +:+ pretty (Z.lor allowed Cap.ViewOnly));
                   (fp, AuthSucceeded, ""); (fp, SessionActivated, "")]).

(** A call on an unknown session changes nothing and logs nothing. *)
Definition on_session (unknown : Reply) (id : Z) (f : Session → Policy → Outcome)
    (p : Policy) : Outcome :=
  match p_sessions p !! id with None => outcome unknown p [] | Some s => f s p end.

(** The unconditional lifecycle moves. *)
Definition spec_move (id : Z) (to : SessionState) (ev : AuditEvent) (det : string) :
    Policy → Outcome :=
  on_session (RStatus unknown_session) id (λ s p,
    outcome (RStatus success) (with_sessions (alter (setState to) id) p)
      [(fingerprint (peer_ s), ev, det)]).

Definition spec_step (o : Op) (p : Policy) : Outcome :=
  match o with
  | OpBegin peer => spec_begin peer p
  | OpHandshakeStarted id => spec_move id Authenticating HandshakeStarted "" p
  | OpHandshakeCompleted id fp =>
      on_session (RStatus unknown_session) id (spec_handshake_completed id fp) p
  | OpAuthorize id req => on_session (RStatus unknown_session) id (spec_authorize id req) p
  | OpDeny id reason => spec_move id Denied AuthFailed reason p
  | OpCheck id needed =>
      on_session (RBool false) id (λ s p,
        outcome (RBool (isAllowed s needed)) p
          (if isAllowed s needed then [] else
           [(fingerprint (peer_ s), PermissionCheckDenied,
             "needed=" +:+ pretty needed +:+
             " state=" +:+ SessionState_toString (state_ s))])) p
  | OpClose id => spec_move id Closed SessionClosed "" p
  | OpSetCeiling c =>
      outcome RUnit {| p_sessions := p_sessions p; p_next_id := p_next_id p;
        p_ceiling := c; p_deny := p_deny p; p_pins := p_pins p |} []
  | OpAllowPeer fp =>
      outcome RUnit {| p_sessions := p_sessions p; p_next_id := p_next_id p;
        p_ceiling := p_ceiling p; p_deny := p_deny p ∖ {[fp]}; p_pins := p_pins p |} []
  | OpDenyPeer fp =>
      outcome RUnit {| p_sessions := p_sessions p; p_next_id := p_next_id p;
        p_ceiling := p_ceiling p; p_deny := {[fp]} ∪ p_deny p; p_pins := p_pins p |} []
  | OpSetStateCallback _ | OpSetAuditCallback _ => outcome RUnit p []
  end.

(** ** Refinement *)

(** [does m p r p' es]: from any world whose policy state is [p], [m] returns
    [r], leaves the policy state [p'] and appends the entries [es] to the log. *)
Definition does {A} (m : State World A) (p : Policy) (r : A) (p' : Policy)
    (es : list Entry) : Prop :=
  ∀ w, policy_of (impl w) = p →
    (m w).1 = r ∧ policy_of (impl (m w).2) = p' ∧ entries (m w).2 = entries w ++ es.

Lemma does_ret {A} (x : A) p : does (mret x) p x p [].
Proof. intros w <-. by rewrite app_nil_r. Qed.

Lemma does_bind {A B} (m : State World A) (f : A → State World B) p r p1 es1 r2 p2 es2 :
  does m p r p1 es1 → does (f r) p1 r2 p2 es2 → does (m ≫= f) p r2 p2 (es1 ++ es2).
Proof.
  intros Hm Hf w Hw. destruct (Hm w Hw) as (Hr & Hp & He). rewrite state_bind_run, Hr.
  destruct (Hf _ Hp) as (Hr' & Hp' & He'). by rewrite He', He, app_assoc.
Qed.

Lemma does_gets {A} (g : World → A) p r :
  (∀ w, policy_of (impl w) = p → g w = r) → does (gets g) p r p [].
Proof. intros Hg w Hw. split_and!; [by apply Hg|done|by rewrite app_nil_r]. Qed.

Lemma does_when (b : bool) m p p' es :
  does m p () p' es →
  does (when b m) p () (if b then p' else p) (if b then es else []).
Proof. destruct b; [done|]. intros _. apply does_ret. Qed.

Lemma does_upd f p p' :
  (∀ i, policy_of i = p → policy_of (f i) = p' ∧ audit (f i) = audit i) →
  does (upd f) p () p' [].
Proof.
  intros Hf w Hw. destruct (Hf _ Hw) as [Hp Ha]. split_and!; [done|done|].
  unfold entries. simpl. by rewrite Ha, app_nil_r.
Qed.

Lemma does_sessions f p : does (upd (set_sessions f)) p () (with_sessions f p) [].
Proof. apply does_upd. by intros i <-. Qed.

Lemma does_pins f p : does (upd (set_tofu_pins f)) p () (with_pins f p) [].
Proof. apply does_upd. by intros i <-. Qed.

Lemma does_set_next_id n p :
  does (upd (set_next_id n)) p ()
    {| p_sessions := p_sessions p; p_next_id := n;
       p_ceiling := p_ceiling p; p_deny := p_deny p; p_pins := p_pins p |} [].
Proof. apply does_upd. by intros i <-. Qed.

Section refinement.
Context (clock : nat → Z).

Abbreviation policy w := (policy_of (impl w)).

Lemma does_record fp ev det p : does (record clock fp ev det) p () p [(fp, ev, det)].
Proof.
  intros w <-. unfold record, entries. run_state.
  by case_match; simpl; rewrite fmap_app.
Qed.

Lemma does_transition id to p :
  does (transition id to) p () (with_sessions (alter (setState to) id) p) [].
Proof.
  intros w <-. unfold transition, entries. run_state.
  by case_match; simpl; rewrite app_nil_r.
Qed.

Lemma does_find id p : does (find id) p (p_sessions p !! id) p [].
Proof. apply does_gets. by intros w <-. Qed.

Lemma does_denied fp p :
  does (gets (λ w, bool_decide (fp ∈ deny_list (impl w)))) p
    (bool_decide (fp ∈ p_deny p)) p [].
Proof. apply does_gets. by intros w <-. Qed.

Lemma does_next_id p : does (gets (λ w, next_id (impl w))) p (p_next_id p) p [].
Proof. apply does_gets. by intros w <-. Qed.

Lemma does_ceiling p : does (gets (λ w, ceiling (impl w))) p (p_ceiling p) p [].
Proof. apply does_gets. by intros w <-. Qed.

Lemma does_pin rid p : does (gets (λ w, tofu_pins (impl w) !! rid)) p (p_pins p !! rid) p [].
Proof. apply does_gets. by intros w <-. Qed.

Lemma alter_twice f g id p :
  with_sessions (alter f id) (with_sessions (alter g id) p) =
  with_sessions (alter (f ∘ g) id) p.
Proof. unfold with_sessions. simpl. by rewrite alter_alter_eq. Qed.

(** One primitive call; a body made of them, with the tests that are known. *)
Ltac does_one :=
  first [apply does_ret | apply does_record | apply does_transition | apply does_find
        |apply does_sessions | apply does_pins | apply does_when; apply does_record
        |apply does_denied | apply does_next_id | apply does_ceiling | apply does_pin
        |apply does_set_next_id].
Ltac known_tests :=
  cbv beta zeta; repeat match goal with H : _ = _ |- _ => rewrite H end; cbv iota.
Ltac does_all :=
  known_tests; first [does_one | eapply does_bind; [does_one|does_all]].

(** A computation whose outcome is the specified one up to computation. *)
Lemma does_outcome {A} (m : State World A) (f : A → Reply) p r p' es out :
  does m p r p' es → f r = reply out → p' = after out → es = logged out →
  does (x ← m; mret (f x)) p (reply out) (after out) (logged out).
Proof.
  intros Hm <- <- <-. rewrite <-(app_nil_r es). by eapply does_bind; [|apply does_ret].
Qed.

(** Run the body of a call; then its outcome is compared. *)
Ltac does_call := eapply does_outcome; [does_all| | |]; try done.

(** [o] does what the specification prescribes. *)
Definition refines (o : Op) (p : Policy) : Prop :=
  does (exec clock o) p (reply (spec_step o p)) (after (spec_step o p))
    (logged (spec_step o p)).

Lemma begin_refines peer p : refines (OpBegin peer) p.
Proof.
  unfold refines. cbn [exec spec_step]. unfold beginSession, spec_begin.
  destruct (bool_decide (fingerprint peer ∈ p_deny p)) eqn:Hd; does_call.
Qed.

(** The outcome on an unknown session, and the body on a known one. *)
Ltac on_known p id :=
  unfold refines; cbn [exec spec_step]; unfold spec_move, on_session;
  unfold onHandshakeStarted, onHandshakeCompleted, authorize, deny, checkPermission,
    closeSession;
  destruct (p_sessions p !! id) as [s|] eqn:Hid; [|by does_call].

Lemma handshake_completed_refines id fp p : refines (OpHandshakeCompleted id fp) p.
Proof.
  on_known p id. unfold spec_handshake_completed. cbv zeta.
  destruct (bool_decide (fp ∈ p_deny p)) eqn:Hd; [by does_call|].
  destruct (p_pins p !! redesk_id (peer_ s)) as [expected|] eqn:Hp; [|by does_call].
  destruct (bool_decide (expected ≠ fp)) eqn:He; by does_call.
Qed.

Lemma authorize_refines id req p : refines (OpAuthorize id req) p.
Proof.
  on_known p id. unfold spec_authorize. cbv zeta.
  destruct (refused_bits (p_ceiling p) req =? 0) eqn:Hr;
    destruct (allowed_bits (p_ceiling p) req =? 0) eqn:Ha; by does_call; rewrite ?alter_twice.
Qed.

Lemma check_refines id needed p : refines (OpCheck id needed) p.
Proof. on_known p id. destruct (isAllowed s needed) eqn:Hs; by does_call. Qed.

(** Every call's effect is that of the specification. *)
Lemma exec_refines o p : refines o p.
Proof.
  destruct o as [peer|id|id fp|id req|id reason|id needed|id|c|fp|fp|b|b];
    [apply begin_refines| |apply handshake_completed_refines|apply authorize_refines
    | |apply check_refines| |..]; try (by on_known p id; does_call).
  all: unfold refines; match goal with |- does _ _ _ ?p' _ =>
      apply (does_outcome _ (λ _, RUnit) p () p' []); try done end;
    apply does_upd; by intros i <-.
Qed.

Lemma exec_reply o w : (exec clock o w).1 = reply (spec_step o (policy w)).
Proof. by apply exec_refines. Qed.
Lemma exec_policy o w : policy (exec clock o w).2 = after (spec_step o (policy w)).
Proof. by apply exec_refines. Qed.
Lemma exec_entries o w :
  entries (exec clock o w).2 = entries w ++ logged (spec_step o (policy w)).
Proof. by apply exec_refines. Qed.

Definition spec_run (ops : list Op) (p : Policy) : Policy :=
  fold_left (λ p o, after (spec_step o p)) ops p.

Lemma run_policy ops w : policy (run clock ops w) = spec_run ops (policy w).
Proof.
  revert w. induction ops as [|o ops IH]; intros w; [done|].
  simpl. by rewrite IH, exec_policy.
Qed.
End refinement.
