(* ===== verification/SessionFacts.v ===== *)
(** * Properties of the session manager

    Least privilege, default deny, identity, audit completeness.  The policy
    facts are proved on the specification machine of [Session] and carried to
    the code by [exec_refines]. *)

From S2P Require Import Prelude Types Session.

(** ** One call, seen from one session *)

(** The calls that take session [id] out of [Active] whatever the policy. *)
Definition ends_session (id : Z) (o : Op) : Prop :=
  match o with
  | OpHandshakeStarted i | OpDeny i _ | OpClose i => i = id
  | _ => False
  end.

(** How a call can change a session that exists. *)
Inductive session_step (o : Op) (p : Policy) (id : Z) (s : Session) : Session → Prop :=
| session_keep : ¬ ends_session id o → session_step o p id s s
| session_move to : to ≠ Active → session_step o p id s (setState to s)
| session_authorize req :
    o = OpAuthorize id req →
    allowed_bits (p_ceiling p) req ≠ 0 →
    session_step o p id s
      (setState Active (grant (Z.lor (allowed_bits (p_ceiling p) req) Cap.ViewOnly) s)).

Lemma lookup_emplace id s m j :
  emplace id s m !! j = match m !! j with
                        | Some s' => Some s'
                        | None => if decide (id = j) then Some s else None
                        end.
Proof.
  unfold emplace. destruct (m !! id) eqn:E.
  - destruct (m !! j) eqn:Ej; [done|]. case_decide; congruence.
  - rewrite lookup_insert. case_decide; [by subst; rewrite E|].
    by destruct (m !! j).
Qed.

Lemma on_session_cases P unknown id f p :
  (p_sessions p !! id = None → P (outcome unknown p [])) →
  (∀ s, p_sessions p !! id = Some s → P (f s p)) →
  P (on_session unknown id f p).
Proof. intros. unfold on_session. destruct (p_sessions p !! id) eqn:?; auto. Qed.

(** The sessions after an alteration of one of them. *)
Lemma alter_lookup_cases (f : Session → Session) (i j : Z) (m : gmap Z Session) s' :
  alter f i m !! j = Some s' →
  ∃ s, m !! j = Some s ∧ ((i = j ∧ s' = f s) ∨ (i ≠ j ∧ s' = s)).
Proof.
  rewrite lookup_alter_Some. intros [[-> (s & ? & ->)]|[? ?]]; eauto 10.
Qed.

Ltac keep s := exists s; split; [done|apply session_keep; simpl; (congruence || naive_solver)].

Lemma spec_step_session o p id s :
  p_sessions p !! id = Some s →
  ∃ s', p_sessions (after (spec_step o p)) !! id = Some s' ∧ session_step o p id s s'.
Proof.
  intros Hs.
  assert (∀ i to P, (i = id ∨ ¬ ends_session id o) → to ≠ Active →
    P = alter (setState to) i (p_sessions p) →
    ∃ s', P !! id = Some s' ∧ session_step o p id s s') as Hmove.
  { intros i to P Hi Hto ->. rewrite lookup_alter. case_decide as E; [subst i|]; rewrite Hs; simpl.
    - eexists. split; [done|]. by apply session_move.
    - exists s. split; [done|]. apply session_keep. naive_solver. }
  destruct o as [peer|i|i fp|i req|i reason|i needed|i|c|fp|fp|b|b]; simpl in *;
    try keep s;
    try (unfold spec_move; apply on_session_cases;
         [intros ?; keep s
         |intros s0 Hs0; simpl]);
    try by (eapply (Hmove i); [destruct (decide (i = id)); auto| |done]).
  - unfold spec_begin. case_bool_decide; simpl; [keep s|].
    rewrite lookup_emplace, Hs. keep s.
  - unfold spec_handshake_completed. case_bool_decide; simpl.
    + by eapply (Hmove i Denied); auto.
    + destruct (p_pins p !! _); simpl; keep s.
  - unfold spec_authorize. case_match; simpl; [by eapply (Hmove i Denied); auto|].
    rewrite lookup_alter. case_decide; subst; rewrite Hs; simpl; [|keep s].
    eexists. split; [done|]. eapply session_authorize; [done|lia].
  - keep s.
Qed.

(** ** Runs of the specification *)

(** Every capability bit some ceiling of the run allowed. *)
Definition op_ceiling (o : Op) : Capabilities :=
  match o with OpSetCeiling c => c | _ => Cap.None end.
Definition ceilings_from (c : Capabilities) (ops : list Op) : Capabilities :=
  fold_left (λ c o, Z.lor c (op_ceiling o)) ops c.
Definition ceilings_of (ops : list Op) : Capabilities := ceilings_from Cap.ViewOnly ops.

Lemma spec_run_app ops ops' p : spec_run (ops ++ ops') p = spec_run ops' (spec_run ops p).
Proof. apply fold_left_app. Qed.

(** Induction on a run from its last call. *)
Lemma spec_run_ind (P : list Op → Policy → Prop) p :
  P [] p →
  (∀ ops o, P ops (spec_run ops p) →
            P (ops ++ [o]) (after (spec_step o (spec_run ops p)))) →
  ∀ ops, P ops (spec_run ops p).
Proof.
  intros H0 HS ops. induction ops as [|o ops IH] using rev_ind; [done|].
  rewrite spec_run_app. by apply HS.
Qed.

(** Go through the outcomes a call can have. *)
Ltac outcomes o :=
  destruct o; simpl; auto; unfold spec_begin, spec_move; try case_bool_decide; simpl; auto;
  apply on_session_cases; simpl; auto; intros s Hs;
  unfold spec_handshake_completed, spec_authorize; repeat case_match; simpl; auto.

(** A session that a call creates is the one [beginSession] emplaces. *)
Lemma spec_step_new o p id s' :
  p_sessions p !! id = None → p_sessions (after (spec_step o p)) !! id = Some s' →
  ∃ peer, o = OpBegin peer ∧ (fingerprint peer ∉ p_deny p) ∧ id = p_next_id p ∧
          s' = Session_new id peer.
Proof.
  intros Hn. destruct o as [peer|i|i fp|i req|i reason|i needed|i|c|fp|fp|b|b];
    simpl; try (intros; congruence).
  { unfold spec_begin. case_bool_decide; simpl; [congruence|].
    rewrite lookup_emplace, Hn. case_decide; [|done]. intros [= <-]. subst. eauto. }
  all: unfold spec_move; apply on_session_cases; simpl; try congruence; intros s Hs;
    unfold spec_handshake_completed, spec_authorize; repeat case_match; simpl;
    try congruence; intros (? & ? & _)%alter_lookup_cases; congruence.
Qed.

Lemma spec_step_next o p :
  p_next_id (after (spec_step o p)) = p_next_id p ∨
  p_next_id (after (spec_step o p)) = to_u64 (p_next_id p + 1).
Proof.
  outcomes o.
Qed.

Lemma spec_step_ceiling o p :
  p_ceiling (after (spec_step o p)) =
    match o with OpSetCeiling c => c | _ => p_ceiling p end.
Proof.
  outcomes o.
Qed.

Lemma spec_step_deny o p :
  p_deny (after (spec_step o p)) =
    match o with
    | OpAllowPeer fp => p_deny p ∖ {[fp]}
    | OpDenyPeer fp => {[fp]} ∪ p_deny p
    | _ => p_deny p
    end.
Proof.
  outcomes o.
Qed.

Lemma spec_step_pins o p rid fp :
  p_pins p !! rid = Some fp → p_pins (after (spec_step o p)) !! rid = Some fp.
Proof.
  intros Hp. outcomes o.
  all: by rewrite lookup_insert_ne by congruence.
Qed.

(** ** Invariants of the reachable policies *)

Record policy_inv (c : Capabilities) (n : nat) (p : Policy) : Prop := {
  inv_granted id s : p_sessions p !! id = Some s → bits_sub (granted_ s) c;
  inv_ceiling : bits_sub (p_ceiling p) c;
  inv_next : Z.of_nat n < 2 ^ 64 - 1 → p_next_id p ≤ 1 + Z.of_nat n;
  inv_next_pos : Z.of_nat n < 2 ^ 64 - 1 → 0 < p_next_id p;
  inv_ids id s : Z.of_nat n < 2 ^ 64 - 1 → p_sessions p !! id = Some s → id < p_next_id p;
}.

Lemma allowed_bits_sub ceil req c :
  bits_sub ceil c → bits_sub Cap.ViewOnly c →
  bits_sub (Z.lor (allowed_bits ceil req) Cap.ViewOnly) c.
Proof.
  intros ??. apply bits_sub_lor; [|done]. eapply bits_sub_trans; [apply bits_sub_land_r|].
  by apply bits_sub_lor.
Qed.

Lemma session_step_granted o p id s s' c :
  session_step o p id s s' → bits_sub (p_ceiling p) c → bits_sub Cap.ViewOnly c →
  bits_sub (granted_ s) c → bits_sub (granted_ s') c.
Proof.
  intros [] ???; simpl; auto. apply bits_sub_lor; [done|]. by apply allowed_bits_sub.
Qed.

Lemma policy_inv_init :
  policy_inv Cap.ViewOnly 0 (policy_of (impl World_init)).
Proof.
  split; simpl.
  - intros id s. by rewrite lookup_empty.
  - apply bits_sub_refl.
  - lia.
  - lia.
  - intros id s _. by rewrite lookup_empty.
Qed.

Lemma spec_step_next_range o p n :
  Z.of_nat (S n) < 2 ^ 64 - 1 → 0 < p_next_id p ≤ 1 + Z.of_nat n →
  p_next_id p ≤ p_next_id (after (spec_step o p)) ≤ p_next_id p + 1.
Proof.
  intros Hn Hr. destruct (spec_step_next o p) as [->| ->]; [lia|].
  rewrite wrap_id; [lia|]. unfold fits. lia.
Qed.

Lemma policy_inv_step o p c n :
  bits_sub Cap.ViewOnly c → policy_inv c n p →
  policy_inv (Z.lor c (op_ceiling o)) (S n) (after (spec_step o p)).
Proof.
  intros Hv [Hg Hc Hn Hp Hi].
  assert (bits_sub (p_ceiling p) (Z.lor c (op_ceiling o))) by auto with redesk.
  split.
  - intros id s' Hs'. destruct (p_sessions p !! id) as [s|] eqn:Hs.
    + destruct (spec_step_session o p id s Hs) as (s2 & Hs2 & Hstep).
      rewrite Hs' in Hs2. injection Hs2 as <-.
      eapply session_step_granted; eauto with redesk.
    + by destruct (spec_step_new o p id s' Hs Hs') as (? & ? & ? & ? & ->).
  - rewrite spec_step_ceiling. destruct o; simpl; auto with redesk.
  - intros Hlt. destruct (spec_step_next_range o p n); [lia|split; [apply Hp|apply Hn]; lia|].
    specialize (Hn ltac:(lia)). lia.
  - intros Hlt. destruct (spec_step_next_range o p n); [lia|split; [apply Hp|apply Hn]; lia|].
    specialize (Hp ltac:(lia)). lia.
  - intros id s' Hlt Hs'.
    destruct (spec_step_next_range o p n); [lia|split; [apply Hp|apply Hn]; lia|].
    destruct (p_sessions p !! id) as [s|] eqn:Hs; [apply Hi in Hs; lia|].
    destruct (spec_step_new o p id s' Hs Hs') as (peer & -> & Hd & -> & ->).
    simpl in *. unfold spec_begin in *. rewrite bool_decide_false in * by done. simpl in *.
    specialize (Hn ltac:(lia)). rewrite wrap_id; [lia|].
    specialize (Hp ltac:(lia)). unfold fits. lia.
Qed.

Lemma ceilings_from_mono v c ops : bits_sub v c → bits_sub v (ceilings_from c ops).
Proof.
  revert c. induction ops as [|o ops IH]; intros c Hc; [done|].
  apply IH. auto with redesk.
Qed.

Lemma view_only_ceilings ops : bits_sub Cap.ViewOnly (ceilings_of ops).
Proof. apply ceilings_from_mono, bits_sub_refl. Qed.

Lemma ceilings_of_snoc ops o :
  ceilings_of (ops ++ [o]) = Z.lor (ceilings_of ops) (op_ceiling o).
Proof. unfold ceilings_of, ceilings_from. by rewrite fold_left_app. Qed.

Lemma policy_inv_run ops :
  policy_inv (ceilings_of ops) (length ops) (spec_run ops (policy_of (impl World_init))).
Proof.
  apply (spec_run_ind (λ ops p, policy_inv (ceilings_of ops) (length ops) p)).
  - apply policy_inv_init.
  - intros ops' o IH. rewrite ceilings_of_snoc, length_app. simpl.
    rewrite Nat.add_1_r. apply policy_inv_step; [apply view_only_ceilings|done].
Qed.

(** An active session that grants [needed] was authorized after its last end. *)
Definition authorized_since (id : Z) (p0 : Policy) (ops : list Op) : Prop :=
  ∃ pre req post, ops = pre ++ OpAuthorize id req :: post ∧
    Forall (λ o, ¬ ends_session id o) post ∧
    reply (spec_step (OpAuthorize id req) (spec_run pre p0)) = RStatus success.

Lemma authorized_since_snoc id p0 ops o :
  authorized_since id p0 ops → ¬ ends_session id o → authorized_since id p0 (ops ++ [o]).
Proof.
  intros (pre & req & post & -> & Hf & Hr) Ho. exists pre, req, (post ++ [o]).
  split_and!; [by rewrite <-app_assoc| |done]. by apply Forall_app_2; [|apply Forall_singleton].
Qed.

Lemma spec_run_active id s ops :
  let p0 := policy_of (impl World_init) in
  p_sessions (spec_run ops p0) !! id = Some s → state_ s = Active →
  authorized_since id p0 ops.
Proof.
  intros p0. revert s.
  apply (spec_run_ind (λ ops p, ∀ s, p_sessions p !! id = Some s → state_ s = Active →
    authorized_since id p0 ops)); [intros s; simpl; by rewrite lookup_empty|].
  intros pre o IH s' Hs' Ha. destruct (p_sessions (spec_run pre p0) !! id) as [s|] eqn:Hs.
  - destruct (spec_step_session o _ id s Hs) as (s2 & Hs2 & Hstep).
    rewrite Hs' in Hs2. injection Hs2 as <-. destruct Hstep as [Hend|to Hto|req -> Hal].
    + apply authorized_since_snoc; eauto.
    + done.
    + exists pre, req, []. split_and!; [done|constructor|].
      simpl. unfold on_session. rewrite Hs. unfold spec_authorize.
      by rewrite (proj2 (Z.eqb_neq _ _) Hal).
  - by destruct (spec_step_new o _ id s' Hs Hs') as (? & ? & ? & ? & ->).
Qed.

(** ** Replies and logs of whole runs *)

Fixpoint replies (clock : nat → Z) (ops : list Op) (w : World) : list Reply :=
  match ops with
  | [] => []
  | o :: ops => (exec clock o w).1 :: replies clock ops (exec clock o w).2
  end.

Fixpoint spec_replies (ops : list Op) (p : Policy) : list Reply :=
  match ops with
  | [] => []
  | o :: ops => reply (spec_step o p) :: spec_replies ops (after (spec_step o p))
  end.

Fixpoint spec_log (ops : list Op) (p : Policy) : list Entry :=
  match ops with
  | [] => []
  | o :: ops => logged (spec_step o p) ++ spec_log ops (after (spec_step o p))
  end.

Section runs.
Context (clock : nat → Z).
Abbreviation policy w := (policy_of (impl w)).

Lemma replies_spec ops w : replies clock ops w = spec_replies ops (policy w).
Proof.
  revert w. induction ops as [|o ops IH]; intros w; simpl; [done|].
  by rewrite IH, exec_reply, exec_policy.
Qed.

Lemma run_entries ops w :
  entries (run clock ops w) = entries w ++ spec_log ops (policy w).
Proof.
  revert w. induction ops as [|o ops IH]; intros w; simpl; [by rewrite app_nil_r|].
  by rewrite IH, exec_entries, exec_policy, <-app_assoc.
Qed.

Lemma run_app ops ops' w : run clock (ops ++ ops') w = run clock ops' (run clock ops w).
Proof. apply fold_left_app. Qed.

Lemma check_reply id needed w :
  (exec clock (OpCheck id needed) w).1 =
  RBool (match sessions (impl w) !! id with
         | Some s => isAllowed s needed
         | None => false
         end).
Proof. rewrite exec_reply. simpl. unfold on_session. cbn. by destruct (sessions (impl w) !! id). Qed.

Lemma isAllowed_spec s needed :
  isAllowed s needed = true ↔ state_ s = Active ∧ bits_sub needed (granted_ s).
Proof.
  unfold isAllowed, hasCapability, bits_sub.
  rewrite andb_true_iff, bool_decide_eq_true, Z.eqb_eq, Z.land_comm. done.
Qed.

Lemma check_true id needed w :
  (exec clock (OpCheck id needed) w).1 = RBool true ↔
  ∃ s, sessions (impl w) !! id = Some s ∧ state_ s = Active ∧ bits_sub needed (granted_ s).
Proof.
  rewrite check_reply. split.
  - intros [= H]. destruct (sessions (impl w) !! id) as [s|]; [|done].
    exists s. by rewrite <-isAllowed_spec.
  - intros (s & -> & Hs). by rewrite (proj2 (isAllowed_spec s needed) Hs).
Qed.

Lemma exec_sessions o w :
  sessions (impl (exec clock o w).2) = p_sessions (after (spec_step o (policy w))).
Proof. by rewrite <-(exec_policy clock). Qed.

Lemma sessions_run id ops w :
  sessions (impl (run clock ops w)) !! id = p_sessions (spec_run ops (policy w)) !! id.
Proof. by rewrite <-(run_policy clock). Qed.
End runs.

(** ** What a call adds to the audit log and to the audit callback *)

Definition audit_calls (cs : list CallbackCall) : list AuditRecord :=
  omap (λ c, match c with AuditCall r => Some r | StateCall _ _ => None end) cs.

Section audit.
Context (clock : nat → Z).

(** From [w] to [w'] the log only grew; the new records carry consecutive
    clock readings and are the ones the installed callback was called with. *)
Definition logs (w w' : World) : Prop :=
  audit_cb (impl w') = audit_cb (impl w) ∧
  ∃ new, audit (impl w') = audit (impl w) ++ new ∧
    clock_reads w' = (clock_reads w + length new)%nat ∧
    rec_timestamp_us <$> new =
      (λ k, to_u64 (clock k)) <$> seq (clock_reads w) (length new) ∧
    audit_calls (calls w') =
      audit_calls (calls w) ++ (if audit_cb (impl w) then new else []).

#[local] Instance logs_refl : Reflexive logs.
Proof.
  intros w. split; [done|]. exists []. simpl. rewrite Nat.add_0_r.
  split_and!; [by rewrite app_nil_r|done|done|]. case_match; by rewrite app_nil_r.
Qed.

#[local] Instance logs_trans : Transitive logs.
Proof.
  intros w1 w2 w3 [Hc1 (n1 & Ha1 & Hk1 & Ht1 & Hb1)] [Hc2 (n2 & Ha2 & Hk2 & Ht2 & Hb2)].
  split; [congruence|]. exists (n1 ++ n2). rewrite length_app, fmap_app, seq_app, fmap_app.
  split_and!.
  - by rewrite Ha2, Ha1, app_assoc.
  - lia.
  - by rewrite Ht1, Ht2, Hk1.
  - rewrite Hb2, Hb1, Hc1, <-app_assoc. by destruct (audit_cb (impl w1)).
Qed.

Definition logging {A} (m : State World A) : Prop := ∀ w, logs w (m w).2.

Lemma logging_ret {A} (a : A) : logging (mret a).
Proof. intros w. simpl. reflexivity. Qed.

Lemma logging_bind {A B} (m : State World A) (f : A → State World B) :
  logging m → (∀ a, logging (f a)) → logging (m ≫= f).
Proof.
  intros Hm Hf w. rewrite state_bind_run. transitivity (m w).2; [apply Hm|apply Hf].
Qed.

Lemma logging_gets {A} (f : World → A) : logging (gets f).
Proof. intros w. simpl. reflexivity. Qed.

Lemma logging_when b m : logging m → logging (when b m).
Proof. intros. destruct b; [done|apply logging_ret]. Qed.

Lemma logging_upd f :
  (∀ i, audit (f i) = audit i) → (∀ i, audit_cb (f i) = audit_cb i) → logging (upd f).
Proof.
  intros Ha Hc w. split; [apply Hc|]. exists []. simpl. rewrite Nat.add_0_r, Ha.
  split_and!; [by rewrite app_nil_r|done|done|]. case_match; by rewrite app_nil_r.
Qed.

Lemma logging_transition id to : logging (transition id to).
Proof.
  apply logging_bind; [by apply logging_upd|]. intros _.
  apply logging_bind; [apply logging_gets|]. intros b. apply logging_when. intros w.
  split; [done|]. exists []. simpl. rewrite Nat.add_0_r. unfold audit_calls.
  rewrite omap_app. split_and!; [by rewrite app_nil_r|done..|].
  simpl. by destruct (audit_cb (impl w)).
Qed.

Lemma logging_record fp ev det : logging (record clock fp ev det).
Proof.
  intros w. unfold record, logs. run_state. unfold audit_calls.
  destruct (audit_cb (impl w)) eqn:E; simpl; rewrite ?omap_app, ?E;
    (split; [done|]); eexists [_]; simpl; rewrite ?app_nil_r, Nat.add_1_r; done.
Qed.

Ltac log :=
  repeat lazymatch goal with
  | |- logging (mret _) => apply logging_ret
  | |- logging (gets _) => apply logging_gets
  | |- logging (upd _) => apply logging_upd; reflexivity
  | |- logging (transition _ _) => apply logging_transition
  | |- logging (record _ _ _ _) => apply logging_record
  | |- logging (when _ _) => apply logging_when
  | |- logging (_ ≫= _) => apply logging_bind; [|intros ?]
  | |- logging (match ?x with _ => _ end) => destruct x
  end.

Lemma logging_exec o :
  (∀ b, o ≠ OpSetAuditCallback b) → logging (exec clock o).
Proof.
  intros Ho. destruct o as [peer|i|i fp|i req|i reason|i needed|i|c|fp|fp|b|b];
    try by destruct (Ho b).
  all: simpl; unfold beginSession, onHandshakeStarted, onHandshakeCompleted, authorize,
      deny, checkPermission, closeSession, setStateCallback, setCapabilityCeiling,
      allowPeer, denyPeer, find.
  all: log.
Qed.

Lemma logs_run ops w :
  Forall (λ o, ∀ b, o ≠ OpSetAuditCallback b) ops → logs w (run clock ops w).
Proof.
  intros H. revert w. induction H as [|o ops Ho _ IH]; intros w; [reflexivity|].
  simpl. etrans; [by apply logging_exec|apply IH].
Qed.
End audit.

(** ** Theorems *)

(** C1. The session manager refines its specification: for
    every sequence of calls, clock and starting world, the calls return what
    the specification's calls return, leave the policy state the specification
    leaves, and append exactly the audit entries it prescribes, in its order. *)
Theorem session_refinement clock ops w :
  replies clock ops w = spec_replies ops (policy_of (impl w)) ∧
  policy_of (impl (run clock ops w)) = spec_run ops (policy_of (impl w)) ∧
  entries (run clock ops w) = entries w ++ spec_log ops (policy_of (impl w)).
Proof. by rewrite replies_spec, run_policy, run_entries. Qed.

(** C13. Least privilege: whatever the calls made on a new
    manager, a permission check that passes asks only for bits that some
    capability ceiling in force during the run contained (the initial ceiling
    is ViewOnly). *)
Theorem check_least_privilege clock ops id needed :
  (exec clock (OpCheck id needed) (run clock ops World_init)).1 = RBool true →
  bits_sub needed (ceilings_of ops).
Proof.
  rewrite check_true. intros (s & Hs & _ & Hn). rewrite sessions_run in Hs.
  eapply bits_sub_trans; [done|]. eapply (inv_granted _ _ _ (policy_inv_run ops)).
  exact Hs.
Qed.

(** C14. Default deny: a permission check that passes on a
    manager is preceded by a call of [authorize] for that very session that
    returned success, and no later call denied, closed or restarted the
    handshake of that session. *)
Theorem check_provenance clock ops id needed :
  (exec clock (OpCheck id needed) (run clock ops World_init)).1 = RBool true →
  ∃ pre req post, ops = pre ++ OpAuthorize id req :: post ∧
    Forall (λ o, ¬ ends_session id o) post ∧
    (exec clock (OpAuthorize id req) (run clock pre World_init)).1 = RStatus success.
Proof.
  rewrite check_true. intros (s & Hs & Ha & _). rewrite sessions_run in Hs.
  destruct (spec_run_active id s ops Hs Ha) as (pre & req & post & -> & Hf & Hr).
  exists pre, req, post. by rewrite exec_reply, run_policy.
Qed.

(** Session ids are never reused: while fewer than 2^64 - 2
    calls have been made, [beginSession] on a peer that is not deny-listed
    returns an id no session has, and stores a Pending session without
    capabilities under it, all other sessions unchanged. *)
Theorem begin_fresh_id clock ops peer :
  let w := run clock ops World_init in
  Z.of_nat (length ops) < 2 ^ 64 - 1 →
  fingerprint peer ∉ deny_list (impl w) →
  ∃ id, (exec clock (OpBegin peer) w).1 = RId (good id) ∧
    sessions (impl w) !! id = None ∧
    sessions (impl (exec clock (OpBegin peer) w).2) =
      <[id := Session_new id peer]> (sessions (impl w)).
Proof.
  intros w Hlen Hd. exists (next_id (impl w)).
  assert (sessions (impl w) !! next_id (impl w) = None) as Hn.
  { apply eq_None_not_Some. intros [s Hs]. pose proof (policy_inv_run ops) as Hinv.
    assert (next_id (impl w) < next_id (impl w)); [|lia].
    change (next_id (impl w)) with (p_next_id (policy_of (impl w))) at 2.
    unfold w at 2. rewrite run_policy. eapply inv_ids; [done|done|].
    by rewrite <-(run_policy clock). }
  rewrite exec_reply, exec_sessions. simpl. unfold spec_begin.
  rewrite bool_decide_false by done. simpl. unfold emplace. by rewrite Hn.
Qed.

(** The audit log is append-only and complete: whatever the
    calls, no record is removed or changed, the records added carry the
    successive clock readings in order, and while the audit callback is not
    replaced an installed callback is called with exactly the added records, in
    order. *)
Theorem audit_complete clock ops w :
  Forall (λ o, ∀ b, o ≠ OpSetAuditCallback b) ops →
  ∃ new, audit (impl (run clock ops w)) = audit (impl w) ++ new ∧
    rec_timestamp_us <$> new =
      (λ k, to_u64 (clock k)) <$> seq (clock_reads w) (length new) ∧
    audit_calls (calls (run clock ops w)) =
      audit_calls (calls w) ++ (if audit_cb (impl w) then new else []).
Proof.
  intros H. destruct (logs_run clock ops w H) as [_ (new & ? & _ & ? & ?)]. by exists new.
Qed.

Lemma lookup_run_pin clock ops w rid fp :
  tofu_pins (impl w) !! rid = Some fp → tofu_pins (impl (run clock ops w)) !! rid = Some fp.
Proof.
  intros H. change (p_pins (policy_of (impl (run clock ops w))) !! rid = Some fp).
  rewrite run_policy. change (p_pins (policy_of (impl w)) !! rid = Some fp) in H.
  revert H. apply (spec_run_ind (λ _ p, p_pins _ !! rid = Some fp → p_pins p !! rid = Some fp));
    [done|]. intros ops' o IH H. by apply spec_step_pins, IH.
Qed.

(** Trust on first use: once a routing id is pinned to a
    fingerprint, no sequence of calls changes the pin; a handshake of that id
    that completes with another, not deny-listed, fingerprint succeeds, changes
    no policy state (no automatic denial, no re-pinning) and ends the audit log
    with a KeyChangeDetected record naming both fingerprints. *)
Theorem tofu_pin_stable clock ops w rid fp id s fp' :
  let w1 := run clock ops w in
  let w2 := (exec clock (OpHandshakeCompleted id fp') w1).2 in
  tofu_pins (impl w) !! rid = Some fp →
  sessions (impl w1) !! id = Some s → redesk_id (peer_ s) = rid →
  fp' ≠ fp → fp' ∉ deny_list (impl w1) →
  tofu_pins (impl w1) !! rid = Some fp ∧
  (exec clock (OpHandshakeCompleted id fp') w1).1 = RStatus success ∧
  policy_of (impl w2) = policy_of (impl w1) ∧
  last (entries w2) =
    Some (fp', KeyChangeDetected, "id=" +:+ rid +:+ " expected=" +:+ fp).
Proof.
  intros w1 w2 Hp Hs <- Hne Hd. apply (lookup_run_pin clock ops) in Hp. fold w1 in Hp.
  unfold w2. rewrite exec_reply, exec_policy, exec_entries. simpl.
  unfold on_session. simpl. rewrite Hs. unfold spec_handshake_completed. simpl.
  rewrite (bool_decide_false (fp' ∈ _)) by done. rewrite Hp, (bool_decide_true (fp ≠ fp')) by done.
  simpl. by rewrite last_app.
Qed.

Lemma run_denied clock ops w fp :
  fp ∈ deny_list (impl w) → Forall (λ o, o ≠ OpAllowPeer fp) ops →
  fp ∈ deny_list (impl (run clock ops w)).
Proof.
  intros Hd Hf. revert w Hd. induction Hf as [|o ops Ho _ IH]; intros w Hd; [done|].
  apply IH. change (fp ∈ p_deny (policy_of (impl (exec clock o w).2))).
  rewrite exec_policy, spec_step_deny. destruct o; try done; set_solver.
Qed.

(** C26. The deny list: from [denyPeer] on, and until
    [allowPeer] of the same fingerprint, [beginSession] of a peer with that
    fingerprint is refused and creates no session, and a handshake that
    completes with it on any session is refused, moves that session to Denied
    and ends the log with an AuthFailed record. *)
Theorem deny_list_blocks clock ops w0 fp :
  Forall (λ o, o ≠ OpAllowPeer fp) ops →
  let w := run clock (OpDenyPeer fp :: ops) w0 in
  (∀ peer, fingerprint peer = fp →
     (exec clock (OpBegin peer) w).1 =
       RId (fail PermissionDenied "peer is on the deny list") ∧
     policy_of (impl (exec clock (OpBegin peer) w).2) = policy_of (impl w)) ∧
  (∀ id s, sessions (impl w) !! id = Some s →
     let w' := (exec clock (OpHandshakeCompleted id fp) w).2 in
     (exec clock (OpHandshakeCompleted id fp) w).1 =
       RStatus (error PermissionDenied "peer denied") ∧
     sessions (impl w') = alter (setState Denied) id (sessions (impl w)) ∧
     last (entries w') =
       Some (fp, AuthFailed, "peer on deny-list (post-handshake)")).
Proof.
  intros Hf w. assert (fp ∈ deny_list (impl w)) as Hd.
  { apply (run_denied clock ops); [|done]. simpl. set_solver. }
  split.
  - intros peer Hp. rewrite exec_reply, exec_policy. simpl. unfold spec_begin. simpl.
    by rewrite Hp, bool_decide_true.
  - intros id s Hs w'. unfold w'. rewrite exec_reply, exec_sessions, exec_entries.
    simpl. unfold on_session. simpl. rewrite Hs. unfold spec_handshake_completed. simpl.
    rewrite (bool_decide_true (fp ∈ _)) by done. simpl. by rewrite last_app.
Qed.

(** [authorize] asks nothing of the session's
    state: on any session, also one that was denied or closed, a request that
    meets the ceiling returns success and makes the session Active with the
    bits it held before plus the allowed ones, so permission checks for them
    pass again. *)
Theorem authorize_ignores_state clock w id s req :
  sessions (impl w) !! id = Some s →
  allowed_bits (ceiling (impl w)) req ≠ 0 →
  let w' := (exec clock (OpAuthorize id req) w).2 in
  (exec clock (OpAuthorize id req) w).1 = RStatus success ∧
  ∀ needed,
    bits_sub needed (Z.lor (granted_ s)
      (Z.lor (allowed_bits (ceiling (impl w)) req) Cap.ViewOnly)) ↔
    (exec clock (OpCheck id needed) w').1 = RBool true.
Proof.
  intros Hs Ha w'. setoid_rewrite (check_true clock). unfold w'.
  rewrite exec_reply, exec_sessions.
  cbn [spec_step]. unfold on_session. cbn [policy_of p_sessions]. rewrite Hs.
  unfold spec_authorize. cbn [p_ceiling policy_of]. rewrite (proj2 (Z.eqb_neq _ _) Ha). simpl.
  rewrite lookup_alter_eq, Hs. split; [done|]. intros needed. split; [by eauto|].
  by intros (s' & [= <-] & _ & Hb).
Qed.

(** A world with another allow list. *)
Definition with_allow_list (l : gset string) (w : World) : World :=
  {| impl := set_lists l (deny_list (impl w)) (impl w);
     clock_reads := clock_reads w; calls := calls w |}.

(** The allow list decides nothing: two managers that
    differ in their allow lists only return the same replies to every sequence
    of calls and log the same entries. *)
Theorem allow_list_unused clock ops w l :
  replies clock ops (with_allow_list l w) = replies clock ops w ∧
  entries (run clock ops (with_allow_list l w)) = entries (run clock ops w).
Proof. by rewrite !replies_spec, !run_entries. Qed.

Lemma session_step_peer o p id s s' : session_step o p id s s' → peer_ s' = peer_ s.
Proof. by destruct 1. Qed.

(** The peer a session was created with is never
    changed: in particular a session begun without a fingerprint keeps none,
    whatever fingerprint its handshake completes with, and its later audit
    entries (those of [deny] here) are keyed by the empty fingerprint. *)
Theorem peer_never_updated clock ops w id s :
  sessions (impl w) !! id = Some s →
  ∃ s', sessions (impl (run clock ops w)) !! id = Some s' ∧ peer_ s' = peer_ s ∧
    ∀ reason, last (entries (exec clock (OpDeny id reason) (run clock ops w)).2) =
      Some (fingerprint (peer_ s), AuthFailed, reason).
Proof.
  intros Hs.
  assert (∃ s', sessions (impl (run clock ops w)) !! id = Some s' ∧ peer_ s' = peer_ s)
    as (s' & Hs' & Hpeer).
  { setoid_rewrite sessions_run.
    apply (spec_run_ind (λ _ p, ∃ s', p_sessions p !! id = Some s' ∧ peer_ s' = peer_ s)).
    - by exists s.
    - intros ops' o (s1 & Hs1 & Hp1). destruct (spec_step_session o _ id s1 Hs1)
        as (s2 & Hs2 & Hstep). exists s2. split; [done|].
      by rewrite (session_step_peer _ _ _ _ _ Hstep). }
  exists s'. split_and!; [done..|]. intros reason. rewrite exec_entries. simpl.
  unfold spec_move, on_session. simpl. rewrite Hs'. simpl. by rewrite last_app, Hpeer.
Qed.

(** The "being controlled" indicator is on exactly
    when a permission check for Control would pass on some session. *)
Theorem being_controlled_spec clock w :
  isBeingControlled w = true ↔
  ∃ id, (exec clock (OpCheck id Cap.Control) w).1 = RBool true.
Proof.
  unfold isBeingControlled. rewrite existsb_exists. setoid_rewrite check_true. split.
  - intros ([id s] & Hin & Hb). apply list_elem_of_In, elem_of_map_to_list in Hin.
    exists id, s. split; [done|]. by apply isAllowed_spec.
  - intros (id & s & Hs & Hb). exists (id, s). split.
    + by apply list_elem_of_In, elem_of_map_to_list.
    + by apply isAllowed_spec in Hb.
Qed.

(** ** Witnesses *)

Definition sample_clock (n : nat) : Z := 1000 + Z.of_nat n.
Definition alice : PeerInfo :=
  {| redesk_id := "123 456 789"; fingerprint := "fp-alice"; static_key := [] |}.
Definition anon : PeerInfo :=
  {| redesk_id := "987 654 321"; fingerprint := ""; static_key := [] |}.
Definition granted_ops : list Op :=
  [OpSetCeiling 3; OpBegin alice; OpHandshakeStarted 1;
   OpHandshakeCompleted 1 "fp-alice"; OpAuthorize 1 7].
Definition sample : World := run sample_clock granted_ops World_init.

Lemma check_least_privilege_witness :
  (exec sample_clock (OpCheck 1 2) sample).1 = RBool true ∧
  bits_sub 2 (ceilings_of granted_ops).
Proof.
  split; [by vm_compute|].
  apply (check_least_privilege sample_clock granted_ops 1 2). by vm_compute.
Defined.

Lemma check_provenance_witness :
  ∃ pre req post, granted_ops = pre ++ OpAuthorize 1 req :: post ∧
    Forall (λ o, ¬ ends_session 1 o) post ∧
    (exec sample_clock (OpAuthorize 1 req) (run sample_clock pre World_init)).1 =
      RStatus success.
Proof. apply (check_provenance sample_clock granted_ops 1 2). by vm_compute. Defined.

Lemma begin_fresh_id_witness :
  ∃ id, (exec sample_clock (OpBegin anon) sample).1 = RId (good id) ∧
    sessions (impl sample) !! id = None ∧
    sessions (impl (exec sample_clock (OpBegin anon) sample).2) =
      <[id := Session_new id anon]> (sessions (impl sample)).
Proof.
  apply (begin_fresh_id sample_clock granted_ops anon); [done|].
  apply (bool_decide_unpack _). by vm_compute.
Defined.

Lemma audit_complete_witness :
  ∃ new, audit (impl sample) = [] ++ new ∧
    rec_timestamp_us <$> new = (λ k, to_u64 (sample_clock k)) <$> seq 0 (length new) ∧
    audit_calls (calls sample) = [] ++ [].
Proof. apply (audit_complete sample_clock granted_ops World_init). by repeat constructor. Defined.

Lemma tofu_pin_stable_witness :
  let ops := [OpClose 1; OpBegin alice] in
  let w1 := run sample_clock ops sample in
  let w2 := (exec sample_clock (OpHandshakeCompleted 2 "fp-mallory") w1).2 in
  tofu_pins (impl w1) !! "123 456 789" = Some "fp-alice" ∧
  (exec sample_clock (OpHandshakeCompleted 2 "fp-mallory") w1).1 = RStatus success ∧
  policy_of (impl w2) = policy_of (impl w1) ∧
  last (entries w2) = Some ("fp-mallory", KeyChangeDetected,
    "id=" +:+ "123 456 789" +:+ " expected=" +:+ "fp-alice").
Proof.
  apply (tofu_pin_stable sample_clock [OpClose 1; OpBegin alice] sample
    "123 456 789" "fp-alice" 2 (Session_new 2 alice) "fp-mallory");
    [by vm_compute|by vm_compute|done|done|].
  apply (bool_decide_unpack _). by vm_compute.
Defined.

Lemma deny_list_blocks_witness :
  let w := run sample_clock [OpDenyPeer "fp-alice"; OpClose 1] sample in
  (exec sample_clock (OpBegin alice) w).1 =
    RId (fail PermissionDenied "peer is on the deny list").
Proof.
  apply (deny_list_blocks sample_clock [OpClose 1] sample "fp-alice");
    [by repeat constructor|done].
Defined.

Lemma authorize_ignores_state_witness :
  let w := run sample_clock [OpClose 1; OpDenyPeer "fp-alice"; OpSetCeiling 1] sample in
  (exec sample_clock (OpAuthorize 1 1) w).1 = RStatus success ∧
  (exec sample_clock (OpCheck 1 2) (exec sample_clock (OpAuthorize 1 1) w).2).1 = RBool true.
Proof.
  intros w.
  assert (sessions (impl w) !! 1 =
    Some {| id_ := 1; peer_ := alice; state_ := Closed; granted_ := 3 |}) as Hs
    by by vm_compute.
  destruct (authorize_ignores_state sample_clock w 1 _ 1 Hs) as [Hr Hc]; [by vm_compute|].
  split; [exact Hr|]. apply Hc. by vm_compute.
Defined.

Lemma peer_never_updated_witness :
  let w := run sample_clock [OpBegin anon] World_init in
  let ops := [OpHandshakeStarted 1; OpHandshakeCompleted 1 "fp-anon"] in
  ∃ s', sessions (impl (run sample_clock ops w)) !! 1 = Some s' ∧ peer_ s' = anon ∧
    ∀ reason, last (entries (exec sample_clock (OpDeny 1 reason)
                               (run sample_clock ops w)).2) =
      Some ("", AuthFailed, reason).
Proof.
  intros w ops.
  apply (peer_never_updated sample_clock ops w 1 (Session_new 1 anon)). by vm_compute.
Defined.
