(* ===== verification/SessionObservers.v ===== *)
(** * The session manager with observers that call back ([core/session/session.cpp])

    [SessionManager] runs its two callbacks in the middle of its operations, and a
    callback may call the manager again.  Here [obs w c] is what the installed
    observers do about the callback [c] in the world [w]: calls of the manager, one
    after the other.  The operations are those of [Session] with the callbacks run
    where the code runs them; [notify n] runs callbacks nested [n] deep.  A run that
    enters a deeper one has no result, but the world it has come to; of every run
    the worlds are kept in which the observers were called.  Observers do not
    replace a callback that is running: the language gives that no meaning. *)

From S2P Require Import Prelude Types Session.

(** Computations that may nest too deep: the result if they return, the world they
    leave or have come to, and the worlds in which an observer was called. *)
Record Run (A : Type) := { result : option A; world : World; seen : list World }.
Arguments Build_Run {A}.
Arguments result {A}.
Arguments world {A}.
Arguments seen {A}.

Definition Nested (A : Type) : Type := World → Run A.

#[export] Instance nested_ret : MRet Nested := λ A a w,
  {| result := Some a; world := w; seen := [] |}.
#[export] Instance nested_bind : MBind Nested := λ A B f m w,
  match m w with
  | {| result := Some a; world := w; seen := l |} =>
      let '{| result := b; world := w; seen := l' |} := f a w in
      {| result := b; world := w; seen := l ++ l' |}
  | {| result := None; world := w; seen := l |} =>
      {| result := None; world := w; seen := l |}
  end.

Definition lift {A} (m : State World A) : Nested A := λ w,
  let '(a, w) := m w in {| result := Some a; world := w; seen := [] |}.
Definition when (b : bool) (m : Nested ()) : Nested () := if b then m else mret ().

Section observed.
Context (clock : nat → Z).

Section operations.
(** What running a callback does. *)
Context (notify : CallbackCall → Nested ()).

Definition record (fp : string) (ev : AuditEvent) (det : string) : Nested () :=
  now ← lift (nowMicros clock);
  let r := {| rec_timestamp_us := now; peer_fingerprint := fp; event := ev; detail := det |} in
  lift (upd (push_audit r));;
  cb ← lift (gets (λ w, audit_cb (impl w)));
  when cb (notify (AuditCall r)).

Definition transition (id : Z) (to : SessionState) : Nested () :=
  lift (upd (set_sessions (alter (setState to) id)));;
  cb ← lift (gets (λ w, state_cb (impl w)));
  when cb (notify (StateCall id to)).

Definition beginSession (peer : PeerInfo) : Nested (Result Z) :=
  denied ← lift (gets (λ w, bool_decide (fingerprint peer ∈ deny_list (impl w))));
  if (denied : bool) then
    record (fingerprint peer) CapabilityDenied "peer on deny-list";;
    mret (fail PermissionDenied "peer is on the deny list")
  else
    id ← lift (gets (λ w, next_id (impl w)));
    lift (upd (set_next_id (to_u64 (id + 1))));;
    lift (upd (set_sessions (emplace id (Session_new id peer))));;
    record (fingerprint peer) SessionRequested ("id=" +:+ redesk_id peer);;
    mret (good id).

(** [sessions.find(session_id)]; the element stays where it is, and its peer and
    key never change, so that later uses of the iterator read the same. *)
Definition with_session (session_id : Z) (f : Session → Nested Status) : Nested Status :=
  it ← lift (find session_id);
  match it with
  | None => mret unknown_session
  | Some s => f s
  end.

Definition onHandshakeStarted (session_id : Z) : Nested Status :=
  with_session session_id (λ s,
    transition session_id Authenticating;;
    record (fingerprint (peer_ s)) HandshakeStarted "";;
    mret success).

(** The pin check at the end of [onHandshakeCompleted]. *)
Definition check_pin (rid fp : string) : Nested () := λ w,
  match tofu_pins (impl w) !! rid with
  | Some expected =>
      when (bool_decide (expected ≠ fp))
        (record fp KeyChangeDetected ("id=" +:+ rid +:+ " expected=" +:+ expected)) w
  | None => lift (upd (set_tofu_pins (<[rid := fp]>))) w
  end.

Definition onHandshakeCompleted (session_id : Z) (fp : string) : Nested Status :=
  with_session session_id (λ s,
    let peer_fp :=
      if bool_decide (fingerprint (peer_ s) = EmptyString) then fp
      else fingerprint (peer_ s) in
    record peer_fp HandshakeCompleted "";;
    denied ← lift (gets (λ w, bool_decide (fp ∈ deny_list (impl w))));
    if (denied : bool) then
      record fp AuthFailed "peer on deny-list (post-handshake)";;
      transition session_id Denied;;
      mret (error PermissionDenied "peer denied")
    else
      check_pin (redesk_id (peer_ s)) fp;;
      mret success).

Definition authorize (session_id : Z) (requested : Capabilities) : Nested Status :=
  with_session session_id (λ s,
    let fp := fingerprint (peer_ s) in
    ceil ← lift (gets (λ w, ceiling (impl w)));
    let allowed := allowed_bits ceil requested in
    when (negb (refused_bits ceil requested =? 0))
      (record fp CapabilityDenied
         ("above ceiling: requested=" +:+ pretty requested +:+
          " ceiling=" +:+ pretty (Z.lor ceil Cap.ViewOnly)));;
    if allowed =? 0 then
      transition session_id Denied;;
      mret (error PermissionDenied "no requested capability is within policy")
    else
      lift (upd (set_sessions (alter (grant (Z.lor allowed Cap.ViewOnly)) session_id)));;
      record fp CapabilityGranted ("granted=" +:+ pretty (Z.lor allowed Cap.ViewOnly));;
      record fp AuthSucceeded "";;
      transition session_id Active;;
      record fp SessionActivated "";;
      mret success).

Definition deny (session_id : Z) (reason : string) : Nested Status :=
  with_session session_id (λ s,
    record (fingerprint (peer_ s)) AuthFailed reason;;
    transition session_id Denied;;
    mret success).

Definition checkPermission (session_id : Z) (needed : Capabilities) : Nested bool :=
  it ← lift (find session_id);
  match it with
  | None => mret false
  | Some s =>
      if isAllowed s needed then mret true
      else
        record (fingerprint (peer_ s)) PermissionCheckDenied
          ("needed=" +:+ pretty needed +:+ " state=" +:+ SessionState_toString (state_ s));;
        mret false
  end.

Definition closeSession (session_id : Z) : Nested Status :=
  with_session session_id (λ s,
    transition session_id Closed;;
    record (fingerprint (peer_ s)) SessionClosed "";;
    mret success).

Definition exec (o : Op) : Nested Reply :=
  match o with
  | OpBegin peer => r ← beginSession peer; mret (RId r)
  | OpHandshakeStarted id => r ← onHandshakeStarted id; mret (RStatus r)
  | OpHandshakeCompleted id fp => r ← onHandshakeCompleted id fp; mret (RStatus r)
  | OpAuthorize id req => r ← authorize id req; mret (RStatus r)
  | OpDeny id reason => r ← deny id reason; mret (RStatus r)
  | OpCheck id needed => r ← checkPermission id needed; mret (RBool r)
  | OpClose id => r ← closeSession id; mret (RStatus r)
  | _ => lift (Session.exec clock o)
  end.

Fixpoint exec_all (os : list Op) : Nested () :=
  match os with
  | [] => mret ()
  | o :: os => exec o;; exec_all os
  end.
End operations.

Context (obs : World → CallbackCall → list Op).

Fixpoint notify (n : nat) (c : CallbackCall) : Nested () := λ w,
  let w := (call c w).2 in
  match n with
  | O => {| result := None; world := w; seen := [w] |}
  | S n =>
      let '{| result := a; world := w'; seen := l |} := exec_all (notify n) (obs w c) w in
      {| result := a; world := w'; seen := w :: l |}
  end.

(** Calls from outside, with callbacks nested at most [n] deep. *)
Definition run (n : nat) (os : list Op) : Nested () := exec_all (notify n) os.
End observed.

(** ** Silent observers *)

(** From [w] the computation returns [a] and leaves [w']. *)
Definition returns {A} (m : Nested A) (w : World) (a : A) (w' : World) : Prop :=
  result (m w) = Some a ∧ world (m w) = w'.

Lemma returns_bind {A B} (m : Nested A) (f : A → Nested B) w a w1 b w2 :
  returns m w a w1 → returns (f a) w1 b w2 → returns (m ≫= f) w b w2.
Proof.
  unfold returns, mbind, nested_bind. destruct (m w) as [a' w' l]. simpl. intros [-> ->].
  by destruct (f a w1).
Qed.

Lemma returns_lift {A} (m : State World A) w : returns (lift m) w (m w).1 (m w).2.
Proof. unfold returns, lift. by destruct (m w). Qed.

(** A computation that behaves as one without nesting. *)
Definition agrees {A} (m : Nested A) (m' : State World A) : Prop :=
  ∀ w, returns m w (m' w).1 (m' w).2.

Lemma agrees_bind {A B} (m : Nested A) m' (f : A → Nested B) f' :
  agrees m m' → (∀ a, agrees (f a) (f' a)) → agrees (m ≫= f) (m' ≫= f').
Proof.
  intros Hm Hf w. rewrite state_bind_run. eapply returns_bind; [apply Hm|].
  destruct (m' w) as [a w']. apply Hf.
Qed.

Lemma agrees_lift {A} (m : State World A) : agrees (lift m) m.
Proof. intros w. apply returns_lift. Qed.

Lemma agrees_ret {A} (a : A) : agrees (mret a) (mret a).
Proof. done. Qed.

Lemma agrees_when b m m' : agrees m m' → agrees (when b m) (Prelude.when b m').
Proof. by destruct b. Qed.

Create HintDb nested.
#[export] Hint Resolve agrees_lift agrees_ret agrees_when : nested.

(** Take a computation apart along its definition. *)
Ltac agree_all :=
  repeat first
    [ progress intros
    | solve [eauto with nested]
    | apply agrees_bind
    | match goal with
      | |- agrees (if ?b then _ else _) _ => destruct b
      | |- agrees (match ?x with _ => _ end) _ => destruct x
      end ].

Section silent.
Context (clock : nat → Z) (ntf : CallbackCall → Nested ()).
Context (Hntf : ∀ c, agrees (ntf c) (call c)).

Lemma agrees_record fp ev det : agrees (record clock ntf fp ev det) (Session.record clock fp ev det).
Proof. unfold record, Session.record. agree_all. Qed.

Lemma agrees_transition id to : agrees (transition ntf id to) (Session.transition id to).
Proof. unfold transition, Session.transition. agree_all. Qed.

Hint Resolve agrees_record agrees_transition : nested.

Lemma agrees_check_pin rid fp :
  agrees (check_pin clock ntf rid fp)
    (pin ← gets (λ w, tofu_pins (impl w) !! rid);
     match pin with
     | Some expected =>
         Prelude.when (bool_decide (expected ≠ fp))
           (Session.record clock fp KeyChangeDetected
              ("id=" +:+ rid +:+ " expected=" +:+ expected))
     | None => upd (set_tofu_pins (<[rid := fp]>))
     end).
Proof.
  intros w. unfold returns, check_pin. rewrite state_bind_run, state_gets_run. cbn [fst snd].
  destruct (tofu_pins (impl w) !! rid); [|done].
  apply agrees_when. by apply agrees_record.
Qed.

Lemma agrees_exec o : agrees (exec clock ntf o) (Session.exec clock o).
Proof.
  destruct o; unfold exec, Session.exec; try apply agrees_lift;
    apply agrees_bind; try (intros; apply agrees_ret);
    unfold beginSession, onHandshakeStarted, onHandshakeCompleted, authorize, deny,
      checkPermission, closeSession, with_session,
      Session.beginSession, Session.onHandshakeStarted, Session.onHandshakeCompleted,
      Session.authorize, Session.deny, Session.checkPermission, Session.closeSession;
    agree_all.
  intros w0. eapply returns_bind; [by apply agrees_check_pin|].
  by rewrite !state_bind_run.
Qed.
End silent.

(** Observers that call nothing change nothing: with them every
    operation returns, and returns and leaves what the operation without nesting
    does; so every property of [Session] holds of it. *)
Theorem observers_silent clock obs n o w :
  (∀ w c, obs w c = []) →
  returns (exec clock (notify clock obs (S n)) o) w
    (Session.exec clock o w).1 (Session.exec clock o w).2.
Proof.
  intros Hobs. apply agrees_exec. intros c w'. unfold returns. simpl. by rewrite Hobs.
Qed.

(** ** Whatever observers do *)

(** From [w] to [w'] no session is lost or changes its peer, no granted bit and no
    pin is taken back or changed, and the audit log grows at the end. *)
Record extends (w w' : World) : Prop := {
  extends_sessions : ∀ id s, sessions (impl w) !! id = Some s →
    ∃ s', sessions (impl w') !! id = Some s' ∧ peer_ s' = peer_ s ∧
      bits_sub (granted_ s) (granted_ s');
  extends_pins : tofu_pins (impl w) ⊆ tofu_pins (impl w');
  extends_audit : audit (impl w) `prefix_of` audit (impl w');
}.

#[export] Instance extends_preorder : PreOrder extends.
Proof.
  split.
  - intros w. split; [|done|done]. intros id s Hs. exists s. auto with redesk.
  - intros w1 w2 w3 [Hs1 Hp1 Ha1] [Hs2 Hp2 Ha2]. split; [|by etrans|by etrans].
    intros id s (s1 & Hi1 & Hpeer1 & Hg1)%Hs1. destruct (Hs2 _ _ Hi1) as (s2 & ? & ? & ?).
    exists s2. split_and!; [done|congruence|by eapply bits_sub_trans].
Qed.

(** A world with the same sessions, pins and log. *)
Lemma extends_same w w' :
  sessions (impl w') = sessions (impl w) → tofu_pins (impl w') = tofu_pins (impl w) →
  audit (impl w') = audit (impl w) → extends w w'.
Proof.
  intros Hs Hp Ha. split; [|by rewrite Hp|by rewrite Ha]. rewrite Hs.
  intros id s Hi. exists s. auto with redesk.
Qed.

Lemma extends_with_sessions w w' f :
  sessions (impl w') = f (sessions (impl w)) → tofu_pins (impl w') = tofu_pins (impl w) →
  audit (impl w') = audit (impl w) →
  (∀ id s, sessions (impl w) !! id = Some s → ∃ s', f (sessions (impl w)) !! id = Some s' ∧
    peer_ s' = peer_ s ∧ bits_sub (granted_ s) (granted_ s')) → extends w w'.
Proof. intros Hs Hp Ha H. split; [by rewrite Hs|by rewrite Hp|by rewrite Ha]. Qed.

(** From [w] over the worlds [l] to [w'], each extends the one before. *)
Fixpoint chain (w : World) (l : list World) (w' : World) : Prop :=
  match l with
  | [] => extends w w'
  | w1 :: l => extends w w1 ∧ chain w1 l w'
  end.

Lemma chain_app w l w1 l' w2 : chain w l w1 → chain w1 l' w2 → chain w (l ++ l') w2.
Proof.
  revert w. induction l as [|w0 l IH]; intros w; simpl.
  - intros He. destruct l' as [|w' l']; simpl; [by etrans|]. intros [? ?]. split; [by etrans|done].
  - intros [? ?] ?. split; [done|by apply IH].
Qed.

(** So each extends all before. *)
Lemma chain_first w l w' w0 : chain w l w' → w0 ∈ l ++ [w'] → extends w w0.
Proof.
  revert w. induction l as [|w1 l IH]; intros w; simpl.
  - by intros He ->%list_elem_of_singleton.
  - intros [H1 Hc] [->|Hin]%elem_of_cons; [done|]. etrans; [done|by apply IH].
Qed.

Lemma chain_ordered w l w' i j wi wj :
  chain w l w' → (i ≤ j)%nat → (w :: l ++ [w']) !! i = Some wi →
  (w :: l ++ [w']) !! j = Some wj → extends wi wj.
Proof.
  revert w i j. induction l as [|w1 l IH]; intros w [|i] [|j] Hc Hij Hi Hj; try lia;
    cbn [lookup list_lookup app] in Hi, Hj; try (injection Hi as <-); try (injection Hj as <-);
    try done.
  - apply (chain_first w [] w'); [done|]. by eapply list_elem_of_lookup_2.
  - destruct i, j; try done; try lia. injection Hi as <-. by injection Hj as <-.
  - eapply chain_first; [exact Hc|]. by eapply list_elem_of_lookup_2.
  - destruct Hc as [_ Hc]. apply (IH w1 i j Hc); [lia|done|done].
Qed.

Definition keeps {A} (m : Nested A) : Prop := ∀ w, chain w (seen (m w)) (world (m w)).

Lemma keeps_bind {A B} (m : Nested A) (f : A → Nested B) :
  keeps m → (∀ a, keeps (f a)) → keeps (m ≫= f).
Proof.
  intros Hm Hf w. unfold mbind, nested_bind. specialize (Hm w).
  destruct (m w) as [[a|] w1 l]; [|done]. specialize (Hf a w1). destruct (f a w1) as [b w2 l'].
  by eapply chain_app.
Qed.

Lemma keeps_ret {A} (a : A) : keeps (mret a).
Proof. intros w. simpl. done. Qed.

Lemma keeps_lift {A} (m : State World A) : (∀ w, extends w (m w).2) → keeps (lift m).
Proof. intros Hm w. specialize (Hm w). unfold lift. by destruct (m w). Qed.

Lemma keeps_gets {A} (f : World → A) : keeps (lift (gets f)).
Proof. by apply keeps_lift. Qed.

Lemma keeps_when b m : keeps m → keeps (when b m).
Proof. destruct b; [done|]. intros _. apply keeps_ret. Qed.

Lemma keeps_alter f id :
  (∀ s, peer_ (f s) = peer_ s ∧ bits_sub (granted_ s) (granted_ (f s))) →
  keeps (lift (upd (set_sessions (alter f id)))).
Proof.
  intros Hf. apply keeps_lift. intros w. eapply extends_with_sessions; [done..|].
  intros i s Hs. destruct (decide (i = id)) as [->|Hne].
  - rewrite lookup_alter_eq, Hs. exists (f s). by destruct (Hf s).
  - rewrite lookup_alter_ne by done. exists s. auto with redesk.
Qed.

Lemma keeps_emplace id s : keeps (lift (upd (set_sessions (emplace id s)))).
Proof.
  apply keeps_lift. intros w. eapply extends_with_sessions; [done..|].
  intros i s' Hs. exists s'. split; [|auto with redesk]. unfold emplace.
  destruct (sessions (impl w) !! id) eqn:E; [done|].
  rewrite lookup_insert_ne; [done|]. congruence.
Qed.

Lemma keeps_state_setState id to : keeps (lift (upd (set_sessions (alter (setState to) id)))).
Proof. apply keeps_alter. intros s. auto with redesk. Qed.

Lemma keeps_state_grant id caps : keeps (lift (upd (set_sessions (alter (grant caps) id)))).
Proof. apply keeps_alter. intros s. simpl. auto with redesk. Qed.

#[export] Hint Resolve keeps_ret keeps_gets keeps_when keeps_emplace keeps_state_setState
  keeps_state_grant : nested.

Ltac keep_all :=
  repeat first
    [ progress intros
    | solve [eauto with nested]
    | apply keeps_bind
    | match goal with
      | |- keeps (if ?b then _ else _) => destruct b
      | |- keeps (match ?x with _ => _ end) => destruct x
      end ].

Section keeps.
Context (clock : nat → Z) (ntf : CallbackCall → Nested ()).
Context (Hntf : ∀ c, keeps (ntf c)).

Lemma keeps_record fp ev det : keeps (record clock ntf fp ev det).
Proof.
  unfold record. keep_all.
  - apply keeps_lift. intros w. by apply extends_same.
  - apply keeps_lift. intros w. split; [|done|].
    + intros id s Hs. exists s. auto with redesk.
    + simpl. by apply prefix_app_r.
Qed.

Lemma keeps_transition id to : keeps (transition ntf id to).
Proof. unfold transition. keep_all. Qed.

Hint Resolve keeps_record keeps_transition : nested.

Lemma keeps_check_pin rid fp : keeps (check_pin clock ntf rid fp).
Proof.
  intros w. unfold check_pin. destruct (tofu_pins (impl w) !! rid) eqn:E.
  - apply keeps_when, keeps_record.
  - simpl. split; [|by apply insert_subseteq|done]. intros id s Hs. exists s. auto with redesk.
Qed.

Hint Resolve keeps_check_pin : nested.

Lemma keeps_exec o : keeps (exec clock ntf o).
Proof.
  destruct o; unfold exec;
    try (apply keeps_lift; intros w; by apply extends_same);
    apply keeps_bind; try (intros; apply keeps_ret);
    unfold beginSession, onHandshakeStarted, onHandshakeCompleted, authorize, deny,
      checkPermission, closeSession, with_session; keep_all.
  apply keeps_lift. intros w. by apply extends_same.
Qed.

Lemma keeps_exec_all os : keeps (exec_all clock ntf os).
Proof.
  induction os as [|o os IH]; simpl; [apply keeps_ret|].
  apply keeps_bind; [apply keeps_exec|done].
Qed.
End keeps.

Lemma keeps_notify clock obs n c : keeps (notify clock obs n c).
Proof.
  revert c. induction n as [|n IH]; intros c w; cbn [notify]; set (w1 := (call c w).2).
  { split; [by apply extends_same|by simpl]. }
  pose proof (keeps_exec_all clock _ IH (obs w1 c) w1) as H.
  destruct (exec_all clock (notify clock obs n) (obs w1 c) w1) as [r w2 l].
  split; [by apply extends_same|exact H].
Qed.

(** C15. Whatever the observers do about the callbacks (short of
    replacing one that is running), in any nesting and whether or not the calls
    return: from the start of a sequence of calls to every moment at which an
    observer is called, from each of these to the next, and to the world at the
    end (or in which a callback is entered that is nested deeper than [n], for any
    [n]), no session is lost or changes its peer, no granted bit is taken back,
    every pin stays as it is, and the audit log only grows at its end. *)
Theorem observers_keep clock obs n os w :
  let r := run clock obs n os w in
  let moments := w :: seen r ++ [world r] in
  ∀ i j wi wj, (i ≤ j)%nat → moments !! i = Some wi → moments !! j = Some wj →
    (∀ id s, sessions (impl wi) !! id = Some s →
       ∃ s', sessions (impl wj) !! id = Some s' ∧ peer_ s' = peer_ s ∧
         bits_sub (granted_ s) (granted_ s')) ∧
    (∀ rid fp, tofu_pins (impl wi) !! rid = Some fp → tofu_pins (impl wj) !! rid = Some fp) ∧
    ∃ new, audit (impl wj) = audit (impl wi) ++ new.
Proof.
  intros r moments i j wi wj Hij Hi Hj.
  assert (extends wi wj) as [Hs Hp Ha].
  { eapply chain_ordered; [|exact Hij|exact Hi|exact Hj].
    apply (keeps_exec_all clock _ (keeps_notify clock obs n)). }
  split_and!; [done| |done]. intros rid fp Hpin. by eapply lookup_weaken.
Qed.

(** ** When they return *)

(** The callbacks an operation can lead to, by what they report. *)
Inductive Kind := KState (to : SessionState) | KAudit (ev : AuditEvent).

Definition kind_of (c : CallbackCall) : Kind :=
  match c with StateCall _ to => KState to | AuditCall r => KAudit (event r) end.

Definition causes (o : Op) : list Kind :=
  match o with
  | OpBegin _ => [KAudit CapabilityDenied; KAudit SessionRequested]
  | OpHandshakeStarted _ => [KState Authenticating; KAudit HandshakeStarted]
  | OpHandshakeCompleted _ _ =>
      [KAudit HandshakeCompleted; KAudit AuthFailed; KState Denied; KAudit KeyChangeDetected]
  | OpAuthorize _ _ =>
      [KAudit CapabilityDenied; KState Denied; KAudit CapabilityGranted; KAudit AuthSucceeded;
       KState Active; KAudit SessionActivated]
  | OpDeny _ _ => [KAudit AuthFailed; KState Denied]
  | OpCheck _ _ => [KAudit PermissionCheckDenied]
  | OpClose _ => [KState Closed; KAudit SessionClosed]
  | _ => []
  end.

Definition total {A} (m : Nested A) : Prop := ∀ w, is_Some (result (m w)).

Lemma total_bind {A B} (m : Nested A) (f : A → Nested B) :
  total m → (∀ a, total (f a)) → total (m ≫= f).
Proof.
  intros Hm Hf w. unfold mbind, nested_bind. specialize (Hm w).
  destruct (m w) as [[a|] w1 l]; simpl in Hm; [|by destruct Hm]. specialize (Hf a w1).
  by destruct (f a w1).
Qed.

Lemma total_lift {A} (m : State World A) : total (lift m).
Proof. intros w. unfold lift. by destruct (m w). Qed.

Lemma total_ret {A} (a : A) : total (mret a).
Proof. intros w. by eexists. Qed.

Lemma total_when b m : total m → total (when b m).
Proof. destruct b; [done|]. intros _. apply total_ret. Qed.

#[export] Hint Resolve total_lift total_ret total_when : nested.

Ltac total_all :=
  repeat first
    [ progress intros
    | solve [eauto with nested]
    | match goal with
      | H : ∀ fp ev det, _ → total _ |- _ => apply H; simpl; set_solver
      | H : ∀ id to, _ → total _ |- _ => apply H; simpl; set_solver
      end
    | apply total_bind
    | match goal with
      | |- total (if ?b then _ else _) => destruct b
      | |- total (match ?x with _ => _ end) => destruct x
      end ].

Section total.
Context (clock : nat → Z) (ntf : CallbackCall → Nested ()).

Lemma total_record fp ev det :
  (∀ c, kind_of c = KAudit ev → total (ntf c)) → total (record clock ntf fp ev det).
Proof. intros H. unfold record. total_all. Qed.

Lemma total_transition id to :
  (∀ c, kind_of c = KState to → total (ntf c)) → total (transition ntf id to).
Proof. intros H. unfold transition. total_all. Qed.

Lemma total_exec o :
  (∀ c, kind_of c ∈ causes o → total (ntf c)) → total (exec clock ntf o).
Proof.
  intros H.
  assert (∀ fp ev det, KAudit ev ∈ causes o → total (record clock ntf fp ev det)) as Hr
    by (intros fp ev det He; apply total_record; intros c Hc; apply H; by rewrite Hc).
  assert (∀ id to, KState to ∈ causes o → total (transition ntf id to)) as Ht
    by (intros id to He; apply total_transition; intros c Hc; apply H; by rewrite Hc).
  destruct o; unfold exec; try apply total_lift; apply total_bind; try (intros; apply total_ret);
    unfold beginSession, onHandshakeStarted, onHandshakeCompleted, authorize, deny,
      checkPermission, closeSession, with_session; total_all;
    try (apply Hr || apply Ht || apply total_when, Hr); try (simpl; set_solver).
  intros w. unfold check_pin. destruct (_ !! _); [|by eexists].
  apply total_when, Hr. simpl. set_solver.
Qed.

Lemma total_exec_all os :
  (∀ o c, o ∈ os → kind_of c ∈ causes o → total (ntf c)) → total (exec_all clock ntf os).
Proof.
  induction os as [|o os IH]; intros H; simpl; [apply total_ret|].
  apply total_bind; [apply total_exec; intros c; apply H; set_solver|].
  intros _. apply IH. intros o' c Ho. apply H. set_solver.
Qed.
End total.

Lemma total_notify clock obs rank n c :
  (∀ w c' o k, o ∈ obs w c' → k ∈ causes o → (rank k < rank (kind_of c'))%nat) →
  (rank (kind_of c) < n)%nat → total (notify clock obs n c).
Proof.
  intros Hrank. revert c. induction n as [|n IH]; intros c Hn w; [lia|]. cbn [notify].
  set (w1 := (call c w).2).
  destruct (total_exec_all clock (notify clock obs n) (obs w1 c)) with w1 as [[] Ha].
  { intros o c' Ho Hc. apply IH. specialize (Hrank _ _ _ _ Ho Hc). lia. }
  destruct (exec_all clock (notify clock obs n) (obs w1 c) w1). simpl in *. by rewrite Ha.
Qed.

(** C16. Observers that answer a callback only with calls whose own
    callbacks are of lower rank never nest deeper than the highest rank plus one:
    every sequence of calls returns. *)
Theorem observers_return clock obs rank n os w :
  (∀ w c o k, o ∈ obs w c → k ∈ causes o → (rank k < rank (kind_of c))%nat) →
  (∀ o k, o ∈ os → k ∈ causes o → (rank k < n)%nat) →
  is_Some (result (run clock obs n os w)).
Proof.
  intros Hrank Hos. apply total_exec_all. intros o c Ho Hc.
  apply (total_notify _ _ rank); [done|]. by eapply Hos.
Qed.

(** ** What an observer cannot do *)

(** Asks again for what was just refused. *)
Definition retry (id : Z) (needed : Capabilities) (w : World) (c : CallbackCall) : list Op :=
  match c with
  | AuditCall r => if decide (event r = PermissionCheckDenied) then [OpCheck id needed] else []
  | StateCall _ _ => []
  end.

(** A computation that does not return keeps what it is part of from returning. *)
Lemma nested_stuck {A B} (m : Nested A) (f : A → Nested B) w :
  result (m w) = None → result ((m ≫= f) w) = None.
Proof. unfold mbind, nested_bind. by destruct (m w) as [[]]. Qed.

Lemma returns_stuck {A B} (m : Nested A) (f : A → Nested B) w a w1 :
  returns m w a w1 → result (f a w1) = None → result ((m ≫= f) w) = None.
Proof.
  unfold returns, mbind, nested_bind. destruct (m w). simpl. intros [-> ->]. by destruct (f a w1).
Qed.

Lemma returns_find id w : returns (lift (find id)) w (sessions (impl w) !! id) w.
Proof. done. Qed.

Lemma notify_returns clock obs n c w w' :
  returns (exec_all clock (notify clock obs n) (obs (call c w).2 c)) (call c w).2 () w' →
  returns (notify clock obs (S n) c) w () w'.
Proof. unfold returns. cbn [notify]. by destruct (exec_all _ _ _ _). Qed.

Lemma notify_stuck clock obs n c w :
  result (exec_all clock (notify clock obs n) (obs (call c w).2 c) (call c w).2) = None →
  result (notify clock obs (S n) c w) = None.
Proof. cbn [notify]. by destruct (exec_all _ _ _ _). Qed.

(** An audit observer that answers a refused permission check by asking again never
    returns: no depth of nesting is enough. *)
Theorem observer_retry_diverges clock id needed s w n :
  sessions (impl w) !! id = Some s → isAllowed s needed = false → audit_cb (impl w) = true →
  result (run clock (retry id needed) n [OpCheck id needed] w) = None.
Proof.
  intros Hs Ha Hcb. unfold run. revert w Hs Hcb.
  induction n as [|n IH]; intros w Hs Hcb; apply nested_stuck, nested_stuck;
    (eapply returns_stuck; [apply returns_find|]); rewrite Hs, Ha; apply nested_stuck;
    (eapply returns_stuck; [apply returns_lift|]); (eapply returns_stuck; [apply returns_lift|]);
    (eapply returns_stuck; [apply returns_lift|]);
    match goal with |- context [when ?b] => replace b with true by (symmetry; exact Hcb) end;
    [done|].
  apply notify_stuck. cbn -[exec_all notify]. rewrite decide_True by done. by apply IH.
Qed.

(** Callbacks of a kind the observers do nothing about. *)
Lemma record_quiet clock obs n fp ev det w :
  (∀ w c, kind_of c = KAudit ev → obs w c = []) →
  ∃ w1, returns (record clock (notify clock obs (S n)) fp ev det) w () w1 ∧
    ∃ r, entry_of r = (fp, ev, det) ∧ impl w1 = push_audit r (impl w).
Proof.
  intros Hq. unfold returns, record, lift, upd, gets, modify, nowMicros, mbind, nested_bind.
  cbn -[notify]. destruct (audit_cb (impl w)); unfold when; cbn; [rewrite Hq by done|];
    eexists; (split; [by split|]); exists_refl.
Qed.

Lemma transition_quiet clock obs n id to w :
  (∀ w c, kind_of c = KState to → obs w c = []) →
  ∃ w1, returns (transition (notify clock obs (S n)) id to) w () w1 ∧
    impl w1 = set_sessions (alter (setState to) id) (impl w).
Proof.
  intros Hq. unfold returns, transition, lift, upd, gets, modify, mbind, nested_bind.
  cbn -[notify]. destruct (state_cb (impl w)); unfold when; cbn; [rewrite Hq by done|];
    eexists; (split; [by split|]); done.
Qed.

(** Closing a session, when the observers do nothing about that. *)
Lemma close_quiet clock obs n id s w :
  (∀ w c, kind_of c = KState Closed ∨ kind_of c = KAudit SessionClosed → obs w c = []) →
  sessions (impl w) !! id = Some s →
  ∃ w1 r, returns (exec clock (notify clock obs (S n)) (OpClose id)) w (RStatus success) w1 ∧
    entry_of r = (fingerprint (peer_ s), SessionClosed, EmptyString) ∧
    impl w1 = push_audit r (set_sessions (alter (setState Closed) id) (impl w)).
Proof.
  intros Hq Hs.
  destruct (transition_quiet clock obs n id Closed w) as (w1 & Ht & Hi1); [eauto|].
  destruct (record_quiet clock obs n (fingerprint (peer_ s)) SessionClosed "" w1)
    as (w2 & Hr & r & Her & Hi2); [eauto|].
  exists w2, r. split; [|split; [done|by rewrite Hi2, Hi1]].
  unfold exec, closeSession, with_session. eapply returns_bind; [|done].
  eapply returns_bind; [apply returns_find|]. rewrite Hs.
  eapply returns_bind; [exact Ht|]. by eapply returns_bind; [exact Hr|].
Qed.

(** Closes a session as soon as capabilities are granted to it. *)
Definition close_on_grant (id : Z) (w : World) (c : CallbackCall) : list Op :=
  match c with
  | AuditCall r => if decide (event r = CapabilityGranted) then [OpClose id] else []
  | StateCall _ _ => []
  end.

(** A record the observers answer by closing a session. *)
Lemma record_closing clock id s fp det w :
  sessions (impl w) !! id = Some s → audit_cb (impl w) = true →
  ∃ w1 r r', returns (record clock (notify clock (close_on_grant id) 2) fp CapabilityGranted det)
      w () w1 ∧
    entry_of r = (fp, CapabilityGranted, det) ∧
    entry_of r' = (fingerprint (peer_ s), SessionClosed, EmptyString) ∧
    impl w1 = push_audit r' (set_sessions (alter (setState Closed) id) (push_audit r (impl w))).
Proof.
  intros Hs Hcb.
  pose (r := {| rec_timestamp_us := to_u64 (clock (clock_reads w)); peer_fingerprint := fp;
                event := CapabilityGranted; detail := det |}).
  pose (w0 := (call (AuditCall r) (upd (push_audit r) (nowMicros clock w).2).2).2).
  destruct (close_quiet clock (close_on_grant id) 0 id s w0) as (w1 & r' & Hc & Her & Hi); [|done|].
  { intros w1 [|r0]; [done|]. simpl. intros [|[= He]]; [done|]. by rewrite decide_False by congruence. }
  exists w1, r, r'. split_and!; [|done|done|done].
  unfold record. eapply returns_bind; [apply returns_lift|]. cbv zeta.
  eapply returns_bind; [apply returns_lift|]. eapply returns_bind; [apply returns_lift|].
  match goal with |- context [when ?b] => replace b with true by (symmetry; exact Hcb) end.
  apply notify_returns. cbn -[exec_all notify]. rewrite decide_True by done.
  cbn [exec_all]. by eapply returns_bind; [exact Hc|].
Qed.

(** A session closed from within [authorize] is
    open again when it returns: an audit observer that answers the grant by closing
    the session gets it closed, recorded as closed, and then activated all the same,
    with success returned and every granted capability usable. *)
Theorem observer_cannot_stop_authorize clock id s req w :
  sessions (impl w) !! id = Some s → audit_cb (impl w) = true →
  allowed_bits (ceiling (impl w)) req ≠ 0 → refused_bits (ceiling (impl w)) req = 0 →
  ∃ w', returns (exec clock (notify clock (close_on_grant id) 2) (OpAuthorize id req)) w
      (RStatus success) w' ∧
    (∃ s', sessions (impl w') !! id = Some s' ∧ state_ s' = Active ∧
       isAllowed s' (allowed_bits (ceiling (impl w)) req) = true) ∧
    entries w' = entries w ++
      [(fingerprint (peer_ s), CapabilityGranted,
        "granted=" +:+ pretty (Z.lor (allowed_bits (ceiling (impl w)) req) Cap.ViewOnly));
       (fingerprint (peer_ s), SessionClosed, EmptyString);
       (fingerprint (peer_ s), AuthSucceeded, EmptyString);
       (fingerprint (peer_ s), SessionActivated, EmptyString)].
Proof.
  intros Hs Hcb Hal Href. set (al := allowed_bits (ceiling (impl w)) req) in *.
  set (obs := close_on_grant id). set (ntf := notify clock obs 2).
  assert (∀ n fp ev det w0, ev ≠ CapabilityGranted → ∃ w1,
    returns (record clock (notify clock obs (S n)) fp ev det) w0 () w1 ∧
    ∃ r, entry_of r = (fp, ev, det) ∧ impl w1 = push_audit r (impl w0)) as Hrec.
  { intros n fp ev det w0 Hev. apply record_quiet. intros w1 [|r]; [done|]. simpl. intros [= He].
    by rewrite decide_False by congruence. }
  assert (∀ n to w0, ∃ w1, returns (transition (notify clock obs (S n)) id to) w0 () w1 ∧
    impl w1 = set_sessions (alter (setState to) id) (impl w0)) as Htr
    by (intros; apply transition_quiet; by intros ? []).
  set (g := Z.lor al Cap.ViewOnly).
  pose (w0 := {| impl := set_sessions (alter (grant g) id) (impl w);
                 clock_reads := clock_reads w; calls := calls w |}).
  assert (sessions (impl w0) !! id = Some (grant g s)) as Hs0
    by (simpl; by rewrite lookup_alter_eq, Hs).
  destruct (record_closing clock id (grant g s) (fingerprint (peer_ s))
    ("granted=" +:+ pretty g) w0 Hs0 Hcb) as (w1 & r1 & r2 & Hr1 & He1 & He2 & Hi1).
  destruct (Hrec 1%nat (fingerprint (peer_ s)) AuthSucceeded "" w1) as (w2 & Hr2 & r3 & He3 & Hi2);
    [done|].
  destruct (Htr 1%nat Active w2) as (w3 & Ht & Hi3).
  destruct (Hrec 1%nat (fingerprint (peer_ s)) SessionActivated "" w3)
    as (w4 & Hr4 & r4 & He4 & Hi4); [done|].
  exists w4. split; [|split].
  - unfold exec, authorize, with_session. eapply returns_bind; [|done].
    eapply returns_bind; [apply returns_find|]. rewrite Hs.
    eapply returns_bind; [apply returns_lift|]. cbv zeta. cbn [fst snd gets]. fold al. rewrite Href.
    eapply returns_bind; [done|]. rewrite (proj2 (Z.eqb_neq _ _) Hal). fold g.
    eapply returns_bind; [apply returns_lift|]. eapply returns_bind; [exact Hr1|].
    eapply returns_bind; [exact Hr2|]. eapply returns_bind; [exact Ht|].
    by eapply returns_bind; [exact Hr4|].
  - exists (setState Active (setState Closed (grant g s))).
    rewrite Hi4. simpl. rewrite Hi3. simpl. rewrite lookup_alter_eq, Hi2. simpl. rewrite Hi1. simpl.
    rewrite lookup_alter_eq, lookup_alter_eq, Hs. split; [done|]. split; [done|].
    unfold isAllowed, hasCapability. simpl.
    apply Z.eqb_eq. rewrite Z.land_comm. change (bits_sub al (Z.lor (granted_ s) g)).
    unfold g. auto with redesk.
  - unfold entries. rewrite Hi4. simpl. rewrite Hi3. simpl. rewrite Hi2. simpl. rewrite Hi1. simpl.
    rewrite !fmap_app. simpl. rewrite He1, He2, He3, He4. simpl. by rewrite <-!app_assoc.
Qed.

(** ** Witnesses *)

Definition tick (n : nat) : Z := 1000 + Z.of_nat n.
Definition guest : PeerInfo :=
  {| redesk_id := "729 481 305"; fingerprint := "11111 22222"; static_key := [] |}.
Definition guest_world : World :=
  Session.run tick [OpSetAuditCallback true; OpSetStateCallback true; OpBegin guest] World_init.
Definition guest_session : Session := Session_new 1 guest.

Lemma observers_silent_witness :
  returns (exec tick (notify tick (λ _ _, []) 1) (OpAuthorize 1 Cap.ViewOnly)) guest_world
    (Session.exec tick (OpAuthorize 1 Cap.ViewOnly) guest_world).1
    (Session.exec tick (OpAuthorize 1 Cap.ViewOnly) guest_world).2.
Proof. by apply observers_silent. Defined.

(** Denies what is not yet authorized, closes what is denied. *)
Definition strict (id : Z) (w : World) (c : CallbackCall) : list Op :=
  match c with
  | StateCall _ Authenticating => [OpDeny id "not now"]
  | StateCall _ Denied => [OpClose id]
  | _ => []
  end.

Definition strict_rank (k : Kind) : nat :=
  match k with
  | KState Authenticating => 2
  | KState Denied => 1
  | _ => 0
  end.

Lemma observers_return_witness :
  is_Some (result (run tick (strict 1) 3 [OpHandshakeStarted 1] guest_world)).
Proof.
  apply (observers_return tick (strict 1) strict_rank).
  - intros w [i []|r] o k; simpl; rewrite ?list_elem_of_singleton, ?elem_of_nil; try done;
      intros -> Hk; simpl in Hk; rewrite !elem_of_cons in Hk;
      destruct_or! Hk; try (by apply elem_of_nil in Hk); subst k; simpl; lia.
  - intros o k ->%list_elem_of_singleton Hk. simpl in Hk. rewrite !elem_of_cons in Hk.
    destruct_or! Hk; try (by apply elem_of_nil in Hk); subst k; simpl; lia.
Defined.

(** The retrying observer never returns; the log it makes grows with the depth. *)
Lemma observers_keep_witness :
  let r := run tick (retry 1 Cap.ViewOnly) 5 [OpCheck 1 Cap.ViewOnly] guest_world in
  result r = None ∧ length (seen r) = 6%nat ∧
  length (audit (impl (world r))) = (length (audit (impl guest_world)) + 6)%nat ∧
  ∃ new, audit (impl (world r)) = audit (impl guest_world) ++ new.
Proof.
  intros r. split; [by vm_compute|]. split; [by vm_compute|]. split; [by vm_compute|].
  eapply (observers_keep tick (retry 1 Cap.ViewOnly) 5 [OpCheck 1 Cap.ViewOnly] guest_world
    0 7 guest_world (world r)); [lia|done|by vm_compute].
Defined.

Lemma observer_cannot_stop_authorize_witness :
  ∃ w', returns (exec tick (notify tick (close_on_grant 1) 2) (OpAuthorize 1 Cap.ViewOnly))
      guest_world (RStatus success) w'.
Proof.
  destruct (observer_cannot_stop_authorize tick 1 guest_session Cap.ViewOnly guest_world)
    as (w' & H & _); [by vm_compute|by vm_compute|by vm_compute|by vm_compute|].
  exists w'. exact H.
Defined.

Lemma observer_retry_diverges_witness :
  result (run tick (retry 1 Cap.ViewOnly) 100 [OpCheck 1 Cap.ViewOnly] guest_world) = None.
Proof.
  by apply (observer_retry_diverges tick 1 Cap.ViewOnly guest_session guest_world 100); vm_compute.
Defined.
