(* ===== verification/Crypto.v ===== *)
(** * The stub crypto backend ([core/crypto/crypto.h], [core/crypto/crypto_stub.cpp])

    Device identities and their safety numbers, the stub Noise session
    (handshake state machine, XOR transport cipher with replay rejection) and the
    in-memory key store.  Output parameters are returned beside the [Status];
    the caller's previous value is passed in, since an error path leaves it
    alone.  A vector passed both as input and output is outside the model.  The
    handshake counters are C++ [int]s that only grow before the handshake is
    done; they are kept unbounded. *)

From S2P Require Import Prelude Types.

(** ** Hash and safety number *)

Definition fnv1a (data : list Z) : Z :=
  fold_left (λ h b, to_u64 (Z.lxor h b * 1099511628211)) data 1469598103934665603.

Abbreviation PublicKey := (list Z) (only parsing).
Abbreviation SecretKey := (list Z) (only parsing).
Definition kX25519PublicKeyLen : nat := 32.

(** [std::array<uint8_t, 32>]. *)
Definition key_ok (k : list Z) : Prop := length k = kX25519PublicKeyLen ∧ bytes_ok k.

Record Identity := {
  public_key : PublicKey;
  secret_key : SecretKey;
  has_secret : bool;
}.

Definition Identity_init : Identity := {|
  public_key := replicate 32 0; secret_key := replicate 32 0; has_secret := false |}.
#[export] Instance value_init_Identity : ValueInit Identity := Identity_init.

(** The decimal digit of [n] of weight [10^k], as a character. *)
Definition digit (n k : Z) : Ascii.ascii :=
  Ascii.ascii_of_N (Z.to_N (48 + (n / 10 ^ k) `mod` 10)).

(** [%05u] on an argument below 100000. *)
Definition fmt_05u (n : Z) : string :=
  String (digit n 4) (String (digit n 3) (String (digit n 2)
    (String (digit n 1) (String (digit n 0) EmptyString)))).

(** The five groups [Identity::fingerprint] prints. *)
Definition fingerprint_groups (h : Z) : list Z :=
  [h `mod` 100000; (h / 100000) `mod` 100000; (h / 10000000000) `mod` 100000;
   (h / 1000000000000000) `mod` 100000; (Z.shiftr h 1) `mod` 100000].

Definition fingerprint (i : Identity) : string :=
  String.concat " " (fmt_05u <$> fingerprint_groups (fnv1a (public_key i))).

(** ** Stub identities *)

Definition derivePublic (sk : SecretKey) : PublicKey :=
  (λ i, to_u8 (Z.lxor (sk !!! (31 - i)%nat) 90)) <$> seq 0 32.

Definition makeStubIdentity (seed : Z) : Identity :=
  let sk := (λ i, to_u8 (seed + Z.of_nat i * 7 + 1)) <$> seq 0 32 in
  {| public_key := derivePublic sk; secret_key := sk; has_secret := true |}.

(** ** The stub Noise session *)

Inductive NoisePattern := XK | KK.
Inductive HandshakeRole := Initiator | Responder.

#[export] Instance NoisePattern_eq_dec : EqDecision NoisePattern.
Proof. solve_decision. Defined.

Module Noise.

Record StubNoiseSession := {
  pattern_ : NoisePattern;
  role_ : HandshakeRole;
  local_ : Identity;
  remote_static_ : PublicKey;
  remote_known_ : bool;
  handshake_done_ : bool;
  messages_written_ : Z;
  messages_read_ : Z;
  send_nonce_ : Z;
  recv_nonce_ : Z;
}.

(** The constructor, behind [createNoiseSession] in the default build. *)
Definition createNoiseSession (pattern : NoisePattern) (role : HandshakeRole)
    (local_static : Identity) (remote_static : PublicKey) : StubNoiseSession := {|
  pattern_ := pattern;
  role_ := role;
  local_ := local_static;
  remote_static_ := remote_static;
  remote_known_ := bool_decide (pattern = KK);
  handshake_done_ := false;
  messages_written_ := 0;
  messages_read_ := 0;
  send_nonce_ := 0;
  recv_nonce_ := 0;
|}.

(** The handshake fields after a message; the rest of the object is kept. *)
Definition set_handshake (remote : PublicKey) (known done : bool) (wr rd : Z)
    (s : StubNoiseSession) : StubNoiseSession := {|
  pattern_ := pattern_ s; role_ := role_ s; local_ := local_ s;
  remote_static_ := remote; remote_known_ := known; handshake_done_ := done;
  messages_written_ := wr; messages_read_ := rd;
  send_nonce_ := send_nonce_ s; recv_nonce_ := recv_nonce_ s;
|}.

Definition set_nonces (snd rcv : Z) (s : StubNoiseSession) : StubNoiseSession := {|
  pattern_ := pattern_ s; role_ := role_ s; local_ := local_ s;
  remote_static_ := remote_static_ s; remote_known_ := remote_known_ s;
  handshake_done_ := handshake_done_ s;
  messages_written_ := messages_written_ s; messages_read_ := messages_read_ s;
  send_nonce_ := snd; recv_nonce_ := rcv;
|}.

Definition maybeComplete (s : StubNoiseSession) : StubNoiseSession :=
  if remote_known_ s && (1 <=? messages_written_ s) && (1 <=? messages_read_ s)
  then set_handshake (remote_static_ s) (remote_known_ s) true
         (messages_written_ s) (messages_read_ s) s
  else s.

Definition writeMessage (payload out : list Z) (s : StubNoiseSession)
    : Status * list Z * StubNoiseSession :=
  if handshake_done_ s then
    (error InvalidArgument "handshake already complete", out, s)
  else
    (success, public_key (local_ s) ++ payload,
     maybeComplete (set_handshake (remote_static_ s) (remote_known_ s)
       (handshake_done_ s) (messages_written_ s + 1) (messages_read_ s) s)).

Definition readMessage (message out : list Z) (s : StubNoiseSession)
    : Status * list Z * StubNoiseSession :=
  if handshake_done_ s then
    (error InvalidArgument "handshake already complete", out, s)
  else if (length message <? kX25519PublicKeyLen)%nat then
    (error InvalidArgument "short handshake message", out, s)
  else
    (success, drop kX25519PublicKeyLen message,
     maybeComplete (set_handshake (take kX25519PublicKeyLen message) true
       (handshake_done_ s) (messages_written_ s) (messages_read_ s + 1) s)).

Definition isHandshakeComplete (s : StubNoiseSession) : bool := handshake_done_ s.

Definition handshakeHash (s : StubNoiseSession) : list Z :=
  le_bytes 8 (fnv1a (public_key (local_ s) ++ remote_static_ s)).

Definition remoteStaticKey (s : StubNoiseSession) : PublicKey := remote_static_ s.

(** The key of the XOR stream: local static key first. *)
Definition stream_key (s : StubNoiseSession) : list Z :=
  public_key (local_ s) ++ remote_static_ s.

Definition keystream (key : list Z) (nonce : Z) (i : nat) : Z :=
  to_u8 (Z.lxor (key !!! (i `mod` length key)%nat)
                (to_u8 (Z.land (to_u64 (nonce + Z.of_nat i)) 255))).

(** [xorStream]: what the loop appends to [out]. *)
Definition xorStream (s : StubNoiseSession) (input : list Z) (nonce : Z) : list Z :=
  imap (λ i b, to_u8 (Z.lxor b (keystream (stream_key s) nonce i))) input.

Definition kMaxMessage : Z := 65535.

Definition encrypt (plaintext ad ciphertext : list Z) (s : StubNoiseSession)
    : Status * list Z * StubNoiseSession :=
  if negb (handshake_done_ s) then
    (error InvalidArgument "handshake not complete", ciphertext, s)
  else if kMaxMessage <? Z.of_nat (length plaintext) then
    (error InvalidArgument "plaintext exceeds 65535-byte Noise cap", ciphertext, s)
  else
    let nonce := send_nonce_ s in
    (success, le_bytes 8 nonce ++ xorStream s plaintext nonce,
     set_nonces (to_u64 (nonce + 1)) (recv_nonce_ s) s).

Definition decrypt (ciphertext ad plaintext : list Z) (s : StubNoiseSession)
    : Status * list Z * StubNoiseSession :=
  if negb (handshake_done_ s) then
    (error InvalidArgument "handshake not complete", plaintext, s)
  else if (length ciphertext <? 8)%nat then
    (error InvalidArgument "short ciphertext", plaintext, s)
  else
    let nonce := le_value (take 8 ciphertext) in
    if nonce <? recv_nonce_ s then
      (error PermissionDenied "replayed/old nonce", plaintext, s)
    else
      let s' := set_nonces (send_nonce_ s) (to_u64 (nonce + 1)) s in
      (success, xorStream s' (drop 8 ciphertext) nonce, s').

Definition rekey (s : StubNoiseSession) : StubNoiseSession := s.

End Noise.

(** ** The in-memory key store *)

Module KeyStore.

Record StubKeyStore := { identity_ : Identity; have_ : bool; seed_ : Z }.

Definition createKeyStore : StubKeyStore :=
  {| identity_ := Identity_init; have_ := false; seed_ := 1 |}.

Definition load : State StubKeyStore (Result Identity) :=
  gets (λ s, if negb (have_ s) then fail NotFound "no stored identity"
             else good (identity_ s)).

Definition generate : State StubKeyStore (Result Identity) := λ s,
  let id := makeStubIdentity (seed_ s) in
  (good id, {| identity_ := id; have_ := true; seed_ := to_u8 (seed_ s + 1) |}).

Definition store (identity : Identity) : State StubKeyStore Status := λ s,
  (success, {| identity_ := identity; have_ := true; seed_ := seed_ s |}).

Definition loadOrGenerate : State StubKeyStore (Result Identity) :=
  s ← get;
  if have_ s then mret (good (identity_ s)) else generate.

End KeyStore.

(** ** Safety numbers *)

Lemma digit_inj n m k : digit n k = digit m k → (n / 10 ^ k) `mod` 10 = (m / 10 ^ k) `mod` 10.
Proof.
  unfold digit. intros H. apply (f_equal Ascii.N_of_ascii) in H.
  pose proof (Z.mod_pos_bound (n / 10 ^ k) 10). pose proof (Z.mod_pos_bound (m / 10 ^ k) 10).
  rewrite !Ascii.N_ascii_embedding in H by lia. lia.
Qed.

Lemma fmt_05u_inj n m :
  0 ≤ n < 100000 → 0 ≤ m < 100000 → fmt_05u n = fmt_05u m → n = m.
Proof.
  intros Hn Hm H. unfold fmt_05u in H. injection H as H4 H3 H2 H1 H0.
  apply digit_inj in H4, H3, H2, H1, H0. simpl in *.
  change (10 ^ 4) with 10000 in *. change (10 ^ 3) with 1000 in *.
  change (10 ^ 2) with 100 in *. change (10 ^ 1) with 10 in *. change (10 ^ 0) with 1 in *.
  Z.to_euclidean_division_equations. lia.
Qed.

Lemma fingerprint_groups_range h : Forall (λ g, 0 ≤ g < 100000) (fingerprint_groups h).
Proof. repeat constructor; apply Z.mod_pos_bound; lia. Qed.

Lemma fingerprint_groups_inj h h' :
  fits 64 h → fits 64 h' → fingerprint_groups h = fingerprint_groups h' → h = h'.
Proof.
  unfold fits. intros Hh Hh' H. injection H as H0 H1 H2 H3 _.
  Z.to_euclidean_division_equations. lia.
Qed.

Lemma concat_groups_inj gs gs' :
  length gs = length gs' →
  Forall (λ g, 0 ≤ g < 100000) gs → Forall (λ g, 0 ≤ g < 100000) gs' →
  String.concat " " (fmt_05u <$> gs) = String.concat " " (fmt_05u <$> gs') → gs = gs'.
Proof.
  intros Hl H. revert gs' Hl. induction H as [|g gs Hg _ IH]; intros [|g' gs'] Hl H' Heq;
    try done.
  apply Forall_cons in H' as [Hg' H'].
  destruct gs as [|a gs], gs' as [|a' gs']; try done.
  - f_equal. by apply fmt_05u_inj.
  - cbn [String.concat fmap list_fmap] in Heq.
    assert (fmt_05u g = fmt_05u g' ∧
      String.concat " " (fmt_05u <$> a :: gs) = String.concat " " (fmt_05u <$> a' :: gs'))
      as [Hd Ht].
    { unfold fmt_05u at 1 3 in Heq. simpl in Heq. injection Heq as ?????.
      split; [unfold fmt_05u; congruence|done]. }
    f_equal; [by apply fmt_05u_inj|]. apply IH; [simpl in *; congruence|done|done].
Qed.

Lemma fnv1a_fits data : fits 64 (fnv1a data).
Proof.
  unfold fnv1a. destruct data as [|b data] using rev_ind; [done|].
  rewrite fold_left_app. by apply wrap_fits.
Qed.

(** Safety numbers lose nothing of the hash: two
    identities print the same fingerprint exactly when the 64-bit hashes of
    their public keys are equal (the five groups hold all its decimal digits). *)
Theorem fingerprint_faithful i j :
  fingerprint i = fingerprint j ↔ fnv1a (public_key i) = fnv1a (public_key j).
Proof.
  unfold fingerprint. split; [|by intros ->]. intros H.
  apply fingerprint_groups_inj; [apply fnv1a_fits..|].
  apply concat_groups_inj; [done|apply fingerprint_groups_range..|done].
Qed.

(** ** Stub identities *)

Lemma derivePublic_lookup sk i :
  (i < 32)%nat → derivePublic sk !! i = Some (to_u8 (Z.lxor (sk !!! (31 - i)%nat) 90)).
Proof. intros H. unfold derivePublic. rewrite list_lookup_fmap, lookup_seq_lt by lia. done. Qed.

Lemma lxor_byte a b : byte_ok a → byte_ok b → to_u8 (Z.lxor a b) = Z.lxor a b.
Proof. intros. apply wrap_id. by apply fits_lxor. Qed.

Lemma byte_ok_lookup_total l i : bytes_ok l → (i < length l)%nat → byte_ok (l !!! i).
Proof.
  intros Hl Hi. destruct (lookup_lt_is_Some_2 l i Hi) as [x Hx].
  rewrite (list_lookup_total_correct _ _ _ Hx). by apply (Forall_lookup_1 _ _ _ _ Hl Hx).
Qed.

Lemma derivePublic_ok sk : key_ok (derivePublic sk).
Proof.
  split; [by unfold derivePublic; rewrite length_fmap, length_seq|].
  unfold derivePublic. apply Forall_fmap, Forall_true. intros. apply byte_ok_wrap.
Qed.

Lemma derivePublic_involutive sk : key_ok sk → derivePublic (derivePublic sk) = sk.
Proof.
  intros [Hl Hb]. unfold kX25519PublicKeyLen in Hl. apply list_eq. intros i.
  destruct (decide (i < 32)%nat) as [Hi|Hi].
  - rewrite derivePublic_lookup by done.
    assert (derivePublic sk !!! (31 - i)%nat = to_u8 (Z.lxor (sk !!! (31 - (31 - i))%nat) 90))
      as -> by (apply list_lookup_total_correct, derivePublic_lookup; lia).
    replace (31 - (31 - i))%nat with i by lia.
    assert (byte_ok (sk !!! i)) by (apply byte_ok_lookup_total; [done|lia]).
    rewrite (lxor_byte (sk !!! i)) by done. rewrite Z.lxor_assoc, Z.lxor_nilpotent, Z.lxor_0_r.
    rewrite wrap_id by done. symmetry. apply list_lookup_lookup_total_lt. lia.
  - destruct (derivePublic_ok (derivePublic sk)) as [Hl' _]. unfold kX25519PublicKeyLen in Hl'.
    rewrite !lookup_ge_None_2 by lia. done.
Qed.

(** ** The XOR stream *)

Import Noise.

Lemma keystream_ok key nonce i : byte_ok (keystream key nonce i).
Proof. apply byte_ok_wrap. Qed.

Lemma xorStream_lookup s p nonce i :
  xorStream s p nonce !! i =
    (λ b, to_u8 (Z.lxor b (keystream (stream_key s) nonce i))) <$> p !! i.
Proof. apply list_lookup_imap. Qed.

Lemma length_xorStream s p nonce : length (xorStream s p nonce) = length p.
Proof. apply length_imap. Qed.

Lemma lxor_to_u8 a b : to_u8 (Z.lxor (to_u8 a) b) = to_u8 (Z.lxor a b).
Proof.
  rewrite <-!land_255. apply Z.bits_inj'. intros n Hn.
  rewrite !Z.land_spec, !Z.lxor_spec, Z.land_spec.
  by destruct (Z.testbit a n), (Z.testbit b n), (Z.testbit 255 n).
Qed.

(** Two passes over the stream, with the keys of two sessions. *)
Lemma xorStream_twice a b p nonce i :
  xorStream b (xorStream a p nonce) nonce !! i =
    (λ x, to_u8 (Z.lxor x (Z.lxor (keystream (stream_key a) nonce i)
                                  (keystream (stream_key b) nonce i)))) <$> p !! i.
Proof.
  rewrite !xorStream_lookup. destruct (p !! i); simpl; [|done].
  by rewrite lxor_to_u8, Z.lxor_assoc.
Qed.

Lemma lxor_byte_id x k : byte_ok x → byte_ok k → (to_u8 (Z.lxor x k) = x ↔ k = 0).
Proof.
  intros Hx Hk. rewrite lxor_byte by done. split.
  - intros H. apply (f_equal (Z.lxor x)) in H.
    by rewrite <-Z.lxor_assoc, Z.lxor_nilpotent, Z.lxor_0_l in H.
  - intros ->. apply Z.lxor_0_r.
Qed.

Lemma keystream_eq key key' nonce i :
  bytes_ok key → bytes_ok key' → length key = length key' → (0 < length key)%nat →
  keystream key nonce i = keystream key' nonce i ↔
  key !!! (i `mod` length key)%nat = key' !!! (i `mod` length key')%nat.
Proof.
  intros Hk Hk' Hl Hpos. unfold keystream. rewrite <-Hl.
  set (n := to_u8 (Z.land (to_u64 (nonce + Z.of_nat i)) 255)).
  assert (byte_ok n) by apply byte_ok_wrap.
  assert (i `mod` length key < length key)%nat by (apply Nat.mod_upper_bound; lia).
  rewrite !lxor_byte by (done || (apply byte_ok_lookup_total; [done|lia])). split.
  - intros Heq. apply (f_equal (λ z, Z.lxor z n)) in Heq.
    by rewrite !Z.lxor_assoc, Z.lxor_nilpotent, !Z.lxor_0_r in Heq.
  - by intros ->.
Qed.

(** A session whose two keys are 32-byte arrays. *)
Definition session_ok (s : StubNoiseSession) : Prop :=
  key_ok (public_key (local_ s)) ∧ key_ok (remote_static_ s) ∧
  fits 64 (send_nonce_ s) ∧ fits 64 (recv_nonce_ s).

Lemma stream_key_ok s : session_ok s → length (stream_key s) = 64%nat ∧ bytes_ok (stream_key s).
Proof.
  intros ([Hl Hb] & [Hl' Hb'] & _). unfold stream_key. split.
  - by rewrite length_app, Hl, Hl'.
  - by apply Forall_app.
Qed.

(** The two sessions' keys agree on what a plaintext of length [n] uses. *)
Definition keys_agree (a b : StubNoiseSession) (n : nat) : Prop :=
  ∀ i, (i < n)%nat → stream_key a !!! (i `mod` 64)%nat = stream_key b !!! (i `mod` 64)%nat.

Lemma lxor_eq_0 x y : Z.lxor x y = 0 ↔ x = y.
Proof. split; [apply Z.lxor_eq|intros ->; apply Z.lxor_nilpotent]. Qed.

Lemma xorStream_twice_id a b p nonce :
  session_ok a → session_ok b → bytes_ok p →
  xorStream b (xorStream a p nonce) nonce = p ↔ keys_agree a b (length p).
Proof.
  intros Ha Hb Hp. destruct (stream_key_ok a Ha) as [Hla Hba], (stream_key_ok b Hb) as [Hlb Hbb].
  assert (∀ i x, p !! i = Some x →
    (xorStream b (xorStream a p nonce) nonce !! i = Some x ↔
     stream_key a !!! (i `mod` 64)%nat = stream_key b !!! (i `mod` 64)%nat)) as Hi.
  { intros i x Hx. rewrite xorStream_twice, Hx. simpl.
    assert (byte_ok x) by by apply (Forall_lookup_1 _ _ _ _ Hp Hx).
    pose proof (keystream_eq (stream_key a) (stream_key b) nonce i Hba Hbb ltac:(lia) ltac:(lia))
      as Hk. rewrite Hla, Hlb in Hk. rewrite <-Hk, <-lxor_eq_0.
    rewrite <-(lxor_byte_id x) by (done || (apply fits_lxor; [lia|apply keystream_ok..])).
    split; congruence. }
  split.
  - intros Heq i Hlt. destruct (lookup_lt_is_Some_2 p i Hlt) as [x Hx].
    apply (Hi i x Hx). by rewrite Heq.
  - intros Hk. apply list_eq. intros i. destruct (p !! i) as [x|] eqn:Hx.
    + apply Hi; [done|]. apply Hk. by apply lookup_lt_Some in Hx.
    + by rewrite xorStream_twice, Hx.
Qed.

(** ** Sequences of calls on one session *)

Inductive Call :=
| Write (payload : list Z)
| Read (message : list Z)
| Encrypt (plaintext : list Z)
| Decrypt (ciphertext : list Z)
| Rekey.

(** One call with empty output vectors; the session after it. *)
Definition exec (c : Call) (s : StubNoiseSession) : StubNoiseSession :=
  match c with
  | Write p => (writeMessage p [] s).2
  | Read m => (readMessage m [] s).2
  | Encrypt p => (encrypt p [] [] s).2
  | Decrypt c => (decrypt c [] [] s).2
  | Rekey => rekey s
  end.

Definition run (cs : list Call) (s : StubNoiseSession) : StubNoiseSession :=
  fold_left (λ s c, exec c s) cs s.

Definition is_write (c : Call) : bool := match c with Write _ => true | _ => false end.
Definition is_full_read (c : Call) : bool :=
  match c with Read m => (kX25519PublicKeyLen <=? length m)%nat | _ => false end.

Lemma run_snoc cs c s : run (cs ++ [c]) s = exec c (run cs s).
Proof. unfold run. by rewrite fold_left_app. Qed.

Record handshake_inv (cs : list Call) (s : StubNoiseSession) : Prop := {
  hs_done : handshake_done_ s = existsb is_write cs && existsb is_full_read cs;
  hs_counts : 0 ≤ messages_written_ s ∧ 0 ≤ messages_read_ s;
  hs_written : handshake_done_ s = false →
    (1 <=? messages_written_ s) = existsb is_write cs;
  hs_read : handshake_done_ s = false →
    (1 <=? messages_read_ s) = existsb is_full_read cs;
  hs_known : existsb is_full_read cs = true → remote_known_ s = true;
}.

#[local] Arguments kX25519PublicKeyLen : simpl never.
#[local] Arguments Nat.leb : simpl never.
#[local] Arguments Nat.ltb : simpl never.

Lemma exec_transport c s :
  is_write c = false → is_full_read c = false →
  handshake_done_ (exec c s) = handshake_done_ s ∧
  messages_written_ (exec c s) = messages_written_ s ∧
  messages_read_ (exec c s) = messages_read_ s ∧
  remote_known_ (exec c s) = remote_known_ s.
Proof.
  destruct c as [p|m|p|c|]; try done; simpl; intros _ Hr.
  - unfold readMessage. rewrite Nat.ltb_antisym, Hr. destruct (handshake_done_ s) eqn:E; simpl; by rewrite ?E.
  - unfold encrypt. by repeat case_match.
  - unfold decrypt. by repeat case_match.
Qed.

Lemma exec_done c s : handshake_done_ s = true →
  handshake_done_ (exec c s) = true ∧ remote_known_ (exec c s) = remote_known_ s ∧
  messages_written_ (exec c s) = messages_written_ s ∧
  messages_read_ (exec c s) = messages_read_ s.
Proof.
  intros Hd. destruct c as [p|m|p|c|]; simpl; auto.
  - unfold writeMessage. by rewrite Hd.
  - unfold readMessage. by rewrite Hd.
  - unfold encrypt. repeat case_match; auto.
  - unfold decrypt. repeat case_match; auto.
Qed.

Lemma handshake_inv_step cs c s : handshake_inv cs s → handshake_inv (cs ++ [c]) (exec c s).
Proof.
  intros [Hd [Hw0 Hr0] Hw Hr Hk].
  destruct (handshake_done_ s) eqn:Ed.
  { destruct (exec_done c s Ed) as (Hd' & Hk' & Hw' & Hr').
    symmetry in Hd. apply andb_true_iff in Hd as [E1 E2].
    split; rewrite ?existsb_app, ?E1, ?E2, ?Hd', ?Hk', ?Hw', ?Hr'; simpl; auto; done. }
  specialize (Hw eq_refl). specialize (Hr eq_refl).
  destruct (is_write c) eqn:Ew; [|destruct (is_full_read c) eqn:Er].
  - destruct c as [p| | | |]; try done.
    assert (existsb is_full_read (cs ++ [Write p]) = existsb is_full_read cs) as Hf
      by (by rewrite existsb_app; simpl; rewrite orb_false_r).
    assert (existsb is_write (cs ++ [Write p]) = true) as Hg
      by (by rewrite existsb_app; simpl; rewrite orb_true_r).
    simpl. unfold writeMessage. rewrite Ed. unfold maybeComplete. simpl.
    rewrite (proj2 (Z.leb_le 1 (messages_written_ s + 1))) by lia. rewrite Hr, andb_true_r.
    destruct (existsb is_full_read cs) eqn:Ef.
    + rewrite (Hk eq_refl). simpl. split; rewrite ?Hf, ?Hg; simpl; auto; lia || done.
    + rewrite andb_false_r. split; rewrite ?Hf, ?Hg; simpl; auto; try lia.
  - destruct c as [|m| | |]; try done. simpl in Er.
    assert (existsb is_write (cs ++ [Read m]) = existsb is_write cs) as Hf
      by (by rewrite existsb_app; simpl; rewrite orb_false_r).
    assert (existsb is_full_read (cs ++ [Read m]) = true) as Hg
      by (by rewrite existsb_app; simpl; rewrite Er, orb_true_r).
    simpl. unfold readMessage. rewrite Ed, Nat.ltb_antisym, Er. unfold maybeComplete. simpl.
    rewrite (proj2 (Z.leb_le 1 (messages_read_ s + 1))) by lia. rewrite Hw, andb_true_r.
    destruct (existsb is_write cs) eqn:Ef;
      split; rewrite ?Hf, ?Hg; simpl; auto; lia || done.
  - destruct (exec_transport c s Ew Er) as (Hd' & Hw' & Hr' & Hk').
    split; rewrite ?existsb_app, ?Hd', ?Hw', ?Hr', ?Hk'; simpl;
      rewrite ?Ew, ?Er, ?orb_false_r; auto; congruence.
Qed.

Lemma handshake_inv_run pat role local remote cs :
  handshake_inv cs (run cs (createNoiseSession pat role local remote)).
Proof.
  induction cs as [|c cs IH] using rev_ind; [by split|].
  rewrite run_snoc. by apply handshake_inv_step.
Qed.

(** C18. The handshake state machine, whatever the order of
    the calls, the pattern and the role: a new session is complete exactly when
    one handshake message was written and one of at least 32 bytes was read;
    until then [encrypt] and [decrypt] refuse and touch neither the output nor
    the session, and from then on handshake messages are refused. *)
Theorem noise_complete_iff pat role local remote cs input ad out :
  let s := run cs (createNoiseSession pat role local remote) in
  isHandshakeComplete s = existsb is_write cs && existsb is_full_read cs ∧
  if isHandshakeComplete s then
    let refused := (error InvalidArgument "handshake already complete", out, s) in
    writeMessage input out s = refused ∧ readMessage input out s = refused
  else
    let refused := (error InvalidArgument "handshake not complete", out, s) in
    encrypt input ad out s = refused ∧ decrypt input ad out s = refused.
Proof.
  intros s. pose proof (handshake_inv_run pat role local remote cs) as Hinv.
  split; [apply (hs_done _ _ Hinv)|].
  unfold isHandshakeComplete. destruct (handshake_done_ s) eqn:E;
    unfold writeMessage, readMessage, encrypt, decrypt; by rewrite E.
Qed.

(** Two new sessions, one message each way: both
    complete, each holds the other's static key, the early payloads arrive
    unchanged, and each side's handshake hash covers its own key first. *)
Theorem noise_handshake_pair pa pb ia ib ra rb p1 p2 :
  key_ok (public_key ia) → key_ok (public_key ib) →
  let '(st1, m1, a1) := writeMessage p1 [] (createNoiseSession pa Initiator ia ra) in
  let '(st2, q1, b1) := readMessage m1 [] (createNoiseSession pb Responder ib rb) in
  let '(st3, m2, b2) := writeMessage p2 [] b1 in
  let '(st4, q2, a2) := readMessage m2 [] a1 in
  st1 = success ∧ st2 = success ∧ st3 = success ∧ st4 = success ∧
  q1 = p1 ∧ q2 = p2 ∧
  isHandshakeComplete a2 = true ∧ isHandshakeComplete b2 = true ∧
  remoteStaticKey a2 = public_key ib ∧ remoteStaticKey b2 = public_key ia ∧
  handshakeHash a2 = le_bytes 8 (fnv1a (public_key ia ++ public_key ib)) ∧
  handshakeHash b2 = le_bytes 8 (fnv1a (public_key ib ++ public_key ia)).
Proof.
  intros [Ha _] [Hb _].
  assert (∀ k p : list Z, length k = kX25519PublicKeyLen →
    (length (k ++ p) <? kX25519PublicKeyLen)%nat = false) as Hlen.
  { intros k p H. apply Nat.ltb_ge. rewrite length_app. lia. }
  destruct pa, pb; unfold writeMessage, readMessage, maybeComplete; simpl;
    rewrite ?Hlen by done; simpl; rewrite ?Hlen by done; simpl;
    unfold remoteStaticKey, handshakeHash; simpl;
    rewrite !take_app_exact, !drop_app_exact by done; done.
Qed.

Lemma encrypt_run p ad out s :
  handshake_done_ s = true → Z.of_nat (length p) ≤ kMaxMessage →
  encrypt p ad out s =
    (success, le_bytes 8 (send_nonce_ s) ++ xorStream s p (send_nonce_ s),
     set_nonces (to_u64 (send_nonce_ s + 1)) (recv_nonce_ s) s).
Proof.
  intros Hd Hl. unfold encrypt. rewrite Hd. simpl.
  by rewrite (proj2 (Z.ltb_ge _ _) Hl).
Qed.

Lemma decrypt_run n body ad out s :
  handshake_done_ s = true → fits 64 n → recv_nonce_ s ≤ n →
  decrypt (le_bytes 8 n ++ body) ad out s =
    (success, xorStream s body n, set_nonces (send_nonce_ s) (to_u64 (n + 1)) s).
Proof.
  intros Hd Hn Hr. unfold decrypt. rewrite Hd. cbn [negb].
  rewrite (proj2 (Nat.ltb_ge _ _)) by (rewrite length_app, length_le_bytes; lia).
  rewrite take_app_exact, drop_app_exact by apply length_le_bytes.
  rewrite le_value_le_bytes. rewrite (wrap_id (8 * Z.of_nat 8)) by done.
  by rewrite (proj2 (Z.ltb_ge _ _) Hr).
Qed.

(** C20. Transport round trip: what a completed session encrypts,
    a completed session whose receive window is not past the nonce accepts, and
    the plaintext comes back exactly when the two sessions' stream keys agree
    on the positions the plaintext uses; on acceptance the window moves past
    the nonce. *)
Theorem noise_roundtrip a b p ad out out' :
  session_ok a → session_ok b → bytes_ok p →
  handshake_done_ a = true → handshake_done_ b = true →
  Z.of_nat (length p) ≤ kMaxMessage → recv_nonce_ b ≤ send_nonce_ a →
  let '(st, c, a') := encrypt p ad out a in
  let '(st', q, b') := decrypt c ad out' b in
  st = success ∧ st' = success ∧
  send_nonce_ a' = to_u64 (send_nonce_ a + 1) ∧
  recv_nonce_ b' = to_u64 (send_nonce_ a + 1) ∧
  length q = length p ∧ (q = p ↔ keys_agree a b (length p)).
Proof.
  intros Ha Hb Hp Hda Hdb Hl Hn. rewrite encrypt_run, decrypt_run by (done || apply Ha).
  split_and!; [done..| |by apply xorStream_twice_id]. by rewrite !length_xorStream.
Qed.

(** After a handshake: each session holds the other's static key. *)
Definition connected (a b : StubNoiseSession) : Prop :=
  remote_static_ a = public_key (local_ b) ∧ remote_static_ b = public_key (local_ a).

Lemma connected_agree a b n :
  session_ok a → session_ok b → connected a b →
  keys_agree a b n ↔
  ∀ i, (i < n `min` 32)%nat →
    public_key (local_ a) !!! i = public_key (local_ b) !!! i.
Proof.
  intros ((Hla & _) & _) ((Hlb & _) & _) [Hab Hba]. unfold kX25519PublicKeyLen in *.
  unfold keys_agree, stream_key. rewrite Hab, Hba. split.
  - intros H i Hi. specialize (H i ltac:(lia)). rewrite Nat.mod_small in H by lia.
    by rewrite !lookup_total_app_l in H by lia.
  - intros H i Hi. assert (i `mod` 64 < 64)%nat by (apply Nat.mod_upper_bound; lia).
    assert (i `mod` 64 ≤ i)%nat by (apply Nat.Div0.mod_le).
    destruct (decide (i `mod` 64 < 32)%nat).
    + rewrite !lookup_total_app_l by lia. apply H. lia.
    + rewrite !lookup_total_app_r by lia. rewrite Hla, Hlb. symmetry. apply H. lia.
Qed.

(** The stream key starts with the session's own static
    key on both sides, so two connected sessions with different static keys do
    not understand each other: a message of 32 bytes or more that one encrypts
    the other accepts with status Ok and decrypts to something else, of the
    same length. *)
Theorem noise_peers_garble a b p ad out out' :
  session_ok a → session_ok b → connected a b → bytes_ok p →
  handshake_done_ a = true → handshake_done_ b = true →
  32 ≤ Z.of_nat (length p) ≤ kMaxMessage → recv_nonce_ b ≤ send_nonce_ a →
  public_key (local_ a) ≠ public_key (local_ b) →
  let c := (encrypt p ad out a).1.2 in
  let '(st, q, _) := decrypt c ad out' b in
  st = success ∧ length q = length p ∧ q ≠ p.
Proof.
  intros Ha Hb Hc Hp Hda Hdb [Hl Hl'] Hn Hne c. unfold c.
  rewrite encrypt_run by done. cbn [fst snd]. rewrite decrypt_run by (done || apply Ha).
  split_and!; [done|by rewrite !length_xorStream|]. intros Hq.
  apply xorStream_twice_id in Hq; [|done..].
  rewrite connected_agree in Hq by done.
  destruct Ha as ((Hla & _) & _), Hb as ((Hlb & _) & _). unfold kX25519PublicKeyLen in *.
  apply Hne. apply list_eq_same_length with (n := 32%nat); [done|done|].
  intros i x y Hi Hx Hy. rewrite <-(list_lookup_total_correct _ _ _ Hx).
  rewrite <-(list_lookup_total_correct _ _ _ Hy). apply Hq. lia.
Qed.

(** *** Replay protection *)

Definition nonce_of (ciphertext : list Z) : Z := le_value (take 8 ciphertext).

(** Not the last nonce: [recv_nonce_ = nonce + 1] does not wrap. *)
Definition nonce_safe (c : Call) : Prop :=
  match c with
  | Decrypt ct => bytes_ok ct ∧ nonce_of ct < 2 ^ 64 - 1
  | _ => True
  end.

Lemma nonce_of_fits ct : bytes_ok ct → fits 64 (nonce_of ct).
Proof.
  intros H. assert (bytes_ok (take 8 ct)) as Ht by by apply Forall_take.
  apply le_value_bounds in Ht. unfold nonce_of, fits in *. split; [apply Ht|].
  eapply Z.lt_le_trans; [apply Ht|]. apply Z.pow_le_mono_r; [lia|].
  rewrite length_take. lia.
Qed.

Lemma exec_handshake_nonces c s :
  (∀ ct, c ≠ Decrypt ct) → recv_nonce_ (exec c s) = recv_nonce_ s.
Proof.
  intros Hc. destruct c as [p|m|p|ct|]; simpl; try done;
    unfold writeMessage, readMessage, encrypt, maybeComplete; try by repeat case_match.
  by destruct (Hc ct).
Qed.

Lemma recv_nonce_mono c s :
  nonce_safe c → recv_nonce_ s ≤ recv_nonce_ (exec c s).
Proof.
  intros Hc. destruct c as [p|m|p|ct|]; try (rewrite exec_handshake_nonces by done; lia).
  destruct Hc as [Hb Hn]. simpl. unfold decrypt. repeat case_match; simpl; try lia.
  apply Z.ltb_ge in H1. fold (nonce_of ct) in *. pose proof (nonce_of_fits ct Hb) as [? ?].
  rewrite wrap_id by (unfold fits; lia). lia.
Qed.

Lemma recv_nonce_run cs s :
  Forall nonce_safe cs → recv_nonce_ s ≤ recv_nonce_ (run cs s).
Proof.
  intros H. revert s. induction H as [|c cs Hc _ IH]; intros s; [simpl; lia|].
  etrans; [by apply recv_nonce_mono|apply IH].
Qed.

Lemma done_run cs s : handshake_done_ s = true → handshake_done_ (run cs s) = true.
Proof.
  revert s. induction cs as [|c cs IH]; intros s Hs; [done|]. apply IH. by apply exec_done.
Qed.

Lemma decrypt_accepted ct ad out s st q s' :
  decrypt ct ad out s = (st, q, s') → st = success →
  handshake_done_ s = true ∧ (8 ≤ length ct)%nat ∧ recv_nonce_ s ≤ nonce_of ct ∧
  s' = set_nonces (send_nonce_ s) (to_u64 (nonce_of ct + 1)) s.
Proof.
  unfold decrypt. intros H Hst. destruct (handshake_done_ s) eqn:E; simpl in H; [|by simplify_eq].
  destruct (length ct <? 8)%nat eqn:El; [by simplify_eq|].
  destruct (le_value (take 8 ct) <? recv_nonce_ s) eqn:En; simplify_eq.
  apply Nat.ltb_ge in El. apply Z.ltb_ge in En. done.
Qed.

Lemma decrypt_old ct ad out s :
  handshake_done_ s = true → (8 ≤ length ct)%nat → nonce_of ct < recv_nonce_ s →
  decrypt ct ad out s = (error PermissionDenied "replayed/old nonce", out, s).
Proof.
  intros Hd Hl Hn. unfold decrypt. rewrite Hd. cbn [negb].
  rewrite (proj2 (Nat.ltb_ge _ _)) by done. fold (nonce_of ct).
  by rewrite (proj2 (Z.ltb_lt _ _) Hn).
Qed.

(** C11. Replay protection: once a session has accepted a
    message, every message whose nonce is not larger is refused with
    PermissionDenied and leaves output and session alone, whatever calls came
    in between, as long as none carried the last nonce 2^64 - 1. *)
Theorem noise_replay_rejected s ct ad out q s' cs ct' out' :
  decrypt ct ad out s = (success, q, s') →
  nonce_safe (Decrypt ct) → Forall nonce_safe cs →
  (8 ≤ length ct')%nat → nonce_of ct' ≤ nonce_of ct →
  decrypt ct' ad out' (run cs s') =
    (error PermissionDenied "replayed/old nonce", out', run cs s').
Proof.
  intros Hdec [Hb Hn] Hcs Hl Hle.
  destruct (decrypt_accepted _ _ _ _ _ _ _ Hdec eq_refl) as (Hd & _ & _ & ->).
  set (s1 := set_nonces _ _ _). apply decrypt_old; [by apply done_run|done|].
  assert (recv_nonce_ s1 = nonce_of ct + 1) as Hs1.
  { simpl. apply wrap_id. pose proof (nonce_of_fits ct Hb) as [? ?]. unfold fits. lia. }
  pose proof (recv_nonce_run cs s1 Hcs). lia.
Qed.

(** The last nonce defeats replay protection: a session
    that accepts a message with nonce 2^64 - 1 has its receive window back at
    0, and accepts that message again, and any other. *)
Theorem noise_nonce_wrap s ct ad out q s' ct' out' :
  decrypt ct ad out s = (success, q, s') → nonce_of ct = 2 ^ 64 - 1 →
  bytes_ok ct' → (8 ≤ length ct')%nat →
  recv_nonce_ s' = 0 ∧ (decrypt ct' ad out' s').1.1 = success.
Proof.
  intros Hdec Hn Hb Hl.
  destruct (decrypt_accepted _ _ _ _ _ _ _ Hdec eq_refl) as (Hd & _ & _ & ->).
  rewrite Hn. split; [done|]. unfold decrypt. simpl. rewrite Hd. cbn [negb].
  rewrite (proj2 (Nat.ltb_ge _ _)) by done. fold (nonce_of ct').
  pose proof (nonce_of_fits ct' Hb) as [? ?].
  change (wrap 64 (2 ^ 64 - 1 + 1)) with 0.
  by rewrite (proj2 (Z.ltb_ge _ _)).
Qed.

(** ** The key store *)

Lemma makeStubIdentity_ok seed : key_ok (secret_key (makeStubIdentity seed)).
Proof.
  split; [done|].
  apply Forall_fmap, Forall_true. intros. apply byte_ok_wrap.
Qed.

(** The key store: [loadOrGenerate] always succeeds, after
    it [load] and further [loadOrGenerate] calls return the same identity and
    change nothing; an identity it had to generate is a 32-byte pair whose
    public half gives the secret half back under the same derivation. *)
Theorem keystore_stable s :
  let '(r, s1) := KeyStore.loadOrGenerate s in
  Result_ok r = true ∧ KeyStore.load s1 = (r, s1) ∧ KeyStore.loadOrGenerate s1 = (r, s1) ∧
  if KeyStore.have_ s then value r = KeyStore.identity_ s ∧ s1 = s
  else has_secret (value r) = true ∧
       key_ok (public_key (value r)) ∧ key_ok (secret_key (value r)) ∧
       derivePublic (secret_key (value r)) = public_key (value r) ∧
       derivePublic (public_key (value r)) = secret_key (value r).
Proof.
  destruct s as [i [] seed]; unfold KeyStore.loadOrGenerate, KeyStore.generate, KeyStore.load;
    run_state; [done|].
  split_and!; try done.
  - apply derivePublic_ok.
  - apply makeStubIdentity_ok.
  - apply derivePublic_involutive, makeStubIdentity_ok.
Qed.

(** ** Witnesses *)

Definition id_a : Identity := makeStubIdentity 1.
Definition id_b : Identity := makeStubIdentity 2.
(** [sample_pair]: the two ends after one message each way. *)
Definition sample_a : StubNoiseSession :=
  run [Write [7]; Read (public_key id_b)]
    (createNoiseSession XK Initiator id_a (replicate 32 0)).
Definition sample_b : StubNoiseSession :=
  run [Read (public_key id_a); Write []]
    (createNoiseSession XK Responder id_b (replicate 32 0)).
Definition sample_text : list Z := replicate 40 65.

Lemma key_ok_dec_sound k :
  bool_decide (length k = 32%nat ∧ Forall (λ b, 0 ≤ b < 256) k) = true → key_ok k.
Proof. by rewrite bool_decide_eq_true. Qed.

Lemma sample_ok : session_ok sample_a ∧ session_ok sample_b.
Proof. split; split_and!; try (apply key_ok_dec_sound; by vm_compute); by vm_compute. Qed.

Lemma noise_handshake_pair_witness :
  let '(_, m1, a1) := writeMessage [7] [] (createNoiseSession XK Initiator id_a []) in
  let '(_, q1, _) := readMessage m1 [] (createNoiseSession KK Responder id_b []) in
  q1 = [7].
Proof.
  assert (key_ok (public_key id_a)) as Ha by (apply key_ok_dec_sound; by vm_compute).
  assert (key_ok (public_key id_b)) as Hb by (apply key_ok_dec_sound; by vm_compute).
  apply (noise_handshake_pair XK KK id_a id_b [] [] [7] [] Ha Hb).
Defined.

Lemma noise_roundtrip_witness :
  let '(_, c, _) := encrypt [1; 2; 3] [] [] sample_a in
  let '(_, q, _) := decrypt c [] [] sample_a in q = [1; 2; 3].
Proof.
  destruct sample_ok as [Ha _].
  refine (_ (noise_roundtrip sample_a sample_a [1; 2; 3] [] [] [] Ha Ha _ _ _ _ _));
    [|repeat constructor; done|by vm_compute|by vm_compute|by vm_compute|by vm_compute].
  destruct (encrypt [1; 2; 3] [] [] sample_a) as [[st c] a'].
  destruct (decrypt c [] [] sample_a) as [[st' q] b'].
  intros (_ & _ & _ & _ & _ & H). apply H. intros i _. reflexivity.
Defined.

Lemma noise_peers_garble_witness :
  let c := (encrypt sample_text [] [] sample_a).1.2 in
  let '(st, q, _) := decrypt c [] [] sample_b in
  st = success ∧ length q = length sample_text ∧ q ≠ sample_text.
Proof.
  destruct sample_ok as [Ha Hb].
  apply (noise_peers_garble sample_a sample_b sample_text [] [] []);
    [done|done|split; by vm_compute|repeat constructor; done|by vm_compute|by vm_compute
    |done|by vm_compute|by vm_compute].
Defined.

Definition sample_ct : list Z := le_bytes 8 5 ++ [1; 2].
Definition last_ct : list Z := le_bytes 8 (2 ^ 64 - 1) ++ [9].

Lemma noise_replay_rejected_witness :
  decrypt sample_ct [] [] (run [Encrypt [1]; Decrypt (le_bytes 8 6)]
                             (decrypt sample_ct [] [] sample_b).2) =
    (error PermissionDenied "replayed/old nonce", [],
     run [Encrypt [1]; Decrypt (le_bytes 8 6)] (decrypt sample_ct [] [] sample_b).2).
Proof.
  apply (noise_replay_rejected sample_b sample_ct [] []
    (decrypt sample_ct [] [] sample_b).1.2 (decrypt sample_ct [] [] sample_b).2);
    [by vm_compute|by repeat constructor|by repeat constructor
    |by apply Nat.leb_le; vm_compute|by vm_compute].
Defined.

Lemma noise_nonce_wrap_witness :
  let s' := (decrypt last_ct [] [] sample_b).2 in
  recv_nonce_ s' = 0 ∧ (decrypt sample_ct [] [] s').1.1 = success.
Proof.
  apply (noise_nonce_wrap sample_b last_ct [] []
    (decrypt last_ct [] [] sample_b).1.2 (decrypt last_ct [] [] sample_b).2 sample_ct []);
    [by vm_compute|by vm_compute|by repeat constructor|by apply Nat.leb_le; vm_compute].
Defined.
