(* ===== verification/CryptoTypes.v ===== *)
(** * The Noise session keeps its types (core/crypto/crypto_stub.cpp)

    Keys are arrays of 32 bytes, nonces 64-bit, outputs vectors of bytes: what the
    C++ types say about [StubNoiseSession], shown of the model with its
    unbounded integers and lists, for every sequence of calls with byte inputs. *)

From S2P Require Import Prelude Types Crypto.
Import Crypto.Noise.

(** The inputs of a call are vectors of bytes. *)
Definition call_ok (c : Call) : Prop :=
  match c with
  | Write b | Read b | Encrypt b | Decrypt b => bytes_ok b
  | Rekey => True
  end.

Lemma le_bytes_ok n z : bytes_ok (le_bytes n z).
Proof. auto with redesk. Qed.

Lemma xorStream_ok s p nonce : bytes_ok (xorStream s p nonce).
Proof.
  apply Forall_lookup. intros i x. rewrite xorStream_lookup.
  intros (b & _ & ->)%fmap_Some. apply byte_ok_wrap.
Qed.

Lemma session_ok_fields s s' :
  session_ok s → local_ s' = local_ s → remote_static_ s' = remote_static_ s →
  fits 64 (send_nonce_ s') → fits 64 (recv_nonce_ s') → session_ok s'.
Proof. intros (? & ? & _ & _) E1 E2 ? ?. unfold session_ok. by rewrite E1, E2. Qed.

Lemma maybeComplete_ok s : session_ok s → session_ok (maybeComplete s).
Proof. unfold maybeComplete. by case_match. Qed.

(** Every operation's status, output and session. *)
Lemma writeMessage_ok p out s :
  session_ok s → bytes_ok p → bytes_ok out →
  let '(st, o, s') := writeMessage p out s in
  session_ok s' ∧ bytes_ok o ∧
  (Status_ok st = true → length o = (32 + length p)%nat).
Proof.
  intros Hs Hp Ho. unfold writeMessage. destruct (handshake_done_ s); [done|].
  pose proof Hs as ([Hl Hb] & _). split_and!.
  - by apply maybeComplete_ok.
  - by apply Forall_app.
  - intros _. by rewrite length_app, Hl.
Qed.

Lemma readMessage_ok m out s :
  session_ok s → bytes_ok m → bytes_ok out →
  let '(st, o, s') := readMessage m out s in
  session_ok s' ∧ bytes_ok o ∧
  (Status_ok st = true → length m = (32 + length o)%nat).
Proof.
  intros Hs Hm Ho. unfold readMessage. destruct (handshake_done_ s); [done|].
  destruct (Nat.ltb_spec (length m) kX25519PublicKeyLen) as [|Hl]; [done|].
  split_and!; [|by apply Forall_drop|].
  - apply maybeComplete_ok. destruct Hs as (Ha & _ & Hn). split; [done|]. split; [|done].
    cbn [remote_static_ set_handshake]. split; [rewrite length_take; lia|by apply Forall_take].
  - intros _. rewrite length_drop. unfold kX25519PublicKeyLen in *. lia.
Qed.

Lemma encrypt_ok p ad out s :
  session_ok s → bytes_ok out →
  let '(st, o, s') := encrypt p ad out s in
  session_ok s' ∧ bytes_ok o ∧ (Status_ok st = true → length o = (8 + length p)%nat).
Proof.
  intros Hs Ho. unfold encrypt. destruct (handshake_done_ s); cbn [negb]; [|done].
  destruct (kMaxMessage <? _); [done|]. pose proof Hs as (_ & _ & _ & Hr). split_and!.
  - apply (session_ok_fields s); [done..| |done]. by apply wrap_fits.
  - apply Forall_app. split; [apply le_bytes_ok|apply xorStream_ok].
  - intros _. by rewrite length_app, length_le_bytes, length_xorStream.
Qed.

Lemma decrypt_ok ct ad out s :
  session_ok s → bytes_ok out →
  let '(st, o, s') := decrypt ct ad out s in
  session_ok s' ∧ bytes_ok o ∧ (Status_ok st = true → length ct = (8 + length o)%nat).
Proof.
  intros Hs Ho. unfold decrypt. destruct (handshake_done_ s); cbn [negb]; [|done].
  destruct (Nat.ltb_spec (length ct) 8); [done|].
  destruct (_ <? _); [done|]. pose proof Hs as (_ & _ & Hn & _). split_and!.
  - apply (session_ok_fields s); [done..|]. by apply wrap_fits.
  - apply xorStream_ok.
  - intros _. rewrite length_xorStream, length_drop. lia.
Qed.

Lemma exec_ok c s : session_ok s → call_ok c → session_ok (exec c s).
Proof.
  intros Hs Hc. assert (bytes_ok []) as Hnil by constructor.
  destruct c as [p|m|p|ct|]; simpl; [..|done].
  - pose proof (writeMessage_ok p [] s Hs Hc Hnil) as H. destruct (writeMessage p [] s) as [[??] ?]. apply H.
  - pose proof (readMessage_ok m [] s Hs Hc Hnil) as H. destruct (readMessage m [] s) as [[??] ?]. apply H.
  - pose proof (encrypt_ok p [] [] s Hs Hnil) as H. destruct (encrypt p [] [] s) as [[??] ?]. apply H.
  - pose proof (decrypt_ok ct [] [] s Hs Hnil) as H. destruct (decrypt ct [] [] s) as [[??] ?]. apply H.
Qed.

Lemma run_ok cs s : session_ok s → Forall call_ok cs → session_ok (run cs s).
Proof.
  intros Hs Hcs. revert s Hs. induction Hcs as [|c cs Hc _ IH]; intros s Hs; [done|].
  by apply IH, exec_ok.
Qed.

(** C19. The session keeps its types: created with 32-byte keys and
    called in any order with vectors of bytes, it holds 32-byte keys and 64-bit
    nonces, its hash has 8 bytes, every output is a vector of bytes, and one that
    succeeds has the length its input determines: 32 bytes more for a handshake
    message, 8 more for a ciphertext, and as many fewer on the way back. *)
Theorem noise_types pat role local remote cs input ad out :
  key_ok (public_key local) → key_ok remote → Forall call_ok cs →
  bytes_ok input → bytes_ok out →
  let s := run cs (createNoiseSession pat role local remote) in
  session_ok s ∧ bytes_ok (handshakeHash s) ∧ length (handshakeHash s) = 8%nat ∧
  (let '(st, o, s') := writeMessage input out s in
   session_ok s' ∧ bytes_ok o ∧ (Status_ok st = true → length o = (32 + length input)%nat)) ∧
  (let '(st, o, s') := readMessage input out s in
   session_ok s' ∧ bytes_ok o ∧ (Status_ok st = true → length input = (32 + length o)%nat)) ∧
  (let '(st, o, s') := encrypt input ad out s in
   session_ok s' ∧ bytes_ok o ∧ (Status_ok st = true → length o = (8 + length input)%nat)) ∧
  (let '(st, o, s') := decrypt input ad out s in
   session_ok s' ∧ bytes_ok o ∧ (Status_ok st = true → length input = (8 + length o)%nat)).
Proof.
  intros Hl Hr Hcs Hin Hout s. assert (session_ok s) as Hs by (by apply run_ok).
  split_and!; [done|apply le_bytes_ok|apply length_le_bytes|..].
  - by apply writeMessage_ok.
  - by apply readMessage_ok.
  - by apply encrypt_ok.
  - by apply decrypt_ok.
Qed.

Lemma noise_types_witness :
  let s := run [Write [7]; Read (public_key id_b)]
    (createNoiseSession XK Initiator id_a (replicate 32 0)) in
  session_ok s ∧
  let '(st, o, s') := encrypt [1; 2; 3] [] [] s in
  Status_ok st = true ∧ length o = 11%nat ∧ bytes_ok o.
Proof.
  assert (key_ok (public_key id_a)) as Ha by (apply key_ok_dec_sound; by vm_compute).
  assert (key_ok (replicate 32 0)) as Hr by (apply key_ok_dec_sound; by vm_compute).
  assert (Forall call_ok [Write [7]; Read (public_key id_b)]) as Hcs.
  { repeat constructor; done. }
  assert (bytes_ok [1; 2; 3]) as Hb by (repeat constructor; done).
  destruct (noise_types XK Initiator id_a (replicate 32 0) [Write [7]; Read (public_key id_b)]
    [1; 2; 3] [] [] Ha Hr Hcs Hb ltac:(constructor)) as (Hs & _ & _ & _ & _ & He & _).
  split; [exact Hs|]. revert He.
  destruct (encrypt _ _ _ _) as [[st o] s'] eqn:E.
  intros (_ & Ho & Hl). assert (Status_ok st = true) as Hst.
  { apply (f_equal (λ x, Status_ok x.1.1)) in E. simpl in E. rewrite <-E. by vm_compute. }
  split; [exact Hst|]. split; [exact (Hl Hst)|exact Ho].
Defined.
