(* ===== verification/Wire.v ===== *)
(** * The wire contract ([proto/transport.proto.h], [proto/codec.proto.h],
    [proto/ipc.proto.h])

    Channels and their reliability, frame headers, the fragmentation arithmetic
    on [uint32_t]/[uint16_t], codec tiers and their negotiation, the IPC tags and
    the capability bit set.  The headers declare no serializer; the structs are
    the in-memory mirrors they say they are. *)

From S2P Require Import Prelude Types.

(** ** [transport.proto.h] *)

Definition kProtocolVersion : Z := 1.
Definition kNoiseMessageMax : Z := 65535.
Definition kAeadTagBytes : Z := 16.

Inductive Channel :=
| kControl | kVideo | kAudio | kInput | kClipboard | kFile | kStats.

#[export] Instance Channel_eq_dec : EqDecision Channel.
Proof. solve_decision. Defined.

Definition Channel_to_u8 (c : Channel) : Z :=
  match c with
  | kControl => 0 | kVideo => 1 | kAudio => 2 | kInput => 3
  | kClipboard => 4 | kFile => 5 | kStats => 6
  end.

Inductive Reliability := kUnreliable | kPartialReliable | kReliableOrdered.

#[export] Instance Reliability_eq_dec : EqDecision Reliability.
Proof. solve_decision. Defined.

Definition reliabilityFor (c : Channel) : Reliability :=
  match c with
  | kControl => kReliableOrdered
  | kVideo => kPartialReliable
  | kAudio => kUnreliable
  | kInput => kReliableOrdered
  | kClipboard => kReliableOrdered
  | kFile => kReliableOrdered
  | kStats => kUnreliable
  end.

(** [enum FrameFlags : uint16_t]. *)
Inductive FrameFlags :=
| kFlagNone | kFlagKeyframe | kFlagFragment | kFlagLastFrag
| kFlagFec | kFlagRetransmit | kFlagAck.

Definition FrameFlags_to_u16 (f : FrameFlags) : Z :=
  match f with
  | kFlagNone => 0
  | kFlagKeyframe => Z.shiftl 1 0
  | kFlagFragment => Z.shiftl 1 1
  | kFlagLastFrag => Z.shiftl 1 2
  | kFlagFec => Z.shiftl 1 3
  | kFlagRetransmit => Z.shiftl 1 4
  | kFlagAck => Z.shiftl 1 5
  end.

Inductive MessageType :=
| MT_kUnknown | kHello | kHelloAck | kCapabilities | kKeepalive | kBye
| kKeyframeRequest | kRekey | kVideoFrame | kVideoFec | kAudioFrame
| MT_kInputEvent | kClipboardText | kClipboardImage | kClipboardFiles
| kFileOffer | kFileChunk | kFileAck | kCcFeedback.

Definition MessageType_to_u16 (m : MessageType) : Z :=
  match m with
  | MT_kUnknown => 0
  | kHello => 100 | kHelloAck => 101 | kCapabilities => 102 | kKeepalive => 103
  | kBye => 104 | kKeyframeRequest => 105 | kRekey => 106
  | kVideoFrame => 200 | kVideoFec => 201 | kAudioFrame => 210
  | MT_kInputEvent => 300
  | kClipboardText => 400 | kClipboardImage => 401 | kClipboardFiles => 402
  | kFileOffer => 500 | kFileChunk => 501 | kFileAck => 502
  | kCcFeedback => 600
  end.

(** [struct FrameHeader], packed. *)
Record FrameHeader := {
  channel : Channel;
  reserved0 : Z;
  frame_type : MessageType;
  flags : Z;
  frag_index : Z;
  frag_count : Z;
  seq : Z;
  frame_length : Z;
}.

Definition FrameHeader_init : FrameHeader := {|
  channel := kControl; reserved0 := 0; frame_type := MT_kUnknown;
  flags := FrameFlags_to_u16 kFlagNone; frag_index := 0; frag_count := 1;
  seq := 0; frame_length := 0 |}.

(** [sizeof(FrameHeader)]: the packed sum of the field widths. *)
Definition sizeof_FrameHeader : Z := 1 + 1 + 2 + 2 + 2 + 2 + 4 + 4.

Definition hasFlag (h : FrameHeader) (f : FrameFlags) : bool :=
  negb (Z.land (flags h) (FrameFlags_to_u16 f) =? 0).

Definition isWholeMessage (h : FrameHeader) : bool :=
  (frag_count h <=? 1) && negb (hasFlag h kFlagFragment).

Definition usablePayloadBudget (path_mtu_after_noise : Z) : Z :=
  let overhead := to_u32 (sizeof_FrameHeader + kAeadTagBytes) in
  if overhead <? path_mtu_after_noise then path_mtu_after_noise - overhead else 0.

Definition fragmentCount (total_bytes budget : Z) : Z :=
  if budget =? 0 then 0
  else if total_bytes =? 0 then 1
  else
    let n := to_u32 (to_u32 (total_bytes + budget) - 1) / budget in
    to_u16 n.

(** ** [codec.proto.h] *)

Inductive CodecTier := kNone | kH264High420 | kHevc420 | kHevc444 | kAv1.

#[export] Instance CodecTier_eq_dec : EqDecision CodecTier.
Proof. solve_decision. Defined.

Definition CodecTier_to_u8 (t : CodecTier) : Z :=
  match t with
  | kNone => 0 | kH264High420 => 1 | kHevc420 => 2 | kHevc444 => 3 | kAv1 => 4
  end.

Definition kFloorTier : CodecTier := kH264High420.
Definition kBestTier : CodecTier := kAv1.

Definition codecTierName (t : CodecTier) : string :=
  match t with
  | kNone => "none"
  | kH264High420 => "h264-high-420"
  | kHevc420 => "hevc-420"
  | kHevc444 => "hevc-444"
  | kAv1 => "av1"
  end.

(** The two nested loops, [best] carried through them. *)
Definition negotiate_inner (l : CodecTier) (remote : list CodecTier)
    (best : CodecTier) : CodecTier :=
  fold_left (λ best r,
    if bool_decide (l = r) && (CodecTier_to_u8 best <? CodecTier_to_u8 l)
    then l else best) remote best.

Definition negotiateCodec (local remote : list CodecTier) : CodecTier :=
  fold_left (λ best l,
    if bool_decide (l = kNone) then best else negotiate_inner l remote best)
    local kNone.

Definition floorCapabilities : list CodecTier := [kH264High420].

(** ** [ipc.proto.h] *)

Inductive Capability :=
| kViewScreen | kControlInput | kClipboardSync | kFileTransfer
| kAudioCap | kPrivacyMode | kUacElevation.

#[export] Instance Capability_eq_dec : EqDecision Capability.
Proof. solve_decision. Defined.

Definition Capability_to_u32 (c : Capability) : Z :=
  match c with
  | kViewScreen => Z.shiftl 1 0
  | kControlInput => Z.shiftl 1 1
  | kClipboardSync => Z.shiftl 1 2
  | kFileTransfer => Z.shiftl 1 3
  | kAudioCap => Z.shiftl 1 4
  | kPrivacyMode => Z.shiftl 1 5
  | kUacElevation => Z.shiftl 1 6
  end.

(** [struct CapabilitySet] is its [bits]. *)
Definition kNoCapabilities : Z := 0.
Definition has (bits : Z) (c : Capability) : bool :=
  negb (Z.land bits (Capability_to_u32 c) =? 0).
Definition grant (bits : Z) (c : Capability) : Z := Z.lor bits (Capability_to_u32 c).
Definition revoke (bits : Z) (c : Capability) : Z :=
  Z.land bits (to_u32 (Z.lnot (Capability_to_u32 c))).

Inductive SessionPhase :=
| kIdle | kSignaling | kHandshaking | kAuthenticating | kConnected
| kDisconnected | kFailed.

Definition SessionPhase_to_u8 (p : SessionPhase) : Z :=
  match p with
  | kIdle => 0 | kSignaling => 1 | kHandshaking => 2 | kAuthenticating => 3
  | kConnected => 4 | kDisconnected => 5 | kFailed => 6
  end.

Inductive IpcMessageType :=
| IPC_kUnknown | kGetMyId | kConnectToPeer | kAcceptIncoming | kRejectIncoming
| kDisconnect | kSetCapabilities | kRequestKeyframe | kSendInputEvent | kListDisplays
| kMyId | kSessionState | kIncomingRequest | kCapabilityGrant | kFingerprintAlert
| kDisplayList | IPC_kInputEvent | kError.

Definition IpcMessageType_to_u16 (m : IpcMessageType) : Z :=
  match m with
  | IPC_kUnknown => 0
  | kGetMyId => 10 | kConnectToPeer => 11 | kAcceptIncoming => 12
  | kRejectIncoming => 13 | kDisconnect => 14 | kSetCapabilities => 15
  | kRequestKeyframe => 16 | kSendInputEvent => 17 | kListDisplays => 18
  | kMyId => 110 | kSessionState => 111 | kIncomingRequest => 112
  | kCapabilityGrant => 113 | kFingerprintAlert => 114 | kDisplayList => 115
  | IPC_kInputEvent => 116 | kError => 199
  end.

(** ** Fragmentation *)

Lemma fragmentCount_exact total budget :
  0 < budget → 0 < total → total + budget - 1 < 2 ^ 32 → (total - 1) / budget < 2 ^ 16 - 1 →
  fragmentCount total budget = (total - 1) / budget + 1.
Proof.
  intros Hb Ht Hs Hn. unfold fragmentCount.
  rewrite (proj2 (Z.eqb_neq _ _)), (proj2 (Z.eqb_neq _ _)) by lia.
  assert (to_u32 (to_u32 (total + budget) - 1) = total - 1 + 1 * budget) as ->.
  { unfold wrap. rewrite Zminus_mod_idemp_l, Z.mod_small by lia. lia. }
  rewrite Z.div_add by lia. apply wrap_id.
  pose proof (Z.div_pos (total - 1) budget). unfold fits. lia.
Qed.

(** Fragmentation: for a non-empty message and a
    positive budget such that neither the 32-bit sum nor the 16-bit result
    overflows, [fragmentCount] is the least number of frames of [budget] bytes
    that hold the message; with the default budget this covers every message up
    to 65535 full frames. *)
Theorem fragment_count_exact total budget :
  0 < budget → 0 < total → total + budget - 1 < 2 ^ 32 → total ≤ 65535 * budget →
  let n := fragmentCount total budget in
  1 ≤ n ≤ 65535 ∧ total ≤ n * budget ∧ (n - 1) * budget < total.
Proof.
  intros Hb Ht Hs Hn n. unfold n.
  assert ((total - 1) / budget < 2 ^ 16 - 1) by (apply Z.div_lt_upper_bound; lia).
  rewrite fragmentCount_exact by done. pose proof (Z.div_pos (total - 1) budget).
  pose proof (Z.div_mod (total - 1) budget). pose proof (Z.mod_pos_bound (total - 1) budget).
  lia.
Qed.

(** Fragmentation at the top of the range: when
    [total + budget - 1] overflows 32 bits the count is 0 for every budget the
    sum can be computed with, so a message of more than 2^32 - budget bytes is
    reported to need no frame at all. *)
Theorem fragment_count_wraps total budget :
  0 < budget → total < 2 ^ 32 → budget < 2 ^ 32 → 2 ^ 32 < total + budget →
  fragmentCount total budget = 0.
Proof.
  intros Hb Ht Hb' Hs. unfold fragmentCount.
  rewrite (proj2 (Z.eqb_neq _ _)), (proj2 (Z.eqb_neq _ _)) by lia.
  assert (to_u32 (to_u32 (total + budget) - 1) = total + budget - 1 - 2 ^ 32) as ->.
  { unfold wrap. rewrite Zminus_mod_idemp_l. symmetry.
    apply (Z.mod_unique _ _ 1); lia. }
  rewrite Z.div_small by lia. done.
Qed.

(** A frame that uses the whole payload budget fits: with
    header and AEAD tag it is exactly the path's Noise message size, for every
    path that has room for one payload byte; smaller paths get budget 0, for
    which [fragmentCount] answers 0. *)
Theorem payload_budget_fits mtu total :
  let b := usablePayloadBudget mtu in
  (34 < mtu → b + sizeof_FrameHeader + kAeadTagBytes = mtu ∧ 0 < b) ∧
  (mtu ≤ 34 → b = 0 ∧ fragmentCount total b = 0).
Proof.
  unfold usablePayloadBudget. change (to_u32 (sizeof_FrameHeader + kAeadTagBytes)) with 34.
  destruct (Z.ltb_spec 34 mtu); split; intros; try lia.
  - split; [|lia]. change sizeof_FrameHeader with 18. change kAeadTagBytes with 16. lia.
  - done.
Qed.

(** ** Codec tiers *)

Abbreviation tier := CodecTier_to_u8.

Lemma tier_inj t t' : tier t = tier t' → t = t'.
Proof. by destruct t, t'. Qed.

Lemma tier_pos t : t ≠ kNone ↔ 0 < tier t.
Proof. destruct t; simpl; split; (done || lia). Qed.

(** [best] is the greatest of [kNone] and the non-[kNone] tiers satisfying [P]. *)
Definition greatest (P : CodecTier → Prop) (best : CodecTier) : Prop :=
  (best = kNone ∨ P best) ∧ ∀ t, t ≠ kNone → P t → tier t ≤ tier best.

Lemma greatest_ext P Q best : (∀ t, P t ↔ Q t) → greatest P best → greatest Q best.
Proof. unfold greatest. naive_solver. Qed.

Lemma greatest_unique P b b' : greatest P b → greatest P b' → b = b'.
Proof.
  intros [Hb Hm] [Hb' Hm']. apply tier_inj.
  destruct (decide (b = kNone)) as [->|], (decide (b' = kNone)) as [->|]; try done.
  - destruct Hb' as [|Hb']; [done|]. pose proof (Hm b' ltac:(done) Hb').
    pose proof (proj1 (tier_pos b') ltac:(done)). simpl in *. lia.
  - destruct Hb as [|Hb]; [done|]. pose proof (Hm' b ltac:(done) Hb).
    pose proof (proj1 (tier_pos b) ltac:(done)). simpl in *. lia.
  - destruct Hb as [|Hb], Hb' as [|Hb']; try done.
    pose proof (Hm b' ltac:(done) Hb'). pose proof (Hm' b ltac:(done) Hb). lia.
Qed.

(** One candidate more. *)
Lemma greatest_step (P : CodecTier → Prop) best l (b : bool) :
  l ≠ kNone → greatest P best →
  greatest (λ t, P t ∨ (b = true ∧ t = l)) (if b && (tier best <? tier l) then l else best).
Proof.
  intros Hl [Hb Hm]. destruct b; simpl.
  - destruct (Z.ltb_spec (tier best) (tier l)).
    + split; [auto|]. intros t Ht [HP|[_ ->]]; [|lia]. specialize (Hm t Ht HP). lia.
    + split; [naive_solver|]. intros t Ht [HP|[_ ->]]; auto.
  - split; [naive_solver|]. intros t Ht [HP|[? _]]; auto; done.
Qed.

Lemma negotiate_inner_greatest P l remote best :
  l ≠ kNone → greatest P best →
  greatest (λ t, P t ∨ (t = l ∧ t ∈ remote)) (negotiate_inner l remote best).
Proof.
  intros Hl. revert P best. induction remote as [|r remote IH]; intros P best H; simpl.
  - eapply greatest_ext; [|done]. set_solver.
  - eapply greatest_ext; [|apply IH, (greatest_step P best l (bool_decide (l = r)) Hl H)].
    intros t. simpl. rewrite bool_decide_eq_true. set_solver.
Qed.

Lemma negotiateCodec_greatest local remote :
  greatest (λ t, t ∈ local ∧ t ∈ remote) (negotiateCodec local remote).
Proof.
  unfold negotiateCodec.
  assert (∀ P best, greatest P best → greatest (λ t, P t ∨ (t ∈ local ∧ t ∈ remote))
    (fold_left (λ best l, if bool_decide (l = kNone) then best
                          else negotiate_inner l remote best) local best)) as H.
  { induction local as [|l local IH]; intros P best H; simpl.
    - eapply greatest_ext; [|done]. set_solver.
    - case_bool_decide as Hl.
      + apply IH in H. destruct H as [H1 H2]. split; [set_solver|].
        intros t Ht Hp. apply H2; set_solver.
      + eapply greatest_ext; [|apply IH, (negotiate_inner_greatest P l remote best Hl H)].
        intros t. simpl. set_solver. }
  eapply greatest_ext; [|apply (H (λ _, False))].
  - naive_solver.
  - split; [by left|done].
Qed.

(** Codec negotiation: the result is the greatest tier
    both ends list ([kNone] when they list none in common), so it depends only on
    the sets of tiers (not on order or duplicates), is the same from either end,
    and is never [kNone] for two ends that offer the floor. *)
Theorem tier_negotiation_spec local remote :
  let best := negotiateCodec local remote in
  (∀ t, t ∈ local → t ∈ remote → tier t ≤ tier best) ∧
  (best ≠ kNone → best ∈ local ∧ best ∈ remote) ∧
  negotiateCodec remote local = best ∧
  (∀ local' remote', (∀ t, t ∈ local' ↔ t ∈ local) → (∀ t, t ∈ remote' ↔ t ∈ remote) →
    negotiateCodec local' remote' = best) ∧
  (kFloorTier ∈ local → kFloorTier ∈ remote → tier kFloorTier ≤ tier best).
Proof.
  intros best. destruct (negotiateCodec_greatest local remote) as [Hb Hm]. fold best in Hb, Hm.
  split_and!.
  - intros t Hl Hr. destruct (decide (t = kNone)) as [->|]; [|by apply Hm].
    simpl. destruct best; simpl; lia.
  - naive_solver.
  - apply (greatest_unique (λ t, t ∈ local ∧ t ∈ remote)); [|done].
    eapply greatest_ext; [|apply negotiateCodec_greatest]. naive_solver.
  - intros local' remote' Hl Hr.
    apply (greatest_unique (λ t, t ∈ local ∧ t ∈ remote)); [|done].
    eapply greatest_ext; [|apply negotiateCodec_greatest]. naive_solver.
  - intros. by apply Hm.
Qed.

(** ** Capability sets *)

Lemma has_testbit bits c :
  has bits c = Z.testbit bits (Z.log2 (Capability_to_u32 c)).
Proof.
  unfold has. assert (Capability_to_u32 c = 2 ^ Z.log2 (Capability_to_u32 c)) as Hc
    by by destruct c.
  assert (0 ≤ Z.log2 (Capability_to_u32 c)) as Hk by apply Z.log2_nonneg.
  revert Hc Hk. generalize (Z.log2 (Capability_to_u32 c)) as k. intros k -> Hk.
  destruct (Z.eqb_spec (Z.land bits (2 ^ k)) 0) as [E|E]; simpl.
  - apply (f_equal (λ z, Z.testbit z k)) in E. rewrite Z.land_spec, Z.bits_0 in E.
    rewrite Z.pow2_bits_true, andb_true_r in E by done. done.
  - destruct (Z.testbit bits k) eqn:Eb; [done|]. destruct E. apply Z.bits_inj'. intros n Hn.
    rewrite Z.land_spec, Z.bits_0. destruct (decide (n = k)) as [->|]; [by rewrite Eb|].
    rewrite Z.pow2_bits_false by lia. apply andb_false_r.
Qed.

(** The capability bit set behaves as a set of the seven
    capabilities: a new set has none, [grant] and [revoke] decide exactly the
    capability they name and keep every other one, and both stay in 32 bits. *)
Theorem capability_set_laws bits c c' :
  fits 32 bits →
  has kNoCapabilities c = false ∧
  has (grant bits c) c' = bool_decide (c = c') || has bits c' ∧
  has (revoke bits c) c' = negb (bool_decide (c = c')) && has bits c' ∧
  fits 32 (grant bits c) ∧ fits 32 (revoke bits c).
Proof.
  intros Hf. rewrite !has_testbit. unfold grant, revoke. rewrite Z.lor_spec, Z.land_spec.
  split_and!.
  - by rewrite Z.bits_0.
  - rewrite orb_comm. f_equal. by destruct c, c'.
  - rewrite andb_comm. f_equal. by destruct c, c'.
  - apply fits_lor; [lia|done|by destruct c].
  - apply fits_land_r; [lia|]. by apply wrap_fits.
Qed.

(** ** Witnesses *)

Lemma fragment_count_exact_witness :
  let n := fragmentCount 204800 (usablePayloadBudget kNoiseMessageMax) in
  1 ≤ n ≤ 65535 ∧ 204800 ≤ n * 65501 ∧ (n - 1) * 65501 < 204800.
Proof. apply (fragment_count_exact 204800 65501); lia. Defined.

Lemma fragment_count_wraps_witness : fragmentCount 4294967295 65501 = 0.
Proof. apply (fragment_count_wraps 4294967295 65501); lia. Defined.

Lemma capability_set_laws_witness :
  has (grant 4 kAudioCap) kClipboardSync = true ∧ has (revoke 4 kClipboardSync) kAudioCap = false.
Proof.
  destruct (capability_set_laws 4 kAudioCap kClipboardSync) as (_ & H1 & _); [done|].
  destruct (capability_set_laws 4 kClipboardSync kAudioCap) as (_ & _ & H2 & _); [done|].
  by rewrite H1, H2.
Defined.
