(* ===== verification/Codec.v ===== *)
(** * Codec negotiation and the stub codec ([core/codec/codec.h],
    [core/codec/codec_stub.cpp])

    [negotiateCodec] is production logic; the stub encoder puts the frame's CPU
    pixels behind a 32-byte header and the stub decoder takes them out again.
    The header is copied with [memcpy]; the model fixes the little-endian byte
    order of the supported hosts.  The packet or frame handed to the callback is
    returned; the callback runs after the encoder's flags are updated, and a
    callback that calls back into the encoder is a later call of the sequence. *)

From S2P Require Import Prelude Types.

(** ** Negotiation *)

Inductive Codec := H264 | HEVC | AV1.

#[export] Instance Codec_eq_dec : EqDecision Codec.
Proof. solve_decision. Defined.

Definition Codec_toString (c : Codec) : string :=
  match c with H264 => "H264" | HEVC => "HEVC" | AV1 => "AV1" end.

Inductive ChromaFormat := Yuv420 | Yuv444.
Inductive RateControl := Cbr | CappedVbr.

Record CodecCapabilities := {
  h264_encode : bool;
  h264_decode : bool;
  hevc_encode : bool;
  hevc_decode : bool;
  hevc_444_encode : bool;
  hevc_444_decode : bool;
  av1_encode : bool;
  av1_decode : bool;
}.

Record NegotiatedCodec := { ok : bool; codec : Codec; chroma : ChromaFormat }.

Definition negotiateCodec (local remote : CodecCapabilities) (localIsSender : bool)
    : NegotiatedCodec :=
  let enc := if localIsSender then local else remote in
  let dec := if localIsSender then remote else local in
  if av1_encode enc && av1_decode dec then
    {| ok := true; codec := AV1; chroma := Yuv420 |}
  else if hevc_encode enc && hevc_decode dec then
    let fourfourfour := hevc_444_encode enc && hevc_444_decode dec in
    {| ok := true; codec := HEVC; chroma := if fourfourfour then Yuv444 else Yuv420 |}
  else if h264_encode enc && h264_decode dec then
    {| ok := true; codec := H264; chroma := Yuv420 |}
  else {| ok := false; codec := H264; chroma := Yuv420 |}.

Definition localCodecCapabilities : CodecCapabilities := {|
  h264_encode := true; h264_decode := true; hevc_encode := true; hevc_decode := true;
  hevc_444_encode := true; hevc_444_decode := true; av1_encode := true; av1_decode := true |}.

(** ** The stub packet header *)

Definition kStubMagic : Z := 0x52454442.

Record StubHeader := {
  magic : Z;
  hdr_width : Z;
  hdr_height : Z;
  hdr_format : Z;
  hdr_timestamp_us : Z;
  hdr_keyframe : Z;
  payload_len : Z;
}.

Definition sizeof_StubHeader : nat := 32.

(** The object representation of the struct: no padding, the 64-bit field is at
    offset 16. *)
Definition StubHeader_bytes (h : StubHeader) : list Z :=
  le_bytes 4 (magic h) ++ le_bytes 4 (hdr_width h) ++ le_bytes 4 (hdr_height h) ++
  le_bytes 4 (hdr_format h) ++ le_bytes 8 (hdr_timestamp_us h) ++
  le_bytes 4 (hdr_keyframe h) ++ le_bytes 4 (payload_len h).

(** [memcpy(&hdr, data, sizeof hdr)]. *)
Definition StubHeader_read (bs : list Z) : StubHeader := {|
  magic := le_value (take 4 bs);
  hdr_width := le_value (take 4 (drop 4 bs));
  hdr_height := le_value (take 4 (drop 8 bs));
  hdr_format := le_value (take 4 (drop 12 bs));
  hdr_timestamp_us := le_value (take 8 (drop 16 bs));
  hdr_keyframe := le_value (take 4 (drop 24 bs));
  payload_len := le_value (take 4 (drop 28 bs));
|}.

(** ** [StubEncoder] *)

Record EncoderConfig := {
  cfg_codec : Codec;
  resolution : Size;
  cfg_chroma : ChromaFormat;
  target_bitrate_kbps : Z;
  max_bitrate_kbps : Z;
  max_fps : Z;
  rate_control : RateControl;
  low_latency : bool;
  vbv_max_ms : Z;
  input_format : PixelFormat;
}.

Definition EncoderConfig_init : EncoderConfig := {|
  cfg_codec := H264;
  resolution := {| width := 0; height := 0 |};
  cfg_chroma := Yuv420;
  target_bitrate_kbps := 8000;
  max_bitrate_kbps := 0;
  max_fps := 60;
  rate_control := CappedVbr;
  low_latency := true;
  vbv_max_ms := 250;
  input_format := NV12;
|}.

Record StubEncoder := {
  codec_ : Codec;
  config_ : EncoderConfig;
  packet_cb_ : bool;
  force_keyframe_ : bool;
  first_frame_ : bool;
}.

Definition createVideoEncoder (c : Codec) : StubEncoder := {|
  codec_ := c; config_ := EncoderConfig_init; packet_cb_ := false;
  force_keyframe_ := false; first_frame_ := true |}.

Definition configure (config : EncoderConfig) (e : StubEncoder) : Status * StubEncoder :=
  (success, {| codec_ := cfg_codec config; config_ := config; packet_cb_ := packet_cb_ e;
               force_keyframe_ := force_keyframe_ e; first_frame_ := first_frame_ e |}).

Definition setPacketCallback (cb : bool) (e : StubEncoder) : StubEncoder :=
  {| codec_ := codec_ e; config_ := config_ e; packet_cb_ := cb;
     force_keyframe_ := force_keyframe_ e; first_frame_ := first_frame_ e |}.

Definition set_flags (force first : bool) (e : StubEncoder) : StubEncoder :=
  {| codec_ := codec_ e; config_ := config_ e; packet_cb_ := packet_cb_ e;
     force_keyframe_ := force; first_frame_ := first |}.

(** The bytes and flags of the packet [encode] emits. *)
Definition encode_packet (frame : VideoFrame) (key : bool) : EncodedPacket :=
  let hdr := {|
    magic := kStubMagic;
    hdr_width := width (frame_size frame);
    hdr_height := height (frame_size frame);
    hdr_format := PixelFormat_to_u32 (format frame);
    hdr_timestamp_us := timestamp_us frame;
    hdr_keyframe := if key then 1 else 0;
    payload_len := to_u32 (Z.of_nat (length (cpu_pixels frame)));
  |} in
  {| data := StubHeader_bytes hdr ++ cpu_pixels frame;
     pkt_timestamp_us := timestamp_us frame;
     keyframe := key |}.

Definition encode (frame : VideoFrame) (e : StubEncoder)
    : Status * option EncodedPacket * StubEncoder :=
  if negb (packet_cb_ e) then
    (error InvalidArgument "no packet callback installed", None, e)
  else if bool_decide (cpu_pixels frame = []) && bool_decide (native_handle frame ≠ None) then
    (error Unsupported "stub encoder requires CPU pixels", None, e)
  else
    let key := force_keyframe_ e || first_frame_ e in
    (success, Some (encode_packet frame key), set_flags false false e).

Definition requestKeyframe (e : StubEncoder) : StubEncoder := set_flags true (first_frame_ e) e.
Definition forceIntraRefresh (e : StubEncoder) : StubEncoder := set_flags true (first_frame_ e) e.

(** ** [StubDecoder] *)

Record StubDecoder := { dec_codec_ : Codec; frame_cb_ : bool }.

Definition createVideoDecoder (c : Codec) : StubDecoder :=
  {| dec_codec_ := c; frame_cb_ := false |}.
Definition dec_configure (c : Codec) (d : StubDecoder) : Status * StubDecoder :=
  (success, {| dec_codec_ := c; frame_cb_ := frame_cb_ d |}).
Definition setFrameCallback (cb : bool) (d : StubDecoder) : StubDecoder :=
  {| dec_codec_ := dec_codec_ d; frame_cb_ := cb |}.

Definition decode (packet : EncodedPacket) (d : StubDecoder) : Status * option VideoFrame :=
  if negb (frame_cb_ d) then
    (error InvalidArgument "no frame callback installed", None)
  else if (length (data packet) <? sizeof_StubHeader)%nat then
    (error InvalidArgument "short packet", None)
  else
    let hdr := StubHeader_read (take sizeof_StubHeader (data packet)) in
    if negb (magic hdr =? kStubMagic) then
      (error InvalidArgument "bad stub magic", None)
    else
      let expected := Z.of_nat sizeof_StubHeader + payload_len hdr in
      if Z.of_nat (length (data packet)) <? expected then
        (error InvalidArgument "truncated stub payload", None)
      else
        (success, Some {|
           frame_size := {| width := hdr_width hdr; height := hdr_height hdr |};
           format := PixelFormat_of_u32 (hdr_format hdr);
           timestamp_us := hdr_timestamp_us hdr;
           native_handle := None;
           cpu_pixels := take (Z.to_nat (payload_len hdr)) (drop sizeof_StubHeader (data packet));
           dirty_rects := [];
           is_idle := false |}).

(** ** The header round trip *)

Record StubHeader_wf (h : StubHeader) : Prop := {
  wf_magic : fits 32 (magic h);
  wf_width : fits 32 (hdr_width h);
  wf_height : fits 32 (hdr_height h);
  wf_format : fits 32 (hdr_format h);
  wf_timestamp : fits 64 (hdr_timestamp_us h);
  wf_keyframe : fits 32 (hdr_keyframe h);
  wf_payload : fits 32 (payload_len h);
}.

Lemma length_StubHeader_bytes h : length (StubHeader_bytes h) = sizeof_StubHeader.
Proof. done. Qed.

Lemma StubHeader_read_bytes h : StubHeader_wf h → StubHeader_read (StubHeader_bytes h) = h.
Proof.
  intros []. destruct h as [m w he f t k p]. unfold StubHeader_read.
  change (take 4 (StubHeader_bytes _)) with (le_bytes 4 m).
  change (take 4 (drop 4 _)) with (le_bytes 4 w).
  change (take 4 (drop 8 _)) with (le_bytes 4 he).
  change (take 4 (drop 12 _)) with (le_bytes 4 f).
  change (take 8 (drop 16 _)) with (le_bytes 8 t).
  change (take 4 (drop 24 _)) with (le_bytes 4 k).
  change (take 4 (drop 28 _)) with (le_bytes 4 p).
  rewrite !le_value_le_bytes. f_equal; by apply wrap_id.
Qed.

(** What the stub codec carries of a frame, given how many pixel bytes arrive. *)
Definition carried (frame : VideoFrame) (n : Z) : VideoFrame := {|
  frame_size := frame_size frame;
  format := format frame;
  timestamp_us := timestamp_us frame;
  native_handle := None;
  cpu_pixels := take (Z.to_nat n) (cpu_pixels frame);
  dirty_rects := [];
  is_idle := false;
|}.

(** A frame as the C++ type holds it. *)
Record VideoFrame_wf (f : VideoFrame) : Prop := {
  wf_fwidth : fits 32 (width (frame_size f));
  wf_fheight : fits 32 (height (frame_size f));
  wf_fformat : PixelFormat_wf (format f);
  wf_ftimestamp : fits 64 (timestamp_us f);
}.

(** The decoder gets out what the encoder put in. *)
Lemma decode_encode_packet f key d :
  VideoFrame_wf f → frame_cb_ d = true →
  decode (encode_packet f key) d =
    (success, Some (carried f (to_u32 (Z.of_nat (length (cpu_pixels f)))))).
Proof.
  intros [Hw Hh Hf Ht] Hcb. set (n := Z.of_nat (length (cpu_pixels f))).
  assert (0 ≤ to_u32 n ≤ n) as Hn by (apply wrap_le; unfold n; lia).
  unfold decode. rewrite Hcb. cbn [negb data encode_packet].
  rewrite (proj2 (Nat.ltb_ge _ _)) by (rewrite length_app, length_StubHeader_bytes; lia).
  rewrite take_app_exact, drop_app_exact by apply length_StubHeader_bytes.
  rewrite StubHeader_read_bytes.
  2: { split; simpl; try done; try (by destruct key); auto with redesk; by apply wrap_fits. }
  cbn [magic payload_len]. rewrite Z.eqb_refl. cbn [negb].
  rewrite (proj2 (Z.ltb_ge _ _)).
  2: { rewrite length_app, length_StubHeader_bytes. unfold n in *. lia. }
  unfold carried. simpl. rewrite PixelFormat_of_to_u32 by done. fold n.
  by destruct f as [[] ? ? ? ? ? ?].
Qed.

(** Below 4 GiB no pixel is lost. *)
Lemma carried_pixels f :
  Z.of_nat (length (cpu_pixels f)) < 2 ^ 32 →
  cpu_pixels (carried f (to_u32 (Z.of_nat (length (cpu_pixels f))))) = cpu_pixels f.
Proof. intros Hlt. simpl. apply take_ge. rewrite wrap_id by (unfold fits; lia). lia. Qed.

(** The stub codec is a reversible pass-through: a
    decoder with a callback accepts what [encode] emits and delivers the frame's
    size, format, timestamp and pixels; of the pixels it delivers the first
    [length mod 2^32] bytes, hence all of them for every frame below 4 GiB. *)
Theorem stub_codec_roundtrip f key d :
  VideoFrame_wf f → frame_cb_ d = true →
  decode (encode_packet f key) d =
    (success, Some (carried f (to_u32 (Z.of_nat (length (cpu_pixels f)))))) ∧
  (Z.of_nat (length (cpu_pixels f)) < 2 ^ 32 →
   cpu_pixels (carried f (to_u32 (Z.of_nat (length (cpu_pixels f))))) = cpu_pixels f).
Proof. intros. split; [by apply decode_encode_packet|apply carried_pixels]. Qed.

(** The bytes of a packet carry the frame [f]: a header with the magic number, its
    pixels, as many as the header announces, and perhaps more bytes; size, format
    and timestamp are those of the header. *)
Definition carries (bs : list Z) (f : VideoFrame) : Prop :=
  ∃ h rest, StubHeader_wf h ∧ magic h = kStubMagic ∧
    payload_len h = Z.of_nat (length (cpu_pixels f)) ∧
    bs = StubHeader_bytes h ++ cpu_pixels f ++ rest ∧
    f = {| frame_size := {| width := hdr_width h; height := hdr_height h |};
           format := PixelFormat_of_u32 (hdr_format h);
           timestamp_us := hdr_timestamp_us h; native_handle := None;
           cpu_pixels := cpu_pixels f; dirty_rects := []; is_idle := false |}.

(** Why bytes are refused. *)
Definition refusal (bs : list Z) (msg : string) : Prop :=
  let word n := le_value (take 4 (drop n bs)) in
  if (length bs <? 32)%nat then msg = "short packet"
  else if negb (word 0%nat =? 0x52454442) then msg = "bad stub magic"
  else Z.of_nat (length bs) < 32 + word 28%nat ∧ msg = "truncated stub payload".

Lemma StubHeader_read_wf bs : bytes_ok bs → length bs = sizeof_StubHeader →
  StubHeader_wf (StubHeader_read bs).
Proof.
  intros Hb Hl. unfold sizeof_StubHeader in Hl.
  assert (∀ n k, (k + n ≤ 32)%nat →
    fits (8 * Z.of_nat n) (le_value (take n (drop k bs)))) as Hf.
  { intros n k Hk. replace (Z.of_nat n) with (Z.of_nat (length (take n (drop k bs))))
      by (rewrite length_take, length_drop; lia).
    by apply le_value_bounds, Forall_take, Forall_drop. }
  split; first [apply (Hf 4%nat 0%nat)|apply (Hf 4%nat)|apply (Hf 8%nat)]; lia.
Qed.

Lemma StubHeader_bytes_read bs : bytes_ok bs → length bs = sizeof_StubHeader →
  StubHeader_bytes (StubHeader_read bs) = bs.
Proof.
  intros Hb Hl. unfold sizeof_StubHeader in Hl.
  assert (∀ n k, (k + n ≤ 32)%nat →
    le_bytes n (le_value (take n (drop k bs))) = take n (drop k bs)) as Hle.
  { intros n k Hk. pose proof (le_bytes_le_value (take n (drop k bs))) as H.
    rewrite length_take, length_drop in H. replace (n `min` _)%nat with n in H by lia.
    by apply H, Forall_take, Forall_drop. }
  unfold StubHeader_bytes, StubHeader_read.
  cbn [magic hdr_width hdr_height hdr_format hdr_timestamp_us hdr_keyframe payload_len].
  change (take 4 bs) with (take 4 (drop 0 bs)). rewrite !Hle by lia.
  do 32 (destruct bs as [|? bs]; [done|]). by destruct bs.
Qed.

(** Bytes that carry a frame are accepted. *)
Lemma decode_carries p f d :
  frame_cb_ d = true → carries (data p) f → decode p d = (success, Some f).
Proof.
  intros Hcb (h & rest & Hwf & Hm & Hn & Hp & Hf). unfold decode. rewrite Hcb, Hp. cbn [negb].
  rewrite (proj2 (Nat.ltb_ge _ _)) by (rewrite length_app, length_StubHeader_bytes; lia).
  rewrite take_app_exact, drop_app_exact by apply length_StubHeader_bytes.
  rewrite StubHeader_read_bytes, Hm, Z.eqb_refl, Hn by done. cbn [negb].
  rewrite (proj2 (Z.ltb_ge _ _)) by (rewrite !length_app, length_StubHeader_bytes; lia).
  rewrite Nat2Z.id, take_app_length. by rewrite Hf at 2.
Qed.

(** What is accepted carries the frame that is delivered. *)
Lemma decode_accepts p d st f :
  bytes_ok (data p) → frame_cb_ d = true → decode p d = (st, Some f) →
  st = success ∧ carries (data p) f.
Proof.
  intros Hb Hcb E.
  unfold decode in E. rewrite Hcb in E. cbn [negb] in E.
  destruct (Nat.ltb_spec (length (data p)) sizeof_StubHeader) as [|Hl]; [done|].
  set (bs := take sizeof_StubHeader (data p)) in *.
  assert (bytes_ok bs ∧ length bs = sizeof_StubHeader) as [Hbs Hbl]
    by (unfold bs; split; [by apply Forall_take|rewrite length_take; lia]).
  pose proof (StubHeader_read_wf bs Hbs Hbl) as Hwf.
  pose proof (StubHeader_bytes_read bs Hbs Hbl) as Hrd.
  set (h := StubHeader_read bs) in *. clearbody h.
  destruct (Z.eqb_spec (magic h) kStubMagic) as [Hm|]; [|done]. cbn [negb] in E.
  destruct (Z.ltb_spec (Z.of_nat (length (data p)))
    (Z.of_nat sizeof_StubHeader + payload_len h)) as [|Hn]; [done|].
  injection E as <- <-. split; [done|].
  exists h, (drop (Z.to_nat (payload_len h)) (drop sizeof_StubHeader (data p))).
  destruct (wf_payload h Hwf) as [Hp0 _]. cbn [cpu_pixels]. split_and!; try done.
  + rewrite length_take, length_drop. lia.
  + rewrite Hrd. unfold bs. by rewrite !take_drop.
Qed.

(** The first check that fails names the reason. *)
Lemma decode_refuses p d st :
  frame_cb_ d = true → decode p d = (st, None) →
  ∃ msg, refusal (data p) msg ∧ st = error InvalidArgument msg.
Proof.
  intros Hcb E.
  unfold decode in E. rewrite Hcb in E. cbn [negb] in E. unfold refusal.
  change (32)%nat with sizeof_StubHeader.
  destruct (Nat.ltb_spec (length (data p)) sizeof_StubHeader) as [|Hl].
  { injection E as <-. by eexists. }
  assert (∀ n, (n + 4 ≤ 32)%nat →
    take 4 (drop n (take sizeof_StubHeader (data p))) = take 4 (drop n (data p))) as Hw.
  { intros n Hn. rewrite skipn_firstn_comm, take_take. f_equal. unfold sizeof_StubHeader. lia. }
  cbn [magic payload_len StubHeader_read] in E. rewrite (Hw 28%nat) in E by lia.
  pose proof (Hw 0%nat ltac:(lia)) as Hw0. rewrite !drop_0 in Hw0. rewrite Hw0 in E.
  rewrite drop_0. unfold kStubMagic in E.
  destruct (negb _); [injection E as <-; by eexists|].
  destruct (Z.ltb_spec (Z.of_nat (length (data p)))
    (Z.of_nat sizeof_StubHeader + le_value (take 4 (drop 28 (data p))))) as [Hn|]; [|done].
  injection E as <-. by eexists.
Qed.

(** C38. The decoder on arbitrary bytes: with a callback it accepts
    exactly the packets whose bytes are a header with the magic number, followed
    by at least the bytes the header announces, and delivers the frame with the
    header's size, format and timestamp and exactly those bytes as pixels; every
    other packet is refused with the message of the first check that fails, and
    delivers nothing. *)
Theorem decode_total p d :
  bytes_ok (data p) →
  match decode p d with
  | (st, Some f) => frame_cb_ d = true ∧ st = success ∧ carries (data p) f
  | (st, None) =>
      (frame_cb_ d = false ∧ st = error InvalidArgument "no frame callback installed") ∨
      (frame_cb_ d = true ∧ (∀ f, ¬ carries (data p) f) ∧
       ∃ msg, refusal (data p) msg ∧ st = error InvalidArgument msg)
  end.
Proof.
  intros Hb. destruct (frame_cb_ d) eqn:Hcb; [|unfold decode; rewrite Hcb; by left].
  destruct (decode p d) as [st [f|]] eqn:E.
  - split; [done|]. by eapply decode_accepts.
  - right. split; [done|]. split; [|by eapply decode_refuses].
    intros f Hf. by rewrite (decode_carries p f d Hcb Hf) in E.
Qed.

(** ** Keyframes *)

Inductive Op :=
| OpConfigure (config : EncoderConfig)
| OpSetPacketCallback (cb : bool)
| OpEncode (frame : VideoFrame)
| OpRequestKeyframe
| OpForceIntraRefresh.

Definition step (o : Op) (e : StubEncoder) : StubEncoder :=
  match o with
  | OpConfigure c => (configure c e).2
  | OpSetPacketCallback cb => setPacketCallback cb e
  | OpEncode f => (encode f e).2
  | OpRequestKeyframe => requestKeyframe e
  | OpForceIntraRefresh => forceIntraRefresh e
  end.

Definition run (ops : list Op) (e : StubEncoder) : StubEncoder :=
  fold_left (λ e o, step o e) ops e.

(** [encode] emits: it is given pixels, or neither pixels nor a GPU surface. *)
Definition encodable (f : VideoFrame) : bool :=
  negb (bool_decide (cpu_pixels f = []) && bool_decide (native_handle f ≠ None)).

(** Read backwards, the calls made so far: is the last callback installed? *)
Fixpoint cb_installed (rops : list Op) : bool :=
  match rops with
  | [] => false
  | OpSetPacketCallback cb :: _ => cb
  | _ :: rops => cb_installed rops
  end.

(** Is the next packet due to be a keyframe: nothing was emitted yet, or a
    keyframe was asked for since the last packet. *)
Fixpoint keyframe_due (rops : list Op) : bool :=
  match rops with
  | [] => true
  | (OpRequestKeyframe | OpForceIntraRefresh) :: _ => true
  | OpEncode f :: rops => if cb_installed rops && encodable f then false else keyframe_due rops
  | _ :: rops => keyframe_due rops
  end.

Lemma encoder_flags c ops :
  let e := run ops (createVideoEncoder c) in
  packet_cb_ e = cb_installed (rev ops) ∧
  force_keyframe_ e || first_frame_ e = keyframe_due (rev ops).
Proof.
  induction ops as [|o ops [IHc IHk]] using rev_ind; [done|].
  unfold run in *. rewrite fold_left_app, rev_app_distr. simpl.
  destruct o as [cf|cb|f| |]; simpl; auto.
  unfold encode, encodable. rewrite IHc. destruct (cb_installed (rev ops)) eqn:E; simpl; [|auto].
  case_match; simpl; auto.
Qed.

(** Keyframes: whatever calls came before, a frame that a
    callback is installed for and that is encodable is emitted as exactly one
    packet, which is marked a keyframe exactly when no packet was emitted before
    it or a keyframe or intra refresh was requested since the last one; any
    other frame is refused, emits nothing and leaves a pending request pending. *)
Theorem keyframe_when_due c ops f :
  let e := run ops (createVideoEncoder c) in
  if cb_installed (rev ops) && encodable f then
    encode f e = (success, Some (encode_packet f (keyframe_due (rev ops))),
                  set_flags false false e)
  else ∃ st, Status_ok st = false ∧ encode f e = (st, None, e).
Proof.
  intros e. destruct (encoder_flags c ops) as [Hcb Hkf]. fold e in Hcb, Hkf.
  unfold encode, encodable. rewrite <-Hcb, <-Hkf.
  destruct (packet_cb_ e); simpl; [|exists_refl].
  destruct (_ && _); simpl; [exists_refl|done].
Qed.

(** ** Negotiation *)

(** Both ends declare what the choice needs: the sender encodes it, the receiver
    decodes it. *)
Definition supports (enc dec : CodecCapabilities) (c : Codec) (ch : ChromaFormat) : bool :=
  match c, ch with
  | H264, Yuv420 => h264_encode enc && h264_decode dec
  | H264, Yuv444 => false
  | HEVC, Yuv420 => hevc_encode enc && hevc_decode dec
  | HEVC, Yuv444 => hevc_encode enc && hevc_decode dec &&
                    (hevc_444_encode enc && hevc_444_decode dec)
  | AV1, Yuv420 => av1_encode enc && av1_decode dec
  | AV1, Yuv444 => false
  end.

(** The preference order the header states. *)
Definition rank (c : Codec) (ch : ChromaFormat) : Z :=
  match c, ch with
  | H264, _ => 1
  | HEVC, Yuv420 => 2
  | HEVC, Yuv444 => 3
  | AV1, _ => 4
  end.

(** Capability negotiation: the answer is usable in
    the given direction and of the highest rank among the usable ones, [ok] is
    false exactly when nothing is usable (then not even the H.264 floor is
    common), and both ends compute the same answer. *)
Theorem codec_negotiation_spec local remote sender :
  let enc := if (sender : bool) then local else remote in
  let dec := if sender then remote else local in
  let n := negotiateCodec local remote sender in
  (ok n = true → supports enc dec (codec n) (chroma n) = true) ∧
  (∀ c ch, supports enc dec c ch = true → ok n = true ∧ rank c ch ≤ rank (codec n) (chroma n)) ∧
  negotiateCodec remote local (negb sender) = n.
Proof.
  intros enc dec n.
  assert (negotiateCodec remote local (negb sender) = n) as Hsym by by destruct sender.
  assert (n = negotiateCodec enc dec true) as Hn by by destruct sender.
  split_and!; [| |done]; rewrite Hn; clear Hn Hsym n; unfold negotiateCodec, supports;
    clearbody enc dec; clear local remote sender.
  - by repeat (case_match; simpl).
  - destruct (av1_encode enc && av1_decode dec), (hevc_encode enc && hevc_decode dec),
      (hevc_444_encode enc && hevc_444_decode dec), (h264_encode enc && h264_decode dec);
      intros [] []; simpl; intros; split; (done || lia).
Qed.

(** ** Witnesses *)

Definition sample_frame : VideoFrame := {|
  frame_size := {| width := 2; height := 1 |};
  format := BGRA8;
  timestamp_us := 123456;
  native_handle := None;
  cpu_pixels := [1; 2; 3; 4; 5; 6; 7; 8];
  dirty_rects := [];
  is_idle := false;
|}.

Definition sample_decoder : StubDecoder := setFrameCallback true (createVideoDecoder H264).

Lemma stub_codec_roundtrip_witness :
  decode (encode_packet sample_frame true) sample_decoder = (success, Some sample_frame).
Proof.
  apply (stub_codec_roundtrip sample_frame true sample_decoder); [|done].
  by split; vm_compute.
Defined.

Lemma decode_total_witness :
  ∃ f, (decode (encode_packet sample_frame false) sample_decoder).2 = Some f ∧
    carries (data (encode_packet sample_frame false)) f.
Proof.
  assert (bytes_ok (data (encode_packet sample_frame false))) as Hb
    by (by apply (bool_decide_unpack _); vm_compute).
  pose proof (decode_total (encode_packet sample_frame false) sample_decoder Hb) as H.
  assert (decode (encode_packet sample_frame false) sample_decoder =
    (success, Some sample_frame)) as E by by vm_compute.
  rewrite E in H. destruct H as (_ & _ & H).
  exists sample_frame. split; [by rewrite E|exact H].
Defined.

Lemma codec_negotiation_spec_witness :
  let hevc := {| h264_encode := true; h264_decode := true; hevc_encode := true;
    hevc_decode := true; hevc_444_encode := false; hevc_444_decode := true;
    av1_encode := false; av1_decode := false |} in
  2 ≤ rank (codec (negotiateCodec localCodecCapabilities hevc true))
           (chroma (negotiateCodec localCodecCapabilities hevc true)).
Proof.
  intros hevc.
  by apply (codec_negotiation_spec localCodecCapabilities hevc true) with (c := HEVC) (ch := Yuv420).
Defined.
