(* ===== verification/Double.v ===== *)
(** * The double arithmetic the engine uses

    Non-negative IEEE binary64 values in the normal range as [m * 2^e] with
    exact rationals behind them: conversion from integers below 2^53 is exact,
    products and quotients are the exact result rounded to 53 significant bits,
    ties to even, and the conversion back to an integer truncates.  Subnormals
    and overflow to infinity by rounding do not occur on the 32-bit operands of
    this code; a division by zero gives [PosInf]. *)

From S2P Require Import Prelude.

Inductive double := Finite (m e : Z) | PosInf.

(** The integer nearest to [n / d], ties to even. *)
Definition rne (n d : Z) : Z :=
  let q := n / d in
  let r := n `mod` d in
  if 2 * r <? d then q
  else if d <? 2 * r then q + 1
  else if Z.even q then q else q + 1.

(** Numerator and denominator of [(n / d) * 2^(-e)]. *)
Definition scaled_num (n e : Z) : Z := n * 2 ^ Z.max 0 (- e).
Definition scaled_den (d e : Z) : Z := d * 2 ^ Z.max 0 e.

(** The exponent for which the scaled quotient has 53 bits. *)
Definition quotient_exponent (n d : Z) : Z :=
  let e := Z.log2 n - Z.log2 d - 53 in
  if 2 ^ 53 * scaled_den d e <=? scaled_num n e then e + 1 else e.

(** [n / d] correctly rounded, for [0 <= n] and [0 < d]. *)
Definition round_ratio (n d : Z) : Z * Z :=
  if n =? 0 then (0, 0)
  else let e := quotient_exponent n d in (rne (scaled_num n e) (scaled_den d e), e).

Definition of_Z (z : Z) : double := Finite z 0.

Definition mul (x y : double) : double :=
  match x, y with
  | Finite m e, Finite m' e' =>
      let '(r, f) := round_ratio (m * m') 1 in Finite r (f + e + e')
  | _, _ => PosInf
  end.

Definition div (x y : double) : double :=
  match x, y with
  | Finite m e, Finite m' e' =>
      if m' =? 0 then PosInf
      else let '(r, f) := round_ratio m m' in Finite r (f + e - e')
  | _, _ => PosInf
  end.

Definition ltb (x y : double) : bool :=
  match x, y with
  | Finite m e, Finite m' e' =>
      m * 2 ^ Z.max 0 (e - e') <? m' * 2 ^ Z.max 0 (e' - e)
  | Finite _ _, PosInf => true
  | PosInf, _ => false
  end.

(** [static_cast<uint32_t>] of a value in range. *)
Definition trunc (x : double) : Z :=
  match x with
  | Finite m e => m * 2 ^ Z.max 0 e / 2 ^ Z.max 0 (- e)
  | PosInf => 0
  end.

(** The literals of the code. *)
Definition d_0_85 : double := Finite 7656119366529843 (-53).
Definition d_0_10 : double := Finite 7205759403792794 (-56).
Definition d_0_02 : double := Finite 5764607523034235 (-58).

(** They are the values the compiler reads: 85/100, 10/100 and 2/100 rounded. *)
Lemma literals_rounded :
  round_ratio 85 100 = (7656119366529843, -53) ∧
  round_ratio 10 100 = (7205759403792794, -56) ∧
  round_ratio 2 100 = (5764607523034235, -58).
Proof. by vm_compute. Qed.

(** ** Rounding *)

Lemma rne_error n d : 0 < d → 2 * Z.abs (rne n d * d - n) ≤ d.
Proof.
  intros Hd. unfold rne. pose proof (Z.div_mod n d ltac:(lia)).
  pose proof (Z.mod_pos_bound n d Hd).
  destruct (Z.ltb_spec (2 * (n `mod` d)) d); [nia|].
  destruct (Z.ltb_spec d (2 * (n `mod` d))); [nia|].
  destruct (Z.even (n / d)); nia.
Qed.

Lemma log2_bounds n : 0 < n → 2 ^ Z.log2 n ≤ n < 2 * 2 ^ Z.log2 n.
Proof.
  intros Hn. pose proof (Z.log2_spec n Hn) as [? H].
  rewrite Z.pow_succ_r in H by apply Z.log2_nonneg. done.
Qed.

(** For operands below 2^32 the exponent is negative: the quotient is computed
    on [n * 2^k] with [k = - e], and has 53 bits. *)
Lemma quotient_exponent_spec n d :
  0 < n < 2 ^ 32 → 0 < d →
  ∃ k, 0 < k ∧ quotient_exponent n d = - k ∧
    2 ^ 52 * d ≤ n * 2 ^ k < 2 ^ 53 * d.
Proof.
  intros Hn Hd. unfold quotient_exponent.
  set (e := Z.log2 n - Z.log2 d - 53).
  assert (Z.log2 n < 32) as Hl by (apply Z.log2_lt_pow2; lia).
  pose proof (Z.log2_nonneg d). pose proof (Z.log2_nonneg n).
  pose proof (log2_bounds n ltac:(lia)) as Bn. pose proof (log2_bounds d Hd) as Bd.
  unfold scaled_num, scaled_den. rewrite (Z.max_r 0 (- e)), (Z.max_l 0 e) by lia.
  assert (2 ^ (- e) * 2 ^ Z.log2 n = 2 ^ 53 * 2 ^ Z.log2 d) as Hp.
  { rewrite <-!Z.pow_add_r by lia. f_equal. lia. }
  rewrite Z.pow_0_r, Z.mul_1_r.
  destruct (Z.leb_spec (2 ^ 53 * d) (n * 2 ^ (- e))).
  - exists (- e - 1). split; [lia|]. split; [lia|].
    assert (2 ^ (- e) = 2 * 2 ^ (- e - 1)) as H2.
    { rewrite <-Z.pow_succ_r by lia. f_equal. lia. }
    rewrite H2 in *. change (2 ^ 53) with (2 * 2 ^ 52) in *. nia.
  - exists (- e). split; [lia|]. split; [lia|]. split; [|lia].
    change (2 ^ 53) with (2 * 2 ^ 52) in Hp. nia.
Qed.

(** ** Comparing a quotient with the rounded constant [1 / N]

    [C * 2^(-K)] is [1 / N] rounded up: [C * N = 2^K + r]. *)

Section ratio.
Context (N C K r : Z).
Context (HN : 0 < N ≤ 64) (HK : 54 ≤ K) (Hr : 0 ≤ r ≤ 16) (HC : C * N = 2 ^ K + r).
Context (HrN : 2 * r < N) (HKN : 2 ^ 52 * N ≤ 2 ^ K < 2 ^ 53 * N).

Lemma pow_K_large : 2 ^ 54 ≤ 2 ^ K.
Proof. by apply Z.pow_le_mono_r. Qed.

Section one_quotient.
Context (a b k : Z).
Context (Ha : 0 < a < 2 ^ 32) (Hb : 0 < b < 2 ^ 32) (Hk : 0 < k).
Context (Hq : 2 ^ 52 * b ≤ a * 2 ^ k < 2 ^ 53 * b).

Abbreviation m := (rne (a * 2 ^ k) b).

Lemma quotient_above : b < N * a → C * 2 ^ k < m * 2 ^ K.
Proof.
  intros Hlt. pose proof (rne_error (a * 2 ^ k) b ltac:(lia)) as He.
  pose proof pow_K_large as HP. assert (0 < 2 ^ k) as HQ by (apply Z.pow_pos_nonneg; lia).
  set (M := m) in *. set (P := 2 ^ K) in *. set (Q := 2 ^ k) in *.
  assert ((2 ^ 53 - 1) * (a * Q) ≤ 2 ^ 52 * (2 * (b * M))) as H1 by lia.
  assert ((2 ^ 53 - 1) * ((b + 1) * Q) ≤ 2 ^ 52 * (2 * (b * M)) * N) as H2 by nia.
  assert (2 ^ 53 * b * (P + r) < (b + 1) * (2 ^ 53 - 1) * P) as H3 by nia.
  apply (Z.mul_lt_mono_pos_r Q) in H3; [|done].
  apply (Z.mul_le_mono_nonneg_r _ _ P) in H2; [|lia].
  apply (Z.mul_lt_mono_pos_l (2 ^ 53 * b * N)); [apply Z.mul_pos_pos; lia|].
  replace (2 ^ 53 * b * N * (C * Q)) with (2 ^ 53 * b * (C * N) * Q) by ring.
  rewrite HC. eapply Z.lt_le_trans; [exact H3|].
  replace (2 ^ 53 * b * N * (M * P)) with (2 ^ 52 * (2 * (b * M)) * N * P) by ring.
  etrans; [|exact H2]. apply Z.eq_le_incl. ring.
Qed.

Lemma quotient_below : N * a < b → m * 2 ^ K < C * 2 ^ k.
Proof.
  intros Hlt. pose proof (rne_error (a * 2 ^ k) b ltac:(lia)) as He.
  pose proof pow_K_large as HP. assert (0 < 2 ^ k) as HQ by (apply Z.pow_pos_nonneg; lia).
  set (M := m) in *. set (P := 2 ^ K) in *. set (Q := 2 ^ k) in *.
  assert (2 ^ 52 * (2 * (b * M)) ≤ (2 ^ 53 + 1) * (a * Q)) as H1 by lia.
  assert (2 ^ 52 * (2 * (b * M)) * N ≤ (2 ^ 53 + 1) * ((b - 1) * Q)) as H2 by nia.
  assert ((b - 1) * (2 ^ 53 + 1) * P < 2 ^ 53 * b * (P + r)) as H3 by nia.
  apply (Z.mul_lt_mono_pos_r Q) in H3; [|done].
  apply (Z.mul_le_mono_nonneg_r _ _ P) in H2; [|lia].
  apply (Z.mul_lt_mono_pos_l (2 ^ 53 * b * N)); [apply Z.mul_pos_pos; lia|].
  replace (2 ^ 53 * b * N * (C * Q)) with (2 ^ 53 * b * (C * N) * Q) by ring.
  rewrite HC. eapply Z.le_lt_trans; [|exact H3].
  replace (2 ^ 53 * b * N * (M * P)) with (2 ^ 52 * (2 * (b * M)) * N * P) by ring.
  etrans; [exact H2|]. apply Z.eq_le_incl. ring.
Qed.

Lemma quotient_equal : N * a = b → k = K ∧ m = C.
Proof.
  intros Heq. pose proof (rne_error (a * 2 ^ k) b ltac:(lia)) as He.
  assert (2 ^ 52 * N ≤ 2 ^ k < 2 ^ 53 * N) as Hk2.
  { rewrite <-Heq in Hq. split; [apply (Z.mul_le_mono_pos_l _ _ a)|
      apply (Z.mul_lt_mono_pos_l a)]; lia. }
  assert (k = K) as Ek.
  { destruct (Z.lt_trichotomy k K) as [Hlt|[?|Hlt]]; [|done|].
    - assert (2 * 2 ^ k ≤ 2 ^ K); [|lia].
      rewrite <-Z.pow_succ_r by lia. apply Z.pow_le_mono_r; lia.
    - assert (2 * 2 ^ K ≤ 2 ^ k); [|lia].
      rewrite <-Z.pow_succ_r by lia. apply Z.pow_le_mono_r; lia. }
  split; [done|]. set (M := m) in *. rewrite Ek in He. set (P := 2 ^ K) in *.
  replace (M * b - a * P) with (a * (M * N - P)) in He by (rewrite <-Heq; ring).
  rewrite Z.abs_mul, (Z.abs_eq a) in He by lia.
  assert (2 * Z.abs (M * N - P) ≤ N) as He2.
  { apply (Z.mul_le_mono_pos_l _ _ a); [lia|]. generalize dependent (Z.abs (M * N - P)). intros X HX.
    rewrite <-Heq in HX. lia. }
  replace (M * N - P) with ((M - C) * N + r) in He2 by lia.
  destruct (Z.lt_trichotomy M C) as [?|[?|?]]; [nia|done|nia].
Qed.
End one_quotient.

Lemma div_of_Z a b : 0 < b →
  div (of_Z a) (of_Z b) = Finite (round_ratio a b).1 (round_ratio a b).2.
Proof.
  intros Hb. unfold div, of_Z. rewrite (proj2 (Z.eqb_neq _ _)) by lia.
  destruct (round_ratio a b) as [x f]. simpl. f_equal. lia.
Qed.

(** The rounded quotient compares with the rounded [1 / N] as the integers do. *)
Lemma div_compare a b :
  0 ≤ a < 2 ^ 32 → 0 < b < 2 ^ 32 → 
  ltb (Finite C (- K)) (div (of_Z a) (of_Z b)) = (b <? N * a) ∧
  ltb (div (of_Z a) (of_Z b)) (Finite C (- K)) = (N * a <? b).
Proof.
  intros Ha Hb. rewrite div_of_Z by lia. pose proof pow_K_large.
  destruct (decide (a = 0)) as [->|Hn].
  { change (round_ratio 0 b) with (0, 0). unfold ltb. cbn [fst snd].
    rewrite Z.mul_0_l, Z.mul_0_r.
    assert (∀ x, 0 < C * 2 ^ Z.max 0 x) as Hpos.
    { intros x. apply Z.mul_pos_pos; [nia|]. apply Z.pow_pos_nonneg; lia. }
    split; [transitivity false; [apply Z.ltb_ge, Z.lt_le_incl, Hpos|symmetry; apply Z.ltb_ge; lia]|].
    transitivity true; [apply Z.ltb_lt, Hpos|symmetry; apply Z.ltb_lt; lia]. }
  unfold round_ratio. rewrite (proj2 (Z.eqb_neq _ _)) by lia.
  destruct (quotient_exponent_spec a b) as (k & Hk & -> & Hq); [lia|lia|].
  unfold scaled_num, scaled_den. simpl fst. simpl snd.
  rewrite (Z.max_r 0 (- - k)), (Z.max_l 0 (- k)) by lia.
  rewrite Z.opp_involutive, Z.pow_0_r, Z.mul_1_r.
  set (M := rne (a * 2 ^ k) b).
  (* both comparisons are those of [M * 2^K] and [C * 2^k] *)
  assert (ltb (Finite C (- K)) (Finite M (- k)) = (C * 2 ^ k <? M * 2 ^ K) ∧
          ltb (Finite M (- k)) (Finite C (- K)) = (M * 2 ^ K <? C * 2 ^ k)) as [-> ->].
  { simpl. destruct (Z.le_ge_cases k K).
    - rewrite (Z.max_l 0 (- K - - k)), (Z.max_r 0 (- k - - K)) by lia.
      assert (2 ^ K = 2 ^ (- k - - K) * 2 ^ k) as ->
        by (rewrite <-Z.pow_add_r by lia; f_equal; lia).
      assert (0 < 2 ^ k) by (apply Z.pow_pos_nonneg; lia).
      split; apply eq_bool_prop_intro; rewrite !Is_true_true, !Z.ltb_lt; nia.
    - rewrite (Z.max_r 0 (- K - - k)), (Z.max_l 0 (- k - - K)) by lia.
      assert (2 ^ k = 2 ^ (- K - - k) * 2 ^ K) as ->
        by (rewrite <-Z.pow_add_r by lia; f_equal; lia).
      assert (0 < 2 ^ K) by lia.
      split; apply eq_bool_prop_intro; rewrite !Is_true_true, !Z.ltb_lt; nia. }
  destruct (Z.lt_trichotomy (N * a) b) as [Hlt|[Heq|Hlt]].
  - pose proof (quotient_below a b k ltac:(lia) Hb Hk Hq Hlt) as Hc. fold M in Hc.
    split; [transitivity false; [apply Z.ltb_ge|symmetry; apply Z.ltb_ge]; lia|].
    transitivity true; [apply Z.ltb_lt|symmetry; apply Z.ltb_lt]; lia.
  - destruct (quotient_equal a b k ltac:(lia) Hb Hk Hq Heq) as [Ek HM]. fold M in HM.
    rewrite HM, Ek, Heq, !Z.ltb_irrefl. done.
  - pose proof (quotient_above a b k ltac:(lia) Hb Hk Hq Hlt) as Hc. fold M in Hc.
    split; [transitivity true; [apply Z.ltb_lt|symmetry; apply Z.ltb_lt]; lia|].
    transitivity false; [apply Z.ltb_ge|symmetry; apply Z.ltb_ge]; lia.
Qed.
End ratio.

(** ** The three tests the congestion controller makes *)

Lemma loss_above_010 a b :
  0 ≤ a < 2 ^ 32 → 0 < b < 2 ^ 32 → ltb d_0_10 (div (of_Z a) (of_Z b)) = (b <? 10 * a).
Proof. intros. by apply (div_compare 10 7205759403792794 56 4). Qed.

Lemma loss_below_002 a b :
  0 ≤ a < 2 ^ 32 → 0 < b < 2 ^ 32 → ltb (div (of_Z a) (of_Z b)) d_0_02 = (50 * a <? b).
Proof. intros. by apply (div_compare 50 5764607523034235 58 6). Qed.

(** ** Multiplying by 0.85 and truncating *)

Lemma quotient_exponent_product n :
  2 ^ 52 ≤ n < 2 ^ 85 →
  quotient_exponent n 1 = Z.log2 n - 52 ∧ 0 ≤ Z.log2 n - 52 ≤ 32.
Proof.
  intros Hn. assert (52 ≤ Z.log2 n) by (apply (Z.log2_le_mono (2 ^ 52)); lia).
  assert (Z.log2 n < 85) by (apply Z.log2_lt_pow2; lia).
  split; [|lia]. unfold quotient_exponent. change (Z.log2 1) with 0. rewrite Z.sub_0_r.
  pose proof (log2_bounds n ltac:(lia)) as [Hlo _].
  assert (2 ^ 53 * scaled_den 1 (Z.log2 n - 53) ≤ scaled_num n (Z.log2 n - 53)) as H2.
  { unfold scaled_num, scaled_den. destruct (decide (Z.log2 n = 52)) as [->|].
    - change (2 ^ 53 ≤ n * 2). lia.
    - rewrite (Z.max_l 0 (- (Z.log2 n - 53))), (Z.max_r 0 (Z.log2 n - 53)) by lia.
      rewrite Z.pow_0_r, Z.mul_1_r, Z.mul_1_l, <-Z.pow_add_r by lia.
      replace (53 + (Z.log2 n - 53)) with (Z.log2 n) by lia. lia. }
  rewrite (proj2 (Z.leb_le _ _) H2). lia.
Qed.

Lemma mul_085_trunc t : 0 ≤ t < 2 ^ 32 → trunc (mul (of_Z t) d_0_85) = 17 * t / 20.
Proof.
  intros Ht. destruct (decide (t = 0)) as [->|Hnz]; [done|].
  unfold mul, of_Z, d_0_85. set (n := t * 7656119366529843).
  destruct (quotient_exponent_product n) as [He Hs]; [unfold n; lia|].
  unfold round_ratio. rewrite (proj2 (Z.eqb_neq _ _)) by (unfold n; lia). rewrite He.
  pose proof (log2_bounds n ltac:(unfold n; lia)) as Hlog.
  set (s := Z.log2 n - 52) in *. unfold scaled_num, scaled_den.
  rewrite (Z.max_l 0 (- s)), (Z.max_r 0 s) by lia. rewrite Z.pow_0_r, Z.mul_1_r, Z.mul_1_l.
  unfold trunc. rewrite (Z.max_l 0 (s + 0 + -53)), (Z.max_r 0 (- (s + 0 + -53))) by lia.
  rewrite Z.pow_0_r, Z.mul_1_r. replace (- (s + 0 + -53)) with (53 - s) by lia.
  set (D := 2 ^ s) in *. set (E := 2 ^ (53 - s)).
  assert (0 < D ≤ 2 ^ 32) as HD.
  { split; [apply Z.pow_pos_nonneg; lia|apply Z.pow_le_mono_r; lia]. }
  assert (D * E = 2 ^ 53) as HDE by (unfold D, E; rewrite <-Z.pow_add_r by lia; f_equal; lia).
  assert (0 < E) as HE by (apply Z.pow_pos_nonneg; lia).
  assert (n < 2 ^ 53 * D) as Hup.
  { replace (Z.log2 n) with (52 + s) in Hlog by lia. rewrite Z.pow_add_r in Hlog by lia.
    fold D in Hlog. lia. }
  pose proof (rne_error n D ltac:(lia)) as Herr. set (R := rne n D) in *.
  pose proof (Z.div_mod (17 * t) 20 ltac:(lia)) as Hdm.
  pose proof (Z.mod_pos_bound (17 * t) 20 ltac:(lia)) as Hj.
  set (k := 17 * t / 20) in *. set (j := (17 * t) `mod` 20) in *.
  assert (20 * n = (20 * k + j) * 2 ^ 53 - 4 * t) as Hn by (unfold n; lia).
  assert (R * D < (k + 1) * 2 ^ 53) as Hhi by lia.
  assert (k * 2 ^ 53 ≤ R * D) as Hlo.
  { destruct (decide (j = 0)) as [Hj0|]; [|lia].
    destruct (Z.le_gt_cases (k * E) R) as [Hle|Hgt].
    - apply (Z.mul_le_mono_nonneg_r _ _ D) in Hle; [|lia].
      replace (k * E * D) with (k * (D * E)) in Hle by ring. by rewrite HDE in Hle.
    - assert ((R + 1) * D ≤ k * E * D) as Hc by (apply Z.mul_le_mono_nonneg_r; lia).
      replace (k * E * D) with (k * (D * E)) in Hc by ring. rewrite HDE in Hc.
      assert (5 * D ≤ 2 * t); [lia|]. unfold n in Hup. lia. }
  symmetry. apply (Z.div_unique R E k (R - E * k)); [left|lia].
  rewrite <-HDE in Hlo, Hhi. nia.
Qed.
