(* ===== verification/Transport.v ===== *)
(** * The loopback transport and the congestion controller
    ([core/transport/transport.h], [core/transport/transport_stub.cpp])

    A loopback pair is one store holding both endpoints, which point at each
    other ([peer_]): a send on one end reads the other end's callback.  The log
    [delivered] records the receive callbacks made (to which end, on which
    channel, with what payload), [state_calls] the state callbacks.  Every
    callback is the last thing its caller does, so a callback that sends is a
    later call of the sequence.  A [createTransport] endpoint is an end whose
    [peer_] is null.  The congestion controller uses the doubles of [Double]. *)

From S2P Require Import Prelude Types Double.
From S2P Require Wire.

Inductive Channel := Video | Audio | Input | Control | Clipboard | FileTransfer.

#[export] Instance Channel_eq_dec : EqDecision Channel.
Proof. solve_decision. Defined.

Definition Channel_to_u8 (c : Channel) : Z :=
  match c with
  | Video => 0 | Audio => 1 | Input => 2 | Control => 3 | Clipboard => 4 | FileTransfer => 5
  end.

Definition Channel_toString (c : Channel) : string :=
  match c with
  | Video => "Video"
  | Audio => "Audio"
  | Input => "Input"
  | Control => "Control"
  | Clipboard => "Clipboard"
  | FileTransfer => "FileTransfer"
  end.

Inductive Reliability := Unreliable | ReliableOrdered.

#[export] Instance Reliability_eq_dec : EqDecision Reliability.
Proof. solve_decision. Defined.

Definition reliabilityFor (c : Channel) : Reliability :=
  match c with
  | Video | Audio => Unreliable
  | Input | Control | Clipboard | FileTransfer => ReliableOrdered
  end.

Inductive TransportState := Idle | Connecting | Connected | Failed | Closed.

#[export] Instance TransportState_eq_dec : EqDecision TransportState.
Proof. solve_decision. Defined.

(** ** The loopback pair *)

Inductive Side := A | B.

#[export] Instance Side_eq_dec : EqDecision Side.
Proof. solve_decision. Defined.

Definition other (s : Side) : Side := match s with A => B | B => A end.

Record LoopbackTransport := {
  receive_cb_ : bool;
  state_cb_ : bool;
  peer_ : option Side;
  state_ : TransportState;
}.

Definition LoopbackTransport_init : LoopbackTransport :=
  {| receive_cb_ := false; state_cb_ := false; peer_ := None; state_ := Idle |}.

Record Pair := {
  end_a : LoopbackTransport;
  end_b : LoopbackTransport;
  delivered : list (Side * Channel * list Z);
  state_calls : list (Side * TransportState);
}.

Definition endpoint (s : Side) (p : Pair) : LoopbackTransport :=
  match s with A => end_a p | B => end_b p end.

Definition on_endpoint (s : Side) (f : LoopbackTransport → LoopbackTransport) (p : Pair) : Pair :=
  match s with
  | A => {| end_a := f (end_a p); end_b := end_b p;
            delivered := delivered p; state_calls := state_calls p |}
  | B => {| end_a := end_a p; end_b := f (end_b p);
            delivered := delivered p; state_calls := state_calls p |}
  end.

Definition setReceiveCallback (s : Side) (cb : bool) : State Pair () :=
  modify (on_endpoint s (λ t, {| receive_cb_ := cb; state_cb_ := state_cb_ t;
                                 peer_ := peer_ t; state_ := state_ t |})).
Definition setStateCallback (s : Side) (cb : bool) : State Pair () :=
  modify (on_endpoint s (λ t, {| receive_cb_ := receive_cb_ t; state_cb_ := cb;
                                 peer_ := peer_ t; state_ := state_ t |})).
Definition bindPeer (s : Side) (peer : option Side) : State Pair () :=
  modify (on_endpoint s (λ t, {| receive_cb_ := receive_cb_ t; state_cb_ := state_cb_ t;
                                 peer_ := peer; state_ := state_ t |})).

Definition deliver (to : Side) (ch : Channel) (payload : list Z) : State Pair () :=
  modify (λ p, {| end_a := end_a p; end_b := end_b p;
                  delivered := delivered p ++ [(to, ch, payload)];
                  state_calls := state_calls p |}).
Definition call_state (s : Side) (to : TransportState) : State Pair () :=
  modify (λ p, {| end_a := end_a p; end_b := end_b p; delivered := delivered p;
                  state_calls := state_calls p ++ [(s, to)] |}).

Definition setState (s : Side) (to : TransportState) : State Pair () :=
  cur ← gets (λ p, state_ (endpoint s p));
  if bool_decide (cur = to) then mret ()
  else
    modify (on_endpoint s (λ t, {| receive_cb_ := receive_cb_ t; state_cb_ := state_cb_ t;
                                   peer_ := peer_ t; state_ := to |}));;
    cb ← gets (λ p, state_cb_ (endpoint s p));
    when cb (call_state s to).

Definition connect (s : Side) : State Pair Status :=
  setState s Connected;; mret success.

Definition kMaxTransportMessage : Z := 65535.

Definition send (s : Side) (ch : Channel) (payload : list Z) : State Pair Status :=
  me ← gets (endpoint s);
  if bool_decide (state_ me ≠ Connected) then
    mret (error ConnectionLost "not connected")
  else if kMaxTransportMessage <? Z.of_nat (length payload) then
    mret (error InvalidArgument "payload exceeds 65535-byte transport cap")
  else
    peer ← gets (λ p, q ← peer_ me; if receive_cb_ (endpoint q p) then Some q else None);
    match peer with
    | None =>
        if bool_decide (reliabilityFor ch = ReliableOrdered) then
          mret (error ConnectionLost "peer has no receiver")
        else mret success
    | Some q => deliver q ch payload;; mret success
    end.

Definition close (s : Side) : State Pair () := setState s Closed.

Definition createLoopbackPair : Pair :=
  let p := {| end_a := LoopbackTransport_init; end_b := LoopbackTransport_init;
              delivered := []; state_calls := [] |} in
  ((bindPeer A (Some B);; bindPeer B (Some A)) p).2.

(** ** Congestion control *)

Record FeedbackReport := {
  now_us : Z;
  acked_bytes : Z;
  lost_packets : Z;
  received_packets : Z;
  rtt_us : Z;
  queuing_delay_us : Z;
}.

Record StubCongestionController := {
  min_kbps_ : Z;
  max_kbps_ : Z;
  target_kbps_ : Z;
}.

Definition createCongestionController : StubCongestionController :=
  {| min_kbps_ := 500; max_kbps_ := 50000; target_kbps_ := 8000 |}.

Definition kDelayOveruseUs : Z := 30000.
Definition kAdditiveIncreaseKbps : Z := 500.

(** [std::clamp]. *)
Definition clamp (v lo hi : Z) : Z := if v <? lo then lo else if hi <? v then hi else v.

Definition loss_ratio (r : FeedbackReport) : double :=
  if 0 <? received_packets r then
    div (of_Z (lost_packets r)) (of_Z (to_u32 (lost_packets r + received_packets r)))
  else of_Z 0.

Definition onFeedback (r : FeedbackReport) (c : StubCongestionController)
    : StubCongestionController :=
  let target :=
    if (kDelayOveruseUs <? queuing_delay_us r) || ltb d_0_10 (loss_ratio r) then
      to_u32 (trunc (mul (of_Z (target_kbps_ c)) d_0_85))
    else if ltb (loss_ratio r) d_0_02 then
      to_u32 (target_kbps_ c + kAdditiveIncreaseKbps)
    else target_kbps_ c in
  {| min_kbps_ := min_kbps_ c; max_kbps_ := max_kbps_ c;
     target_kbps_ := clamp target (min_kbps_ c) (max_kbps_ c) |}.

Definition setBitrateBounds (min_kbps max_kbps : Z) (c : StubCongestionController)
    : StubCongestionController :=
  let max := Z.max max_kbps min_kbps in
  {| min_kbps_ := min_kbps; max_kbps_ := max;
     target_kbps_ := clamp (target_kbps_ c) min_kbps max |}.

(** ** Sequences of calls on a pair *)

Inductive Op :=
| OpSetReceiveCallback (s : Side) (cb : bool)
| OpSetStateCallback (s : Side) (cb : bool)
| OpConnect (s : Side)
| OpSend (s : Side) (ch : Channel) (payload : list Z)
| OpClose (s : Side).

Definition exec (o : Op) : State Pair Status :=
  match o with
  | OpSetReceiveCallback s cb => setReceiveCallback s cb;; mret success
  | OpSetStateCallback s cb => setStateCallback s cb;; mret success
  | OpConnect s => connect s
  | OpSend s ch payload => send s ch payload
  | OpClose s => close s;; mret success
  end.

(** The calls with what they returned, and the pair after them. *)
Fixpoint run (ops : list Op) (p : Pair) : list (Op * Status) * Pair :=
  match ops with
  | [] => ([], p)
  | o :: ops =>
      let '(st, p1) := exec o p in
      let '(tr, p2) := run ops p1 in ((o, st) :: tr, p2)
  end.

(** The payloads side [s] sent on [ch] with status Ok, in order. *)
Definition accepted (s : Side) (ch : Channel) (tr : list (Op * Status)) : list (list Z) :=
  omap (λ '(o, st),
    match o with
    | OpSend s' ch' payload =>
        if bool_decide (s' = s ∧ ch' = ch ∧ st = success) then Some payload else None
    | _ => None
    end) tr.

(** The payloads handed to the receive callback of side [s] on [ch], in order. *)
Definition received (s : Side) (ch : Channel) (p : Pair) : list (list Z) :=
  omap (λ '(s', ch', payload), if bool_decide (s' = s ∧ ch' = ch) then Some payload else None)
    (delivered p).

(** Each end points at the other. *)
Definition wired (p : Pair) : Prop := ∀ s, peer_ (endpoint s p) = Some (other s).

Lemma on_endpoint_same s f p : endpoint s (on_endpoint s f p) = f (endpoint s p).
Proof. by destruct s. Qed.

Lemma on_endpoint_other s s' f p :
  s ≠ s' → endpoint s' (on_endpoint s f p) = endpoint s' p.
Proof. by destruct s, s'. Qed.

Lemma on_endpoint_delivered s f p : delivered (on_endpoint s f p) = delivered p.
Proof. by destruct s. Qed.

Lemma on_endpoint_wired s f p :
  (∀ t, peer_ (f t) = peer_ t) → wired p → wired (on_endpoint s f p).
Proof.
  intros Hf Hw s'. destruct (decide (s = s')) as [->|].
  - rewrite on_endpoint_same, Hf. apply Hw.
  - rewrite on_endpoint_other by done. apply Hw.
Qed.

Lemma setState_spec s to p :
  wired p → wired (setState s to p).2 ∧ delivered (setState s to p).2 = delivered p ∧
  state_ (endpoint s (setState s to p).2) = to ∧
  ∀ s', s ≠ s' → endpoint s' (setState s to p).2 = endpoint s' p.
Proof.
  intros Hw. unfold setState. run_state. case_bool_decide as E; simpl; [by auto|].
  match goal with |- context [on_endpoint s ?f p] => set (g := f) end.
  assert (wired (on_endpoint s g p)) as Hw' by by apply on_endpoint_wired.
  destruct (state_cb_ _); simpl; split_and!; try done.
  all: try apply on_endpoint_delivered.
  all: try (intros s' Hs; by rewrite <-(on_endpoint_other s s' g p Hs); destruct s').
  all: by destruct s.
Qed.

Lemma send_spec s ch payload p :
  wired p →
  let ok := bool_decide (state_ (endpoint s p) = Connected) &&
            (Z.of_nat (length payload) <=? kMaxTransportMessage) in
  let listens := receive_cb_ (endpoint (other s) p) in
  ((send s ch payload p).1 = success ↔
     ok = true ∧ (listens = true ∨ reliabilityFor ch = Unreliable)) ∧
  (send s ch payload p).2 =
    if ok && listens then (deliver (other s) ch payload p).2 else p.
Proof.
  intros Hw ok listens. unfold send. run_state. rewrite (Hw s). simpl.
  unfold ok, listens. rewrite Z.leb_antisym.
  rewrite bool_decide_not. case_bool_decide as E; simpl; [|by split; [split; [done|by intros []]|]].
  destruct (kMaxTransportMessage <? _); simpl; [by split; [split; [done|by intros []]|]|].
  destruct (receive_cb_ (endpoint (other s) p)); simpl; [by split; [split; [auto|done]|]|].
  destruct (reliabilityFor ch) eqn:Er; simpl; (split; [|done]); split; try done; auto.
  intros [_ [|]]; done.
Qed.

Lemma received_deliver s ch to ch' payload p :
  received s ch (deliver to ch' payload p).2 =
    received s ch p ++ (if bool_decide (to = s ∧ ch' = ch) then [payload] else []).
Proof. unfold received. simpl. rewrite omap_app. simpl. by case_bool_decide. Qed.

Lemma received_delivered s ch p p' :
  delivered p' = delivered p → received s ch p' = received s ch p.
Proof. unfold received. by intros ->. Qed.

(** One call: what side [s] receives on [ch] against what its peer had accepted. *)
Lemma exec_delivers o p s ch :
  wired p →
  let '(st, p') := exec o p in
  wired p' ∧
  ∃ more, received s ch p' = received s ch p ++ more ∧
    more `sublist_of` accepted (other s) ch [(o, st)] ∧
    (reliabilityFor ch = ReliableOrdered → more = accepted (other s) ch [(o, st)]).
Proof.
  intros Hw. destruct o as [s' cb|s' cb|s'|s' ch' payload|s']; simpl.
  1-2: split; [by apply on_endpoint_wired|]; exists []; rewrite app_nil_r;
    split; [apply received_delivered, on_endpoint_delivered|done].
  - pose proof (setState_spec s' Connected p Hw) as (Hw' & Hd & _).
    unfold connect. run_state. destruct (setState s' Connected p) as [u p1]. simpl in *.
    split; [done|]. exists []. rewrite app_nil_r. by split; [apply received_delivered|].
  - pose proof (send_spec s' ch' payload p Hw) as [Hst Hp].
    destruct (send s' ch' payload p) as [st p1]. simpl in *.
    assert (s' = other s ↔ other s' = s) as Hos by by destruct s, s'.
    rewrite Hp. clear Hp. revert Hst.
    generalize (bool_decide (state_ (endpoint s' p) = Connected) &&
      (Z.of_nat (length payload) <=? kMaxTransportMessage)) as ok.
    generalize (receive_cb_ (endpoint (other s') p)) as listens.
    intros listens ok Hst. destruct (ok && listens) eqn:Eok.
    + split; [intros []; [exact (Hw A)|exact (Hw B)]|].
      apply andb_true_iff in Eok as [-> ->].
      eexists; split; [exact (received_deliver s ch (other s') ch' payload p)|].
      assert (st = success) as -> by (apply Hst; auto).
      assert (bool_decide (other s' = s ∧ ch' = ch) =
              bool_decide (s' = other s ∧ ch' = ch ∧ success = success)) as ->
        by (apply bool_decide_ext; naive_solver).
      by case_bool_decide.
    + split; [done|]. exists []. rewrite app_nil_r. split; [done|].
      split; [apply sublist_nil_l|]. intros Hr.
      case_bool_decide as Hc; [|done]. destruct Hc as (-> & -> & ->).
      destruct (proj1 Hst eq_refl) as [-> [->|Hl]]; [done|]. by rewrite Hl in Hr.
  - pose proof (setState_spec s' Closed p Hw) as (Hw' & Hd & _).
    unfold close. run_state. destruct (setState s' Closed p) as [u p1]. simpl in *.
    split; [done|]. exists []. rewrite app_nil_r. by split; [apply received_delivered|].
Qed.

Lemma accepted_cons s ch x tr : accepted s ch (x :: tr) = accepted s ch [x] ++ accepted s ch tr.
Proof. unfold accepted. by rewrite <-omap_app. Qed.

Lemma run_delivers ops p s ch :
  wired p →
  let '(tr, p') := run ops p in
  wired p' ∧
  ∃ more, received s ch p' = received s ch p ++ more ∧
    more `sublist_of` accepted (other s) ch tr ∧
    (reliabilityFor ch = ReliableOrdered → more = accepted (other s) ch tr).
Proof.
  revert p. induction ops as [|o ops IH]; intros p Hw; simpl.
  { split; [done|]. exists []. by rewrite app_nil_r. }
  pose proof (exec_delivers o p s ch Hw) as Ho.
  destruct (exec o p) as [st p1]. destruct Ho as (Hw1 & m1 & E1 & S1 & R1).
  specialize (IH p1 Hw1). destruct (run ops p1) as [tr p2].
  destruct IH as (Hw2 & m2 & E2 & S2 & R2). split; [done|].
  exists (m1 ++ m2). rewrite accepted_cons. split_and!.
  - by rewrite E2, E1, app_assoc.
  - by apply sublist_app.
  - intros Hr. by rewrite R1, R2.
Qed.

(** ** Theorems on the pair *)

(** The loopback pair's delivery contract, for any
    sequence of calls on a new pair: on a reliable channel each end receives
    exactly the payloads the other end sent with status Ok, once each and in
    order; on a media channel it receives a subsequence of them, in order. *)
Theorem loopback_delivery ops s ch :
  let '(tr, p) := run ops createLoopbackPair in
  received s ch p `sublist_of` accepted (other s) ch tr ∧
  (reliabilityFor ch = ReliableOrdered → received s ch p = accepted (other s) ch tr).
Proof.
  assert (wired createLoopbackPair) as Hw by by intros [].
  pose proof (run_delivers ops createLoopbackPair s ch Hw) as H.
  destruct (run ops createLoopbackPair) as [tr p].
  destruct H as (_ & more & -> & Hs & Hr). simpl. by split.
Qed.

Lemma exec_not_connected o s p :
  o ≠ OpConnect s → wired p → state_ (endpoint s p) ≠ Connected →
  wired (exec o p).2 ∧ state_ (endpoint s (exec o p).2) ≠ Connected.
Proof.
  intros Ho Hw Hs. destruct o as [s' cb|s' cb|s'|s' ch' payload|s']; simpl.
  1-2: split; [by apply on_endpoint_wired|]; destruct (decide (s' = s)) as [->|];
    [by rewrite on_endpoint_same|by rewrite on_endpoint_other].
  - pose proof (setState_spec s' Connected p Hw) as (Hw' & _ & _ & He).
    unfold connect. rewrite state_bind_run. simpl. split; [done|].
    rewrite He; [done|]. congruence.
  - destruct (send_spec s' ch' payload p Hw) as [_ ->].
    destruct (_ && _); [|done]. split; [intros []; [exact (Hw A)|exact (Hw B)]|].
    by destruct s.
  - pose proof (setState_spec s' Closed p Hw) as (Hw' & _ & Hc & He).
    rewrite state_bind_run. simpl. unfold close. split; [done|].
    destruct (decide (s' = s)) as [->|]; [by rewrite Hc|by rewrite He].
Qed.

Lemma run_not_connected ops s p :
  Forall (λ o, o ≠ OpConnect s) ops → wired p → state_ (endpoint s p) ≠ Connected →
  wired (run ops p).2 ∧ state_ (endpoint s (run ops p).2) ≠ Connected.
Proof.
  intros Hf. revert p. induction Hf as [|o ops Ho _ IH]; intros p Hw Hs; simpl; [done|].
  destruct (exec_not_connected o s p Ho Hw Hs) as [Hw1 Hs1].
  destruct (exec o p) as [st p1]. simpl in *. specialize (IH p1 Hw1 Hs1).
  by destruct (run ops p1).
Qed.

(** A new pair is not connected: until [connect] is
    called on an end, every send on it fails with ConnectionLost and delivers
    nothing, whatever else was called on either end. *)
Theorem loopback_needs_connect ops s ch payload :
  Forall (λ o, o ≠ OpConnect s) ops →
  let p := (run ops createLoopbackPair).2 in
  send s ch payload p = (error ConnectionLost "not connected", p).
Proof.
  intros Hf p. assert (wired createLoopbackPair) as Hw by by intros [].
  destruct (run_not_connected ops s createLoopbackPair Hf Hw) as [_ Hs]; [by destruct s|].
  fold p in Hs. unfold send. run_state. by rewrite bool_decide_true.
Qed.

(** The channel of the wire contract a channel corresponds to. *)
Definition mirror (c : Channel) : Wire.Channel :=
  match c with
  | Video => Wire.kVideo
  | Audio => Wire.kAudio
  | Input => Wire.kInput
  | Control => Wire.kControl
  | Clipboard => Wire.kClipboard
  | FileTransfer => Wire.kFile
  end.

Definition mirror_reliability (r : Reliability) : Wire.Reliability :=
  match r with
  | Unreliable => Wire.kUnreliable
  | ReliableOrdered => Wire.kReliableOrdered
  end.

(** The two channel enumerations are not in
    lockstep: only Clipboard and FileTransfer have the same number in
    [core/transport] as their namesakes in the wire contract, and the
    reliability of Video differs (unreliable here, partially reliable there),
    that of every other channel agrees. *)
Theorem channels_not_in_lockstep c :
  (Channel_to_u8 c = Wire.Channel_to_u8 (mirror c) ↔ c = Clipboard ∨ c = FileTransfer) ∧
  (mirror_reliability (reliabilityFor c) = Wire.reliabilityFor (mirror c) ↔ c ≠ Video).
Proof. destruct c; simpl; split; split; intros; try done; auto; by destruct_or?. Qed.

(** ** Theorems on the congestion controller *)

(** A report as its C++ fields hold it. *)
Definition report_ok (r : FeedbackReport) : Prop :=
  fits 32 (lost_packets r) ∧ fits 32 (received_packets r).

Definition controller_ok (c : StubCongestionController) : Prop :=
  0 ≤ min_kbps_ c ∧ min_kbps_ c ≤ target_kbps_ c ∧ target_kbps_ c ≤ max_kbps_ c ∧
  max_kbps_ c < 2 ^ 32.

(** The same decision on integers: loss above a tenth, below a fiftieth, and
    17/20 for the 0.85. *)
Definition feedback_reference (r : FeedbackReport) (c : StubCongestionController) : Z :=
  let total := to_u32 (lost_packets r + received_packets r) in
  let lossy := (0 <? received_packets r) && (total <? 10 * lost_packets r) in
  let clean := (received_packets r =? 0) || (50 * lost_packets r <? total) in
  let target :=
    if (kDelayOveruseUs <? queuing_delay_us r) || lossy then 17 * target_kbps_ c / 20
    else if clean then to_u32 (target_kbps_ c + kAdditiveIncreaseKbps)
    else target_kbps_ c in
  clamp target (min_kbps_ c) (max_kbps_ c).

Lemma loss_ratio_tests r :
  report_ok r →
  ltb d_0_10 (loss_ratio r) =
    (0 <? received_packets r) &&
    (to_u32 (lost_packets r + received_packets r) <? 10 * lost_packets r) ∧
  ltb (loss_ratio r) d_0_02 =
    (received_packets r =? 0) ||
    (50 * lost_packets r <? to_u32 (lost_packets r + received_packets r)).
Proof.
  intros [Hl Hr]. unfold loss_ratio.
  destruct (Z.ltb_spec 0 (received_packets r)) as [Hpos|Hz].
  - rewrite (proj2 (Z.eqb_neq (received_packets r) 0)) by lia. simpl orb.
    set (t := to_u32 (lost_packets r + received_packets r)).
    assert (fits 32 t) as Ht by by apply wrap_fits.
    destruct (decide (t = 0)) as [E0|].
    + assert (lost_packets r ≠ 0).
      { intros E. unfold t in E0. rewrite E, wrap_id in E0 by done. lia. }
      rewrite E0. unfold fits in *. simpl. split; symmetry; [apply Z.ltb_lt|apply Z.ltb_ge]; lia.
    + unfold fits in *. split; [apply loss_above_010|apply loss_below_002]; lia.
  - unfold fits in *. rewrite (proj2 (Z.eqb_eq (received_packets r) 0)) by lia. done.
Qed.

Lemma feedback_target r c :
  report_ok r → controller_ok c → target_kbps_ (onFeedback r c) = feedback_reference r c.
Proof.
  intros Hr (Hmin & Hlo & Hhi & Hmax). destruct (loss_ratio_tests r Hr) as [H10 H02].
  unfold onFeedback, feedback_reference. cbn [target_kbps_]. rewrite H10, H02.
  rewrite mul_085_trunc by lia.
  rewrite (wrap_id 32 (17 * target_kbps_ c / 20)); [done|]. unfold fits.
  split; [apply Z.div_pos; lia|apply Z.div_lt_upper_bound; lia].
Qed.

Lemma clamp_range v lo hi : lo ≤ hi → lo ≤ clamp v lo hi ≤ hi.
Proof.
  intros H. unfold clamp. destruct (Z.ltb_spec v lo); [lia|].
  destruct (Z.ltb_spec hi v); lia.
Qed.

(** Feedback and bound changes, in any order. *)
Inductive ControllerOp :=
| OpFeedback (r : FeedbackReport)
| OpBounds (min_kbps max_kbps : Z).

Definition controller_exec (o : ControllerOp) (c : StubCongestionController)
    : StubCongestionController :=
  match o with
  | OpFeedback r => onFeedback r c
  | OpBounds lo hi => setBitrateBounds lo hi c
  end.

Definition controller_op_ok (o : ControllerOp) : Prop :=
  match o with
  | OpFeedback r => report_ok r
  | OpBounds lo hi => fits 32 lo ∧ fits 32 hi
  end.

Lemma controller_exec_ok o c :
  controller_op_ok o → controller_ok c → controller_ok (controller_exec o c).
Proof.
  intros Ho (Hmin & Hlo & Hhi & Hmax). destruct o as [r|lo hi]; simpl in *.
  - unfold onFeedback, controller_ok. simpl.
    match goal with |- context [clamp ?v _ _] => pose proof (clamp_range v _ _ (Z.le_trans _ _ _ Hlo Hhi)) end.
    lia.
  - destruct Ho as [[? ?] [? ?]]. unfold controller_ok. simpl.
    pose proof (clamp_range (target_kbps_ c) lo (Z.max hi lo)). lia.
Qed.

Lemma controller_run_ok ops c :
  Forall controller_op_ok ops → controller_ok c →
  controller_ok (fold_left (λ c o, controller_exec o c) ops c).
Proof.
  intros H. revert c. induction H as [|o ops Ho _ IH]; intros c Hc; [done|].
  apply IH. by apply controller_exec_ok.
Qed.

(** C40. The congestion controller computes what it would on
    integers: on any report of 32-bit counts, after any sequence of reports and
    bound changes, the double arithmetic decides the loss thresholds exactly as
    [10 * lost > total] and [50 * lost < total] and the decrease is exactly
    [17 * target / 20] rounded down. *)
Theorem congestion_reference ops r :
  Forall controller_op_ok ops → report_ok r →
  let c := fold_left (λ c o, controller_exec o c) ops createCongestionController in
  target_kbps_ (onFeedback r c) = feedback_reference r c.
Proof.
  intros Hops Hr c. apply feedback_target; [done|]. apply controller_run_ok; [done|].
  by split_and!; simpl.
Qed.

(** The target stays within the bounds, whatever the
    reports and bound changes: minimum <= target <= maximum < 2^32; and a report
    of delay overuse sets it to 17/20 of its value rounded down, or to the
    minimum where that is larger. *)
Theorem congestion_bounds ops r :
  Forall controller_op_ok ops → report_ok r →
  let c := fold_left (λ c o, controller_exec o c) ops createCongestionController in
  controller_ok c ∧ controller_ok (onFeedback r c) ∧
  (kDelayOveruseUs < queuing_delay_us r →
   target_kbps_ (onFeedback r c) = Z.max (min_kbps_ c) (17 * target_kbps_ c / 20)).
Proof.
  intros Hops Hr c. assert (controller_ok c) as Hc.
  { apply controller_run_ok; [done|]. by split_and!; simpl. }
  split_and!; [done|by apply (controller_exec_ok (OpFeedback r))|].
  intros Hq. rewrite feedback_target by done. unfold feedback_reference.
  rewrite (proj2 (Z.ltb_lt _ _) Hq). simpl orb. cbn iota.
  destruct Hc as (Hmin & Hlo & Hhi & Hmax).
  assert (17 * target_kbps_ c / 20 ≤ target_kbps_ c) by (apply Z.div_le_upper_bound; lia).
  unfold clamp. destruct (Z.ltb_spec (17 * target_kbps_ c / 20) (min_kbps_ c)); [lia|].
  destruct (Z.ltb_spec (max_kbps_ c) (17 * target_kbps_ c / 20)); lia.
Qed.

(** ** Witnesses *)

Definition sample_report : FeedbackReport := {|
  now_us := 0; acked_bytes := 0; lost_packets := 3; received_packets := 27;
  rtt_us := 0; queuing_delay_us := 30001 |}.

Lemma loopback_needs_connect_witness :
  let p := (run [OpConnect B; OpSetReceiveCallback B true] createLoopbackPair).2 in
  send A Input [1] p = (error ConnectionLost "not connected", p).
Proof.
  apply (loopback_needs_connect [OpConnect B; OpSetReceiveCallback B true] A Input [1]).
  by repeat constructor.
Defined.

Lemma congestion_reference_witness :
  let c := setBitrateBounds 1000 4000 createCongestionController in
  target_kbps_ (onFeedback sample_report c) = feedback_reference sample_report c ∧
  feedback_reference sample_report c = 3400.
Proof.
  split; [|by vm_compute].
  apply (congestion_reference [OpBounds 1000 4000] sample_report); by repeat constructor.
Defined.

Lemma congestion_bounds_witness :
  target_kbps_ (onFeedback sample_report createCongestionController) = 6800.
Proof.
  apply (congestion_bounds [] sample_report); [by constructor|by repeat constructor|].
  done.
Defined.
