(* ===== verification/LoopbackCallbacks.v ===== *)
(** * Callbacks of the loopback pair that call back
    ([core/transport/transport_stub.cpp])

    Delivery is synchronous: [send] runs the peer's receive callback, [setState]
    the state callback, on the caller's stack, and that callback may itself send,
    connect, close or install callbacks before it returns.  [Transport] describes
    one call with the callback it makes; here the callbacks run code of their
    own, nested to any depth. *)

From S2P Require Import Prelude Types Transport.

(** ** One callback, as it is made *)

Inductive Callback :=
| OnReceive (s : Side) (ch : Channel) (payload : list Z)
| OnState (s : Side) (to : TransportState).

(** The callback a call has made, which is its last action: what it added to the
    logs of the pair. *)
Definition invoked (p p' : Pair) : option Callback :=
  match drop (length (delivered p)) (delivered p'),
        drop (length (state_calls p)) (state_calls p') with
  | (s, ch, payload) :: _, _ => Some (OnReceive s ch payload)
  | [], (s, to) :: _ => Some (OnState s to)
  | [], [] => None
  end.

(** The end whose callback it is. *)
Definition side_of (cb : Callback) : Side :=
  match cb with OnReceive s _ _ => s | OnState s _ => s end.

(** Installing a callback destroys the callable that was installed before; doing
    so while that one runs is left without a result. *)
Definition replaces (o : Op) (cb : Callback) : bool :=
  match o, cb with
  | OpSetReceiveCallback s _, OnReceive s' _ _ => bool_decide (s = s')
  | OpSetStateCallback s _, OnState s' _ => bool_decide (s = s')
  | _, _ => false
  end.

Definition installs (o : Op) : bool :=
  match o with OpSetReceiveCallback _ _ | OpSetStateCallback _ _ => true | _ => false end.

Lemma installs_replaces o stack : installs o = false → existsb (replaces o) stack = false.
Proof.
  intros Hi. induction stack as [|cb stack IH]; [done|]. simpl. rewrite IH, orb_false_r.
  by destruct o, cb.
Qed.

(** ** Nested calls *)

Inductive Outcome (A : Type) := OutOfStack | Undefined | Returned (a : A).
Arguments OutOfStack {A}.
Arguments Undefined {A}.
Arguments Returned {A}.

#[export] Instance Outcome_ret : MRet Outcome := λ A, Returned.
#[export] Instance Outcome_bind : MBind Outcome := λ A B f m,
  match m with
  | OutOfStack => OutOfStack
  | Undefined => Undefined
  | Returned a => f a
  end.

Section callbacks.
(** The code of the callbacks: the next call it makes, given the pair as it finds
    it and what its earlier calls returned; [None]: it returns. *)
Context (code : Callback → Pair → list Status → option Op).

(** A call with all that happens before it returns: its status, the calls begun
    meanwhile in the order in which they began, itself first, and the pair. *)
Fixpoint call (fuel : nat) (stack : list Callback) (o : Op) (p : Pair)
    : Outcome (Status * list (Op * Status) * Pair) :=
  match fuel with
  | O => OutOfStack
  | S fuel =>
      if existsb (replaces o) stack then Undefined
      else
        let '(st, p1) := exec o p in
        match invoked p p1 with
        | None => Returned (st, [(o, st)], p1)
        | Some cb =>
            '(tr, p2) ← body fuel (cb :: stack) cb [] p1;
            Returned (st, (o, st) :: tr, p2)
        end
  end
with body (fuel : nat) (stack : list Callback) (cb : Callback) (results : list Status) (p : Pair)
    : Outcome (list (Op * Status) * Pair) :=
  match fuel with
  | O => OutOfStack
  | S fuel =>
      match code cb p results with
      | None => Returned ([], p)
      | Some o =>
          '(st, tr1, p1) ← call fuel stack o p;
          '(tr2, p2) ← body fuel stack cb (results ++ [st]) p1;
          Returned (tr1 ++ tr2, p2)
      end
  end.

(** A sequence of calls from outside, each with the callbacks it causes. *)
Fixpoint calls (fuel : nat) (ops : list Op) (p : Pair)
    : Outcome (list (Op * Status) * Pair) :=
  match ops with
  | [] => Returned ([], p)
  | o :: ops =>
      '(_, tr1, p1) ← call fuel [] o p;
      '(tr2, p2) ← calls fuel ops p1;
      Returned (tr1 ++ tr2, p2)
  end.

(** ** Nested calls are the sequence of the calls *)

Lemma run_sequence_app ops1 ops2 p :
  run (ops1 ++ ops2) p =
    let '(tr1, p1) := run ops1 p in
    let '(tr2, p2) := run ops2 p1 in (tr1 ++ tr2, p2).
Proof.
  revert p. induction ops1 as [|o ops1 IH]; intros p; simpl; [by destruct (run ops2 p)|].
  destruct (exec o p) as [st p1]. rewrite IH.
  destruct (run ops1 p1) as [tr1 p2]. by destruct (run ops2 p2).
Qed.

Lemma call_body_flat fuel :
  (∀ stack o p st tr p', call fuel stack o p = Returned (st, tr, p') →
     run (map fst tr) p = (tr, p')) ∧
  (∀ stack cb results p tr p', body fuel stack cb results p = Returned (tr, p') →
     run (map fst tr) p = (tr, p')).
Proof.
  induction fuel as [|fuel [IHc IHb]]; [done|]. split.
  - intros stack o p st tr p' H. simpl in H. destruct (existsb _ _); [done|].
    destruct (exec o p) as [st1 p1] eqn:E.
    destruct (invoked p p1) as [cb|]; [|by simplify_eq; simpl; rewrite E].
    destruct (body fuel _ _ _ _) as [| |[tr1 p2]] eqn:Eb; try done. simpl in H. simplify_eq.
    simpl. rewrite E. by rewrite (IHb _ _ _ _ _ _ Eb).
  - intros stack cb results p tr p' H. simpl in H.
    destruct (code cb p results) as [o|]; [|by simplify_eq].
    destruct (call fuel _ _ _) as [| |[[st tr1] p1]] eqn:Ec; try done. simpl in H.
    destruct (body fuel _ _ _ _) as [| |[tr2 p2]] eqn:Eb; try done. simpl in H. simplify_eq.
    rewrite map_app, run_sequence_app, (IHc _ _ _ _ _ _ Ec). by rewrite (IHb _ _ _ _ _ _ Eb).
Qed.

Lemma calls_flat fuel ops p tr p' :
  calls fuel ops p = Returned (tr, p') → run (map fst tr) p = (tr, p').
Proof.
  revert p tr. induction ops as [|o ops IH]; intros p tr H; simpl in H; [by simplify_eq|].
  destruct (call fuel _ _ _) as [| |[[st tr1] p1]] eqn:Ec; try done. simpl in H.
  destruct (calls fuel ops p1) as [| |[tr2 p2]] eqn:Eb; try done. simpl in H. simplify_eq.
  rewrite map_app, run_sequence_app, (proj1 (call_body_flat fuel) _ _ _ _ _ _ Ec). by rewrite (IH _ _ Eb).
Qed.

(** ** Callbacks that return *)

(** The code makes at most [n] calls per callback, installs nothing, and what it
    causes is of a lower rank; no rank is above [r]. *)
Definition ranked (rank : Callback → nat) (n r : nat) : Prop :=
  ∀ cb p results, wired p →
    (rank cb ≤ r)%nat ∧ ((n ≤ length results)%nat → code cb p results = None) ∧
    ∀ o, code cb p results = Some o →
      installs o = false ∧
      ∀ cb', invoked p (exec o p).2 = Some cb' → (rank cb' < rank cb)%nat.

Lemma exec_wired o p : wired p → wired (exec o p).2.
Proof.
  intros Hw. pose proof (exec_delivers o p A Control Hw) as H.
  destruct (exec o p). by destruct H.
Qed.

Section ranked.
Context (rank : Callback → nat) (n r : nat) (Hr : ranked rank n r).

(** With fuel for [k] levels a call returns that causes callbacks below rank [k]. *)
Definition call_returns (k : nat) : Prop :=
  ∀ fuel stack o p, wired p → ((n + 2) * k + 1 ≤ fuel)%nat →
    existsb (replaces o) stack = false →
    (∀ cb, invoked p (exec o p).2 = Some cb → (rank cb < k)%nat) →
    ∃ st tr p', call fuel stack o p = Returned (st, tr, p') ∧ wired p'.

Lemma body_returns k m fuel stack cb results p :
  call_returns k → wired p → ((n + 2) * k + 2 + m ≤ fuel)%nat → (rank cb ≤ k)%nat →
  (n ≤ length results + m)%nat →
  ∃ tr p', body fuel stack cb results p = Returned (tr, p') ∧ wired p'.
Proof.
  intros Hc. revert fuel results p. induction m as [|m IH]; intros [|fuel] results p Hw Hf Hk Hm;
    try lia; simpl; destruct (Hr cb p results Hw) as (_ & Hn & Ho);
    (destruct (code cb p results) as [o|] eqn:Eo; [|by eauto]).
  { by specialize (Hn ltac:(lia)). }
  destruct (Ho o eq_refl) as [Hi Hlt].
  destruct (Hc fuel stack o p Hw) as (st & tr1 & p1 & -> & Hw1);
    [lia|by apply installs_replaces|intros cb' Hcb; specialize (Hlt cb' Hcb); lia|].
  simpl. destruct (IH fuel (results ++ [st]) p1 Hw1) as (tr2 & p2 & -> & Hw2);
    [lia|lia|rewrite length_app; simpl; lia|]. simpl. eauto.
Qed.

Lemma calls_return_level k : call_returns k.
Proof.
  induction k as [|k IH]; intros [|fuel] stack o p Hw Hf Hs Hcb; try lia; simpl; rewrite Hs;
    pose proof (exec_wired o p Hw) as Hw1; destruct (exec o p) as [st p1]; simpl in *;
    (destruct (invoked p p1) as [cb|]; [|by eauto]); specialize (Hcb cb eq_refl); [lia|].
  destruct (body_returns k n fuel (cb :: stack) cb [] p1) as (tr & p2 & -> & Hw2);
    [done|done|lia|lia|simpl; lia|]. simpl. eauto.
Qed.

Lemma calls_return ops p :
  wired p →
  ∃ tr p', calls ((n + 2) * (r + 1) + 1) ops p = Returned (tr, p').
Proof.
  revert p. induction ops as [|o ops IH]; intros p Hw; [simpl; by eauto|]. cbn [calls].
  destruct (calls_return_level (r + 1) ((n + 2) * (r + 1) + 1)%nat [] o p Hw)
    as (st & tr1 & p1 & -> & Hw1); [lia|done| |].
  { intros cb _. destruct (Hr cb p [] Hw). lia. }
  destruct (IH p1 Hw1) as (tr2 & p2 & E). cbn [mbind Outcome_bind]. rewrite E. simpl. eauto.
Qed.
End ranked.

Lemma invoked_none p : invoked p p = None.
Proof. unfold invoked. by rewrite !drop_all. Qed.

Lemma invoked_send s ch payload p :
  wired p →
  invoked p (send s ch payload p).2 =
    if bool_decide (state_ (endpoint s p) = Connected) &&
       (Z.of_nat (length payload) <=? kMaxTransportMessage) &&
       receive_cb_ (endpoint (other s) p)
    then Some (OnReceive (other s) ch payload) else None.
Proof.
  intros Hw. destruct (send_spec s ch payload p Hw) as [_ ->].
  destruct (_ && _); [|apply invoked_none].
  unfold invoked. simpl. by rewrite drop_app_length.
Qed.

(** Both ends are up and listen. *)
Definition talking (p : Pair) : Prop :=
  wired p ∧ ∀ s, state_ (endpoint s p) = Connected ∧ receive_cb_ (endpoint s p) = true.

Lemma talking_send s ch payload p :
  talking p → Z.of_nat (length payload) ≤ kMaxTransportMessage →
  invoked p (send s ch payload p).2 = Some (OnReceive (other s) ch payload) ∧
  talking (send s ch payload p).2.
Proof.
  intros [Hw Ht] Hl. rewrite invoked_send by done.
  destruct (send_spec s ch payload p Hw) as [_ ->].
  rewrite bool_decide_true, (proj2 (Z.leb_le _ _)), (proj2 (Ht (other s))) by (done || apply Ht).
  simpl. split; [done|]. split; [intros []; [exact (Hw A)|exact (Hw B)]|].
  intros []; [exact (Ht A)|exact (Ht B)].
Qed.

(** Two ends that answer each other: if both are up and every receive callback
    begins by sending something back, no send ever returns. *)
Theorem mutual_answers_overflow fuel stack s ch payload p :
  (∀ s ch payload p, ∃ ch' answer,
     code (OnReceive s ch payload) p [] = Some (OpSend s ch' answer) ∧
     Z.of_nat (length answer) ≤ kMaxTransportMessage) →
  talking p → Z.of_nat (length payload) ≤ kMaxTransportMessage →
  call fuel stack (OpSend s ch payload) p = OutOfStack.
Proof.
  intros Hcode. revert stack s ch payload p.
  induction fuel as [[|[|fuel]] IH] using lt_wf_ind; intros stack s ch payload p Ht Hl; [done| |];
    cbn [call exec]; rewrite installs_replaces by done;
    destruct (talking_send s ch payload p Ht Hl) as [Hi Ht'];
    destruct (send s ch payload p) as [st p1]; simpl in Hi, Ht'; rewrite Hi; [done|].
  cbn [body]. destruct (Hcode (other s) ch payload p1) as (ch' & answer & -> & Ha).
  by rewrite (IH fuel) by (lia || done).
Qed.

(** C17. The delivery contract of a new pair holds also when
    the callbacks call back.  If each makes at most [n] calls, installs nothing
    and causes only callbacks of a lower rank, at most [r], every sequence of
    calls returns, nested [(n + 2) (r + 1) + 1] deep at most; of all the calls
    begun, by the program or in a callback, a reliable channel delivers exactly
    the payloads sent with status Ok, once each, in the order in which the sends
    began, and a media channel a subsequence of them. *)
Theorem reentrant_delivery rank n r ops s ch :
  ranked rank n r →
  ∃ tr p, calls ((n + 2) * (r + 1) + 1) ops createLoopbackPair = Returned (tr, p) ∧
    run (map fst tr) createLoopbackPair = (tr, p) ∧
    received s ch p `sublist_of` accepted (other s) ch tr ∧
    (reliabilityFor ch = ReliableOrdered → received s ch p = accepted (other s) ch tr).
Proof.
  intros Hr. assert (wired createLoopbackPair) as Hw by by intros [].
  destruct (calls_return rank n r Hr ops createLoopbackPair Hw) as (tr & p & E).
  exists tr, p. pose proof (calls_flat _ _ _ _ _ E) as Hrun. split_and!; try done.
  all: pose proof (run_delivers (map fst tr) createLoopbackPair s ch Hw) as H;
    rewrite Hrun in H; destruct H as (_ & more & -> & Hs & Hd); simpl; auto.
Qed.
End callbacks.

(** ** Request and reply *)

Module Sample.

(** The receiver of B answers each message with its payload; A only listens. *)
Definition reply (cb : Callback) (_ : Pair) (results : list Status) : option Op :=
  match cb, results with
  | OnReceive B ch payload, [] => Some (OpSend B ch payload)
  | _, _ => None
  end.

Definition rank (cb : Callback) : nat := match cb with OnReceive B _ _ => 1 | _ => 0 end.

Lemma reply_ranked : ranked reply rank 1 1.
Proof.
  intros cb p results Hw. split_and!.
  - destruct cb as [[]|]; simpl; lia.
  - destruct cb as [[]|], results; simpl; done || lia.
  - intros o Ho. destruct cb as [[]|], results; simplify_eq/=. split; [done|].
    intros cb'. rewrite invoked_send by done. case_match; [|done]. intros [= <-]. simpl. lia.
Qed.

Definition session : list Op :=
  [OpConnect A; OpConnect B; OpSetReceiveCallback A true; OpSetReceiveCallback B true;
   OpSend A Control [1]; OpSend A Control [2]].

Example replies_arrive :
  match calls reply 7 session createLoopbackPair with
  | Returned (_, p) => (received B Control p, received A Control p)
  | _ => ([], [])
  end = ([[1]; [2]], [[1]; [2]]).
Proof. vm_compute. reflexivity. Qed.

End Sample.

Lemma reentrant_delivery_witness :
  ∃ tr p, calls Sample.reply 7 Sample.session createLoopbackPair = Returned (tr, p) ∧
    received A Control p = accepted B Control tr.
Proof.
  destruct (reentrant_delivery Sample.reply Sample.rank 1 1 Sample.session A Control
    Sample.reply_ranked) as (tr & p & E & _ & _ & H).
  exists tr, p. split; [exact E|exact (H eq_refl)].
Defined.

Lemma mutual_answers_overflow_witness :
  let p := (run (take 4 Sample.session) createLoopbackPair).2 in
  ∀ fuel, call (λ cb _ results, match cb, results with
                | OnReceive s ch payload, [] => Some (OpSend s Control [0])
                | _, _ => None
                end) fuel [] (OpSend A Input [7]) p = OutOfStack.
Proof.
  intros p fuel. apply mutual_answers_overflow.
  - intros s ch payload q. exists Control, [0]. by split; [|vm_compute].
  - split; intros []; vm_compute; by split_and?.
  - by vm_compute.
Defined.
