(* ===== verification/Net.v ===== *)
(** * Endpoints and datagrams ([server/common/net.h], [server/common/net.cpp])

    [Endpoint] is the peer address the operating system presents.  The sockets
    themselves are system calls; what the servers do with them is kept as data:
    the datagram (or the error) [recv_from] returned, and the [send_to] calls
    made, in order. *)

From S2P Require Import Prelude Types.

Record Endpoint := {
  host : string;
  port : Z;
  ipv6 : bool;
}.

(** [operator==]. *)
#[export] Instance Endpoint_eq_dec : EqDecision Endpoint.
Proof. solve_decision. Defined.

Definition Endpoint_init : Endpoint := {| host := ""; port := 0; ipv6 := false |}.

Definition display (e : Endpoint) : string :=
  if ipv6 e then "[" +:+ host e +:+ "]:" +:+ pretty (port e)
  else host e +:+ ":" +:+ pretty (port e).

(** What [recv_from] returns: a datagram with its source, or an error. *)
Inductive Received :=
| Datagram (from : Endpoint) (bytes : list Z)
| RecvError (c : ErrorCode).

(** A [send_to] call: destination and bytes. *)
Definition Sent : Type := Endpoint * list Z.
