(* ===== verification/Sockets.v ===== *)
(** * The socket wrapper ([server/common/net.h], [server/common/net.cpp])

    [Socket] owns one descriptor.  System calls are recorded with their answers;
    what the kernel answers is an arbitrary function of the calls before it.
    The theorems: every open descriptor has exactly one owner, in any program
    that handles sockets by the operations of the class; a failing [bind_udp] or
    [listen_tcp] leaves nothing open; a reply to the endpoint [recv_from]
    reported goes to the address the datagram came from.

    [inet_ntop] and [inet_pton] are the C library's.  Descriptors are [int]s, so
    the casts between [int] and [SocketHandle] keep them; the byte order of
    [htons] is that of the little-endian hosts the program supports.  The POSIX
    branch is modelled, where [NetInit] does nothing. *)

From S2P Require Import Prelude Types Net.

(** ** Addresses *)

Inductive Family := AF_INET | AF_INET6 | AF_OTHER.

#[export] Instance Family_eq_dec : EqDecision Family.
Proof. solve_decision. Defined.

(** The fields the code reads and writes; the port is in network order and at
    the same place for both families. *)
Record sockaddr_storage := {
  ss_family : Family;
  ss_port : Z;
  sin_addr : Z;
  sin6_addr : Z;
  sin6_scope_id : Z;
}.

Definition sockaddr_zero : sockaddr_storage :=
  {| ss_family := AF_OTHER; ss_port := 0; sin_addr := 0; sin6_addr := 0; sin6_scope_id := 0 |}.

(** [htons], which is also [ntohs]. *)
Definition htons (p : Z) : Z := Z.lor (Z.shiftl (Z.land p 255) 8) (Z.shiftr p 8).

Lemma htons_value p : fits 16 p → htons p = 256 * (p `mod` 256) + p `div` 256.
Proof.
  unfold fits. change (2 ^ 16) with 65536. intros [Hp Hp']. unfold htons.
  rewrite land_255, Z.shiftr_div_pow2 by lia. change (2 ^ 8) with 256.
  assert (fits 8 (p `div` 256)) as Hs.
  { split; [apply Z.div_pos; lia|]. apply Z.div_lt_upper_bound; lia. }
  rewrite shiftl_lor_add by (done || lia). unfold wrap. change (2 ^ 8) with 256. lia.
Qed.

Lemma htons_fits p : fits 16 p → fits 16 (htons p).
Proof.
  intros Hp. rewrite htons_value by done. unfold fits in *. change (2 ^ 16) with 65536 in *.
  pose proof (Z.mod_pos_bound p 256 ltac:(lia)). pose proof (Z.div_mod p 256 ltac:(lia)). lia.
Qed.

(** The two conversions undo each other. *)
Lemma htons_involutive p : fits 16 p → htons (htons p) = p.
Proof.
  intros Hp. rewrite (htons_value (htons p)) by (by apply htons_fits).
  rewrite htons_value by done. unfold fits in Hp. change (2 ^ 16) with 65536 in Hp.
  pose proof (Z.mod_pos_bound p 256 ltac:(lia)). pose proof (Z.div_mod p 256 ltac:(lia)).
  assert (p `div` 256 < 256) by (apply Z.div_lt_upper_bound; lia).
  assert (0 ≤ p `div` 256) by (apply Z.div_pos; lia).
  set (q := p `div` 256) in *. set (r := p `mod` 256) in *.
  replace (256 * r + q) with (q + r * 256) by lia.
  rewrite Z_mod_plus_full, Z.div_add, Z.mod_small, Z.div_small by lia. lia.
Qed.

(** ** System calls *)

Inductive SockType := SOCK_DGRAM | SOCK_STREAM.

Inductive SysCall :=
| SSocket (t : SockType)
| SReuseAddr (h : Z)
| SBind (h port : Z)
| SListen (h backlog : Z)
| SAccept (h : Z)
| SRecvFrom (h len : Z)
| SSendTo (h : Z) (bytes : list Z) (to : sockaddr_storage)
| SClose (h : Z).

Inductive Errno := EAGAIN | EWOULDBLOCK | EINTR | Errno_other (e : Z).

(** Return value, [errno], and what is written for the caller. *)
Record Answer := {
  ret : Z;
  errno : Errno;
  peer_addr : sockaddr_storage;
  payload : list Z;
}.

Record Os := { calls : list (SysCall * Answer) }.

(** ** The class *)

Definition SocketHandle : Type := Z.
Definition kInvalidSocket : SocketHandle := -1.

Record Socket := { handle_ : SocketHandle }.
Definition Socket_init : Socket := {| handle_ := kInvalidSocket |}.
#[export] Instance value_init_Socket : ValueInit Socket := Socket_init.

Definition valid (s : Socket) : bool := negb (handle_ s =? kInvalidSocket).

(** The move constructor: the new object and what is left of the old one. *)
Definition move_socket (o : Socket) : Socket * Socket :=
  ({| handle_ := handle_ o |}, Socket_init).

Definition would_block (e : Errno) : bool :=
  match e with EAGAIN | EWOULDBLOCK | EINTR => true | Errno_other _ => false end.

Definition io_error (e : Errno) : ErrorCode := if would_block e then Again else ConnectionLost.

Section sockets.
(** The kernel's answer to a call, after the calls before it. *)
Context (os : list (SysCall * Answer) → SysCall → Answer).
Context (inet_ntop : Family → Z → string) (inet_pton : Family → string → option Z).

Definition sys (c : SysCall) : State Os Answer := λ o,
  let a := os (calls o) c in (a, {| calls := calls o ++ [(c, a)] |}).

Definition endpoint_from_sockaddr (ss : sockaddr_storage) : Endpoint :=
  if decide (ss_family ss = AF_INET6) then
    {| host := inet_ntop AF_INET6 (sin6_addr ss); port := htons (ss_port ss); ipv6 := true |}
  else
    {| host := inet_ntop AF_INET (sin_addr ss); port := htons (ss_port ss); ipv6 := false |}.

(** [None]: the function returns false. *)
Definition sockaddr_from_endpoint (ep : Endpoint) : option sockaddr_storage :=
  if ipv6 ep then
    a ← inet_pton AF_INET6 (host ep);
    Some {| ss_family := AF_INET6; ss_port := htons (port ep); sin_addr := 0;
            sin6_addr := a; sin6_scope_id := 0 |}
  else
    a ← inet_pton AF_INET (host ep);
    Some {| ss_family := AF_INET; ss_port := htons (port ep); sin_addr := a;
            sin6_addr := 0; sin6_scope_id := 0 |}.

Definition close_handle (h : SocketHandle) : State Os () :=
  when (negb (h =? kInvalidSocket)) (sys (SClose h);; mret ()).

(** [close()], which is also the destructor: the object afterwards. *)
Definition close (s : Socket) : State Os Socket :=
  close_handle (handle_ s);; mret {| handle_ := kInvalidSocket |}.

(** [operator=] from another object; both afterwards. *)
Definition move_assign (s o : Socket) : State Os (Socket * Socket) :=
  close s;; mret (move_socket o).

Definition bind_udp (port : Z) : State Os (Result Socket) :=
  s ← sys (SSocket SOCK_DGRAM);
  let h := ret s in
  if h =? kInvalidSocket then mret (fail Internal "udp socket() failed")
  else
    sys (SReuseAddr h);;
    bound ← sys (SBind h (htons port));
    if negb (ret bound =? 0) then
      close_handle h;;
      mret (fail Internal ("udp bind() failed on port " +:+ pretty port))
    else mret (good {| handle_ := h |}).

Definition listen_tcp (port backlog : Z) : State Os (Result Socket) :=
  s ← sys (SSocket SOCK_STREAM);
  let h := ret s in
  if h =? kInvalidSocket then mret (fail Internal "tcp socket() failed")
  else
    sys (SReuseAddr h);;
    bound ← sys (SBind h (htons port));
    if negb (ret bound =? 0) then
      close_handle h;;
      mret (fail Internal ("tcp bind() failed on port " +:+ pretty port))
    else
      listening ← sys (SListen h backlog);
      if negb (ret listening =? 0) then
        close_handle h;; mret (fail Internal "listen() failed")
      else mret (good {| handle_ := h |}).

(** The result, and [peer] afterwards. *)
Definition accept (s : Socket) (peer : Endpoint) : State Os (Result Socket * Endpoint) :=
  c ← sys (SAccept (handle_ s));
  if ret c =? kInvalidSocket then mret (fail (io_error (errno c)) "accept() failed", peer)
  else mret (good {| handle_ := ret c |}, endpoint_from_sockaddr (peer_addr c)).

(** The bytes of [buf] that were received stand for the count. *)
Definition recv_from (s : Socket) (len : Z) : State Os Received :=
  n ← sys (SRecvFrom (handle_ s) len);
  if ret n <? 0 then mret (RecvError (io_error (errno n)))
  else mret (Datagram (endpoint_from_sockaddr (peer_addr n))
               (take (Z.to_nat (ret n)) (payload n))).

Definition send_to (s : Socket) (buf : list Z) (to : Endpoint) : State Os Status :=
  match sockaddr_from_endpoint to with
  | None => mret (error InvalidArgument ("unparseable endpoint: " +:+ display to))
  | Some ss =>
      n ← sys (SSendTo (handle_ s) buf ss);
      if ret n <? 0 then mret (error (io_error (errno n)) "sendto() failed")
      else mret success
  end.

End sockets.

(** ** Programs over sockets

    The variables of a program that hold a [Socket], by name, and what the class
    lets it do with them.  A variable is declared before it is used and dies
    with a call of the destructor. *)

Record Program := { vars : gmap string Socket; system : Os }.

Definition Program_init : Program := {| vars := ∅; system := {| calls := [] |} |}.

(** The descriptors that are open after a history. *)
Definition open_after (H : gset Z) (e : SysCall * Answer) : gset Z :=
  match e.1 with
  | SSocket _ | SAccept _ => if ret e.2 =? kInvalidSocket then H else {[ret e.2]} ∪ H
  | SClose h => H ∖ {[h]}
  | _ => H
  end.
Definition opens (cs : list (SysCall * Answer)) : gset Z := fold_left open_after cs ∅.

(** A call that touches no descriptor but an open one, or the invalid one, and
    closes no descriptor that is not open. *)
Definition legal (H : gset Z) (c : SysCall) : Prop :=
  match c with
  | SSocket _ => True
  | SClose h => h ∈ H
  | SReuseAddr h | SBind h _ | SListen h _ | SAccept h | SRecvFrom h _ | SSendTo h _ _ =>
      h = kInvalidSocket ∨ h ∈ H
  end.

(** No call of the history was illegal when it was made. *)
Definition clean : list (SysCall * Answer) → Prop :=
  always (λ pre e, legal (opens pre) e.1).

(** [x] holds the descriptor [h]. *)
Definition owns (v : gmap string Socket) (x : string) (h : Z) : Prop :=
  h ≠ kInvalidSocket ∧ v !! x = Some {| handle_ := h |}.

(** The open descriptors are those held, and none is held twice. *)
Definition owned (v : gmap string Socket) (H : gset Z) : Prop :=
  (∀ h, h ∈ H ↔ ∃ x, owns v x h) ∧ (∀ x y h, owns v x h → owns v y h → x = y).

Definition ownership (p : Program) : Prop :=
  clean (calls (system p)) ∧ owned (vars p) (opens (calls (system p))).

Lemma opens_snoc cs e : opens (cs ++ [e]) = open_after (opens cs) e.
Proof. unfold opens. by rewrite fold_left_app. Qed.

(** *** What the variables own *)

Lemma owns_Some v x s h : v !! x = Some s → owns v x h ↔ h ≠ kInvalidSocket ∧ h = handle_ s.
Proof.
  intros Hx. unfold owns. rewrite Hx. split; intros [? Hs]; split; try done.
  - by simplify_eq.
  - subst. by destruct s.
Qed.

Lemma owns_insert v x s y h :
  owns (<[x := s]> v) y h ↔
  (y = x ∧ h ≠ kInvalidSocket ∧ h = handle_ s) ∨ (y ≠ x ∧ owns v y h).
Proof.
  destruct (decide (y = x)) as [->|Hn].
  - rewrite (owns_Some _ _ s) by apply lookup_insert_eq. naive_solver.
  - unfold owns. rewrite lookup_insert_ne by done. naive_solver.
Qed.

(** A variable that owns nothing may take any socket's place. *)
Definition vacant (v : gmap string Socket) (x : string) : Prop := ∀ h, ¬ owns v x h.

Lemma vacant_fresh v x : v !! x = None → vacant v x.
Proof. intros Hx h [_ Hs]. by rewrite Hx in Hs. Qed.

Lemma vacant_init v x : v !! x = Some Socket_init → vacant v x.
Proof. intros Hx h [Hh Hs]. rewrite Hx in Hs. injection Hs as Hs. by destruct Hh. Qed.

Lemma owned_store v H x s :
  vacant v x → owned v H → (handle_ s = kInvalidSocket ∨ handle_ s ∉ H) →
  owned (<[x := s]> v)
    (if handle_ s =? kInvalidSocket then H else {[handle_ s]} ∪ H).
Proof.
  intros Hx [Hin Huniq] Hs. split.
  - intros h. transitivity (h ∈ H ∨ (h ≠ kInvalidSocket ∧ h = handle_ s)).
    { destruct (Z.eqb_spec (handle_ s) kInvalidSocket);
        rewrite ?elem_of_union, ?elem_of_singleton; naive_solver. }
    rewrite Hin. setoid_rewrite owns_insert. split.
    + intros [[y Hy]|Hh]; [|by eauto]. exists y. right. split; [|done].
      intros ->. by destruct (Hx h).
    + intros [y [(-> & ?)|[? ?]]]; eauto.
  - assert (∀ y h, owns v y h → h = handle_ s → h ≠ kInvalidSocket → False) as Hno.
    { intros y h Hy -> ?. destruct Hs as [|[]]; [done|]. apply Hin. by exists y. }
    intros y z h. rewrite !owns_insert. naive_solver.
Qed.

Lemma owned_release v H x s :
  v !! x = Some s → owned v H → owned (<[x := Socket_init]> v) (H ∖ {[handle_ s]}).
Proof.
  intros Hx [Hin Huniq]. pose proof (owns_Some v x s) as Hs. split.
  - intros h. rewrite elem_of_difference, elem_of_singleton, Hin.
    setoid_rewrite owns_insert. split.
    + intros [[y Hy] Hh]. exists y. right. split; [|done]. intros ->.
      apply Hs in Hy as [_ ?]; done.
    + intros [y [(-> & ? & ?)|[Hyx Hy]]]; [done|]. split; [by eauto|]. intros ->.
      destruct Hyx. apply (Huniq y x (handle_ s)); [done|]. apply Hs; [done|]. split; [|done].
      by destruct Hy.
  - intros y z h. rewrite !owns_insert. naive_solver.
Qed.

Lemma owned_delete v H x : vacant v x → owned v H → owned (delete x v) H.
Proof.
  intros Hx [Hin Huniq].
  assert (∀ y h, owns (delete x v) y h ↔ owns v y h) as Hd.
  { intros y h. unfold owns. destruct (decide (y = x)) as [->|].
    - rewrite lookup_delete_eq. split; [naive_solver|]. intros Ho. by destruct (Hx h).
    - by rewrite lookup_delete_ne. }
  split; [intros h; rewrite Hin; by setoid_rewrite Hd|].
  intros y z h. rewrite !Hd. apply Huniq.
Qed.

Lemma owned_empty : owned ∅ ∅.
Proof.
  split; [|by intros x y h [_ Hx%lookup_empty_Some]].
  intros h. split; [done|]. by intros [x [_ Hx%lookup_empty_Some]].
Qed.

(** A move leaves the open descriptors alone. *)
Lemma owned_transfer v H x y s :
  x ≠ y → vacant v x → v !! y = Some s → owned v H →
  owned (<[x := (move_socket s).1]> (<[y := (move_socket s).2]> v)) H.
Proof.
  intros Hxy Hx Hy [Hin Huniq]. pose proof (owns_Some v y s) as Hs.
  assert (∀ z h, owns (<[x := (move_socket s).1]> (<[y := (move_socket s).2]> v)) z h ↔
    (z = x ∧ owns v y h) ∨ (z ≠ x ∧ z ≠ y ∧ owns v z h)) as Ho.
  { intros z h. rewrite !owns_insert, (Hs h Hy). simpl. naive_solver. }
  split.
  - intros h. rewrite Hin. setoid_rewrite Ho. split; [|naive_solver].
    intros [z Hz]. destruct (decide (z = y)) as [->|]; [eauto|].
    exists z. right. split; [|done]. intros ->. by destruct (Hx h).
  - intros z z' h. rewrite !Ho. naive_solver.
Qed.

(** *** The operations *)

Section ownership.
Context (os : list (SysCall * Answer) → SysCall → Answer).
Context (inet_ntop : Family → Z → string) (inet_pton : Family → string → option Z).

(** The kernel hands out descriptors that are not open. *)
Definition kernel_fresh : Prop := ∀ cs c,
  match c with
  | SSocket _ | SAccept _ =>
      ret (os cs c) = kInvalidSocket ∨ ret (os cs c) ∉ opens cs
  | _ => True
  end.
Hypothesis fresh : kernel_fresh.

Abbreviation bind_udp := (bind_udp os).
Abbreviation listen_tcp := (listen_tcp os).
Abbreviation accept := (accept os inet_ntop).
Abbreviation recv_from := (recv_from os inet_ntop).
Abbreviation send_to := (send_to os inet_pton).

(** One statement of a program. *)
Inductive step (p : Program) : Program → Prop :=
| step_declare x :
    vars p !! x = None →
    step p {| vars := <[x := Socket_init]> (vars p); system := system p |}
| step_bind_udp x port r o :
    vars p !! x = None → bind_udp port (system p) = (r, o) →
    step p {| vars := <[x := value r]> (vars p); system := o |}
| step_listen_tcp x port backlog r o :
    vars p !! x = None → listen_tcp port backlog (system p) = (r, o) →
    step p {| vars := <[x := value r]> (vars p); system := o |}
| step_accept x y s peer r peer' o :
    vars p !! x = None → vars p !! y = Some s → accept s peer (system p) = ((r, peer'), o) →
    step p {| vars := <[x := value r]> (vars p); system := o |}
| step_recv_from x s len r o :
    vars p !! x = Some s → recv_from s len (system p) = (r, o) →
    step p {| vars := vars p; system := o |}
| step_send_to x s buf ep r o :
    vars p !! x = Some s → send_to s buf ep (system p) = (r, o) →
    step p {| vars := vars p; system := o |}
| step_move x y s :
    vars p !! x = None → vars p !! y = Some s →
    step p {| vars := <[x := (move_socket s).1]> (<[y := (move_socket s).2]> (vars p));
              system := system p |}
| step_assign x y s t s' t' o :
    x ≠ y → vars p !! x = Some s → vars p !! y = Some t →
    move_assign os s t (system p) = ((s', t'), o) →
    step p {| vars := <[x := s']> (<[y := t']> (vars p)); system := o |}
| step_self_assign x s :
    vars p !! x = Some s → step p p
| step_close x s s' o :
    vars p !! x = Some s → close os s (system p) = (s', o) →
    step p {| vars := <[x := s']> (vars p); system := o |}
| step_destroy x s s' o :
    vars p !! x = Some s → close os s (system p) = (s', o) →
    step p {| vars := delete x (vars p); system := o |}.

Lemma sys_moves c o :
  clean (calls o) → legal (opens (calls o)) c →
  clean (calls (sys os c o).2) ∧
  opens (calls (sys os c o).2) = open_after (opens (calls o)) (c, os (calls o) c).
Proof. intros Hc Hl. unfold sys. simpl. rewrite opens_snoc. split; [by apply always_snoc|done]. Qed.

(** A call on a descriptor that opens and closes nothing. *)
Definition neutral (h : Z) (c : SysCall) : Prop :=
  match c with
  | SReuseAddr h' | SBind h' _ | SListen h' _ | SRecvFrom h' _ | SSendTo h' _ _ => h' = h
  | _ => False
  end.

Lemma sys_neutral h c o :
  neutral h c → clean (calls o) → h = kInvalidSocket ∨ h ∈ opens (calls o) →
  clean (calls (sys os c o).2) ∧ opens (calls (sys os c o).2) = opens (calls o).
Proof.
  intros Hn Hc Hh. destruct (sys_moves c o Hc) as [? ->]; [|split; [done|]];
    destruct c; simpl in *; subst; done.
Qed.

(** What a factory returns is new. *)
Definition opened (H : gset Z) (s : Socket) (H' : gset Z) : Prop :=
  (handle_ s = kInvalidSocket ∨ handle_ s ∉ H) ∧
  H' = if handle_ s =? kInvalidSocket then H else {[handle_ s]} ∪ H.

Lemma sys_opens c o :
  match c with SSocket _ => True | SAccept h => h = kInvalidSocket ∨ h ∈ opens (calls o)
  | _ => False end →
  clean (calls o) →
  clean (calls (sys os c o).2) ∧
  opened (opens (calls o)) {| handle_ := ret (os (calls o) c) |} (opens (calls (sys os c o).2)).
Proof.
  intros Hk Hc. destruct (sys_moves c o Hc) as [? Ho]; [by destruct c|].
  split; [done|]. pose proof (fresh (calls o) c) as Hf. rewrite Ho. unfold opened, open_after.
  destruct c; try done; simpl; split; try done; naive_solver.
Qed.

Lemma opens_valid cs : kInvalidSocket ∉ opens cs.
Proof.
  induction cs as [|[c a] cs IH] using rev_ind; [done|]. rewrite opens_snoc. unfold open_after.
  simpl. destruct c; try done; try (destruct (Z.eqb_spec (ret a) kInvalidSocket)); set_solver.
Qed.

Lemma close_handle_moves h o :
  clean (calls o) → h = kInvalidSocket ∨ h ∈ opens (calls o) →
  clean (calls (close_handle os h o).2) ∧
  opens (calls (close_handle os h o).2) = opens (calls o) ∖ {[h]}.
Proof.
  intros Hc Hs. unfold close_handle. run_state.
  destruct (Z.eqb_spec h kInvalidSocket) as [->|Hn]; simpl.
  - split; [done|]. pose proof (opens_valid (calls o)). set_solver.
  - apply (sys_moves (SClose h) o Hc). by destruct Hs.
Qed.

(** A descriptor that was just opened, through calls that neither open nor
    close, and then closed again or kept. *)
Lemma opened_kept H h o :
  h ≠ kInvalidSocket → h ∉ H → opens (calls o) = {[h]} ∪ H →
  opened H {| handle_ := h |} (opens (calls o)).
Proof.
  intros Hh Hn Ho. split; [by right|]. simpl. destruct (Z.eqb_spec h kInvalidSocket); done.
Qed.

Lemma opened_dropped H h o :
  clean (calls o) → h ∉ H → opens (calls o) = {[h]} ∪ H →
  clean (calls (close_handle os h o).2) ∧
  opened H Socket_init (opens (calls (close_handle os h o).2)).
Proof.
  intros Hc Hn Ho. destruct (close_handle_moves h o Hc) as [? Hcl]; [right; set_solver|].
  split; [done|]. split; [by left|]. rewrite Hcl, Ho. simpl. set_solver.
Qed.

Lemma sys_keeps h c o H :
  neutral h c → clean (calls o) → opens (calls o) = {[h]} ∪ H →
  clean (calls (sys os c o).2) ∧ opens (calls (sys os c o).2) = {[h]} ∪ H.
Proof.
  intros Hn Hc Ho. destruct (sys_neutral h c o Hn Hc) as [? Hk]; [right; set_solver|].
  split; [done|]. by rewrite Hk.
Qed.

Lemma bind_udp_moves port o :
  clean (calls o) →
  clean (calls (bind_udp port o).2) ∧
  opened (opens (calls o)) (value (bind_udp port o).1) (opens (calls (bind_udp port o).2)).
Proof.
  intros Hc. unfold Sockets.bind_udp. rewrite state_bind_run.
  destruct (sys_opens (SSocket SOCK_DGRAM) o I Hc) as [Hc1 [Hn Ho1]].
  change (sys os (SSocket SOCK_DGRAM) o).1 with (os (calls o) (SSocket SOCK_DGRAM)).
  simpl in Hn, Ho1. set (h := ret (os (calls o) (SSocket SOCK_DGRAM))) in *.
  destruct (Z.eqb_spec h kInvalidSocket) as [|Hh]; [by split; [|split; [left|]]|].
  destruct Hn as [|Hn]; [done|]. rewrite !state_bind_run.
  destruct (sys_keeps h (SReuseAddr h) _ _ eq_refl Hc1 Ho1) as [Hc2 Ho2].
  destruct (sys_keeps h (SBind h (htons port)) _ _ eq_refl Hc2 Ho2) as [Hc3 Ho3].
  destruct (negb _); [rewrite state_bind_run; by apply opened_dropped|].
  split; [done|]. by apply opened_kept.
Qed.

Lemma listen_tcp_moves port backlog o :
  clean (calls o) →
  clean (calls (listen_tcp port backlog o).2) ∧
  opened (opens (calls o)) (value (listen_tcp port backlog o).1)
    (opens (calls (listen_tcp port backlog o).2)).
Proof.
  intros Hc. unfold Sockets.listen_tcp. rewrite state_bind_run.
  destruct (sys_opens (SSocket SOCK_STREAM) o I Hc) as [Hc1 [Hn Ho1]].
  change (sys os (SSocket SOCK_STREAM) o).1 with (os (calls o) (SSocket SOCK_STREAM)).
  simpl in Hn, Ho1. set (h := ret (os (calls o) (SSocket SOCK_STREAM))) in *.
  destruct (Z.eqb_spec h kInvalidSocket) as [|Hh]; [by split; [|split; [left|]]|].
  destruct Hn as [|Hn]; [done|]. rewrite !state_bind_run.
  destruct (sys_keeps h (SReuseAddr h) _ _ eq_refl Hc1 Ho1) as [Hc2 Ho2].
  destruct (sys_keeps h (SBind h (htons port)) _ _ eq_refl Hc2 Ho2) as [Hc3 Ho3].
  destruct (negb _); rewrite state_bind_run; [by apply opened_dropped|].
  destruct (sys_keeps h (SListen h backlog) _ _ eq_refl Hc3 Ho3) as [Hc4 Ho4].
  destruct (negb _); [rewrite state_bind_run; by apply opened_dropped|].
  split; [done|]. by apply opened_kept.
Qed.

Lemma accept_moves s peer o :
  clean (calls o) → handle_ s = kInvalidSocket ∨ handle_ s ∈ opens (calls o) →
  clean (calls (accept s peer o).2) ∧
  opened (opens (calls o)) (value (accept s peer o).1.1) (opens (calls (accept s peer o).2)).
Proof.
  intros Hc Hs. unfold Sockets.accept. rewrite state_bind_run.
  destruct (sys_opens (SAccept (handle_ s)) o Hs Hc) as [Hc1 [Hn Ho1]].
  change (sys os (SAccept (handle_ s)) o).1 with (os (calls o) (SAccept (handle_ s))).
  simpl in Hn, Ho1. set (h := ret (os (calls o) (SAccept (handle_ s)))) in *.
  destruct (Z.eqb_spec h kInvalidSocket) as [|Hh]; [by split; [|split; [left|]]|].
  destruct Hn as [|Hn]; [done|]. split; [done|]. by apply opened_kept.
Qed.

(** [recv_from] and [send_to] make at most one call, on the socket's descriptor. *)
Lemma recv_from_moves s len o :
  clean (calls o) → handle_ s = kInvalidSocket ∨ handle_ s ∈ opens (calls o) →
  clean (calls (recv_from s len o).2) ∧
  opens (calls (recv_from s len o).2) = opens (calls o).
Proof.
  intros Hc Hs. unfold Sockets.recv_from. rewrite state_bind_run.
  destruct (_ <? 0); by apply (sys_neutral (handle_ s)).
Qed.

Lemma send_to_moves s buf ep o :
  clean (calls o) → handle_ s = kInvalidSocket ∨ handle_ s ∈ opens (calls o) →
  clean (calls (send_to s buf ep o).2) ∧
  opens (calls (send_to s buf ep o).2) = opens (calls o).
Proof.
  intros Hc Hs. unfold Sockets.send_to. destruct (sockaddr_from_endpoint _ _); [|done].
  rewrite state_bind_run. destruct (_ <? 0); by apply (sys_neutral (handle_ s)).
Qed.
Lemma held_open v H x s :
  owned v H → v !! x = Some s → handle_ s = kInvalidSocket ∨ handle_ s ∈ H.
Proof.
  intros [Hin _] Hx. destruct (Z.eq_dec (handle_ s) kInvalidSocket) as [|Hn]; [by left|].
  right. apply Hin. exists x. by apply (owns_Some v x s).
Qed.

Lemma ownership_opened p x s o :
  vars p !! x = None → ownership p → clean (calls o) →
  opened (opens (calls (system p))) s (opens (calls o)) →
  ownership {| vars := <[x := s]> (vars p); system := o |}.
Proof.
  intros Hx [_ Ho] Hc [Hs Heq]. split; [done|]. cbn [vars system]. rewrite Heq.
  apply owned_store; [|done..]. by apply vacant_fresh.
Qed.

Lemma ownership_closed p x s s' o :
  vars p !! x = Some s → ownership p → close os s (system p) = (s', o) →
  ownership {| vars := <[x := s']> (vars p); system := o |} ∧ s' = Socket_init.
Proof.
  intros Hx [Hc Ho] Hcl. pose proof (held_open _ _ _ _ Ho Hx) as Hs.
  unfold close in Hcl. rewrite state_bind_run in Hcl.
  destruct (close_handle_moves (handle_ s) (system p) Hc Hs) as [? Heq].
  injection Hcl as <- <-. split; [|done]. split; [done|]. simpl. rewrite Heq.
  by apply (owned_release _ _ _ s).
Qed.

Lemma ownership_step p p' : step p p' → ownership p → ownership p'.
Proof.
  intros Hstep Hown. pose proof Hown as [Hc Ho].
  destruct Hstep as [x Hx|x port r o Hx Hr|x port bl r o Hx Hr|x y s pe r pe' o Hx Hy Hr
    |x s len r o Hx Hr|x s buf ep r o Hx Hr|x y s Hx Hy|x y s t s' t' o Hxy Hx Hy Hr
    |x s Hx|x s s' o Hx Hr|x s s' o Hx Hr].
  - apply ownership_opened; [done..|]. split; [by left|done].
  - destruct (bind_udp_moves port (system p) Hc) as [? ?]. rewrite Hr in *.
    by apply ownership_opened.
  - destruct (listen_tcp_moves port bl (system p) Hc) as [? ?]. rewrite Hr in *.
    by apply ownership_opened.
  - destruct (accept_moves s pe (system p) Hc) as [? ?]; [by eapply held_open|].
    rewrite Hr in *. by apply ownership_opened.
  - destruct (recv_from_moves s len (system p) Hc) as [? He]; [by eapply held_open|].
    rewrite Hr in *. split; [done|]. cbn [snd vars system] in *. by rewrite He.
  - destruct (send_to_moves s buf ep (system p) Hc) as [? He]; [by eapply held_open|].
    rewrite Hr in *. split; [done|]. cbn [snd vars system] in *. by rewrite He.
  - split; [done|]. apply owned_transfer; [congruence|by apply vacant_fresh|done..].
  - unfold move_assign in Hr. rewrite state_bind_run in Hr. injection Hr as <- <- <-.
    destruct (close os s (system p)) as [s1 o1] eqn:Hcl.
    destruct (ownership_closed p x s s1 o1 Hx Hown Hcl) as [[Hc1 Ho1] ->].
    split; [done|]. cbn [vars system] in *.
    rewrite <-(insert_insert_eq _ x _ Socket_init), <-(insert_insert_ne _ y x) by done.
    apply (owned_transfer _ _ x y t); [done| | |done].
    + apply vacant_init, lookup_insert_eq.
    + by rewrite lookup_insert_ne.
  - done.
  - by apply (ownership_closed p x s s' o).
  - destruct (ownership_closed p x s s' o Hx Hown Hr) as [[Hc1 Ho1] ->].
    split; [done|]. cbn [vars system] in *.
    rewrite <-(delete_insert_eq (vars p) x Socket_init).
    apply owned_delete; [|done]. apply vacant_init, lookup_insert_eq.
Qed.

(** C24. No descriptor is leaked, shared or closed twice: in every
    reachable state of a program that uses sockets only by the operations of the
    class (factories, accept, moves, moves over a live socket, self-moves, close,
    destruction), a descriptor is open exactly if one variable, and only one,
    holds it, and no call was ever made on a descriptor that was not open. *)
Theorem sockets_owned p :
  rtc step Program_init p →
  (∀ h, h ∈ opens (calls (system p)) ↔
     h ≠ kInvalidSocket ∧ ∃ x, ∀ y, vars p !! y = Some {| handle_ := h |} ↔ y = x) ∧
  clean (calls (system p)).
Proof.
  intros Hr. assert (ownership p) as [Hc [Hin Huniq]].
  { refine (rtc_invariant step ownership _ _ _ Hr _).
    - intros a b Ha Hs. by apply (ownership_step a).
    - split; [apply always_nil|apply owned_empty]. }
  split; [|done]. intros h. rewrite Hin. split.
  - intros [x Hx]. pose proof Hx as [Hh Hs]. split; [done|]. exists x. intros y.
    split; [|by intros ->]. intros Hy. by apply (Huniq y x h).
  - intros [Hh [x Hx]]. exists x. split; [done|]. by apply Hx.
Qed.
End ownership.

(** ** Outcomes *)

Section outcomes.
Context (os : list (SysCall * Answer) → SysCall → Answer).
Context (inet_ntop : Family → Z → string) (inet_pton : Family → string → option Z).

(** [bind_udp] succeeds exactly if the kernel gave a
    descriptor and bound it; then the socket holds it and nothing but socket,
    SO_REUSEADDR and bind, to the port in network order, was called.  Otherwise
    it reports an internal error with an invalid socket, and a descriptor it was
    given is closed by its last call. *)
Theorem bind_udp_outcome port o :
  let '(r, o') := bind_udp os port o in
  ∃ a1 es, calls o' = calls o ++ (SSocket SOCK_DGRAM, a1) :: es ∧
  let h := ret a1 in
  if h =? kInvalidSocket
  then es = [] ∧ r = fail Internal "udp socket() failed"
  else ∃ a2 a3, let opening := [(SReuseAddr h, a2); (SBind h (htons port), a3)] in
    if ret a3 =? 0 then es = opening ∧ r = good {| handle_ := h |}
    else r = fail Internal ("udp bind() failed on port " +:+ pretty port) ∧
         ∃ a4, es = opening ++ [(SClose h, a4)].
Proof.
  destruct (bind_udp os port o) as [r o'] eqn:E. unfold bind_udp, close_handle in E.
  rewrite !state_bind_run in E. simpl in E.
  set (a1 := os (calls o) (SSocket SOCK_DGRAM)) in *. exists a1.
  destruct (ret a1 =? kInvalidSocket) eqn:Hh; [injection E as <- <-; exists []; cbv zeta; by rewrite Hh|].
  rewrite !state_bind_run in E. simpl in E.
  match type of E with context [negb (ret ?a =? 0)] => set (a3 := a) in * end.
  destruct (ret a3 =? 0) eqn:Hb; simpl in E.
  - injection E as <- <-. eexists. split; [cbn [calls]; by rewrite <-!app_assoc|].
    cbv zeta. rewrite ?Hh. eexists _, a3. by rewrite Hb.
  - rewrite state_bind_run in E. simpl in E.
    injection E as <- <-. eexists. split; [cbn [calls]; by rewrite <-!app_assoc|].
    cbv zeta. rewrite ?Hh. eexists _, a3. rewrite Hb. split; [done|]. by eexists.
Qed.
(** The address is one [inet_ntop] is given; the library's documented law is that
    [inet_pton] reads back what [inet_ntop] writes. *)
Definition addr_ok (f : Family) (a : Z) : Prop :=
  match f with AF_INET => fits 32 a | AF_INET6 => fits 128 a | AF_OTHER => False end.

Definition text_law : Prop := ∀ f a, addr_ok f a → inet_pton f (inet_ntop f a) = Some a.

(** The address of a socket address, for its family. *)
Definition addr_of (ss : sockaddr_storage) : Z :=
  if decide (ss_family ss = AF_INET6) then sin6_addr ss else sin_addr ss.

Definition sockaddr_ok (ss : sockaddr_storage) : Prop :=
  addr_ok (ss_family ss) (addr_of ss) ∧ fits 16 (ss_port ss).

Definition same_address (s t : sockaddr_storage) : Prop :=
  ss_family s = ss_family t ∧ ss_port s = ss_port t ∧ addr_of s = addr_of t.

Hypothesis law : text_law.

Lemma endpoint_roundtrip ss :
  sockaddr_ok ss →
  ∃ to, sockaddr_from_endpoint inet_pton (endpoint_from_sockaddr inet_ntop ss) = Some to ∧
    same_address ss to ∧ sin6_scope_id to = 0.
Proof.
  intros [Ha Hp]. unfold sockaddr_from_endpoint, endpoint_from_sockaddr, same_address, addr_of in *.
  destruct (decide (ss_family ss = AF_INET6)) as [Hf|Hf]; simpl.
  - rewrite Hf in Ha. rewrite law by done. eexists. simpl.
    rewrite htons_involutive by done. done.
  - assert (ss_family ss = AF_INET) as Hf' by (by destruct (ss_family ss)).
    rewrite Hf' in Ha. rewrite law by done. eexists. simpl.
    rewrite htons_involutive by done. done.
Qed.

(** C25. A reply goes where the datagram came from: whatever
    socket it is sent on, [send_to] to the endpoint [recv_from] reported makes
    one call, with the bytes and the family, port and address of the datagram's
    source (an IPv6 scope is lost), and reports exactly the call's outcome, a
    transient error as [Again]. *)
Theorem reply_reaches_source s len o from bytes o1 t buf :
  recv_from os inet_ntop s len o = (Datagram from bytes, o1) →
  let source := peer_addr (os (calls o) (SRecvFrom (handle_ s) len)) in
  sockaddr_ok source →
  ∃ to a, same_address source to ∧ sin6_scope_id to = 0 ∧
    calls (send_to os inet_pton t buf from o1).2 =
      calls o1 ++ [(SSendTo (handle_ t) buf to, a)] ∧
    (send_to os inet_pton t buf from o1).1 =
      if ret a <? 0 then error (if would_block (errno a) then Again else ConnectionLost)
                           "sendto() failed"
      else success.
Proof.
  intros Hr source Hok. unfold recv_from in Hr. rewrite state_bind_run in Hr.
  simpl in Hr. fold source in Hr.
  destruct (_ <? 0); [done|]. injection Hr as <- _ <-.
  destruct (endpoint_roundtrip source Hok) as (to & Hto & Hsame & Hscope).
  unfold send_to. rewrite Hto, state_bind_run. eexists to, _. split_and!; try done.
  - destruct (_ <? 0); done.
  - simpl. by case_match.
Qed.
End outcomes.

(** ** Samples *)

Module Sample.

(** A kernel that hands out unused descriptors, grants everything, and has one datagram to offer, from 203.0.113.7 port 9000. *)
Definition os (cs : list (SysCall * Answer)) (c : SysCall) : Answer :=
  {| ret := match c with
            | SSocket _ | SAccept _ => fresh (opens cs)
            | SRecvFrom _ _ => 2
            | SSendTo _ bytes _ => Z.of_nat (length bytes)
            | _ => 0
            end;
     errno := Errno_other 0;
     peer_addr := {| ss_family := AF_INET; ss_port := htons 9000; sin_addr := 119603403;
                     sin6_addr := 0; sin6_scope_id := 0 |};
     payload := [7; 9] |}.

(** Addresses as sixteen characters. *)
Definition ntop (f : Family) (a : Z) : string := string_of_bytes (le_bytes 16 a).
Definition pton (f : Family) (s : string) : option Z := Some (le_value (bytes_of_string s)).

Lemma text_law_ok : text_law ntop pton.
Proof.
  intros f a Ha. unfold pton, ntop.
  rewrite bytes_of_string_of_bytes, le_value_le_bytes by auto with redesk.
  f_equal. apply wrap_id. unfold fits in *. destruct f; [|done..]. destruct Ha as [? Hlt].
  split; [done|]. by apply (Z.lt_trans _ _ _ Hlt).
Qed.

Lemma os_fresh : kernel_fresh os.
Proof. intros cs c. destruct c; try done; right; apply is_fresh. Qed.

End Sample.

Lemma sockets_owned_witness :
  ∃ p, kernel_fresh Sample.os ∧ rtc (step Sample.os Sample.ntop Sample.pton) Program_init p ∧
    vars p !! "server" ≠ None ∧ vars p !! "udp" = None ∧
    clean (calls (system p)).
Proof.
  eexists. split; [exact Sample.os_fresh|].
  eassert (rtc (step Sample.os Sample.ntop Sample.pton) Program_init _) as Hr.
  { eapply rtc_l; [eapply (step_bind_udp _ _ _ _ "udp" 21116);
      [reflexivity|apply surjective_pairing]|].
    eapply rtc_l; [eapply (step_listen_tcp _ _ _ _ "server" 21116 64);
      [reflexivity|apply surjective_pairing]|].
    eapply rtc_l; [eapply (step_assign _ _ _ _ "server" "udp" _ _ _ _ _);
      [done|reflexivity|reflexivity|vm_compute; reflexivity]|].
    eapply rtc_l; [eapply (step_destroy _ _ _ _ "udp");
      [reflexivity|apply surjective_pairing]|].
    apply rtc_refl. }
  split; [exact Hr|]. split; [by vm_compute|]. split; [by vm_compute|].
  exact (proj2 (sockets_owned Sample.os Sample.ntop Sample.pton Sample.os_fresh _ Hr)).
Defined.

Lemma reply_reaches_source_witness :
  ∃ from bytes o1,
    recv_from Sample.os Sample.ntop {| handle_ := 3 |} 65536 {| calls := [] |} =
      (Datagram from bytes, o1) ∧
    sockaddr_ok (peer_addr (Sample.os [] (SRecvFrom 3 65536))) ∧
    ∃ to a, same_address (peer_addr (Sample.os [] (SRecvFrom 3 65536))) to ∧
      calls (send_to Sample.os Sample.pton {| handle_ := 4 |} [1] from o1).2 =
        calls o1 ++ [(SSendTo 4 [1] to, a)].
Proof.
  eexists _, _, _. split; [reflexivity|].
  assert (sockaddr_ok (peer_addr (Sample.os [] (SRecvFrom 3 65536)))) as Hok.
  { split; vm_compute; split; done. }
  split; [exact Hok|].
  destruct (reply_reaches_source Sample.os Sample.ntop Sample.pton Sample.text_law_ok
    {| handle_ := 3 |} 65536 {| calls := [] |} _ _ _ {| handle_ := 4 |} [1] eq_refl Hok)
    as (to & a & Hs & _ & Hc & _).
  exists to, a. split; [exact Hs|exact Hc].
Defined.
