(* ===== verification/Protocol.v ===== *)
(** * The rendezvous control protocol ([server/rendezvous/protocol.h],
    [server/rendezvous/protocol.cpp]) *)

From S2P Require Import Prelude Types.

Abbreviation RedeskId := string (only parsing).
Abbreviation StaticPubKey := (list Z) (only parsing).

Definition kStaticPubKeyLen : nat := 32.

Inductive MessageType :=
| Unknown | Register | RegisterOk | Lookup | LookupOk | LookupFail
| BrokerCandidates | Keepalive.

#[export] Instance MessageType_eq_dec : EqDecision MessageType.
Proof. solve_decision. Defined.

Definition MessageType_to_u8 (t : MessageType) : Z :=
  match t with
  | Unknown => 0
  | Register => 1
  | RegisterOk => 2
  | Lookup => 3
  | LookupOk => 4
  | LookupFail => 5
  | BrokerCandidates => 6
  | Keepalive => 7
  end.

(** [static_cast<MessageType>] of a byte in range. *)
Definition MessageType_of_u8 (t : Z) : MessageType :=
  match t with
  | 1 => Register
  | 2 => RegisterOk
  | 3 => Lookup
  | 4 => LookupOk
  | 5 => LookupFail
  | 6 => BrokerCandidates
  | 7 => Keepalive
  | _ => Unknown
  end.

Record Frame := {
  type : MessageType;
  id : string;
  body : list Z;
}.

Definition Frame_init : Frame := {| type := Unknown; id := ""; body := [] |}.
#[export] Instance value_init_Frame : ValueInit Frame := Frame_init.

Definition kMaxType : Z := MessageType_to_u8 Keepalive.

(** [data] is the buffer up to [len]. *)
Definition decode_frame (data : list Z) : Result Frame :=
  let need off n := (off + n <=? length data)%nat in
  let off := 0%nat in
  if negb (need off 1%nat) then fail InvalidArgument "short frame: type" else
  let t := data !!! off in
  let off := (off + 1)%nat in
  if (t =? 0) || (kMaxType <? t) then good Frame_init else
  if negb (need off 1%nat) then fail InvalidArgument "short frame: id_len" else
  let id_len := Z.to_nat (data !!! off) in
  let off := (off + 1)%nat in
  if negb (need off id_len) then fail InvalidArgument "short frame: id" else
  let fid := string_of_bytes (take id_len (drop off data)) in
  let off := (off + id_len)%nat in
  if negb (need off 2%nat) then fail InvalidArgument "short frame: body_len" else
  let body_len :=
    Z.to_nat (to_u16 (Z.lor (Z.shiftl (data !!! off) 8) (data !!! (off + 1)%nat))) in
  let off := (off + 2)%nat in
  if negb (need off body_len) then fail InvalidArgument "short frame: body" else
  good {| type := MessageType_of_u8 t; id := fid; body := take body_len (drop off data) |}.

Definition encode_frame (f : Frame) : list Z :=
  let ids := bytes_of_string (id f) in
  let id_len := to_u8 (if 255 <? Z.of_nat (length ids) then 255 else Z.of_nat (length ids)) in
  let body_len :=
    to_u16 (if 65535 <? Z.of_nat (length (body f)) then 65535 else Z.of_nat (length (body f))) in
  [to_u8 (MessageType_to_u8 (type f))] ++ [id_len] ++ take (Z.to_nat id_len) ids ++
  [to_u8 (Z.shiftr body_len 8)] ++ [to_u8 (Z.land body_len 255)] ++
  take (Z.to_nat body_len) (body f).

(** ** The codec is exact *)

(** The frames the format can carry. *)
Record frame_ok (f : Frame) : Prop := {
  frame_type_ok : type f ≠ Unknown;
  frame_id_ok : Z.of_nat (String.length (id f)) ≤ 255;
  frame_body_ok : Z.of_nat (length (body f)) ≤ 65535;
  frame_bytes_ok : bytes_ok (body f);
}.

Definition kMaxId : nat := Z.to_nat 255.
Definition kMaxBody : nat := Z.to_nat 65535.

(** What [encode_frame] keeps of a frame: the first 255 bytes of the id and the
    first 65535 of the body. *)
Definition clip (f : Frame) : Frame := {|
  type := type f;
  id := string_of_bytes (take kMaxId (bytes_of_string (id f)));
  body := take kMaxBody (body f);
|}.

Lemma u16_split n :
  fits 16 n → Z.lor (Z.shiftl (to_u8 (Z.shiftr n 8)) 8) (to_u8 (Z.land n 255)) = n.
Proof.
  intros Hn. rewrite land_255, wrap_wrap. rewrite shiftl_lor_add; [|apply byte_ok_wrap|lia].
  unfold wrap. rewrite Z.shiftr_div_pow2 by lia. unfold fits in Hn.
  pose proof (Z.div_mod n (2 ^ 8)). rewrite (Z.mod_small (n / 2 ^ 8)); [lia|].
  split; [apply Z.div_pos; lia|apply Z.div_lt_upper_bound; lia].
Qed.

Lemma MessageType_of_to_u8 t : MessageType_of_u8 (MessageType_to_u8 t) = t.
Proof. by destruct t. Qed.

Lemma encode_frame_shape f :
  encode_frame f =
    MessageType_to_u8 (type f) ::
    Z.of_nat (length (take kMaxId (bytes_of_string (id f)))) ::
    take kMaxId (bytes_of_string (id f)) ++
    to_u8 (Z.shiftr (Z.of_nat (length (take kMaxBody (body f)))) 8) ::
    to_u8 (Z.land (Z.of_nat (length (take kMaxBody (body f)))) 255) ::
    take kMaxBody (body f).
Proof.
  unfold encode_frame. set (ids := bytes_of_string (id f)). set (b := body f).
  assert (∀ (l : list Z) n, 0 ≤ n →
    (if n <? Z.of_nat (length l) then n else Z.of_nat (length l)) =
    Z.of_nat (length (take (Z.to_nat n) l))) as Hmin.
  { intros l n Hn. rewrite length_take. destruct (Z.ltb_spec n (Z.of_nat (length l))); lia. }
  assert (∀ (l : list Z) n, take (length (take n l)) l = take n l) as Htk.
  { intros l n. rewrite length_take. destruct (decide (n ≤ length l)%nat).
    - by rewrite Nat.min_l by done.
    - rewrite Nat.min_r by lia. by rewrite !take_ge by lia. }
  rewrite !Hmin by lia. fold kMaxId kMaxBody.
  assert (Z.of_nat (length (take kMaxId ids)) ≤ 255) by
    (unfold kMaxId; rewrite length_take; lia).
  assert (Z.of_nat (length (take kMaxBody b)) ≤ 65535) by
    (unfold kMaxBody; rewrite length_take; lia).
  rewrite (wrap_id 8 (Z.of_nat _)) by (unfold fits; lia).
  rewrite (wrap_id 16) by (unfold fits; lia).
  rewrite !Nat2Z.id, !Htk. cbn [app]. f_equal. by destruct (type f).
Qed.

(** Where the parts of a frame are. *)
Lemma frame_parts t n (ids : list Z) h l tl :
  let data := t :: n :: ids ++ h :: l :: tl in
  data !!! (2 + length ids)%nat = h ∧ data !!! (2 + length ids + 1)%nat = l ∧
  drop (2 + length ids + 2) data = tl.
Proof.
  intros data.
  assert (drop (2 + length ids) data = h :: l :: tl) as Hd
    by (unfold data; simpl; by rewrite drop_app_length).
  split_and!.
  - apply list_lookup_total_correct. rewrite <-(Nat.add_0_r (2 + _)), <-lookup_drop. by rewrite Hd.
  - apply list_lookup_total_correct. rewrite <-lookup_drop. by rewrite Hd.
  - by rewrite <-drop_drop, Hd.
Qed.

(** The buffer of a whole frame, with whatever follows it. *)
Lemma decode_shape t ids h l b rest :
  0 < t ≤ kMaxType → Z.to_nat (to_u16 (Z.lor (Z.shiftl h 8) l)) = length b →
  decode_frame (t :: Z.of_nat (length ids) :: ids ++ h :: l :: b ++ rest) =
    good {| type := MessageType_of_u8 t; id := string_of_bytes ids; body := b |}.
Proof.
  intros Ht Hl. destruct (frame_parts t (Z.of_nat (length ids)) ids h l (b ++ rest))
    as (Hh & Hll & Hb).
  set (data := t :: _) in *.
  assert (length data = (length ids + length b + length rest + 4)%nat) as Hlen.
  { unfold data. simpl. rewrite length_app. simpl. rewrite length_app. lia. }
  unfold decode_frame. cbv zeta.
  change (data !!! 0%nat) with t. change (data !!! (0 + 1)%nat) with (Z.of_nat (length ids)).
  rewrite Nat2Z.id. replace (0 + 1 + 1)%nat with 2%nat by lia.
  rewrite Hh, Hll, Hb, Hl.
  rewrite !(proj2 (Nat.leb_le _ _)) by lia. simpl negb. cbn iota.
  rewrite (proj2 (Z.eqb_neq t 0)), (proj2 (Z.ltb_ge kMaxType t)) by lia. simpl orb. cbn iota.
  change (drop 2 data) with (ids ++ h :: l :: b ++ rest).
  by rewrite !take_app_length.
Qed.

Lemma type_in_range t : t ≠ Unknown → 0 < MessageType_to_u8 t ≤ kMaxType.
Proof. unfold kMaxType. destruct t; simpl; (done || lia). Qed.

(** Decoding what [encode_frame] wrote, with anything after it. *)
Lemma decode_encode f rest :
  type f ≠ Unknown → decode_frame (encode_frame f ++ rest) = good (clip f).
Proof.
  intros Ht. rewrite encode_frame_shape. simpl app. rewrite <-app_assoc. simpl app.
  rewrite decode_shape.
  - by rewrite MessageType_of_to_u8.
  - by apply type_in_range.
  - rewrite u16_split.
    + rewrite wrap_id; [lia|]. unfold fits, kMaxBody. rewrite length_take. lia.
    + unfold fits, kMaxBody. rewrite length_take. lia.
Qed.

Lemma clip_ok f : frame_ok f → clip f = f.
Proof.
  intros [_ Hi Hb _]. destruct f as [t i b]. unfold clip. simpl in *.
  rewrite take_ge by (rewrite length_bytes_of_string; unfold kMaxId; lia).
  rewrite string_of_bytes_of_string. rewrite take_ge by (unfold kMaxBody; lia). done.
Qed.

(** A split of a buffer at an offset inside it. *)
Lemma split_two (data : list Z) n :
  (n + 2 ≤ length data)%nat →
  ∃ ids h l tl, data = ids ++ h :: l :: tl ∧ length ids = n ∧
    take n data = ids ∧ drop n data = h :: l :: tl.
Proof.
  intros Hn. destruct (drop n data) as [|h [|l tl]] eqn:E;
    [apply (f_equal length) in E; rewrite length_drop in E; simpl in E; lia..|].
  exists (take n data), h, l, tl. split_and!; [|rewrite length_take; lia|done|done].
  by rewrite <-E, take_drop.
Qed.

(** Conversely: a buffer that decodes to a known type has that shape. *)
Lemma decode_known data f :
  bytes_ok data → decode_frame data = good f → type f ≠ Unknown →
  ∃ t n ids h l b rest, data = t :: n :: ids ++ h :: l :: b ++ rest ∧
    0 < t ≤ kMaxType ∧ length ids = Z.to_nat n ∧
    length b = Z.to_nat (to_u16 (Z.lor (Z.shiftl h 8) l)) ∧
    f = {| type := MessageType_of_u8 t; id := string_of_bytes ids; body := b |}.
Proof.
  intros Hb Hdec Ht. unfold decode_frame in Hdec. cbv zeta in Hdec.
  destruct data as [|t [|n data]]; try done.
  { simpl in Hdec. case_match; [|done]. by inversion Hdec; subst. }
  apply Forall_cons in Hb as [[Hbt _] _].
  change ((t :: n :: data) !!! 0%nat) with t in Hdec.
  change ((t :: n :: data) !!! (0 + 1)%nat) with n in Hdec.
  replace (0 + 1 + 1)%nat with 2%nat in Hdec by lia.
  change (negb (0 + 1 <=? length (t :: n :: data))%nat) with false in Hdec.
  change (negb (2 <=? length (t :: n :: data))%nat) with false in Hdec. cbn iota in Hdec.
  destruct ((t =? 0) || (kMaxType <? t)) eqn:Erange; [by injection Hdec as <-|].
  apply orb_false_iff in Erange as [Et0%Z.eqb_neq Et1%Z.ltb_ge].
  destruct (negb (2 + Z.to_nat n <=? _)%nat); [done|].
  destruct (negb (2 + Z.to_nat n + 2 <=? _)%nat) eqn:E2; [done|].
  apply negb_false_iff, Nat.leb_le in E2. simpl in E2.
  destruct (split_two data (Z.to_nat n)) as (ids & h & l & tl & -> & Hids & Htake & Hdrop); [lia|].
  destruct (frame_parts t n ids h l tl) as (Hh & Hl & Htl).
  rewrite <-Hids in Hdec. rewrite Hh, Hl, Htl in Hdec.
  change (drop 2 (t :: n :: ids ++ h :: l :: tl)) with (ids ++ h :: l :: tl) in Hdec.
  rewrite take_app_length in Hdec.
  destruct (negb (_ <=? _)%nat) eqn:E3; [done|]. apply negb_false_iff, Nat.leb_le in E3.
  simpl in E3. rewrite length_app in E3. simpl in E3. injection Hdec as <-.
  set (m := Z.to_nat (to_u16 _)) in *.
  exists t, n, ids, h, l, (take m tl), (drop m tl).
  split_and!; [by rewrite take_drop|lia|lia|done| |done].
  rewrite length_take. lia.
Qed.

Lemma u16_join h l :
  byte_ok h → byte_ok l →
  let m := to_u16 (Z.lor (Z.shiftl h 8) l) in
  m = h * 256 + l ∧ to_u8 (Z.shiftr m 8) = h ∧ to_u8 (Z.land m 255) = l.
Proof.
  intros Hh Hl m. unfold byte_ok in *.
  assert (m = h * 256 + l) as Hm.
  { unfold m. rewrite shiftl_lor_add by (done || lia). apply wrap_id. unfold fits in *. lia. }
  split; [done|]. rewrite Hm. split.
  - rewrite Z.shiftr_div_pow2 by lia. change (2 ^ 8) with 256.
    rewrite Z.div_add_l by lia. rewrite (Z.div_small l) by done. rewrite Z.add_0_r. by apply wrap_id.
  - rewrite land_255, wrap_wrap. unfold wrap. change (2 ^ 8) with 256.
    rewrite Z.add_comm, Z_mod_plus_full. by apply Z.mod_small.
Qed.

Lemma MessageType_to_of_u8 t :
  0 < t ≤ kMaxType → MessageType_to_u8 (MessageType_of_u8 t) = t ∧ MessageType_of_u8 t ≠ Unknown.
Proof.
  change kMaxType with 7. intros Ht.
  assert (t = 1 ∨ t = 2 ∨ t = 3 ∨ t = 4 ∨ t = 5 ∨ t = 6 ∨ t = 7) as Hcase by lia.
  by destruct_or! Hcase; subst t.
Qed.

Lemma decode_inv data f :
  bytes_ok data → decode_frame data = good f → type f ≠ Unknown →
  frame_ok f ∧ ∃ rest, data = encode_frame f ++ rest.
Proof.
  intros Hb Hdec Ht.
  destruct (decode_known data f Hb Hdec Ht)
    as (t & n & ids & h & l & b & rest & -> & Hrange & Hids & Hlen & ->).
  apply Forall_cons in Hb as [_ [Hbn Hb]%Forall_cons].
  apply Forall_app in Hb as [Hbi [Hbh [Hbl Hb]%Forall_cons]%Forall_cons].
  apply Forall_app in Hb as [Hbb _].
  destruct (u16_join h l Hbh Hbl) as (Hm & Hhi & Hlo).
  set (m := to_u16 _) in *. unfold byte_ok in *.
  assert (Z.of_nat (length b) = m) as Hbm by (unfold fits in *; lia).
  split.
  { unfold fits in *. split; simpl; [by apply (MessageType_to_of_u8 t)| |lia|done].
    rewrite <-length_bytes_of_string, bytes_of_string_of_bytes by done. lia. }
  exists rest. rewrite encode_frame_shape. simpl type. simpl id. simpl body.
  rewrite bytes_of_string_of_bytes by done. unfold fits in *.
  rewrite (take_ge ids) by (unfold kMaxId; lia).
  rewrite (take_ge b) by (unfold kMaxBody; lia).
  rewrite Hbm, Hhi, Hlo. rewrite (proj1 (MessageType_to_of_u8 t Hrange)).
  replace (Z.of_nat (length ids)) with n by lia. simpl app. by rewrite <-app_assoc.
Qed.

Lemma decode_frame_ok data :
  Result_ok (decode_frame data) = true → decode_frame data = good (value (decode_frame data)).
Proof. unfold decode_frame. cbv zeta. by repeat case_match. Qed.

(** C33. The frame codec on arbitrary bytes: a datagram decodes
    to a frame of known type exactly when it starts with that frame's encoding;
    every frame with an id of at most 255 bytes and a body of at most 65535 is
    carried unchanged, whatever follows it in the datagram. *)
Theorem frame_codec_exact data f :
  bytes_ok data → type f ≠ Unknown →
  decode_frame data = good f ↔ frame_ok f ∧ ∃ rest, data = encode_frame f ++ rest.
Proof.
  intros Hb Ht. split; [by intros; apply decode_inv|].
  intros (Hok & rest & ->). rewrite decode_encode by done. by rewrite clip_ok.
Qed.

(** Encoding never overflows a length field: the encoding
    of any frame decodes to the frame with its id cut to 255 and its body to
    65535 bytes. *)
Theorem frame_encode_clips f :
  type f ≠ Unknown → decode_frame (encode_frame f) = good (clip f).
Proof. intros Ht. rewrite <-(app_nil_r (encode_frame f)). by apply decode_encode. Qed.

(** ** Witnesses *)

Definition sample_frame : Frame :=
  {| type := Lookup; id := "123456789"; body := [1; 2; 3] |}.

Lemma frame_codec_exact_witness :
  decode_frame (encode_frame sample_frame ++ [9; 9]) = good sample_frame.
Proof.
  apply (frame_codec_exact (encode_frame sample_frame ++ [9; 9]) sample_frame).
  - apply (bool_decide_unpack _). by vm_compute.
  - done.
  - split; [|by exists [9; 9]]. split; [done|by vm_compute|by vm_compute|].
    apply (bool_decide_unpack _). by vm_compute.
Defined.

Lemma frame_encode_clips_witness :
  decode_frame (encode_frame {| type := Register; id := "x"; body := replicate 300 7 |}) =
    good (clip {| type := Register; id := "x"; body := replicate 300 7 |}).
Proof. by apply frame_encode_clips. Defined.
