(* ===== verification/Registry.v ===== *)
(** * The registry interface and its in-memory store
    ([server/rendezvous/registry_store.h], [server/rendezvous/registry_store.cpp])

    [RegistryStore] is the abstract class; [RegistryContract] states, against a
    ghost view of the contents, what the rendezvous server's proofs use;
    [InMemoryRegistry] is the map the server runs on and an instance of the
    contract.  The coarse mutex serializes the calls, so each is one step. *)

From S2P Require Import Prelude Types Net Protocol.

Record PeerRecord := {
  rec_id : RedeskId;
  endpoint : Endpoint;
  static_pubkey : StaticPubKey;
  capabilities : Z;
  last_seen_unix_s : Z;
}.

(** ** The interface *)

Class RegistryStore (R : Type) := {
  upsert : PeerRecord → R → Status * R;
  lookup : RedeskId → R → option PeerRecord;
  expire : Z → Z → R → Z * R;
  size : R → Z;
}.

Definition kSquatGuardWindowS : Z := 90.

(** The stale test of [expire], and the live test of the squat guard. *)
Definition stale (now ttl : Z) (r : PeerRecord) : bool := ttl <? now - last_seen_unix_s r.
Definition live_at (now : Z) (r : PeerRecord) : bool :=
  now - last_seen_unix_s r <? kSquatGuardWindowS.

(** [rec] may replace what the registry holds for its id. *)
Definition may_replace (rec : PeerRecord) (prior : option PeerRecord) : Prop :=
  match prior with
  | None => True
  | Some old => live_at (last_seen_unix_s rec) old = true → static_pubkey old = static_pubkey rec
  end.

Definition record_valid (rec : PeerRecord) : Prop :=
  rec_id rec ≠ "" ∧ length (static_pubkey rec) = kStaticPubKeyLen.

(** What an implementation promises, on a view of its contents as a map. *)
Class RegistryContract (R : Type) `{RegistryStore R} := {
  contents : R → gmap string PeerRecord;
  lookup_contents i r : lookup i r = contents r !! i;
  size_contents r : size r = Z.of_nat (base.size (contents r));
  upsert_ok rec r :
    record_valid rec → may_replace rec (contents r !! rec_id rec) →
    (upsert rec r).1 = success ∧ contents (upsert rec r).2 = <[rec_id rec := rec]> (contents r);
  upsert_refused rec r :
    ¬ (record_valid rec ∧ may_replace rec (contents r !! rec_id rec)) →
    Status_ok (upsert rec r).1 = false ∧ contents (upsert rec r).2 = contents r;
  expire_contents now ttl r :
    contents (expire now ttl r).2 = filter (λ '(_, rec), stale now ttl rec = false) (contents r);
  expire_count now ttl r :
    (expire now ttl r).1 = size r - size (expire now ttl r).2;
}.

#[export] Instance may_replace_dec rec prior : Decision (may_replace rec prior).
Proof. destruct prior; simpl; apply _. Defined.
#[export] Instance record_valid_dec rec : Decision (record_valid rec).
Proof. unfold record_valid. apply _. Defined.

(** ** The in-memory store *)

Module InMemory.

Record InMemoryRegistry := { map_ : gmap string PeerRecord }.

Definition upsert (rec : PeerRecord) (r : InMemoryRegistry) : Status * InMemoryRegistry :=
  if bool_decide (rec_id rec = "") then
    (error InvalidArgument "empty REDesk-ID", r)
  else if negb (length (static_pubkey rec) =? kStaticPubKeyLen)%nat then
    (error InvalidArgument "static pubkey must be 32 bytes (X25519)", r)
  else
    let refused :=
      match map_ r !! rec_id rec with
      | None => false
      | Some it =>
          let prior_live := last_seen_unix_s rec - last_seen_unix_s it <? kSquatGuardWindowS in
          let key_changed := bool_decide (static_pubkey it ≠ static_pubkey rec) in
          prior_live && key_changed
      end in
    if refused then
      (error PermissionDenied "REDesk-ID held by a live peer with a different key", r)
    else (success, {| map_ := <[rec_id rec := rec]> (map_ r) |}).

Definition lookup (i : RedeskId) (r : InMemoryRegistry) : option PeerRecord := map_ r !! i.

(** The loop erases and counts the entries whose last contact is too old. *)
Definition expire (now ttl : Z) (r : InMemoryRegistry) : Z * InMemoryRegistry :=
  let '(removed, m) := erase_if (λ rec, ttl <? now - last_seen_unix_s rec) (map_ r) in
  (removed, {| map_ := m |}).

Definition size (r : InMemoryRegistry) : Z := Z.of_nat (base.size (map_ r)).

Definition make_in_memory_registry : InMemoryRegistry := {| map_ := ∅ |}.

End InMemory.

#[export] Instance InMemoryRegistry_store : RegistryStore InMemory.InMemoryRegistry := {
  upsert := InMemory.upsert;
  lookup := InMemory.lookup;
  expire := InMemory.expire;
  size := InMemory.size;
}.

(** ** The store meets the contract *)

(** The squat guard's test. *)
Lemma squat_test rec prior :
  match prior with
  | None => false
  | Some it =>
      (last_seen_unix_s rec - last_seen_unix_s it <? kSquatGuardWindowS) &&
      bool_decide (static_pubkey it ≠ static_pubkey rec)
  end = bool_decide (¬ may_replace rec prior).
Proof.
  destruct prior as [old|]; [|symmetry; apply bool_decide_false; simpl; tauto].
  fold (live_at (last_seen_unix_s rec) old).
  destruct (live_at (last_seen_unix_s rec) old) eqn:El;
    destruct (decide (may_replace rec (Some old))) as [Hm|Hm]; simpl andb;
    rewrite ?(bool_decide_true (¬ may_replace _ _)), ?(bool_decide_false (¬ may_replace _ _))
      by tauto; try done.
  - apply bool_decide_false. intros Hk. by apply Hk, Hm.
  - apply bool_decide_true. intros Hk. apply Hm. by intros _.
  - destruct Hm. simpl. by rewrite El.
Qed.

(** One test decides whether the record is stored. *)
Lemma upsert_cases rec r :
  if decide (record_valid rec ∧ may_replace rec (InMemory.map_ r !! rec_id rec))
  then InMemory.upsert rec r =
         (success, {| InMemory.map_ := <[rec_id rec := rec]> (InMemory.map_ r) |})
  else ∃ st, Status_ok st = false ∧ InMemory.upsert rec r = (st, r).
Proof.
  unfold InMemory.upsert. rewrite squat_test. unfold record_valid.
  case_decide as Hd.
  - destruct Hd as [[Hid Hlen] Hm]. rewrite bool_decide_false by done. rewrite Hlen. simpl.
    by rewrite bool_decide_false by tauto.
  - case_bool_decide as Hid; [exists_refl|].
    destruct (Nat.eqb_spec (length (static_pubkey rec)) kStaticPubKeyLen); [|exists_refl].
    simpl. rewrite bool_decide_true by tauto. exists_refl.
Qed.

Lemma expire_spec now ttl r :
  let out := InMemory.expire now ttl r in
  InMemory.map_ out.2 =
    filter (λ '(_, rec), stale now ttl rec = false) (InMemory.map_ r) ∧
  out.1 = Z.of_nat (base.size (InMemory.map_ r)) - Z.of_nat (base.size (InMemory.map_ out.2)).
Proof.
  unfold InMemory.expire. pose proof (erase_if_spec (stale now ttl) (InMemory.map_ r)) as H.
  unfold stale in H. by destruct (erase_if _ _).
Qed.

#[export] Instance InMemoryRegistry_contract : RegistryContract InMemory.InMemoryRegistry.
Proof.
  refine {| contents := InMemory.map_ |}.
  - done.
  - done.
  - intros rec r Hv Hm. pose proof (upsert_cases rec r) as H.
    rewrite decide_True in H by done. simpl. by rewrite H.
  - intros rec r Hn. pose proof (upsert_cases rec r) as H.
    rewrite decide_False in H by done. destruct H as (st & Hst & H). simpl. by rewrite H.
  - intros now ttl r. apply expire_spec.
  - intros now ttl r. apply expire_spec.
Defined.
