(* ===== verification/Signer.v ===== *)
(** * The signed introducer ([server/rendezvous/signer.h],
    [server/rendezvous/signer.cpp])

    [Signer] is the abstract class; [SignerContract] states what the rendezvous
    server's proofs use: a signature is produced for every 32-byte key, and a
    client's verification accepts it on the canonical message.  The insecure
    test signer of the default build and the libsodium signer are its two
    implementations; libsodium's functions are parameters. *)

From S2P Require Import Prelude Types Protocol.

Definition kEd25519PubKeyLen : nat := 32.
Definition kEd25519SigLen : nat := 64.
Definition kIntroDomain : string := "REDESK-INTRO-v1".

(** [domain || id || static_pubkey]. *)
Definition intro_message (i : RedeskId) (pk : StaticPubKey) : list Z :=
  bytes_of_string kIntroDomain ++ bytes_of_string i ++ pk.

(** ** The interface *)

Class Signer (S : Type) := {
  verify_key : S → list Z;
  sign_peer_key : S → RedeskId → StaticPubKey → Result (list Z);
  is_secure : S → bool;
}.

(** A verifier, for a verify key, a message and a signature. *)
Definition Verifier : Type := list Z → list Z → list Z → bool.

Class SignerContract (S : Type) `{Signer S} (verifies : Verifier) := {
  sign_ok s i pk :
    length pk = kStaticPubKeyLen →
    ∃ sig, sign_peer_key s i pk = good sig ∧
      verifies (verify_key s) (intro_message i pk) sig = true;
  sign_bad_length s i pk :
    length pk ≠ kStaticPubKeyLen → Result_ok (sign_peer_key s i pk) = false;
}.

(** ** The insecure test signer *)

Module Insecure.

(** The object holds the labelled key only. *)
Record InsecureTestSigner := { verify_key_ : list Z }.

Definition make_insecure_test_signer : InsecureTestSigner :=
  {| verify_key_ := take kEd25519PubKeyLen
       (bytes_of_string "INSECURE-TEST-ONLY-RENDEZVOUS-KY") |}.

(** One step of the mixing loop: position, hash and signature so far. *)
Definition mix_step (acc : nat * Z * list Z) (b : Z) : nat * Z * list Z :=
  let '(i, h, sig) := acc in
  let h := to_u64 (Z.lxor h b * 1099511628211) in
  let k := (i `mod` kEd25519SigLen)%nat in
  (S i, h, <[k := Z.lxor (sig !!! k) (to_u8 (Z.land h 255))]> sig).

Definition mix (msg : list Z) : list Z :=
  (fold_left mix_step msg (0%nat, 1469598103934665603, replicate kEd25519SigLen 0)).2.

Definition sign_peer_key (s : InsecureTestSigner) (i : RedeskId) (pk : StaticPubKey)
    : Result (list Z) :=
  if negb (length pk =? kStaticPubKeyLen)%nat then
    fail InvalidArgument "static pubkey must be 32 bytes"
  else
    let sig := mix (intro_message i pk) in
    good (bytes_of_string "FAKE" ++ drop 4 sig).

Definition is_secure (s : InsecureTestSigner) : bool := false.

End Insecure.

#[export] Instance InsecureTestSigner_signer : Signer Insecure.InsecureTestSigner := {
  verify_key := Insecure.verify_key_;
  sign_peer_key := Insecure.sign_peer_key;
  is_secure := Insecure.is_secure;
}.

(** What a test verifier can do: recompute. *)
Definition recompute : Verifier := λ vk msg sig,
  bool_decide (sig = bytes_of_string "FAKE" ++ drop 4 (Insecure.mix msg)).

#[export] Instance InsecureTestSigner_contract :
  SignerContract Insecure.InsecureTestSigner recompute.
Proof.
  split; simpl; unfold Insecure.sign_peer_key.
  - intros s i pk ->. simpl. eexists. split; [done|]. by apply bool_decide_true.
  - intros s i pk Hn. by rewrite (proj2 (Nat.eqb_neq _ _) Hn).
Qed.

(** ** The libsodium signer *)

Module Libsodium.

Record LibsodiumSigner := { verify_key_ : list Z; sk_ : list Z }.

Section libsodium.
(** [crypto_sign_detached sk msg]: the signature, [None] for a non-zero return. *)
Context (crypto_sign_detached : list Z → list Z → option (list Z)).
(** [crypto_sign_keypair] and [crypto_sign_seed_keypair]: public and secret key. *)
Context (crypto_sign_keypair : list Z * list Z).
Context (crypto_sign_seed_keypair : list Z → list Z * list Z).
Context (sodium_init : Z).
Context (crypto_sign_SEEDBYTES : nat).

Definition sign_peer_key (s : LibsodiumSigner) (i : RedeskId) (pk : StaticPubKey)
    : Result (list Z) :=
  if negb (length pk =? kStaticPubKeyLen)%nat then
    fail InvalidArgument "static pubkey must be 32 bytes"
  else
    match crypto_sign_detached (sk_ s) (intro_message i pk) with
    | None => fail Internal "crypto_sign_detached failed"
    | Some sig => good sig
    end.

Definition is_secure (s : LibsodiumSigner) : bool := true.

Definition signer_of (keys : list Z * list Z) : LibsodiumSigner :=
  {| verify_key_ := keys.1; sk_ := keys.2 |}.

Definition make_libsodium_signer (seed : list Z) : Status * option LibsodiumSigner :=
  if sodium_init <? 0 then (error Internal "sodium_init failed", None)
  else if bool_decide (seed = []) then (success, Some (signer_of crypto_sign_keypair))
  else if (length seed =? crypto_sign_SEEDBYTES)%nat then
    (success, Some (signer_of (crypto_sign_seed_keypair seed)))
  else (error InvalidArgument
          ("Ed25519 seed must be " +:+ pretty (Z.of_nat crypto_sign_SEEDBYTES) +:+ " bytes"), None).

(** libsodium documents that signing with a generated secret key succeeds and
    that [crypto_sign_verify_detached] accepts the result under the public key
    of the pair. *)
Context (crypto_sign_verify_detached : list Z → list Z → list Z → bool).
Context (keypair : list Z → list Z → Prop).
Context (sign_verify : ∀ pk sk msg, keypair pk sk →
  ∃ sig, crypto_sign_detached sk msg = Some sig ∧
    crypto_sign_verify_detached pk msg sig = true).
Context (generated : ∀ seed, keypair (crypto_sign_seed_keypair seed).1
                                     (crypto_sign_seed_keypair seed).2).
Context (random : keypair crypto_sign_keypair.1 crypto_sign_keypair.2).

Lemma make_libsodium_signer_keys seed s st :
  make_libsodium_signer seed = (st, Some s) → keypair (verify_key_ s) (sk_ s).
Proof.
  unfold make_libsodium_signer, signer_of. intros H. repeat case_match; simplify_eq; simpl;
    [apply random|apply generated].
Qed.

(** Whoever verifies with the signer's public key accepts its introductions. *)
Lemma libsodium_introduces seed s st i pk :
  make_libsodium_signer seed = (st, Some s) → length pk = kStaticPubKeyLen →
  ∃ sig, sign_peer_key s i pk = good sig ∧
    crypto_sign_verify_detached (verify_key_ s) (intro_message i pk) sig = true.
Proof.
  intros Hs Hl. apply make_libsodium_signer_keys in Hs.
  destruct (sign_verify _ _ (intro_message i pk) Hs) as (sig & Hd & Hv).
  exists sig. split; [|done]. unfold sign_peer_key. by rewrite Hl, Hd.
Qed.
End libsodium.

End Libsodium.

(** ** The signed message binds id and key *)

Lemma intro_message_cut i pk i' pk' :
  length pk = length pk' → intro_message i pk = intro_message i' pk' → i = i' ∧ pk = pk'.
Proof.
  intros Hl H. unfold intro_message in H. apply app_inv_head in H.
  apply app_inj_2 in H as [Hi Hp]; [|done]. split; [by apply bytes_of_string_inj|done].
Qed.

Lemma mix_step_length i h sig b : length (Insecure.mix_step (i, h, sig) b).2 = length sig.
Proof. apply length_insert. Qed.

Lemma length_mix msg : length (Insecure.mix msg) = kEd25519SigLen.
Proof.
  unfold Insecure.mix. assert (∀ acc, length acc.2 = kEd25519SigLen →
    length (fold_left Insecure.mix_step msg acc).2 = kEd25519SigLen) as H.
  { induction msg as [|b msg IH]; intros [[i h] sig] Hl; [done|].
    simpl fold_left. apply IH. rewrite <-Hl. apply mix_step_length. }
  apply H. apply length_replicate.
Qed.

(** The signed message binds id and key: the messages signed for two
    introductions with 32-byte keys are equal only if the ids and the keys are
    equal, whatever lengths the ids have, so a signature made for one id is a
    signature on another message for any other id. *)
Theorem intro_binds_id i pk i' pk' :
  length pk = kStaticPubKeyLen → length pk' = kStaticPubKeyLen →
  intro_message i pk = intro_message i' pk' ↔ i = i' ∧ pk = pk'.
Proof.
  intros Hl Hl'. split; [apply intro_message_cut; congruence|by intros [-> ->]].
Qed.

(** Every signature of the default build's signer
    is 64 bytes long and starts with the marker FAKE, its verify key is 32
    bytes, and it reports itself insecure; a key of another length is refused. *)
Theorem insecure_signature_marked i pk :
  let s := Insecure.make_insecure_test_signer in
  length (verify_key s) = kEd25519PubKeyLen ∧ is_secure s = false ∧
  if bool_decide (length pk = kStaticPubKeyLen) then
    ∃ sig, sign_peer_key s i pk = good sig ∧ length sig = kEd25519SigLen ∧
      take 4 sig = bytes_of_string "FAKE"
  else Result_ok (sign_peer_key s i pk) = false.
Proof.
  split_and!; [done..|]. simpl. unfold Insecure.sign_peer_key. case_bool_decide as Hl.
  - rewrite Hl. simpl negb. cbn iota. eexists. split; [done|]. split; [|done].
    rewrite length_app, length_drop, length_mix. done.
  - by rewrite (proj2 (Nat.eqb_neq _ _) Hl).
Qed.

(** ** Witnesses *)

Lemma intro_binds_id_witness :
  intro_message "1" (replicate 32 7) ≠ intro_message "2" (replicate 32 7).
Proof.
  intros H. apply (intro_binds_id "1" (replicate 32 7) "2" (replicate 32 7)) in H; [|done..].
  by destruct H.
Defined.
