(* ===== verification/Rendezvous.v ===== *)
(** * The rendezvous server ([server/rendezvous/main.cpp])

    One iteration of the poll loop takes what [recv_from] returned to a new
    server state: the registry, the broker sessions, the time of the last sweep,
    the clock readings made and the datagrams sent.  The handlers are written
    against the interfaces [RegistryStore] and [Signer]; log lines are dropped,
    and a failing [send_to] only logs, so the attempts are what is recorded. *)

From S2P Require Import Prelude Types Net Protocol Registry Signer.

Definition kRegistryTtlSeconds : Z := 60.
Definition kExpirySweepSeconds : Z := 15.

Record BrokerSession := {
  caller : RedeskId;
  callee : RedeskId;
  caller_ep : Endpoint;
  callee_ep : Endpoint;
  created_unix_s : Z;
}.

Definition BrokerSession_init : BrokerSession :=
  {| caller := ""; callee := ""; caller_ep := Endpoint_init;
     callee_ep := Endpoint_init; created_unix_s := 0 |}.

(** The [push_lv] lambda and its three uses. *)
Definition push_lv (v : list Z) : list Z :=
  let n := if 255 <? Z.of_nat (length v) then 255 else Z.of_nat (length v) in
  to_u8 n :: take (Z.to_nat n) v.

Definition encode_attestation (pk sig vk : list Z) : list Z :=
  push_lv pk ++ push_lv sig ++ push_lv vk.

Record Server (R : Type) := {
  registry : R;
  sessions : gmap string BrokerSession;
  last_sweep : Z;
  clock_reads : nat;
  sent : list Sent;
}.
Arguments registry {R}.
Arguments sessions {R}.
Arguments last_sweep {R}.
Arguments clock_reads {R}.
Arguments sent {R}.

Section server.
Context {R S : Type} `{RegistryStore R} `{Signer S}.
(** The n-th reading of [now_unix_s()]. *)
Context (clock : nat → Z) (signer : S).

Definition now_unix_s : State (Server R) Z := λ s,
  (clock (clock_reads s),
   {| registry := registry s; sessions := sessions s; last_sweep := last_sweep s;
      clock_reads := Datatypes.S (clock_reads s); sent := sent s |}).

Definition set_registry (r : R) : State (Server R) () :=
  modify (λ s, {| registry := r; sessions := sessions s; last_sweep := last_sweep s;
                  clock_reads := clock_reads s; sent := sent s |}).
Definition set_sessions (f : gmap string BrokerSession → gmap string BrokerSession)
    : State (Server R) () :=
  modify (λ s, {| registry := registry s; sessions := f (sessions s);
                  last_sweep := last_sweep s; clock_reads := clock_reads s; sent := sent s |}).
Definition set_last_sweep (t : Z) : State (Server R) () :=
  modify (λ s, {| registry := registry s; sessions := sessions s; last_sweep := t;
                  clock_reads := clock_reads s; sent := sent s |}).

Definition send_frame (to : Endpoint) (t : MessageType) (i : RedeskId) (b : list Z)
    : State (Server R) () :=
  modify (λ s, {| registry := registry s; sessions := sessions s;
                  last_sweep := last_sweep s; clock_reads := clock_reads s;
                  sent := sent s ++ [(to, encode_frame {| type := t; id := i; body := b |})] |}).

Definition reg_upsert (rec : PeerRecord) : State (Server R) Status :=
  r ← gets registry;
  let '(st, r') := upsert rec r in
  set_registry r';; mret st.
Definition reg_lookup (i : RedeskId) : State (Server R) (option PeerRecord) :=
  gets (λ s, lookup i (registry s)).

Definition handle_register (from : Endpoint) (f : Frame) : State (Server R) () :=
  if (length (body f) <? kStaticPubKeyLen)%nat then mret ()
  else
    now ← now_unix_s;
    let rec := {| rec_id := id f; endpoint := from;
                  static_pubkey := take kStaticPubKeyLen (body f);
                  capabilities := 0; last_seen_unix_s := now |} in
    s ← reg_upsert rec;
    if negb (Status_ok s) then mret ()
    else
      let sig := sign_peer_key signer (rec_id rec) (static_pubkey rec) in
      if negb (Result_ok sig) then mret ()
      else send_frame from RegisterOk (id f)
             (encode_attestation (static_pubkey rec) (value sig) (verify_key signer)).

Definition lookup_target (f : Frame) : RedeskId :=
  if bool_decide (id f ≠ "") then id f else string_of_bytes (body f).

Definition handle_lookup (from : Endpoint) (f : Frame) : State (Server R) () :=
  let target := lookup_target f in
  rec ← reg_lookup target;
  match rec with
  | None => send_frame from LookupFail target []
  | Some rec =>
      let sig := sign_peer_key signer (rec_id rec) (static_pubkey rec) in
      if negb (Result_ok sig) then mret ()
      else send_frame from LookupOk target
             (encode_attestation (static_pubkey rec) (value sig) (verify_key signer))
  end.

Definition handle_keepalive (from : Endpoint) (f : Frame) : State (Server R) () :=
  rec ← reg_lookup (id f);
  match rec with
  | None => mret ()
  | Some rec =>
      now ← now_unix_s;
      reg_upsert {| rec_id := rec_id rec; endpoint := from;
                    static_pubkey := static_pubkey rec;
                    capabilities := capabilities rec; last_seen_unix_s := now |};;
      mret ()
  end.

Definition handle_broker (from : Endpoint) (f : Frame) : State (Server R) () :=
  target ← reg_lookup (id f);
  match target with
  | None => send_frame from LookupFail (id f) []
  | Some target =>
      let token := display from +:+ "|" +:+ display (endpoint target) in
      sess ← gets (λ s, default BrokerSession_init (sessions s !! token));
      (if created_unix_s sess =? 0 then
         now ← now_unix_s;
         set_sessions (<[token := {| caller := caller sess; callee := id f;
           caller_ep := from; callee_ep := endpoint target; created_unix_s := now |}]>)
       else set_sessions (<[token := sess]>));;
      send_frame (endpoint target) BrokerCandidates (id f) (body f)
  end.

Definition handle_frame (from : Endpoint) (f : Frame) : State (Server R) () :=
  match type f with
  | Register => handle_register from f
  | Keepalive => handle_keepalive from f
  | Lookup => handle_lookup from f
  | BrokerCandidates => handle_broker from f
  | _ => mret ()
  end.

Definition handle_datagram (from : Endpoint) (bytes : list Z) : State (Server R) () :=
  let frame := decode_frame bytes in
  if Result_ok frame && bool_decide (type (value frame) ≠ Unknown)
  then handle_frame from (value frame) else mret ().

Definition sweep : State (Server R) () :=
  now ← now_unix_s;
  last ← gets last_sweep;
  if kExpirySweepSeconds <=? now - last then
    r ← gets registry;
    set_registry (expire now kRegistryTtlSeconds r).2;;
    set_sessions (filter (λ '(_, b), (kRegistryTtlSeconds <? now - created_unix_s b) = false));;
    set_last_sweep now
  else mret ().

(** One iteration of the poll loop. *)
Definition step (r : Received) : State (Server R) () :=
  match r with
  | Datagram from bytes => handle_datagram from bytes
  | RecvError _ => mret ()
  end;;
  sweep.

(** Before the loop: the first clock reading is [last_sweep]. *)
Definition start (r : R) : Server R :=
  {| registry := r; sessions := ∅; last_sweep := clock 0; clock_reads := 1; sent := [] |}.

Definition run (rs : list Received) (s : Server R) : Server R :=
  fold_left (λ s r, (step r s).2) rs s.
End server.
