(* ===== verification/RendezvousFacts.v ===== *)
(** * Properties of the rendezvous server

    The handlers are first shown to implement a specification on the view of the
    registry's contents ([spec_frame]); the properties are proved on it, for any
    registry and signer that meet their contracts. *)

From S2P Require Import Prelude Types Net Protocol Registry Signer Rendezvous.

Abbreviation View := (gmap string PeerRecord).

(** Records are filed under their own id and valid. *)
Definition view_ok (v : View) : Prop :=
  ∀ i r, v !! i = Some r → rec_id r = i ∧ record_valid r.

(** The record a registration makes. *)
Definition registration (now : Z) (from : Endpoint) (f : Frame) : PeerRecord :=
  {| rec_id := id f; endpoint := from; static_pubkey := take kStaticPubKeyLen (body f);
     capabilities := 0; last_seen_unix_s := now |}.

(** A record refreshed by a keepalive. *)
Definition refreshed (now : Z) (from : Endpoint) (r : PeerRecord) : PeerRecord :=
  {| rec_id := rec_id r; endpoint := from; static_pubkey := static_pubkey r;
     capabilities := capabilities r; last_seen_unix_s := now |}.

(** The entries a sweep at [now] keeps. *)
Definition swept (now : Z) (v : View) : View :=
  filter (λ '(_, r), stale now kRegistryTtlSeconds r = false) v.

Section facts.
Context {R S : Type} `{RegistryContract R} `{SignerContract S verifies}.
Context (clock : nat → Z) (signer : S).

(** The signed introduction of [pk] as [i]. *)
Definition attest (i : RedeskId) (pk : StaticPubKey) : list Z :=
  encode_attestation pk (value (sign_peer_key signer i pk)) (verify_key signer).

Definition reply (to : Endpoint) (t : MessageType) (i : RedeskId) (b : list Z) : list Sent :=
  [(to, encode_frame {| type := t; id := i; body := b |})].

(** What one frame does to the contents, and what is sent. *)
Definition spec_frame (now : Z) (from : Endpoint) (f : Frame) (v : View) : View * list Sent :=
  match type f with
  | Register =>
      let rec := registration now from f in
      if decide (record_valid rec ∧ may_replace rec (v !! id f))
      then (<[id f := rec]> v, reply from RegisterOk (id f) (attest (id f) (static_pubkey rec)))
      else (v, [])
  | Keepalive =>
      match v !! id f with
      | None => (v, [])
      | Some r => (<[id f := refreshed now from r]> v, [])
      end
  | Lookup =>
      match v !! lookup_target f with
      | None => (v, reply from LookupFail (lookup_target f) [])
      | Some r =>
          (v, reply from LookupOk (lookup_target f)
                (attest (lookup_target f) (static_pubkey r)))
      end
  | BrokerCandidates =>
      match v !! id f with
      | None => (v, reply from LookupFail (id f) [])
      | Some r => (v, reply (endpoint r) BrokerCandidates (id f) (body f))
      end
  | _ => (v, [])
  end.

Definition spec_datagram (now : Z) (from : Endpoint) (bytes : list Z) (v : View)
    : View * list Sent :=
  let frame := decode_frame bytes in
  if Result_ok frame && bool_decide (type (value frame) ≠ Unknown)
  then spec_frame now from (value frame) v else (v, []).

Abbreviation view s := (contents (registry s)).

(** ** The handlers implement it *)

(** From [s] to [s']: contents, datagrams sent, and what is kept. *)
Definition effect (s s' : Server R) (out : View * list Sent) : Prop :=
  view s' = out.1 ∧ sent s' = sent s ++ out.2 ∧ last_sweep s' = last_sweep s ∧
  (clock_reads s ≤ clock_reads s' ≤ Datatypes.S (clock_reads s))%nat.

Lemma effect_none s : effect s s (view s, []).
Proof. split_and!; simpl; rewrite ?app_nil_r; auto with lia. Qed.

Lemma sign_good i pk :
  length pk = kStaticPubKeyLen →
  sign_peer_key signer i pk = good (value (sign_peer_key signer i pk)).
Proof. intros Hl. by destruct (sign_ok signer i pk Hl) as (sig & -> & _). Qed.

Lemma short_registration now from f :
  (length (body f) < kStaticPubKeyLen)%nat → ¬ record_valid (registration now from f).
Proof. intros Hl [_ Hr]. simpl in Hr. rewrite length_take in Hr. lia. Qed.

Lemma handle_register_effect from f s :
  type f = Register →
  effect s (handle_register clock signer from f s).2
    (spec_frame (clock (clock_reads s)) from f (view s)).
Proof.
  intros Ht. unfold spec_frame. rewrite Ht. unfold handle_register.
  destruct (Nat.ltb_spec (length (body f)) kStaticPubKeyLen) as [Hl|Hl].
  { rewrite decide_False by (intros [? _]; by eapply short_registration). apply effect_none. }
  set (now := clock (clock_reads s)). run_state. fold now.
  fold (registration now from f). set (rec := registration now from f).
  unfold reg_upsert. run_state.
  destruct (decide (record_valid rec ∧ may_replace rec (view s !! id f))) as [[Hv Hm]|Hn].
  - destruct (upsert_ok rec (registry s) Hv Hm) as [Hst Hc].
    destruct (upsert rec (registry s)) as [st r']. simpl in Hst, Hc. subst st. simpl.
    rewrite sign_good by (simpl; rewrite length_take; lia). simpl.
    split_and!; simpl; [done|done|done|lia|lia].
  - destruct (upsert_refused rec (registry s) Hn) as [Hst Hc].
    destruct (upsert rec (registry s)) as [st r']. simpl in Hst, Hc. rewrite Hst. simpl.
    split_and!; simpl; rewrite ?app_nil_r; auto with lia.
Qed.

Lemma refreshed_stored now from r v :
  view_ok v → v !! rec_id r = Some r →
  record_valid (refreshed now from r) ∧
  may_replace (refreshed now from r) (v !! rec_id (refreshed now from r)).
Proof.
  intros Hv Hr. destruct (Hv _ _ Hr) as [_ [? ?]]. split; [by split|]. simpl. by rewrite Hr.
Qed.

Lemma handle_keepalive_effect from f s :
  type f = Keepalive → view_ok (view s) →
  effect s (handle_keepalive clock from f s).2
    (spec_frame (clock (clock_reads s)) from f (view s)).
Proof.
  intros Ht Hv. unfold spec_frame. rewrite Ht. unfold handle_keepalive, reg_lookup.
  run_state. rewrite lookup_contents.
  destruct (view s !! id f) as [r|] eqn:Er; simpl; [|apply effect_none].
  destruct (Hv _ _ Er) as [Hid _]. set (now := clock (clock_reads s)).
  fold (refreshed now from r). unfold reg_upsert. run_state.
  rewrite <-Hid in Er. destruct (refreshed_stored now from r (view s) Hv Er) as [Hrv Hrm].
  destruct (upsert_ok _ (registry s) Hrv Hrm) as [_ Hc].
  destruct (upsert (refreshed now from r) (registry s)) as [st r']. simpl in *.
  rewrite Hid in Hc. split_and!; simpl; rewrite ?app_nil_r; auto with lia.
Qed.

Lemma handle_lookup_effect from f s :
  type f = Lookup → view_ok (view s) →
  effect s (handle_lookup signer from f s).2
    (spec_frame (clock (clock_reads s)) from f (view s)).
Proof.
  intros Ht Hv. unfold spec_frame. rewrite Ht. unfold handle_lookup, reg_lookup.
  run_state. rewrite lookup_contents.
  destruct (view s !! lookup_target f) as [r|] eqn:Er; simpl;
    [|split_and!; simpl; auto with lia].
  destruct (Hv _ _ Er) as [Hid [_ Hl]]. rewrite Hid, sign_good by done. simpl.
  split_and!; simpl; auto with lia.
Qed.

Lemma handle_broker_effect from f s :
  type f = BrokerCandidates →
  effect s (handle_broker clock from f s).2
    (spec_frame (clock (clock_reads s)) from f (view s)).
Proof.
  intros Ht. unfold spec_frame. rewrite Ht. unfold handle_broker, reg_lookup.
  run_state. rewrite lookup_contents.
  destruct (view s !! id f) as [r|]; simpl; [|split_and!; simpl; auto with lia].
  destruct (created_unix_s _ =? 0); split_and!; simpl; auto with lia.
Qed.

Lemma handle_datagram_effect from bytes s :
  view_ok (view s) →
  effect s (handle_datagram clock signer from bytes s).2
    (spec_datagram (clock (clock_reads s)) from bytes (view s)).
Proof.
  intros Hv. unfold handle_datagram, spec_datagram.
  destruct (_ && _); [|apply effect_none]. set (f := value _).
  unfold handle_frame. destruct (type f) eqn:Ht;
    try (unfold spec_frame; rewrite Ht; apply effect_none).
  - by apply handle_register_effect.
  - by apply handle_lookup_effect.
  - by apply handle_broker_effect.
  - by apply handle_keepalive_effect.
Qed.

(** ** The sweep and the loop *)

Lemma sweep_spec s :
  let now := clock (clock_reads s) in
  let s' := (sweep clock s).2 in
  view s' = (if kExpirySweepSeconds <=? now - last_sweep s then swept now (view s) else view s) ∧
  sent s' = sent s ∧ clock_reads s' = Datatypes.S (clock_reads s) ∧
  last_sweep s' = (if kExpirySweepSeconds <=? now - last_sweep s then now else last_sweep s).
Proof.
  intros now s'. unfold s', sweep. run_state. fold now.
  destruct (kExpirySweepSeconds <=? now - last_sweep s); simpl; [|done].
  by rewrite expire_contents.
Qed.

(** What an iteration's input does, before the sweep. *)
Definition spec_input (now : Z) (r : Received) (v : View) : View * list Sent :=
  match r with
  | Datagram from bytes => spec_datagram now from bytes v
  | RecvError _ => (v, [])
  end.

Lemma server_step_spec r s :
  view_ok (view s) →
  ∃ s1, effect s s1 (spec_input (clock (clock_reads s)) r (view s)) ∧
    (step clock signer r s).2 = (sweep clock s1).2.
Proof.
  intros Hv. unfold step. rewrite state_bind_run. eexists. split; [|done].
  destruct r as [from bytes|c]; [by apply handle_datagram_effect|apply effect_none].
Qed.

Lemma insert_view_ok v r :
  view_ok v → record_valid r → view_ok (<[rec_id r := r]> v).
Proof.
  intros Hv Hr i r' Hi. apply lookup_insert_Some in Hi as [[<- <-]|[_ Hi]]; [done|].
  by apply Hv.
Qed.

Lemma spec_frame_view_ok now from f v : view_ok v → view_ok (spec_frame now from f v).1.
Proof.
  intros Hv. unfold spec_frame. destruct (type f); try done.
  - case_decide as Hd; [|done]. destruct Hd. by apply (insert_view_ok v (registration now from f)).
  - by destruct (v !! lookup_target f).
  - by destruct (v !! id f).
  - destruct (v !! id f) as [r|] eqn:Er; [|done]. destruct (Hv _ _ Er) as [<- [? ?]].
    by apply (insert_view_ok v (refreshed now from r)).
Qed.

Lemma spec_input_view_ok now r v : view_ok v → view_ok (spec_input now r v).1.
Proof.
  destruct r as [from bytes|]; [|done]. simpl. unfold spec_datagram.
  destruct (_ && _); [apply spec_frame_view_ok|done].
Qed.

Lemma swept_view_ok now v : view_ok v → view_ok (swept now v).
Proof. intros Hv i r [Hi _]%map_lookup_filter_Some. by apply Hv. Qed.

Lemma step_view_ok r s : view_ok (view s) → view_ok (view (step clock signer r s).2).
Proof.
  intros Hv. destruct (server_step_spec r s Hv) as (s1 & (Hview & _) & ->).
  destruct (sweep_spec s1) as [-> _].
  assert (view_ok (view s1)) by (rewrite Hview; by apply spec_input_view_ok).
  case_match; [by apply swept_view_ok|done].
Qed.

Lemma run_view_ok rs s : view_ok (view s) → view_ok (view (run clock signer rs s)).
Proof.
  revert s. induction rs as [|r rs IH]; intros s Hv; [done|]. by apply IH, step_view_ok.
Qed.

Lemma start_view_ok r : contents r = ∅ → view_ok (contents r).
Proof. intros -> i x. by rewrite lookup_empty. Qed.

Lemma server_run_app rs rs' s :
  run clock signer (rs ++ rs') s = run clock signer rs' (run clock signer rs s).
Proof. apply fold_left_app. Qed.

Lemma step_sent r s :
  view_ok (view s) →
  sent (step clock signer r s).2 =
    sent s ++ (spec_input (clock (clock_reads s)) r (view s)).2.
Proof.
  intros Hv. destruct (server_step_spec r s Hv) as (s1 & (_ & Hsent & _) & ->).
  destruct (sweep_spec s1) as (_ & -> & _). done.
Qed.

(** Entries after an iteration were there before, or come from its input. *)
Lemma step_view_sub r s i x :
  view_ok (view s) → view (step clock signer r s).2 !! i = Some x →
  (spec_input (clock (clock_reads s)) r (view s)).1 !! i = Some x.
Proof.
  intros Hv. destruct (server_step_spec r s Hv) as (s1 & (Hview & _) & ->).
  destruct (sweep_spec s1) as [-> _]. rewrite <-Hview.
  case_match; [|done]. by intros [? _]%map_lookup_filter_Some.
Qed.

(** ** Theorems *)

(** [from] registered [pk] for [i] in the inputs [rs]. *)
Definition registered (rs : list Received) (i : RedeskId) (pk : StaticPubKey) : Prop :=
  ∃ from bytes f, Datagram from bytes ∈ rs ∧ decode_frame bytes = good f ∧
    type f = Register ∧ id f = i ∧ take kStaticPubKeyLen (body f) = pk ∧
    length pk = kStaticPubKeyLen.

Lemma spec_datagram_cases now from bytes v :
  spec_datagram now from bytes v = (v, []) ∨
  ∃ f, decode_frame bytes = good f ∧ type f ≠ Unknown ∧
    spec_datagram now from bytes v = spec_frame now from f v.
Proof.
  unfold spec_datagram.
  destruct (Result_ok (decode_frame bytes)) eqn:Eok; simpl; [|by left].
  case_bool_decide as Ht; [|by left]. right. exists (value (decode_frame bytes)).
  split_and!; [by apply decode_frame_ok|done|done].
Qed.

Lemma registered_mono rs r i pk : registered rs i pk → registered (rs ++ [r]) i pk.
Proof.
  intros (from & bytes & f & Hin & ?). exists from, bytes, f. split; [|done]. set_solver.
Qed.

(** What the server vouches for in a datagram it sent. *)
Definition vouched (rs : list Received) (e : Sent) : Prop :=
  ∃ f, e.2 = encode_frame f ∧
    (type f = RegisterOk ∨ type f = LookupOk →
     ∃ pk sig, body f = encode_attestation pk sig (verify_key signer) ∧
       verifies (verify_key signer) (intro_message (id f) pk) sig = true ∧
       registered rs (id f) pk).

Lemma vouched_mono rs r e : vouched rs e → vouched (rs ++ [r]) e.
Proof.
  intros (f & He & Hf). exists f. split; [done|]. intros Ht.
  destruct (Hf Ht) as (pk & sig & ? & ? & ?). exists pk, sig. split_and!; [done..|].
  by apply registered_mono.
Qed.

Lemma vouched_reply rs to t i pk :
  length pk = kStaticPubKeyLen → registered rs i pk →
  Forall (vouched rs) (reply to t i (attest i pk)).
Proof.
  intros Hl Hr. apply Forall_singleton. eexists. split; [done|]. intros _. simpl.
  destruct (sign_ok signer i pk Hl) as (sig & Hs & Hv). exists pk, sig.
  unfold attest. by rewrite Hs.
Qed.

Lemma vouched_other rs to t i b :
  t ≠ RegisterOk → t ≠ LookupOk → Forall (vouched rs) (reply to t i b).
Proof.
  intros ??. apply Forall_singleton. eexists. split; [done|]. simpl. naive_solver.
Qed.

(** Every key the server holds was registered for the id it is filed under. *)
Definition view_registered (rs : list Received) (v : View) : Prop :=
  ∀ i x, v !! i = Some x → registered rs i (static_pubkey x).

Lemma spec_input_vouched now r rs v :
  view_ok v → view_registered rs v →
  view_registered (rs ++ [r]) (spec_input now r v).1 ∧
  Forall (vouched (rs ++ [r])) (spec_input now r v).2.
Proof.
  intros Hok Hreg. assert (view_registered (rs ++ [r]) v) as Hreg'
    by (intros i x Hx; by apply registered_mono, Hreg).
  destruct r as [from bytes|c]; [|done]. simpl.
  destruct (spec_datagram_cases now from bytes v) as [->|(f & Hdec & Ht & ->)]; [done|].
  unfold spec_frame. destruct (type f) eqn:Etype; try done.
  - case_decide as Hd; [|done]. destruct Hd as [[_ Hl] _].
    assert (registered (rs ++ [Datagram from bytes]) (id f)
      (static_pubkey (registration now from f))).
    { exists from, bytes, f. split_and!; try done. set_solver. }
    split; [|by apply vouched_reply]. intros i x. simpl. intros [[<- <-]|[_ Hx]]%lookup_insert_Some; [done|].
    by apply Hreg'.
  - destruct (v !! lookup_target f) as [x|] eqn:Ex; (split; [done|]).
    + apply vouched_reply; [by apply (Hok _ _ Ex)|by apply Hreg'].
    + by apply vouched_other.
  - destruct (v !! id f); (split; [done|]); by apply vouched_other.
  - destruct (v !! id f) as [x|] eqn:Ex; [|done]. split; [|done].
    intros i y. simpl. intros [[<- <-]|[_ Hy]]%lookup_insert_Some; [|by apply Hreg'].
    simpl. by apply Hreg'.
Qed.

Lemma run_vouched r0 rs :
  contents r0 = ∅ →
  let s := run clock signer rs (start clock r0) in
  view_ok (view s) ∧ view_registered rs (view s) ∧ Forall (vouched rs) (sent s).
Proof.
  intros Hempty. induction rs as [|r rs IH] using rev_ind.
  { simpl. rewrite Hempty. split; [|split; [|done]]; intros i x; by rewrite lookup_empty. }
  rewrite server_run_app. simpl. set (s := run clock signer rs (start clock r0)) in *.
  destruct IH as (Hok & Hreg & Hsent).
  destruct (spec_input_vouched (clock (clock_reads s)) r rs (view s) Hok Hreg) as [Hr' Hs'].
  split_and!; [by apply step_view_ok| |].
  - intros i x Hx. apply step_view_sub in Hx; [|done]. by apply Hr'.
  - rewrite step_sent by done. apply Forall_app. split; [|done].
    eapply Forall_impl; [done|]. intros e. apply vouched_mono.
Qed.
End facts.

(** C4. The signed introducer: whatever datagrams arrive,
    each RegisterOk and LookupOk the server ever sends names an id and carries a
    32-byte key some client registered for exactly that id in an earlier (or the
    same) datagram, with a signature that verifies under the server's key for
    that id and key. *)
Theorem introductions_vouched {R S} `{RegistryContract R} `{SignerContract S verifies}
    clock (signer : S) (r0 : R) rs :
  contents r0 = ∅ →
  Forall (vouched (verifies := verifies) signer rs)
    (sent (run clock signer rs (start clock r0))).
Proof. intros Hempty. by apply run_vouched. Qed.

Section theorems.
Context {R S : Type} `{RegistryContract R} `{SignerContract S verifies}.
Context (clock : nat → Z) (signer : S).

Abbreviation view s := (contents (registry s)).
(** A server state some inputs lead to. *)
Definition reachable (s : Server R) : Prop :=
  ∃ r0 rs, contents r0 = ∅ ∧ s = run clock signer rs (start clock r0).

Lemma reachable_ok s : reachable s → view_ok (view s).
Proof. intros (r0 & rs & He & ->). by apply run_view_ok, start_view_ok. Qed.

(** Who may be answered, and with what. *)
Inductive answer (v : View) (from : Endpoint) (f : Frame) : Sent → Prop :=
| answer_sender t i b :
    t = RegisterOk ∨ t = LookupOk ∨ t = LookupFail →
    type f = Register ∨ type f = Lookup ∨ type f = BrokerCandidates →
    answer v from f (from, encode_frame {| type := t; id := i; body := b |})
| answer_relay x :
    type f = BrokerCandidates → v !! id f = Some x →
    answer v from f (endpoint x, encode_frame f).

Lemma spec_frame_answers now from f v e :
  e ∈ (spec_frame signer now from f v).2 → answer v from f e.
Proof.
  unfold spec_frame. destruct (type f) eqn:Ht; simpl; try by intros ?%elem_of_nil.
  - case_decide; simpl; [|by intros ?%elem_of_nil].
    intros ->%list_elem_of_singleton. apply answer_sender; auto.
  - destruct (v !! lookup_target f); simpl;
      intros ->%list_elem_of_singleton; apply answer_sender; auto.
  - destruct (v !! id f) as [x|] eqn:Ex; simpl; intros ->%list_elem_of_singleton.
    + replace {| type := BrokerCandidates; id := id f; body := body f |} with f
        by (destruct f; simpl in *; by subst).
      by apply answer_relay.
    + apply answer_sender; auto.
  - by destruct (v !! id f); intros ?%elem_of_nil.
Qed.

Lemma spec_frame_one now from f v : (length (spec_frame signer now from f v).2 ≤ 1)%nat.
Proof.
  unfold spec_frame. destruct (type f); simpl; try lia.
  - case_decide; simpl; lia.
  - destruct (v !! lookup_target f); simpl; lia.
  - destruct (v !! id f); simpl; lia.
  - destruct (v !! id f); simpl; lia.
Qed.

(** Outbound traffic of one iteration. *)
Lemma server_step_outputs s r :
  reachable s →
  ∃ new, sent (step clock signer r s).2 = sent s ++ new ∧ (length new ≤ 1)%nat ∧
    ∀ e, e ∈ new → ∃ from bytes f, r = Datagram from bytes ∧
      decode_frame bytes = good f ∧ answer (view s) from f e.
Proof.
  intros Hs%reachable_ok. eexists. split; [by apply step_sent|].
  destruct r as [from bytes|c]; simpl; [|split; [lia|by intros e ?%elem_of_nil]].
  destruct (spec_datagram_cases signer (clock (clock_reads s)) from bytes (view s))
    as [->|(f & Hdec & _ & ->)]; [split; [simpl; lia|by intros e ?%elem_of_nil]|].
  split; [apply spec_frame_one|]. intros e He%spec_frame_answers. eauto 10.
Qed.

(** *** Keys *)

Lemma spec_input_same_key now r v i old new :
  v !! i = Some old → (spec_input signer now r v).1 !! i = Some new →
  static_pubkey old = static_pubkey new ∨
  kSquatGuardWindowS ≤ last_seen_unix_s new - last_seen_unix_s old.
Proof.
  intros Hold. destruct r as [from bytes|c]; [|by simpl; intros; simplify_eq; left].
  simpl. destruct (spec_datagram_cases signer now from bytes v) as [->|(f & _ & _ & ->)];
    [by simpl; intros; simplify_eq; left|].
  unfold spec_frame. destruct (type f); simpl; try by (intros; simplify_eq; left).
  - case_decide as Hd; simpl; [|by intros; simplify_eq; left].
    intros [[<- <-]|[_ Hx]]%lookup_insert_Some; [|by simplify_eq; left].
    destruct Hd as [_ Hm]. rewrite Hold in Hm. simpl in Hm. unfold live_at in Hm.
    destruct (Z.ltb_spec (now - last_seen_unix_s old) kSquatGuardWindowS); [left|right]; auto.
  - by destruct (v !! lookup_target f); simpl; intros; simplify_eq; left.
  - by destruct (v !! id f); simpl; intros; simplify_eq; left.
  - destruct (v !! id f) as [x|] eqn:Ex; simpl; [|by intros; simplify_eq; left].
    intros [[<- <-]|[_ Hx]]%lookup_insert_Some; simplify_eq; by left.
Qed.

(** *** Freshness *)

(** All entries are at most as old as the TTL at [last_sweep], and the sweep is
    not overdue. *)
Definition fresh_inv (s : Server R) : Prop :=
  ∃ now, (0 < clock_reads s)%nat ∧ now = clock (pred (clock_reads s)) ∧
    last_sweep s ≤ now < last_sweep s + kExpirySweepSeconds ∧
    ∀ i x, view s !! i = Some x → last_sweep s - last_seen_unix_s x ≤ kRegistryTtlSeconds.

Context (clock_mono : ∀ n m, (n ≤ m)%nat → clock n ≤ clock m).

Lemma spec_input_last_seen now r v i x :
  (spec_input signer now r v).1 !! i = Some x →
  v !! i = Some x ∨ last_seen_unix_s x = now.
Proof.
  destruct r as [from bytes|c]; [|by left]. simpl.
  destruct (spec_datagram_cases signer now from bytes v) as [->|(f & _ & _ & ->)]; [by left|].
  unfold spec_frame. destruct (type f); simpl; auto.
  - case_decide; simpl; auto. intros [[_ <-]|[_ ?]]%lookup_insert_Some; auto.
  - destruct (v !! lookup_target f); simpl; auto.
  - destruct (v !! id f); simpl; auto.
  - destruct (v !! id f); simpl; auto.
    intros [[_ <-]|[_ ?]]%lookup_insert_Some; auto.
Qed.

Lemma step_fresh r s : view_ok (view s) → fresh_inv s → fresh_inv (step clock signer r s).2.
Proof.
  intros Hv (now0 & Hr0 & -> & Hdue & Hage).
  destruct (server_step_spec clock signer r s Hv) as (s1 & (Hview & _ & Hls & Hrd) & ->).
  destruct (sweep_spec clock s1) as (Hv' & _ & Hrd' & Hls').
  set (s' := (sweep clock s1).2) in *. set (now := clock (clock_reads s1)) in *.
  exists now. rewrite Hrd'. split; [lia|]. split; [done|]. rewrite Hls'.
  assert (clock (pred (clock_reads s)) ≤ clock (clock_reads s) ≤ now) as Hmono
    by (split; apply clock_mono; lia).
  assert (∀ i x, view s1 !! i = Some x →
    last_sweep s - last_seen_unix_s x ≤ kRegistryTtlSeconds ∨
    last_seen_unix_s x = clock (clock_reads s)) as Hage1.
  { intros i x Hx. rewrite Hview in Hx. apply spec_input_last_seen in Hx as [Hx|Hx]; eauto. }
  destruct (Z.leb_spec kExpirySweepSeconds (now - last_sweep s1)).
  - split; [unfold kExpirySweepSeconds; lia|]. intros i x Hx. rewrite Hv' in Hx.
    apply map_lookup_filter_Some in Hx as [_ Hx]. unfold stale in Hx.
    apply Z.ltb_ge in Hx. lia.
  - rewrite Hls in *. split; [split; lia|]. intros i x Hx. rewrite Hv' in Hx.
    destruct (Hage1 i x Hx) as [|Hx']; [done|]. unfold kRegistryTtlSeconds,
      kExpirySweepSeconds in *. lia.
Qed.
End theorems.

(** Outbound traffic: in every reachable state an
    iteration sends at most one datagram; an error or a datagram that is not a
    frame of known type sends none; what is sent goes back to the sender as a
    RegisterOk, LookupOk or LookupFail, or is the incoming broker frame itself,
    unchanged, to the endpoint registered for its id. *)
Theorem rendezvous_outputs {R S} `{RegistryContract R} `{SignerContract S verifies}
    clock (signer : S) (s : Server R) r :
  reachable clock signer s →
  ∃ new, sent (step clock signer r s).2 = sent s ++ new ∧ (length new ≤ 1)%nat ∧
    ∀ e, e ∈ new → ∃ from bytes f, r = Datagram from bytes ∧
      decode_frame bytes = good f ∧ answer (contents (registry s)) from f e.
Proof. apply server_step_outputs. Qed.

(** The squat guard: if an iteration leaves another key
    under an id, the contact that brought it came at least 90 seconds after the
    last contact of the previous key's holder. *)
Theorem registered_key_sticks {R S} `{RegistryContract R} `{SignerContract S verifies}
    clock (signer : S) (s : Server R) r i old new :
  reachable clock signer s →
  contents (registry s) !! i = Some old →
  contents (registry (step clock signer r s).2) !! i = Some new →
  static_pubkey old ≠ static_pubkey new →
  kSquatGuardWindowS ≤ last_seen_unix_s new - last_seen_unix_s old.
Proof.
  intros Hs%reachable_ok Hold Hnew Hne. apply step_view_sub in Hnew; [|done].
  by destruct (spec_input_same_key signer _ r _ i old new Hold Hnew).
Qed.

(** Freshness: with a clock that does not run backwards,
    at the end of every iteration no entry is older than the TTL plus the sweep
    interval (60 + 15 seconds). *)
Theorem registry_freshness {R S} `{RegistryContract R} `{SignerContract S verifies}
    clock (signer : S) (r0 : R) rs r i x :
  (∀ n m, (n ≤ m)%nat → clock n ≤ clock m) → contents r0 = ∅ →
  let s := run clock signer (rs ++ [r]) (start clock r0) in
  contents (registry s) !! i = Some x →
  clock (pred (clock_reads s)) - last_seen_unix_s x <
    kRegistryTtlSeconds + kExpirySweepSeconds.
Proof.
  intros Hmono Hempty s Hx.
  assert (∀ rs, fresh_inv clock (run clock signer rs (start clock r0))) as Hinv.
  { intros rs'. induction rs' as [|r' rs' IH] using rev_ind.
    - exists (clock 0%nat). simpl. split; [lia|]. split; [done|].
      unfold kExpirySweepSeconds. split; [lia|]. rewrite Hempty. intros j y.
      by rewrite lookup_empty.
    - rewrite server_run_app. apply step_fresh; [done| |done].
      by apply run_view_ok, start_view_ok. }
  destruct (Hinv (rs ++ [r])) as (now & _ & -> & Hls & Hage). fold s in Hls, Hage.
  specialize (Hage i x Hx). lia.
Qed.

(** A keepalive proves nothing: in every reachable state
    a Keepalive frame for a registered id, from any endpoint, makes that
    endpoint the id's address (key kept), so the very next broker frame for the
    id is delivered to whoever sent the keepalive (unless the sweep of that
    iteration removed the entry). *)
Theorem keepalive_redirects {R S} `{RegistryContract R} `{SignerContract S verifies}
    clock (signer : S) (s : Server R) from bytes f x from' bytes' f' :
  reachable clock signer s →
  decode_frame bytes = good f → type f = Keepalive →
  contents (registry s) !! id f = Some x →
  decode_frame bytes' = good f' → type f' = BrokerCandidates → id f' = id f →
  let s1 := (step clock signer (Datagram from bytes) s).2 in
  let s2 := (step clock signer (Datagram from' bytes') s1).2 in
  id f ∈ dom (contents (registry s1)) →
  (∃ y, contents (registry s1) !! id f = Some y ∧ endpoint y = from ∧
     static_pubkey y = static_pubkey x) ∧
  sent s2 = sent s ++ [(from, encode_frame f')].
Proof.
  intros Hs%reachable_ok Hdec Ht Hx Hdec' Ht' Hid s1 s2 [y Hy]%elem_of_dom.
  assert (sent s1 = sent s ++ []) as Hs1.
  { unfold s1. rewrite step_sent by done. simpl. unfold spec_datagram, spec_frame.
    rewrite Hdec. simpl. rewrite Ht, bool_decide_true, Hx by done. done. }
  assert (endpoint y = from ∧ static_pubkey y = static_pubkey x) as [Hey Hky].
  { apply step_view_sub in Hy; [|done]. revert Hy. simpl. unfold spec_datagram, spec_frame.
    rewrite Hdec. simpl. rewrite Ht, bool_decide_true, Hx by done. simpl.
    rewrite lookup_insert_eq. by intros [= <-]. }
  split; [by exists y|].
  unfold s2. rewrite step_sent by by apply step_view_ok. rewrite Hs1, app_nil_r. f_equal.
  simpl. unfold spec_datagram, spec_frame. rewrite Hdec'. simpl.
  rewrite Ht', bool_decide_true, Hid, Hy by done. simpl. unfold reply. rewrite Hey.
  destruct f'; simpl in *; by subst.
Qed.

(** LOOKUP: in every reachable state the answer to a Lookup
    for a registered id is one LookupOk to the sender whose bytes are determined
    by the id and its registered key alone: it carries no endpoint, and it is
    sent however old the entry is. *)
Theorem lookup_reply_spec {R S} `{RegistryContract R} `{SignerContract S verifies}
    clock (signer : S) (s : Server R) from bytes f x :
  reachable clock signer s →
  decode_frame bytes = good f → type f = Lookup →
  contents (registry s) !! lookup_target f = Some x →
  sent (step clock signer (Datagram from bytes) s).2 =
    sent s ++ [(from, encode_frame {| type := LookupOk; id := lookup_target f;
                        body := attest signer (lookup_target f) (static_pubkey x) |})].
Proof.
  intros Hs%reachable_ok Hdec Ht Hx. rewrite step_sent by done. f_equal.
  simpl. unfold spec_datagram, spec_frame. rewrite Hdec. simpl.
  by rewrite Ht, bool_decide_true, Hx.
Qed.

(** ** Witnesses: the default build's registry and signer *)

Definition sample_clock (n : nat) : Z := 1700000000 + 2 * Z.of_nat n.
Definition sample_signer := Insecure.make_insecure_test_signer.
Definition alice_ep : Endpoint := {| host := "203.0.113.7"; port := 40000; ipv6 := false |}.
Definition mallory_ep : Endpoint := {| host := "198.51.100.9"; port := 666; ipv6 := false |}.
Definition frame_bytes (t : MessageType) (b : list Z) : list Z :=
  encode_frame {| type := t; id := "123456789"; body := b |}.
Definition sample_inputs : list Received :=
  [Datagram alice_ep (frame_bytes Register (replicate 32 7))].
Definition sample_server : Server InMemory.InMemoryRegistry :=
  run sample_clock sample_signer sample_inputs
    (start sample_clock InMemory.make_in_memory_registry).

Lemma sample_reachable : reachable sample_clock sample_signer sample_server.
Proof. by exists InMemory.make_in_memory_registry, sample_inputs. Qed.

Definition sample_record : PeerRecord :=
  {| rec_id := "123456789"; endpoint := alice_ep; static_pubkey := replicate 32 7;
     capabilities := 0; last_seen_unix_s := 1700000002 |}.

Lemma sample_contents :
  InMemory.map_ (registry sample_server) !! "123456789" = Some sample_record.
Proof. by vm_compute. Qed.

Lemma introductions_vouched_witness :
  Forall (vouched (verifies := recompute) sample_signer sample_inputs) (sent sample_server) ∧
  sent sample_server ≠ [].
Proof.
  split; [|by vm_compute].
  by apply (introductions_vouched sample_clock sample_signer InMemory.make_in_memory_registry).
Defined.

Lemma rendezvous_outputs_witness :
  ∃ new, sent (step sample_clock sample_signer (Datagram mallory_ep [1; 2]) sample_server).2 =
    sent sample_server ++ new ∧ (length new ≤ 1)%nat.
Proof.
  destruct (rendezvous_outputs sample_clock sample_signer sample_server
    (Datagram mallory_ep [1; 2]) sample_reachable) as (new & Hnew & Hl & _).
  exists new. exact (conj Hnew Hl).
Defined.

Definition late_clock (n : nat) : Z := if (n <? 3)%nat then 1000 else 1090.
Definition late_server : Server InMemory.InMemoryRegistry :=
  run late_clock sample_signer sample_inputs
    (start late_clock InMemory.make_in_memory_registry).

Lemma registered_key_sticks_witness :
  kSquatGuardWindowS ≤ 1090 - 1000.
Proof.
  set (r := Datagram mallory_ep (frame_bytes Register (replicate 32 9))).
  assert (reachable late_clock sample_signer late_server) as Hr
    by (by exists InMemory.make_in_memory_registry, sample_inputs).
  apply (registered_key_sticks late_clock sample_signer late_server r "123456789"
    {| rec_id := "123456789"; endpoint := alice_ep; static_pubkey := replicate 32 7;
       capabilities := 0; last_seen_unix_s := 1000 |}
    {| rec_id := "123456789"; endpoint := mallory_ep; static_pubkey := replicate 32 9;
       capabilities := 0; last_seen_unix_s := 1090 |} Hr);
    [by vm_compute|by vm_compute|done].
Defined.

Lemma registry_freshness_witness :
  let s := run sample_clock sample_signer
    ([] ++ [Datagram alice_ep (frame_bytes Register (replicate 32 7))])
    (start sample_clock InMemory.make_in_memory_registry) in
  sample_clock (pred (clock_reads s)) - last_seen_unix_s sample_record <
    kRegistryTtlSeconds + kExpirySweepSeconds.
Proof.
  apply (registry_freshness sample_clock sample_signer InMemory.make_in_memory_registry []
    (Datagram alice_ep (frame_bytes Register (replicate 32 7))) "123456789" sample_record);
    [|done|by vm_compute].
  unfold sample_clock. lia.
Defined.

Lemma keepalive_redirects_witness :
  let s1 := (step sample_clock sample_signer
    (Datagram mallory_ep (frame_bytes Keepalive [])) sample_server).2 in
  let s2 := (step sample_clock sample_signer
    (Datagram alice_ep (frame_bytes BrokerCandidates [1; 2; 3])) s1).2 in
  sent s2 = sent sample_server ++ [(mallory_ep, frame_bytes BrokerCandidates [1; 2; 3])].
Proof.
  apply (keepalive_redirects sample_clock sample_signer sample_server mallory_ep
    (frame_bytes Keepalive []) {| type := Keepalive; id := "123456789"; body := [] |}
    sample_record alice_ep (frame_bytes BrokerCandidates [1; 2; 3])
    {| type := BrokerCandidates; id := "123456789"; body := [1; 2; 3] |} sample_reachable);
    [by vm_compute|done|exact sample_contents|by vm_compute|done|done|].
  apply elem_of_dom. eexists. by vm_compute.
Defined.

Lemma lookup_reply_spec_witness :
  sent (step sample_clock sample_signer (Datagram mallory_ep (frame_bytes Lookup [])) sample_server).2 =
    sent sample_server ++ [(mallory_ep, encode_frame {| type := LookupOk; id := "123456789";
      body := attest sample_signer "123456789" (replicate 32 7) |})].
Proof.
  apply (lookup_reply_spec sample_clock sample_signer sample_server mallory_ep
    (frame_bytes Lookup []) {| type := Lookup; id := "123456789"; body := [] |} sample_record
    sample_reachable); [by vm_compute|done|exact sample_contents].
Defined.
