(* ===== verification/History.v ===== *)
(** * Histories of a specification with leases

    The two servers keep entries that are refreshed by traffic and lapse when
    they fall silent.  Their specifications share the shape of a history: rounds
    of one contact and one sweep each, at times that do not run backwards. *)

From S2P Require Import Prelude.

Record Round (E A : Type) := {
  at_ : Z;
  event : E;
  answers : list A;
  swept_at : Z;
}.
Arguments at_ {E A}.
Arguments event {E A}.
Arguments answers {E A}.
Arguments swept_at {E A}.

Section history.
Context {D E A : Type}.
(** [contact now d e d' out]: what an event does; [lapse now d d']: what time does. *)
Context (contact : Z → D → E → D → list A → Prop) (lapse : Z → D → D → Prop).

(** A history that starts at [t] with [d]. *)
Inductive history (t : Z) (d : D) : list (Round E A) → Z → D → Prop :=
| history_start : history t d [] t d
| history_round rds t1 d1 r d2 d3 :
    history t d rds t1 d1 → t1 ≤ at_ r ≤ swept_at r →
    contact (at_ r) d1 (event r) d2 (answers r) → lapse (swept_at r) d2 d3 →
    history t d (rds ++ [r]) (swept_at r) d3.

(** What contacts and lapses keep at every time, every history keeps. *)
Lemma history_invariant (P : Z → D → Prop) t d rds t' d' :
  (∀ t1 t2 d1, t1 ≤ t2 → P t1 d1 → P t2 d1) →
  (∀ now d1 e d2 out, contact now d1 e d2 out → P now d1 → P now d2) →
  (∀ now d1 d2, lapse now d1 d2 → P now d1 → P now d2) →
  history t d rds t' d' → P t d → P t' d'.
Proof.
  intros Htime Hc Hl Hh HP. induction Hh as [|rds t1 d1 r d2 d3 _ IH [? ?] ? ?]; [done|].
  eapply Hl; [done|]. apply (Htime (at_ r)); [done|]. eapply Hc; [done|]. by apply (Htime t1).
Qed.

Lemma history_trans t d rds t1 d1 rds' t2 d2 :
  history t d rds t1 d1 → history t1 d1 rds' t2 d2 → history t d (rds ++ rds') t2 d2.
Proof.
  intros H1 H2. induction H2 as [|rds' t3 d3 r d4 d5 _ IH Htime Hc Hl]; [by rewrite app_nil_r|].
  rewrite app_assoc. by eapply history_round.
Qed.
End history.

(** Entries that have been silent for longer than [ttl] may lapse, and no others. *)
Definition lapse_idle {V} (last : V → Z) (ttl now : Z) (d d' : gmap string V) : Prop :=
  d' ⊆ d ∧ ∀ i x, d !! i = Some x → d' !! i = None → ttl < now - last x.

Section lapse.
Context {V : Type} (last : V → Z) (ttl : Z).

Lemma lapse_refl now d : lapse_idle last ttl now d d.
Proof. split; [done|]. congruence. Qed.

Lemma lapse_lookup now d d' i x : lapse_idle last ttl now d d' → d' !! i = Some x → d !! i = Some x.
Proof. intros [Hsub _] Hi. by eapply lookup_weaken. Qed.

(** The entry at [i] afterwards: gone, if it was idle, or as before. *)
Lemma lapse_cases now d d' i :
  lapse_idle last ttl now d d' →
  d' !! i = d !! i ∨ ∃ x, d !! i = Some x ∧ d' !! i = None ∧ ttl < now - last x.
Proof.
  intros Hl. destruct (d' !! i) as [x|] eqn:E.
  - left. symmetry. by eapply lapse_lookup.
  - destruct (d !! i) as [x|] eqn:E'; [right|by left]. exists x. split_and!; [done..|].
    by eapply Hl.
Qed.

(** A concrete sweep, seen through the representation of its entries. *)
Lemma lapse_filter {R} (f : R → V) (old : R → bool) now (v : gmap string R) :
  (∀ r, old r = true → ttl < now - last (f r)) →
  lapse_idle last ttl now (f <$> v) (f <$> filter (λ '(_, r), old r = false) v).
Proof.
  intros Hold. split.
  - apply map_fmap_mono, map_filter_subseteq.
  - intros i l. rewrite !lookup_fmap. intros (r & Hr & ->)%fmap_Some Hn%fmap_None.
    apply map_lookup_filter_None in Hn as [Hn|Hn]; [congruence|].
    specialize (Hn _ Hr). by apply not_false_iff_true, Hold in Hn.
Qed.
End lapse.
