(* ===== verification/Directory.v ===== *)
(** * The rendezvous server as a directory

    What server/rendezvous promises, without its data formats and handlers: a
    directory of leases that can be claimed, renewed, asked for and passed
    through, and that lapse after a time of silence.  The server refines it for
    every registry and signer that meet their contracts, and what holds of every
    history of a directory holds of the server. *)

From S2P Require Import Prelude Types Net Protocol Registry Signer Rendezvous RendezvousFacts History.

(** ** The specification *)

(** Who holds an id, where its holder is reached, when it was last heard from. *)
Record Lease := {
  holder : StaticPubKey;
  address : Endpoint;
  seen : Z;
}.

Abbreviation Directory := (gmap string Lease).

Inductive Event :=
| Claim (from : Endpoint) (i : RedeskId) (pk : StaticPubKey)
| Renew (from : Endpoint) (i : RedeskId)
| Ask (from : Endpoint) (i : RedeskId)
| Pass (from : Endpoint) (i : RedeskId) (blob : list Z)
| Silence.

Inductive Answer :=
| Granted (to : Endpoint) (i : RedeskId) (pk : StaticPubKey)
| Found (to : Endpoint) (i : RedeskId) (pk : StaticPubKey)
| NotFound (to : Endpoint) (i : RedeskId)
| Passed (to : Endpoint) (i : RedeskId) (blob : list Z).

(** [pk] may have an id at time [now], given the lease on it. *)
Definition may_claim (now : Z) (pk : StaticPubKey) (l : option Lease) : Prop :=
  ∀ l', l = Some l' → holder l' = pk ∨ kSquatGuardWindowS ≤ now - seen l'.

Definition claimable (now : Z) (d : Directory) (i : RedeskId) (pk : StaticPubKey) : Prop :=
  i ≠ "" ∧ length pk = kStaticPubKeyLen ∧ may_claim now pk (d !! i).

Inductive contact (now : Z) (d : Directory) : Event → Directory → list Answer → Prop :=
| contact_granted from i pk :
    claimable now d i pk →
    contact now d (Claim from i pk)
      (<[i := {| holder := pk; address := from; seen := now |}]> d) [Granted from i pk]
| contact_refused from i pk :
    ¬ claimable now d i pk → contact now d (Claim from i pk) d []
| contact_renewed from i l :
    d !! i = Some l →
    contact now d (Renew from i)
      (<[i := {| holder := holder l; address := from; seen := now |}]> d) []
| contact_unknown from i : d !! i = None → contact now d (Renew from i) d []
| contact_found from i l :
    d !! i = Some l → contact now d (Ask from i) d [Found from i (holder l)]
| contact_not_found from i :
    d !! i = None → contact now d (Ask from i) d [NotFound from i]
| contact_passed from i blob l :
    d !! i = Some l → contact now d (Pass from i blob) d [Passed (address l) i blob]
| contact_unpassed from i blob :
    d !! i = None → contact now d (Pass from i blob) d [NotFound from i]
| contact_silence : contact now d Silence d [].

(** Leases that are silent for longer than the TTL may lapse. *)
Definition lapse : Z → Directory → Directory → Prop := lapse_idle seen kRegistryTtlSeconds.

Abbreviation dhistory := (history contact lapse).

(** ** How the server's data represents it *)

Definition lease_of (r : PeerRecord) : Lease :=
  {| holder := static_pubkey r; address := endpoint r; seen := last_seen_unix_s r |}.

Definition event_of_frame (from : Endpoint) (f : Frame) : Event :=
  match type f with
  | Register => Claim from (id f) (take kStaticPubKeyLen (body f))
  | Keepalive => Renew from (id f)
  | Lookup => Ask from (lookup_target f)
  | BrokerCandidates => Pass from (id f) (body f)
  | _ => Silence
  end.

Definition event_of (r : Received) : Event :=
  match r with
  | Datagram from bytes =>
      if Result_ok (decode_frame bytes) then event_of_frame from (value (decode_frame bytes))
      else Silence
  | RecvError _ => Silence
  end.

Section refinement.
Context {R S : Type} `{RegistryContract R} `{SignerContract S verifies}.
Context (clock : nat → Z) (signer : S).

Definition datagram_of (x : Answer) : Sent :=
  match x with
  | Granted to i pk =>
      (to, encode_frame {| type := RegisterOk; id := i; body := attest signer i pk |})
  | Found to i pk =>
      (to, encode_frame {| type := LookupOk; id := i; body := attest signer i pk |})
  | NotFound to i => (to, encode_frame {| type := LookupFail; id := i; body := [] |})
  | Passed to i blob =>
      (to, encode_frame {| type := BrokerCandidates; id := i; body := blob |})
  end.

Abbreviation view s := (contents (registry s)).

(** The directory a server state stands for. *)
Definition directory (v : View) : Directory := lease_of <$> v.

(** ** One input *)

Lemma claimable_spec now from f (v : View) :
  claimable now (directory v) (id f) (take kStaticPubKeyLen (body f)) ↔
  record_valid (registration now from f) ∧ may_replace (registration now from f) (v !! id f).
Proof.
  unfold claimable, record_valid, may_claim, directory. rewrite lookup_fmap. simpl.
  destruct (v !! id f) as [r|]; simpl; [|naive_solver].
  unfold live_at. simpl. rewrite Z.ltb_lt. split.
  - intros (? & ? & Hm). split_and!; [done..|]. intros Hlive.
    destruct (Hm _ eq_refl) as [|Ho]; [done|]. simpl in Ho. lia.
  - intros ([? ?] & Hm). split_and!; [done..|]. intros l [= <-]. simpl.
    destruct (decide (kSquatGuardWindowS ≤ now - last_seen_unix_s r)); [by right|left].
    apply Hm. lia.
Qed.

Lemma spec_frame_contact now from f v :
  ∃ out, contact now (directory v) (event_of_frame from f)
           (directory (spec_frame signer now from f v).1) out ∧
         (spec_frame signer now from f v).2 = datagram_of <$> out.
Proof.
  unfold event_of_frame, spec_frame.
  assert (∀ i, directory v !! i = lease_of <$> v !! i) as Hl by (intros; apply lookup_fmap).
  destruct (type f); try by (eexists; split; [apply contact_silence|]).
  - pose proof (claimable_spec now from f v) as Hc. case_decide as Hd.
    + eexists. split; [|by instantiate (1 := [Granted _ _ _])]. simpl.
      unfold directory at 2. rewrite fmap_insert. apply contact_granted. by apply Hc.
    + exists []. split; [|done]. apply contact_refused. by rewrite Hc.
  - destruct (v !! lookup_target f) as [r|] eqn:E.
    + exists [Found from (lookup_target f) (static_pubkey r)]. split; [|done].
      apply (contact_found _ _ from _ (lease_of r)). by rewrite Hl, E.
    + exists [NotFound from (lookup_target f)]. split; [|done].
      apply contact_not_found. by rewrite Hl, E.
  - destruct (v !! id f) as [r|] eqn:E.
    + exists [Passed (endpoint r) (id f) (body f)]. split; [|done].
      apply (contact_passed _ _ from _ _ (lease_of r)). by rewrite Hl, E.
    + exists [NotFound from (id f)]. split; [|done]. apply contact_unpassed. by rewrite Hl, E.
  - exists []. destruct (v !! id f) as [r|] eqn:E; (split; [|done]).
    + simpl. unfold directory at 2. rewrite fmap_insert.
      apply (contact_renewed _ _ from (id f) (lease_of r)). by rewrite Hl, E.
    + apply contact_unknown. by rewrite Hl, E.
Qed.

Lemma unknown_silent bytes from :
  Result_ok (decode_frame bytes) = true → type (value (decode_frame bytes)) = Unknown →
  event_of (Datagram from bytes) = Silence.
Proof. intros Hok Ht. simpl. rewrite Hok. unfold event_of_frame. by rewrite Ht. Qed.

Lemma spec_input_contact now r v :
  ∃ out, contact now (directory v) (event_of r) (directory (spec_input signer now r v).1) out ∧
         (spec_input signer now r v).2 = datagram_of <$> out.
Proof.
  destruct r as [from bytes|c]; [|exists []; split; [apply contact_silence|done]].
  simpl. unfold spec_datagram. destruct (Result_ok (decode_frame bytes)) eqn:Eok; simpl;
    [|exists []; split; [apply contact_silence|done]].
  case_bool_decide as Ht; [apply spec_frame_contact|].
  exists []. split; [|done].
  pose proof (unknown_silent bytes from Eok Ht) as Hs. simpl in Hs. rewrite Eok in Hs.
  rewrite Hs. apply contact_silence.
Qed.

Lemma lapse_swept now v : lapse now (directory v) (directory (swept now v)).
Proof. apply lapse_filter. intros r Hr. by apply Z.ltb_lt in Hr. Qed.

(** ** Every run *)

(** What a history and the part of a run it covers have in common. *)
Definition in_step (rs : list Received) (s s' : Server R) (rds : list (Round Event Answer)) : Prop :=
  event <$> rds = event_of <$> rs ∧
  sent s' = sent s ++ (datagram_of <$> mjoin (answers <$> rds)).

Lemma server_history s rs :
  (∀ n m, (n ≤ m)%nat → clock n ≤ clock m) → view_ok (view s) → (0 < clock_reads s)%nat →
  let s' := run clock signer rs s in
  (0 < clock_reads s')%nat ∧
  ∃ rds, dhistory (clock (pred (clock_reads s))) (directory (view s))
           rds (clock (pred (clock_reads s'))) (directory (view s')) ∧ in_step rs s s' rds.
Proof.
  intros Hmono Hv Hpos0. induction rs as [|r rs IH] using rev_ind.
  { split; [done|]. exists []. split; [apply history_start|].
    split; [done|]. simpl. by rewrite app_nil_r. }
  rewrite server_run_app. simpl. set (s' := run clock signer rs s) in *.
  destruct IH as (Hpos & rds & Hh & Hev & Hsent).
  assert (view_ok (view s')) as Hok by by apply run_view_ok.
  destruct (server_step_spec clock signer r s' Hok) as (s1 & (Hv1 & Hs1 & Hl1 & Hr1) & ->).
  destruct (sweep_spec clock s1) as (Hv2 & Hs2 & Hr2 & _). rewrite Hr2.
  destruct (spec_input_contact (clock (clock_reads s')) r (view s')) as (out & Hc & Hout).
  rewrite <-Hv1 in Hc. split; [lia|].
  exists (rds ++ [{| at_ := clock (clock_reads s'); event := event_of r; answers := out;
                     swept_at := clock (clock_reads s1) |}]). split; [|split].
  - eapply (history_round _ _ _ _ rds _ _ {| at_ := _; swept_at := _ |} (directory (view s1)));
      [done| |done|].
    + split; apply Hmono; lia.
    + simpl. rewrite Hv2. case_match; [apply lapse_swept|apply lapse_refl].
  - by rewrite !fmap_app, Hev.
  - rewrite Hs2, Hs1, Hsent, Hout, fmap_app, join_app, fmap_app. simpl.
    by rewrite app_nil_r, app_assoc.
Qed.
End refinement.

(** ** What holds of every history *)

(** The lease on [i] is still [pk]'s and no older than [t0], or [t0] is longer
    ago than the TTL and whoever holds [i] instead was heard from after that. *)
Definition secured (i : RedeskId) (pk : StaticPubKey) (t0 now : Z) (d : Directory) : Prop :=
  (∃ l, d !! i = Some l ∧ holder l = pk ∧ t0 ≤ seen l) ∨
  (t0 + kRegistryTtlSeconds < now ∧
   ∀ l, d !! i = Some l → holder l = pk ∨ t0 + kRegistryTtlSeconds < seen l).

(** A contact at a later time that leaves a lease on [i]. *)
Lemma secured_insert i pk t0 now d j l :
  t0 ≤ now → seen l = now → secured i pk t0 now d →
  (j = i → holder l = pk ∨ t0 + kRegistryTtlSeconds < now) →
  secured i pk t0 now (<[j := l]> d).
Proof.
  intros Ht Hl Hs Hj. destruct (decide (j = i)) as [->|Hne].
  - destruct (Hj eq_refl) as [Hp|Hlate].
    + left. rewrite lookup_insert_eq. exists l. split_and!; [done..|lia].
    + right. split; [lia|]. intros l'. rewrite lookup_insert_eq. intros [= <-]. right. lia.
  - unfold secured. rewrite lookup_insert_ne by done.
    done.
Qed.

Lemma secured_later i pk t0 t now d : t ≤ now → secured i pk t0 t d → secured i pk t0 now d.
Proof. intros Ht [?|[? ?]]; [by left|right]. split; [lia|done]. Qed.

Lemma contact_secured i pk t0 now d e d' out :
  t0 ≤ now → contact now d e d' out → secured i pk t0 now d → secured i pk t0 now d'.
Proof.
  intros Ht Hc Hs. destruct Hc as [from j pk' (_ & _ & Hm)| |from j l Hl| | | | | |]; try done.
  - apply secured_insert; try done. intros ->. simpl.
    destruct Hs as [(l & Hl & Hp & Hseen)|[Hlate _]]; [|right; lia].
    destruct (Hm l Hl); [left; congruence|right].
    unfold kSquatGuardWindowS, kRegistryTtlSeconds in *. lia.
  - apply secured_insert; try done. intros ->. simpl.
    destruct Hs as [(l' & Hl' & Hp & _)|[Hlate _]]; [left; congruence|right; lia].
Qed.

Lemma lapse_secured i pk t0 now d d' :
  lapse now d d' → secured i pk t0 now d → secured i pk t0 now d'.
Proof.
  intros Hl Hs. unfold secured.
  destruct (lapse_cases _ _ now d d' i Hl) as [->|(l & Hi & -> & Hold)]; [done|right].
  split; [|done]. destruct Hs as [(l' & Hl' & _ & ?)|[? _]]; [|done]. simplify_eq. lia.
Qed.

Lemma history_secured i pk t0 t d rds t' d' :
  dhistory t d rds t' d' → t0 ≤ t → secured i pk t0 t d → secured i pk t0 t' d'.
Proof.
  intros Hh Ht Hs. apply (history_invariant contact lapse
    (λ now d, t0 ≤ now ∧ secured i pk t0 now d) t d rds t' d'); [..|done|done].
  - intros t1 t2 d1 ? [? ?]. split; [lia|by apply (secured_later _ _ _ t1)].
  - intros now d1 e d2 out ? [? ?]. split; [done|by eapply contact_secured].
  - intros now d1 d2 ? [? ?]. split; [done|by eapply lapse_secured].
Qed.

(** Nothing is seen in the future. *)
Definition seen_by (now : Z) (d : Directory) : Prop := ∀ i l, d !! i = Some l → seen l ≤ now.

Lemma contact_seen now d e d' out : contact now d e d' out → seen_by now d → seen_by now d'.
Proof.
  intros Hc Hd i l Hl.
  destruct Hc; try (by eapply Hd);
    apply lookup_insert_Some in Hl as [[_ <-]|[_ Hl]]; simpl; eauto with lia.
Qed.

Lemma history_seen t d rds t' d' : dhistory t d rds t' d' → seen_by t d → seen_by t' d'.
Proof.
  apply history_invariant.
  - intros t1 t2 d1 ? Hs i l Hl. specialize (Hs i l Hl). lia.
  - intros. by eapply contact_seen.
  - intros now d1 d2 Hl Hs i l Hi. by eapply Hs, lapse_lookup.
Qed.

(** C2. The server refines the directory: for every registry
    and signer that meet their contracts, every sequence of datagrams and receive
    errors and every clock that does not run backwards, there is a history of the
    directory, from the empty one, whose events are those of the inputs, whose
    answers are the datagrams sent, in order and byte for byte, and whose last
    directory is what the registry holds. *)
Theorem directory_refinement {R S} `{RegistryContract R} `{SignerContract S verifies}
    clock (signer : S) (r0 : R) rs :
  (∀ n m, (n ≤ m)%nat → clock n ≤ clock m) → contents r0 = ∅ →
  let s := run clock signer rs (start clock r0) in
  ∃ rds, dhistory (clock 0%nat) ∅ rds (clock (pred (clock_reads s)))
           (directory (contents (registry s))) ∧
    event <$> rds = event_of <$> rs ∧
    sent s = datagram_of signer <$> mjoin (answers <$> rds).
Proof.
  intros Hmono He s.
  destruct (server_history clock signer (start clock r0) rs Hmono) as (_ & rds & Hh & Hev & Hs);
    [by apply start_view_ok|simpl; lia|].
  exists rds. simpl in Hh. rewrite He in Hh. unfold directory in Hh at 1.
  rewrite fmap_empty in Hh. by split_and!.
Qed.

(** C6. An id changes hands only after its holder was silent for
    longer than the TTL: if an id is registered with one key in a reachable state
    and with another in a later one, the last contact of the new holder is more
    than 60 seconds after the last contact the old one had in the first state. *)
Theorem id_changes_hands {R S} `{RegistryContract R} `{SignerContract S verifies}
    clock (signer : S) (s : Server R) rs i x y :
  (∀ n m, (n ≤ m)%nat → clock n ≤ clock m) → reachable clock signer s →
  contents (registry s) !! i = Some x →
  contents (registry (run clock signer rs s)) !! i = Some y →
  static_pubkey x ≠ static_pubkey y →
  last_seen_unix_s x + kRegistryTtlSeconds < last_seen_unix_s y.
Proof.
  intros Hmono Hreach Hx Hy Hne. pose proof (reachable_ok clock signer s Hreach) as Hok.
  destruct Hreach as (r0 & rs0 & He & ->).
  destruct (server_history clock signer (start clock r0) rs0 Hmono) as (Hpos & rds0 & Hh0 & _);
    [by apply start_view_ok|simpl; lia|].
  set (s := run clock signer rs0 (start clock r0)) in *.
  destruct (server_history clock signer s rs Hmono Hok Hpos) as (_ & rds & Hh & _).
  assert (last_seen_unix_s x ≤ clock (pred (clock_reads s))) as Hseen.
  { change (seen (lease_of x) ≤ clock (pred (clock_reads s))).
    apply (history_seen _ _ _ _ _ Hh0) with (i := i).
    - simpl. unfold directory. rewrite He, fmap_empty. intros j l. by rewrite lookup_empty.
    - unfold directory. by rewrite lookup_fmap, Hx. }
  assert (secured i (static_pubkey x) (last_seen_unix_s x)
    (clock (pred (clock_reads (run clock signer rs s))))
    (directory (contents (registry (run clock signer rs s))))) as Hs.
  { apply (history_secured _ _ _ _ _ _ _ _ Hh Hseen). left. exists (lease_of x). unfold directory. by rewrite lookup_fmap, Hx. }
  assert (directory (contents (registry (run clock signer rs s))) !! i = Some (lease_of y)) as Hl
    by (unfold directory; by rewrite lookup_fmap, Hy).
  destruct Hs as [(l & Hl' & Hp & _)|[_ Hother]].
  - by simplify_eq.
  - by destruct (Hother _ Hl).
Qed.

(** The sweep cuts the squat guard's 90 seconds short: in every reachable state, an
    iteration whose sweep is due and finds an entry idle for more than 60 seconds
    leaves the id to the next registration, with any key and at once. *)
Theorem squat_guard_cut_short {R S} `{RegistryContract R} `{SignerContract S verifies}
    clock (signer : S) (s : Server R) c x from bytes f :
  reachable clock signer s →
  let now := clock (clock_reads s) in
  kExpirySweepSeconds ≤ now - last_sweep s →
  contents (registry s) !! id f = Some x → kRegistryTtlSeconds < now - last_seen_unix_s x →
  decode_frame bytes = good f → type f = Register → id f ≠ "" →
  (kStaticPubKeyLen ≤ length (body f))%nat →
  let s1 := (step clock signer (RecvError c) s).2 in
  sent (step clock signer (Datagram from bytes) s1).2 =
    sent s ++ [datagram_of signer (Granted from (id f) (take kStaticPubKeyLen (body f)))].
Proof.
  intros Hok%reachable_ok now Hdue Hx Hidle Hdec Ht Hid Hlen s1.
  assert (contents (registry s1) !! id f = None ∧ sent s1 = sent s) as [Hn Hs1].
  { change s1 with (sweep clock s).2. destruct (sweep_spec clock s) as (Hv' & Hs' & _).
    split; [|done]. fold now in Hv'.
    rewrite (proj2 (Z.leb_le _ _) Hdue) in Hv'. rewrite Hv'.
    unfold swept. apply map_lookup_filter_None. right. intros y Hy. simplify_eq.
    unfold stale. apply not_false_iff_true, Z.ltb_lt. done. }
  rewrite step_sent by by apply step_view_ok. rewrite Hs1. f_equal. simpl.
  unfold spec_datagram, spec_frame. rewrite Hdec. simpl.
  rewrite Ht, bool_decide_true by done. rewrite Hn, decide_True; [done|].
  split; [|done]. split; [done|]. simpl. rewrite length_take. lia.
Qed.

(** ** Witnesses *)

Lemma sample_clock_mono n m : (n ≤ m)%nat → sample_clock n ≤ sample_clock m.
Proof. unfold sample_clock. lia. Qed.

Lemma directory_refinement_witness :
  ∃ rds d, dhistory 1700000000 ∅ rds 1700000004 d ∧
    event <$> rds = [Claim alice_ep "123456789" (replicate 32 7)] ∧
    d !! "123456789" = Some {| holder := replicate 32 7; address := alice_ep;
                               seen := 1700000002 |}.
Proof.
  destruct (directory_refinement sample_clock sample_signer InMemory.make_in_memory_registry
    sample_inputs sample_clock_mono) as (rds & Hh & Hev & _); [done|].
  exists rds, (directory (InMemory.map_ (registry sample_server))).
  split; [exact Hh|]. split; [by rewrite Hev; vm_compute|by vm_compute].
Defined.

(** A second key claims the id 76 seconds after the first one's contact. *)
Definition idle_clock (n : nat) : Z := if (n <? 3)%nat then 1000 else 1076.

Lemma idle_clock_mono n m : (n ≤ m)%nat → idle_clock n ≤ idle_clock m.
Proof.
  unfold idle_clock. destruct (Nat.ltb_spec n 3), (Nat.ltb_spec m 3); lia.
Qed.

Definition idle_server : Server InMemory.InMemoryRegistry :=
  run idle_clock sample_signer sample_inputs
    (start idle_clock InMemory.make_in_memory_registry).
Definition takeover : list Received :=
  [RecvError Again; Datagram mallory_ep (frame_bytes Register (replicate 32 9))].

Lemma id_changes_hands_witness : 1000 + kRegistryTtlSeconds < 1076.
Proof.
  apply (id_changes_hands idle_clock sample_signer idle_server takeover "123456789"
    {| rec_id := "123456789"; endpoint := alice_ep; static_pubkey := replicate 32 7;
       capabilities := 0; last_seen_unix_s := 1000 |}
    {| rec_id := "123456789"; endpoint := mallory_ep; static_pubkey := replicate 32 9;
       capabilities := 0; last_seen_unix_s := 1076 |} idle_clock_mono).
  - by exists InMemory.make_in_memory_registry, sample_inputs.
  - by vm_compute.
  - by vm_compute.
  - done.
Defined.

Lemma squat_guard_cut_short_witness :
  let s1 := (step idle_clock sample_signer (RecvError Again) idle_server).2 in
  sent (step idle_clock sample_signer (Datagram mallory_ep (frame_bytes Register (replicate 32 9)))
          s1).2 =
    sent idle_server ++
      [datagram_of sample_signer (Granted mallory_ep "123456789" (replicate 32 9))].
Proof.
  apply (squat_guard_cut_short idle_clock sample_signer idle_server Again
    {| rec_id := "123456789"; endpoint := alice_ep; static_pubkey := replicate 32 7;
       capabilities := 0; last_seen_unix_s := 1000 |} mallory_ep
    (frame_bytes Register (replicate 32 9))
    {| type := Register; id := "123456789"; body := replicate 32 9 |}).
  - by exists InMemory.make_in_memory_registry, sample_inputs.
  - by vm_compute.
  - by vm_compute.
  - by vm_compute.
  - by vm_compute.
  - done.
  - done.
  - by vm_compute.
Defined.
