(* ===== verification/Introduction.v ===== *)
(** * An introduction from end to end

    The three messages by which one peer finds another through
    server/rendezvous: the callee registers, the caller looks it up, the caller
    passes its candidates on.  [read_lvs] reads the attestation format that
    [push_lv] of main.cpp writes; no client that does is part of the repository. *)

From S2P Require Import Prelude Types Net Protocol Registry Signer Rendezvous RendezvousFacts.

(** ** Reading an attestation *)

(** One length byte and that many bytes; what is left. *)
Definition read_lv (bs : list Z) : option (list Z * list Z) :=
  match bs with
  | [] => None
  | n :: bs =>
      if (Z.to_nat n <=? length bs)%nat then Some (take (Z.to_nat n) bs, drop (Z.to_nat n) bs)
      else None
  end.

Definition read_attestation (bs : list Z) : option (list Z * list Z * list Z) :=
  '(pk, bs) ← read_lv bs;
  '(sig, bs) ← read_lv bs;
  '(vk, bs) ← read_lv bs;
  if bool_decide (bs = []) then Some (pk, sig, vk) else None.

Lemma read_push v bs :
  Z.of_nat (length v) ≤ 255 → read_lv (push_lv v ++ bs) = Some (v, bs).
Proof.
  intros Hl. unfold push_lv. rewrite (proj2 (Z.ltb_ge _ _)) by done. cbn [app read_lv].
  rewrite wrap_id by (unfold fits; lia). rewrite Nat2Z.id, (take_ge v) by done.
  rewrite (proj2 (Nat.leb_le _ _)) by (rewrite length_app; lia).
  by rewrite take_app_length, drop_app_length.
Qed.

(** The attestation is read back, if no part is longer than 255 bytes. *)
Lemma read_encode_attestation pk sig vk :
  Z.of_nat (length pk) ≤ 255 → Z.of_nat (length sig) ≤ 255 → Z.of_nat (length vk) ≤ 255 →
  read_attestation (encode_attestation pk sig vk) = Some (pk, sig, vk).
Proof.
  intros. unfold read_attestation, encode_attestation.
  rewrite <-(app_nil_r (push_lv vk)). do 3 (rewrite read_push by done; cbn [mbind option_bind]).
  done.
Qed.

Lemma length_push_lv v : (length (push_lv v) ≤ 256)%nat.
Proof.
  unfold push_lv. simpl. rewrite length_take.
  destruct (Z.ltb_spec 255 (Z.of_nat (length v))); lia.
Qed.

Lemma length_encode_attestation pk sig vk :
  (length (encode_attestation pk sig vk) ≤ 768)%nat.
Proof.
  unfold encode_attestation. rewrite !length_app.
  pose proof (length_push_lv pk). pose proof (length_push_lv sig).
  pose proof (length_push_lv vk). lia.
Qed.

Section introduction.
Context {R S : Type} `{RegistryContract R} `{SignerContract S verifies}.
Context (clock : nat → Z) (signer : S).
Abbreviation view s := (contents (registry s)).

(** An entry that is there after the input and young at the sweep is there after
    the iteration; an iteration reads the clock once or twice. *)
Lemma step_keeps r s i x :
  view_ok (view s) →
  (spec_input signer (clock (clock_reads s)) r (view s)).1 !! i = Some x →
  let s' := (step clock signer r s).2 in
  clock (pred (clock_reads s')) - last_seen_unix_s x ≤ kRegistryTtlSeconds →
  view s' !! i = Some x.
Proof.
  intros Hv Hx s'. unfold s'. destruct (server_step_spec clock signer r s Hv)
    as (s1 & (Hview & _) & ->). destruct (sweep_spec clock s1) as (-> & _ & -> & _).
  rewrite <-Hview in Hx. simpl. intros Hage. case_match; [|done].
  apply map_lookup_filter_Some. split; [done|]. unfold stale. apply Z.ltb_ge. lia.
Qed.

Lemma step_reads r s :
  view_ok (view s) →
  (clock_reads s < clock_reads (step clock signer r s).2 ≤ 2 + clock_reads s)%nat.
Proof.
  intros Hv. destruct (server_step_spec clock signer r s Hv) as (s1 & (_ & _ & _ & ?) & ->).
  destruct (sweep_spec clock s1) as (_ & _ & -> & _). lia.
Qed.

(** What a well-formed datagram does. *)
Lemma spec_input_frame now from f v :
  frame_ok f → spec_input signer now (Datagram from (encode_frame f)) v = spec_frame signer now from f v.
Proof.
  intros Hf. pose proof (frame_type_ok f Hf). simpl. unfold spec_datagram.
  rewrite <-(app_nil_r (encode_frame f)), decode_encode, clip_ok by done.
  simpl. by rewrite bool_decide_true.
Qed.

(** The three datagrams of an introduction. *)
Abbreviation message i t b := (encode_frame {| type := t; id := i; body := b |}).

Lemma message_ok t i b :
  t ≠ Unknown → Z.of_nat (String.length i) ≤ 255 → Z.of_nat (length b) ≤ 65535 → bytes_ok b →
  frame_ok {| type := t; id := i; body := b |}.
Proof. by split. Qed.

Lemma register_input now callee i pk v :
  (∀ x, v !! i = Some x → static_pubkey x = pk) →
  i ≠ "" → Z.of_nat (String.length i) ≤ 255 → length pk = kStaticPubKeyLen → bytes_ok pk →
  spec_input signer now (Datagram callee (message i Register pk)) v =
    (<[i := {| rec_id := i; endpoint := callee; static_pubkey := pk; capabilities := 0;
               last_seen_unix_s := now |}]> v, reply callee RegisterOk i (attest signer i pk)).
Proof.
  intros Hfree Hi Hil Hpk Hb.
  rewrite spec_input_frame by (apply message_ok; [done..|rewrite Hpk; done|done]).
  unfold spec_frame, registration. simpl. rewrite take_ge by lia.
  rewrite decide_True; [done|]. split; [done|].
  destruct (v !! i) as [x|] eqn:Ex; [|done]. intros _. simpl. by apply Hfree.
Qed.

Lemma lookup_input now caller i rec v :
  i ≠ "" → Z.of_nat (String.length i) ≤ 255 → v !! i = Some rec → rec_id rec = i →
  spec_input signer now (Datagram caller (message i Lookup [])) v =
    (v, reply caller LookupOk i (attest signer i (static_pubkey rec))).
Proof.
  intros Hi Hil Hv <-. rewrite spec_input_frame by (by apply message_ok).
  unfold spec_frame, lookup_target. simpl. rewrite bool_decide_true by done. by rewrite Hv.
Qed.

Lemma broker_input now caller i rec v blob :
  Z.of_nat (String.length i) ≤ 255 → Z.of_nat (length blob) ≤ 65535 → bytes_ok blob →
  v !! i = Some rec →
  spec_input signer now (Datagram caller (message i BrokerCandidates blob)) v =
    (v, reply (endpoint rec) BrokerCandidates i blob).
Proof.
  intros Hil Hbl Hbb Hv. rewrite spec_input_frame by (by apply message_ok).
  unfold spec_frame. simpl. by rewrite Hv.
Qed.

(** What the looking-up peer reads from its answer. *)
Lemma read_lookup_ok i pk sig :
  sign_peer_key signer i pk = good sig → Z.of_nat (String.length i) ≤ 255 →
  length pk = kStaticPubKeyLen → Z.of_nat (length sig) ≤ 255 →
  Z.of_nat (length (verify_key signer)) ≤ 255 →
  ∃ f, decode_frame (message i LookupOk (attest signer i pk)) = good f ∧
    type f = LookupOk ∧ id f = i ∧
    read_attestation (body f) = Some (pk, sig, verify_key signer).
Proof.
  intros Hs Hil Hpk Hsig Hvk.
  assert (attest signer i pk = encode_attestation pk sig (verify_key signer)) as ->
    by (unfold attest; by rewrite Hs).
  pose proof (length_encode_attestation pk sig (verify_key signer)).
  rewrite frame_encode_clips by done. eexists. do 2 (split; [done|]).
  split; cbn [clip id body].
  - rewrite take_ge, string_of_bytes_of_string; [done|].
    rewrite length_bytes_of_string. unfold kMaxId. lia.
  - rewrite take_ge by (unfold kMaxBody; lia).
    apply read_encode_attestation; [rewrite Hpk; done|done|done].
Qed.
End introduction.

(** C5. Introductions succeed: when the id is free or already has the
    same key, its holder registers, another peer looks it up and passes a blob on,
    and the server answers the two, passes the blob to the address that registered,
    and sends nothing else; the looking-up peer reads from the answer the id, the
    registered key and a signature its verifier accepts for both.  (For ids, keys
    and signatures that fit their length byte, within the TTL.) *)
Theorem introduction {R S} `{RegistryContract R} `{SignerContract S verifies}
    clock (signer : S) (s : Server R) callee caller i pk blob :
  reachable clock signer s →
  (∀ n, (clock_reads s ≤ n ≤ 5 + clock_reads s)%nat →
    clock n - clock (clock_reads s) ≤ kRegistryTtlSeconds) →
  (∀ x, contents (registry s) !! i = Some x → static_pubkey x = pk) →
  i ≠ "" → Z.of_nat (String.length i) ≤ 255 → length pk = kStaticPubKeyLen → bytes_ok pk →
  Z.of_nat (length blob) ≤ 65535 → bytes_ok blob →
  (∀ sig, sign_peer_key signer i pk = good sig →
     Z.of_nat (length sig) ≤ 255) → Z.of_nat (length (verify_key signer)) ≤ 255 →
  let message t b := encode_frame {| type := t; id := i; body := b |} in
  let s' := run clock signer
    [Datagram callee (message Register pk); Datagram caller (message Lookup []);
     Datagram caller (message BrokerCandidates blob)] s in
  ∃ registered found, sent s' = sent s ++
      [(callee, registered); (caller, found); (callee, message BrokerCandidates blob)] ∧
    ∃ f sig, decode_frame found = good f ∧ type f = LookupOk ∧ id f = i ∧
      read_attestation (body f) = Some (pk, sig, verify_key signer) ∧
      verifies (verify_key signer) (intro_message i pk) sig = true.
Proof.
  intros Hok%reachable_ok Hclk Hfree Hi Hil Hpk Hbpk Hbl Hbb Hsig Hvk message s'.
  set (r1 := Datagram callee (message Register pk)).
  set (r2 := Datagram caller (message Lookup [])).
  set (r3 := Datagram caller (message BrokerCandidates blob)).
  set (s1 := (step clock signer r1 s).2). set (s2 := (step clock signer r2 s1).2).
  assert (view_ok (contents (registry s1))) as Hok1 by by apply step_view_ok.
  assert (view_ok (contents (registry s2))) as Hok2 by by apply step_view_ok.
  pose proof (step_reads clock signer r1 s Hok) as Hn1. fold s1 in Hn1.
  pose proof (step_reads clock signer r2 s1 Hok1) as Hn2. fold s2 in Hn2.
  pose proof (register_input signer (clock (clock_reads s)) callee i pk _ Hfree Hi Hil Hpk Hbpk) as E1.
  set (reg := {| rec_id := i; endpoint := callee |}) in E1.
  assert (contents (registry s1) !! i = Some reg) as Hv1.
  { apply step_keeps; [done| |fold s1; apply Hclk; lia].
    unfold r1, message. rewrite E1. simpl. by rewrite lookup_insert_eq. }
  pose proof (λ now, lookup_input signer now caller i reg _ Hi Hil Hv1 eq_refl) as E2.
  assert (contents (registry s2) !! i = Some reg) as Hv2.
  { apply step_keeps; [done|unfold r2, message; by rewrite E2|]. apply Hclk. fold s2. lia. }
  destruct (sign_ok signer i pk Hpk) as (sig & Hs & Hver).
  destruct (read_lookup_ok signer i pk sig) as (f & Hf); [by auto..|].
  exists (message RegisterOk (attest signer i pk)), (message LookupOk (attest signer i pk)).
  split; [|by exists f, sig; destruct Hf as (?&?&?&?)].
  change s' with (step clock signer r3 s2).2. rewrite (step_sent clock signer r3 s2) by done.
  unfold r3, message. rewrite (broker_input signer _ caller i reg) by done.
  unfold s2. rewrite (step_sent clock signer r2 s1) by done. unfold r2, message. rewrite E2.
  unfold s1. rewrite (step_sent clock signer r1 s) by done. unfold r1, message. rewrite E1.
  by rewrite <-!app_assoc.
Qed.

(** ** Witness: the default build's registry and signer *)

Lemma introduction_witness :
  let s := start sample_clock InMemory.make_in_memory_registry in
  let message t b := encode_frame {| type := t; id := "123456789"; body := b |} in
  ∃ registered found,
    sent (run sample_clock sample_signer
      [Datagram alice_ep (message Register (replicate 32 7));
       Datagram mallory_ep (message Lookup []);
       Datagram mallory_ep (message BrokerCandidates [1; 2; 3])] s) =
    sent s ++ [(alice_ep, registered); (mallory_ep, found);
               (alice_ep, message BrokerCandidates [1; 2; 3])].
Proof.
  intros s message. set (pk := replicate 32 7).
  destruct (introduction sample_clock sample_signer s alice_ep mallory_ep "123456789" pk [1; 2; 3])
    as (registered & found & Hs & _).
  - by exists InMemory.make_in_memory_registry, [].
  - intros n. simpl. unfold sample_clock, kRegistryTtlSeconds. lia.
  - intros x. by vm_compute.
  - done.
  - by vm_compute.
  - done.
  - apply (bool_decide_unpack (Forall (λ b, 0 ≤ b < 256) _)). by vm_compute.
  - by vm_compute.
  - apply (bool_decide_unpack (Forall (λ b, 0 ≤ b < 256) _)). by vm_compute.
  - intros sig Hsig. destruct (insecure_signature_marked "123456789" pk) as (_ & _ & Hm).
    rewrite bool_decide_true in Hm by done. destruct Hm as (sig' & Hs' & Hl & _).
    unfold sample_signer in Hsig. rewrite Hs' in Hsig. injection Hsig as ->. by rewrite Hl.
  - by vm_compute.
  - exists registered, found. exact Hs.
Defined.
