(* ===== verification/Relay.v ===== *)
(** * The blind-forward relay ([server/relay/allocation_table.h],
    [server/relay/allocation_table.cpp], [server/relay/main.cpp])

    The allocation table pairs two source addresses per token; the loop strips
    the token, asks the table where to forward and sends.  [AllocationTable] is
    the abstract class, [AllocationContract] what the loop's proofs use of it. *)

From S2P Require Import Prelude Types Net.

Abbreviation SessionToken := string (only parsing).

Record Leg := {
  endpoint : Endpoint;
  bound : bool;
  bytes_forwarded : Z;
}.

Definition Leg_init : Leg :=
  {| endpoint := Endpoint_init; bound := false; bytes_forwarded := 0 |}.

Record Allocation := {
  token : SessionToken;
  a : Leg;
  b : Leg;
  created_unix_s : Z;
  last_activity_unix_s : Z;
}.

Definition Allocation_init : Allocation :=
  {| token := ""; a := Leg_init; b := Leg_init; created_unix_s := 0;
     last_activity_unix_s := 0 |}.

Definition fully_bound (al : Allocation) : bool := bound (a al) && bound (b al).

#[export] Instance value_init_Endpoint : ValueInit Endpoint := Endpoint_init.

(** ** The interface *)

Class AllocationTable (T : Type) := {
  allocate : SessionToken → Z → T → Status * T;
  route : SessionToken → Endpoint → Z → Z → T → Result Endpoint * T;
  expire : Z → Z → T → Z * T;
  size : T → Z;
}.

(** What [allocate] makes of the entry it finds or creates. *)
Definition seed (tok : SessionToken) (now : Z) (al : Allocation) : Allocation :=
  if created_unix_s al =? 0 then
    {| token := tok; a := a al; b := b al;
       created_unix_s := now; last_activity_unix_s := now |}
  else al.

Definition bind (src : Endpoint) (l : Leg) : Leg :=
  {| endpoint := src; bound := true; bytes_forwarded := bytes_forwarded l |}.
Definition count (bytes : Z) (l : Leg) : Leg :=
  {| endpoint := endpoint l; bound := bound l;
     bytes_forwarded := to_u64 (bytes_forwarded l + bytes) |}.

(** The answer once [self] is known: count, then forward to [peer] if it is bound. *)
Definition answer (peer : Leg) : Result Endpoint :=
  if negb (bound peer) then fail Again "peer leg not yet bound" else good (endpoint peer).

(** The body of [route] on the allocation the token names. *)
Definition route_allocation (src : Endpoint) (bytes now : Z) (al : Allocation)
    : Result Endpoint * Allocation :=
  let with_legs la lb :=
    {| token := token al; a := la; b := lb; created_unix_s := created_unix_s al;
       last_activity_unix_s := now |} in
  if bound (a al) && bool_decide (endpoint (a al) = src) then
    (answer (b al), with_legs (count bytes (a al)) (b al))
  else if bound (b al) && bool_decide (endpoint (b al) = src) then
    (answer (a al), with_legs (a al) (count bytes (b al)))
  else if negb (bound (a al)) then
    (answer (b al), with_legs (count bytes (bind src (a al))) (b al))
  else if negb (bound (b al)) then
    (answer (a al), with_legs (a al) (count bytes (bind src (b al))))
  else
    (fail PermissionDenied "session legs already bound to other peers",
     with_legs (a al) (b al)).

Definition idle (now ttl : Z) (al : Allocation) : bool :=
  ttl <? now - last_activity_unix_s al.

Class AllocationContract (T : Type) `{AllocationTable T} := {
  contents : T → gmap string Allocation;
  allocate_contents tok now t :
    contents (allocate tok now t).2 =
      if bool_decide (tok = "") then contents t
      else <[tok := seed tok now (default Allocation_init (contents t !! tok))]> (contents t);
  route_known tok src bytes now t al :
    contents t !! tok = Some al →
    (route tok src bytes now t).1 = (route_allocation src bytes now al).1 ∧
    contents (route tok src bytes now t).2 =
      <[tok := (route_allocation src bytes now al).2]> (contents t);
  route_unknown tok src bytes now t :
    contents t !! tok = None →
    Result_ok (route tok src bytes now t).1 = false ∧
    contents (route tok src bytes now t).2 = contents t;
  expire_contents now ttl t :
    contents (expire now ttl t).2 = filter (λ '(_, al), idle now ttl al = false) (contents t);
  expire_count now ttl t : (expire now ttl t).1 = size t - size (expire now ttl t).2;
}.

(** ** The in-memory table *)

Module InMemory.

Record InMemoryAllocationTable := { map_ : gmap string Allocation }.

Definition allocate (tok : SessionToken) (now : Z) (t : InMemoryAllocationTable)
    : Status * InMemoryAllocationTable :=
  if bool_decide (tok = "") then (error InvalidArgument "empty session token", t)
  else
    let alloc := default Allocation_init (map_ t !! tok) in
    (success, {| map_ := <[tok := seed tok now alloc]> (map_ t) |}).

Definition route (tok : SessionToken) (src : Endpoint) (bytes now : Z)
    (t : InMemoryAllocationTable) : Result Endpoint * InMemoryAllocationTable :=
  match map_ t !! tok with
  | None => (fail InvalidArgument "unknown session token", t)
  | Some al =>
      let '(res, al') := route_allocation src bytes now al in
      (res, {| map_ := <[tok := al']> (map_ t) |})
  end.

Definition expire (now ttl : Z) (t : InMemoryAllocationTable) : Z * InMemoryAllocationTable :=
  let '(removed, m) := erase_if (λ al, ttl <? now - last_activity_unix_s al) (map_ t) in
  (removed, {| map_ := m |}).

Definition size (t : InMemoryAllocationTable) : Z := Z.of_nat (base.size (map_ t)).

Definition make_in_memory_allocation_table : InMemoryAllocationTable := {| map_ := ∅ |}.

End InMemory.

#[export] Instance InMemoryAllocationTable_table :
  AllocationTable InMemory.InMemoryAllocationTable := {
  allocate := InMemory.allocate;
  route := InMemory.route;
  expire := InMemory.expire;
  size := InMemory.size;
}.

#[export] Instance InMemoryAllocationTable_contract :
  AllocationContract InMemory.InMemoryAllocationTable.
Proof.
  assert (∀ now ttl t, let out := InMemory.expire now ttl t in
    InMemory.map_ out.2 = filter (λ '(_, al), idle now ttl al = false) (InMemory.map_ t) ∧
    out.1 = InMemory.size t - InMemory.size out.2) as Hexp.
  { intros now ttl t. unfold InMemory.expire, InMemory.size.
    pose proof (erase_if_spec (idle now ttl) (InMemory.map_ t)) as Hs.
    unfold idle in Hs. by destruct (erase_if _ _). }
  refine {| contents := InMemory.map_ |}; simpl.
  - intros. unfold InMemory.allocate. by case_bool_decide.
  - intros tok src bytes now t al Hal. unfold InMemory.route. rewrite Hal.
    by destruct (route_allocation src bytes now al).
  - intros tok src bytes now t Hn. unfold InMemory.route. by rewrite Hn.
  - intros. apply Hexp.
  - intros. apply Hexp.
Defined.

(** ** The forward loop *)

Definition kSessionTtlSeconds : Z := 30.
Definition kExpirySweepSeconds : Z := 10.

(** Token and payload, [None] for a malformed datagram. *)
Definition parse_datagram (data : list Z) : option (SessionToken * list Z) :=
  if (length data <? 1)%nat then None
  else
    let tlen := Z.to_nat (data !!! 0%nat) in
    if (tlen =? 0)%nat || (length data <? 1 + tlen)%nat then None
    else Some (string_of_bytes (take tlen (drop 1 data)), drop (1 + tlen) data).

(** The datagram that is forwarded. *)
Definition wrap_datagram (tok : SessionToken) (payload : list Z) : list Z :=
  to_u8 (Z.of_nat (String.length tok)) :: bytes_of_string tok ++ payload.

Record Relay (T : Type) := {
  table : T;
  last_sweep : Z;
  clock_reads : nat;
  sent : list Sent;
}.
Arguments table {T}.
Arguments last_sweep {T}.
Arguments clock_reads {T}.
Arguments sent {T}.

Section relay.
Context {T : Type} `{AllocationTable T}.
Context (clock : nat → Z).

Definition now_unix_s : State (Relay T) Z := λ s,
  (clock (clock_reads s),
   {| table := table s; last_sweep := last_sweep s;
      clock_reads := S (clock_reads s); sent := sent s |}).
Definition set_table (t : T) : State (Relay T) () :=
  modify (λ s, {| table := t; last_sweep := last_sweep s;
                  clock_reads := clock_reads s; sent := sent s |}).
Definition set_last_sweep (now : Z) : State (Relay T) () :=
  modify (λ s, {| table := table s; last_sweep := now;
                  clock_reads := clock_reads s; sent := sent s |}).
Definition send_to (dst : Endpoint) (bytes : list Z) : State (Relay T) () :=
  modify (λ s, {| table := table s; last_sweep := last_sweep s;
                  clock_reads := clock_reads s; sent := sent s ++ [(dst, bytes)] |}).

Definition do_allocate (tok : SessionToken) (now : Z) : State (Relay T) () :=
  t ← gets table; set_table (allocate tok now t).2.
Definition do_route (tok : SessionToken) (src : Endpoint) (bytes now : Z)
    : State (Relay T) (Result Endpoint) :=
  t ← gets table;
  let '(res, t') := route tok src bytes now t in
  set_table t';; mret res.

Definition handle_datagram (from : Endpoint) (data : list Z) : State (Relay T) () :=
  match parse_datagram data with
  | None => mret ()
  | Some (tok, payload) =>
      now ← now_unix_s;
      do_allocate tok now;;
      dst ← do_route tok from (Z.of_nat (length payload)) now;
      if Result_ok dst then send_to (value dst) (wrap_datagram tok payload) else mret ()
  end.

Definition sweep : State (Relay T) () :=
  now ← now_unix_s;
  last ← gets last_sweep;
  if kExpirySweepSeconds <=? now - last then
    t ← gets table;
    set_table (expire now kSessionTtlSeconds t).2;;
    set_last_sweep now
  else mret ().

(** One iteration of the loop. *)
Definition step (r : Received) : State (Relay T) () :=
  match r with
  | Datagram from bytes => handle_datagram from bytes
  | RecvError _ => mret ()
  end;;
  sweep.

Definition start (t : T) : Relay T :=
  {| table := t; last_sweep := clock 0; clock_reads := 1; sent := [] |}.

Definition run (rs : list Received) (s : Relay T) : Relay T :=
  fold_left (λ s r, (step r s).2) rs s.
End relay.
