(* ===== verification/RelayFacts.v ===== *)
(** * Properties of the relay

    Proved for any allocation table that meets its contract, on the view of its
    contents; the loop is first shown to implement [spec_datagram] on it. *)

From S2P Require Import Prelude Types Net Relay.

Abbreviation View := (gmap string Allocation).

(** The bound legs have different addresses, and [a] is bound first. *)
Definition alloc_ok (al : Allocation) : Prop :=
  (bound (b al) = true → bound (a al) = true) ∧
  (bound (a al) = true → bound (b al) = true → endpoint (a al) ≠ endpoint (b al)).

(** [e] is the address of a bound leg. *)
Definition leg_of (e : Endpoint) (al : Allocation) : Prop :=
  (bound (a al) = true ∧ endpoint (a al) = e) ∨ (bound (b al) = true ∧ endpoint (b al) = e).

Lemma seed_ok tok now al : alloc_ok al → alloc_ok (seed tok now al).
Proof. unfold seed. by case_match. Qed.

Lemma init_ok : alloc_ok Allocation_init.
Proof. by split. Qed.

Lemma leg_of_seed e tok now al : leg_of e (seed tok now al) → leg_of e al.
Proof. unfold seed. by case_match. Qed.

(** One routing decision on a well-formed allocation. *)
Lemma route_allocation_spec src bytes now al :
  alloc_ok al →
  let '(res, al') := route_allocation src bytes now al in
  alloc_ok al' ∧ last_activity_unix_s al' = now ∧
  (∀ e, leg_of e al' → e = src ∨ leg_of e al) ∧
  (∀ e, leg_of e al → leg_of e al') ∧
  (Result_ok res = true → leg_of src al' ∧ leg_of (value res) al ∧ value res ≠ src) ∧
  (fully_bound al = true →
     (Result_ok res = true ↔ leg_of src al) ∧
     (endpoint (a al') = endpoint (a al) ∧ endpoint (b al') = endpoint (b al) ∧
      fully_bound al' = true) ∧
     (src = endpoint (a al) → res = good (endpoint (b al))) ∧
     (src = endpoint (b al) → res = good (endpoint (a al)))).
Proof.
  intros [Hord Hne]. unfold route_allocation, answer, fully_bound, leg_of, alloc_ok.
  destruct al as [tk [ea ba ca] [eb bb cb] cr la]. simpl in *.
  destruct ba, bb; simpl in *; repeat case_bool_decide; subst; simpl;
    try (specialize (Hord eq_refl); done); split_and!; simpl;
    try done; try (by intros; auto); try naive_solver congruence.
Qed.

(** ** Datagrams *)

(** Unwrapping and wrapping again gives the datagram back. *)
Lemma parse_wrap data tok payload :
  bytes_ok data → parse_datagram data = Some (tok, payload) →
  wrap_datagram tok payload = data ∧ tok ≠ "".
Proof.
  intros Hb. unfold parse_datagram. destruct data as [|n data]; [done|].
  change ((n :: data) !!! 0%nat) with n. change (drop 1 (n :: data)) with data.
  destruct (Nat.ltb_spec (length (n :: data)) 1); [done|].
  destruct (Nat.eqb_spec (Z.to_nat n) 0); [done|]. rewrite orb_false_l.
  destruct (Nat.ltb_spec (length (n :: data)) (1 + Z.to_nat n)) as [|Hl]; [done|].
  intros [= <- <-]. simpl in Hl. apply Forall_cons in Hb as [Hn Hb].
  assert (bytes_ok (take (Z.to_nat n) data)) as Ht by by apply Forall_take.
  assert (length (take (Z.to_nat n) data) = Z.to_nat n) as Hlt by (rewrite length_take; lia).
  split.
  - unfold wrap_datagram. rewrite <-length_bytes_of_string, bytes_of_string_of_bytes by done.
    unfold byte_ok, fits in Hn. rewrite Hlt, Z2Nat.id by lia. rewrite wrap_id by done.
    change (drop (1 + Z.to_nat n) (n :: data)) with (drop (Z.to_nat n) data).
    by rewrite take_drop.
  - intros Hs. apply (f_equal bytes_of_string) in Hs.
    rewrite bytes_of_string_of_bytes in Hs by done. rewrite Hs in Hlt. simpl in Hlt. lia.
Qed.

(** Every token that a datagram carries is one the loop can be sent again. *)
Lemma parse_wrap_inv tok payload :
  0 < Z.of_nat (String.length tok) ≤ 255 →
  parse_datagram (wrap_datagram tok payload) = Some (tok, payload).
Proof.
  intros Hl. unfold parse_datagram, wrap_datagram.
  rewrite wrap_id by (unfold fits; lia). cbn [length].
  change ((?x :: ?l) !!! 0%nat) with x. rewrite Nat2Z.id.
  rewrite length_app, length_bytes_of_string.
  rewrite !(proj2 (Nat.ltb_ge _ _)) by lia. rewrite (proj2 (Nat.eqb_neq _ _)) by lia.
  simpl. rewrite drop_0, take_app_exact, drop_app_exact by apply length_bytes_of_string.
  by rewrite string_of_bytes_of_string.
Qed.

Section facts.
Context {T : Type} `{AllocationContract T}.
Context (clock : nat → Z).

Abbreviation view s := (contents (table s)).

(** What one datagram does to the contents, and what is sent. *)
Definition spec_datagram (now : Z) (from : Endpoint) (data : list Z) (v : View)
    : View * list Sent :=
  match parse_datagram data with
  | None => (v, [])
  | Some (tok, payload) =>
      let al := seed tok now (default Allocation_init (v !! tok)) in
      let '(res, al') := route_allocation from (Z.of_nat (length payload)) now al in
      (<[tok := al']> v,
       if Result_ok res then [(value res, wrap_datagram tok payload)] else [])
  end.

Definition spec_input (now : Z) (r : Received) (v : View) : View * list Sent :=
  match r with
  | Datagram from data => spec_datagram now from data v
  | RecvError _ => (v, [])
  end.

(** Datagrams carry bytes. *)
Definition input_ok (r : Received) : Prop :=
  match r with Datagram _ data => bytes_ok data | RecvError _ => True end.

Lemma handle_datagram_spec from data s :
  bytes_ok data →
  let out := spec_datagram (clock (clock_reads s)) from data (view s) in
  let s' := (handle_datagram clock from data s).2 in
  view s' = out.1 ∧ sent s' = sent s ++ out.2 ∧ last_sweep s' = last_sweep s ∧
  (clock_reads s ≤ clock_reads s' ≤ Datatypes.S (clock_reads s))%nat.
Proof.
  intros Hb. unfold handle_datagram, spec_datagram.
  destruct (parse_datagram data) as [[tok payload]|] eqn:Ep; simpl;
    [|rewrite app_nil_r; auto with lia].
  destruct (parse_wrap data tok payload Hb Ep) as [_ Htok].
  set (now := clock (clock_reads s)). unfold do_allocate, do_route. run_state. fold now.
  set (t1 := (allocate tok now (table s)).2).
  assert (contents t1 = <[tok := seed tok now (default Allocation_init (view s !! tok))]> (view s))
    as Ht1 by (unfold t1; by rewrite allocate_contents, bool_decide_false).
  set (al := seed _ _ _) in *.
  destruct (route_known tok from (Z.of_nat (length payload)) now t1 al) as [Hres Hc];
    [by rewrite Ht1, lookup_insert_eq|].
  rewrite Ht1, insert_insert_eq in Hc.
  destruct (route tok from (Z.of_nat (length payload)) now t1) as [res t2]. simpl in Hres, Hc.
  subst res. simpl. destruct (route_allocation _ _ _ al) as [res al']. simpl in *.
  destruct (Result_ok res); simpl; rewrite ?app_nil_r; auto with lia.
Qed.

Lemma step_spec r s :
  input_ok r →
  let out := spec_input (clock (clock_reads s)) r (view s) in
  let s' := (step clock r s).2 in
  sent s' = sent s ++ out.2 ∧
  ∃ now, (view s' = out.1 ∨
    view s' = filter (λ '(_, al), idle now kSessionTtlSeconds al = false) out.1) ∧
    now = clock (pred (clock_reads s')) ∧
    (clock_reads s < clock_reads s' ≤ 2 + clock_reads s)%nat.
Proof.
  intros Hr out s'. unfold s', step. rewrite state_bind_run.
  set (s1 := ((match r with
               | Datagram from bytes => handle_datagram clock from bytes
               | RecvError _ => mret ()
               end : State (Relay T) ()) s).2).
  assert (view s1 = out.1 ∧ sent s1 = sent s ++ out.2 ∧
    (clock_reads s ≤ clock_reads s1 ≤ Datatypes.S (clock_reads s))%nat) as (Hv & Hs & Hn).
  { unfold s1, out. destruct r as [from data|c]; simpl.
    - by destruct (handle_datagram_spec from data s Hr) as (? & ? & _ & ?).
    - rewrite app_nil_r. auto with lia. }
  unfold sweep. run_state.
  destruct (kExpirySweepSeconds <=? _); simpl; (split; [done|]); exists (clock (clock_reads s1));
    (split; [|split; [done|lia]]).
  - right. by rewrite expire_contents, Hv.
  - by left.
Qed.

(** ** Invariants of the reachable tables *)

(** [e] sent a datagram for [tok] among the inputs. *)
Definition spoke (rs : list Received) (tok : SessionToken) (e : Endpoint) : Prop :=
  ∃ data payload, Datagram e data ∈ rs ∧ parse_datagram data = Some (tok, payload).

Definition view_inv (rs : list Received) (v : View) : Prop :=
  ∀ tok al, v !! tok = Some al →
    alloc_ok al ∧ ∀ e, leg_of e al → spoke rs tok e.

Lemma spoke_mono rs r tok e : spoke rs tok e → spoke (rs ++ [r]) tok e.
Proof. intros (data & payload & ? & ?). exists data, payload. set_solver. Qed.

(** The allocation a datagram meets. *)
Lemma met_inv rs v tok now :
  view_inv rs v →
  let al := seed tok now (default Allocation_init (v !! tok)) in
  alloc_ok al ∧ ∀ e, leg_of e al → spoke rs tok e.
Proof.
  intros Hv al. unfold al. destruct (v !! tok) as [al0|] eqn:E; simpl.
  - destruct (Hv _ _ E) as [Hok Hl]. split; [by apply seed_ok|].
    intros e He. by apply Hl, (leg_of_seed e tok now).
  - split; [apply seed_ok, init_ok|]. intros e He%leg_of_seed. by destruct He as [[]|[]].
Qed.

Lemma spec_input_inv now r rs v :
  view_inv rs v → view_inv (rs ++ [r]) (spec_input now r v).1.
Proof.
  intros Hv. assert (view_inv (rs ++ [r]) v) as Hv'.
  { intros tok al Hal. destruct (Hv _ _ Hal) as [? Hl]. split; [done|].
    intros e He. by apply spoke_mono, Hl. }
  destruct r as [from data|c]; [|done]. simpl. unfold spec_datagram.
  destruct (parse_datagram data) as [[tok payload]|] eqn:Ep; [|done].
  destruct (met_inv rs v tok now Hv) as [Hok Hl]. set (al := seed _ _ _) in *.
  pose proof (route_allocation_spec from (Z.of_nat (length payload)) now al Hok) as Hroute.
  destruct (route_allocation _ _ _ al) as [res al']. simpl.
  destruct Hroute as (Hok' & _ & Hleg & _). intros tok' al''.
  intros [[<- <-]|[_ Hal]]%lookup_insert_Some; [|by apply Hv'].
  split; [done|]. intros e [->|He]%Hleg.
  - exists data, payload. set_solver.
  - by apply spoke_mono, Hl.
Qed.

Lemma run_inv t rs :
  contents t = ∅ → Forall input_ok rs →
  view_inv rs (view (run clock rs (start clock t))).
Proof.
  intros He. induction rs as [|r rs IH] using rev_ind; intros Hf.
  { simpl. rewrite He. intros tok al. by rewrite lookup_empty. }
  apply Forall_app in Hf as [Hf [Hr _]%Forall_cons].
  unfold run. rewrite fold_left_app. simpl. fold (run clock rs (start clock t)).
  set (s := run clock rs (start clock t)) in *. specialize (IH Hf).
  destruct (step_spec r s Hr) as (_ & now & Hview & _).
  pose proof (spec_input_inv (clock (clock_reads s)) r rs (view s) IH) as Hi.
  destruct Hview as [->| ->]; [done|].
  intros tok al [Hal _]%map_lookup_filter_Some. by apply Hi.
Qed.

(** A relay state the inputs [rs] lead to. *)
Definition reached (rs : list Received) (s : Relay T) : Prop :=
  Forall input_ok rs ∧ ∃ t, contents t = ∅ ∧ s = run clock rs (start clock t).

Lemma reached_inv rs s : reached rs s → view_inv rs (view s).
Proof. intros [Hf (t & He & ->)]. by apply run_inv. Qed.
End facts.

(** ** Theorems *)

Section outputs.
Context {T : Type} `{AllocationContract T}.
Context (clock : nat → Z).
Abbreviation view s := (contents (table s)).

(** The datagram an iteration sends, if any. *)
Lemma step_outputs rs s r :
  reached clock rs s → input_ok r →
  ∃ new, sent (step clock r s).2 = sent s ++ new ∧ (length new ≤ 1)%nat ∧
    ∀ dst out, (dst, out) ∈ new →
      ∃ from tok payload, r = Datagram from out ∧
        parse_datagram out = Some (tok, payload) ∧ dst ≠ from ∧ spoke rs tok dst.
Proof.
  intros Hreach%reached_inv Hr. destruct (step_spec clock r s Hr) as [Hsent _].
  eexists. split; [exact Hsent|]. destruct r as [from data|c]; simpl;
    [|split; [lia|by intros ?? ?%elem_of_nil]].
  unfold spec_datagram.
  destruct (parse_datagram data) as [[tok payload]|] eqn:Ep;
    [|simpl; split; [lia|by intros ?? ?%elem_of_nil]].
  set (now := clock _). destruct (met_inv rs (view s) tok now Hreach) as [Hok Hl].
  set (al := seed _ _ _) in *.
  pose proof (route_allocation_spec from (Z.of_nat (length payload)) now al Hok) as Hroute.
  destruct (route_allocation _ _ _ al) as [res al']. simpl.
  destruct Hroute as (_ & _ & _ & _ & Hfwd & _).
  destruct (Result_ok res) eqn:Eres; simpl; [|split; [lia|by intros ?? ?%elem_of_nil]].
  split; [lia|]. intros dst out [= -> ->]%list_elem_of_singleton.
  destruct (Hfwd eq_refl) as (_ & Hdst & Hne). exists from, tok, payload.
  destruct (parse_wrap data tok payload Hr Ep) as [-> _]. split_and!; [done..|].
  by apply Hl.
Qed.

(** An iteration on a datagram whose token is paired. *)
Lemma step_paired rs s from data tok payload al :
  reached clock rs s → bytes_ok data → parse_datagram data = Some (tok, payload) →
  view s !! tok = Some al → fully_bound al = true → created_unix_s al ≠ 0 →
  let s' := (step clock (Datagram from data) s).2 in
  sent s' = sent s ++
    (if decide (from = endpoint (a al)) then [(endpoint (b al), data)]
     else if decide (from = endpoint (b al)) then [(endpoint (a al), data)]
     else []) ∧
  ∀ al', view s' !! tok = Some al' →
    last_activity_unix_s al' = clock (clock_reads s) ∧ fully_bound al' = true ∧
    endpoint (a al') = endpoint (a al) ∧ endpoint (b al') = endpoint (b al).
Proof.
  intros Hreach%reached_inv Hb Hp Hal Hfull Hcr s'.
  destruct (step_spec clock (Datagram from data) s Hb) as (Hsent & nw & Hview & _).
  fold s' in Hsent, Hview. revert Hsent Hview. simpl. unfold spec_datagram. rewrite Hp.
  set (now := clock (clock_reads s)).
  destruct (Hreach _ _ Hal) as [Hok _]. rewrite Hal. simpl.
  assert (seed tok now al = al) as -> by (unfold seed; by rewrite (proj2 (Z.eqb_neq _ _) Hcr)).
  pose proof (route_allocation_spec from (Z.of_nat (length payload)) now al Hok) as Hroute.
  destruct (route_allocation _ _ _ al) as [res al1]. simpl.
  destruct Hroute as (_ & Hact & _ & _ & _ & Hpaired).
  destruct (Hpaired Hfull) as (Hiff & (Ha & Hbb & Hf1) & Hfa & Hfb).
  destruct (parse_wrap data tok payload Hb Hp) as [-> _].
  intros Hsent Hview. split.
  - rewrite Hsent. f_equal. case_decide as Ea; [by rewrite (Hfa Ea)|].
    case_decide as Eb; [by rewrite (Hfb Eb)|].
    destruct (Result_ok res); [|done]. destruct (proj1 Hiff eq_refl) as [[_ He]|[_ He]]; congruence.
  - intros al'. destruct Hview as [->| ->].
    + rewrite lookup_insert_eq. by intros [= <-].
    + intros [Hl _]%map_lookup_filter_Some. rewrite lookup_insert_eq in Hl.
      by injection Hl as <-.
Qed.
End outputs.

(** C7. Not an open reflector: in every reachable state an
    iteration sends at most one datagram, it is the incoming datagram unchanged
    (token included), and it goes to an address other than the sender's that has
    itself sent a datagram with the same token before. *)
Theorem relay_not_reflector {T} `{AllocationContract T} clock rs (s : Relay T) r :
  reached clock rs s → input_ok r →
  ∃ new, sent (step clock r s).2 = sent s ++ new ∧ (length new ≤ 1)%nat ∧
    ∀ dst out, (dst, out) ∈ new →
      ∃ from tok payload, r = Datagram from out ∧
        parse_datagram out = Some (tok, payload) ∧ dst ≠ from ∧ spoke rs tok dst.
Proof. apply step_outputs. Qed.

(** Forwarding between paired legs, in every reachable state: a
    datagram for a token whose legs are bound to two addresses is forwarded,
    byte for byte, to the other leg when it comes from one of the two, and
    dropped when it comes from anyone else; in all cases the legs stay bound to
    the same two addresses. *)
Theorem relay_forwards {T} `{AllocationContract T} clock rs (s : Relay T) from data tok payload al :
  reached clock rs s → bytes_ok data → parse_datagram data = Some (tok, payload) →
  contents (table s) !! tok = Some al → fully_bound al = true → created_unix_s al ≠ 0 →
  let s' := (step clock (Datagram from data) s).2 in
  sent s' = sent s ++
    (if decide (from = endpoint (a al)) then [(endpoint (b al), data)]
     else if decide (from = endpoint (b al)) then [(endpoint (a al), data)]
     else []) ∧
  ∀ al', contents (table s') !! tok = Some al' →
    fully_bound al' = true ∧
    endpoint (a al') = endpoint (a al) ∧ endpoint (b al') = endpoint (b al).
Proof.
  intros. edestruct (step_paired clock rs s from data) as [Hs Hl]; [done..|].
  split; [exact Hs|]. intros al' Hal'. by destruct (Hl al' Hal') as (_ & ? & ? & ?).
Qed.

(** The idle timer does not look at who sends: a
    datagram for a paired token from an address that is neither leg is dropped,
    but it resets the allocation's last activity to the current time, so
    whoever knows the token keeps the pairing from ever expiring. *)
Theorem relay_third_party_keeps_alive {T} `{AllocationContract T}
    clock rs (s : Relay T) from data tok payload al al' :
  reached clock rs s → bytes_ok data → parse_datagram data = Some (tok, payload) →
  contents (table s) !! tok = Some al → fully_bound al = true → created_unix_s al ≠ 0 →
  from ≠ endpoint (a al) → from ≠ endpoint (b al) →
  let s' := (step clock (Datagram from data) s).2 in
  contents (table s') !! tok = Some al' →
  sent s' = sent s ∧ last_activity_unix_s al' = clock (clock_reads s).
Proof.
  intros Hr Hb Hp Hal Hf Hc Ha Hbb s' Hal'.
  edestruct (step_paired clock rs s from data) as [Hs Hl]; [done..|].
  split; [|by apply (Hl al')]. fold s' in Hs.
  rewrite Hs, decide_False, decide_False by done. by rewrite app_nil_r.
Qed.

(** ** Witnesses *)

Definition sample_clock (n : nat) : Z := 1700000000 + Z.of_nat n.
Definition ep (p : Z) : Endpoint := {| host := "203.0.113.7"; port := p; ipv6 := false |}.
Definition sample_datagram (payload : list Z) : list Z := wrap_datagram "tok" payload.
Definition sample_inputs : list Received :=
  [Datagram (ep 1) (sample_datagram [10]); Datagram (ep 2) (sample_datagram [20])].
Definition sample_relay : Relay InMemory.InMemoryAllocationTable :=
  run sample_clock sample_inputs
    (start sample_clock InMemory.make_in_memory_allocation_table).
Definition sample_allocation : Allocation := {|
  token := "tok";
  a := {| endpoint := ep 1; bound := true; bytes_forwarded := 1 |};
  b := {| endpoint := ep 2; bound := true; bytes_forwarded := 1 |};
  created_unix_s := 1700000001;
  last_activity_unix_s := 1700000003;
|}.

Lemma sample_reached : reached sample_clock sample_inputs sample_relay.
Proof.
  split; [|by exists InMemory.make_in_memory_allocation_table].
  apply Forall_cons. split; [|apply Forall_singleton];
    apply (bool_decide_unpack (Forall (λ b, 0 ≤ b < 256) _)); by vm_compute.
Qed.

Lemma sample_paired : InMemory.map_ (table sample_relay) !! "tok" = Some sample_allocation.
Proof. by vm_compute. Qed.

Lemma sample_bytes_ok : bytes_ok (sample_datagram [30; 31]).
Proof. apply (bool_decide_unpack (Forall (λ b, 0 ≤ b < 256) _)); by vm_compute. Qed.

Lemma relay_not_reflector_witness :
  ∃ new, sent (step sample_clock (Datagram (ep 1) (sample_datagram [30; 31])) sample_relay).2 =
    sent sample_relay ++ new ∧ (length new ≤ 1)%nat.
Proof.
  destruct (relay_not_reflector sample_clock sample_inputs sample_relay
    (Datagram (ep 1) (sample_datagram [30; 31])) sample_reached sample_bytes_ok)
    as (new & Hnew & Hl & _).
  exists new. exact (conj Hnew Hl).
Defined.

Lemma relay_forwards_witness :
  sent (step sample_clock (Datagram (ep 2) (sample_datagram [30; 31])) sample_relay).2 =
    sent sample_relay ++ [(ep 1, sample_datagram [30; 31])].
Proof.
  apply (relay_forwards sample_clock sample_inputs sample_relay (ep 2)
    (sample_datagram [30; 31]) "tok" [30; 31] sample_allocation
    sample_reached sample_bytes_ok); [by vm_compute|exact sample_paired|done|done].
Defined.

Lemma relay_third_party_keeps_alive_witness :
  let s' := (step sample_clock (Datagram (ep 3) (sample_datagram [30; 31])) sample_relay).2 in
  sent s' = sent sample_relay.
Proof.
  apply (relay_third_party_keeps_alive sample_clock sample_inputs sample_relay (ep 3)
    (sample_datagram [30; 31]) "tok" [30; 31] sample_allocation
    {| token := "tok"; a := a sample_allocation; b := b sample_allocation;
       created_unix_s := 1700000001; last_activity_unix_s := 1700000005 |}
    sample_reached sample_bytes_ok);
    [by vm_compute|exact sample_paired|done|done|done|done|by vm_compute].
Defined.
