(* ===== verification/Switchboard.v ===== *)
(** * The relay as a switchboard

    What server/relay promises, without its table, counters and byte offsets: a
    token is a line; the first two addresses that speak on it are its ends, and
    what one end sends reaches the other.  The relay refines it for every
    allocation table that meets its contract. *)

From S2P Require Import Prelude Types Net Crypto Relay RelayFacts History.

(** ** The specification *)

Inductive Line :=
| Waiting (e : Endpoint)
| Connected (e1 e2 : Endpoint).

Record Circuit := {
  line : Line;
  heard : Z;
}.

Abbreviation Switchboard := (gmap string Circuit).

Record Packet := {
  src : Endpoint;
  tok : SessionToken;
  raw : list Z;
}.

(** The line after [from] speaks on it, and whom it is put through to. *)
Definition speak (from : Endpoint) (l : option Line) : Line * option Endpoint :=
  match l with
  | None => (Waiting from, None)
  | Some (Waiting e) =>
      if decide (e = from) then (Waiting e, None) else (Connected e from, Some e)
  | Some (Connected e1 e2) =>
      (Connected e1 e2,
       if decide (from = e1) then Some e2 else if decide (from = e2) then Some e1 else None)
  end.

Inductive switch (now : Z) (d : Switchboard) : option Packet → Switchboard → list Sent → Prop :=
| switch_packet p :
    let out := speak (src p) (line <$> d !! tok p) in
    switch now d (Some p) (<[tok p := {| line := out.1; heard := now |}]> d)
      (option_list ((λ to, (to, raw p)) <$> out.2))
| switch_nothing : switch now d None d [].

(** A line silent for longer than the TTL may be cut. *)
Definition cut : Z → Switchboard → Switchboard → Prop := lapse_idle heard kSessionTtlSeconds.

Abbreviation shistory := (history switch cut).

(** ** How the relay's data represents it *)

Definition line_of (al : Allocation) : Line :=
  if bound (b al) then Connected (endpoint (a al)) (endpoint (b al))
  else Waiting (endpoint (a al)).
Definition circuit_of (al : Allocation) : Circuit :=
  {| line := line_of al; heard := last_activity_unix_s al |}.
Definition switchboard (v : View) : Switchboard := circuit_of <$> v.

Definition packet_of (r : Received) : option Packet :=
  match r with
  | Datagram from data =>
      (λ p, {| src := from; tok := p.1; raw := data |}) <$> parse_datagram data
  | RecvError _ => None
  end.

(** Every allocation that is filed has its first leg bound. *)
Definition legs_ok (v : View) : Prop :=
  ∀ t al, v !! t = Some al → alloc_ok al ∧ bound (a al) = true.

(** One routing decision is one turn of the line. *)
Lemma route_speaks from bytes now al :
  alloc_ok al →
  let l := if bound (a al) then Some (line_of al) else None in
  let '(res, al') := route_allocation from bytes now al in
  bound (a al') = true ∧ last_activity_unix_s al' = now ∧
  line_of al' = (speak from l).1 ∧
  (if Result_ok res then Some (value res) else None) = (speak from l).2.
Proof.
  intros [Hord Hne]. unfold route_allocation, answer, line_of.
  destruct al as [tk [ea ba ca] [eb bb cb] cr la]. simpl in *.
  destruct ba, bb; simpl in *; try (specialize (Hord eq_refl); done);
    repeat case_bool_decide; subst; simpl;
    repeat (case_decide; subst; simpl); try done; naive_solver.
Qed.

Section refinement.
Context {T : Type} `{AllocationContract T}.
Context (clock : nat → Z).
Abbreviation view s := (contents (table s)).

Lemma seeded_line tk now v :
  legs_ok v →
  let al := seed tk now (default Allocation_init (v !! tk)) in
  alloc_ok al ∧ (if bound (a al) then Some (line_of al) else None) = line <$> switchboard v !! tk.
Proof.
  intros Hv. unfold switchboard. rewrite lookup_fmap. destruct (v !! tk) as [al|] eqn:E; simpl.
  - destruct (Hv _ _ E) as [Hok Hb]. split; [by apply seed_ok|]. unfold seed.
    destruct (created_unix_s al =? 0); simpl; by rewrite Hb.
  - split; [apply seed_ok, init_ok|]. done.
Qed.

Lemma spec_input_switch now r v :
  input_ok r → legs_ok v →
  switch now (switchboard v) (packet_of r) (switchboard (spec_input now r v).1)
    (spec_input now r v).2 ∧ legs_ok (spec_input now r v).1.
Proof.
  intros Hr Hv. destruct r as [from data|c]; [|split; [apply switch_nothing|done]].
  simpl. unfold spec_datagram.
  destruct (parse_datagram data) as [[tk payload]|] eqn:Ep; simpl;
    [|split; [apply switch_nothing|done]].
  destruct (seeded_line tk now v Hv) as [Hok Hline]. set (al := seed _ _ _) in *.
  pose proof (route_speaks from (Z.of_nat (length payload)) now al Hok) as Hspeak.
  pose proof (route_allocation_spec from (Z.of_nat (length payload)) now al Hok) as Hroute.
  destruct (route_allocation _ _ _ al) as [res al']. cbn zeta in Hspeak. rewrite Hline in Hspeak.
  destruct Hspeak as (Hb & Hact & Hl & Hout), Hroute as (Hok' & _). simpl.
  destruct (parse_wrap data tk payload Hr Ep) as [-> _]. split.
  - unfold switchboard at 2. rewrite fmap_insert.
    pose proof (switch_packet now (switchboard v) {| src := from; tok := tk; raw := data |}) as Hs.
    cbn zeta in Hs. simpl in Hs. rewrite <-Hl, <-Hout in Hs.
    assert (circuit_of al' = {| line := line_of al'; heard := now |}) as -> by
      (unfold circuit_of; by rewrite Hact).
    by destruct (Result_ok res).
  - intros t al0 [[<- <-]|[_ Ht]]%lookup_insert_Some; [done|by eapply Hv].
Qed.

(** One iteration: a turn of the switchboard, then perhaps a cut. *)
Lemma step_switch r s :
  input_ok r → legs_ok (view s) →
  let s' := (step clock r s).2 in
  legs_ok (view s') ∧ (clock_reads s < clock_reads s' ≤ 2 + clock_reads s)%nat ∧
  ∃ d out, switch (clock (clock_reads s)) (switchboard (view s)) (packet_of r) d out ∧
    cut (clock (pred (clock_reads s'))) d (switchboard (view s')) ∧ sent s' = sent s ++ out.
Proof.
  intros Hr Hv s'. destruct (step_spec clock r s Hr) as (Hs & now & Hview & -> & Hreads).
  fold s' in Hs, Hview, Hreads.
  destruct (spec_input_switch (clock (clock_reads s)) r (view s) Hr Hv) as [Hsw Hlegs].
  split; [|split; [done|]].
  - destruct Hview as [->| ->]; [done|]. intros t al [Ht _]%map_lookup_filter_Some. by eapply Hlegs.
  - eexists _, _. split; [done|]. split; [|done].
    destruct Hview as [->| ->]; [apply lapse_refl|].
    apply lapse_filter. intros al Hal. by apply Z.ltb_lt in Hal.
Qed.

Lemma run_legs s rs : Forall input_ok rs → legs_ok (view s) → legs_ok (view (run clock rs s)).
Proof.
  intros Hrs. revert s. induction Hrs as [|r rs Hr _ IH]; intros s Hv; [done|].
  apply IH. by apply step_switch.
Qed.

Lemma start_legs t : contents t = ∅ → legs_ok (contents t).
Proof. intros -> tk al. by rewrite lookup_empty. Qed.

Lemma reached_legs rs s : reached clock rs s → legs_ok (view s).
Proof. intros [Hrs (t & He & ->)]. by apply run_legs, start_legs. Qed.

(** ** Every run *)

Definition in_step (rs : list Received) (s s' : Relay T) (rds : list (Round (option Packet) Sent))
    : Prop :=
  event <$> rds = packet_of <$> rs ∧ sent s' = sent s ++ mjoin (answers <$> rds).

Lemma relay_history s rs :
  (∀ n m, (n ≤ m)%nat → clock n ≤ clock m) → Forall input_ok rs →
  legs_ok (view s) → (0 < clock_reads s)%nat →
  let s' := run clock rs s in
  legs_ok (view s') ∧ (0 < clock_reads s')%nat ∧
  ∃ rds, shistory (clock (pred (clock_reads s))) (switchboard (view s))
           rds (clock (pred (clock_reads s'))) (switchboard (view s')) ∧ in_step rs s s' rds.
Proof.
  intros Hmono Hrs Hv Hpos0. induction rs as [|r rs IH] using rev_ind.
  { split_and!; [done..|]. exists []. split; [apply history_start|].
    split; [done|]. simpl. by rewrite app_nil_r. }
  apply Forall_app in Hrs as [Hrs [Hr _]%Forall_cons].
  unfold run. rewrite fold_left_app. simpl. fold (run clock rs s).
  set (s' := run clock rs s) in *. destruct (IH Hrs) as (Hv' & Hpos & rds & Hh & Hev & Hsent).
  destruct (step_switch r s' Hr Hv') as (Hlegs & Hreads & d & out & Hsw & Hcut & Hs1).
  set (s2 := (step clock r s').2) in *. split; [done|]. split; [lia|].
  exists (rds ++ [{| at_ := clock (clock_reads s'); event := packet_of r; answers := out;
    swept_at := clock (pred (clock_reads s2)) |}]). split; [|split].
  - eapply (history_round _ _ _ _ rds _ _ {| at_ := _; swept_at := _ |}); [done| |done..].
    split; apply Hmono; lia.
  - by rewrite !fmap_app, Hev.
  - rewrite Hs1, Hsent, fmap_app, join_app. simpl. by rewrite app_nil_r, app_assoc.
Qed.

Lemma reached_history rs s :
  (∀ n m, (n ≤ m)%nat → clock n ≤ clock m) → reached clock rs s →
  legs_ok (view s) ∧ (0 < clock_reads s)%nat ∧
  ∃ rds, shistory (clock 0%nat) ∅ rds (clock (pred (clock_reads s))) (switchboard (view s)) ∧
    event <$> rds = packet_of <$> rs ∧ sent s = mjoin (answers <$> rds).
Proof.
  intros Hmono [Hrs (t & He & ->)].
  destruct (relay_history (start clock t) rs Hmono Hrs) as (Hl & Hp & rds & Hh & Hev & Hs).
  - by apply start_legs.
  - simpl. lia.
  - split_and!; [done..|]. exists rds. simpl in Hh. unfold switchboard in Hh at 1.
    rewrite He, fmap_empty in Hh. by split_and!.
Qed.

(** ** A connected line *)

(** The tokens of what is sent. *)
Definition on (tk : SessionToken) (e : Sent) : Prop := fst <$> parse_datagram e.2 = Some tk.
#[export] Instance on_dec tk e : Decision (on tk e).
Proof. unfold on. apply _. Defined.

(** What a line between [e1] and [e2] carries of an input. *)
Definition carried (tk : SessionToken) (e1 e2 : Endpoint) (r : Received) : option Sent :=
  match r with
  | Datagram from data =>
      if decide (fst <$> parse_datagram data = Some tk) then
        if decide (from = e1) then Some (e2, data)
        else if decide (from = e2) then Some (e1, data) else None
      else None
  | RecvError _ => None
  end.

Lemma filter_on tk data tk' payload (o : option Endpoint) :
  parse_datagram data = Some (tk', payload) →
  filter (on tk) (option_list ((λ to, (to, data)) <$> o)) =
    if decide (tk' = tk) then option_list ((λ to, (to, data)) <$> o) else [].
Proof.
  intros Hp. destruct o as [to|]; simpl; [|by case_decide].
  assert (on tk (to, data) ↔ tk' = tk) as Hon
    by (unfold on; simpl; rewrite Hp; simpl; split; congruence).
  rewrite filter_cons, filter_nil. repeat case_decide; tauto.
Qed.

Lemma switch_connected now d r d' out tk e1 e2 :
  switch now d (packet_of r) d' out → line <$> d !! tk = Some (Connected e1 e2) →
  line <$> d' !! tk = Some (Connected e1 e2) ∧
  filter (on tk) out = option_list (carried tk e1 e2 r).
Proof.
  intros Hsw Hl. destruct r as [from data|c]; simpl in *; [|inversion Hsw; by subst].
  destruct (parse_datagram data) as [[tk' payload]|] eqn:Ep; simpl in *;
    [|inversion Hsw; by subst].
  inversion Hsw; subst. clear Hsw. simpl.
  rewrite (filter_on tk data tk' payload) by done.
  destruct (decide (tk' = tk)) as [->|Hne].
  - unfold out0. simpl. rewrite lookup_insert_eq, Hl. rewrite (decide_True (P := Some tk = Some tk)) by done.
    simpl. split; [done|]. by repeat case_decide.
  - rewrite lookup_insert_ne by done. by rewrite decide_False by congruence.
Qed.

Lemma cut_line now d d' tk :
  cut now d d' → is_Some (d' !! tk) → line <$> d' !! tk = line <$> d !! tk.
Proof.
  intros Hc [x Hx]. by destruct (lapse_cases _ _ now d d' tk Hc) as [->|(? & ? & ? & ?)]; [|congruence].
Qed.

Lemma step_connected r s tk e1 e2 :
  input_ok r → legs_ok (view s) → line <$> switchboard (view s) !! tk = Some (Connected e1 e2) →
  let s' := (step clock r s).2 in
  ∃ out, sent s' = sent s ++ out ∧ filter (on tk) out = option_list (carried tk e1 e2 r) ∧
    (is_Some (view s' !! tk) → line <$> switchboard (view s') !! tk = Some (Connected e1 e2)).
Proof.
  intros Hr Hv Hl s'. destruct (step_switch r s Hr Hv) as (_ & _ & d & out & Hsw & Hcut & Hs).
  destruct (switch_connected _ _ _ _ _ _ _ _ Hsw Hl) as [Hd Hf].
  exists out. split_and!; [done..|]. intros [al Hal]. rewrite <-Hd. eapply cut_line; [done|].
  unfold switchboard. rewrite lookup_fmap. fold s'. rewrite Hal. by eexists.
Qed.

Lemma channel s tk e1 e2 cs :
  legs_ok (view s) → line <$> switchboard (view s) !! tk = Some (Connected e1 e2) →
  Forall input_ok cs → (∀ k, is_Some (view (run clock (take k cs) s) !! tk)) →
  ∃ out, sent (run clock cs s) = sent s ++ out ∧
    filter (on tk) out = omap (carried tk e1 e2) cs.
Proof.
  intros Hv Hl Hcs. revert s Hv Hl. induction Hcs as [|r cs Hr _ IH]; intros s Hv Hl Hlive.
  { exists []. by rewrite app_nil_r. }
  destruct (step_connected r s tk e1 e2 Hr Hv Hl) as (out1 & Hs1 & Hf1 & Hl1).
  set (s1 := (step clock r s).2) in *.
  destruct (IH s1) as (out2 & Hs2 & Hf2).
  - by apply step_switch.
  - apply Hl1. exact (Hlive 1%nat).
  - intros k. exact (Hlive (Datatypes.S k)).
  - exists (out1 ++ out2). split.
    + change (run clock (r :: cs) s) with (run clock cs s1). by rewrite Hs2, Hs1, app_assoc.
    + rewrite filter_app, Hf1, Hf2. simpl. by destruct (carried tk e1 e2 r).
Qed.

(** ** A line that is spoken on is not cut *)

Context (slow : ∀ n, clock n ≤ clock (Datatypes.S n) ≤ clock n + kSessionTtlSeconds).

Lemma step_speaks s from tk payload :
  legs_ok (view s) → bytes_ok (wrap_datagram tk payload) →
  0 < Z.of_nat (String.length tk) ≤ 255 →
  let data := wrap_datagram tk payload in
  let s' := (step clock (Datagram from data) s).2 in
  let out := speak from (line <$> switchboard (view s) !! tk) in
  legs_ok (view s') ∧ line <$> switchboard (view s') !! tk = Some out.1 ∧
  sent s' = sent s ++ option_list ((λ to, (to, data)) <$> out.2).
Proof.
  intros Hv Hb Htk data s' out.
  destruct (step_switch (Datagram from data) s Hb Hv) as (Hv' & Hn & d & sn & Hsw & Hcut & Hs).
  fold s' in Hv', Hn, Hcut, Hs. split; [done|].
  simpl in Hsw. unfold data in Hsw. rewrite parse_wrap_inv in Hsw by done.
  inversion Hsw; subst. simpl in *. split; [|done].
  destruct (lapse_cases _ _ _ _ _ tk Hcut) as [->|(x & Hx & _ & Hold)].
  - by rewrite lookup_insert_eq.
  - rewrite lookup_insert_eq in Hx. simplify_eq/=.
    assert (pred (clock_reads s') = clock_reads s ∨ pred (clock_reads s') = S (clock_reads s))
      as [He|He] by lia; rewrite He in Hold; pose proof (slow (clock_reads s)); lia.
Qed.
End refinement.

Lemma wrap_bytes_ok tk payload : bytes_ok payload → bytes_ok (wrap_datagram tk payload).
Proof.
  intros Hp. apply Forall_cons. split; [apply byte_ok_wrap|].
  apply Forall_app. split; [apply bytes_ok_bytes_of_string|done].
Qed.

(** The first message is read, by a session that has written its own. *)
Lemma read_first k p s :
  length k = kX25519PublicKeyLen → Noise.handshake_done_ s = false →
  Noise.readMessage (k ++ p) [] s =
    (success, p, Noise.maybeComplete (Noise.set_handshake k true false
       (Noise.messages_written_ s) (Noise.messages_read_ s + 1) s)).
Proof.
  intros Hk Hd. unfold Noise.readMessage. rewrite Hd.
  rewrite (proj2 (Nat.ltb_ge _ _)) by (rewrite length_app; lia).
  by rewrite take_app_exact, drop_app_exact.
Qed.

(** The first message is written, by a new session. *)
Lemma write_first pat role i remote p :
  Noise.writeMessage p [] (Noise.createNoiseSession pat role i remote) =
    (success, public_key i ++ p, Noise.set_handshake remote (bool_decide (pat = KK)) false 1 0
       (Noise.createNoiseSession pat role i remote)).
Proof. unfold Noise.writeMessage, Noise.maybeComplete. simpl. by rewrite andb_false_r. Qed.

(** C3. The relay refines the switchboard: for every allocation
    table that meets its contract, every sequence of datagrams and errors and every
    clock that does not run backwards, there is a history of the switchboard, from
    the empty one, whose events are the well-formed datagrams, whose answers are the
    datagrams sent, in order and byte for byte, and whose last state is what the
    table holds. *)
Theorem relay_refinement {T} `{AllocationContract T} clock rs (s : Relay T) :
  (∀ n m, (n ≤ m)%nat → clock n ≤ clock m) → reached clock rs s →
  ∃ rds, shistory (clock 0%nat) ∅ rds (clock (pred (clock_reads s)))
           (switchboard (contents (table s))) ∧
    event <$> rds = packet_of <$> rs ∧ sent s = mjoin (answers <$> rds).
Proof. intros Hmono Hr. by apply reached_history. Qed.

(** C8. A full-duplex channel: once a token connects two addresses, and
    for as long as its allocation is not swept, whatever else arrives in between,
    the datagrams the relay sends for the token are exactly those the two addresses
    sent for it, unchanged, each to the other address, in the order of arrival. *)
Theorem relay_channel {T} `{AllocationContract T} clock rs (s : Relay T) tk e1 e2 cs :
  reached clock rs s → Forall input_ok cs →
  line <$> switchboard (contents (table s)) !! tk = Some (Connected e1 e2) →
  (∀ k, is_Some (contents (table (run clock (take k cs) s)) !! tk)) →
  ∃ out, sent (run clock cs s) = sent s ++ out ∧
    filter (on tk) out = omap (carried tk e1 e2) cs.
Proof. intros Hr%reached_legs ???. by apply channel. Qed.

(** C9. Two peers meet: on a token nobody used, two addresses that each
    send the first message of a new Noise session are connected; the first datagram
    of the first one is lost, and once it is repeated each has the other's message
    unchanged, both handshakes complete with the right remote keys, and the early
    payloads have arrived.  (The clock advances at most 30 seconds between two
    readings.) *)
Theorem relay_call {T} `{AllocationContract T} clock rs (s : Relay T) tk e1 e2
    pa pb ia ib ra rb p1 p2 :
  (∀ n, clock n ≤ clock (S n) ≤ clock n + kSessionTtlSeconds) → reached clock rs s →
  contents (table s) !! tk = None → 0 < Z.of_nat (String.length tk) ≤ 255 → e1 ≠ e2 →
  key_ok (public_key ia) → key_ok (public_key ib) → bytes_ok p1 → bytes_ok p2 →
  let '(_, m1, a1) := Noise.writeMessage p1 [] (Noise.createNoiseSession pa Initiator ia ra) in
  let '(_, m2, b1) := Noise.writeMessage p2 [] (Noise.createNoiseSession pb Responder ib rb) in
  let d1 := wrap_datagram tk m1 in
  let d2 := wrap_datagram tk m2 in
  let s' := run clock [Datagram e1 d1; Datagram e2 d2; Datagram e1 d1] s in
  sent s' = sent s ++ [(e1, d2); (e2, d1)] ∧
  line <$> switchboard (contents (table s')) !! tk = Some (Connected e1 e2) ∧
  parse_datagram d1 = Some (tk, m1) ∧ parse_datagram d2 = Some (tk, m2) ∧
  let '(st1, q2, a2) := Noise.readMessage m2 [] a1 in
  let '(st2, q1, b2) := Noise.readMessage m1 [] b1 in
  st1 = success ∧ st2 = success ∧ q1 = p1 ∧ q2 = p2 ∧
  Noise.isHandshakeComplete a2 = true ∧ Noise.isHandshakeComplete b2 = true ∧
  Noise.remoteStaticKey a2 = public_key ib ∧ Noise.remoteStaticKey b2 = public_key ia.
Proof.
  intros Hslow Hr%reached_legs Hnone Htk Hne [Hla Hba] [Hlb Hbb] Hp1 Hp2.
  rewrite !write_first by done. cbv beta iota zeta.
  set (m1 := public_key ia ++ p1). set (m2 := public_key ib ++ p2).
  assert (bytes_ok (wrap_datagram tk m1)) as Hb1 by (apply wrap_bytes_ok, Forall_app; auto).
  assert (bytes_ok (wrap_datagram tk m2)) as Hb2 by (apply wrap_bytes_ok, Forall_app; auto).
  assert (switchboard (contents (table s)) !! tk = None) as Hl0
    by (unfold switchboard; by rewrite lookup_fmap, Hnone).
  destruct (step_speaks clock Hslow s e1 tk m1 Hr Hb1 Htk) as (Hv1 & Hl1 & Hs1).
  rewrite Hl0 in Hl1, Hs1. simpl in Hl1, Hs1. rewrite app_nil_r in Hs1.
  set (s1 := (step clock (Datagram e1 (wrap_datagram tk m1)) s).2) in *.
  destruct (step_speaks clock Hslow s1 e2 tk m2 Hv1 Hb2 Htk) as (Hv2 & Hl2 & Hs2).
  rewrite Hl1 in Hl2, Hs2. simpl in Hl2, Hs2. rewrite decide_False in Hl2, Hs2 by done.
  set (s2 := (step clock (Datagram e2 (wrap_datagram tk m2)) s1).2) in *.
  destruct (step_speaks clock Hslow s2 e1 tk m1 Hv2 Hb1 Htk) as (_ & Hl3 & Hs3).
  rewrite Hl2 in Hl3, Hs3. simpl in Hl3, Hs3. rewrite decide_True in Hs3 by done.
  change (run clock _ s) with ((step clock (Datagram e1 (wrap_datagram tk m1)) s2).2).
  split_and!; [by rewrite Hs3, Hs2, Hs1, <-app_assoc|done|by apply parse_wrap_inv..|].
  unfold m1, m2. rewrite !read_first by done. by split_and!.
Qed.

(** ** Witnesses *)

Lemma sample_clock_step n : sample_clock n ≤ sample_clock (S n) ≤ sample_clock n + kSessionTtlSeconds.
Proof. unfold sample_clock, kSessionTtlSeconds. lia. Qed.

Lemma sample_clock_le n m : (n ≤ m)%nat → sample_clock n ≤ sample_clock m.
Proof. unfold sample_clock. lia. Qed.

#[export] Instance input_ok_dec r : Decision (input_ok r).
Proof.
  destruct r; simpl; [|apply _].
  refine (cast_if (decide (Forall (λ b, 0 ≤ b < 256) bytes))); done.
Defined.

Lemma relay_refinement_witness :
  ∃ rds d, shistory 1700000000 ∅ rds 1700000004 d ∧
    line <$> d !! "tok" = Some (Connected (ep 1) (ep 2)) ∧
    mjoin (answers <$> rds) = [(ep 1, sample_datagram [20])].
Proof.
  destruct (relay_refinement sample_clock sample_inputs sample_relay sample_clock_le
    sample_reached) as (rds & Hh & _ & Hs).
  exists rds, (switchboard (InMemory.map_ (table sample_relay))).
  split; [exact Hh|]. split; [by vm_compute|]. rewrite <-Hs. by vm_compute.
Defined.

(** Traffic of both ends, of a stranger and of another token. *)
Definition sample_traffic : list Received :=
  [Datagram (ep 2) (sample_datagram [30]); Datagram (ep 3) (sample_datagram [66]);
   RecvError Again; Datagram (ep 3) (wrap_datagram "other" [1]);
   Datagram (ep 1) (sample_datagram [31; 32])].

Lemma sample_alive k :
  is_Some (InMemory.map_ (table (run sample_clock (take k sample_traffic) sample_relay)) !! "tok").
Proof.
  assert (Forall (λ n, is_Some (InMemory.map_
      (table (run sample_clock (take n sample_traffic) sample_relay)) !! "tok")) (seq 0 6)) as Hall
    by (apply (bool_decide_unpack _); by vm_compute).
  rewrite Forall_forall in Hall. destruct (decide (k < 6)%nat).
  - apply Hall, elem_of_seq. lia.
  - rewrite take_ge by (simpl; lia). apply (Hall 5%nat), elem_of_seq. lia.
Qed.

Lemma relay_channel_witness :
  ∃ out, sent (run sample_clock sample_traffic sample_relay) = sent sample_relay ++ out ∧
    filter (on "tok") out =
      [(ep 1, sample_datagram [30]); (ep 2, sample_datagram [31; 32])].
Proof.
  destruct (relay_channel sample_clock sample_inputs sample_relay "tok" (ep 1) (ep 2)
    sample_traffic) as (out & Hs & Hf).
  - exact sample_reached.
  - apply (bool_decide_unpack _). by vm_compute.
  - by vm_compute.
  - intros k. exact (sample_alive k).
  - exists out. split; [exact Hs|]. rewrite Hf. by vm_compute.
Defined.

Lemma relay_call_witness :
  let d1 := wrap_datagram "tok" (public_key (makeStubIdentity 1) ++ [1; 2]) in
  let d2 := wrap_datagram "tok" (public_key (makeStubIdentity 2) ++ []) in
  sent (run sample_clock [Datagram (ep 1) d1; Datagram (ep 2) d2; Datagram (ep 1) d1]
    (start sample_clock InMemory.make_in_memory_allocation_table)) = [(ep 1, d2); (ep 2, d1)].
Proof.
  refine (proj1 (relay_call sample_clock []
    (start sample_clock InMemory.make_in_memory_allocation_table) "tok" (ep 1) (ep 2) XK XK
    (makeStubIdentity 1) (makeStubIdentity 2) [] [] [1; 2] [] sample_clock_step _ _ _ _ _ _ _ _)).
  - split; [done|]. by exists InMemory.make_in_memory_allocation_table.
  - done.
  - done.
  - done.
  - split; [done|]. apply (bool_decide_unpack (Forall (λ b, 0 ≤ b < 256) _)). by vm_compute.
  - split; [done|]. apply (bool_decide_unpack (Forall (λ b, 0 ≤ b < 256) _)). by vm_compute.
  - apply (bool_decide_unpack (Forall (λ b, 0 ≤ b < 256) _)). by vm_compute.
  - done.
Defined.
