(* ===== verification/Servers.v ===== *)
(** * The two server processes ([server/rendezvous/main.cpp],
    [server/relay/main.cpp])

    The command line, the sockets a server opens, and its loop over the
    datagrams the kernel hands it: [Rendezvous] and [Relay] on top of [Sockets].
    A loop does not return; a process is looked at after any number of
    iterations.  The datagram an iteration sends is sent inside its handler; no
    other socket call happens in an iteration after [recv_from], so it is the
    next call of the trace. *)

From S2P Require Import Prelude Types Cstdlib Net Sockets Protocol Registry Signer.
From S2P Require Import Rendezvous RendezvousFacts Relay RelayFacts.

(** ** The command line *)

(** The loop of [parse_port] over the arguments after the program's name. *)
Fixpoint parse_port (default_port : Z) (args : list string) : option Z :=
  match args with
  | [] => Some default_port
  | a :: rest =>
      match rest with
      | [] => Some default_port
      | v :: _ =>
          if bool_decide (a = "--port") then to_u16 <$> atoi v
          else parse_port default_port rest
      end
  end.

Definition kDefaultControlPort : Z := 21116.
Definition kDefaultRelayPort : Z := 21117.

(** *** What the command line gives *)

Lemma parse_port_found d before v after :
  "--port" ∉ before →
  parse_port d (before ++ "--port" :: v :: after) = to_u16 <$> atoi v.
Proof.
  induction before as [|a before IH]; intros Hin; [done|].
  apply not_elem_of_cons in Hin as [Ha Hin]. rewrite <-app_comm_cons.
  cbn [parse_port]. rewrite (bool_decide_eq_false_2 (a = "--port")) by done.
  rewrite (IH Hin). by destruct before.
Qed.

Lemma parse_port_absent d args :
  (∀ i v, args !! i = Some "--port" → args !! Datatypes.S i ≠ Some v) →
  parse_port d args = Some d.
Proof.
  induction args as [|a [|v args] IH]; intros Hno; [done..|].
  cbn [parse_port] in *. rewrite bool_decide_eq_false_2.
  - apply IH. intros i. apply (Hno (Datatypes.S i)).
  - intros ->. by apply (Hno O v).
Qed.

(** The port a server binds is the number after the first
    ["--port"] that has an argument after it, or the default: the arguments
    before it do not matter, a decimal number below 2^31 is taken modulo 2^16,
    so that every port is accepted as written and 70000 becomes 4464, and what
    does not start like a number is port 0. *)
Theorem parse_port_spec d :
  (∀ before v after, "--port" ∉ before →
     parse_port d (before ++ "--port" :: v :: after) = to_u16 <$> atoi v ∧
     (∀ n : N, v = pretty n → Z.of_N n < 2 ^ 31 →
        parse_port d (before ++ "--port" :: v :: after) = Some (Z.of_N n `mod` 65536)) ∧
     (∀ n : N, v = pretty n → fits 16 (Z.of_N n) →
        parse_port d (before ++ "--port" :: v :: after) = Some (Z.of_N n)) ∧
     (∀ c s, v = String c s → is_space c = false → digit_value c = None →
        c ≠ Ascii.ascii_of_N 43 → c ≠ Ascii.ascii_of_N 45 →
        parse_port d (before ++ "--port" :: v :: after) = Some 0)) ∧
  (∀ args, (∀ i v, args !! i = Some "--port" → args !! Datatypes.S i ≠ Some v) →
     parse_port d args = Some d) ∧
  (∀ args p, parse_port d args = Some p → p = d ∨ fits 16 p).
Proof.
  split_and!.
  - intros before v after Hb. rewrite parse_port_found by done. split_and!; [done|..].
    + intros n -> Hn. by rewrite atoi_pretty.
    + intros n -> Hn. pose proof Hn as [_ ?]. rewrite atoi_pretty by lia. simpl.
      by rewrite wrap_id.
    + intros c s -> Hs Hd Hp Hm. unfold atoi. cbn [skip_spaces]. rewrite Hs.
      rewrite (bool_decide_eq_false_2 (c = Ascii.ascii_of_N 45)) by exact Hm.
      rewrite (bool_decide_eq_false_2 (c = Ascii.ascii_of_N 43)) by exact Hp.
      cbn [read_digits]. by rewrite Hd.
  - apply parse_port_absent.
  - intros args p. induction args as [|a [|v args] IH]; [intros [= <-]; by left..|].
    cbn [parse_port] in *. destruct (bool_decide (a = _)); [|exact IH].
    destruct (atoi v); intros [= <-]. right. by apply wrap_fits.
Qed.

(** ** A server loop on a socket *)

(** What the two loops have in common. *)
Class ServerLoop (L : Type) := {
  loop_step : Received → L → L;
  loop_sent : L → list Sent;
}.

(** What the process relies on: an iteration only adds to what is sent, and to
    endpoints that have been heard. *)
Class ServerLoopContract (L : Type) `{ServerLoop L} (initial : L) := {
  answers_heard rs r :
    Forall input_ok rs → input_ok r →
    let s := fold_left (λ s r, loop_step r s) rs initial in
    ∃ new, loop_sent (loop_step r s) = loop_sent s ++ new ∧
      ∀ e, e ∈ new → ∃ bytes, Datagram e.1 bytes ∈ rs ++ [r];
}.

Record Process (L : Type) := { loop : L; net : Os }.
Arguments loop {L}.
Arguments net {L}.

(** [buf] holds 64 KiB. *)
Definition kBufferBytes : Z := 64 * 1024.

Section process.
Context (os : list (SysCall * Answer) → SysCall → Answer).
Context (inet_ntop : Family → Z → string) (inet_pton : Family → string → option Z).

Section loop.
Context {L : Type} `{ServerLoop L}.

Fixpoint send_all (udp : Socket) (es : list Sent) : State Os () :=
  match es with
  | [] => mret ()
  | (to, bytes) :: es => Sockets.send_to os inet_pton udp bytes to;; send_all udp es
  end.

Definition iteration (udp : Socket) (p : Process L) : Process L :=
  let '(r, o) := recv_from os inet_ntop udp kBufferBytes (net p) in
  let l := loop_step r (loop p) in
  {| loop := l;
     net := (send_all udp (drop (length (loop_sent (loop p))) (loop_sent l)) o).2 |}.

Fixpoint iterations (udp : Socket) (n : nat) (p : Process L) : Process L :=
  match n with O => p | Datatypes.S n => iterations udp n (iteration udp p) end.
End loop.

Definition rendezvous_loop {R S} `{RegistryStore R} `{Signer S} (clock : nat → Z)
    (signer : S) : ServerLoop (Rendezvous.Server R) :=
  {| loop_step r s := (Rendezvous.step clock signer r s).2; loop_sent := Rendezvous.sent |}.

Definition relay_loop {T} `{AllocationTable T} (clock : nat → Z)
    : ServerLoop (Relay.Relay T) :=
  {| loop_step r s := (Relay.step clock r s).2; loop_sent := Relay.sent |}.

(** [run]: the exit code when the socket cannot be bound, or the process after
    [n] iterations. *)
Definition run_rendezvous {R S} `{RegistryStore R} `{Signer S} (clock : nat → Z)
    (signer : S) (registry : R) (control_port : Z) (n : nat) (o : Os)
    : (Z * Os) + Process (Rendezvous.Server R) :=
  let '(udp, o) := bind_udp os control_port o in
  if negb (Result_ok udp) then inl (1, o)
  else
    let '(tcp, o) := listen_tcp os control_port 64 o in
    inr (iterations (H := rendezvous_loop clock signer) (value udp) n
           {| loop := Rendezvous.start clock registry; net := o |}).

Definition run_relay {T} `{AllocationTable T} (clock : nat → Z) (table : T)
    (relay_port : Z) (n : nat) (o : Os) : (Z * Os) + Process (Relay.Relay T) :=
  let '(udp, o) := bind_udp os relay_port o in
  if negb (Result_ok udp) then inl (1, o)
  else
    inr (iterations (H := relay_loop clock) (value udp) n
           {| loop := Relay.start clock table; net := o |}).

(** [main]: [None] where [std::atoi] is undefined. *)
Definition rendezvous_main {R S} `{RegistryStore R} `{Signer S} (clock : nat → Z)
    (signer : S) (registry : R) (args : list string) (n : nat) (o : Os)
    : option ((Z * Os) + Process (Rendezvous.Server R)) :=
  port ← parse_port kDefaultControlPort args;
  Some (run_rendezvous clock signer registry port n o).

Definition relay_main {T} `{AllocationTable T} (clock : nat → Z) (table : T)
    (args : list string) (n : nat) (o : Os) : option ((Z * Os) + Process (Relay.Relay T)) :=
  port ← parse_port kDefaultRelayPort args;
  Some (run_relay clock table port n o).
End process.

(** ** What the two loops promise *)

Section rendezvous.
Context {R S : Type} `{RegistryContract R} `{SignerContract S verifies}.
Context (clock : nat → Z) (signer : S).

(** The registry holds endpoints of senders only. *)
Definition endpoints_heard (rs : list Received) (v : gmap string PeerRecord) : Prop :=
  ∀ i x, v !! i = Some x → ∃ bytes, Datagram (Registry.endpoint x) bytes ∈ rs.

Lemma endpoints_heard_mono rs r v : endpoints_heard rs v → endpoints_heard (rs ++ [r]) v.
Proof. intros Hv i x Hx. destruct (Hv i x Hx) as [bytes ?]. exists bytes. set_solver. Qed.

Lemma spec_input_heard now r rs v :
  endpoints_heard rs v →
  endpoints_heard (rs ++ [r]) (RendezvousFacts.spec_input signer now r v).1.
Proof.
  intros Hv%(endpoints_heard_mono _ r). destruct r as [from bytes|c]; [|done]. simpl.
  destruct (spec_datagram_cases signer now from bytes v) as [->|(f & _ & _ & ->)]; [done|].
  assert (∀ x, Registry.endpoint x = from →
    endpoints_heard (rs ++ [Datagram from bytes]) (<[id f := x]> v)) as Hins.
  { intros x Hx i y [[<- <-]|[_ Hy]]%lookup_insert_Some; [|by eapply Hv].
    exists bytes. rewrite Hx. set_solver. }
  unfold spec_frame. destruct (type f); try done.
  - case_decide; [by apply Hins|done].
  - by destruct (v !! lookup_target f).
  - by destruct (v !! id f).
  - destruct (v !! id f); [by apply Hins|done].
Qed.

Lemma run_heard r0 rs :
  Registry.contents r0 = ∅ →
  endpoints_heard rs (Registry.contents (registry (Rendezvous.run clock signer rs
    (Rendezvous.start clock r0)))).
Proof.
  intros He. induction rs as [|r rs IH] using rev_ind.
  { simpl. rewrite He. intros i x. by rewrite lookup_empty. }
  rewrite server_run_app. simpl. intros i x Hx.
  apply step_view_sub in Hx; [|by apply run_view_ok, start_view_ok].
  by eapply (spec_input_heard _ r rs).
Qed.

#[export] Instance rendezvous_contract r0 :
  Registry.contents r0 = ∅ →
  @ServerLoopContract _ (rendezvous_loop clock signer) (Rendezvous.start clock r0).
Proof.
  intros He. constructor. intros rs r _ _. simpl.
  destruct (server_step_outputs clock signer (Rendezvous.run clock signer rs
    (Rendezvous.start clock r0)) r) as (new & Hs & _ & Hn); [by exists r0, rs|].
  exists new. split; [exact Hs|]. intros e (from & bytes & f & -> & _ & Ha)%Hn.
  destruct Ha as [t i b|x _ Hx]; simpl.
  - exists bytes. set_solver.
  - destruct (run_heard r0 rs He _ _ Hx) as [bytes' ?]. exists bytes'. set_solver.
Qed.
End rendezvous.

Section relay.
Context {T : Type} `{AllocationContract T}.
Context (clock : nat → Z).

#[export] Instance relay_contract t0 :
  contents t0 = ∅ →
  @ServerLoopContract _ (relay_loop clock) (Relay.start clock t0).
Proof.
  intros He. constructor. intros rs r Hrs Hr. simpl.
  destruct (step_outputs clock rs (Relay.run clock rs (Relay.start clock t0)) r)
    as (new & Hs & _ & Hn); [by split; [|exists t0]|done|].
  exists new. split; [exact Hs|]. intros [dst out] Hin.
  destruct (Hn dst out Hin) as (from & tok & pl & _ & _ & _ & data & pl' & Hin' & _).
  exists data. set_solver.
Qed.
End relay.

(** ** The processes *)

Section facts.
Context (os : list (SysCall * Answer) → SysCall → Answer).
Context (inet_ntop : Family → Z → string) (inet_pton : Family → string → option Z).

(** A datagram the kernel delivers has bytes and a well-formed source. *)
Definition kernel_receives : Prop := ∀ cs h len,
  let a := os cs (SRecvFrom h len) in
  0 ≤ ret a → sockaddr_ok (peer_addr a) ∧ bytes_ok (payload a).

Hypothesis law : text_law inet_ntop inet_pton.
Hypothesis receives : kernel_receives.

(** A datagram was received from [ss] in the history [cs]. *)
Definition received_from (cs : list (SysCall * Answer)) (ss : sockaddr_storage) : Prop :=
  ∃ h len a, (SRecvFrom h len, a) ∈ cs ∧ 0 ≤ ret a ∧ peer_addr a = ss.

(** A call that sends goes to an address something was received from before. *)
Definition answers (cs : list (SysCall * Answer)) (e : SysCall * Answer) : Prop :=
  match e.1 with
  | SSendTo _ _ to => ∃ ss, received_from cs ss ∧ same_address ss to
  | _ => True
  end.

Definition heard_endpoint (cs : list (SysCall * Answer)) (ep : Endpoint) : Prop :=
  ∃ ss, received_from cs ss ∧ sockaddr_ok ss ∧ ep = endpoint_from_sockaddr inet_ntop ss.

Lemma heard_endpoint_mono cs cs' ep : heard_endpoint cs ep → heard_endpoint (cs ++ cs') ep.
Proof.
  intros (ss & (h & len & a & Hin & ?) & ?). exists ss. split; [|done].
  exists h, len, a. split; [set_solver|done].
Qed.

Lemma send_to_answers udp buf ep o :
  always answers (calls o) → heard_endpoint (calls o) ep →
  let o' := (Sockets.send_to os inet_pton udp buf ep o).2 in
  always answers (calls o') ∧ ∃ more, calls o' = calls o ++ more.
Proof.
  intros Ho (ss & Hr & Hok & ->). unfold Sockets.send_to.
  destruct (endpoint_roundtrip inet_ntop inet_pton law ss Hok) as (to & -> & Hsame & _).
  rewrite state_bind_run. simpl. destruct (_ <? 0); simpl;
    (split; [apply always_snoc; [done|by exists ss]|by eexists]).
Qed.

Lemma send_all_answers udp es o :
  always answers (calls o) → (∀ e, e ∈ es → heard_endpoint (calls o) e.1) →
  let o' := (send_all os inet_pton udp es o).2 in
  always answers (calls o') ∧ ∃ more, calls o' = calls o ++ more.
Proof.
  revert o. induction es as [|[to bytes] es IH]; intros o Ho Hes; simpl.
  { split; [done|]. exists []. by rewrite app_nil_r. }
  rewrite state_bind_run.
  destruct (send_to_answers udp bytes to o Ho) as [Ho1 [m1 Hm1]];
    [apply (Hes (to, bytes)); set_solver|].
  destruct (IH _ Ho1) as [Ho2 [m2 Hm2]].
  { intros e He. rewrite Hm1. apply heard_endpoint_mono, Hes. set_solver. }
  split; [done|]. exists (m1 ++ m2). by rewrite Hm2, Hm1, app_assoc.
Qed.

Lemma recv_from_heard udp o :
  always answers (calls o) →
  let '(r, o') := recv_from os inet_ntop udp kBufferBytes o in
  input_ok r ∧ always answers (calls o') ∧ (∃ more, calls o' = calls o ++ more) ∧
  ∀ ep bytes, r = Datagram ep bytes → heard_endpoint (calls o') ep.
Proof.
  intros Ho. unfold recv_from. rewrite state_bind_run. simpl.
  pose proof (receives (calls o) (handle_ udp) kBufferBytes) as Hk. simpl in Hk.
  set (a := os (calls o) _) in *.
  assert (always answers (calls o ++ [(SRecvFrom (handle_ udp) kBufferBytes, a)]))
    by (by apply always_snoc).
  destruct (Z.ltb_spec (ret a) 0) as [|Hret]; simpl.
  { split_and!; [done|done|by eexists|done]. }
  destruct (Hk Hret) as [Hss Hb]. split_and!; [by apply Forall_take|done|by eexists|].
  intros ep bytes [= <- _]. exists (peer_addr a). split; [|done].
  exists (handle_ udp), kBufferBytes, a. split; [set_solver|done].
Qed.

Section loop.
Context {L : Type} `{ServerLoop L} (initial : L) {contract : ServerLoopContract L initial}.

(** The process after the inputs [rs]. *)
Definition process_inv (p : Process L) : Prop :=
  ∃ rs, Forall input_ok rs ∧ loop p = fold_left (λ s r, loop_step r s) rs initial ∧
    always answers (calls (net p)) ∧
    ∀ ep bytes, Datagram ep bytes ∈ rs → heard_endpoint (calls (net p)) ep.

Lemma iteration_inv udp p :
  process_inv p → process_inv (iteration os inet_ntop inet_pton udp p).
Proof.
  intros (rs & Hrs & Hl & Ho & Hheard). unfold iteration.
  pose proof (recv_from_heard udp (net p) Ho) as Hrecv.
  destruct (recv_from os inet_ntop udp kBufferBytes (net p)) as [r o].
  destruct Hrecv as (Hr & Ho1 & [m1 Hm1] & Hep).
  destruct (answers_heard rs r Hrs Hr) as (new & Hnew & Hin). rewrite <-Hl in Hnew.
  rewrite Hnew, drop_app_length.
  assert (∀ ep bytes, Datagram ep bytes ∈ rs ++ [r] → heard_endpoint (calls o) ep) as Hall.
  { intros ep bytes [Hd|Hd%list_elem_of_singleton]%elem_of_app; [|by eapply Hep].
    rewrite Hm1. eapply heard_endpoint_mono, Hheard, Hd. }
  destruct (send_all_answers udp new o Ho1) as [Ho2 [m2 Hm2]].
  { intros e [bytes He]%Hin. by eapply Hall. }
  exists (rs ++ [r]). split_and!; simpl.
  - apply Forall_app. split; [done|by apply Forall_singleton].
  - by rewrite fold_left_app, Hl.
  - done.
  - intros ep bytes Hd. rewrite Hm2. eapply heard_endpoint_mono, Hall, Hd.
Qed.

Lemma iterations_inv udp n p :
  process_inv p → process_inv (iterations os inet_ntop inet_pton udp n p).
Proof. revert p. induction n as [|n IH]; intros p Hp; [done|]. by apply IH, iteration_inv. Qed.

Lemma started_inv o : always answers (calls o) → process_inv {| loop := initial; net := o |}.
Proof. intros Ho. exists []. split_and!; [done|done|done|]. by intros ep bytes ?%elem_of_nil. Qed.
End loop.

(** Opening a socket sends nothing. *)
Lemma bind_udp_answers port o :
  always answers (calls o) → always answers (calls (bind_udp os port o).2).
Proof.
  intros Ho. unfold bind_udp, close_handle. run_state.
  repeat (case_match; simpl); repeat (apply always_snoc; [|done]); done.
Qed.

Lemma listen_tcp_answers port backlog o :
  always answers (calls o) → always answers (calls (listen_tcp os port backlog o).2).
Proof.
  intros Ho. unfold listen_tcp, close_handle. run_state.
  repeat (case_match; simpl); repeat (apply always_snoc; [|done]); done.
Qed.
End facts.

(** The trace of a process that has ended, or is looked at. *)
Definition trace {L} (p : (Z * Os) + Process L) : list (SysCall * Answer) :=
  match p with inl (_, o) => calls o | inr p => calls (net p) end.

(** C10. Neither server ever sends to an address it has not
    heard from: started with any arguments, and whatever the kernel and the
    network do, at any time every sendto call of the process goes to a family,
    address and port from which an earlier recvfrom call of the same process
    delivered a datagram. *)
Theorem servers_answer_only {R S T} `{RegistryContract R} `{SignerContract S verifies}
    `{AllocationContract T} os inet_ntop inet_pton clock (signer : S) (r0 : R) (t0 : T)
    (args : list string) (n : nat) :
  text_law inet_ntop inet_pton → kernel_receives os →
  Registry.contents r0 = ∅ → Relay.contents t0 = ∅ →
  let o0 := {| calls := [] |} in
  (∀ p, rendezvous_main os inet_ntop inet_pton clock signer r0 args n o0 = Some p →
     always answers (trace p)) ∧
  (∀ p, relay_main os inet_ntop inet_pton clock t0 args n o0 = Some p →
     always answers (trace p)).
Proof.
  intros Hlaw Hk Hr Ht o0. unfold rendezvous_main, relay_main. split.
  - intros p. destruct (parse_port _ args) as [port|]; [|done]. simpl. intros [= <-].
    unfold run_rendezvous. pose proof (bind_udp_answers os port o0 (always_nil _)) as Ho.
    destruct (bind_udp os port o0) as [udp o]. destruct (negb _); [done|].
    pose proof (listen_tcp_answers os port 64 o Ho) as Ho2.
    destruct (listen_tcp os port 64 o) as [tcp o2]. simpl in *.
    destruct (iterations_inv os inet_ntop inet_pton Hlaw Hk (Rendezvous.start clock r0)
      (contract := rendezvous_contract clock signer r0 Hr) (value udp) n
      {| loop := Rendezvous.start clock r0; net := o2 |}) as (rs & _ & _ & ? & _); [|done].
    by apply started_inv.
  - intros p. destruct (parse_port _ args) as [port|]; [|done]. simpl. intros [= <-].
    unfold run_relay. pose proof (bind_udp_answers os port o0 (always_nil _)) as Ho.
    destruct (bind_udp os port o0) as [udp o]. destruct (negb _); [done|]. simpl in *.
    destruct (iterations_inv os inet_ntop inet_pton Hlaw Hk (Relay.start clock t0)
      (contract := relay_contract clock t0 Ht) (value udp) n
      {| loop := Relay.start clock t0; net := o |}) as (rs & _ & _ & ? & _); [|done].
    by apply started_inv.
Qed.

(** ** Samples *)

Lemma parse_port_spec_witness :
  parse_port 21116 (["--verbose"] ++ "--port" :: pretty 70000%N :: ["--port"]) = Some 4464 ∧
  parse_port 21116 (["--port"]) = Some 21116 ∧
  parse_port 21116 ["--port"; "-1"] = Some 65535.
Proof.
  split; [|split; [|by vm_compute]].
  - refine (proj1 (proj2 (proj1 (parse_port_spec 21116) ["--verbose"] (pretty 70000%N) ["--port"] _)) 70000%N eq_refl eq_refl).
    by apply (bool_decide_unpack _); vm_compute.
  - apply (proj1 (proj2 (parse_port_spec 21116))). intros [|i] v; by vm_compute.
Defined.

Definition is_recv (e : SysCall * Answer) : bool :=
  match e.1 with SRecvFrom _ _ => true | _ => false end.
Definition is_send (e : SysCall * Answer) : bool :=
  match e.1 with SSendTo _ _ _ => true | _ => false end.

(** A kernel on which two peers speak in turn, with the same one-byte token. *)
Definition two_peers (cs : list (SysCall * Answer)) (c : SysCall) : Answer :=
  let heard := length (filter (λ e, is_recv e) cs) in
  {| ret := match c with SRecvFrom _ _ => 3 | _ => ret (Sockets.Sample.os cs c) end;
     errno := Errno_other 0;
     peer_addr := {| ss_family := AF_INET; ss_port := if Nat.even heard then 10275 else 10531;
                     sin_addr := 119603403; sin6_addr := 0; sin6_scope_id := 0 |};
     payload := [1; 65; 66] |}.

Lemma two_peers_receives : kernel_receives two_peers.
Proof.
  intros cs h len a _. split; [|by repeat constructor; vm_compute].
  unfold a, two_peers, sockaddr_ok. simpl. split; [by vm_compute|].
  by destruct (Nat.even _); vm_compute.
Qed.

(** The relay forwards from the second datagram on. *)
Lemma servers_answer_only_witness :
  ∃ p, relay_main two_peers Sockets.Sample.ntop Sockets.Sample.pton (λ _, 0)
    Relay.InMemory.make_in_memory_allocation_table ["--port"; "9"] 3 {| calls := [] |} = Some p ∧
  length (filter (λ e, is_send e) (trace p))
    = 2%nat ∧
  always answers (trace p).
Proof.
  eexists. split; [reflexivity|]. split; [by vm_compute|].
  exact (proj2 (servers_answer_only two_peers Sockets.Sample.ntop Sockets.Sample.pton
    (λ _, 0) Signer.Insecure.make_insecure_test_signer
    Registry.InMemory.make_in_memory_registry Relay.InMemory.make_in_memory_allocation_table
    ["--port"; "9"] 3 Sockets.Sample.text_law_ok two_peers_receives eq_refl eq_refl) _ eq_refl).
Defined.
