(* ===== verification/IpcServer.v ===== *)
(** * The service's local IPC server (src/service/src/ipc_server.h, ipc_server.cpp)

    The privileged service listens on a Unix-domain socket, authenticates each
    peer by its kernel credentials, reads one length-prefixed request, hands it
    to the handler and writes one length-prefixed reply. [Socket] is the
    connection as [read] and [write] see it and the two loops over them,
    [Serve] one connection and the accept loop, [Lifecycle] start and stop.

    A connection is given by what the kernel will hand over: the segments
    successive [read]s return, what follows them (the peer closes, or sends
    nothing more and stays), the room the [write]s find, window by window, and
    what a [write] after that does. All segmentations are covered; the operating system's
    answers to the calls of [start] are an arbitrary function of the history. *)

From S2P Require Import Prelude Types.

(** ** Messages (ipc_server.h) *)

Record PeerIdentity := {
  authenticated : bool;
  uid : Z;
  pid : Z;
  descriptor : string;
}.

Definition PeerIdentity_init : PeerIdentity :=
  {| authenticated := false; uid := 0; pid := 0; descriptor := "" |}.

(** [IpcMessage] and [IpcReply] hold a payload; a handler maps one to the other. *)
Definition IpcMessageHandler : Type := PeerIdentity → list Z → list Z.

Record Config := { endpoint : string; max_message_bytes : Z }.

Definition Config_init : Config :=
  {| endpoint := ""; max_message_bytes := Z.shiftl 1 20 |}.

Definition kFrameHeaderBytes : nat := 4.

Module Socket.

(** What follows the segments: [read] returns 0 or -1, or never returns. *)
Inductive ReadEnd := Closed | Silent.

(** What a [write] does once the peer takes no more: it fails with an error
    other than EPIPE, raises SIGPIPE (whose default action the service keeps,
    so the process dies), or never returns. *)
Inductive WriteEnd := WFails | WSigpipe | WBlocks.

Record Conn := {
  incoming : list (list Z);  (* an empty segment: one failing read *)
  read_end : ReadEnd;
  takes : list nat;          (* room for the writes, window by window; 0: one failing write *)
  write_end : WriteEnd;
  sent : list Z;             (* bytes written so far *)
}.

(** How a piece of the code ends: it returns, waits for ever, or the process dies. *)
Inductive Ran (A : Type) := Returned (a : A) | Stuck | Killed.
#[global] Arguments Returned {_} _.
#[global] Arguments Stuck {_}.
#[global] Arguments Killed {_}.

Definition set_incoming (i : list (list Z)) (c : Conn) : Conn :=
  {| incoming := i; read_end := read_end c; takes := takes c;
     write_end := write_end c; sent := sent c |}.

Definition set_written (t : list nat) (bs : list Z) (c : Conn) : Conn :=
  {| incoming := incoming c; read_end := read_end c; takes := t;
     write_end := write_end c; sent := sent c ++ bs |}.

(** [::read(fd, buf, n)], [n > 0]: the bytes read, none for a result [<= 0]. *)
Definition sys_read (n : nat) (c : Conn) : Ran (list Z) * Conn :=
  match incoming c with
  | [] => (match read_end c with Closed => Returned [] | Silent => Stuck end, c)
  | seg :: rest =>
      (Returned (take n seg),
       set_incoming (match drop n seg with [] => rest | l => l :: rest end) c)
  end.

(** [while (got < n) { r = read(fd, buf + got, n - got); if (r <= 0) return
    false; got += r; } return true;]: the loop makes at most [n] turns. *)
Fixpoint ReadExact_loop (fuel : nat) (n : nat) (buf : list Z) (c : Conn)
    : Ran (option (list Z)) * Conn :=
  if (length buf <? n)%nat then
    match fuel with
    | O => (Stuck, c)
    | S fuel =>
        match sys_read (n - length buf) c with
        | (Returned [], c') => (Returned None, c')
        | (Returned bs, c') => ReadExact_loop fuel n (buf ++ bs) c'
        | (Stuck, c') => (Stuck, c')
        | (Killed, c') => (Killed, c')
        end
    end
  else (Returned (Some buf), c).

(** [None]: the call returned false. *)
Definition ReadExact (n : nat) (c : Conn) : Ran (option (list Z)) * Conn :=
  ReadExact_loop n n [] c.

(** [::write(fd, buf, n)], [n > 0]: the count written, 0 for a result [<= 0]. *)
Definition sys_write (bs : list Z) (c : Conn) : Ran nat * Conn :=
  match takes c with
  | [] => (match write_end c with
           | WFails => Returned 0%nat | WSigpipe => Killed | WBlocks => Stuck
           end, c)
  | k :: ks => let w := Nat.min k (length bs) in
               (Returned w,
                set_written (match (k - w)%nat with O => ks | l => l :: ks end)
                  (take w bs) c)
  end.

Fixpoint WriteExact_loop (fuel : nat) (rest : list Z) (c : Conn) : Ran bool * Conn :=
  match rest with
  | [] => (Returned true, c)
  | _ =>
      match fuel with
      | O => (Stuck, c)
      | S fuel =>
          match sys_write rest c with
          | (Returned O, c') => (Returned false, c')
          | (Returned w, c') => WriteExact_loop fuel (drop w rest) c'
          | (Stuck, c') => (Stuck, c')
          | (Killed, c') => (Killed, c')
          end
      end
  end.

Definition WriteExact (bs : list Z) (c : Conn) : Ran bool * Conn :=
  WriteExact_loop (length bs) bs c.

(** The byte stream a connection carries, whatever its segmentation. *)
Definition stream (c : Conn) : list Z := concat (incoming c).

(** No [read] fails before the end of the stream. *)
Definition read_ok (c : Conn) : Prop := Forall (λ seg, seg ≠ []) (incoming c).

(** The peer takes at least [n] more bytes, in pieces of any size. *)
Definition write_ok (n : nat) (c : Conn) : Prop :=
  Forall (λ k, k ≠ 0%nat) (takes c) ∧ (n ≤ sum_list (takes c))%nat.

(** *** [ReadExact] reads the stream *)

Lemma sys_read_stream n c bs c' :
  (0 < n)%nat → read_ok c → sys_read n c = (Returned bs, c') → bs ≠ [] →
  stream c = bs ++ stream c' ∧ (length bs ≤ n)%nat ∧ read_ok c' ∧
  read_end c' = read_end c ∧ takes c' = takes c ∧ write_end c' = write_end c ∧
  sent c' = sent c.
Proof.
  unfold sys_read, stream, read_ok. intros Hn Hok.
  destruct (incoming c) as [|seg rest] eqn:E.
  { destruct (read_end c); intros; simplify_eq. }
  intros ? _. simplify_eq. apply Forall_cons in Hok as [Hseg Hrest].
  split_and!; try done.
  - simpl. rewrite <-(take_drop n seg) at 1. rewrite <-app_assoc. f_equal.
    by destruct (drop n seg).
  - rewrite length_take. lia.
  - simpl. destruct (drop n seg) eqn:Ed; [done|]. by constructor.
Qed.

Lemma sys_read_nonempty n c :
  (0 < n)%nat → read_ok c → stream c ≠ [] →
  ∃ b bs c', sys_read n c = (Returned (b :: bs), c').
Proof.
  unfold sys_read, stream, read_ok. intros Hn Hok.
  destruct (incoming c) as [|[|b seg] rest]; [done| |].
  { by apply Forall_cons in Hok as [? _]. }
  intros _. destruct n as [|n]; [lia|]. simpl. eauto.
Qed.

Lemma sys_read_end n c :
  read_ok c → stream c = [] →
  sys_read n c = (match read_end c with Closed => Returned [] | Silent => Stuck end, c).
Proof.
  unfold sys_read, stream, read_ok. destruct (incoming c) as [|seg rest]; [done|].
  intros [Hseg _]%Forall_cons. simpl. intros [? _]%app_eq_nil. done.
Qed.

(** A connection after [bs] has been read from it. *)
Definition read_from (c : Conn) (bs : list Z) (c' : Conn) : Prop :=
  stream c = bs ++ stream c' ∧ read_ok c' ∧ read_end c' = read_end c ∧
  takes c' = takes c ∧ write_end c' = write_end c ∧ sent c' = sent c.

Lemma read_from_refl c : read_ok c → read_from c [] c.
Proof. intros. unfold read_from. by split_and!. Qed.

Lemma read_from_trans c bs c' cs c'' :
  read_from c bs c' → read_from c' cs c'' → read_from c (bs ++ cs) c''.
Proof.
  unfold read_from. intros (-> & _ & <- & <- & <- & <-) (-> & ? & ? & ? & ? & ?).
  rewrite <-app_assoc. by split_and!.
Qed.

Lemma ReadExact_loop_spec fuel n buf c :
  read_ok c → (n ≤ length buf + fuel)%nat → (length buf ≤ n)%nat →
  ∃ bs c', read_from c bs c' ∧
    if bool_decide (n ≤ length buf + length (stream c))%nat
    then ReadExact_loop fuel n buf c = (Returned (Some (buf ++ bs)), c') ∧
         (length buf + length bs)%nat = n
    else ReadExact_loop fuel n buf c =
           (match read_end c with Closed => Returned None | Silent => Stuck end, c').
Proof.
  revert buf c. induction fuel as [|fuel IH]; intros buf c Hok Hfuel Hle.
  all: simpl; destruct (Nat.ltb_spec (length buf) n) as [Hlt|Hge].
  1: lia.
  1, 3: exists [], c; split; [by apply read_from_refl|];
        rewrite bool_decide_true by lia; rewrite app_nil_r; split; [done|simpl; lia].
  destruct (decide (stream c = [])) as [Hnil|Hne].
  - exists [], c. split; [by apply read_from_refl|].
    rewrite Hnil, bool_decide_false by (simpl; lia). rewrite sys_read_end by done.
    by destruct (read_end c).
  - destruct (sys_read_nonempty (n - length buf) c) as (b & bs & c1 & E); [lia|done|done|].
    rewrite E. edestruct sys_read_stream as (Hs & Hl & Hok1 & Hre & Ht & Hw & Hsent);
      [|exact Hok|exact E|done|]; [lia|].
    destruct (IH (buf ++ b :: bs) c1) as (bs2 & c2 & Hrf & Hcase);
      [done|rewrite length_app; simpl; lia|rewrite length_app; lia|].
    exists ((b :: bs) ++ bs2), c2. split; [by eapply read_from_trans|].
    rewrite Hre, <-app_assoc, !length_app in Hcase. rewrite Hs, !length_app.
    rewrite Nat.add_assoc. case_bool_decide; [|done].
    destruct Hcase as [-> Hlen]. split; [done|]. lia.
Qed.

(** [ReadExact] returns the next [n] bytes of the stream, fails at its end,
    and waits exactly when the stream runs dry with the peer still there. *)
Lemma ReadExact_stream n c :
  read_ok c →
  ∃ c', if bool_decide (n ≤ length (stream c))%nat
        then ReadExact n c = (Returned (Some (take n (stream c))), c') ∧
             read_from c (take n (stream c)) c' ∧ stream c' = drop n (stream c)
        else ReadExact n c =
               (match read_end c with Closed => Returned None | Silent => Stuck end, c').
Proof.
  intros Hok. destruct (ReadExact_loop_spec n n [] c) as (bs & c' & Hrf & Hcase);
    [done|simpl; lia|simpl; lia|]. exists c'. simpl in Hcase.
  case_bool_decide; [|done]. destruct Hcase as [E Hlen].
  assert (take n (stream c) = bs) as Ht.
  { destruct Hrf as (-> & _). by apply take_app_exact. }
  rewrite Ht. split_and!; [done|done|]. destruct Hrf as (-> & _). by rewrite drop_app_exact.
Qed.

(** *** [WriteExact] delivers the bytes *)

Definition write_to (c : Conn) (bs : list Z) (c' : Conn) : Prop :=
  sent c' = sent c ++ bs ∧ incoming c' = incoming c ∧ read_end c' = read_end c ∧
  write_end c' = write_end c.

Lemma WriteExact_loop_spec fuel rest c m :
  (length rest ≤ fuel)%nat → write_ok (length rest + m) c →
  ∃ c', WriteExact_loop fuel rest c = (Returned true, c') ∧ write_to c rest c' ∧
        write_ok m c'.
Proof.
  revert rest c. induction fuel as [|fuel IH]; intros [|r rest] c Hf Hok; simpl in Hf.
  1, 3: exists c; unfold write_to; rewrite app_nil_r; by split_and!.
  { lia. }
  unfold WriteExact_loop; fold WriteExact_loop. unfold sys_write.
  destruct Hok as [Hall Hsum]. destruct (takes c) as [|k ks] eqn:E; [simpl in Hsum; lia|].
  apply Forall_cons in Hall as [Hk Hks].
  destruct (Nat.min k (length (r :: rest))) as [|w] eqn:Ew; [simpl in Ew; lia|].
  set (c1 := set_written _ (take (S w) (r :: rest)) c).
  destruct (IH (drop (S w) (r :: rest)) c1) as (c' & Hc' & (Hs & Hi & Hre & Hwe) & Hok').
  - simpl. rewrite length_drop. simpl in Ew. lia.
  - simpl in Ew, Hsum. unfold write_ok, c1, set_written. cbn [takes].
    rewrite length_drop. cbn [length].
    destruct (k - S w)%nat eqn:Ek; split; [done|lia|by constructor|].
    simpl. lia.
  - exists c'. split_and!; [done| |done]. split_and!; [|done|done|done].
    rewrite Hs. unfold c1, set_written. cbn [sent]. by rewrite <-app_assoc, take_drop.
Qed.

Lemma WriteExact_spec bs c m :
  write_ok (length bs + m) c →
  ∃ c', WriteExact bs c = (Returned true, c') ∧ write_to c bs c' ∧ write_ok m c'.
Proof. by apply WriteExact_loop_spec. Qed.

(** Whatever [WriteExact] does, what has been sent is a prefix of what was asked. *)
Lemma WriteExact_loop_prefix fuel rest c r c' :
  WriteExact_loop fuel rest c = (r, c') →
  ∃ k, write_to c (take k rest) c' ∧ (r = Returned true → take k rest = rest).
Proof.
  revert rest c. induction fuel as [|fuel IH]; intros [|x rest] c; simpl.
  1-3: intros; simplify_eq; exists 0%nat; unfold write_to; simpl; rewrite app_nil_r;
       by split_and!.
  unfold sys_write. destruct (takes c) as [|k ks].
  { destruct (write_end c) eqn:Ew; intros; simplify_eq; exists 0%nat; unfold write_to;
      simpl; rewrite app_nil_r; by split_and!. }
  destruct (Nat.min k (length (x :: rest))) as [|w] eqn:Ew.
  { intros; simplify_eq; exists 0%nat; unfold write_to, set_written; simpl.
    by split_and!. }
  intros (j & (Hs & Hi & Hre & Hwe) & Hr)%IH. exists (S w + j)%nat. split.
  - split_and!; [|done|done|done]. rewrite Hs. unfold set_written. cbn [sent].
    by rewrite <-app_assoc, take_take_drop.
  - intros Ht. rewrite <-(take_take_drop (x :: rest) (S w) j), (Hr Ht). apply take_drop.
Qed.

End Socket.

Module Serve.

Import Socket.

(** The branches of [AuthenticatePeer]'s [#if]. *)
Inductive Platform := Apple | Linux | OtherPosix.

(** What [getsockopt] answers on the connection; [None] when it fails. *)
Record Credentials := {
  so_peercred : option (Z * Z);        (* SO_PEERCRED: uid, pid *)
  local_peercred : option (bool * Z);  (* LOCAL_PEERCRED: version known, uid *)
  local_peerpid : option Z;            (* LOCAL_PEERPID *)
}.

Definition describe (id : PeerIdentity) : PeerIdentity :=
  {| authenticated := authenticated id; uid := uid id; pid := pid id;
     descriptor := "uid=" +:+ pretty (uid id) +:+ " pid=" +:+ pretty (pid id) |}.

Definition AuthenticatePeer (p : Platform) (k : Credentials) : PeerIdentity :=
  describe
    match p with
    | Apple =>
        let id := match local_peercred k with
                  | Some (true, u) =>
                      {| authenticated := true; uid := u; pid := 0; descriptor := "" |}
                  | _ => PeerIdentity_init
                  end in
        match local_peerpid k with
        | Some q => {| authenticated := authenticated id; uid := uid id;
                       pid := to_u32 q; descriptor := descriptor id |}
        | None => id
        end
    | Linux =>
        match so_peercred k with
        | Some (u, q) =>
            {| authenticated := true; uid := u; pid := to_u32 q; descriptor := "" |}
        | None => PeerIdentity_init
        end
    | OtherPosix => PeerIdentity_init
    end.

(** [header[0] | header[1] << 8 | header[2] << 16 | header[3] << 24]. *)
Definition frame_len (header : list Z) : Z :=
  to_u32 (Z.lor (Z.lor (Z.lor (header !!! 0%nat) (Z.shiftl (header !!! 1%nat) 8))
                       (Z.shiftl (header !!! 2%nat) 16))
                (Z.shiftl (header !!! 3%nat) 24)).

(** [out_hdr]. *)
Definition out_hdr (out_len : Z) : list Z :=
  [to_u8 (Z.land out_len 255);
   to_u8 (Z.land (Z.shiftr out_len 8) 255);
   to_u8 (Z.land (Z.shiftr out_len 16) 255);
   to_u8 (Z.land (Z.shiftr out_len 24) 255)].

(** A server's handler and configuration, as far as a connection needs them. *)
Record Env := {
  platform : Platform;
  config_ : Config;
  handler_ : option IpcMessageHandler;
}.

(** A call of the handler: the peer and the payload it is given. *)
Definition HandlerCall : Type := PeerIdentity * list Z.

Definition write_reply (reply : list Z) (c : Conn) : Ran () * Conn :=
  let out_len := to_u32 (Z.of_nat (length reply)) in
  match WriteExact (out_hdr out_len) c with
  | (Returned true, c) =>
      if out_len =? 0 then (Returned (), c)
      else match WriteExact (take (Z.to_nat out_len) reply) c with
           | (Returned _, c) => (Returned (), c)
           | (Stuck, c) => (Stuck, c)
           | (Killed, c) => (Killed, c)
           end
  | (Returned false, c) => (Returned (), c)
  | (Stuck, c) => (Stuck, c)
  | (Killed, c) => (Killed, c)
  end.

Definition ServeConnection (e : Env) (k : Credentials) (c : Conn)
    : Ran () * list HandlerCall * Conn :=
  let peer := AuthenticatePeer (platform e) k in
  if negb (authenticated peer) then (Returned (), [], c)
  else
    match ReadExact kFrameHeaderBytes c with
    | (Returned (Some header), c) =>
        let len := frame_len header in
        if (len =? 0) || (max_message_bytes (config_ e) <? len) then (Returned (), [], c)
        else
          match ReadExact (Z.to_nat len) c with
          | (Returned (Some payload), c) =>
              let '(reply, calls) :=
                match handler_ e with
                | Some h => (h peer payload, [(peer, payload)])
                | None => ([], [])
                end in
              let '(r, c) := write_reply reply c in (r, calls, c)
          | (Returned None, c) => (Returned (), [], c)
          | (Stuck, c) => (Stuck, [], c)
          | (Killed, c) => (Killed, [], c)
          end
    | (Returned None, c) => (Returned (), [], c)
    | (Stuck, c) => (Stuck, [], c)
    | (Killed, c) => (Killed, [], c)
    end.

(** One turn of the accept loop: what [running_] holds at the loop's head, what
    [accept] returns, and what [running_] holds after it. *)
Inductive Accepted := AConn (k : Credentials) (c : Conn) | AFailed.

Record Turn := { running_before : bool; accepted : Accepted; running_after : bool }.

(** How far the loop has come: left, or waiting in the next [accept]. *)
Inductive LoopEnd := Exited | Waiting.

Fixpoint AcceptLoop (e : Env) (turns : list Turn) : Ran LoopEnd * list HandlerCall :=
  match turns with
  | [] => (Returned Waiting, [])
  | t :: turns =>
      if running_before t then
        match accepted t with
        | AFailed => if negb (running_after t) then (Returned Exited, [])
                     else AcceptLoop e turns
        | AConn k c =>
            match ServeConnection e k c with
            | (Returned (), calls, _) =>
                let '(r, more) := AcceptLoop e turns in (r, calls ++ more)
            | (Stuck, calls, _) => (Stuck, calls)
            | (Killed, calls, _) => (Killed, calls)
            end
        end
      else (Returned Exited, [])
  end.

(** *** The frame header *)

Lemma frame_len_value a b c d :
  bytes_ok [a; b; c; d] → frame_len [a; b; c; d] = le_value [a; b; c; d].
Proof.
  intros H. rewrite !Forall_cons in H. destruct H as (Ha & Hb & Hc & Hd & _).
  unfold byte_ok, fits in *. change (2 ^ 8) with 256 in *.
  unfold frame_len. simpl. rewrite (lor_shiftl_add a b 8) by (unfold fits; lia).
  change (2 ^ 8) with 256.
  rewrite (lor_shiftl_add _ c 16) by (unfold fits; change (2 ^ 16) with 65536; lia).
  change (2 ^ 16) with 65536.
  rewrite (lor_shiftl_add _ d 24) by (unfold fits; change (2 ^ 24) with 16777216; lia).
  change (2 ^ 24) with 16777216. rewrite wrap_id; [lia|].
  unfold fits. change (2 ^ 32) with 4294967296. lia.
Qed.

Lemma frame_len_fits header : fits 32 (frame_len header).
Proof. by apply wrap_fits. Qed.

Lemma out_hdr_bytes n : out_hdr n = le_bytes 4 n.
Proof.
  unfold out_hdr. rewrite !land_255, !wrap_wrap. simpl.
  by rewrite !Z.shiftr_shiftr by lia.
Qed.

Lemma frame_len_le_bytes n : frame_len (le_bytes 4 n) = to_u32 n.
Proof.
  pose proof (bytes_ok_le_bytes 4 n) as H. pose proof (le_value_le_bytes 4 n) as Hv.
  cbn [le_bytes] in *. rewrite frame_len_value by done. by rewrite Hv.
Qed.

(** *** What a connection can make the server do *)

Lemma sys_read_length n c bs c' : sys_read n c = (Returned bs, c') → (length bs ≤ n)%nat.
Proof.
  unfold sys_read. destruct (incoming c); [destruct (read_end c)|]; intros; simplify_eq;
    rewrite ?length_take; simpl; lia.
Qed.

Lemma sys_read_sent n c r c' : sys_read n c = (r, c') → sent c' = sent c.
Proof. unfold sys_read. destruct (incoming c); intros; by simplify_eq. Qed.

Lemma ReadExact_loop_bounds fuel n buf c r c' :
  (length buf ≤ n)%nat → ReadExact_loop fuel n buf c = (r, c') →
  sent c' = sent c ∧ (∀ bs, r = Returned (Some bs) → length bs = n).
Proof.
  revert buf c. induction fuel as [|fuel IH]; intros buf c Hle; simpl;
    destruct (Nat.ltb_spec (length buf) n).
  1, 2, 4: intros; simplify_eq; split; [done|]; intros; simplify_eq; lia.
  destruct (sys_read (n - length buf) c) as [[[|b bs]| |] c1] eqn:E;
    pose proof (sys_read_sent _ _ _ _ E) as Hs; intros H1; simplify_eq; try by split.
  apply IH in H1 as [Hs' Hl].
  - split; [congruence|done].
  - apply sys_read_length in E. rewrite length_app. simpl in *. lia.
Qed.

Lemma ReadExact_bounds n c r c' :
  ReadExact n c = (r, c') →
  sent c' = sent c ∧ (∀ bs, r = Returned (Some bs) → length bs = n).
Proof. apply ReadExact_loop_bounds. simpl. lia. Qed.

Lemma write_reply_prefix reply c r c' :
  write_reply reply c = (r, c') →
  ∃ n, sent c' = sent c ++
    take n (le_bytes 4 (Z.of_nat (length reply)) ++ reply).
Proof.
  unfold write_reply, WriteExact. rewrite out_hdr_bytes.
  set (len := to_u32 (Z.of_nat (length reply))).
  assert (le_bytes 4 len = le_bytes 4 (Z.of_nat (length reply))) as Hlen.
  { rewrite <-(le_bytes_le_value (le_bytes 4 len)) by apply bytes_ok_le_bytes.
    rewrite <-(le_bytes_le_value (le_bytes 4 (Z.of_nat (length reply))))
      by apply bytes_ok_le_bytes.
    rewrite !length_le_bytes, !le_value_le_bytes. unfold len.
    change (8 * Z.of_nat 4) with 32. by rewrite wrap_wrap. }
  rewrite Hlen. destruct (WriteExact_loop _ _ c) as [r1 c1] eqn:E1.
  apply WriteExact_loop_prefix in E1 as (j & (Hs1 & _) & Hall).
  assert (∀ m, ∃ n, take m (le_bytes 4 (Z.of_nat (length reply))) =
                    take n (le_bytes 4 (Z.of_nat (length reply)) ++ reply)) as Hpre.
  { intros m. exists (Nat.min m 4). rewrite take_app_le by (rewrite length_le_bytes; lia).
    by rewrite <-(length_le_bytes 4 (Z.of_nat (length reply))), <-take_take, firstn_all. }
  destruct r1 as [[|]| |].
  2-4: intros; simplify_eq; destruct (Hpre j) as [n Hn]; exists n; by rewrite Hs1, Hn.
  destruct (len =? 0).
  { intros; simplify_eq. destruct (Hpre j) as [n Hn]. exists n. by rewrite Hs1, Hn. }
  destruct (WriteExact_loop _ _ c1) as [r2 c2] eqn:E2.
  apply WriteExact_loop_prefix in E2 as (i & (Hs2 & _) & _).
  intros H2. assert (c' = c2) as -> by (by destruct r2; simplify_eq).
  exists (4 + Nat.min i (Z.to_nat len))%nat. rewrite Hs2, Hs1, (Hall eq_refl), take_take.
  rewrite take_app_add' by (by rewrite length_le_bytes). by rewrite <-app_assoc.
Qed.

(** C12. The trust boundary, for any behaviour of the peer (any
    segmentation, failing reads, short writes, silence): a connection leads to
    at most one call of the handler; the peer of that call is authenticated
    and its payload has between 1 and [max_message_bytes] bytes; an
    unauthenticated peer is neither read from nor answered; and nothing is
    written but a prefix of that call's framed reply. *)
Theorem ipc_gate e h k c r calls c' :
  handler_ e = Some h → ServeConnection e k c = (r, calls, c') →
  (calls = [] ∧ sent c' = sent c ∧
   (authenticated (AuthenticatePeer (platform e) k) = false → c' = c ∧ r = Returned ())) ∨
  ∃ peer payload n,
    calls = [(peer, payload)] ∧ peer = AuthenticatePeer (platform e) k ∧
    authenticated peer = true ∧
    1 ≤ Z.of_nat (length payload) ≤ max_message_bytes (config_ e) ∧
    sent c' = sent c ++ take n (le_bytes 4 (Z.of_nat (length (h peer payload))) ++
                                h peer payload).
Proof.
  intros Hh. unfold ServeConnection. set (peer := AuthenticatePeer _ _).
  destruct (authenticated peer) eqn:Ea; simpl.
  2: { intros; simplify_eq. by left. }
  destruct (ReadExact kFrameHeaderBytes c) as [r1 c1] eqn:E1.
  apply ReadExact_bounds in E1 as [Hs1 Hl1].
  destruct r1 as [[header|]| |]; [|intros; simplify_eq; by left..].
  destruct (Z.eqb_spec (frame_len header) 0) as [|Hne];
    [simpl; intros; simplify_eq; by left|].
  destruct (Z.ltb_spec (max_message_bytes (config_ e)) (frame_len header)) as [|Hmax];
    [simpl; intros; simplify_eq; by left|]. simpl.
  destruct (ReadExact (Z.to_nat (frame_len header)) c1) as [r2 c2] eqn:E2.
  apply ReadExact_bounds in E2 as [Hs2 Hl2].
  destruct r2 as [[payload|]| |]; [|intros; simplify_eq; left; split_and!;
    [done|congruence|intros; congruence]..].
  rewrite Hh. destruct (write_reply (h peer payload) c2) as [r3 c3] eqn:E3.
  apply write_reply_prefix in E3 as [n Hn]. intros; simplify_eq. right.
  exists peer, payload, n. specialize (Hl2 _ eq_refl). split_and!; try done; try congruence.
  - pose proof (frame_len_fits header) as [? _]. lia.
  - pose proof (frame_len_fits header) as [? _]. lia.
  - by rewrite Hn, Hs2, Hs1.
Qed.

(** *** Well-behaved clients *)

Lemma to_u32_id n : 0 ≤ n < 4294967296 → to_u32 n = n.
Proof. intros. by apply wrap_id. Qed.

Lemma write_reply_ok reply c :
  Z.of_nat (length reply) < 4294967296 → write_ok (4 + length reply) c →
  ∃ c', write_reply reply c = (Returned (), c') ∧
        sent c' = sent c ++ le_bytes 4 (Z.of_nat (length reply)) ++ reply.
Proof.
  intros Hlen Hok. unfold write_reply. rewrite to_u32_id, out_hdr_bytes by lia.
  destruct (WriteExact_spec (le_bytes 4 (Z.of_nat (length reply))) c (length reply))
    as (c1 & -> & (Hs1 & _) & Hok1); [by rewrite length_le_bytes|].
  destruct (Z.eqb_spec (Z.of_nat (length reply)) 0) as [H0|].
  - exists c1. split; [done|]. destruct reply; [|simpl in H0; lia].
    by rewrite app_nil_r.
  - rewrite Nat2Z.id, firstn_all.
    destruct (WriteExact_spec reply c1 0) as (c2 & -> & (Hs2 & _) & _).
    { by rewrite Nat.add_0_r. }
    exists c2. split; [done|]. by rewrite Hs2, Hs1, <-app_assoc.
Qed.

(** A connection that carries the request [payload] and takes the reply. *)
Definition request (e : Env) (k : Credentials) (payload : list Z) (n : nat) (c : Conn)
    : Prop :=
  authenticated (AuthenticatePeer (platform e) k) = true ∧ read_ok c ∧
  1 ≤ Z.of_nat (length payload) ≤ max_message_bytes (config_ e) ∧
  Z.of_nat (length payload) < 4294967296 ∧
  (∃ rest, stream c = le_bytes 4 (Z.of_nat (length payload)) ++ payload ++ rest) ∧
  write_ok (4 + n) c.

(** What happens once a complete, acceptable frame is in the stream. *)
Lemma serve_reads e h k payload c rest :
  handler_ e = Some h →
  let peer := AuthenticatePeer (platform e) k in
  authenticated peer = true → read_ok c →
  1 ≤ Z.of_nat (length payload) ≤ max_message_bytes (config_ e) →
  Z.of_nat (length payload) < 4294967296 →
  stream c = le_bytes 4 (Z.of_nat (length payload)) ++ payload ++ rest →
  ∃ c2, takes c2 = takes c ∧ write_end c2 = write_end c ∧ sent c2 = sent c ∧
    ServeConnection e k c =
      (let '(r, c') := write_reply (h peer payload) c2 in (r, [(peer, payload)], c')).
Proof.
  intros Hh peer Ha Hok Hlen H32 Hs. unfold ServeConnection. fold peer.
  rewrite Ha. simpl negb. cbv iota.
  destruct (ReadExact_stream kFrameHeaderBytes c Hok) as [c1 H1].
  rewrite bool_decide_true in H1
    by (rewrite Hs, length_app, length_le_bytes; unfold kFrameHeaderBytes; lia).
  rewrite Hs, take_app_exact, drop_app_exact in H1 by (by rewrite length_le_bytes).
  destruct H1 as (-> & (_ & Hok1 & _ & Ht1 & Hw1 & Hs1) & Hst1).
  rewrite frame_len_le_bytes, to_u32_id by lia.
  rewrite (proj2 (Z.eqb_neq _ 0)), (proj2 (Z.ltb_ge _ _)) by lia.
  rewrite orb_false_l. cbv iota.
  rewrite Nat2Z.id. destruct (ReadExact_stream (length payload) c1 Hok1) as [c2 H2].
  rewrite bool_decide_true in H2 by (rewrite Hst1, length_app; lia).
  rewrite Hst1, take_app_exact in H2 by done.
  destruct H2 as (-> & (_ & _ & _ & Ht2 & Hw2 & Hs2) & _). rewrite Hh.
  exists c2. split_and!; congruence.
Qed.

Lemma serve_request e h k payload c :
  handler_ e = Some h →
  let peer := AuthenticatePeer (platform e) k in
  Z.of_nat (length (h peer payload)) < 4294967296 →
  request e k payload (length (h peer payload)) c →
  ∃ c', ServeConnection e k c = (Returned (), [(peer, payload)], c') ∧
        sent c' = sent c ++ le_bytes 4 (Z.of_nat (length (h peer payload))) ++ h peer payload.
Proof.
  intros Hh peer Hr (Ha & Hok & Hlen & H32 & (rest & Hs) & Hw).
  destruct (serve_reads e h k payload c rest) as (c2 & Ht & _ & Hs2 & ->); [done..|].
  fold peer. destruct (write_reply_ok (h peer payload) c2) as (c3 & -> & Hs3); [done| |].
  { unfold write_ok. by rewrite Ht. }
  exists c3. split; [done|]. by rewrite Hs3, Hs2.
Qed.

(** A peer that is gone when the reply is written. *)
Lemma write_reply_sigpipe reply c :
  takes c = [] → write_end c = WSigpipe → write_reply reply c = (Killed, c).
Proof.
  intros Ht Hw. unfold write_reply, WriteExact. rewrite out_hdr_bytes. simpl.
  unfold sys_write. by rewrite Ht, Hw.
Qed.

(** The turns before the loop waits do not change what comes next. *)
Lemma AcceptLoop_prefix e before t turns :
  (AcceptLoop e before).1 = Returned Waiting →
  (AcceptLoop e (before ++ t :: turns)).1 = (AcceptLoop e (t :: turns)).1.
Proof.
  induction before as [|t0 before IH]; [done|]. intros Hb. cbn [app AcceptLoop] in Hb |- *.
  destruct (running_before t0); [|done].
  destruct (accepted t0) as [k0 c0|]; [|destruct (running_after t0); auto; done].
  destruct (ServeConnection e k0 c0) as [[[[]| |] calls] c1]; [|done..].
  destruct (AcceptLoop e before) as [r1 more1]. simpl in Hb. specialize (IH Hb).
  destruct (AcceptLoop e (before ++ t :: turns)) as [r2 more2]. exact IH.
Qed.

(** C34. A client that sends one frame of at most
    [max_message_bytes] and reads the answer gets exactly the framed reply of
    the handler to exactly its payload, however the kernel cuts the two byte
    streams into pieces; and a service that gets such clients one after the
    other calls the handler once per client, in order, and then waits for the
    next one. *)
Theorem ipc_request_reply e h clients :
  handler_ e = Some h →
  Forall (λ '(k, payload, c),
    let reply := h (AuthenticatePeer (platform e) k) payload in
    Z.of_nat (length reply) < 4294967296 ∧ request e k payload (length reply) c) clients →
  Forall (λ '(k, payload, c),
    let reply := h (AuthenticatePeer (platform e) k) payload in
    (ServeConnection e k c).1.1 = Returned () ∧
    sent (ServeConnection e k c).2 =
      sent c ++ le_bytes 4 (Z.of_nat (length reply)) ++ reply) clients ∧
  AcceptLoop e (map (λ '(k, _, c), {| running_before := true; accepted := AConn k c;
                                      running_after := true |}) clients) =
    (Returned Waiting,
     map (λ '(k, payload, _), (AuthenticatePeer (platform e) k, payload)) clients).
Proof.
  intros Hh. induction 1 as [|[[k payload] c] clients [Hr Hq] _ [IH1 IH2]]; [done|].
  destruct (serve_request e h k payload c Hh Hr Hq) as (c' & E & Hs). split.
  - constructor; [|done]. by rewrite E.
  - simpl. by rewrite E, IH2.
Qed.

(** One thread serves one client at a time without
    a timeout: after clients that are served to the end, a client that connects
    and sends less than a frame header, and stays, holds the accept thread for
    ever, whatever happens next, including [stop()] clearing [running_]; and
    one that sends a request and closes before the reply is written kills the
    process with SIGPIPE. *)
Theorem ipc_single_client_stalls e h k c before after :
  handler_ e = Some h →
  authenticated (AuthenticatePeer (platform e) k) = true → read_ok c →
  (AcceptLoop e before).1 = Returned Waiting →
  (length (stream c) < kFrameHeaderBytes)%nat → read_end c = Silent →
  (AcceptLoop e (before ++ {| running_before := true; accepted := AConn k c;
                              running_after := true |} :: after)).1 = Stuck ∧
  ∀ payload rest,
    1 ≤ Z.of_nat (length payload) ≤ max_message_bytes (config_ e) →
    Z.of_nat (length payload) < 4294967296 →
    (AcceptLoop e (before ++ {| running_before := true; running_after := true; accepted :=
       AConn k {| incoming := [le_bytes 4 (Z.of_nat (length payload)); payload];
                  read_end := Closed; takes := []; write_end := WSigpipe; sent := [] |} |}
       :: rest)).1 = Killed.
Proof.
  intros Hh Ha Hok Hb Hlen Hend. rewrite AcceptLoop_prefix by done. split.
  - cbn [AcceptLoop running_before accepted]. unfold ServeConnection. rewrite Ha.
    simpl negb. cbv iota.
    destruct (ReadExact_stream kFrameHeaderBytes c Hok) as [c1 H1].
    rewrite bool_decide_false in H1 by lia. by rewrite H1, Hend.
  - intros payload rest Hp H32. rewrite AcceptLoop_prefix by done.
    cbn [AcceptLoop running_before accepted]. set (c0 := {| incoming := _ |}).
    destruct (serve_reads e h k payload c0 []) as (c2 & Ht & Hw & _ & ->); [done..| | | | |].
    + repeat constructor; [done|]. intros ->. simpl in Hp. lia.
    + done.
    + done.
    + done.
    + by rewrite write_reply_sigpipe.
Qed.

Module Example.
Definition handler : IpcMessageHandler := λ _ payload, 255 :: rev payload.
Definition env : Env :=
  {| platform := Linux; config_ := Config_init; handler_ := Some handler |}.
Definition peer : Credentials :=
  {| so_peercred := Some (1000, 4242); local_peercred := None; local_peerpid := None |}.
(** The frame [3, 0, 0, 0, 7, 8, 9] in three pieces, the reply taken in two. *)
Definition conn : Conn :=
  {| incoming := [[3; 0]; [0; 0; 7]; [8; 9]]; read_end := Closed;
     takes := [5; 90]%nat; write_end := WFails; sent := [] |}.
Definition silent : Conn :=
  {| incoming := [[3; 0]]; read_end := Silent;
     takes := []; write_end := WFails; sent := [] |}.
End Example.

Lemma ipc_gate_witness :
  let '(r, calls, c') := ServeConnection Example.env Example.peer Example.conn in
  (calls = [] ∧ sent c' = [] ∧
   (authenticated (AuthenticatePeer Linux Example.peer) = false →
    c' = Example.conn ∧ r = Returned ())) ∨
  ∃ peer payload n,
    calls = [(peer, payload)] ∧ peer = AuthenticatePeer Linux Example.peer ∧
    authenticated peer = true ∧
    1 ≤ Z.of_nat (length payload) ≤ max_message_bytes Config_init ∧
    sent c' = [] ++ take n (le_bytes 4 (Z.of_nat (length (Example.handler peer payload))) ++
                            Example.handler peer payload).
Proof.
  destruct (ServeConnection Example.env Example.peer Example.conn) as [[r calls] c'] eqn:E.
  exact (ipc_gate Example.env Example.handler Example.peer Example.conn r calls c' eq_refl E).
Defined.

Lemma ipc_request_reply_witness :
  (AcceptLoop Example.env [{| running_before := true; running_after := true;
                              accepted := AConn Example.peer Example.conn |}]) =
  (Returned Waiting, [(AuthenticatePeer Linux Example.peer, [7; 8; 9])]).
Proof.
  refine (proj2 (ipc_request_reply Example.env Example.handler
    [(Example.peer, [7; 8; 9], Example.conn)] eq_refl _)).
  constructor; [|constructor]. split; [reflexivity|].
  unfold request, read_ok, write_ok. split_and!; try (vm_compute; congruence).
  - by repeat constructor.
  - exists []. reflexivity.
  - by repeat constructor.
  - vm_compute. lia.
Defined.

Lemma ipc_single_client_stalls_witness :
  (AcceptLoop Example.env
     [{| running_before := true; accepted := AConn Example.peer Example.conn;
         running_after := true |};
      {| running_before := true; accepted := AConn Example.peer Example.silent;
         running_after := true |};
      {| running_before := false; accepted := AFailed; running_after := false |}]).1 = Stuck.
Proof.
  refine (proj1 (ipc_single_client_stalls Example.env Example.handler Example.peer
    Example.silent [_] [_] eq_refl _ _ _ _ _)); try reflexivity.
  - by repeat constructor.
  - simpl. unfold kFrameHeaderBytes. lia.
Defined.

End Serve.

(** ** start and stop *)

Module Lifecycle.

(** The system calls the server makes ([CSpawn], [CJoin]: the accept thread). *)
Inductive Call :=
  | CSocket
  | CUnlink (path : string)
  | CBind (fd : Z) (path : string)
  | CChmod (path : string) (mode : Z)
  | CListen (fd backlog : Z)
  | CSpawn
  | CShutdown (fd : Z)
  | CClose (fd : Z)
  | CJoin.

#[export] Instance Call_eq_dec : EqDecision Call.
Proof. solve_decision. Defined.

(** [S_IRUSR | S_IWUSR]: 0600. *)
Definition mode_0600 : Z := Z.lor (Z.shiftl 4 6) (Z.shiftl 2 6).

(** The server object, with the calls it has made so far. *)
Record UdsIpcServer := {
  listen_fd_ : Z;
  accept_thread_ : bool;  (* joinable *)
  config_ : Config;
  handler_ : option IpcMessageHandler;
  endpoint_ : string;
  running_ : bool;
  calls : list Call;
}.

Definition CreateIpcServer : UdsIpcServer :=
  {| listen_fd_ := -1; accept_thread_ := false; config_ := Config_init; handler_ := None;
     endpoint_ := ""; running_ := false; calls := [] |}.

Definition set_config (cfg : Config) (h : option IpcMessageHandler) (s : UdsIpcServer)
    : UdsIpcServer :=
  {| listen_fd_ := listen_fd_ s; accept_thread_ := accept_thread_ s; config_ := cfg;
     handler_ := h; endpoint_ := endpoint cfg; running_ := running_ s; calls := calls s |}.

Definition set_listen_fd (fd : Z) (s : UdsIpcServer) : UdsIpcServer :=
  {| listen_fd_ := fd; accept_thread_ := accept_thread_ s; config_ := config_ s;
     handler_ := handler_ s; endpoint_ := endpoint_ s; running_ := running_ s;
     calls := calls s |}.

Definition set_accept_thread (b : bool) (s : UdsIpcServer) : UdsIpcServer :=
  {| listen_fd_ := listen_fd_ s; accept_thread_ := b; config_ := config_ s;
     handler_ := handler_ s; endpoint_ := endpoint_ s; running_ := running_ s;
     calls := calls s |}.

Definition set_running (b : bool) (s : UdsIpcServer) : UdsIpcServer :=
  {| listen_fd_ := listen_fd_ s; accept_thread_ := accept_thread_ s; config_ := config_ s;
     handler_ := handler_ s; endpoint_ := endpoint_ s; running_ := b; calls := calls s |}.

Definition push_call (c : Call) (s : UdsIpcServer) : UdsIpcServer :=
  {| listen_fd_ := listen_fd_ s; accept_thread_ := accept_thread_ s; config_ := config_ s;
     handler_ := handler_ s; endpoint_ := endpoint_ s; running_ := running_ s;
     calls := calls s ++ [c] |}.

Section os.
(** The operating system's answer to a call, after the calls before it, and
    [sizeof(addr.sun_path)]. *)
Context (os : list Call → Call → Z) (sizeof_sun_path : Z).

Definition sys (c : Call) : State UdsIpcServer Z :=
  λ s, (os (calls s) c, push_call c s).

Definition stop : State UdsIpcServer () :=
  modify (set_running false);;
  fd ← gets listen_fd_;
  when (0 <=? fd) (sys (CShutdown fd);; sys (CClose fd);; modify (set_listen_fd (-1)));;
  joinable ← gets accept_thread_;
  when joinable (sys CJoin;; modify (set_accept_thread false));;
  path ← gets endpoint_;
  when (negb (bool_decide (path = ""))) (sys (CUnlink path);; mret ()).

Definition stop_with (c : ErrorCode) (m : string) : State UdsIpcServer (option Status) :=
  stop;; mret (Some (error c m)).

(** The POSIX branch; [None]: [std::terminate], for [accept_thread_] is
    assigned while joinable. *)
Definition start (cfg : Config) (handler : option IpcMessageHandler)
    : State UdsIpcServer (option Status) :=
  modify (set_config cfg handler);;
  fd ← sys CSocket;
  modify (set_listen_fd fd);;
  if fd <? 0 then mret (Some (error Internal "socket() failed"))
  else
    path ← gets endpoint_;
    sys (CUnlink path);;
    if sizeof_sun_path <=? Z.of_nat (String.length path)
    then stop_with InvalidArgument ("UDS path too long: " +:+ path)
    else
      bound ← sys (CBind fd path);
      if negb (bound =? 0)
      then stop_with PermissionDenied ("bind() failed on " +:+ path)
      else
        locked ← sys (CChmod path mode_0600);
        if negb (locked =? 0)
        then stop_with PermissionDenied ("chmod 0600 failed on " +:+ path)
        else
          listening ← sys (CListen fd 4);
          if negb (listening =? 0) then stop_with Internal "listen() failed"
          else
            modify (set_running true);;
            joinable ← gets accept_thread_;
            if (joinable : bool) then mret None
            else sys CSpawn;; modify (set_accept_thread true);; mret (Some success).

(** A server that is not running: fresh, or stopped. *)
Definition idle (s : UdsIpcServer) : Prop :=
  listen_fd_ s = -1 ∧ accept_thread_ s = false ∧ running_ s = false.

(** The calls a successful [start] makes before it spawns the accept thread. *)
Definition script (fd : Z) (path : string) : list Call :=
  [CSocket; CUnlink path; CBind fd path; CChmod path mode_0600; CListen fd 4].

Definition unlink_calls (path : string) : list Call :=
  if bool_decide (path = "") then [] else [CUnlink path].

(** The answer to the [j]-th call of the script after the calls [base]. *)
Definition answer (base : list Call) (fd : Z) (path : string) (j : nat) : Z :=
  os (base ++ take j (script fd path)) (nth j (script fd path) CJoin).

(** The failure after [n] calls of the script. *)
Definition failure (n : nat) : ErrorCode :=
  match n with 2 => InvalidArgument | 5 => Internal | _ => PermissionDenied end%nat.

Lemma stop_calls s :
  calls (stop s).2 = calls s ++
    (if 0 <=? listen_fd_ s then [CShutdown (listen_fd_ s); CClose (listen_fd_ s)] else []) ++
    (if accept_thread_ s then [CJoin] else []) ++ unlink_calls (endpoint_ s) ∧
  endpoint_ (stop s).2 = endpoint_ s ∧
  listen_fd_ (stop s).2 = (if 0 <=? listen_fd_ s then -1 else listen_fd_ s) ∧
  accept_thread_ (stop s).2 = false ∧ running_ (stop s).2 = false.
Proof.
  unfold stop, unlink_calls, sys. run_state.
  destruct (0 <=? listen_fd_ s) eqn:E1; simpl; destruct (accept_thread_ s) eqn:E2; simpl;
    destruct (bool_decide (endpoint_ s = "")); simpl;
    rewrite <-?app_assoc; simpl; rewrite ?app_nil_r; done.
Qed.

Lemma stop_with_calls c m s fd path base n :
  listen_fd_ s = fd → 0 ≤ fd → accept_thread_ s = false → endpoint_ s = path →
  calls s = base ++ take n (script fd path) →
  (stop_with c m s).1 = Some (error c m) ∧
  idle (stop_with c m s).2 ∧
  calls (stop_with c m s).2 =
    base ++ take n (script fd path) ++ [CShutdown fd; CClose fd] ++ unlink_calls path.
Proof.
  intros Hfd Hpos Ht Hp Hcalls. pose proof (stop_calls s) as (Hc & He & Hl & Ha & Hr).
  unfold stop_with. rewrite state_bind_run. simpl.
  rewrite Hfd, Hp, (proj2 (Z.leb_le 0 fd)) in * by done. rewrite Ht in Hc. simpl in Hc.
  split; [done|]. split; [done|]. rewrite Hc, Hcalls, <-app_assoc. done.
Qed.
End os.

#[local] Arguments stop_with : simpl never.

Section outcomes.
Context (os : list Call → Call → Z) (sizeof_sun_path : Z).
(** The calls made before [start], its path and the socket it gets. *)
Context (base : list Call) (path : string) (fd : Z).

(** [start] succeeded in state [s']. *)
Definition started (s' : UdsIpcServer) : Prop :=
  0 ≤ fd ∧ Z.of_nat (String.length path) < sizeof_sun_path ∧
  (∀ j, (2 ≤ j < 5)%nat → answer os base fd path j = 0) ∧
  calls s' = base ++ script fd path ++ [CSpawn] ∧
  running_ s' = true ∧ listen_fd_ s' = fd ∧ accept_thread_ s' = true.

(** [start] gave up with [st] after [n] calls of the script. *)
Definition gave_up (n : nat) (st : Status) (s' : UdsIpcServer) : Prop :=
  (2 ≤ n ≤ 5)%nat ∧ 0 ≤ fd ∧ code st = failure n ∧ idle s' ∧
  (n = 2%nat → sizeof_sun_path ≤ Z.of_nat (String.length path)) ∧
  (∀ j, (2 ≤ j)%nat → (S j < n)%nat → answer os base fd path j = 0) ∧
  ((3 ≤ n)%nat → answer os base fd path (n - 1) ≠ 0) ∧
  calls s' = base ++ take n (script fd path) ++
             [CShutdown fd; CClose fd] ++ unlink_calls path.

(** All a [start] of an idle server can lead to. *)
Definition start_outcome (r : option Status) (s' : UdsIpcServer) : Prop :=
  ∃ st, r = Some st ∧
    ((st = success ∧ started s') ∨
     (fd < 0 ∧ code st = Internal ∧ running_ s' = false ∧ calls s' = base ++ [CSocket]) ∨
     (∃ n, gave_up n st s')).

Lemma stop_with_gave_up n m x r s' :
  stop_with os (failure n) m x = (r, s') →
  (2 ≤ n ≤ 5)%nat → 0 ≤ fd → listen_fd_ x = fd → accept_thread_ x = false →
  endpoint_ x = path → calls x = base ++ take n (script fd path) →
  (n = 2%nat → sizeof_sun_path ≤ Z.of_nat (String.length path)) →
  (∀ j, (2 ≤ j)%nat → (S j < n)%nat → answer os base fd path j = 0) →
  ((3 ≤ n)%nat → answer os base fd path (n - 1) ≠ 0) →
  start_outcome r s'.
Proof.
  intros Hstop [? ?] ? Hl Ht Hp Hc ? ? ?.
  destruct (stop_with_calls os (failure n) m x fd path base n) as (Hs1 & Hs2 & Hs3); [done..|].
  rewrite Hstop in Hs1, Hs2, Hs3. simpl in Hs1, Hs2, Hs3.
  eexists. split; [exact Hs1|].
  right. right. exists n. unfold gave_up. by split_and!.
Qed.
End outcomes.

(** The answers before step [n] of the script, one by one. *)
Lemma answers_below os base fd path n :
  (n ≤ 5)%nat →
  (∀ j, (2 ≤ j)%nat → (S j < n)%nat → answer os base fd path j = 0) ↔
  ((3 < n)%nat → answer os base fd path 2 = 0) ∧ ((4 < n)%nat → answer os base fd path 3 = 0).
Proof.
  intros Hn. split; [intros H; split; intros; apply H; lia|].
  intros [H2 H3] j ? ?. assert (j = 2%nat ∨ j = 3%nat) as [->| ->] by lia; auto with lia.
Qed.

(** The branch of [start] that stops after [n] calls of the script. *)
Ltac gave_up_after n :=
  match goal with
  | H : stop_with _ _ _ _ = (_, _) |- _ =>
      eapply (stop_with_gave_up _ _ _ _ _ n); [exact H|..]
  end;
  [ lia | done | done | done | done | simpl; by rewrite <-?app_assoc | lia || done
  | apply answers_below; [lia|]; split; done || lia | done || lia ].

(** [start] on a server that is not running, whatever
    the system answers: it makes a prefix of one fixed sequence of calls
    (socket, unlink, bind, chmod 0600, listen), and goes past bind, chmod and
    listen only if they answered 0, so no peer can connect before the endpoint
    is restricted to its owner. It reports success exactly when all did, and
    then the server runs; otherwise it reports the code of the step that
    failed, closes the socket it opened, starts no thread and is not running. *)
Theorem start_locks_endpoint os sizeof_sun_path cfg h s r s' :
  idle s → start os sizeof_sun_path cfg h s = (r, s') →
  start_outcome os sizeof_sun_path (calls s) (endpoint cfg) (os (calls s) CSocket) r s'.
Proof.
  destruct cfg as [path cap]. intros (Hl & Ht & Hr) Hstart. cbn [endpoint].
  unfold start, sys in Hstart. run_state. set (fd := os (calls s) CSocket) in *.
  destruct (Z.ltb_spec fd 0) as [Hneg|Hpos].
  { simplify_eq/=. eexists. split; [done|]. right. left. done. }
  simpl in Hstart. destruct (Z.leb_spec sizeof_sun_path (Z.of_nat (String.length path))).
  { gave_up_after 2%nat. }
  simpl in Hstart. rewrite <-app_assoc in Hstart.
  destruct (Z.eqb_spec (os (calls s ++ [CSocket] ++ [CUnlink path]) (CBind fd path)) 0)
    as [H2|H2]; simpl in Hstart; [|gave_up_after 3%nat].
  rewrite <-!app_assoc in Hstart.
  destruct (Z.eqb_spec (os (calls s ++ [CSocket] ++ [CUnlink path] ++ [CBind fd path])
    (CChmod path mode_0600)) 0) as [H3|H3]; simpl in Hstart; [|gave_up_after 4%nat].
  rewrite <-!app_assoc in Hstart.
  destruct (Z.eqb_spec (os (calls s ++ [CSocket] ++ [CUnlink path] ++ [CBind fd path] ++
    [CChmod path mode_0600]) (CListen fd 4)) 0) as [H4|H4]; simpl in Hstart;
    [|gave_up_after 5%nat].
  rewrite Ht in Hstart. simplify_eq/=. eexists. split; [done|]. left. split; [done|].
  split; [done|]. split; [done|]. split; [|split; [|by split_and!]].
  2: { simpl. by rewrite <-!app_assoc. }
  intros j Hj. assert (j = 2 ∨ j = 3 ∨ j = 4)%nat as [->|[->| ->]] by lia; done.
Qed.

(** [stop] in any state shuts the listening socket down and
    closes it if there is one, then waits for the accept thread if there is one,
    then unlinks the endpoint; the server then neither runs nor holds a socket
    or a thread. A further [stop] (the destructor calls it again) makes no call
    but unlinking the endpoint's path once more, whoever has bound it since. *)
Theorem stop_releases os s :
  let s1 := (stop os s).2 in
  calls s1 = calls s ++
    (if 0 <=? listen_fd_ s then [CShutdown (listen_fd_ s); CClose (listen_fd_ s)] else []) ++
    (if accept_thread_ s then [CJoin] else []) ++ unlink_calls (endpoint_ s) ∧
  listen_fd_ s1 < 0 ∧ accept_thread_ s1 = false ∧ running_ s1 = false ∧
  calls (stop os s1).2 = calls s1 ++ unlink_calls (endpoint_ s).
Proof.
  intros s1. pose proof (stop_calls os s) as (Hc & He & Hl & Ht & Hr).
  pose proof (stop_calls os s1) as (Hc1 & _). fold s1 in Hc, He, Hl, Ht, Hr.
  assert (listen_fd_ s1 < 0) as Hneg.
  { rewrite Hl. destruct (Z.leb_spec 0 (listen_fd_ s)); lia. }
  split_and!; try done.
  rewrite Hc1, Ht, He, (proj2 (Z.leb_gt 0 _)) by done. done.
Qed.

Lemma start_locks_endpoint_witness :
  let os := λ cs c, match c with CSocket => 3 | CListen _ _ => -1 | _ => 0 end in
  let cfg := {| endpoint := "/tmp/redesk-service.sock"; max_message_bytes := 1048576 |} in
  let '(r, s') := start os 108 cfg None CreateIpcServer in
  start_outcome os 108 [] "/tmp/redesk-service.sock" 3 r s'.
Proof.
  intros os cfg. destruct (start os 108 cfg None CreateIpcServer) as [r s'] eqn:E.
  refine (start_locks_endpoint os 108 cfg None CreateIpcServer r s' _ E).
  by split_and!.
Defined.

End Lifecycle.
