(* ===== verification/IpcStop.v ===== *)
(** * Stopping the IPC server while its thread runs
    (src/service/src/ipc_server.cpp)

    [UdsIpcServer::stop] runs on the caller's thread while [AcceptLoop] runs on
    another.  This is the machine of the two and of the clients: a step is one
    access to a shared member or one system call of one of the threads, or a
    client that connects, in any order.  The stopping thread works on the object
    of [IpcServer.Lifecycle], the accept thread takes the turns of
    [IpcServer.Serve.AcceptLoop].

    [accept] blocks.  On the listening socket it comes back with the client that
    has waited longest, or with a failure once the socket is shut down and no
    client waits; nothing else is sure to wake it, closing the descriptor from
    another thread in particular (this is what Linux does, and what [stop] relies
    on when it calls [shutdown] first).  A transient failure can occur at any
    time, but a thread that waits cannot count on it.  A step is [sure] if it
    comes without the help of a client or of such a failure. *)

From S2P Require Import Prelude Types IpcServer.
Import Socket Serve.

(** The stopping thread: before [stop], then before each of its actions. *)
Inductive MainPc := NotStopping | AtShutdown | AtClose | AtForget | AtJoin | AtUnlink | Stopped.

(** The accept thread: before the loop's test, before it reads [listen_fd_],
    before the call of [accept] on the number it has read, in the call (on the
    listening socket, or on another socket that has got its number), before the
    test after a failure, in [ServeConnection], past the loop; [Crashed]: SIGPIPE
    has ended the process. *)
Inductive AcceptPc :=
| AtWhile | AtLoad | AtAccept (d : Z) | InAccept (own : bool) | AtRecheck
| InServe (k : Credentials) (c : Conn) | Left | Crashed.

(** The listening socket and its number: shut down; the number closed; the number
    given to another listening socket after that ([accept] on any other file fails
    as on none); the clients that wait. *)
Record Listener := {
  shut : bool;
  closed : bool;
  reused : bool;
  pending : list (Credentials * Conn);
}.

Definition set_pending (ps : list (Credentials * Conn)) (l : Listener) : Listener :=
  {| shut := shut l; closed := closed l; reused := reused l; pending := ps |}.
Definition set_reused (l : Listener) : Listener :=
  {| shut := shut l; closed := closed l; reused := true; pending := pending l |}.

(** What a system call does to the socket with number [fd]. *)
Definition on_call (fd : Z) (c : Lifecycle.Call) (l : Listener) : Listener :=
  match c with
  | Lifecycle.CShutdown d =>
      if d =? fd then {| shut := true; closed := closed l; reused := reused l;
                         pending := pending l |} else l
  | Lifecycle.CClose d =>
      if d =? fd then {| shut := shut l; closed := true; reused := reused l;
                         pending := pending l |} else l
  | _ => l
  end.

(** [late] counts the clients accepted after [running_] was cleared. *)
Record Sys := {
  object : Lifecycle.UdsIpcServer;
  kernel : Listener;
  main_pc : MainPc;
  accept_pc : AcceptPc;
  turns : list Turn;
  handled : list HandlerCall;
  late : nat;
}.

Definition set_kernel (l : Listener) (s : Sys) : Sys :=
  {| object := object s; kernel := l; main_pc := main_pc s; accept_pc := accept_pc s;
     turns := turns s; handled := handled s; late := late s |}.

Definition main_to (pc : MainPc) (o : Lifecycle.UdsIpcServer) (s : Sys) : Sys :=
  {| object := o; kernel := kernel s; main_pc := pc; accept_pc := accept_pc s; turns := turns s;
     handled := handled s; late := late s |}.

Definition accept_to (pc : AcceptPc) (s : Sys) : Sys :=
  {| object := object s; kernel := kernel s; main_pc := main_pc s; accept_pc := pc;
     turns := turns s; handled := handled s; late := late s |}.

Definition take_turn (t : Turn) (calls : list HandlerCall) (s : Sys) : Sys :=
  {| object := object s; kernel := kernel s; main_pc := main_pc s; accept_pc := accept_pc s;
     turns := turns s ++ [t]; handled := handled s ++ calls; late := late s |}.

Definition count_late (s : Sys) : Sys :=
  {| object := object s; kernel := kernel s; main_pc := main_pc s; accept_pc := accept_pc s;
     turns := turns s; handled := handled s;
     late := if Lifecycle.running_ (object s) then late s else S (late s) |}.

Definition turn_failed (before after : bool) : Turn :=
  {| running_before := before; accepted := AFailed; running_after := after |}.

Section stop.
Context (e : Env).
(** A server that [start] has brought up. *)
Context (s0 : Lifecycle.UdsIpcServer).

Definition fd : Z := Lifecycle.listen_fd_ s0.

(** A system call of the stopping thread. *)
Definition main_call (pc : MainPc) (c : Lifecycle.Call) (s : Sys) : Sys :=
  set_kernel (on_call fd c (kernel s)) (main_to pc (Lifecycle.push_call c (object s)) s).

(** The stopping thread. *)
Inductive main_step (s : Sys) : Sys → Prop :=
| MFlag :
    main_pc s = NotStopping → 0 ≤ Lifecycle.listen_fd_ (object s) →
    main_step s (main_to AtShutdown (Lifecycle.set_running false (object s)) s)
| MShutdown :
    main_pc s = AtShutdown →
    main_step s (main_call AtClose
      (Lifecycle.CShutdown (Lifecycle.listen_fd_ (object s))) s)
| MClose :
    main_pc s = AtClose →
    main_step s (main_call AtForget
      (Lifecycle.CClose (Lifecycle.listen_fd_ (object s))) s)
| MForget :
    main_pc s = AtForget →
    main_step s (main_to AtJoin (Lifecycle.set_listen_fd (-1) (object s)) s)
| MJoin :
    main_pc s = AtJoin → accept_pc s = Left →
    main_step s (main_to AtUnlink
      (Lifecycle.set_accept_thread false (Lifecycle.push_call Lifecycle.CJoin (object s))) s)
| MUnlink :
    main_pc s = AtUnlink →
    main_step s (if bool_decide (Lifecycle.endpoint_ (object s) = "")
                 then main_to Stopped (object s) s
                 else main_call Stopped (Lifecycle.CUnlink (Lifecycle.endpoint_ (object s))) s).

(** The accept thread; the flag says whether the step is sure. *)
Inductive accept_step (s : Sys) : bool → Sys → Prop :=
| AEnter :
    accept_pc s = AtWhile → Lifecycle.running_ (object s) = true →
    accept_step s true (accept_to AtLoad s)
| ALeave :
    accept_pc s = AtWhile → Lifecycle.running_ (object s) = false →
    accept_step s true (take_turn (turn_failed false false) [] (accept_to Left s))
| ALoad :
    accept_pc s = AtLoad →
    accept_step s true (accept_to (AtAccept (Lifecycle.listen_fd_ (object s))) s)
| ACall :
    accept_pc s = AtAccept fd → closed (kernel s) = false →
    accept_step s true (accept_to (InAccept true) s)
| ACallReused :
    accept_pc s = AtAccept fd → closed (kernel s) = true → reused (kernel s) = true →
    accept_step s true (accept_to (InAccept false) s)
| ACallBad d :
    accept_pc s = AtAccept d →
    d ≠ fd ∨ (closed (kernel s) = true ∧ reused (kernel s) = false) →
    accept_step s true (accept_to AtRecheck s)
| AConnection k c ps :
    accept_pc s = InAccept true → pending (kernel s) = (k, c) :: ps →
    accept_step s true
      (count_late (set_kernel (set_pending ps (kernel s)) (accept_to (InServe k c) s)))
| AWoken :
    accept_pc s = InAccept true → pending (kernel s) = [] → shut (kernel s) = true →
    accept_step s true (accept_to AtRecheck s)
| ATransient own :
    accept_pc s = InAccept own →
    accept_step s false (accept_to AtRecheck s)
| AForeign k c :
    accept_pc s = InAccept false →
    accept_step s false (count_late (accept_to (InServe k c) s))
| AAgain :
    accept_pc s = AtRecheck → Lifecycle.running_ (object s) = true →
    accept_step s true (take_turn (turn_failed true true) [] (accept_to AtWhile s))
| ABreak :
    accept_pc s = AtRecheck → Lifecycle.running_ (object s) = false →
    accept_step s true (take_turn (turn_failed true false) [] (accept_to Left s))
| AServed k c calls c' :
    accept_pc s = InServe k c → ServeConnection e k c = (Returned (), calls, c') →
    accept_step s true
      (take_turn {| running_before := true; accepted := AConn k c;
                    running_after := Lifecycle.running_ (object s) |} calls
         (accept_to AtWhile s))
| AKilled k c calls c' :
    accept_pc s = InServe k c → ServeConnection e k c = (Killed, calls, c') →
    accept_step s true (accept_to Crashed s).

(** A client connects while the socket listens; the number of a closed socket is
    given to another listening one. *)
Inductive world_step (s : Sys) : Sys → Prop :=
| WConnect k c :
    shut (kernel s) = false → closed (kernel s) = false →
    world_step s (set_kernel (set_pending (pending (kernel s) ++ [(k, c)]) (kernel s)) s)
| WReuse :
    closed (kernel s) = true → world_step s (set_kernel (set_reused (kernel s)) s).

(** A step of one of the two threads. *)
Definition thread_step (sure : bool) (s s' : Sys) : Prop :=
  accept_step s sure s' ∨ (sure = true ∧ accept_pc s ≠ Crashed ∧ main_step s s').

(** Executions, by the number of steps the threads take. *)
Inductive runs : nat → Sys → Sys → Prop :=
| runs_none s : runs 0 s s
| runs_thread n sure s1 s2 s3 : thread_step sure s1 s2 → runs n s2 s3 → runs (S n) s1 s3
| runs_world n s1 s2 s3 : world_step s1 s2 → runs n s2 s3 → runs n s1 s3.

Definition Sys_init : Sys :=
  {| object := s0; kernel := {| shut := false; closed := false; reused := false; pending := [] |};
     main_pc := NotStopping; accept_pc := AtWhile; turns := []; handled := []; late := 0 |}.

(** ** The invariant *)

(** The object when the stopping thread has come to [pc]. *)
Definition object_at (pc : MainPc) : Lifecycle.UdsIpcServer :=
  let flagged := Lifecycle.set_running false s0 in
  let shut := Lifecycle.push_call (Lifecycle.CShutdown fd) flagged in
  let closed := Lifecycle.push_call (Lifecycle.CClose fd) shut in
  let forgotten := Lifecycle.set_listen_fd (-1) closed in
  let joined := Lifecycle.set_accept_thread false
                  (Lifecycle.push_call Lifecycle.CJoin forgotten) in
  match pc with
  | NotStopping => s0
  | AtShutdown => flagged
  | AtClose => shut
  | AtForget => closed
  | AtJoin => forgotten
  | AtUnlink => joined
  | Stopped => if bool_decide (Lifecycle.endpoint_ s0 = "") then joined
               else Lifecycle.push_call (Lifecycle.CUnlink (Lifecycle.endpoint_ s0)) joined
  end.

Definition shut_at (pc : MainPc) : bool :=
  match pc with NotStopping | AtShutdown => false | _ => true end.
Definition closed_at (pc : MainPc) : bool :=
  match pc with NotStopping | AtShutdown | AtClose => false | _ => true end.

(** The client the accept thread may still get when [running_] is cleared. *)
Definition may_accept (pc : AcceptPc) : nat :=
  match pc with AtLoad | AtAccept _ | InAccept _ => 1 | _ => 0 end.

Definition is_left (pc : AcceptPc) : bool := match pc with Left => true | _ => false end.
Definition stopping (pc : MainPc) : bool := match pc with NotStopping => false | _ => true end.

Record inv (s : Sys) : Prop := {
  inv_object : object s = object_at (main_pc s);
  inv_shut : shut (kernel s) = shut_at (main_pc s);
  inv_closed : closed (kernel s) = closed_at (main_pc s);
  inv_joined : main_pc s = AtUnlink ∨ main_pc s = Stopped → accept_pc s = Left;
  inv_left : accept_pc s = Left → stopping (main_pc s) = true;
  inv_loop : AcceptLoop e (turns s) =
    (Returned (if is_left (accept_pc s) then Exited else Waiting), handled s);
  inv_late : if stopping (main_pc s) then (late s + may_accept (accept_pc s) ≤ 1)%nat
             else late s = 0%nat;
}.

Lemma AcceptLoop_snoc ts t hs :
  AcceptLoop e ts = (Returned Waiting, hs) →
  AcceptLoop e (ts ++ [t]) = let '(r, more) := AcceptLoop e [t] in (r, hs ++ more).
Proof.
  destruct (AcceptLoop e [t]) as [r1 more1] eqn:Et.
  revert hs. induction ts as [|t0 ts IH]; intros hs.
  { intros [= <-]. exact Et. }
  cbn [app AcceptLoop]. destruct (running_before t0); [|done].
  destruct (accepted t0) as [k c|]; [|by destruct (running_after t0); simpl; [apply IH|]].
  destruct (ServeConnection e k c) as [[[[]| |] calls] c']; [|done..].
  destruct (AcceptLoop e ts) as [r more] eqn:E. intros [= -> <-].
  rewrite (IH more) by done. by rewrite app_assoc.
Qed.

Context (Hrun : Lifecycle.running_ s0 = true).

Lemma running_at pc : Lifecycle.running_ (object_at pc) = negb (stopping pc).
Proof. destruct pc; simpl; try done. by case_bool_decide. Qed.

Lemma listen_fd_at pc :
  match pc with AtJoin | AtUnlink | Stopped => True
  | _ => Lifecycle.listen_fd_ (object_at pc) = fd end.
Proof. by destruct pc. Qed.

Lemma main_step_inv s s' : accept_pc s ≠ Crashed → main_step s s' → inv s → inv s'.
Proof.
  intros Hc Hs [Ho Hk Hcl Hj Hl Hloop Hlate]. pose proof (listen_fd_at (main_pc s)) as Hfd.
  rewrite <-Ho in Hfd.
  destruct Hs as [E|E|E|E|E El|E]; rewrite E in *.
  6: { rewrite Ho. change (Lifecycle.endpoint_ (object_at AtUnlink)) with (Lifecycle.endpoint_ s0).
       destruct (bool_decide (Lifecycle.endpoint_ s0 = "")) eqn:Hep; constructor; simpl in *;
         rewrite ?Hep; try done; rewrite ?Ho; try done; intros _; apply Hj; by left. }
  all: constructor; simpl in *; rewrite ?Hfd, ?Z.eqb_refl; simpl; rewrite ?Ho;
    try done; try (intros [|]; done).
  rewrite Hlate. destruct (accept_pc s); simpl; lia.
Qed.

Lemma accept_step_inv s sure s' : accept_step s sure s' → inv s → inv s'.
Proof.
  intros Hs [Ho Hk Hcl Hj Hl Hloop Hlate].
  assert (Hr := running_at (main_pc s)). rewrite <-Ho in Hr.
  assert (main_pc s = AtUnlink ∨ main_pc s = Stopped → is_left (accept_pc s) = true) as Hj'.
  { intros H. by rewrite Hj. }
  destruct Hs;
    repeat match goal with
    | H : accept_pc _ = _ |- _ => rewrite H in *; clear H
    | H : Lifecycle.running_ _ = _ |- _ => rewrite H in *
    end; simpl in *; constructor; simpl; try done; try (by intros ?%Hj').
  all: try (rewrite (AcceptLoop_snoc _ _ _ Hloop); simpl;
            repeat match goal with H : ServeConnection _ _ _ = _ |- _ => rewrite H end;
            rewrite ?app_nil_r; done).
  all: destruct (stopping (main_pc s)), (Lifecycle.running_ (object s)); simpl in *; done || lia.
Qed.

Lemma world_step_inv s s' : world_step s s' → inv s → inv s'.
Proof. by intros [] []. Qed.

Lemma thread_step_inv sure s s' : thread_step sure s s' → inv s → inv s'.
Proof. intros [Hs|(_ & Hc & Hs)]; [by eapply accept_step_inv|by apply main_step_inv]. Qed.

Lemma runs_inv n s s' : runs n s s' → inv s → inv s'.
Proof.
  induction 1 as [|n sure s1 s2 s3 Hs _ IH|n s1 s2 s3 Hs _ IH]; [done|..]; intros Hi; apply IH.
  - by eapply thread_step_inv.
  - by eapply world_step_inv.
Qed.

Lemma reachable_inv n s : runs n Sys_init s → inv s.
Proof.
  intros Hs. apply (runs_inv _ _ _ Hs). by constructor; simpl; try (intros [|]; done).
Qed.

(** ** Stopping ends *)

(** The steps left to each thread once [running_] is cleared. *)
Definition main_left (pc : MainPc) : nat :=
  match pc with
  | NotStopping => 6 | AtShutdown => 5 | AtClose => 4 | AtForget => 3 | AtJoin => 2
  | AtUnlink => 1 | Stopped => 0
  end.
Definition accept_left (pc : AcceptPc) : nat :=
  match pc with
  | AtLoad => 5 | AtAccept _ => 4 | InAccept _ => 3 | InServe _ _ => 2 | AtWhile | AtRecheck => 1
  | Left | Crashed => 0
  end.
Definition steps_left (s : Sys) : nat := main_left (main_pc s) + accept_left (accept_pc s).

Lemma step_left sure s s' :
  inv s → stopping (main_pc s) = true → thread_step sure s s' →
  stopping (main_pc s') = true ∧ (steps_left s' < steps_left s)%nat.
Proof.
  intros Hi Hst Hs. assert (Lifecycle.running_ (object s) = false) as Hr.
  { by rewrite (inv_object s Hi), running_at, Hst. }
  unfold steps_left.
  destruct Hs as [[]|(_ & _ & [])]; try case_bool_decide; simpl; try congruence;
    repeat match goal with
    | H : main_pc _ = _ |- _ => rewrite H in *; clear H
    | H : accept_pc _ = _ |- _ => rewrite H in *; clear H
    end; simpl in *; (done || (split; [done|lia])).
Qed.

Lemma runs_bounded n s s' :
  runs n s s' → inv s → stopping (main_pc s) = true → (n ≤ steps_left s)%nat.
Proof.
  induction 1 as [s|n sure s1 s2 s3 Hs _ IH|n s1 s2 s3 Hs _ IH]; intros Hi Hst; [lia|..].
  - destruct (step_left sure s1 s2 Hi Hst Hs) as [Hst2 Hlt].
    specialize (IH (thread_step_inv sure s1 s2 Hs Hi) Hst2). lia.
  - specialize (IH (world_step_inv s1 s2 Hs Hi)). by destruct Hs; apply IH.
Qed.

(** Where the accept thread cannot go on by itself. *)
Definition accept_waits (s : Sys) : Prop :=
  (accept_pc s = InAccept true ∧ pending (kernel s) = [] ∧ shut (kernel s) = false) ∨
  accept_pc s = InAccept false ∨
  ∃ k c, accept_pc s = InServe k c ∧ (ServeConnection e k c).1.1 = Stuck.

Lemma accept_thread_moves s :
  accept_pc s = Left ∨ accept_pc s = Crashed ∨ accept_waits s ∨ ∃ s', accept_step s true s'.
Proof.
  unfold accept_waits. destruct (accept_pc s) as [| |d|[]| |k c| |] eqn:E; auto 6.
  - do 3 right. destruct (Lifecycle.running_ (object s)) eqn:R; eauto using accept_step.
  - do 3 right. eauto using accept_step.
  - do 3 right. destruct (decide (d = fd)) as [->|]; [|eauto using accept_step].
    destruct (closed (kernel s)) eqn:Ec, (reused (kernel s)) eqn:Er; eauto 7 using accept_step.
  - destruct (pending (kernel s)) as [|[k c] ps] eqn:Ep; [|do 3 right; eauto using accept_step].
    destruct (shut (kernel s)) eqn:Es; [do 3 right; eauto using accept_step|].
    right; right; left; left. done.
  - do 3 right. destruct (Lifecycle.running_ (object s)) eqn:R; eauto using accept_step.
  - destruct (ServeConnection e k c) as [[[[]| |] calls] c'] eqn:Sv.
    + do 3 right. eauto using accept_step.
    + right; right; left. right; right. exists k, c. by rewrite Sv.
    + do 3 right. eauto using accept_step.
Qed.

Lemma accept_waits_stays s s' : accept_waits s → ¬ accept_step s true s'.
Proof.
  intros Hw Hs. destruct Hw as [(Ha & Hp & Hk)|[Ha|(k & c & Ha & Hk)]];
    inversion Hs; try congruence.
  all: assert (InServe k0 c0 = InServe k c) as [= -> ->] by congruence.
  all: match goal with H : ServeConnection _ _ _ = _ |- _ => by rewrite H in Hk end.
Qed.

Lemma main_thread_moves s :
  stopping (main_pc s) = true →
  main_pc s = Stopped ∨ (main_pc s = AtJoin ∧ accept_pc s ≠ Left) ∨ ∃ s', main_step s s'.
Proof.
  intros Hst. destruct (main_pc s) eqn:E; try done; eauto using main_step.
  destruct (accept_pc s) eqn:Ea; eauto using main_step.
Qed.

(** Where the two threads halt. *)
Definition halted (s : Sys) : Prop :=
  main_pc s = Stopped ∨ accept_pc s = Crashed ∨
  (main_pc s = AtJoin ∧
   (accept_pc s = InAccept false ∨
    ∃ k c, accept_pc s = InServe k c ∧ (ServeConnection e k c).1.1 = Stuck)).

Lemma moves_or_halted s :
  inv s → stopping (main_pc s) = true → halted s ∨ ∃ s', thread_step true s s'.
Proof.
  intros Hi Hst. unfold halted.
  destruct (accept_thread_moves s) as [Ha|[Ha|[Ha|[s' Ha]]]];
    [|by left; right; left| |by right; exists s'; left].
  all: destruct (main_thread_moves s Hst) as [Hm|[[Hm Hn]|[s' Hm]]]; [by left; left|try done| ].
  - right. exists s'. right. by rewrite Ha.
  - left. right; right. split; [done|]. destruct Ha as [(_ & _ & Hk)|Ha]; [|exact Ha].
    by rewrite (inv_shut s Hi), Hm in Hk.
  - right. exists s'. right. split; [done|]. split; [|done].
    destruct Ha as [(-> & _)|[->|(k & c & -> & _)]]; done.
Qed.

Lemma stuck_halted s :
  inv s → stopping (main_pc s) = true → (∀ s', ¬ thread_step true s s') ↔ halted s.
Proof.
  intros Hi Hst. split.
  - intros Hno. destruct (moves_or_halted s Hi Hst) as [|[s' Hs]]; [done|]. by destruct (Hno s').
  - intros Hh s' [Hs|(_ & Hc & Hs)].
    + destruct Hh as [Hm|[Ha|[_ Hw]]].
      * pose proof (inv_joined s Hi (or_intror Hm)). inversion Hs; congruence.
      * inversion Hs; congruence.
      * eapply accept_waits_stays; [|exact Hs]. by right.
    + destruct Hh as [Hm|[Ha|[Hm Hw]]]; [|done|]; inversion Hs; try congruence.
      destruct Hw as [Hw|(k & c & Hw & _)]; congruence.
Qed.

(** By sure steps alone the threads come to a halt. *)
Lemma halts s :
  inv s → stopping (main_pc s) = true → ∃ s', rtc (thread_step true) s s' ∧ halted s'.
Proof.
  induction s as [s IH] using (induction_ltof1 _ steps_left). unfold ltof in IH.
  intros Hi Hst. destruct (moves_or_halted s Hi Hst) as [Hh|[s1 Hs]].
  { by exists s. }
  destruct (step_left true s s1 Hi Hst Hs) as [Hst1 Hlt].
  destruct (IH s1 Hlt (thread_step_inv _ _ _ Hs Hi) Hst1) as (s2 & Hr & Hh).
  exists s2. split; [by eapply rtc_l|done].
Qed.
End stop.

Lemma object_stopped os s0 :
  0 ≤ Lifecycle.listen_fd_ s0 → Lifecycle.accept_thread_ s0 = true →
  object_at s0 Stopped = (Lifecycle.stop os s0).2.
Proof.
  intros Hfd Hj. unfold Lifecycle.stop, Lifecycle.sys, fd. run_state.
  rewrite (proj2 (Z.leb_le _ _) Hfd). simpl. rewrite Hj. simpl.
  by case_bool_decide.
Qed.

(** C36. [stop] against a running accept thread, in every
    interleaving with it and with the clients.  Once it has cleared [running_],
    the two threads together make at most ten more steps and at most one more
    client is accepted.  As long as they have not come to a halt one of them can
    go on by itself, needing no client and no failure: the [shutdown] wakes the
    thread when it waits in [accept].  They halt exactly when [stop] has
    returned, or SIGPIPE has ended the process, or [stop] waits in [join] for a
    thread that a silent client holds, or that is in [accept] on another socket,
    which was given the number [stop] had closed; and a halt is always reached.
    When [stop] returns, the socket is shut down and closed, the object is as
    [Lifecycle.stop] leaves it, and the thread has run [AcceptLoop] to its end on
    the turns it took. *)
Theorem stop_interleaved e os s0 m s :
  Lifecycle.running_ s0 = true → 0 ≤ Lifecycle.listen_fd_ s0 →
  Lifecycle.accept_thread_ s0 = true →
  runs e s0 m (Sys_init s0) s → stopping (main_pc s) = true →
  (∀ n s', runs e s0 n s s' → (n ≤ 10)%nat) ∧
  (late s ≤ 1)%nat ∧
  ((∀ s', ¬ thread_step e s0 true s s') ↔ halted e s) ∧
  (∃ s', rtc (thread_step e s0 true) s s' ∧ halted e s') ∧
  (main_pc s = Stopped →
     accept_pc s = Left ∧ shut (kernel s) = true ∧ closed (kernel s) = true ∧
     object s = (Lifecycle.stop os s0).2 ∧
     AcceptLoop e (turns s) = (Returned Exited, handled s)).
Proof.
  intros Hrun Hfd Hjoin Hs Hst. pose proof (reachable_inv e s0 Hrun m s Hs) as Hi.
  split; [|split; [|split; [|split]]].
  - intros n s' Hn. pose proof (runs_bounded e s0 Hrun n s s' Hn Hi Hst) as Hb.
    unfold steps_left in Hb. destruct (main_pc s), (accept_pc s); simpl in *; done || lia.
  - pose proof (inv_late e s0 s Hi) as Hl. rewrite Hst in Hl. lia.
  - by apply stuck_halted.
  - by apply halts.
  - intros Hm. rewrite (inv_shut e s0 s Hi), (inv_closed e s0 s Hi), Hm.
    pose proof (inv_joined e s0 s Hi (or_intror Hm)) as Ha. split_and!; try done.
    + rewrite (inv_object e s0 s Hi), Hm. by apply object_stopped.
    + rewrite (inv_loop e s0 s Hi). by rewrite Ha.
Qed.

(** Apply a step of one of the threads in an execution that is built forwards. *)
Ltac accept_does c := eapply runs_thread; [left; by eapply c|].
Ltac main_does c := eapply runs_thread; [right; split; [done|split; [done|by eapply c]]|].

(** [accept] blocks: until a client comes, or [stop] gets to its [shutdown], no
    step of the accept thread is sure. *)
Lemma accept_blocks e s0 :
  Lifecycle.running_ s0 = true →
  ∃ n s, runs e s0 n (Sys_init s0) s ∧ accept_pc s = InAccept true ∧
    ∀ s', ¬ accept_step e s0 s true s'.
Proof.
  intros Hrun. eexists _, _. split; [|split].
  - accept_does AEnter. accept_does ALoad. accept_does ACall. apply runs_none.
  - done.
  - intros s'. apply accept_waits_stays. by left.
Qed.

(** The descriptor is shared without synchronisation: the accept thread can be
    about to read [listen_fd_] when [stop] is about to write it; it can call
    [accept] on a number that [stop] has closed; and if that number has been given
    to another listening socket in between, [stop] waits in [join] for a client
    of that socket. *)
Lemma listen_fd_race e s0 :
  Lifecycle.running_ s0 = true → 0 ≤ Lifecycle.listen_fd_ s0 →
  (∃ n s, runs e s0 n (Sys_init s0) s ∧ main_pc s = AtForget ∧ accept_pc s = AtLoad) ∧
  (∃ n s, runs e s0 n (Sys_init s0) s ∧ closed (kernel s) = true ∧
     accept_pc s = AtAccept (fd s0)) ∧
  (∃ n s, runs e s0 n (Sys_init s0) s ∧ main_pc s = AtJoin ∧ accept_pc s = InAccept false ∧
     ∀ s', ¬ thread_step e s0 true s s').
Proof.
  intros Hrun Hfd. split; [|split].
  - eexists _, _. split; [|split].
    + accept_does AEnter. main_does MFlag. main_does MShutdown. main_does MClose. apply runs_none.
    + done.
    + done.
  - eexists _, _. split; [|split].
    + accept_does AEnter. accept_does ALoad.
      main_does MFlag. main_does MShutdown. main_does MClose. apply runs_none.
    + simpl. by rewrite Z.eqb_refl.
    + done.
  - eexists _, _. split; [|split; [|split]].
    + accept_does AEnter. accept_does ALoad.
      main_does MFlag. main_does MShutdown. main_does MClose. main_does MForget.
      eapply runs_world; [apply WReuse; simpl; by rewrite Z.eqb_refl|].
      eapply runs_thread; [left; apply ACallReused; simpl; by rewrite ?Z.eqb_refl|]. apply runs_none.
    + done.
    + done.
    + intros s' [Hs|(_ & _ & Hs)]; [|by inversion Hs].
      revert Hs. apply accept_waits_stays. right. by left.
Qed.

Module Sample.

(** Every call succeeds, the socket has number 7. *)
Definition os (_ : list Lifecycle.Call) (c : Lifecycle.Call) : Z :=
  match c with Lifecycle.CSocket => 7 | _ => 0 end.
Definition server : Lifecycle.UdsIpcServer :=
  (Lifecycle.start os 108 Example.env.(config_) (Some Example.handler)
     Lifecycle.CreateIpcServer).2.

End Sample.

(** [stop] while the thread waits in [accept], and is woken. *)
Lemma stop_interleaved_witness :
  ∃ n s, runs Example.env Sample.server n (Sys_init Sample.server) s ∧
    main_pc s = Stopped ∧ accept_pc s = Left ∧
    object s = (Lifecycle.stop Sample.os Sample.server).2 ∧
    Lifecycle.running_ Sample.server = true.
Proof.
  assert (∃ n s, runs Example.env Sample.server n (Sys_init Sample.server) s ∧
    main_pc s = Stopped) as (n & s & Hs & Hm).
  { eexists _, _. split.
    - accept_does AEnter. accept_does ALoad. accept_does ACall.
      main_does MFlag. main_does MShutdown. main_does MClose. main_does MForget.
      accept_does AWoken. accept_does ABreak. main_does MJoin. main_does MUnlink. apply runs_none.
    - done. }
  destruct (stop_interleaved Example.env Sample.os Sample.server n s eq_refl ltac:(done) eq_refl Hs
    ltac:(by rewrite Hm)) as (_ & _ & _ & _ & Hend).
  destruct (Hend Hm) as (Ha & _ & _ & Ho & _). by exists n, s.
Defined.
