(* ===== verification/EngineContracts.v ===== *)
(** * What the service asks of the engine (src/service/src/engine_contracts.h)

    The interfaces through which main.cpp drives the pipeline, one class each:
    the state of an implementation is the type, a method of a C++ class is a
    function of it that returns the new state.  A second class gives what the
    daemon relies on.  [Logged] is an implementation with a record of its calls,
    so that theorems can speak of what passed between any implementations. *)

From S2P Require Import Prelude Types.

(** ** The data *)

Record EncoderConfig := { resolution : Size; target_bitrate_bps : Z; framerate : Z }.

Definition EncoderConfig_init : EncoderConfig :=
  {| resolution := {| width := 0; height := 0 |}; target_bitrate_bps := 8000000;
     framerate := 60 |}.

Record KeyEvent := { scancode : Z; down : bool }.
Definition KeyEvent_init : KeyEvent := {| scancode := 0; down := false |}.
Record PointerEvent := { x : Z; y : Z; absolute : bool }.
Definition PointerEvent_init : PointerEvent := {| x := 0; y := 0; absolute := true |}.

(** ** The interfaces *)

Class ICapturer (C : Type) := {
  ICapturer_start : Z → C → Status * C;
  ICapturer_stop : C → C;
  ICapturer_next_frame : C → Result VideoFrame * C;
}.

(** [None] of [encode]: the implementation leaves the language. *)
Class IVideoEncoder (E : Type) := {
  IVideoEncoder_configure : EncoderConfig → E → Status * E;
  IVideoEncoder_encode : VideoFrame → E → option (Result EncodedPacket * E);
  IVideoEncoder_codec_name : E → string;
}.

Class IInputInjector (I : Type) := {
  IInputInjector_inject_pointer : PointerEvent → I → Status * I;
  IInputInjector_inject_key : KeyEvent → I → Status * I;
}.

Class IKeyStore (K : Type) := {
  IKeyStore_device_fingerprint : K → Result string * K;
}.

Class ITransport (T : Type) := {
  ITransport_start : T → Status * T;
  ITransport_stop : T → T;
  ITransport_send_video : EncodedPacket → T → Status * T;
  ITransport_bytes_sent : T → Z;
}.

(** ** What the daemon relies on: stopping stops, and the encoder takes every
    frame the capturer delivers *)

Class CapturerContract (C : Type) `{ICapturer C} := {
  capturer_running : C → bool;
  capturer_stopped c : capturer_running (ICapturer_stop c) = false;
}.

Class TransportContract (T : Type) `{ITransport T} := {
  transport_running : T → bool;
  transport_stopped t : transport_running (ITransport_stop t) = false;
}.

Class PipelineContract (C E : Type) `{ICapturer C, IVideoEncoder E} := {
  frames_encodable c e :
    Result_ok (ICapturer_next_frame c).1 = true →
    is_Some (IVideoEncoder_encode (value (ICapturer_next_frame c).1) e);
}.

(** ** Implementations that keep a record *)

Record Logged (X A : Type) := { inner : X; log : list A }.
Arguments inner {X A}.
Arguments log {X A}.

Definition logged {X A} (x : X) : Logged X A := {| inner := x; log := [] |}.
Definition keep {X A} (x : X) (l : Logged X A) : Logged X A := {| inner := x; log := log l |}.
Definition record {X A} (x : X) (a : A) (l : Logged X A) : Logged X A :=
  {| inner := x; log := log l ++ [a] |}.

(** The results of [next_frame]. *)
#[export] Instance logged_capturer {C} `{ICapturer C} : ICapturer (Logged C (Result VideoFrame)) := {
  ICapturer_start i l := let '(st, c) := ICapturer_start i (inner l) in (st, keep c l);
  ICapturer_stop l := keep (ICapturer_stop (inner l)) l;
  ICapturer_next_frame l :=
    let '(r, c) := ICapturer_next_frame (inner l) in (r, record c r l);
}.

(** The frames given to [encode], with the results. *)
#[export] Instance logged_encoder {E} `{IVideoEncoder E} :
    IVideoEncoder (Logged E (VideoFrame * Result EncodedPacket)) := {
  IVideoEncoder_configure cfg l :=
    let '(st, e) := IVideoEncoder_configure cfg (inner l) in (st, keep e l);
  IVideoEncoder_encode f l :=
    '(r, e) ← IVideoEncoder_encode f (inner l); Some (r, record e (f, r) l);
  IVideoEncoder_codec_name l := IVideoEncoder_codec_name (inner l);
}.

(** The packets given to [send_video], with the results. *)
#[export] Instance logged_transport {T} `{ITransport T} :
    ITransport (Logged T (EncodedPacket * Status)) := {
  ITransport_start l := let '(st, t) := ITransport_start (inner l) in (st, keep t l);
  ITransport_stop l := keep (ITransport_stop (inner l)) l;
  ITransport_send_video pkt l :=
    let '(st, t) := ITransport_send_video pkt (inner l) in (st, record t (pkt, st) l);
  ITransport_bytes_sent l := ITransport_bytes_sent (inner l);
}.

#[export] Instance logged_capturer_contract {C} `{CapturerContract C} :
  CapturerContract (Logged C (Result VideoFrame)).
Proof. refine {| capturer_running l := capturer_running (inner l) |}. intros c. apply capturer_stopped. Defined.

#[export] Instance logged_transport_contract {T} `{TransportContract T} :
  TransportContract (Logged T (EncodedPacket * Status)).
Proof. refine {| transport_running l := transport_running (inner l) |}. intros t. apply transport_stopped. Defined.

#[export] Instance logged_pipeline_contract {C E} `{PipelineContract C E} :
  PipelineContract (Logged C (Result VideoFrame)) (Logged E (VideoFrame * Result EncodedPacket)).
Proof.
  constructor. intros c e. simpl.
  destruct (ICapturer_next_frame (inner c)) as [r c'] eqn:Ec. simpl. intros Hr.
  pose proof (frames_encodable (inner c) (inner e)) as Hf. rewrite Ec in Hf. simpl in Hf.
  destruct (Hf Hr) as [[p e'] ->]. by eexists.
Qed.
