(* ===== verification/ServiceEngine.v ===== *)
(** * The service daemon (src/service/src/main.cpp, engine_contracts.h,
    engine_stubs.cpp, service_lifecycle.h, service_lifecycle.cpp)

    The default build links the daemon against the engine mirror of
    engine_contracts.h with the stub implementations of engine_stubs.cpp: a
    capturer that synthesises frames, an encoder that tags them, a transport
    that counts bytes, a session counter, and the IPC server of [IpcServer].
    [Engine] holds those objects as instances of [EngineContracts]; [Daemon] is
    what main.cpp does with any such objects: bring-up, the media pump, the run
    loop with its tick cap, teardown and the command line.

    Log lines on stderr and the frame-rate sleep are left out. The signal flag
    [g_stop] is an arbitrary function of the tick at which the loop reads it, and
    the answers of the operating system to the IPC server's calls are arbitrary. *)

From S2P Require Import Prelude Types IpcServer EngineContracts.

Module Engine.

(** ** capture::StubCapturer *)

Record StubCapturer := { display_ : Z; seq_ : Z; capturing : bool }.

Definition CreateCapturer : StubCapturer :=
  {| display_ := 0; seq_ := 0; capturing := false |}.

Definition capturer_start (display_index : Z) (c : StubCapturer) : Status * StubCapturer :=
  (success, {| display_ := display_index; seq_ := seq_ c; capturing := true |}).

Definition capturer_stop (c : StubCapturer) : StubCapturer :=
  {| display_ := display_ c; seq_ := seq_ c; capturing := false |}.

Definition next_frame (c : StubCapturer) : Result VideoFrame * StubCapturer :=
  if negb (capturing c) then (fail Again "capturer stopped", c)
  else
    let seq := to_u64 (seq_ c + 1) in
    let size := {| width := 64; height := 64 |} in
    (good {| frame_size := size; format := BGRA8;
             timestamp_us := to_u64 (seq * 16666);
             native_handle := None;
             cpu_pixels := replicate (Z.to_nat (width size * height size * 4))
                             (to_u8 (Z.land seq 255));
             dirty_rects := []; is_idle := false |},
     {| display_ := display_ c; seq_ := seq; capturing := capturing c |}).

(** ** codec::StubEncoder *)

Record StubEncoder := { cfg_ : EncoderConfig; frame_count_ : Z }.

Definition CreateVideoEncoder : StubEncoder :=
  {| cfg_ := EncoderConfig_init; frame_count_ := 0 |}.

Definition configure (cfg : EncoderConfig) (e : StubEncoder) : Status * StubEncoder :=
  (success, {| cfg_ := cfg; frame_count_ := frame_count_ e |}).

(** [None]: [frame.cpu_pixels.begin() + take] is past the end of the vector,
    which is undefined behaviour. *)
Definition encode (frame : VideoFrame) (e : StubEncoder)
    : option (Result EncodedPacket * StubEncoder) :=
  let key := (frame_count_ e) `mod` 60 =? 0 in
  let take_ := (length (cpu_pixels frame) `div` 4 + 1)%nat in
  if (length (cpu_pixels frame) <? take_)%nat then None
  else
    Some (good {| keyframe := key; pkt_timestamp_us := timestamp_us frame;
                  data := (if key then 255 else 170) :: take take_ (cpu_pixels frame) |},
          {| cfg_ := cfg_ e; frame_count_ := to_u64 (frame_count_ e + 1) |}).

Definition codec_name : string := "stub-h264-floor".

(** ** input::StubInjector: accepts everything and does nothing *)

Inductive StubInjector := CreateInputInjector.

Definition inject_pointer (_ : PointerEvent) : Status := success.
Definition inject_key (_ : KeyEvent) : Status := success.

(** ** crypto::StubKeyStore *)

Inductive StubKeyStore := CreateKeyStore.

Definition device_fingerprint : Result string := good "STUB-FINGERPRINT-0000-0000-0000-0000".

(** ** transport::StubTransport

    [handed] is the list of packets accepted so far, kept beside the byte count
    to state what was sent. *)

Record StubTransport := { bytes_ : Z; transporting : bool; handed : list EncodedPacket }.

Definition CreateTransport : StubTransport :=
  {| bytes_ := 0; transporting := false; handed := [] |}.

Definition transport_start (t : StubTransport) : Status * StubTransport :=
  (success, {| bytes_ := bytes_ t; transporting := true; handed := handed t |}).

Definition transport_stop (t : StubTransport) : StubTransport :=
  {| bytes_ := bytes_ t; transporting := false; handed := handed t |}.

Definition send_video (pkt : EncodedPacket) (t : StubTransport) : Status * StubTransport :=
  if negb (transporting t) then (error ConnectionLost "transport stopped", t)
  else (success,
        {| bytes_ := to_u64 (bytes_ t + Z.of_nat (length (data pkt)));
           transporting := transporting t; handed := handed t ++ [pkt] |}).

Definition bytes_sent (t : StubTransport) : Z := bytes_ t.

(** ** session::SessionManager *)

Record SessionManager := { next_id_ : Z; active_ : Z; last_peer_ : string }.

Definition SessionManager_init : SessionManager :=
  {| next_id_ := 0; active_ := 0; last_peer_ := "" |}.

Definition open_session (peer_fingerprint : string) (m : SessionManager)
    : Result Z * SessionManager :=
  let id := to_u64 (next_id_ m + 1) in
  (good id, {| next_id_ := id; active_ := to_u64 (active_ m + 1);
               last_peer_ := peer_fingerprint |}).

Definition close_session (_ : Z) (m : SessionManager) : SessionManager :=
  if 0 <? active_ m
  then {| next_id_ := next_id_ m; active_ := active_ m - 1; last_peer_ := last_peer_ m |}
  else m.

Definition active_sessions (m : SessionManager) : Z := active_ m.
Definition last_peer (m : SessionManager) : string := last_peer_ m.

(** ** The stubs as engine objects *)

#[export] Instance StubCapturer_ICapturer : ICapturer StubCapturer := {
  ICapturer_start := capturer_start;
  ICapturer_stop := capturer_stop;
  ICapturer_next_frame := next_frame;
}.

#[export] Instance StubEncoder_IVideoEncoder : IVideoEncoder StubEncoder := {
  IVideoEncoder_configure := configure;
  IVideoEncoder_encode := encode;
  IVideoEncoder_codec_name _ := codec_name;
}.

#[export] Instance StubInjector_IInputInjector : IInputInjector StubInjector := {
  IInputInjector_inject_pointer ev i := (inject_pointer ev, i);
  IInputInjector_inject_key ev i := (inject_key ev, i);
}.

#[export] Instance StubKeyStore_IKeyStore : IKeyStore StubKeyStore := {
  IKeyStore_device_fingerprint k := (device_fingerprint, k);
}.

#[export] Instance StubTransport_ITransport : ITransport StubTransport := {
  ITransport_start := transport_start;
  ITransport_stop := transport_stop;
  ITransport_send_video := send_video;
  ITransport_bytes_sent := bytes_sent;
}.

#[export] Instance StubCapturer_contract : CapturerContract StubCapturer.
Proof. by refine {| capturer_running := capturing |}. Defined.

#[export] Instance StubTransport_contract : TransportContract StubTransport.
Proof. by refine {| transport_running := transporting |}. Defined.

(** The encoder is undefined on an empty frame only ([engine_encode_reads]
    below), and the capturer's frames are not empty. *)
#[export] Instance Stub_pipeline : PipelineContract StubCapturer StubEncoder.
Proof.
  constructor. intros c e. simpl. unfold next_frame.
  destruct (capturing c); [intros _|done]. unfold encode.
  cbn [negb fst value good cpu_pixels width height].
  rewrite length_replicate.
  replace (Z.to_nat (64 * 64 * 4) <? Z.to_nat (64 * 64 * 4) `div` 4 + 1)%nat with false
    by (vm_compute; reflexivity).
  by eexists.
Qed.

End Engine.

Module Daemon.

Import Engine.

Record Daemon (C E I K T : Type) := {
  capturer : C;
  encoder : E;
  injector : I;
  keystore : K;
  transport : T;
  ipc : option Lifecycle.UdsIpcServer;
  sessions : SessionManager;
}.
Arguments Build_Daemon {C E I K T}.
Arguments capturer {C E I K T}.
Arguments encoder {C E I K T}.
Arguments injector {C E I K T}.
Arguments keystore {C E I K T}.
Arguments transport {C E I K T}.
Arguments ipc {C E I K T}.
Arguments sessions {C E I K T}.

(** The reply does not depend on the daemon, the peer or the message. *)
Definition HandleIpc : IpcMessageHandler := λ _ _, bytes_of_string "REDESK-ACK".

(** The POSIX endpoint of [BuildDaemon]. *)
Definition ipc_cfg : Config :=
  {| endpoint := "/tmp/redesk-service.sock";
     max_message_bytes := max_message_bytes Config_init |}.

Definition enc_cfg : EncoderConfig :=
  {| resolution := {| width := 64; height := 64 |}; target_bitrate_bps := 8000000;
     framerate := 60 |}.

Definition kMaxStubTicks : Z := 180.

Section engine.
Context {C E I K T : Type} `{ICapturer C, IVideoEncoder E, IInputInjector I, IKeyStore K,
  ITransport T}.

#[local] Abbreviation Daemon := (Daemon C E I K T).

Definition set_capturer (c : C) (d : Daemon) : Daemon :=
  {| capturer := c; encoder := encoder d; injector := injector d; keystore := keystore d;
     transport := transport d; ipc := ipc d; sessions := sessions d |}.
Definition set_encoder (e : E) (d : Daemon) : Daemon :=
  {| capturer := capturer d; encoder := e; injector := injector d; keystore := keystore d;
     transport := transport d; ipc := ipc d; sessions := sessions d |}.
Definition set_keystore (k : K) (d : Daemon) : Daemon :=
  {| capturer := capturer d; encoder := encoder d; injector := injector d; keystore := k;
     transport := transport d; ipc := ipc d; sessions := sessions d |}.
Definition set_transport (t : T) (d : Daemon) : Daemon :=
  {| capturer := capturer d; encoder := encoder d; injector := injector d;
     keystore := keystore d; transport := t; ipc := ipc d; sessions := sessions d |}.
Definition set_ipc (i : option Lifecycle.UdsIpcServer) (d : Daemon) : Daemon :=
  {| capturer := capturer d; encoder := encoder d; injector := injector d;
     keystore := keystore d; transport := transport d; ipc := i; sessions := sessions d |}.
Definition set_sessions (m : SessionManager) (d : Daemon) : Daemon :=
  {| capturer := capturer d; encoder := encoder d; injector := injector d;
     keystore := keystore d; transport := transport d; ipc := ipc d; sessions := m |}.

(** The daemon with what the factories construct, before bring-up. *)
Definition constructed (c : C) (e : E) (i : I) (k : K) (t : T) : Daemon :=
  {| capturer := c; encoder := e; injector := i; keystore := k; transport := t; ipc := None;
     sessions := SessionManager_init |}.

Section os.
(** The operating system under the IPC server (see [IpcServer.Lifecycle]). *)
Context (os : list Lifecycle.Call → Lifecycle.Call → Z) (sizeof_sun_path : Z).

(** [None]: the process has been terminated.  The fingerprint and a failure of
    the IPC server are only logged. *)
Definition BuildDaemon (d : Daemon) : option (bool * Daemon) :=
  let '(_, k) := IKeyStore_device_fingerprint (keystore d) in
  let d := set_keystore k d in
  let '(s, t) := ITransport_start (transport d) in
  let d := set_transport t d in
  if negb (Status_ok s) then Some (false, d)
  else
    let '(s, c) := ICapturer_start 0 (capturer d) in
    let d := set_capturer c d in
    if negb (Status_ok s) then Some (false, d)
    else
      let '(s, e) := IVideoEncoder_configure enc_cfg (encoder d) in
      let d := set_encoder e d in
      if negb (Status_ok s) then Some (false, d)
      else
        let '(r, i) := Lifecycle.start os sizeof_sun_path ipc_cfg (Some HandleIpc)
                         Lifecycle.CreateIpcServer in
        match r with
        | None => None
        | Some _ => Some (true, set_ipc (Some i) d)
        end.

(** One iteration of the media pipeline; [None]: undefined behaviour. *)
Definition PumpPipeline (d : Daemon) : option (bool * Daemon) :=
  let '(frame, c) := ICapturer_next_frame (capturer d) in
  let d := set_capturer c d in
  if negb (Result_ok frame)
  then Some (bool_decide (code (status frame) = Again), d)
  else
    match IVideoEncoder_encode (value frame) (encoder d) with
    | None => None
    | Some (pkt, e) =>
        let d := set_encoder e d in
        if negb (Result_ok pkt) then Some (false, d)
        else
          let '(s, t) := ITransport_send_video (value pkt) (transport d) in
          let d := set_transport t d in
          Some (Status_ok s, d)
    end.

(** [while (!g_stop.load() && tick < kMaxStubTicks) { if (!PumpPipeline(d, tick))
    break; ++tick; }]; the fuel is the number of ticks left before the cap. *)
Fixpoint run_loop (g_stop : Z → bool) (fuel : nat) (tick : Z) (d : Daemon)
    : option (Z * Daemon) :=
  if negb (g_stop tick) && (tick <? kMaxStubTicks) then
    match fuel with
    | O => None
    | S fuel =>
        match PumpPipeline d with
        | None => None
        | Some (false, d) => Some (tick, d)
        | Some (true, d) => run_loop g_stop fuel (tick + 1) d
        end
    end
  else Some (tick, d).

Definition teardown (d : Daemon) : Daemon :=
  let d := set_sessions (close_session 1 (sessions d)) d in
  let d := set_ipc (option_map (λ i, (Lifecycle.stop os i).2) (ipc d)) d in
  let d := set_transport (ITransport_stop (transport d)) d in
  set_capturer (ICapturer_stop (capturer d)) d.

(** The exit code, the ticks run, and the daemon as it is torn down, from the
    constructed one; [None]: undefined behaviour or termination. *)
Definition RunDaemonBody (g_stop : Z → bool) (d : Daemon) : option (Z * Z * Daemon) :=
  match BuildDaemon d with
  | None => None
  | Some (false, d) => Some (1, 0, d)
  | Some (true, d) =>
      let '(_, m) := open_session "smoke-peer" (sessions d) in
      let d := set_sessions m d in
      match run_loop g_stop (Z.to_nat kMaxStubTicks) 0 d with
      | None => None
      | Some (tick, d) => Some (0, tick, teardown d)
      end
  end.
End os.
End engine.

(** The daemon of the default build. *)
Abbreviation StubDaemon := (Daemon StubCapturer StubEncoder StubInjector StubKeyStore StubTransport).

Definition Daemon_init : StubDaemon :=
  constructed CreateCapturer CreateVideoEncoder CreateInputInjector CreateKeyStore
    CreateTransport.

(** ** ServiceLifecycle (the stub backend) and main *)

Record ServiceInstallSpec := {
  service_id : string;
  display_name : string;
  description : string;
  executable_path : string;
  start_on_boot : bool;
}.

Definition ServiceInstallSpec_init : ServiceInstallSpec :=
  {| service_id := "com.redesk.service";
     display_name := "REDesk Remote Desktop Service";
     description := "Headless privileged REDesk capture/input/transport engine";
     executable_path := ""; start_on_boot := true |}.

Definition install (_ : ServiceInstallSpec) : Status := success.
Definition uninstall (_ : ServiceInstallSpec) : Status := success.

(** The exit code of the body, 0 when there is none. *)
Definition run_as_service (_ : ServiceInstallSpec) (body : option (option Z)) : option Z :=
  match body with Some code => code | None => Some 0 end.

Definition AbsoluteSelfPath (argv0 : option string) : string :=
  default "redesk-service" argv0.

Definition with_executable (path : string) (s : ServiceInstallSpec) : ServiceInstallSpec :=
  {| service_id := service_id s; display_name := display_name s;
     description := description s; executable_path := path;
     start_on_boot := start_on_boot s |}.

(** The exit code of [main]; [body] is what [RunDaemonBody] returns. *)
Definition main (body : option Z) (argv : list string) : option Z :=
  let mode := match argv with _ :: m :: _ => m | _ => "--foreground" end in
  let spec := with_executable (AbsoluteSelfPath (argv !! 0%nat)) ServiceInstallSpec_init in
  if bool_decide (mode = "--install") then
    Some (if Status_ok (install spec) then 0 else 1)
  else if bool_decide (mode = "--uninstall") then
    Some (if Status_ok (uninstall spec) then 0 else 1)
  else if bool_decide (mode = "--run") then run_as_service spec (Some body)
  else if bool_decide (mode = "--foreground") then body
  else Some 2.

(** ** The media pump *)

(** The packet the pipeline sends at tick [n]. *)
Definition packet (n : nat) : EncodedPacket :=
  let key := Z.of_nat n `mod` 60 =? 0 in
  {| data := (if key then 255 else 170) ::
             replicate (Z.to_nat 4097) (to_u8 (Z.land (Z.of_nat n + 1) 255));
     pkt_timestamp_us := (Z.of_nat n + 1) * 16666;
     keyframe := key |}.

(** The daemon after [n] ticks of the pump, from a daemon [d0] just built. *)
Definition pumped (d0 : StubDaemon) (n : nat) (d : StubDaemon) : Prop :=
  seq_ (capturer d) = Z.of_nat n ∧ capturing (capturer d) = true ∧
  frame_count_ (encoder d) = Z.of_nat n ∧
  bytes_ (transport d) = 4098 * Z.of_nat n ∧ transporting (transport d) = true ∧
  handed (transport d) = map packet (seq 0 n) ∧
  ipc d = ipc d0 ∧ sessions d = sessions d0.

Lemma encode_frame_64 seq e c :
  0 ≤ seq < 2 ^ 40 → seq_ c = seq → capturing c = true → frame_count_ e = seq →
  ∃ f c' e', next_frame c = (good f, c') ∧ seq_ c' = seq + 1 ∧ capturing c' = true ∧
    encode f e = Some (good (packet (Z.to_nat seq)), e') ∧ frame_count_ e' = seq + 1.
Proof.
  intros Hb Hs Hc Hf. unfold next_frame. rewrite Hc, Hs. simpl negb. cbv iota.
  assert (to_u64 (seq + 1) = seq + 1) as Hw.
  { apply wrap_id. unfold fits. lia. }
  assert (to_u64 ((seq + 1) * 16666) = (seq + 1) * 16666) as Hw2.
  { apply wrap_id. unfold fits. lia. }
  rewrite Hw, Hw2. eexists _, _, _. split; [reflexivity|]. split_and!; [done|done| |].
  - unfold encode. cbn [cpu_pixels timestamp_us width height]. rewrite length_replicate.
    replace (Z.to_nat (64 * 64 * 4) `div` 4 + 1)%nat with (Z.to_nat 4097)
      by (vm_compute; reflexivity).
    replace (Z.to_nat (64 * 64 * 4) <? Z.to_nat 4097)%nat with false
      by (vm_compute; reflexivity).
    rewrite Hf, take_replicate.
    replace (Z.to_nat 4097 `min` Z.to_nat (64 * 64 * 4))%nat with (Z.to_nat 4097)
      by (vm_compute; reflexivity).
    unfold packet. rewrite Z2Nat.id by lia. reflexivity.
  - simpl. rewrite ?Hf. apply Hw.
Qed.

Lemma packet_size n : Z.of_nat (length (data (packet n))) = 4098.
Proof. unfold packet. cbn [data]. rewrite length_cons, length_replicate. lia. Qed.

Lemma PumpPipeline_pumped d0 n d :
  Z.of_nat n < 2 ^ 40 → pumped d0 n d →
  ∃ d', PumpPipeline d = Some (true, d') ∧ pumped d0 (S n) d'.
Proof.
  intros Hn (Hs & Hc & Hf & Hb & Ht & Hh & Hi & Hm).
  destruct (encode_frame_64 (Z.of_nat n) (encoder d) (capturer d))
    as (f & c' & e' & Hnf & Hs' & Hc' & He & Hf'); [lia|done..|].
  unfold PumpPipeline. simpl ICapturer_next_frame. rewrite Hnf. cbn [encoder set_capturer].
  change (negb (Result_ok (good f))) with false. cbv iota. cbn [value good] in *.
  simpl IVideoEncoder_encode. rewrite He. change (negb (Result_ok (good (packet (Z.to_nat (Z.of_nat n)))))) with false.
  cbv iota. simpl ITransport_send_video. unfold send_video. cbn [transport set_encoder set_capturer value good].
  rewrite Ht. simpl negb. cbv iota. eexists. split; [reflexivity|].
  unfold pumped. cbn [set_transport set_encoder set_capturer capturer encoder transport ipc
    sessions bytes_ transporting handed].
  rewrite Hs', Hf', Hb, Hh, Nat2Z.id, packet_size. split_and!; try done; try lia.
  - rewrite wrap_id; [lia|]. unfold fits. lia.
  - by rewrite seq_S, map_app.
Qed.

(** The loop from tick [n]: it runs to the first tick at which [g_stop] is set,
    or to the cap. *)
Lemma run_loop_pumped g_stop d0 fuel n d :
  pumped d0 n d → (Z.of_nat n + Z.of_nat fuel = kMaxStubTicks) →
  ∃ m d', run_loop g_stop fuel (Z.of_nat n) d = Some (Z.of_nat m, d') ∧ pumped d0 m d' ∧
    (n ≤ m ≤ n + fuel)%nat ∧ (∀ k, (n ≤ k < m)%nat → g_stop (Z.of_nat k) = false) ∧
    (Z.of_nat m = kMaxStubTicks ∨ g_stop (Z.of_nat m) = true).
Proof.
  unfold kMaxStubTicks. revert n d. induction fuel as [|fuel IH]; intros n d Hd Hf.
  - exists n, d. simpl. unfold kMaxStubTicks.
    rewrite (proj2 (Z.ltb_ge _ _)), andb_false_r by lia.
    split_and!; try done; lia.
  - simpl. unfold kMaxStubTicks. rewrite (proj2 (Z.ltb_lt _ _)), andb_true_r by lia.
    destruct (g_stop (Z.of_nat n)) eqn:Eg; simpl.
    { exists n, d. split_and!; try done; try lia. by right. }
    destruct (PumpPipeline_pumped d0 n d) as (d1 & -> & Hd1); [lia|done|].
    replace (Z.of_nat n + 1) with (Z.of_nat (S n)) by lia.
    destruct (IH (S n) d1 Hd1) as (m & d' & Hrun & Hp & Hm & Hstop & Hend); [lia|].
    exists m, d'. split_and!; try done; try lia.
    intros k Hk. destruct (decide (k = n)) as [->|]; [done|]. apply Hstop. lia.
Qed.

(** A fresh IPC server's [start] never terminates the process, whatever happens. *)
Lemma ipc_start_some os sz cfg h :
  ∃ st i, Lifecycle.start os sz cfg h Lifecycle.CreateIpcServer = (Some st, i) ∧
          Lifecycle.endpoint_ i = endpoint cfg.
Proof.
  unfold Lifecycle.start, Lifecycle.stop_with, Lifecycle.stop, Lifecycle.sys. run_state.
  repeat (case_match; simpl in *); simplify_eq; eauto.
Qed.

Lemma BuildDaemon_pumped os sz :
  ∃ d, BuildDaemon os sz Daemon_init = Some (true, d) ∧
    (∀ m, pumped (set_sessions m d) 0 (set_sessions m d)) ∧
    sessions d = SessionManager_init ∧
    ∃ i, ipc d = Some i ∧ Lifecycle.endpoint_ i = endpoint ipc_cfg.
Proof.
  destruct (ipc_start_some os sz ipc_cfg (Some HandleIpc)) as (st & i & E & Hi).
  unfold BuildDaemon. simpl. rewrite E. eexists. split; [reflexivity|].
  split_and!; [by intros m; repeat split|done|]. by exists i.
Qed.

(** The daemon body always ends with exit code 0, whether or not
    the IPC server came up and whenever the stop flag is raised: it runs the
    pump up to the first tick at which the flag is set, at most 180 ticks, and
    sends exactly one packet per tick, 4098 bytes each, a keyframe every 60
    ticks starting with the first, in order and with 60 fps timestamps; then no
    session is open, capture and transport are stopped, and the IPC server is
    stopped with its endpoint unlinked last. *)
Theorem daemon_run os sizeof_sun_path g_stop :
  ∃ n d i, RunDaemonBody os sizeof_sun_path g_stop Daemon_init = Some (0, Z.of_nat n, d) ∧
    Z.of_nat n ≤ kMaxStubTicks ∧
    (∀ k, (k < n)%nat → g_stop (Z.of_nat k) = false) ∧
    (Z.of_nat n = kMaxStubTicks ∨ g_stop (Z.of_nat n) = true) ∧
    bytes_sent (transport d) = 4098 * Z.of_nat n ∧
    handed (transport d) = map packet (seq 0 n) ∧
    active_sessions (sessions d) = 0 ∧ last_peer (sessions d) = "smoke-peer" ∧
    capturing (capturer d) = false ∧ transporting (transport d) = false ∧
    ipc d = Some i ∧ Lifecycle.running_ i = false ∧
    last (Lifecycle.calls i) = Some (Lifecycle.CUnlink (endpoint ipc_cfg)).
Proof.
  destruct (BuildDaemon_pumped os sizeof_sun_path) as (d & E & Hp & Hm & i & Hi & He).
  unfold RunDaemonBody. rewrite E. rewrite Hm.
  destruct (open_session "smoke-peer" SessionManager_init) as [r m1] eqn:Eo.
  vm_compute in Eo. injection Eo as _ Hm1.
  destruct (run_loop_pumped g_stop (set_sessions m1 d) (Z.to_nat kMaxStubTicks) 0
    (set_sessions m1 d) (Hp m1)) as (n & d1 & Hrun & Hd1 & Hn & Hs & Hend).
  { unfold kMaxStubTicks. lia. }
  change (Z.of_nat 0) with 0 in Hrun. rewrite Hrun.
  destruct Hd1 as (_ & _ & _ & Hb & _ & Hh & Hi1 & Hs1).
  pose proof (Lifecycle.stop_calls os i) as (Hc & _ & _ & _ & Hr).
  exists n, (teardown os d1), (Lifecycle.stop os i).2. split_and!; try done.
  - unfold kMaxStubTicks in *. lia.
  - intros k Hk. apply Hs. lia.
  - unfold teardown, active_sessions. simpl. by rewrite Hs1; simpl; rewrite <-Hm1.
  - unfold teardown, last_peer. simpl. by rewrite Hs1; simpl; rewrite <-Hm1.
  - unfold teardown. simpl. by rewrite Hi1; simpl; rewrite Hi.
  - rewrite Hc, He, !app_assoc. apply last_snoc.
Qed.

(** The process that the operating system runs as a service ([--run]) ends by
    itself: without a stop request, after the 180 ticks of the stub run. *)
Theorem service_run_capped os sizeof_sun_path argv0 rest :
  ∃ d, RunDaemonBody os sizeof_sun_path (λ _, false) Daemon_init =
      Some (0, kMaxStubTicks, d) ∧
    capturing (capturer d) = false ∧ main (Some 0) (argv0 :: "--run" :: rest) = Some 0.
Proof.
  destruct (daemon_run os sizeof_sun_path (λ _, false))
    as (n & d & i & Hrun & _ & _ & [Hn|] & _ & _ & _ & _ & Hc & _); [|done].
  exists d. rewrite <-Hn. by split_and!.
Qed.

(** ** Any engine *)

(** The values of the results that are good. *)
Definition good_values {A} `{ValueInit A} (rs : list (Result A)) : list A :=
  omap (λ r, if Result_ok r then Some (value r) else None) rs.

Lemma good_values_snoc {A} `{ValueInit A} (rs : list (Result A)) r :
  good_values (rs ++ [r]) = good_values rs ++ (if Result_ok r then [value r] else []).
Proof. unfold good_values. rewrite omap_app. simpl. by destruct (Result_ok r). Qed.

Section any.
Context {C E I K T : Type} `{PipelineContract C E, !CapturerContract C, IInputInjector I,
  IKeyStore K, TransportContract T}.

Abbreviation Recorded := (Daemon (Logged C (Result VideoFrame))
  (Logged E (VideoFrame * Result EncodedPacket)) I K (Logged T (EncodedPacket * Status))).

(** Every stage has been given exactly what the stage before it produced. *)
Definition in_step (d : Recorded) : Prop :=
  map fst (log (encoder d)) = good_values (log (capturer d)) ∧
  map fst (log (transport d)) = good_values (map snd (log (encoder d))).

(** What a stage reported last is a failure that ends the run. *)
Definition failed (d : Recorded) : Prop :=
  (∃ r, last (log (capturer d)) = Some r ∧ Result_ok r = false ∧ code (status r) ≠ Again) ∨
  (∃ f r, last (log (encoder d)) = Some (f, r) ∧ Result_ok r = false) ∨
  (∃ p st, last (log (transport d)) = Some (p, st) ∧ Status_ok st = false).

Definition frames (d : Recorded) : nat := length (log (capturer d)).

Lemma PumpPipeline_in_step (d : Recorded) :
  in_step d →
  ∃ b d', PumpPipeline d = Some (b, d') ∧ in_step d' ∧ frames d' = S (frames d) ∧
    ipc d' = ipc d ∧ sessions d' = sessions d ∧ (b = false → failed d').
Proof.
  intros [Hce Het]. unfold PumpPipeline, frames.
  pose proof (frames_encodable (inner (capturer d)) (inner (encoder d))) as Hf.
  simpl. destruct (ICapturer_next_frame (inner (capturer d))) as [r c]. simpl in Hf.
  destruct (Result_ok r) eqn:Er; cbn [negb]; cycle 1.
  { eexists _, _. split; [reflexivity|].
    split_and!; try done; [split| |]; simpl; rewrite ?good_values_snoc, ?Er, ?app_nil_r; try done.
    - rewrite length_app. simpl. lia.
    - intros ?%bool_decide_eq_false. left. exists r. simpl. by rewrite last_snoc. }
  destruct (Hf eq_refl) as [[pr e] He]. simpl. rewrite He. simpl.
  destruct (Result_ok pr) eqn:Ep; cbn [negb]; cycle 1.
  { eexists _, _. split; [reflexivity|].
    split_and!; try done; [split| |]; simpl;
      rewrite ?map_app; simpl; rewrite ?good_values_snoc, ?Er, ?Ep, ?app_nil_r, ?Hce; try done.
    - rewrite length_app. simpl. lia.
    - intros _. right; left. exists (value r), pr. simpl. by rewrite last_snoc. }
  destruct (ITransport_send_video (value pr) (inner (transport d))) as [st t].
  eexists _, _. split; [reflexivity|].
  split_and!; try done; [split| |]; simpl;
    rewrite ?map_app; simpl; rewrite ?good_values_snoc, ?Er, ?Ep, ?Hce, ?Het; try done.
  - rewrite length_app. simpl. lia.
  - intros Hst. right; right. exists (value pr), st. simpl. by rewrite last_snoc.
Qed.

Lemma run_loop_in_step g_stop fuel n (d : Recorded) :
  in_step d → (Z.of_nat n + Z.of_nat fuel = kMaxStubTicks) → frames d = n →
  ∃ m d', run_loop g_stop fuel (Z.of_nat n) d = Some (Z.of_nat m, d') ∧ in_step d' ∧
    ipc d' = ipc d ∧ sessions d' = sessions d ∧ Z.of_nat m ≤ kMaxStubTicks ∧
    ((frames d' = m ∧ (Z.of_nat m = kMaxStubTicks ∨ g_stop (Z.of_nat m) = true)) ∨
     (frames d' = S m ∧ failed d')).
Proof.
  revert n d. induction fuel as [|fuel IH]; intros n d Hd Hk Hn; simpl.
  - exists n, d. rewrite (proj2 (Z.ltb_ge _ _)), andb_false_r by lia.
    split_and!; try done; [lia|]. left. split; [done|]. left. lia.
  - rewrite (proj2 (Z.ltb_lt _ _)), andb_true_r by lia.
    destruct (g_stop (Z.of_nat n)) eqn:Eg; cbn [negb].
    { exists n, d. split_and!; try done; [lia|]. by left; split; [|right]. }
    destruct (PumpPipeline_in_step d Hd) as ([] & d1 & -> & Hd1 & Hf & Hi & Hs & Hb).
    + replace (Z.of_nat n + 1) with (Z.of_nat (S n)) by lia.
      destruct (IH (S n) d1) as (m & d2 & -> & Hd2 & Hi2 & Hs2 & Hrest); [done|lia|lia|].
      exists m, d2. split_and!; try done; [by rewrite Hi2|by rewrite Hs2|apply Hrest|apply Hrest].
    + exists n, d1. split_and!; try done; [lia|]. right. split; [lia|auto].
Qed.

(** The objects come up. *)
Definition comes_up (c : C) (e : E) (t : T) : bool :=
  Status_ok (ITransport_start t).1 && Status_ok (ICapturer_start 0 c).1 &&
  Status_ok (IVideoEncoder_configure enc_cfg e).1.

(** What bring-up leaves: each object is started, or configured, if those before
    it came up. *)
Definition brought_up (c : C) (e : E) (t : T) (d : Recorded) : Prop :=
  let up_t := Status_ok (ITransport_start t).1 in
  let up_c := up_t && Status_ok (ICapturer_start 0 c).1 in
  inner (transport d) = (ITransport_start t).2 ∧
  inner (capturer d) = (if up_t then (ICapturer_start 0 c).2 else c) ∧
  inner (encoder d) = (if up_c then (IVideoEncoder_configure enc_cfg e).2 else e).

Lemma BuildDaemon_comes_up os sz (c : C) (e : E) (i : I) (k : K) (t : T) :
  ∃ d : Recorded, BuildDaemon os sz (constructed (logged c) (logged e) i k (logged t)) =
         Some (comes_up c e t, d) ∧
    log (capturer d) = [] ∧ log (encoder d) = [] ∧ log (transport d) = [] ∧
    sessions d = SessionManager_init ∧ brought_up c e t d ∧
    (if comes_up c e t then is_Some (ipc d) else ipc d = None).
Proof.
  unfold BuildDaemon, comes_up, brought_up. simpl.
  destruct (IKeyStore_device_fingerprint k) as [fp k']. simpl.
  destruct (ITransport_start t) as [s1 t']. simpl.
  destruct (Status_ok s1); cbn [negb andb]; [|by eexists].
  destruct (ICapturer_start 0 c) as [s2 c']. simpl.
  destruct (Status_ok s2); cbn [negb andb]; [|by eexists].
  destruct (IVideoEncoder_configure enc_cfg e) as [s3 e']. simpl.
  destruct (Status_ok s3); cbn [negb]; [|by eexists].
  destruct (ipc_start_some os sz ipc_cfg (Some HandleIpc)) as (st & s & Hst & _). rewrite Hst.
  eexists. by split_and!.
Qed.

(** C37. The daemon over any engine objects that keep the
    contracts: its body always ends, with code 1 exactly if one of them does not
    come up.  Then nothing was captured or sent, no session was opened, the IPC
    server was not started, and what had come up is left as it was started.
    Otherwise it ends with code 0 after at most 180 ticks, one call of
    [next_frame] each, when the cap or the stop flag is reached or a stage has
    failed; capture, transport and IPC are stopped and no session is open.  All
    the time the encoder was given exactly the frames captured and the transport
    exactly the packets encoded, each once and in order.  (The cap holds in
    every mode of the process, although the code's comment means it for the stub
    run only; see [service_run_capped].) *)
Theorem daemon_any_engine os sizeof_sun_path g_stop (c : C) (e : E) (i : I) (k : K) (t : T) :
  ∃ exit n (d : Recorded),
    RunDaemonBody os sizeof_sun_path g_stop (constructed (logged c) (logged e) i k (logged t)) =
      Some (exit, Z.of_nat n, d) ∧
    in_step d ∧
    if comes_up c e t then
      exit = 0 ∧ Z.of_nat n ≤ kMaxStubTicks ∧
      ((frames d = n ∧ (Z.of_nat n = kMaxStubTicks ∨ g_stop (Z.of_nat n) = true)) ∨
       (frames d = S n ∧ failed d)) ∧
      capturer_running (capturer d) = false ∧ transport_running (transport d) = false ∧
      active_sessions (sessions d) = 0 ∧
      ∃ s, ipc d = Some s ∧ Lifecycle.running_ s = false
    else
      exit = 1 ∧ n = 0%nat ∧ log (capturer d) = [] ∧ log (transport d) = [] ∧
      active_sessions (sessions d) = 0 ∧ ipc d = None ∧ brought_up c e t d.
Proof.
  destruct (BuildDaemon_comes_up os sizeof_sun_path c e i k t)
    as (d & Hb & Hc & He & Ht & Hs & Hup & Hi).
  assert (∀ m, in_step (set_sessions m d) ∧ frames (set_sessions m d) = 0%nat) as Hstep.
  { intros m. unfold in_step, frames. simpl. by rewrite Hc, He, Ht. }
  unfold RunDaemonBody. rewrite Hb. destruct (comes_up c e t); cycle 1.
  { exists 1, 0%nat, d. split; [done|]. split; [unfold in_step; by rewrite Hc, He, Ht|].
    do 4 (split; [done|]). by rewrite Hs. }
  rewrite Hs. destruct (open_session "smoke-peer" SessionManager_init) as [r m] eqn:Eo.
  vm_compute in Eo. injection Eo as _ Hm. destruct (Hstep m) as [Hin Hf].
  destruct (run_loop_in_step g_stop (Z.to_nat kMaxStubTicks) 0 (set_sessions m d))
    as (n & d1 & Hrun & Hd1 & Hi1 & Hs1 & Hn & Hend); [done|by vm_compute|done|].
  change (Z.of_nat 0) with 0 in Hrun. rewrite Hrun.
  exists 0, n, (teardown os d1). split_and!; try done; [apply capturer_stopped|
    apply transport_stopped| |].
  - unfold teardown, active_sessions. simpl. by rewrite Hs1; simpl; rewrite <-Hm.
  - destruct Hi as [s Hs2]. exists (Lifecycle.stop os s).2.
    pose proof (Lifecycle.stop_calls os s) as (_ & _ & _ & _ & Hr).
    split; [|exact Hr]. unfold teardown. simpl. rewrite Hi1. simpl. by rewrite Hs2.
Qed.
End any.

(** The fallback encoder copies a quarter of the frame
    plus one byte: it has no result exactly on a frame without CPU pixels (it
    then reads past the end of the empty vector); on every other frame it
    succeeds with a packet of [size/4 + 2] bytes that carries the frame's
    timestamp and a prefix of its pixels, and marks every sixtieth call a
    keyframe. *)
Theorem engine_encode_reads frame e :
  (encode frame e = None ↔ cpu_pixels frame = []) ∧
  ∀ r e', encode frame e = Some (r, e') →
    Result_ok r = true ∧ pkt_timestamp_us (value r) = timestamp_us frame ∧
    (keyframe (value r) = true ↔ (60 | frame_count_ e)) ∧
    frame_count_ e' = to_u64 (frame_count_ e + 1) ∧
    tail (data (value r)) `prefix_of` cpu_pixels frame ∧
    Z.of_nat (length (data (value r))) = Z.of_nat (length (cpu_pixels frame)) `div` 4 + 2.
Proof.
  unfold encode. set (n := length (cpu_pixels frame)).
  pose proof (Nat.div_mod_eq n 4) as Hdm. pose proof (Nat.mod_upper_bound n 4) as Hmod.
  destruct (Nat.ltb_spec n (n `div` 4 + 1)) as [Hlt|Hge]; split.
  - split; [|done]. intros _. apply nil_length_inv. fold n. lia.
  - done.
  - split; [done|]. intros H0. unfold n in *. rewrite H0 in Hge. simpl in Hge. lia.
  - intros r e' ?. simplify_eq.
    cbn [value good data keyframe pkt_timestamp_us frame_count_ tail].
    split_and!; try done.
    + rewrite Z.eqb_eq. apply Z.mod_divide. lia.
    + apply prefix_take.
    + rewrite length_cons, length_take, Nat.min_l by done.
      rewrite Nat2Z.inj_succ, Nat2Z.inj_add, Nat2Z.inj_div. lia.
Qed.

(** The exit code of the process for each command line, when the
    daemon body ends with [code]: registration and its removal succeed, the
    body runs for [--run], [--foreground] and no argument, and anything else
    is a usage error. *)
Theorem main_modes code argv0 mode rest :
  main (Some code) [argv0] = Some code ∧
  main (Some code) (argv0 :: mode :: rest) =
    Some (if decide (mode = "--install" ∨ mode = "--uninstall") then 0
          else if decide (mode = "--run" ∨ mode = "--foreground") then code else 2).
Proof.
  split; [done|]. unfold main. simpl. repeat case_decide; repeat case_bool_decide;
    simpl; subst; naive_solver.
Qed.

End Daemon.

(** A camera that is unplugged after so many frames, on the stubs. *)
Module Sample.
Import Engine Daemon.

Record Camera := { left : nat; on : bool }.

Definition picture : VideoFrame :=
  {| frame_size := {| width := 1; height := 1 |}; format := BGRA8; timestamp_us := 7;
     native_handle := None; cpu_pixels := [1; 2; 3; 255]; dirty_rects := []; is_idle := false |}.

#[export] Instance Camera_ICapturer : ICapturer Camera := {
  ICapturer_start _ c := (success, {| left := left c; on := true |});
  ICapturer_stop c := {| left := left c; on := false |};
  ICapturer_next_frame c :=
    match left c with
    | O => (fail ConnectionLost "unplugged", c)
    | S n => (good picture, {| left := n; on := on c |})
    end;
}.

#[export] Instance Camera_contract : CapturerContract Camera.
Proof. by refine {| capturer_running := on |}. Defined.

#[export] Instance Camera_pipeline : PipelineContract Camera StubEncoder.
Proof. constructor. intros [[|n] b] e; [done|]. intros _. by eexists. Qed.

Definition quiet_os : list IpcServer.Lifecycle.Call → IpcServer.Lifecycle.Call → Z := λ _ _, 0.

#[local] Abbreviation run_camera n :=
  (RunDaemonBody quiet_os 104 (λ _, false)
    (constructed (logged {| left := n; on := false |}) (logged CreateVideoEncoder)
       CreateInputInjector CreateKeyStore (logged CreateTransport))).

(** The unplugged camera ends the daemon with exit code 0 after its two frames. *)
Lemma daemon_any_engine_witness :
  ∃ d, run_camera 2 = Some (0, 2, d) ∧ in_step d ∧ frames d = 3%nat ∧
    failed d ∧ length (log (transport d)) = 2%nat.
Proof.
  assert (match run_camera 2 with
          | Some (x, n, d) => x = 0 ∧ n = 2 ∧ frames d = 3%nat ∧
                              length (log (transport d)) = 2%nat
          | None => False
          end) as Hrun by (vm_compute; by split_and!).
  destruct (daemon_any_engine quiet_os 104 (λ _, false)
    {| left := 2; on := false |} CreateVideoEncoder
    CreateInputInjector CreateKeyStore CreateTransport)
    as (x & n & d & E & Hin & Hend).
  rewrite E in Hrun. destruct Hrun as (-> & Hn & Hf & Hl).
  exists d. rewrite Hn in E.
  refine (conj E (conj Hin (conj Hf (conj _ Hl)))). clear E Hin.
  change (comes_up _ _ _) with true in Hend. cbv iota in Hend. destruct Hend as (_ & _ & [[Hfr _]|[_ Hd]] & _); [|done].
  rewrite Hfr in Hf. lia.
Defined.

End Sample.
