(* ===== verification/ServiceClient.v ===== *)
(** * The UI's client of the service (src/ui/src/ServiceClient.h, ServiceClient.cpp)

    A state machine over a [QLocalSocket] and the parser of the inbound byte
    stream. The socket is Qt's: what it answers (its state, the count [write]
    returns, the bytes [readAll] returns, its error string) is an argument of the
    operation that asks; the calls made on it and the signals emitted are
    recorded in order. A [disconnected] signal during [disconnectFromServer]
    leads to the same single [setState]. *)

From S2P Require Import Prelude.

Inductive ClientState := Disconnected | Connecting | Authenticating | Ready | Error.

#[export] Instance ClientState_eq_dec : EqDecision ClientState.
Proof. solve_decision. Defined.

Definition kMaxFrameBytes : Z := Z.shiftl 1 20.

(** Signals emitted, and calls made on the socket. *)
Inductive Emit :=
  | stateChanged (s : ClientState)
  | messageReceived (opcode : Z) (payload : list Z)
  | errorOccurred (reason : string)
  | SockConnect (name : string)
  | SockDisconnect
  | SockWrite (bytes : list Z).

Record ServiceClient := {
  rx_buffer_ : list Z;
  auth_token_ : list Z;
  state_ : ClientState;
  emitted : list Emit;
}.

Definition ServiceClient_init : ServiceClient :=
  {| rx_buffer_ := []; auth_token_ := []; state_ := Disconnected; emitted := [] |}.

Definition emit (x : Emit) (c : ServiceClient) : ServiceClient :=
  {| rx_buffer_ := rx_buffer_ c; auth_token_ := auth_token_ c; state_ := state_ c;
     emitted := emitted c ++ [x] |}.
Definition set_rx (b : list Z) (c : ServiceClient) : ServiceClient :=
  {| rx_buffer_ := b; auth_token_ := auth_token_ c; state_ := state_ c;
     emitted := emitted c |}.
Definition set_token (t : list Z) (c : ServiceClient) : ServiceClient :=
  {| rx_buffer_ := rx_buffer_ c; auth_token_ := t; state_ := state_ c;
     emitted := emitted c |}.
Definition store_state (s : ClientState) (c : ServiceClient) : ServiceClient :=
  {| rx_buffer_ := rx_buffer_ c; auth_token_ := auth_token_ c; state_ := s;
     emitted := emitted c |}.

Definition defaultServerName : string := "redesk.service.ipc".

Definition setState (s : ClientState) (c : ServiceClient) : ServiceClient :=
  if decide (state_ c = s) then c else emit (stateChanged s) (store_state s c).

Definition connectToService (serverName : string) (authToken : list Z) (c : ServiceClient)
    : ServiceClient :=
  if decide (state_ c = Connecting ∨ state_ c = Authenticating ∨ state_ c = Ready) then c
  else
    let c := set_token authToken c in
    let c := set_rx [] c in
    let c := setState Connecting c in
    let name := if bool_decide (serverName = "") then defaultServerName else serverName in
    emit (SockConnect name) c.

(** [unconnected]: the socket's state is [UnconnectedState]. *)
Definition disconnectFromService (unconnected : bool) (c : ServiceClient) : ServiceClient :=
  let c := if negb unconnected then emit SockDisconnect c else c in
  setState Disconnected c.

Definition beginAuth (c : ServiceClient) : ServiceClient :=
  if bool_decide (auth_token_ c = []) then c else setState Ready c.

Definition onConnected (c : ServiceClient) : ServiceClient :=
  beginAuth (setState Authenticating c).

Definition onDisconnected (c : ServiceClient) : ServiceClient := setState Disconnected c.

Definition onSocketError (reason : string) (c : ServiceClient) : ServiceClient :=
  setState Error (emit (errorOccurred reason) c).

(** [written]: what the socket's [write] returns for the command. *)
Definition sendCommand (written : list Z → Z) (framedCommand : list Z) (c : ServiceClient)
    : bool * ServiceClient :=
  if negb (bool_decide (state_ c = Ready)) then (false, c)
  else if kMaxFrameBytes <? to_u32 (Z.of_nat (length framedCommand)) then (false, c)
  else (written framedCommand =? Z.of_nat (length framedCommand),
        emit (SockWrite framedCommand) c).

Definition kLenBytes : nat := 4.
Definition kOpBytes : nat := 2.

(** The [for (;;)] loop; [None]: out of fuel. *)
Fixpoint drainFrames_loop (fuel : nat) (unconnected : bool) (c : ServiceClient)
    : option ServiceClient :=
  let buf := rx_buffer_ c in
  if (length buf <? kLenBytes)%nat then Some c
  else
    let frameLen := be_value (take kLenBytes buf) in
    if (frameLen <? Z.of_nat kOpBytes) || (kMaxFrameBytes <? frameLen) then
      let c := emit (errorOccurred "IPC frame size out of bounds") c in
      let c := disconnectFromService unconnected c in
      Some (set_rx [] c)
    else
      let total := Z.of_nat kLenBytes + frameLen in
      if Z.of_nat (length buf) <? total then Some c
      else
        match fuel with
        | O => None
        | S fuel =>
            let opcode := be_value (take kOpBytes (drop kLenBytes buf)) in
            let payload := take (Z.to_nat (frameLen - Z.of_nat kOpBytes))
                             (drop (kLenBytes + kOpBytes) buf) in
            let c := set_rx (drop (Z.to_nat total) buf) c in
            drainFrames_loop fuel unconnected (emit (messageReceived opcode payload) c)
        end.

(** Every frame takes at least six bytes of the buffer. *)
Definition drainFrames (unconnected : bool) (c : ServiceClient) : option ServiceClient :=
  drainFrames_loop (length (rx_buffer_ c)) unconnected c.

(** [bytes]: what [readAll] returns. *)
Definition onReadyRead (unconnected : bool) (bytes : list Z) (c : ServiceClient)
    : option ServiceClient :=
  drainFrames unconnected (set_rx (rx_buffer_ c ++ bytes) c).

(** ** Runs *)

Inductive Op :=
  | OConnect (serverName : string) (authToken : list Z)
  | ODisconnect (unconnected : bool)
  | OSend (written : list Z → Z) (framedCommand : list Z)
  | OConnected
  | ODisconnected
  | OReadyRead (unconnected : bool) (bytes : list Z)
  | OSocketError (reason : string).

Definition exec (c : ServiceClient) (o : Op) : ServiceClient :=
  match o with
  | OConnect n t => connectToService n t c
  | ODisconnect u => disconnectFromService u c
  | OSend w cmd => (sendCommand w cmd c).2
  | OConnected => onConnected c
  | ODisconnected => onDisconnected c
  | OReadyRead u bs => default c (onReadyRead u bs c)
  | OSocketError r => onSocketError r c
  end.

Definition run (c : ServiceClient) (ops : list Op) : ServiceClient := fold_left exec ops c.

(** ** The parser against a specification of the stream

    [cut bs] takes the complete frames off the front of [bs] and says what is
    left: an incomplete frame to wait for, or a frame out of bounds. *)

Inductive Rest := Incomplete (bs : list Z) | Malformed.

(** One frame off the front of the buffer. *)
Definition next (bs : list Z) : (Z * list Z * list Z) + Rest :=
  if (length bs <? 4)%nat then inr (Incomplete bs)
  else
    let n := be_value (take 4 bs) in
    if (n <? 2) || (kMaxFrameBytes <? n) then inr Malformed
    else if Z.of_nat (length bs) <? 4 + n then inr (Incomplete bs)
    else inl (be_value (take 2 (drop 4 bs)), take (Z.to_nat (n - 2)) (drop 6 bs),
              drop (Z.to_nat (4 + n)) bs).

Inductive cut : list Z → list (Z * list Z) → Rest → Prop :=
  | cut_end bs r : next bs = inr r → cut bs [] r
  | cut_frame bs op p bs' fs r :
      next bs = inl (op, p, bs') → cut bs' fs r → cut bs ((op, p) :: fs) r.

Definition messages (fs : list (Z * list Z)) : list Emit :=
  map (λ f, messageReceived f.1 f.2) fs.

(** What [drainFrames] does to the client, by the outcome of the cut. *)
Definition drained (unconnected : bool) (c : ServiceClient) (fs : list (Z * list Z))
    (r : Rest) : ServiceClient :=
  let c := {| rx_buffer_ := []; auth_token_ := auth_token_ c; state_ := state_ c;
              emitted := emitted c ++ messages fs |} in
  match r with
  | Incomplete bs => set_rx bs c
  | Malformed =>
      disconnectFromService unconnected
        (emit (errorOccurred "IPC frame size out of bounds") c)
  end.

Lemma set_rx_disconnect b u c :
  set_rx b (disconnectFromService u c) = disconnectFromService u (set_rx b c).
Proof.
  unfold disconnectFromService, setState. destruct u; simpl; by destruct (decide _).
Qed.

Lemma next_shrinks bs op p bs' :
  next bs = inl (op, p, bs') → (length bs' + 6 ≤ length bs)%nat.
Proof.
  unfold next. destruct (Nat.ltb_spec (length bs) 4); [done|].
  set (n := be_value _). destruct (Z.ltb_spec n 2); [done|].
  destruct (Z.ltb_spec kMaxFrameBytes n); [done|]. simpl orb.
  destruct (Z.ltb_spec (Z.of_nat (length bs)) (4 + n)); [done|].
  intros ?. simplify_eq. rewrite length_drop. lia.
Qed.

Lemma set_rx_self c : set_rx (rx_buffer_ c) c = c.
Proof. by destruct c. Qed.

Lemma drain_loop_cut fuel u c fs r :
  cut (rx_buffer_ c) fs r → (length (rx_buffer_ c) ≤ fuel)%nat →
  drainFrames_loop fuel u c = Some (drained u c fs r).
Proof.
  intros Hcut. remember (rx_buffer_ c) as bs eqn:Hbs. revert fuel c Hbs.
  induction Hcut as [bs r Hn|bs op p bs' fs r Hn _ IH]; intros fuel c -> Hf.
  - destruct c as [rx tok st em]. cbn [rx_buffer_] in *. unfold next in Hn.
    destruct fuel; cbn [drainFrames_loop rx_buffer_]; unfold kLenBytes, kOpBytes;
      rewrite set_rx_disconnect;
      (destruct (length rx <? 4)%nat;
        [simplify_eq; unfold drained; cbn; by rewrite ?app_nil_r|]);
      (destruct ((_ <? _) || (_ <? _));
        [simplify_eq; unfold drained; cbn [messages map auth_token_ state_ emitted];
         by rewrite ?app_nil_r|]);
      (destruct (_ <? _); [|done]); simplify_eq; unfold drained; cbn; by rewrite ?app_nil_r.
  - pose proof (next_shrinks _ _ _ _ Hn) as Hs. destruct fuel as [|fuel]; [lia|].
    unfold next in Hn. cbn [drainFrames_loop]. unfold kLenBytes, kOpBytes.
    change (Z.of_nat 4) with 4. change (Z.of_nat 2) with 2. change (4 + 2)%nat with 6%nat.
    destruct (length (rx_buffer_ c) <? 4)%nat; [done|].
    destruct ((_ <? _) || (_ <? _)); [done|]. destruct (_ <? _); [done|].
    simplify_eq. erewrite IH; [|reflexivity|lia].
    f_equal. unfold drained, emit, set_rx. cbn [rx_buffer_ auth_token_ state_ emitted].
    rewrite <-app_assoc. done.
Qed.

(** Every buffer is cut in one way. *)
Lemma cut_total bs : ∃ fs r, cut bs fs r.
Proof.
  remember (length bs) as n eqn:Hn. revert bs Hn.
  induction n as [n IH] using lt_wf_ind. intros bs ->.
  destruct (next bs) as [[[op p] bs']|r] eqn:E.
  - pose proof (next_shrinks _ _ _ _ E).
    destruct (IH (length bs') ltac:(lia) bs' eq_refl) as (fs & r & H').
    exists ((op, p) :: fs), r. by econstructor.
  - exists [], r. by constructor.
Qed.

(** [drainFrames] always returns. *)
Lemma drainFrames_spec u c fs r :
  cut (rx_buffer_ c) fs r → drainFrames u c = Some (drained u c fs r).
Proof. intros H. by apply drain_loop_cut. Qed.

(** More bytes do not change the frames already complete. *)
Lemma next_app bs op p bs' more :
  next bs = inl (op, p, bs') → next (bs ++ more) = inl (op, p, bs' ++ more).
Proof.
  unfold next. rewrite length_app. destruct (Nat.ltb_spec (length bs) 4); [done|].
  rewrite (proj2 (Nat.ltb_ge _ 4)), take_app_le by lia. set (n := be_value _).
  destruct (Z.ltb_spec n 2); [done|]. destruct (Z.ltb_spec kMaxFrameBytes n); [done|].
  simpl orb. destruct (Z.ltb_spec (Z.of_nat (length bs)) (4 + n)); [done|].
  rewrite (proj2 (Z.ltb_ge _ (4 + n))) by lia. intros ?. simplify_eq.
  rewrite !drop_app_le, !take_app_le by (rewrite ?length_drop; lia). done.
Qed.

Lemma next_malformed_app bs more : next bs = inr Malformed → next (bs ++ more) = inr Malformed.
Proof.
  unfold next. rewrite length_app. destruct (Nat.ltb_spec (length bs) 4); [done|].
  rewrite (proj2 (Nat.ltb_ge _ 4)), take_app_le by lia.
  destruct (_ || _); [done|]. by destruct (_ <? _).
Qed.

Lemma cut_app bs fs rest more fs' r :
  cut bs fs (Incomplete rest) → cut (rest ++ more) fs' r → cut (bs ++ more) (fs ++ fs') r.
Proof.
  intros H. remember (Incomplete rest) as r0 eqn:Hr. revert rest Hr.
  induction H as [bs r0 Hn|bs op p bs' fs r0 Hn _ IH]; intros rest -> H'.
  - assert (rest = bs) as ->; [|done]. unfold next in Hn.
    by repeat (case_match; simplify_eq).
  - simpl. econstructor; [by apply next_app|]. by eapply IH.
Qed.

Lemma cut_app_malformed bs fs more :
  cut bs fs Malformed → cut (bs ++ more) fs Malformed.
Proof.
  intros H. remember Malformed as r eqn:Hr. revert Hr.
  induction H as [bs r Hn|bs op p bs' fs r Hn _ IH]; intros ->.
  - constructor. by apply next_malformed_app.
  - econstructor; [by apply next_app|]. by apply IH.
Qed.

Lemma cut_det bs fs r fs' r' : cut bs fs r → cut bs fs' r' → fs = fs' ∧ r = r'.
Proof.
  intros H. revert fs' r'. induction H as [bs r Hn|bs op p bs' fs r Hn _ IH]; intros fs' r'.
  - intros H'. destruct H'; [|congruence]. split; congruence.
  - intros H'. destruct H' as [|? ? ? ? ? ? Hn' H']; [congruence|].
    rewrite Hn in Hn'. simplify_eq. by destruct (IH _ _ H') as [-> ->].
Qed.

(** Bytes that hold no complete frame yet. *)
Definition pending (bs : list Z) : Prop := next bs = inr (Incomplete bs).

Lemma cut_rest_pending bs fs rest : cut bs fs (Incomplete rest) → pending rest.
Proof.
  intros H. remember (Incomplete rest) as r eqn:Hr. revert rest Hr. unfold pending.
  induction H as [bs r Hn|bs op p bs' fs r Hn _ IH]; intros rest ->; [|by apply IH].
  assert (rest = bs) as ->; [|done]. unfold next in Hn.
  by repeat (case_match; simplify_eq).
Qed.

Lemma pending_short bs : pending bs → Z.of_nat (length bs) < 4 + kMaxFrameBytes.
Proof.
  unfold pending, next, kMaxFrameBytes. change (Z.shiftl 1 20) with 1048576.
  destruct (Nat.ltb_spec (length bs) 4); [lia|].
  set (n := be_value _). destruct (Z.ltb_spec n 2); [done|].
  destruct (Z.ltb_spec 1048576 n); [done|]. simpl orb.
  destruct (Z.ltb_spec (Z.of_nat (length bs)) (4 + n)); [lia|done].
Qed.

(** The bytes arrive in several [readyRead]s. *)
Fixpoint feed (u : bool) (chunks : list (list Z)) (c : ServiceClient) : option ServiceClient :=
  match chunks with
  | [] => Some c
  | bs :: chunks => c' ← onReadyRead u bs c; feed u chunks c'
  end.

Lemma feed_cut u chunks c fs rest :
  pending (rx_buffer_ c) → cut (rx_buffer_ c ++ concat chunks) fs (Incomplete rest) →
  feed u chunks c = Some (drained u c fs (Incomplete rest)).
Proof.
  revert c fs. induction chunks as [|bs chunks IH]; intros c fs Hp Hcut.
  - simpl in Hcut. rewrite app_nil_r in Hcut.
    destruct (cut_det _ _ _ [] (Incomplete (rx_buffer_ c)) Hcut) as [-> Hr]; [by constructor|].
    simplify_eq. simpl. unfold drained. simpl. rewrite app_nil_r. by destruct c.
  - simpl in Hcut. rewrite app_assoc in Hcut.
    destruct (cut_total (rx_buffer_ c ++ bs)) as (fs1 & r1 & H1).
    simpl. unfold onReadyRead. rewrite (drainFrames_spec _ _ fs1 r1) by done. simpl.
    destruct r1 as [rest1|].
    2: { apply (cut_app_malformed _ _ (concat chunks)) in H1.
         destruct (cut_det _ _ _ _ _ Hcut H1) as [_ ?]. done. }
    destruct (cut_total (rest1 ++ concat chunks)) as (fs2 & r2 & H2).
    destruct (cut_det _ _ _ _ _ Hcut (cut_app _ _ _ _ _ _ H1 H2)) as [-> <-].
    rewrite (IH _ fs2); [|by eapply cut_rest_pending|done].
    unfold drained, set_rx, messages. simpl. by rewrite <-app_assoc, map_app.
Qed.

(** ** The frames of a stream *)

(** [u32 length][u16 opcode][payload], big-endian, the length covering both. *)
Definition encode_frame (f : Z * list Z) : list Z :=
  be_bytes 4 (2 + Z.of_nat (length f.2)) ++ be_bytes 2 f.1 ++ f.2.

Definition frame_ok (f : Z * list Z) : Prop :=
  fits 16 f.1 ∧ 2 + Z.of_nat (length f.2) ≤ kMaxFrameBytes.

Lemma next_encode f more : frame_ok f → next (encode_frame f ++ more) = inl (f.1, f.2, more).
Proof.
  destruct f as [op p]. unfold frame_ok, encode_frame, next. cbn [fst snd].
  intros [Hop Hlen]. rewrite !length_app, !length_be_bytes.
  rewrite (proj2 (Nat.ltb_ge _ 4)) by lia.
  rewrite <-!app_assoc. rewrite take_app_exact by (by rewrite length_be_bytes).
  rewrite be_value_be_bytes. rewrite wrap_id.
  2: { unfold fits. change (2 ^ (8 * Z.of_nat 4)) with 4294967296.
       unfold kMaxFrameBytes in Hlen. change (Z.shiftl 1 20) with 1048576 in Hlen. lia. }
  rewrite (proj2 (Z.ltb_ge _ 2)), (proj2 (Z.ltb_ge kMaxFrameBytes _)) by lia. simpl orb.
  rewrite (proj2 (Z.ltb_ge _ (4 + _))) by lia. cbv iota.
  rewrite drop_app_exact by (by rewrite length_be_bytes).
  rewrite take_app_exact by (by rewrite length_be_bytes).
  rewrite be_value_be_bytes, wrap_id by done.
  rewrite (app_assoc (be_bytes 4 _)), drop_app_exact
    by (by rewrite length_app, !length_be_bytes).
  replace (Z.to_nat (2 + Z.of_nat (length p) - 2)) with (length p) by lia.
  rewrite take_app_length. repeat f_equal.
  rewrite app_assoc. apply drop_app_exact. rewrite !length_app, !length_be_bytes. lia.
Qed.

Lemma cut_frames fs rest :
  Forall frame_ok fs → pending rest →
  cut (concat (map encode_frame fs) ++ rest) fs (Incomplete rest).
Proof.
  intros H Hp. induction H as [|f fs Hf _ IH]; [by constructor|].
  simpl. rewrite <-app_assoc. destruct f as [op p].
  econstructor; [by apply (next_encode (op, p))|done].
Qed.

(** ** Theorems *)

(** C27. The client's parser is exact and independent of how the
    stream is cut: if the bytes of any number of valid frames followed by an
    incomplete one arrive in any number of reads, the client emits exactly one
    message per frame, in order and with its opcode and payload, keeps exactly
    the incomplete part for later, and changes nothing else. *)
Theorem client_stream unconnected frames rest chunks c :
  Forall frame_ok frames → pending rest →
  concat chunks = concat (map encode_frame frames) ++ rest →
  rx_buffer_ c = [] →
  feed unconnected chunks c =
    Some {| rx_buffer_ := rest; auth_token_ := auth_token_ c; state_ := state_ c;
            emitted := emitted c ++ map (λ f, messageReceived f.1 f.2) frames |}.
Proof.
  intros Hf Hp Hc Hrx. rewrite (feed_cut _ _ _ frames rest).
  - done.
  - rewrite Hrx. done.
  - rewrite Hrx, Hc. by apply cut_frames.
Qed.

(** A message within the bounds of a frame. *)
Definition message_bounded (x : Emit) : Prop :=
  match x with
  | messageReceived op p => fits 16 op ∧ 2 + Z.of_nat (length p) ≤ kMaxFrameBytes
  | _ => True
  end.

Lemma next_bounded bs op p bs' :
  bytes_ok bs → next bs = inl (op, p, bs') → message_bounded (messageReceived op p) ∧ bytes_ok bs'.
Proof.
  intros Hb. unfold next. destruct (Nat.ltb_spec (length bs) 4); [done|].
  set (n := be_value _). destruct (Z.ltb_spec n 2); [done|].
  destruct (Z.ltb_spec kMaxFrameBytes n); [done|]. simpl orb.
  destruct (Z.ltb_spec (Z.of_nat (length bs)) (4 + n)); [done|].
  intros ?. simplify_eq. split; [|by apply Forall_drop]. split.
  - assert (16 = 8 * Z.of_nat (length (take 2 (drop 4 bs)))) as ->.
    { rewrite length_take, length_drop. lia. }
    apply be_value_bounds. by apply Forall_take, Forall_drop.
  - rewrite length_take. lia.
Qed.

Lemma cut_bounded bs fs r : bytes_ok bs → cut bs fs r → Forall message_bounded (messages fs).
Proof.
  intros Hb. induction 1 as [|bs op p bs' fs r Hn _ IH]; [constructor|].
  destruct (next_bounded _ _ _ _ Hb Hn). simpl. constructor; auto.
Qed.

(** C32. Whatever bytes arrive, in any state: the parser
    returns; what it keeps is shorter than one frame of the maximal size; every
    message it emits has a 16-bit opcode and a payload within the 1 MiB bound;
    and either the connection's state is as before and nothing else is emitted,
    or a frame was out of bounds: then, after the messages before it, exactly
    one error is reported, the connection is dropped and the buffer emptied. *)
Theorem client_read_bounds unconnected bytes c :
  bytes_ok (rx_buffer_ c) → bytes_ok bytes →
  ∃ c' fs tl, onReadyRead unconnected bytes c = Some c' ∧
    Z.of_nat (length (rx_buffer_ c')) < 4 + kMaxFrameBytes ∧
    Forall message_bounded (messages fs) ∧
    emitted c' = emitted c ++ messages fs ++ tl ∧
    ((tl = [] ∧ state_ c' = state_ c) ∨
     (tl = [errorOccurred "IPC frame size out of bounds"] ++
           (if unconnected then [] else [SockDisconnect]) ++
           (if decide (state_ c = Disconnected) then [] else [stateChanged Disconnected]) ∧
      state_ c' = Disconnected ∧ rx_buffer_ c' = [])).
Proof.
  intros Hrx Hb. destruct (cut_total (rx_buffer_ c ++ bytes)) as (fs & r & Hcut).
  assert (Forall message_bounded (messages fs)) as Hm.
  { eapply cut_bounded; [|done]. by apply Forall_app. }
  unfold onReadyRead. rewrite (drainFrames_spec _ _ fs r) by done.
  destruct r as [rest|].
  - exists (drained unconnected (set_rx (rx_buffer_ c ++ bytes) c) fs (Incomplete rest)), fs, [].
    split_and!; [done| |done|simpl; by rewrite app_nil_r|by left].
    apply pending_short. by eapply cut_rest_pending.
  - eexists _, fs, ([errorOccurred "IPC frame size out of bounds"] ++
      (if unconnected then [] else [SockDisconnect]) ++
      (if decide (state_ c = Disconnected) then [] else [stateChanged Disconnected])).
    split; [reflexivity|].
    unfold drained, disconnectFromService, setState.
    destruct unconnected; simpl; destruct (decide (state_ c = Disconnected)); simpl;
      rewrite <-?app_assoc; split_and!; try done; by right.
Qed.

(** A client that has not authenticated (no
    token: it stays in Authenticating for ever) sends no command, but every
    valid frame the peer sends is delivered as a message all the same. *)
Theorem client_unauthenticated_input unconnected serverName w cmd f :
  frame_ok f →
  let c := run ServiceClient_init [OConnect serverName []; OConnected] in
  state_ c = Authenticating ∧ sendCommand w cmd c = (false, c) ∧
  onReadyRead unconnected (encode_frame f) c = Some (emit (messageReceived f.1 f.2) c).
Proof.
  intros Hf c. split; [done|]. split; [done|].
  pose proof (cut_frames [f] [] ltac:(by constructor) eq_refl) as Hcut.
  simpl in Hcut. rewrite !app_nil_r in Hcut. unfold onReadyRead.
  by rewrite (drainFrames_spec _ _ [f] (Incomplete [])).
Qed.

(** A command is written exactly when the client is Ready
    and the command's length, taken modulo 2^32, is within the frame bound; so
    the bound does not stop a command of 4 GiB and a bit. Otherwise the client
    is unchanged and the call returns false. *)
Theorem client_send_gate w cmd c :
  sendCommand w cmd c =
    if decide (state_ c = Ready ∧ Z.of_nat (length cmd) `mod` 2 ^ 32 ≤ kMaxFrameBytes)
    then (w cmd =? Z.of_nat (length cmd), emit (SockWrite cmd) c)
    else (false, c).
Proof.
  unfold sendCommand. case_bool_decide as Hs; simpl.
  - destruct (Z.ltb_spec kMaxFrameBytes (to_u32 (Z.of_nat (length cmd)))) as [Hl|Hl];
      unfold wrap in Hl; case_decide as Hd; naive_solver lia.
  - case_decide as Hd; naive_solver.
Qed.

(** The state the trace of signals announces. *)
Definition announced (l : list Emit) : ClientState :=
  fold_left (λ s x, match x with stateChanged s' => s' | _ => s end) l Disconnected.

Lemma announced_snoc l x :
  announced (l ++ [x]) = match x with stateChanged s => s | _ => announced l end.
Proof. unfold announced. by rewrite fold_left_app. Qed.

(** The invariant of the client and its trace. *)
Definition client_inv (c : ServiceClient) : Prop :=
  (state_ c = Ready → auth_token_ c ≠ []) ∧ announced (emitted c) = state_ c ∧
  ∀ pre bs post, emitted c = pre ++ SockWrite bs :: post → announced pre = Ready.

(** Emitting anything but a write or a state change keeps the invariant. *)
Definition quiet (x : Emit) : Prop :=
  match x with stateChanged _ | SockWrite _ => False | _ => True end.

Lemma writes_snoc l x :
  (∀ pre bs post, l = pre ++ SockWrite bs :: post → announced pre = Ready) →
  (∀ bs, x = SockWrite bs → announced l = Ready) →
  ∀ pre bs post, l ++ [x] = pre ++ SockWrite bs :: post → announced pre = Ready.
Proof.
  intros Hl Hx pre bs post. destruct post as [|y post _] using rev_ind; intros H.
  - apply app_inj_tail in H as [-> ->]. by eapply Hx.
  - rewrite app_comm_cons, app_assoc in H. apply app_inj_tail in H as [-> _]. by eapply Hl.
Qed.

Lemma inv_emit c x : quiet x → client_inv c → client_inv (emit x c).
Proof.
  intros Hq (H1 & H2 & H3). split_and!; [done| |].
  - simpl. rewrite announced_snoc. by destruct x.
  - apply writes_snoc; [done|]. by intros bs ->.
Qed.

Lemma inv_setState c s :
  (s = Ready → auth_token_ c ≠ []) → client_inv c → client_inv (setState s c).
Proof.
  intros Hs (H1 & H2 & H3). unfold setState. destruct (decide _); [done|].
  split_and!; [done| |].
  - simpl. by rewrite announced_snoc.
  - by apply writes_snoc.
Qed.

Lemma inv_set_rx c b : client_inv c → client_inv (set_rx b c).
Proof. done. Qed.

Lemma inv_disconnect u c : client_inv c → client_inv (disconnectFromService u c).
Proof.
  intros. unfold disconnectFromService. apply inv_setState; [done|].
  destruct u; [done|]. by apply inv_emit.
Qed.

Lemma inv_messages c fs :
  client_inv c → client_inv {| rx_buffer_ := []; auth_token_ := auth_token_ c;
                               state_ := state_ c; emitted := emitted c ++ messages fs |}.
Proof.
  intros Hc. induction fs as [|f fs IH] using rev_ind.
  - simpl. rewrite app_nil_r. destruct c. exact Hc.
  - unfold messages. rewrite map_app, app_assoc. simpl.
    by apply (inv_emit _ (messageReceived f.1 f.2)) in IH.
Qed.

Lemma inv_exec c o : client_inv c → client_inv (exec c o).
Proof.
  intros Hc. destruct o as [n t|u|w cmd| | |u bs|r]; simpl.
  - unfold connectToService. destruct (decide _) as [|Hd]; [done|].
    apply inv_emit; [done|]. apply inv_setState; [done|]. apply inv_set_rx.
    destruct Hc as (H1 & H2 & H3). split_and!; [|done|done]. simpl. intros. exfalso. auto.
  - by apply inv_disconnect.
  - unfold sendCommand. case_bool_decide as Hs; [|done]. simpl. destruct (_ <? _); [done|].
    destruct Hc as (H1 & H2 & H3). split_and!; [done| |].
    + simpl. by rewrite announced_snoc.
    + apply writes_snoc; [done|]. intros. congruence.
  - unfold onConnected, beginAuth. case_bool_decide as Ht.
    + by apply inv_setState.
    + apply inv_setState; [done|]. by apply inv_setState.
  - by apply inv_setState.
  - unfold onReadyRead. destruct (cut_total (rx_buffer_ c ++ bs)) as (fs & r & Hcut).
    rewrite (drainFrames_spec _ _ fs r) by done. simpl. destruct r as [rest|].
    + apply inv_set_rx. by apply (inv_messages c).
    + apply inv_disconnect, inv_emit; [done|]. by apply (inv_messages c).
  - apply inv_setState; [done|]. by apply inv_emit.
Qed.

(** In every run of the client, whatever the socket
    and the callers do: it is Ready only with a non-empty token; the last state
    it announced is the state it is in; and every write to the socket happens
    while Ready is the state it has announced. *)
Theorem client_ready_discipline ops :
  let c := run ServiceClient_init ops in
  (state_ c = Ready → auth_token_ c ≠ []) ∧ announced (emitted c) = state_ c ∧
  ∀ pre bs post, emitted c = pre ++ SockWrite bs :: post → announced pre = Ready.
Proof.
  unfold run. assert (client_inv ServiceClient_init) as H0.
  { split_and!; [done|done|]. by intros [] ? ? ?. }
  revert H0. generalize ServiceClient_init.
  induction ops as [|o ops IH]; intros c Hc; [exact Hc|]. by apply IH, inv_exec.
Qed.

(** ** Witnesses *)

Lemma client_stream_witness :
  feed false [[0; 0]; [0; 3; 1; 44; 9; 0; 0]; [0; 2; 0]] ServiceClient_init =
    Some {| rx_buffer_ := [0; 0; 0; 2; 0]; auth_token_ := []; state_ := Disconnected;
            emitted := [messageReceived 300 [9]] |}.
Proof.
  exact (client_stream false [(300, [9])] [0; 0; 0; 2; 0]
           [[0; 0]; [0; 3; 1; 44; 9; 0; 0]; [0; 2; 0]] ServiceClient_init
           ltac:(constructor; [by split|constructor]) eq_refl eq_refl eq_refl).
Defined.

Lemma client_read_bounds_witness :
  ∃ c' fs tl, onReadyRead false [0; 0; 0; 1; 7] ServiceClient_init = Some c' ∧
    Z.of_nat (length (rx_buffer_ c')) < 4 + kMaxFrameBytes ∧
    Forall message_bounded (messages fs) ∧
    emitted c' = [] ++ messages fs ++ tl ∧
    ((tl = [] ∧ state_ c' = Disconnected) ∨
     (tl = [errorOccurred "IPC frame size out of bounds"] ++ [SockDisconnect] ++ [] ∧
      state_ c' = Disconnected ∧ rx_buffer_ c' = [])).
Proof.
  exact (client_read_bounds false [0; 0; 0; 1; 7] ServiceClient_init
           ltac:(constructor) ltac:(by repeat constructor)).
Defined.

Lemma client_unauthenticated_input_witness :
  let c := run ServiceClient_init [OConnect "" []; OConnected] in
  state_ c = Authenticating ∧ sendCommand (λ _, 0) [1] c = (false, c) ∧
  onReadyRead false (encode_frame (7, [1; 2])) c = Some (emit (messageReceived 7 [1; 2]) c).
Proof.
  exact (client_unauthenticated_input false "" (λ _, 0) [1] (7, [1; 2]) ltac:(by split)).
Defined.
