(* ===== verification/IpcLink.v ===== *)
(** * The service's IPC server and the UI's client, end to end

    The two ends of the local channel frame messages differently: the server
    (ipc_server.cpp) prefixes a payload with its length, little-endian, and the
    client (ServiceClient.cpp) expects a big-endian length, then an opcode. The
    theorems here run the two models against each other. *)

From S2P Require Import Prelude Types IpcServer ServiceEngine ServiceClient.
Import IpcServer.Socket IpcServer.Serve.

(** The server the daemon starts (main.cpp, [BuildDaemon]). *)
Definition daemon_env (p : Platform) : Env :=
  {| platform := p; config_ := Daemon.ipc_cfg; handler_ := Some Daemon.HandleIpc |}.

(** Every request the daemon serves to the end is
    answered with the same fourteen bytes, and a client that reads them reports
    a frame out of bounds, drops the connection and delivers no message. *)
Theorem daemon_reply_drops_client p k payload c unconnected client :
  request (daemon_env p) k payload 10 c → sent c = [] → rx_buffer_ client = [] →
  ∃ c' client',
    ServeConnection (daemon_env p) k c =
      (Returned (), [(AuthenticatePeer p k, payload)], c') ∧
    sent c' = le_bytes 4 10 ++ bytes_of_string "REDESK-ACK" ∧
    onReadyRead unconnected (sent c') client = Some client' ∧
    state_ client' = Disconnected ∧ rx_buffer_ client' = [] ∧
    emitted client' = emitted client ++
      [errorOccurred "IPC frame size out of bounds"] ++
      (if unconnected then [] else [SockDisconnect]) ++
      (if decide (state_ client = Disconnected) then [] else [stateChanged Disconnected]).
Proof.
  intros Hreq Hs Hrx.
  destruct (serve_request (daemon_env p) Daemon.HandleIpc k payload c) as (c' & E & Hsent);
    [done|done|exact Hreq|]. rewrite Hs in Hsent.
  exists c', (drained unconnected (set_rx (sent c') client) [] Malformed).
  split; [exact E|]. split; [exact Hsent|].
  unfold onReadyRead. rewrite Hrx. rewrite (drainFrames_spec _ _ [] Malformed).
  2: { rewrite Hsent. by constructor. }
  split; [done|]. unfold drained, disconnectFromService, setState.
  destruct unconnected; simpl; destruct (decide (state_ client = Disconnected)); simpl;
    rewrite ?app_nil_r, <-?app_assoc; done.
Qed.

Lemma be_header_value n :
  fits 32 n → frame_len (be_bytes 4 n) =
    to_u8 (Z.shiftr n 24) + 256 * (to_u8 (Z.shiftr n 16) + 256 * (to_u8 (Z.shiftr n 8) +
    256 * to_u8 n)).
Proof.
  intros Hn. assert (be_bytes 4 n = [to_u8 (Z.shiftr n 24); to_u8 (Z.shiftr n 16);
    to_u8 (Z.shiftr n 8); to_u8 n]) as ->.
  { unfold be_bytes. simpl. by rewrite !Z.shiftr_shiftr by lia. }
  rewrite frame_len_value by (repeat constructor; apply byte_ok_wrap).
  cbn [le_value]. lia.
Qed.

(** A frame as the client reads them (big-endian length
    covering opcode and payload) whose length is not a multiple of 256 is
    rejected by the server as oversized: it reads the length, calls no handler
    and writes nothing, whoever the peer and however the bytes are cut. *)
Theorem client_frame_rejected p k f rest c :
  frame_ok f → (2 + Z.of_nat (length f.2)) `mod` 256 ≠ 0 →
  read_ok c → stream c = encode_frame f ++ rest →
  ∃ c', ServeConnection (daemon_env p) k c = (Returned (), [], c') ∧ sent c' = sent c.
Proof.
  intros [_ Hlen] Hmod Hok Hs. unfold ServeConnection.
  destruct (authenticated _); simpl negb; cbv iota; [|by eexists].
  unfold encode_frame in Hs. rewrite <-!app_assoc in Hs.
  destruct (ReadExact_stream kFrameHeaderBytes c Hok) as [c1 H1].
  rewrite bool_decide_true in H1
    by (rewrite Hs, length_app, length_be_bytes; unfold kFrameHeaderBytes; lia).
  rewrite Hs, take_app_exact in H1 by (by rewrite length_be_bytes).
  destruct H1 as (-> & (_ & _ & _ & _ & _ & Hsent) & _).
  unfold kMaxFrameBytes in Hlen. change (Z.shiftl 1 20) with 1048576 in Hlen.
  set (n := 2 + Z.of_nat (length f.2)) in *.
  rewrite be_header_value by (unfold fits; change (2 ^ 32) with 4294967296; lia).
  pose proof (byte_ok_wrap (Z.shiftr n 24)) as [H24 _].
  pose proof (byte_ok_wrap (Z.shiftr n 16)) as [H16 _].
  pose proof (byte_ok_wrap (Z.shiftr n 8)) as [H8 _].
  assert (1 ≤ to_u8 n) as Hlow.
  { pose proof (byte_ok_wrap n) as [? _]. unfold wrap in *. change (2 ^ 8) with 256 in *. lia. }
  change (max_message_bytes (config_ (daemon_env p))) with 1048576.
  rewrite (proj2 (Z.ltb_lt 1048576 _)), orb_true_r by lia. by exists c1.
Qed.

(** ** Witnesses *)

Definition example_peer : Credentials :=
  {| so_peercred := Some (1000, 7); local_peercred := None; local_peerpid := None |}.

(** A connection with the given segments to read and room for any short reply. *)
Definition example_conn (segments : list (list Z)) : Conn :=
  {| incoming := segments; read_end := Closed; takes := [64%nat]; write_end := WFails;
     sent := [] |}.

Lemma daemon_reply_drops_client_witness :
  ∃ c' client',
    ServeConnection (daemon_env Linux) example_peer (example_conn [[1; 0; 0; 0]; [9]]) =
      (Returned (), [(AuthenticatePeer Linux example_peer, [9])], c') ∧
    sent c' = le_bytes 4 10 ++ bytes_of_string "REDESK-ACK" ∧
    onReadyRead false (sent c') ServiceClient_init = Some client' ∧
    state_ client' = Disconnected ∧ rx_buffer_ client' = [] ∧
    emitted client' = [] ++ [errorOccurred "IPC frame size out of bounds"] ++
      [SockDisconnect] ++ [].
Proof.
  refine (daemon_reply_drops_client Linux example_peer [9]
    (example_conn [[1; 0; 0; 0]; [9]]) false ServiceClient_init _ eq_refl eq_refl).
  unfold request, read_ok, write_ok. split_and!; try (vm_compute; congruence).
  - by repeat constructor.
  - exists []. reflexivity.
  - by repeat constructor.
  - vm_compute. lia.
Defined.

Lemma client_frame_rejected_witness :
  ∃ c', ServeConnection (daemon_env Linux) example_peer
          (example_conn [[0; 0]; [0; 4; 0; 9; 1; 1]]) = (Returned (), [], c') ∧
        sent c' = [].
Proof.
  refine (client_frame_rejected Linux example_peer (9, [1; 1]) []
    (example_conn [[0; 0]; [0; 4; 0; 9; 1; 1]]) _ _ _ eq_refl).
  - by split.
  - vm_compute. congruence.
  - by repeat constructor.
Defined.
