(* ===== verification/IpcMessages.v ===== *)
(** * The messages of the local channel ([proto/ipc.proto.h])

    The header declares the requests of the front end and the answers of the
    service as structures with default values, and the packed header in front of
    each body; no code encodes them.  What can be shown is what the declarations
    promise: an untouched message grants nothing, the tags tell requests from
    answers, and how the two ends that exist ([IpcServer], [ServiceClient])
    would take the declared header. *)

From S2P Require Import Prelude Types Wire IpcServer ServiceEngine ServiceClient.

(** ** Bodies

    A [CapabilitySet] is its bits; each structure has its default value. *)

Inductive SessionRole := kController | kHost.
Definition SessionRole_to_u8 (r : SessionRole) : Z :=
  match r with kController => 0 | kHost => 1 end.

Inductive InputEventKind :=
| kMouseMoveAbs | kMouseMoveRel | kMouseButton | kMouseScroll
| kKeyScancode | kKeyUnicode | kModifierSet.

Definition InputEventKind_to_u8 (k : InputEventKind) : Z :=
  match k with
  | kMouseMoveAbs => 0 | kMouseMoveRel => 1 | kMouseButton => 2 | kMouseScroll => 3
  | kKeyScancode => 4 | kKeyUnicode => 5 | kModifierSet => 6
  end.

Record ConnectToPeerRequest := {
  connect_peer_id : string;
  pin : string;
  unattended_password : string;
  desired : Z;
  codecs : list CodecTier;
}.
Definition ConnectToPeerRequest_init : ConnectToPeerRequest :=
  {| connect_peer_id := ""; pin := ""; unattended_password := "";
     desired := kNoCapabilities; codecs := floorCapabilities |}.

Record AcceptIncomingRequest := { accept_session_id : string; accept_granted : Z }.
Definition AcceptIncomingRequest_init : AcceptIncomingRequest :=
  {| accept_session_id := ""; accept_granted := kNoCapabilities |}.

Record RejectIncomingRequest := { reject_session_id : string; reason : string }.
Definition RejectIncomingRequest_init : RejectIncomingRequest :=
  {| reject_session_id := ""; reason := "" |}.

Record DisconnectRequest := { disconnect_session_id : string }.
Definition DisconnectRequest_init : DisconnectRequest := {| disconnect_session_id := "" |}.

Record SetCapabilitiesRequest := { set_session_id : string; set_granted : Z }.
Definition SetCapabilitiesRequest_init : SetCapabilitiesRequest :=
  {| set_session_id := ""; set_granted := kNoCapabilities |}.

Record RequestKeyframeRequest := { keyframe_session_id : string }.
Definition RequestKeyframeRequest_init : RequestKeyframeRequest :=
  {| keyframe_session_id := "" |}.

Record InputEvent := {
  kind : InputEventKind;
  x : Z;
  y : Z;
  button : Z;
  delta : Z;
  pressed : bool;
  extended : bool;
}.
Definition InputEvent_init : InputEvent :=
  {| kind := kMouseMoveAbs; x := 0; y := 0; button := 0; delta := 0; pressed := false;
     extended := false |}.

Record SendInputEventRequest := { send_session_id : string; send_event : InputEvent }.
Definition SendInputEventRequest_init : SendInputEventRequest :=
  {| send_session_id := ""; send_event := InputEvent_init |}.

Record ListDisplaysRequest := { list_session_id : string }.
Definition ListDisplaysRequest_init : ListDisplaysRequest := {| list_session_id := "" |}.

Record MyIdResponse := { redesk_id : string; fingerprint : string }.
Definition MyIdResponse_init : MyIdResponse := {| redesk_id := ""; fingerprint := "" |}.

Record SessionStateEvent := {
  state_session_id : string;
  role : SessionRole;
  phase : SessionPhase;
  negotiated_codec : CodecTier;
  detail : string;
}.
Definition SessionStateEvent_init : SessionStateEvent :=
  {| state_session_id := ""; role := kController; phase := kIdle; negotiated_codec := kNone;
     detail := "" |}.

Record IncomingRequestEvent := {
  incoming_session_id : string;
  incoming_peer_id : string;
  peer_fingerprint : string;
  requested : Z;
}.
Definition IncomingRequestEvent_init : IncomingRequestEvent :=
  {| incoming_session_id := ""; incoming_peer_id := ""; peer_fingerprint := "";
     requested := kNoCapabilities |}.

Record CapabilityGrantEvent := { grant_session_id : string; grant_granted : Z }.
Definition CapabilityGrantEvent_init : CapabilityGrantEvent :=
  {| grant_session_id := ""; grant_granted := kNoCapabilities |}.

Record FingerprintAlertEvent := {
  alert_peer_id : string;
  old_fingerprint : string;
  new_fingerprint : string;
  is_key_change : bool;
}.
Definition FingerprintAlertEvent_init : FingerprintAlertEvent :=
  {| alert_peer_id := ""; old_fingerprint := ""; new_fingerprint := ""; is_key_change := false |}.

(** [scale] is 1.0 by default and whole here. *)
Record DisplayInfo := {
  display_id : Z;
  display_size : Size;
  is_primary : bool;
  display_scale : Z;
}.
Definition DisplayInfo_init : DisplayInfo :=
  {| display_id := 0; display_size := {| width := 0; height := 0 |}; is_primary := false;
     display_scale := 1 |}.

Record DisplayListResponse := { displays_session_id : string; displays : list DisplayInfo }.
Definition DisplayListResponse_init : DisplayListResponse :=
  {| displays_session_id := ""; displays := [] |}.

Record InputEventPassthrough := { pass_session_id : string; pass_event : InputEvent }.
Definition InputEventPassthrough_init : InputEventPassthrough :=
  {| pass_session_id := ""; pass_event := InputEvent_init |}.

Record ErrorResponse := { error_code : ErrorCode; error_message : string }.
Definition ErrorResponse_init : ErrorResponse :=
  {| error_code := Internal; error_message := "" |}.

(** A message: its tag selects the body.  [GetMyIdRequest] has no fields. *)
Inductive Message :=
| MGetMyId
| MConnectToPeer (b : ConnectToPeerRequest)
| MAcceptIncoming (b : AcceptIncomingRequest)
| MRejectIncoming (b : RejectIncomingRequest)
| MDisconnect (b : DisconnectRequest)
| MSetCapabilities (b : SetCapabilitiesRequest)
| MRequestKeyframe (b : RequestKeyframeRequest)
| MSendInputEvent (b : SendInputEventRequest)
| MListDisplays (b : ListDisplaysRequest)
| MMyId (b : MyIdResponse)
| MSessionState (b : SessionStateEvent)
| MIncomingRequest (b : IncomingRequestEvent)
| MCapabilityGrant (b : CapabilityGrantEvent)
| MFingerprintAlert (b : FingerprintAlertEvent)
| MDisplayList (b : DisplayListResponse)
| MInputEvent (b : InputEventPassthrough)
| MError (b : ErrorResponse).

Definition type_of (m : Message) : IpcMessageType :=
  match m with
  | MGetMyId => kGetMyId
  | MConnectToPeer _ => kConnectToPeer
  | MAcceptIncoming _ => kAcceptIncoming
  | MRejectIncoming _ => kRejectIncoming
  | MDisconnect _ => kDisconnect
  | MSetCapabilities _ => kSetCapabilities
  | MRequestKeyframe _ => kRequestKeyframe
  | MSendInputEvent _ => kSendInputEvent
  | MListDisplays _ => kListDisplays
  | MMyId _ => kMyId
  | MSessionState _ => kSessionState
  | MIncomingRequest _ => kIncomingRequest
  | MCapabilityGrant _ => kCapabilityGrant
  | MFingerprintAlert _ => kFingerprintAlert
  | MDisplayList _ => kDisplayList
  | MInputEvent _ => IPC_kInputEvent
  | MError _ => kError
  end.

(** The body of a tag with its default values; no body for [kUnknown]. *)
Definition default_message (t : IpcMessageType) : option Message :=
  match t with
  | IPC_kUnknown => None
  | kGetMyId => Some MGetMyId
  | kConnectToPeer => Some (MConnectToPeer ConnectToPeerRequest_init)
  | kAcceptIncoming => Some (MAcceptIncoming AcceptIncomingRequest_init)
  | kRejectIncoming => Some (MRejectIncoming RejectIncomingRequest_init)
  | kDisconnect => Some (MDisconnect DisconnectRequest_init)
  | kSetCapabilities => Some (MSetCapabilities SetCapabilitiesRequest_init)
  | kRequestKeyframe => Some (MRequestKeyframe RequestKeyframeRequest_init)
  | kSendInputEvent => Some (MSendInputEvent SendInputEventRequest_init)
  | kListDisplays => Some (MListDisplays ListDisplaysRequest_init)
  | kMyId => Some (MMyId MyIdResponse_init)
  | kSessionState => Some (MSessionState SessionStateEvent_init)
  | kIncomingRequest => Some (MIncomingRequest IncomingRequestEvent_init)
  | kCapabilityGrant => Some (MCapabilityGrant CapabilityGrantEvent_init)
  | kFingerprintAlert => Some (MFingerprintAlert FingerprintAlertEvent_init)
  | kDisplayList => Some (MDisplayList DisplayListResponse_init)
  | IPC_kInputEvent => Some (MInputEvent InputEventPassthrough_init)
  | kError => Some (MError ErrorResponse_init)
  end.

(** The capabilities a message asks for or grants. *)
Definition capabilities_of (m : Message) : Z :=
  match m with
  | MConnectToPeer b => desired b
  | MAcceptIncoming b => accept_granted b
  | MSetCapabilities b => set_granted b
  | MIncomingRequest b => requested b
  | MCapabilityGrant b => grant_granted b
  | _ => kNoCapabilities
  end.

(** ** The header *)

Record IpcHeader := { version : Z; type : IpcMessageType; length_ : Z }.
Definition IpcHeader_init : IpcHeader :=
  {| version := kProtocolVersion; type := IPC_kUnknown; length_ := 0 |}.

(** Its bytes in memory on a little-endian machine: the structure is packed. *)
Definition header_bytes (h : IpcHeader) : list Z :=
  le_bytes 2 (version h) ++ le_bytes 2 (IpcMessageType_to_u16 (type h)) ++
  le_bytes 4 (length_ h).

Definition sizeof_IpcHeader : Z := 8.

(** ** What the declarations promise *)

Lemma IpcMessageType_inj t t' :
  IpcMessageType_to_u16 t = IpcMessageType_to_u16 t' → t = t'.
Proof. by destruct t, t'. Qed.

Lemma default_message_type t m : default_message t = Some m → type_of m = t.
Proof. destruct t; by intros [= <-]. Qed.

Lemma message_has_default m : default_message (type_of m) ≠ None.
Proof. by destruct m. Qed.

(** Default deny on the wire: a message of any type as it is created holds no
    capability, names no session or peer, claims no key change and no success;
    tags determine the type, and those of requests lie below 100, those of
    answers at 110 and above. *)
Lemma messages_default_deny t m :
  default_message t = Some m →
  (∀ c, has (capabilities_of m) c = false) ∧ type_of m = t ∧
  (∀ m', IpcMessageType_to_u16 (type_of m') = IpcMessageType_to_u16 t → type_of m' = type_of m) ∧
  match m with
  | MError b => error_code b ≠ Ok
  | MFingerprintAlert b => is_key_change b = false
  | MSessionState b => phase b = kIdle ∧ negotiated_codec b = kNone
  | MConnectToPeer b => codecs b = floorCapabilities ∧ pin b = "" ∧ unattended_password b = ""
  | _ => True
  end.
Proof.
  intros Hm. pose proof (default_message_type t m Hm) as Ht. split_and!; [|done| |].
  - assert (capabilities_of m = kNoCapabilities) as ->
      by (destruct t; simpl in Hm; by simplify_eq).
    by intros [].
  - intros m' Hm'. rewrite Ht. by apply IpcMessageType_inj.
  - destruct t; simpl in Hm; by simplify_eq.
Qed.

Lemma header_bytes_length h : Z.of_nat (length (header_bytes h)) = sizeof_IpcHeader.
Proof. unfold header_bytes. by rewrite !length_app, !length_le_bytes. Qed.

(** Neither end of the local channel understands
    the header the contract declares.  The service takes its first half, version
    and tag, for a length: 1 + 65536 times the tag, so that it reads on past the
    message for the tags up to 15 and drops the connection for every other.  The
    client drops the connection for every header, whatever follows. *)
Theorem contract_header_misread t n rest unconnected client :
  let h := {| version := kProtocolVersion; type := t; length_ := n |} in
  let len := Serve.frame_len (take 4 (header_bytes h)) in
  rx_buffer_ client = [] →
  len = 1 + 65536 * IpcMessageType_to_u16 t ∧
  (max_message_bytes Daemon.ipc_cfg < len ↔ 15 < IpcMessageType_to_u16 t) ∧
  ∃ client', onReadyRead unconnected (header_bytes h ++ rest) client = Some client' ∧
    state_ client' = Disconnected ∧ rx_buffer_ client' = [] ∧
    errorOccurred "IPC frame size out of bounds" ∈ emitted client'.
Proof.
  intros h len Hrx.
  assert (len = 1 + 65536 * IpcMessageType_to_u16 t) as Hlen by (by destruct t).
  split; [done|]. split.
  { rewrite Hlen. change (max_message_bytes Daemon.ipc_cfg) with 1048576. lia. }
  exists (drained unconnected (set_rx (header_bytes h ++ rest) client) [] Malformed).
  unfold onReadyRead. rewrite Hrx. split.
  - apply drainFrames_spec. constructor. cbn [app rx_buffer_ set_rx]. unfold next.
    rewrite (proj2 (Nat.ltb_ge _ _)) by
      (rewrite length_app; pose proof (header_bytes_length h); unfold sizeof_IpcHeader in *; lia).
    by destruct t.
  - unfold drained, disconnectFromService, setState, messages.
    destruct unconnected; simpl; case_decide; simpl; (split_and!; [done..|]); set_solver.
Qed.

(** ** Witnesses *)

Lemma contract_header_misread_witness :
  let h := {| version := kProtocolVersion; type := kGetMyId; length_ := 0 |} in
  Serve.frame_len (take 4 (header_bytes h)) = 655361 ∧
  ∃ client', onReadyRead false (header_bytes h) ServiceClient_init = Some client' ∧
    state_ client' = Disconnected.
Proof.
  destruct (contract_header_misread kGetMyId 0 [] false ServiceClient_init eq_refl)
    as (Hl & _ & client' & Hr & Hs & _).
  split; [exact Hl|]. exists client'. split; [exact Hr|exact Hs].
Defined.
