(* ===== verification/SessionController.v ===== *)
(** * The UI's session controller (src/ui/src/SessionController.h, SessionController.cpp)

    The object the QML front end talks to: a session state machine driven by
    user calls, by three single-shot timers that stand in for the backend, and
    by the errors of its [ServiceClient]. Timers carry the time they are due;
    time passes by [Tick], and [Fire] runs the callback of the earliest timer if
    it is due, as the event loop does. Signals are recorded in order.

    [QString::trimmed] is Qt's and is a parameter; strings are kept as Rocq
    strings. The properties ([read] are their getters, [notify] the signals they
    name) carry what the QML bindings on them show, see [QtProperties]. *)

From S2P Require Import Prelude QtProperties ServiceClient.

Inductive SessionState :=
  Idle | Resolving | Authenticating | Connecting | Connected | Failed.

#[export] Instance SessionState_eq_dec : EqDecision SessionState.
Proof. solve_decision. Defined.

Inductive Signal :=
  | identityChanged
  | stateChanged
  | remoteIdChanged
  | statusTextChanged
  | pinRequiredChanged
  | beingControlledChanged
  | capabilitiesChanged
  | unattendedConfiguredChanged
  | sessionStarted
  | sessionEnded
  | fullscreenRequested (on : bool).

#[export] Instance Signal_eq_dec : EqDecision Signal.
Proof. solve_decision. Defined.

(** The lambdas given to [QTimer::singleShot]. *)
Inductive Callback := Resolved | Verified | Established.

Record Timer := { due : Z; callback : Callback }.

Record Capabilities := {
  control_allowed_ : bool;
  clipboard_allowed_ : bool;
  file_transfer_allowed_ : bool;
  audio_allowed_ : bool;
  privacy_screen_ : bool;
}.

Record Host := {
  being_controlled_ : bool;
  controller_name_ : string;
  unattended_configured_ : bool;
}.

(** The properties, with the signal each one names ([identityChanged] is never
    emitted), and what the QML bindings on them hold ([QtProperties]). *)
Inductive Property :=
  | myId | myFingerprint
  | state | remoteId | statusText | pinRequired
  | beingControlled | controllerName
  | controlAllowed | clipboardAllowed | fileTransferAllowed | audioAllowed | privacyScreen
  | unattendedConfigured.

Definition notify (p : Property) : Signal :=
  match p with
  | myId | myFingerprint => identityChanged
  | state => stateChanged
  | remoteId => remoteIdChanged
  | statusText => statusTextChanged
  | pinRequired => pinRequiredChanged
  | beingControlled | controllerName => beingControlledChanged
  | controlAllowed | clipboardAllowed | fileTransferAllowed | audioAllowed
  | privacyScreen => capabilitiesChanged
  | unattendedConfigured => unattendedConfiguredChanged
  end.

Inductive Value := VString (s : string) | VBool (b : bool) | VState (s : SessionState).

Record SessionController := {
  client_ : ServiceClient;
  state_ : SessionState;
  remote_id_ : string;
  status_text_ : string;
  pin_required_ : bool;
  host_ : Host;
  caps_ : Capabilities;
  timers : list Timer;
  now : Z;
  signals : list Signal;
  shown : Property → Value;
}.

Definition my_id_ : string := "729 481 305".
Definition my_fingerprint_ : string := "9f2c 41ab 77de 0c18".

(** The getters. *)
Definition read (c : SessionController) (p : Property) : Value :=
  match p with
  | myId => VString my_id_
  | myFingerprint => VString my_fingerprint_
  | state => VState (state_ c)
  | remoteId => VString (remote_id_ c)
  | statusText => VString (status_text_ c)
  | pinRequired => VBool (pin_required_ c)
  | beingControlled => VBool (being_controlled_ (host_ c))
  | controllerName => VString (controller_name_ (host_ c))
  | controlAllowed => VBool (control_allowed_ (caps_ c))
  | clipboardAllowed => VBool (clipboard_allowed_ (caps_ c))
  | fileTransferAllowed => VBool (file_transfer_allowed_ (caps_ c))
  | audioAllowed => VBool (audio_allowed_ (caps_ c))
  | privacyScreen => VBool (privacy_screen_ (caps_ c))
  | unattendedConfigured => VBool (unattended_configured_ (host_ c))
  end.

(** *** Field updates *)

Definition set_client (k : ServiceClient) (c : SessionController) : SessionController :=
  {| client_ := k; state_ := state_ c; remote_id_ := remote_id_ c;
     status_text_ := status_text_ c; pin_required_ := pin_required_ c; host_ := host_ c;
     caps_ := caps_ c; timers := timers c; now := now c; signals := signals c; shown := shown c |}.
Definition store_state (s : SessionState) (c : SessionController) : SessionController :=
  {| client_ := client_ c; state_ := s; remote_id_ := remote_id_ c;
     status_text_ := status_text_ c; pin_required_ := pin_required_ c; host_ := host_ c;
     caps_ := caps_ c; timers := timers c; now := now c; signals := signals c; shown := shown c |}.
Definition set_remote_id (r : string) (c : SessionController) : SessionController :=
  {| client_ := client_ c; state_ := state_ c; remote_id_ := r;
     status_text_ := status_text_ c; pin_required_ := pin_required_ c; host_ := host_ c;
     caps_ := caps_ c; timers := timers c; now := now c; signals := signals c; shown := shown c |}.
Definition store_text (t : string) (c : SessionController) : SessionController :=
  {| client_ := client_ c; state_ := state_ c; remote_id_ := remote_id_ c;
     status_text_ := t; pin_required_ := pin_required_ c; host_ := host_ c;
     caps_ := caps_ c; timers := timers c; now := now c; signals := signals c; shown := shown c |}.
Definition set_pin_required (b : bool) (c : SessionController) : SessionController :=
  {| client_ := client_ c; state_ := state_ c; remote_id_ := remote_id_ c;
     status_text_ := status_text_ c; pin_required_ := b; host_ := host_ c;
     caps_ := caps_ c; timers := timers c; now := now c; signals := signals c; shown := shown c |}.
Definition set_host (h : Host) (c : SessionController) : SessionController :=
  {| client_ := client_ c; state_ := state_ c; remote_id_ := remote_id_ c;
     status_text_ := status_text_ c; pin_required_ := pin_required_ c; host_ := h;
     caps_ := caps_ c; timers := timers c; now := now c; signals := signals c; shown := shown c |}.
Definition set_caps (k : Capabilities) (c : SessionController) : SessionController :=
  {| client_ := client_ c; state_ := state_ c; remote_id_ := remote_id_ c;
     status_text_ := status_text_ c; pin_required_ := pin_required_ c; host_ := host_ c;
     caps_ := k; timers := timers c; now := now c; signals := signals c; shown := shown c |}.
Definition set_time (ts : list Timer) (n : Z) (c : SessionController) : SessionController :=
  {| client_ := client_ c; state_ := state_ c; remote_id_ := remote_id_ c;
     status_text_ := status_text_ c; pin_required_ := pin_required_ c; host_ := host_ c;
     caps_ := caps_ c; timers := ts; now := n; signals := signals c; shown := shown c |}.
Definition emit (s : Signal) (c : SessionController) : SessionController :=
  {| client_ := client_ c; state_ := state_ c; remote_id_ := remote_id_ c;
     status_text_ := status_text_ c; pin_required_ := pin_required_ c; host_ := host_ c;
     caps_ := caps_ c; timers := timers c; now := now c; signals := signals c ++ [s];
     shown := rebind read notify s c (shown c) |}.

(** *** Private members *)

Definition setState (s : SessionState) (c : SessionController) : SessionController :=
  if decide (state_ c = s) then c else emit stateChanged (store_state s c).

Definition setStatusText (t : string) (c : SessionController) : SessionController :=
  if bool_decide (status_text_ c = t) then c else emit statusTextChanged (store_text t c).

(** [QTimer::singleShot(ms, this, cb)]: kept in the order they will fire. *)
Fixpoint add_timer (t : Timer) (ts : list Timer) : list Timer :=
  match ts with
  | [] => [t]
  | t' :: ts' => if due t <? due t' then t :: ts else t' :: add_timer t ts'
  end.

Definition singleShot (ms : Z) (cb : Callback) (c : SessionController) : SessionController :=
  set_time (add_timer {| due := now c + ms; callback := cb |} (timers c)) (now c) c.

(** The slots of the client's signals: errors set the status text. *)
Definition on_client_emit (c : SessionController) (x : ServiceClient.Emit)
    : SessionController :=
  match x with
  | ServiceClient.errorOccurred reason => setStatusText ("Service unavailable: " +:+ reason) c
  | _ => c
  end.

(** An operation of the client, with the slots its signals run. *)
Definition on_client (o : ServiceClient.Op) (c : SessionController) : SessionController :=
  let k := ServiceClient.exec (client_ c) o in
  fold_left on_client_emit (drop (length (emitted (client_ c))) (emitted k)) (set_client k c).

(** The object at construction, its properties read once by their bindings. *)
Definition unconnected : SessionController :=
  let c sh :=
    {| client_ := ServiceClient_init; state_ := Idle; remote_id_ := "";
       status_text_ := "Ready"; pin_required_ := false;
       host_ := {| being_controlled_ := false; controller_name_ := "";
                   unattended_configured_ := false |};
       caps_ := {| control_allowed_ := true; clipboard_allowed_ := true;
                   file_transfer_allowed_ := false; audio_allowed_ := false;
                   privacy_screen_ := false |};
       timers := []; now := 0; signals := []; shown := sh |} in
  c (read (c (λ _, VBool false))).

Definition SessionController_init : SessionController :=
  on_client (ServiceClient.OConnect "" []) unconnected.

(** *** The timers' callbacks *)

Definition on_resolved (c : SessionController) : SessionController :=
  if negb (bool_decide (state_ c = Resolving)) then c
  else
    let c := emit pinRequiredChanged (set_pin_required true c) in
    let c := setState Authenticating c in
    setStatusText "Enter the session PIN shown on the remote machine" c.

Definition on_verified (c : SessionController) : SessionController :=
  let c := emit pinRequiredChanged (set_pin_required false c) in
  let c := setState Connecting c in
  let c := setStatusText "Connecting…" c in
  singleShot 500 Established c.

Definition on_established (c : SessionController) : SessionController :=
  let c := setState Connected c in
  let c := setStatusText ("Connected to " +:+ remote_id_ c) c in
  emit sessionStarted c.

Definition run_callback (cb : Callback) (c : SessionController) : SessionController :=
  match cb with
  | Resolved => on_resolved c
  | Verified => on_verified c
  | Established => on_established c
  end.

(** The event loop: the earliest timer, if it is due. *)
Definition fire (c : SessionController) : SessionController :=
  match timers c with
  | t :: ts => if due t <=? now c then run_callback (callback t) (set_time ts (now c) c) else c
  | [] => c
  end.

Section qt.
(** [QString::trimmed]. *)
Context (trimmed : string → string).

Definition connectToId (id : string) (c : SessionController) : SessionController :=
  let trimmed_ := trimmed id in
  if bool_decide (trimmed_ = "") then setStatusText "Enter a REDesk ID" c
  else if negb (bool_decide (state_ c = Idle)) && negb (bool_decide (state_ c = Failed))
  then c
  else
    let c := emit remoteIdChanged (set_remote_id trimmed_ c) in
    let c := setState Resolving c in
    let c := setStatusText ("Resolving " +:+ trimmed_ +:+ "…") c in
    singleShot 450 Resolved c.

Definition enterPin (pin : string) (c : SessionController) : SessionController :=
  if negb (bool_decide (state_ c = Authenticating)) then c
  else if bool_decide (trimmed pin = "") then setStatusText "PIN required" c
  else singleShot 350 Verified (setStatusText "Verifying…" c).

Definition disconnect (c : SessionController) : SessionController :=
  if bool_decide (state_ c = Idle) then c
  else
    let c := emit pinRequiredChanged (set_pin_required false c) in
    let c := setState Idle c in
    let c := setStatusText "Ready" c in
    emit sessionEnded c.

Definition set_unattended (b : bool) (c : SessionController) : SessionController :=
  set_host {| being_controlled_ := being_controlled_ (host_ c);
              controller_name_ := controller_name_ (host_ c);
              unattended_configured_ := b |} c.

Definition setUnattendedPassword (password : string) (c : SessionController)
    : SessionController :=
  let nowSet := negb (bool_decide (trimmed password = "")) in
  if negb (eqb (unattended_configured_ (host_ c)) nowSet)
  then emit unattendedConfiguredChanged (set_unattended nowSet c)
  else c.

Definition clearUnattendedPassword (c : SessionController) : SessionController :=
  if negb (unattended_configured_ (host_ c)) then c
  else emit unattendedConfiguredChanged (set_unattended false c).

Definition acceptIncoming (c : SessionController) : SessionController :=
  let name := controller_name_ (host_ c) in
  emit beingControlledChanged
    (set_host {| being_controlled_ := true;
                 controller_name_ := if bool_decide (name = "") then "Remote operator" else name;
                 unattended_configured_ := unattended_configured_ (host_ c) |} c).

Definition rejectIncoming (c : SessionController) : SessionController :=
  emit beingControlledChanged
    (set_host {| being_controlled_ := false; controller_name_ := "";
                 unattended_configured_ := unattended_configured_ (host_ c) |} c).

Definition setControlAllowed (v : bool) (c : SessionController) : SessionController :=
  let k := caps_ c in
  if eqb (control_allowed_ k) v then c
  else emit capabilitiesChanged
         (set_caps {| control_allowed_ := v; clipboard_allowed_ := clipboard_allowed_ k;
                      file_transfer_allowed_ := file_transfer_allowed_ k;
                      audio_allowed_ := audio_allowed_ k;
                      privacy_screen_ := privacy_screen_ k |} c).

Definition setClipboardAllowed (v : bool) (c : SessionController) : SessionController :=
  let k := caps_ c in
  if eqb (clipboard_allowed_ k) v then c
  else emit capabilitiesChanged
         (set_caps {| control_allowed_ := control_allowed_ k; clipboard_allowed_ := v;
                      file_transfer_allowed_ := file_transfer_allowed_ k;
                      audio_allowed_ := audio_allowed_ k;
                      privacy_screen_ := privacy_screen_ k |} c).

Definition setFileTransferAllowed (v : bool) (c : SessionController) : SessionController :=
  let k := caps_ c in
  if eqb (file_transfer_allowed_ k) v then c
  else emit capabilitiesChanged
         (set_caps {| control_allowed_ := control_allowed_ k;
                      clipboard_allowed_ := clipboard_allowed_ k;
                      file_transfer_allowed_ := v; audio_allowed_ := audio_allowed_ k;
                      privacy_screen_ := privacy_screen_ k |} c).

Definition setAudioAllowed (v : bool) (c : SessionController) : SessionController :=
  let k := caps_ c in
  if eqb (audio_allowed_ k) v then c
  else emit capabilitiesChanged
         (set_caps {| control_allowed_ := control_allowed_ k;
                      clipboard_allowed_ := clipboard_allowed_ k;
                      file_transfer_allowed_ := file_transfer_allowed_ k;
                      audio_allowed_ := v; privacy_screen_ := privacy_screen_ k |} c).

Definition setPrivacyScreen (v : bool) (c : SessionController) : SessionController :=
  let k := caps_ c in
  if eqb (privacy_screen_ k) v then c
  else emit capabilitiesChanged
         (set_caps {| control_allowed_ := control_allowed_ k;
                      clipboard_allowed_ := clipboard_allowed_ k;
                      file_transfer_allowed_ := file_transfer_allowed_ k;
                      audio_allowed_ := audio_allowed_ k; privacy_screen_ := v |} c).

Definition switchMonitor (_ : Z) (c : SessionController) : SessionController := c.
Definition requestFullscreen (on : bool) (c : SessionController) : SessionController :=
  emit (fullscreenRequested on) c.

(** ** Runs *)

Inductive Op :=
  | ConnectToId (id : string)
  | EnterPin (pin : string)
  | Disconnect
  | SetUnattendedPassword (password : string)
  | ClearUnattendedPassword
  | AcceptIncoming
  | RejectIncoming
  | SetControlAllowed (v : bool)
  | SetClipboardAllowed (v : bool)
  | SetFileTransferAllowed (v : bool)
  | SetAudioAllowed (v : bool)
  | SetPrivacyScreen (v : bool)
  | SwitchMonitor (index : Z)
  | RequestFullscreen (on : bool)
  | ClientEvent (o : ServiceClient.Op)
  | Tick (ms : nat)
  | Fire.

Definition exec (c : SessionController) (o : Op) : SessionController :=
  match o with
  | ConnectToId id => connectToId id c
  | EnterPin pin => enterPin pin c
  | Disconnect => disconnect c
  | SetUnattendedPassword p => setUnattendedPassword p c
  | ClearUnattendedPassword => clearUnattendedPassword c
  | AcceptIncoming => acceptIncoming c
  | RejectIncoming => rejectIncoming c
  | SetControlAllowed v => setControlAllowed v c
  | SetClipboardAllowed v => setClipboardAllowed v c
  | SetFileTransferAllowed v => setFileTransferAllowed v c
  | SetAudioAllowed v => setAudioAllowed v c
  | SetPrivacyScreen v => setPrivacyScreen v c
  | SwitchMonitor i => switchMonitor i c
  | RequestFullscreen on => requestFullscreen on c
  | ClientEvent o => on_client o c
  | Tick ms => set_time (timers c) (now c + Z.of_nat ms) c
  | Fire => fire c
  end.

Definition run (c : SessionController) (ops : list Op) : SessionController :=
  fold_left exec ops c.
End qt.

(** ** What reaching a session takes *)

(** A session is up, was up, or is being brought up after a verified PIN. *)
Definition progressed (c : SessionController) : Prop :=
  Exists (λ t, callback t ≠ Resolved) (timers c) ∨
  state_ c = Connecting ∨ state_ c = Connected ∨ sessionStarted ∈ signals c.

(** [c'] has the state and the timers of [c] and has emitted no [sessionStarted]. *)
Definition calm (c c' : SessionController) : Prop :=
  timers c' = timers c ∧ state_ c' = state_ c ∧
  ∃ l, signals c' = signals c ++ l ∧ sessionStarted ∉ l.

#[export] Instance calm_preorder : PreOrder calm.
Proof.
  split.
  - intros c. repeat split. exists []. rewrite app_nil_r. split; [done|]. set_solver.
  - intros a b c (H1 & H2 & l & H3 & Hl) (H1' & H2' & l' & H3' & Hl').
    split; [congruence|]. split; [congruence|].
    exists (l ++ l'). rewrite H3', H3, app_assoc. split; [done|]. set_solver.
Qed.

Lemma calm_emit s c : s ≠ sessionStarted → calm c (emit s c).
Proof. intros. repeat split. exists [s]. split; [done|]. set_solver. Qed.

Lemma calm_step s c c' :
  s ≠ sessionStarted → timers c' = timers c → state_ c' = state_ c →
  signals c' = signals c → calm c (emit s c').
Proof.
  intros Hs Ht Hst Hsig. split; [done|]. split; [done|]. exists [s].
  simpl. rewrite Hsig. split; [done|]. set_solver.
Qed.

Lemma calm_text t c : calm c (setStatusText t c).
Proof.
  unfold setStatusText. case_bool_decide; [reflexivity|].
  by apply calm_step.
Qed.

Lemma calm_fold l c : calm c (fold_left on_client_emit l c).
Proof.
  revert c. induction l as [|x l IH]; intros c; [reflexivity|]. simpl.
  etrans; [|apply IH]. destruct x; try reflexivity. apply calm_text.
Qed.

Lemma calm_client o c : calm c (on_client o c).
Proof. unfold on_client. exact (calm_fold _ (set_client _ c)). Qed.

Lemma progressed_calm c c' : calm c c' → progressed c' → progressed c.
Proof.
  unfold progressed. intros (-> & -> & l & -> & Hl). set_solver.
Qed.

Lemma add_timer_perm t ts : add_timer t ts ≡ₚ t :: ts.
Proof.
  induction ts as [|t' ts IH]; simpl; [done|]. case_match; [done|].
  rewrite IH. apply Permutation_swap.
Qed.

Lemma progressed_singleShot ms cb c :
  progressed (singleShot ms cb c) → cb ≠ Resolved ∨ progressed c.
Proof.
  unfold progressed, singleShot. cbn [timers set_time state_ signals].
  rewrite add_timer_perm, Exists_cons. naive_solver.
Qed.

Lemma progressed_setState s c :
  s ≠ Connecting → s ≠ Connected → progressed (setState s c) → progressed c.
Proof.
  unfold setState, progressed. intros. destruct (decide _); [done|].
  cbn [timers emit store_state state_ signals] in *. set_solver.
Qed.

(** The state the machine can be in: the signals say [Failed] is never entered. *)
Lemma not_failed_setState s c : s ≠ Failed → state_ c ≠ Failed → state_ (setState s c) ≠ Failed.
Proof. intros. unfold setState. by destruct (decide _). Qed.

Lemma state_text t c : state_ (setStatusText t c) = state_ c.
Proof. unfold setStatusText. by case_bool_decide. Qed.

Section discipline.
Context (trimmed : string → string).

(** The operations that touch neither the state nor the timers. *)
Definition passive (o : Op) : Prop :=
  match o with ConnectToId _ | EnterPin _ | Disconnect | Tick _ | Fire => False | _ => True end.

#[local] Instance passive_dec o : Decision (passive o).
Proof. destruct o; simpl; apply _. Defined.

Lemma calm_passive c o : passive o → calm c (exec trimmed c o).
Proof.
  destruct o; try done; intros _; simpl.
  all: try reflexivity; try apply calm_client; try by apply calm_emit.
  - unfold setUnattendedPassword. destruct (negb _); [|reflexivity].
    by apply calm_step.
  - unfold clearUnattendedPassword. destruct (negb _); [reflexivity|].
    by apply calm_step.
  - by apply calm_step.
  - by apply calm_step.
  - unfold setControlAllowed. destruct (eqb _ _); [reflexivity|].
    by apply calm_step.
  - unfold setClipboardAllowed. destruct (eqb _ _); [reflexivity|].
    by apply calm_step.
  - unfold setFileTransferAllowed. destruct (eqb _ _); [reflexivity|].
    by apply calm_step.
  - unfold setAudioAllowed. destruct (eqb _ _); [reflexivity|].
    by apply calm_step.
  - unfold setPrivacyScreen. destruct (eqb _ _); [reflexivity|].
    by apply calm_step.
Qed.

(** An accepted PIN. *)
Definition accepts (c : SessionController) (o : Op) : Prop :=
  ∃ pin, o = EnterPin pin ∧ state_ c = Authenticating ∧ trimmed pin ≠ "".

Lemma progressed_fire c : progressed (fire c) → progressed c.
Proof.
  unfold fire. destruct (timers c) as [|t ts] eqn:Et; [done|].
  destruct (due t <=? now c); [|done].
  destruct (callback t) eqn:Ecb; simpl.
  2, 3: intros _; left; rewrite Et, Exists_cons; left; by rewrite Ecb.
  assert (progressed (set_time ts (now c) c) → progressed c) as Hset.
  { unfold progressed. cbn [timers set_time state_ signals]. rewrite Et, Exists_cons.
    naive_solver. }
  unfold on_resolved. destruct (negb _); [done|].
  intros H. apply Hset. eapply progressed_calm in H; [|apply calm_text].
  apply progressed_setState in H; [|done|done].
  eapply progressed_calm; [|exact H].
  by apply calm_step.
Qed.

Lemma progressed_exec c o :
  progressed (exec trimmed c o) → progressed c ∨ accepts c o.
Proof.
  intros H. destruct (decide (passive o)) as [Hp|Hp].
  { left. eapply progressed_calm; [by apply calm_passive|exact H]. }
  destruct o as [id|pin| | | | | | | | | | | | | |ms|]; try done; simpl in H.
  - left. unfold connectToId in H. case_bool_decide.
    { eapply progressed_calm; [apply calm_text|done]. }
    destruct (_ && _); [done|]. apply progressed_singleShot in H as [?|H]; [done|].
    eapply progressed_calm in H; [|apply calm_text].
    apply progressed_setState in H; [|done|done].
    eapply progressed_calm; [|exact H].
    by apply calm_step.
  - unfold enterPin in H. case_bool_decide as Hs; simpl in H; [|by left].
    case_bool_decide; [left; by eapply progressed_calm; [apply calm_text|]|].
    right. by exists pin.
  - left. unfold disconnect in H. case_bool_decide; [done|].
    eapply progressed_calm in H; [|by apply calm_emit].
    eapply progressed_calm in H; [|apply calm_text].
    apply progressed_setState in H; [|done|done].
    eapply progressed_calm; [|exact H].
    by apply calm_step.
  - left. exact H.
  - left. by apply progressed_fire.
Qed.

Lemma never_failed c o : state_ c ≠ Failed → state_ (exec trimmed c o) ≠ Failed.
Proof.
  intros H. destruct (decide (passive o)) as [Hp|Hp].
  { destruct (calm_passive c o Hp) as (_ & -> & _). done. }
  destruct o as [id|pin| | | | | | | | | | | | | |ms|]; try done; simpl.
  - unfold connectToId. case_bool_decide; [by rewrite state_text|].
    destruct (_ && _); [done|]. cbn [singleShot set_time state_].
    rewrite state_text. by apply not_failed_setState.
  - unfold enterPin. case_bool_decide; [|done]. simpl. case_bool_decide; [by rewrite state_text|].
    cbn [singleShot set_time state_]. by rewrite state_text.
  - unfold disconnect. case_bool_decide; [done|]. cbn [emit state_].
    rewrite state_text. by apply not_failed_setState.
  - unfold fire. destruct (timers c) as [|t ts]; [done|]. destruct (_ <=? _); [|done].
    destruct (callback t); simpl.
    + unfold on_resolved. destruct (negb _); [done|]. rewrite state_text.
      by apply not_failed_setState.
    + cbn [on_verified singleShot set_time state_]. rewrite state_text.
      by apply not_failed_setState.
    + cbn [on_established emit state_]. rewrite state_text. by apply not_failed_setState.
Qed.
End discipline.

(** ** Theorems *)


(** C22. In every run of the controller, whatever the user,
    the timers and the service client do: it never enters Failed, and if a
    session is up, is being brought up, or was ever announced, a non-empty PIN
    was accepted before, in the state Authenticating. *)
Theorem ui_session_needs_pin trimmed ops :
  let c := run trimmed SessionController_init ops in
  state_ c ≠ Failed ∧
  (state_ c = Connecting ∨ state_ c = Connected ∨ sessionStarted ∈ signals c →
   ∃ pre pin post, ops = pre ++ EnterPin pin :: post ∧
     state_ (run trimmed SessionController_init pre) = Authenticating ∧ trimmed pin ≠ "").
Proof.
  intros c. assert (state_ c ≠ Failed ∧ (progressed c →
    ∃ pre pin post, ops = pre ++ EnterPin pin :: post ∧
     state_ (run trimmed SessionController_init pre) = Authenticating ∧ trimmed pin ≠ ""))
    as [Hf Hp].
  2: { split; [done|]. intros H. apply Hp. right. tauto. }
  subst c. induction ops as [|o ops [IHf IHp]] using rev_ind.
  - split; [done|]. unfold progressed. simpl. rewrite Exists_nil. set_solver.
  - unfold run. rewrite fold_left_app. simpl. fold (run trimmed SessionController_init ops).
    split; [by apply never_failed|].
    intros [(pre & pin & post & -> & H)%IHp|(pin & -> & Hs & Ht)]%progressed_exec.
    + exists pre, pin, (post ++ [o]). split; [|done]. by rewrite <-app_assoc.
    + by exists ops, pin, [].
Qed.

(** ** The machine behind the texts and signals

    What decides the course of a session: the state, the remote ID, the PIN
    prompt, the pending timers and the clock. *)

Record View := {
  v_state : SessionState;
  v_remote : string;
  v_pin : bool;
  v_timers : list Timer;
  v_now : Z;
}.

Definition view (c : SessionController) : View :=
  {| v_state := state_ c; v_remote := remote_id_ c; v_pin := pin_required_ c;
     v_timers := timers c; v_now := now c |}.

Definition v_callback (cb : Callback) (ts : list Timer) (v : View) : View :=
  match cb with
  | Resolved =>
      if decide (v_state v = Resolving)
      then {| v_state := Authenticating; v_remote := v_remote v; v_pin := true;
              v_timers := ts; v_now := v_now v |}
      else {| v_state := v_state v; v_remote := v_remote v; v_pin := v_pin v;
              v_timers := ts; v_now := v_now v |}
  | Verified =>
      {| v_state := Connecting; v_remote := v_remote v; v_pin := false;
         v_timers := add_timer {| due := v_now v + 500; callback := Established |} ts;
         v_now := v_now v |}
  | Established =>
      {| v_state := Connected; v_remote := v_remote v; v_pin := v_pin v;
         v_timers := ts; v_now := v_now v |}
  end.

(** The abstract machine: every other operation leaves it alone. *)
Definition v_exec (trimmed : string → string) (v : View) (o : Op) : View :=
  match o with
  | ConnectToId id =>
      if decide (trimmed id ≠ "" ∧ (v_state v = Idle ∨ v_state v = Failed))
      then {| v_state := Resolving; v_remote := trimmed id; v_pin := v_pin v;
              v_timers := add_timer {| due := v_now v + 450; callback := Resolved |} (v_timers v);
              v_now := v_now v |}
      else v
  | EnterPin pin =>
      if decide (trimmed pin ≠ "" ∧ v_state v = Authenticating)
      then {| v_state := v_state v; v_remote := v_remote v; v_pin := v_pin v;
              v_timers := add_timer {| due := v_now v + 350; callback := Verified |} (v_timers v);
              v_now := v_now v |}
      else v
  | Disconnect =>
      if decide (v_state v = Idle) then v
      else {| v_state := Idle; v_remote := v_remote v; v_pin := false;
              v_timers := v_timers v; v_now := v_now v |}
  | Tick ms =>
      {| v_state := v_state v; v_remote := v_remote v; v_pin := v_pin v;
         v_timers := v_timers v; v_now := v_now v + Z.of_nat ms |}
  | Fire =>
      match v_timers v with
      | t :: ts => if due t <=? v_now v then v_callback (callback t) ts v else v
      | [] => v
      end
  | _ => v
  end.

Definition v_run (trimmed : string → string) (v : View) (ops : list Op) : View :=
  fold_left (v_exec trimmed) ops v.

Lemma view_text t c : view (setStatusText t c) = view c.
Proof. unfold setStatusText. by case_bool_decide. Qed.

Lemma view_emit s c : view (emit s c) = view c.
Proof. done. Qed.

Lemma view_setState s c :
  view (setState s c) = {| v_state := s; v_remote := remote_id_ c; v_pin := pin_required_ c;
                           v_timers := timers c; v_now := now c |}.
Proof. unfold setState. by destruct (decide _) as [<-|]. Qed.

Lemma view_singleShot ms cb c :
  view (singleShot ms cb c) =
    {| v_state := v_state (view c); v_remote := v_remote (view c); v_pin := v_pin (view c);
       v_timers := add_timer {| due := v_now (view c) + ms; callback := cb |} (v_timers (view c));
       v_now := v_now (view c) |}.
Proof. done. Qed.

Create Rewrite HintDb ui.
#[export] Hint Rewrite view_text view_emit view_setState view_singleShot : ui.

Lemma view_fold l c : view (fold_left on_client_emit l c) = view c.
Proof.
  revert c. induction l as [|x l IH]; intros c; [done|]. simpl. rewrite IH.
  destruct x; try done. apply view_text.
Qed.

Lemma view_client o c : view (on_client o c) = view c.
Proof. unfold on_client. by rewrite view_fold. Qed.

Lemma view_fire trimmed c : view (fire c) = v_exec trimmed (view c) Fire.
Proof.
  unfold fire. cbn [v_exec view v_timers v_now]. destruct (timers c) as [|t ts]; [done|].
  destruct (due t <=? now c); [|done]. destruct (callback t); simpl.
  - unfold on_resolved. cbn [state_ set_time]. case_bool_decide as Hs; simpl.
    + rewrite decide_True by done. by autorewrite with ui.
    + by rewrite decide_False.
  - unfold on_verified. by autorewrite with ui.
  - unfold on_established. by autorewrite with ui.
Qed.

Lemma view_exec trimmed c o : view (exec trimmed c o) = v_exec trimmed (view c) o.
Proof.
  destruct o as [id|pin| |p| | | | | | | | | | |o|ms|]; cbn [exec]; try done.
  - unfold connectToId. cbn [v_exec view v_state]. case_bool_decide as H1.
    { rewrite view_text, decide_False by tauto. done. }
    repeat case_bool_decide; simpl; try (rewrite decide_False by tauto; done);
      rewrite decide_True by tauto; by autorewrite with ui.
  - unfold enterPin. cbn [v_exec view v_state]. case_bool_decide as H1; simpl.
    2: { by rewrite decide_False by tauto. }
    case_bool_decide; [rewrite decide_False by tauto|rewrite decide_True by tauto];
      by autorewrite with ui.
  - unfold disconnect. cbn [v_exec view v_state].
    case_bool_decide; [by rewrite decide_True|rewrite decide_False by done].
    by autorewrite with ui.
  - unfold setUnattendedPassword. by destruct (negb _).
  - unfold clearUnattendedPassword. by destruct (negb _).
  - unfold setControlAllowed. by destruct (eqb _ _).
  - unfold setClipboardAllowed. by destruct (eqb _ _).
  - unfold setFileTransferAllowed. by destruct (eqb _ _).
  - unfold setAudioAllowed. by destruct (eqb _ _).
  - unfold setPrivacyScreen. by destruct (eqb _ _).
  - apply view_client.
  - apply view_fire.
Qed.

Lemma view_run trimmed c ops : view (run trimmed c ops) = v_run trimmed (view c) ops.
Proof.
  revert c. induction ops as [|o ops IH]; intros c; [done|].
  unfold run, v_run in *. simpl. by rewrite IH, view_exec.
Qed.

(** C21. The controller refines the abstract machine of its session:
    in every run, with any calls, timers and client events, the state, the
    remote ID, the PIN prompt, the pending timers and the clock are those of
    the machine, which knows no texts, signals, capabilities or client. *)
Theorem ui_refinement trimmed c ops :
  view (run trimmed c ops) = v_run trimmed (view c) ops.
Proof. apply view_run. Qed.

Lemma due_now n : (n <=? n) = true.
Proof. apply Z.leb_refl. Qed.

Lemma view_fields c v :
  view c = v →
  state_ c = v_state v ∧ remote_id_ c = v_remote v ∧ pin_required_ c = v_pin v ∧
  timers c = v_timers v ∧ now c = v_now v.
Proof. by intros <-. Qed.

Lemma v_run_cons trimmed v o ops :
  v_run trimmed v (o :: ops) = v_run trimmed (v_exec trimmed v o) ops.
Proof. done. Qed.

(** Compute a run of the machine step by step. *)
Ltac step_view :=
  repeat match goal with
  | |- context [v_run _ _ (_ :: _)] =>
      rewrite v_run_cons;
      cbn [view v_exec v_state v_remote v_pin v_timers v_now add_timer due callback v_callback];
      repeat match goal with
      | |- context [Z.of_nat ?n] =>
          let v := eval vm_compute in (Z.of_nat n) in change (Z.of_nat n) with v
      end;
      repeat first
        [ rewrite due_now
        | rewrite decide_True by (first [done | tauto])
        | rewrite decide_False by (first [done | tauto]) ];
      cbn [v_callback v_state v_remote v_pin v_timers v_now add_timer due callback];
      repeat first
        [ rewrite decide_True by (first [done | tauto])
        | rewrite decide_False by (first [done | tauto]) ]
  end; cbn [v_run fold_left].

(** *** What a step adds to the signals *)

Lemma last_emit s c : last (signals (emit s c)) = Some s.
Proof. simpl. apply last_snoc. Qed.

Lemma fire_established c d :
  timers c = [{| due := d; callback := Established |}] → d = now c →
  last (signals (fire c)) = Some sessionStarted.
Proof.
  intros Ht Hd. unfold fire. rewrite Ht. cbn [due callback]. rewrite Hd, due_now.
  apply last_emit.
Qed.

Lemma text_setStatusText t c : status_text_ (setStatusText t c) = t.
Proof. unfold setStatusText. by case_bool_decide. Qed.

(** [c'] extends the signals of [c] without a [sessionStarted]. *)
Definition hush (c c' : SessionController) : Prop :=
  ∃ l, signals c' = signals c ++ l ∧ sessionStarted ∉ l.

Lemma hush_refl c : hush c c.
Proof. exists []. rewrite app_nil_r. split; [done|]. set_solver. Qed.

Lemma hush_emit s c c' : s ≠ sessionStarted → hush c c' → hush c (emit s c').
Proof.
  intros Hs (l & H & Hl). exists (l ++ [s]). simpl. rewrite H, app_assoc.
  split; [done|]. set_solver.
Qed.

Lemma hush_text t c c' : hush c c' → hush c (setStatusText t c').
Proof.
  intros H. unfold setStatusText. case_bool_decide; [done|]. by apply hush_emit.
Qed.

Lemma hush_state s c c' : hush c c' → hush c (setState s c').
Proof. intros H. unfold setState. destruct (decide _); [done|]. by apply hush_emit. Qed.

(** The session lifecycle on the intended path: from an idle
    controller without timers, connecting to an ID, entering the PIN when asked
    and letting each timer fire on time passes through Resolving,
    Authenticating and Connecting to Connected, and asks for the PIN exactly
    while authenticating. *)
Theorem ui_lifecycle trimmed id pin c :
  trimmed id ≠ "" → trimmed pin ≠ "" → state_ c = Idle → timers c = [] →
  let c1 := run trimmed c [ConnectToId id] in
  let c2 := run trimmed c1 [Tick 450; Fire] in
  let c3 := run trimmed c2 [EnterPin pin; Tick 350; Fire] in
  let c4 := run trimmed c3 [Tick 500; Fire] in
  let shows c s pin ts t := view c = {| v_state := s; v_remote := trimmed id; v_pin := pin;
                                        v_timers := ts; v_now := t |} in
  let t0 := now c in
  shows c1 Resolving (pin_required_ c) [{| due := t0 + 450; callback := Resolved |}] t0 ∧
  shows c2 Authenticating true [] (t0 + 450) ∧
  shows c3 Connecting false [{| due := t0 + 450 + 350 + 500; callback := Established |}]
    (t0 + 450 + 350) ∧
  shows c4 Connected false [] (t0 + 450 + 350 + 500).
Proof.
  intros Hid Hpin Hs Ht c1 c2 c3 c4 shows t0.
  assert (view c = {| v_state := Idle; v_remote := remote_id_ c; v_pin := pin_required_ c;
                      v_timers := []; v_now := t0 |}) as Hv.
  { unfold view. by rewrite Hs, Ht. }
  assert (shows c1 Resolving (pin_required_ c) [{| due := t0 + 450; callback := Resolved |}] t0)
    as H1 by (unfold shows, c1; rewrite view_run, Hv; by step_view).
  assert (shows c2 Authenticating true [] (t0 + 450)) as H2
    by (unfold shows, c2; rewrite view_run, H1; by step_view).
  assert (shows c3 Connecting false [{| due := t0 + 450 + 350 + 500; callback := Established |}]
    (t0 + 450 + 350)) as H3
    by (unfold shows, c3; rewrite view_run, H2; by step_view).
  split_and!; [done..|]. unfold shows, c4. rewrite view_run, H3. by step_view.
Qed.

(** Disconnecting while the PIN is being verified does
    not stick: the pending timers are not cancelled, and when they fire the
    controller reports and announces a session after it has announced its end. *)
Theorem ui_disconnect_undone trimmed pin c :
  trimmed pin ≠ "" → state_ c = Authenticating → timers c = [] →
  let c1 := run trimmed c [EnterPin pin; Disconnect] in
  let c2 := run trimmed c1 [Tick 350; Fire; Tick 500; Fire] in
  state_ c1 = Idle ∧ last (signals c1) = Some sessionEnded ∧
  view c2 = {| v_state := Connected; v_remote := remote_id_ c; v_pin := false;
               v_timers := []; v_now := now c + 350 + 500 |} ∧
  last (signals c2) = Some sessionStarted.
Proof.
  intros Hpin Hs Ht c1 c2.
  assert (view c1 = {| v_state := Idle; v_remote := remote_id_ c; v_pin := false;
    v_timers := [{| due := now c + 350; callback := Verified |}]; v_now := now c |}) as H1.
  { unfold c1. rewrite view_run. unfold view at 1. rewrite Hs, Ht. by step_view. }
  set (c3 := run trimmed c1 [Tick 350; Fire; Tick 500]).
  assert (view c3 = {| v_state := Connecting; v_remote := remote_id_ c; v_pin := false;
    v_timers := [{| due := now c + 350 + 500; callback := Established |}];
    v_now := now c + 350 + 500 |}) as H3.
  { unfold c3. rewrite view_run, H1. by step_view. }
  split; [exact (f_equal v_state H1)|]. split.
  { unfold c1, run. cbn [fold_left exec]. unfold disconnect.
    assert (state_ (enterPin trimmed pin c) = Authenticating) as Ha.
    { unfold enterPin. rewrite Hs. simpl. case_bool_decide; [by rewrite state_text|].
      cbn [singleShot set_time state_]. by rewrite state_text. }
    rewrite Ha. simpl bool_decide. cbv iota. apply last_emit. }
  split.
  - unfold c2. rewrite view_run, H1. by step_view.
  - change c2 with (fire c3). eapply fire_established; [exact (f_equal v_timers H3)|].
    exact (eq_sym (f_equal v_now H3)).
Qed.

(** A controller whose first session was dropped while being brought up. *)
Lemma dropped_session trimmed id pin :
  trimmed id ≠ "" → trimmed pin ≠ "" →
  view (run trimmed SessionController_init
    [ConnectToId id; Tick 450; Fire; EnterPin pin; Tick 350; Fire; Disconnect]) =
  {| v_state := Idle; v_remote := trimmed id; v_pin := false;
     v_timers := [{| due := 1300; callback := Established |}]; v_now := 800 |}.
Proof.
  intros Hid Hpin. rewrite view_run. change (view SessionController_init) with
    {| v_state := Idle; v_remote := ""; v_pin := false; v_timers := []; v_now := 0 |}.
  by step_view.
Qed.

(** The session a PIN was entered for need not be
    the one it starts: after disconnecting from a first machine while its session
    is being brought up and connecting to a second one, the first session's timer
    reports the second machine as connected while its PIN is still being asked for. *)
Theorem ui_session_without_its_pin trimmed id1 pin1 id2 :
  trimmed id1 ≠ "" → trimmed pin1 ≠ "" → trimmed id2 ≠ "" →
  let c1 := run trimmed SessionController_init
    [ConnectToId id1; Tick 450; Fire; EnterPin pin1; Tick 350; Fire; Disconnect] in
  let c2 := run trimmed c1 [ConnectToId id2; Tick 450; Fire] in
  let c3 := run trimmed c2 [Tick 50; Fire] in
  state_ c1 = Idle ∧
  (state_ c2 = Authenticating ∧ remote_id_ c2 = trimmed id2 ∧ pin_required_ c2 = true) ∧
  (state_ c3 = Connected ∧ remote_id_ c3 = trimmed id2 ∧ pin_required_ c3 = true ∧
   last (signals c3) = Some sessionStarted).
Proof.
  intros Hid Hpin Hid2 c1 c2 c3.
  pose proof (dropped_session trimmed id1 pin1 Hid Hpin) as H1. fold c1 in H1.
  clearbody c1.
  assert (view c2 = {| v_state := Authenticating; v_remote := trimmed id2; v_pin := true;
    v_timers := [{| due := 1300; callback := Established |}]; v_now := 1250 |}) as H2.
  { unfold c2. rewrite view_run, H1. by step_view. }
  clearbody c2. set (c2' := run trimmed c2 [Tick 50]).
  assert (view c2' = {| v_state := Authenticating; v_remote := trimmed id2; v_pin := true;
    v_timers := [{| due := 1300; callback := Established |}]; v_now := 1300 |}) as H2'.
  { unfold c2'. rewrite view_run, H2. by step_view. }
  assert (c3 = fire c2') as -> by done. clearbody c2'.
  pose proof (view_fire trimmed c2') as H3. rewrite H2' in H3. cbn in H3.
  apply view_fields in H1 as (? & _), H2 as (? & ? & ? & _), H2' as (_ & _ & _ & Ht & Hn).
  apply view_fields in H3 as (? & ? & ? & _).
  split_and!; try done. by eapply fire_established.
Qed.

(** *** The host's indicator *)

Definition indicator (c : SessionController) : bool * string :=
  (being_controlled_ (host_ c), controller_name_ (host_ c)).

Lemma indicator_text t c : indicator (setStatusText t c) = indicator c.
Proof. unfold setStatusText. by case_bool_decide. Qed.

Lemma indicator_state s c : indicator (setState s c) = indicator c.
Proof. unfold setState. by destruct (decide _). Qed.

Lemma indicator_emit s c : indicator (emit s c) = indicator c.
Proof. done. Qed.

Lemma indicator_timer ms cb c : indicator (singleShot ms cb c) = indicator c.
Proof. done. Qed.

Lemma indicator_client o c : indicator (on_client o c) = indicator c.
Proof.
  unfold on_client. change (indicator c) with (indicator (set_client
    (ServiceClient.exec (client_ c) o) c)).
  generalize (set_client (ServiceClient.exec (client_ c) o) c).
  induction (drop _ _) as [|x l IH]; intros k; [done|]. simpl. rewrite IH.
  destruct x; try done. apply indicator_text.
Qed.

#[export] Hint Rewrite indicator_text indicator_state indicator_emit indicator_timer : ui.

Lemma indicator_callback cb c : indicator (run_callback cb c) = indicator c.
Proof.
  destruct cb; simpl; unfold on_resolved, on_verified, on_established;
    [destruct (negb _); [done|]|..]; by autorewrite with ui.
Qed.

Lemma indicator_exec trimmed c o :
  o ≠ AcceptIncoming → o ≠ RejectIncoming → indicator (exec trimmed c o) = indicator c.
Proof.
  destruct o; try done; intros _ _; cbn [exec]; try done.
  - unfold connectToId. case_bool_decide; [apply indicator_text|].
    destruct (_ && _); [done|]. by autorewrite with ui.
  - unfold enterPin. destruct (negb _); [done|].
    case_bool_decide; by autorewrite with ui.
  - unfold disconnect. case_bool_decide; [done|]. by autorewrite with ui.
  - unfold setUnattendedPassword. by destruct (negb _).
  - unfold clearUnattendedPassword. by destruct (negb _).
  - unfold setControlAllowed. by destruct (eqb _ _).
  - unfold setClipboardAllowed. by destruct (eqb _ _).
  - unfold setFileTransferAllowed. by destruct (eqb _ _).
  - unfold setAudioAllowed. by destruct (eqb _ _).
  - unfold setPrivacyScreen. by destruct (eqb _ _).
  - apply indicator_client.
  - unfold fire. destruct (timers c) as [|t ts]; [done|]. destruct (_ <=? _); [|done].
    by rewrite indicator_callback.
Qed.

(** Only accepting or rejecting an incoming request
    changes the "being controlled" indicator and the name it shows: neither a
    disconnect nor any other call, timer or client event does. *)
Theorem ui_indicator_persists trimmed c ops :
  Forall (λ o, o ≠ AcceptIncoming ∧ o ≠ RejectIncoming) ops →
  indicator (run trimmed c ops) = indicator c.
Proof.
  intros H. revert c. unfold run. induction H as [|o ops [? ?] _ IH]; intros c; [done|].
  simpl. by rewrite IH, indicator_exec.
Qed.

(** ** The bindings *)

(** Every QML binding shows what its getter returns, and the identity was never
    announced. *)
Definition fresh_bindings (c : SessionController) : Prop :=
  fresh read c (shown c) ∧ identityChanged ∉ signals c.

Lemma fresh_announce s c c' :
  (∀ p, notify p ≠ s → read c' p = read c p) → s ≠ identityChanged →
  shown c' = shown c → signals c' = signals c →
  fresh_bindings c → fresh_bindings (emit s c').
Proof.
  intros Hr Hs Hsh Hsig [Hf Hi]. unfold fresh_bindings. cbn [shown signals emit].
  rewrite Hsh, Hsig. split; [exact (fresh_announced read notify _ s c c' _ Hr Hf)|set_solver].
Qed.

Lemma fresh_signal s c : s ≠ identityChanged → fresh_bindings c → fresh_bindings (emit s c).
Proof. intros Hs. by apply fresh_announce. Qed.

(** An announced update of a field. *)
Ltac announced c := apply (fresh_announce _ c); [by intros []|done..|].

Lemma fresh_setState s c : fresh_bindings c → fresh_bindings (setState s c).
Proof. intros. unfold setState. destruct (decide _); [done|]. by announced c. Qed.

Lemma fresh_setStatusText t c : fresh_bindings c → fresh_bindings (setStatusText t c).
Proof. intros. unfold setStatusText. case_bool_decide; [done|]. by announced c. Qed.

Lemma fresh_singleShot ms cb c : fresh_bindings c → fresh_bindings (singleShot ms cb c).
Proof. done. Qed.

Create HintDb bindings.
#[local] Hint Extern 1 (_ ≠ _) => discriminate : bindings.
#[local] Hint Resolve fresh_signal fresh_setState fresh_setStatusText fresh_singleShot : bindings.

Lemma fresh_fold l c : fresh_bindings c → fresh_bindings (fold_left on_client_emit l c).
Proof.
  revert c. induction l as [|x l IH]; intros c Hc; [done|]. simpl. apply IH.
  destruct x; simpl; auto with bindings.
Qed.

Lemma fresh_client o c : fresh_bindings c → fresh_bindings (on_client o c).
Proof. intros Hc. unfold on_client. apply fresh_fold. exact Hc. Qed.

Lemma fresh_fire c : fresh_bindings c → fresh_bindings (fire c).
Proof.
  intros Hc. unfold fire. destruct (timers c) as [|t ts]; [done|].
  destruct (_ <=? _); [|done]. set (c0 := set_time ts (now c) c).
  assert (fresh_bindings c0) as H0 by exact Hc. destruct (callback t); simpl.
  - unfold on_resolved. case_bool_decide; simpl; [|done].
    do 2 (apply fresh_setStatusText || apply fresh_setState). by announced c0.
  - unfold on_verified. apply fresh_singleShot, fresh_setStatusText, fresh_setState.
    by announced c0.
  - unfold on_established. auto with bindings.
Qed.

Lemma fresh_exec trimmed c o : fresh_bindings c → fresh_bindings (exec trimmed c o).
Proof.
  intros Hc. destruct o as [id|pin| |p| | | | | | | | | | |o|ms|]; cbn [exec]; auto with bindings.
  - unfold connectToId. case_bool_decide; [auto with bindings|]. destruct (_ && _); [done|].
    apply fresh_singleShot, fresh_setStatusText, fresh_setState. by announced c.
  - unfold enterPin. destruct (negb _); [done|]. case_bool_decide; auto with bindings.
  - unfold disconnect. case_bool_decide; [done|].
    apply fresh_signal; [done|]. apply fresh_setStatusText, fresh_setState. by announced c.
  - unfold setUnattendedPassword. destruct (negb (eqb _ _)); [|done]. by announced c.
  - unfold clearUnattendedPassword. destruct (negb _); [done|]. by announced c.
  - by announced c.
  - by announced c.
  - unfold setControlAllowed. destruct (eqb _ _); [done|]. by announced c.
  - unfold setClipboardAllowed. destruct (eqb _ _); [done|]. by announced c.
  - unfold setFileTransferAllowed. destruct (eqb _ _); [done|]. by announced c.
  - unfold setAudioAllowed. destruct (eqb _ _); [done|]. by announced c.
  - unfold setPrivacyScreen. destruct (eqb _ _); [done|]. by announced c.
  - unfold requestFullscreen. by apply fresh_signal.
  - by apply fresh_client.
  - by apply fresh_fire.
Qed.

(** C29. The front end never shows a stale value: after any
    calls, timers and client events, every QML binding on a property of the
    controller holds what the property's getter returns, although a binding is
    only read again when its property's signal is emitted, and
    [identityChanged] never is. *)
Theorem ui_bindings_fresh trimmed ops p :
  let c := run trimmed SessionController_init ops in
  shown c p = read c p ∧ identityChanged ∉ signals c.
Proof.
  intros c. assert (fresh_bindings c) as [Hf Hi]; [|split; [by apply Hf|done]]. subst c.
  induction ops as [|o ops IH] using rev_ind.
  - apply fresh_client. split; [by intros []|apply not_elem_of_nil].
  - unfold run. rewrite fold_left_app. by apply fresh_exec.
Qed.

(** ** Witnesses: with a [trimmed] that keeps its argument *)

Definition keep (s : string) : string := s.

(** An idle controller, and one that asks for a PIN. *)
Definition idle_controller : SessionController :=
  run keep SessionController_init [AcceptIncoming].
Definition asking_controller : SessionController :=
  run keep SessionController_init [ConnectToId "123"; Tick 450; Fire].

Lemma ui_lifecycle_witness :
  view (run keep (run keep (run keep (run keep idle_controller [ConnectToId "123"])
    [Tick 450; Fire]) [EnterPin "0000"; Tick 350; Fire]) [Tick 500; Fire]) =
  {| v_state := Connected; v_remote := "123"; v_pin := false; v_timers := [];
     v_now := 0 + 450 + 350 + 500 |}.
Proof.
  refine (proj2 (proj2 (proj2 (ui_lifecycle keep "123" "0000" idle_controller _ _ _ _))));
    try reflexivity; discriminate.
Defined.

Lemma ui_disconnect_undone_witness :
  let c1 := run keep asking_controller [EnterPin "0000"; Disconnect] in
  let c2 := run keep c1 [Tick 350; Fire; Tick 500; Fire] in
  state_ c1 = Idle ∧ last (signals c1) = Some sessionEnded ∧
  view c2 = {| v_state := Connected; v_remote := remote_id_ asking_controller; v_pin := false;
               v_timers := []; v_now := now asking_controller + 350 + 500 |} ∧
  last (signals c2) = Some sessionStarted.
Proof.
  refine (ui_disconnect_undone keep "0000" asking_controller _ _ _);
    [discriminate|reflexivity|reflexivity].
Defined.

Lemma ui_session_without_its_pin_witness :
  let c1 := run keep SessionController_init
    [ConnectToId "1"; Tick 450; Fire; EnterPin "0000"; Tick 350; Fire; Disconnect] in
  let c2 := run keep c1 [ConnectToId "2"; Tick 450; Fire] in
  let c3 := run keep c2 [Tick 50; Fire] in
  state_ c1 = Idle ∧
  (state_ c2 = Authenticating ∧ remote_id_ c2 = keep "2" ∧ pin_required_ c2 = true) ∧
  (state_ c3 = Connected ∧ remote_id_ c3 = keep "2" ∧ pin_required_ c3 = true ∧
   last (signals c3) = Some sessionStarted).
Proof.
  refine (ui_session_without_its_pin keep "1" "0000" "2" _ _ _); discriminate.
Defined.

Lemma ui_indicator_persists_witness :
  indicator (run keep idle_controller [ConnectToId "7"; Disconnect]) = indicator idle_controller.
Proof.
  refine (ui_indicator_persists keep idle_controller [ConnectToId "7"; Disconnect] _).
  by repeat constructor.
Defined.
