(* ===== verification/SessionTimers.v ===== *)
(** * The session controller left alone

    The timers of [SessionController] (ui/src/SessionController.cpp) always run
    out: with no further call, whatever happened before, the event loop fires
    what is pending, with the timers that this adds, and the session comes to
    rest.  The argument is made on the abstract machine of [SessionController]. *)

From S2P Require Import Prelude ServiceClient SessionController.
From Stdlib Require Import Sorting.Sorted.

Section settle.
Context (trimmed : string → string).

(** The event loop while nothing is called: it waits for the earliest timer and
    fires it, until there is none; one unit of fuel for each timer fired. *)
Fixpoint settle (fuel : nat) (c : SessionController) : option SessionController :=
  match timers c with
  | [] => Some c
  | t :: _ =>
      match fuel with
      | O => None
      | S fuel => settle fuel (run trimmed c [Tick (Z.to_nat (due t - now c)); Fire])
      end
  end.

(** The machine at a later time. *)
Definition at_time (n : Z) (v : View) : View :=
  {| v_state := v_state v; v_remote := v_remote v; v_pin := v_pin v; v_timers := v_timers v;
     v_now := n |}.

Lemma view_await c t ts :
  timers c = t :: ts →
  view (run trimmed c [Tick (Z.to_nat (due t - now c)); Fire]) =
    v_callback (callback t) ts (at_time (Z.max (now c) (due t)) (view c)).
Proof.
  intros Ht. rewrite view_run. cbn [v_run fold_left v_exec v_timers v_now view].
  rewrite Ht. replace (now c + Z.of_nat (Z.to_nat (due t - now c)))
    with (Z.max (now c) (due t)) by lia.
  rewrite (proj2 (Z.leb_le _ _)) by lia. unfold at_time. cbn. by rewrite <-Ht.
Qed.

(** ** What is pending *)

Definition weight (t : Timer) : nat :=
  match callback t with Verified => 2 | _ => 1 end.
Definition total (ts : list Timer) : nat := sum_list_with weight ts.

(** The time by which a timer and the one it sets have fired. *)
Definition deadline (t : Timer) : Z :=
  match callback t with Verified => due t + 500 | _ => due t end.

Definition due_le (a b : Timer) : Prop := due a ≤ due b.

(** Resolving and connecting end by a pending timer. *)
Definition pending (s : SessionState) (ts : list Timer) : Prop :=
  s ≠ Failed ∧
  (s = Resolving → ∃ t, t ∈ ts ∧ callback t = Resolved) ∧
  (s = Connecting → ∃ t, t ∈ ts ∧ callback t = Established).

Lemma elem_of_add_timer x t ts : x ∈ add_timer t ts ↔ x = t ∨ x ∈ ts.
Proof. by rewrite (add_timer_perm t ts), elem_of_cons. Qed.

Lemma total_add_timer t ts : total (add_timer t ts) = (weight t + total ts)%nat.
Proof. unfold total. by rewrite (add_timer_perm t ts). Qed.

Lemma add_timer_sorted t ts :
  StronglySorted due_le ts → StronglySorted due_le (add_timer t ts).
Proof.
  induction 1 as [|t' ts Hs IH Hall]; simpl; [by repeat constructor|].
  destruct (Z.ltb_spec (due t) (due t')).
  - constructor; [by constructor|]. constructor; [unfold due_le; lia|].
    eapply Forall_impl; [exact Hall|]. unfold due_le. lia.
  - constructor; [done|]. apply Forall_forall. intros x [->|Hx]%elem_of_add_timer.
    + unfold due_le. lia.
    + by eapply Forall_forall in Hall.
Qed.

Lemma pending_add s t ts : pending s ts → pending s (add_timer t ts).
Proof. unfold pending. setoid_rewrite elem_of_add_timer. naive_solver. Qed.

(** Firing the first timer leaves the ends of resolving and connecting pending. *)
Lemma pending_callback t ts v :
  pending (v_state v) (t :: ts) →
  let v' := v_callback (callback t) ts v in pending (v_state v') (v_timers v').
Proof.
  unfold pending. setoid_rewrite elem_of_cons. intros (Hf & Hr & Hc).
  destruct (callback t) eqn:Ht; simpl; [case_decide as Hd; simpl| |].
  - done.
  - split_and!; [done|done|]. intros (x & [->|?] & ?)%Hc; [congruence|eauto].
  - setoid_rewrite elem_of_add_timer. split_and!; [done|done|]. intros _.
    eexists. by split; [left|].
  - done.
Qed.

Lemma callback_sorted t ts v :
  StronglySorted due_le ts → StronglySorted due_le (v_timers (v_callback (callback t) ts v)).
Proof.
  intros Hs. destruct (callback t); simpl; [by case_decide|by apply add_timer_sorted|done].
Qed.

Lemma callback_now cb ts v : v_now (v_callback cb ts v) = v_now v.
Proof. destruct cb; simpl; [by case_decide|done..]. Qed.

(** What a fired timer leaves: the rest, and what a verified PIN adds. *)
Lemma callback_timers t ts v x :
  x ∈ v_timers (v_callback (callback t) ts v) →
  x ∈ ts ∨ callback t = Verified ∧ x = {| due := v_now v + 500; callback := Established |}.
Proof.
  destruct (callback t); simpl; [case_decide; simpl; auto| |auto].
  rewrite elem_of_add_timer. naive_solver.
Qed.

Lemma callback_total t ts v :
  (total (v_timers (v_callback (callback t) ts v)) < total (t :: ts))%nat.
Proof.
  unfold total at 2. simpl. fold (total ts). unfold weight at 1.
  destruct (callback t); simpl; [case_decide; simpl; lia|rewrite total_add_timer; simpl; lia|lia].
Qed.

(** ** Reachable states *)

Record timed (v : View) : Prop := {
  timed_sorted : StronglySorted due_le (v_timers v);
  timed_deadline t : t ∈ v_timers v → deadline t ≤ v_now v + 850;
  timed_pending : pending (v_state v) (v_timers v);
}.

Lemma timed_add v s r p ms cb :
  timed v → 0 ≤ deadline {| due := ms; callback := cb |} ≤ 850 →
  pending s (add_timer {| due := v_now v + ms; callback := cb |} (v_timers v)) →
  timed {| v_state := s; v_remote := r; v_pin := p; v_now := v_now v;
           v_timers := add_timer {| due := v_now v + ms; callback := cb |} (v_timers v) |}.
Proof.
  intros [Hs Hd Hp] Hms Hpend. split; simpl; [by apply add_timer_sorted| |done].
  intros t [->|Ht]%elem_of_add_timer; [|by apply Hd].
  unfold deadline in *. simpl in *. destruct cb; lia.
Qed.

Lemma timed_exec v o : timed v → timed (v_exec trimmed v o).
Proof.
  intros Hv. pose proof Hv as [Hs Hd Hp]. destruct o; try done; simpl.
  - case_decide; [|done]. apply timed_add; [done|unfold deadline; simpl; lia|].
    split_and!; [done| |done]. intros _. eexists. rewrite elem_of_add_timer. by split; [left|].
  - case_decide; [|done]. apply timed_add; [done|unfold deadline; simpl; lia|].
    by apply pending_add.
  - case_decide; [done|]. by split.
  - split; simpl; [done| |done]. intros t Ht. specialize (Hd t Ht). lia.
  - destruct (v_timers v) as [|t ts] eqn:Et; [done|].
    destruct (Z.leb_spec (due t) (v_now v)); [|done]. inversion_clear Hs.
    split; [by apply callback_sorted| |by apply pending_callback].
    intros x. rewrite callback_now. intros [Hx|[_ ->]]%callback_timers.
    + apply Hd. by right.
    + unfold deadline. simpl. lia.
Qed.

Lemma timed_run v ops : timed v → timed (v_run trimmed v ops).
Proof.
  revert v. induction ops as [|o ops IH]; intros v Hv; [done|]. by apply IH, timed_exec.
Qed.

(** ** Running out *)

(** [D] bounds everything that is still to come. *)
Record ending (D : Z) (v : View) : Prop := {
  ending_sorted : StronglySorted due_le (v_timers v);
  ending_deadline t : t ∈ v_timers v → deadline t ≤ D;
  ending_now : v_now v ≤ D;
  ending_late : v_now v + 500 ≤ D ∨ ∀ t, t ∈ v_timers v → v_now v ≤ due t;
  ending_pending : pending (v_state v) (v_timers v);
}.

Lemma ending_fire D v t ts :
  ending D v → v_timers v = t :: ts →
  ending D (v_callback (callback t) ts (at_time (Z.max (v_now v) (due t)) v)).
Proof.
  intros [Hs Hd Hn Hl Hp] Et. rewrite Et in *. inversion_clear Hs as [|? ? Hs' Hall].
  pose proof (Hd t ltac:(by left)) as Ht.
  assert (due t ≤ deadline t) as Hdue by (unfold deadline; destruct (callback t); lia).
  split.
  - by apply callback_sorted.
  - intros x [Hx|[Hcb ->]]%callback_timers; [apply Hd; by right|].
    unfold deadline in *. rewrite Hcb in *. simpl.
    destruct Hl as [|Hl]; [lia|]. specialize (Hl t ltac:(by left)). lia.
  - rewrite callback_now. simpl. lia.
  - rewrite callback_now. simpl.
    destruct (decide (v_now v ≤ due t)); [right|destruct Hl as [|Hl]; [left; lia|]].
    + intros x [Hx|[_ ->]]%callback_timers; simpl; [|lia].
      eapply Forall_forall in Hall; [|exact Hx]. unfold due_le in Hall. lia.
    + specialize (Hl t ltac:(by left)). lia.
  - by apply pending_callback.
Qed.

Lemma settle_ends D fuel c :
  ending D (view c) → (total (timers c) ≤ fuel)%nat →
  ∃ c', settle fuel c = Some c' ∧ timers c' = [] ∧ now c ≤ now c' ≤ D ∧
    pending (state_ c') [].
Proof.
  revert c. induction fuel as [|fuel IH]; intros c Hc Hf; cbn [settle];
    (destruct (timers c) as [|t ts] eqn:Et;
     [exists c; destruct Hc as [_ _ Hn _ Hp]; cbn in Hn, Hp; rewrite Et in Hp;
      (split_and!; [done..|lia|lia|done])|]).
  { pose proof (callback_total t ts (view c)). lia. }
  pose proof (ending_fire D (view c) t ts Hc Et) as Hc'.
  pose proof (callback_total t ts (at_time (Z.max (now c) (due t)) (view c))) as Ht.
  pose proof (callback_now (callback t) ts (at_time (Z.max (now c) (due t)) (view c))) as Hn.
  pose proof (view_await c t ts Et) as Hv. cbn [v_now view] in Hc'. rewrite <-Hv in Hc', Ht, Hn.
  cbn [v_timers v_now view at_time] in Ht, Hn.
  destruct (IH _ Hc') as (c' & Hset & ? & [Hn1 Hn2] & ?);
    [exact (proj1 (Nat.lt_succ_r _ _) (Nat.lt_le_trans _ _ _ Ht Hf))|].
  exists c'. split_and!; [exact Hset|done| |done|done]. rewrite Hn in Hn1. lia.
Qed.

Lemma total_length ts : (total ts ≤ 2 * length ts)%nat.
Proof.
  induction ts as [|t ts IH]; simpl; [done|]. unfold weight. destruct (callback t); lia.
Qed.

(** C23. Left alone, a session comes to rest: from whatever state a
    run of calls, ticks and client events has brought the controller to, the
    event loop fires every pending timer and those that they set, at most twice
    as many as are pending, within 850 milliseconds; afterwards no timer is
    pending and the session is idle, waits for a PIN, or is connected: it is
    never left resolving or connecting. *)
Theorem ui_settles ops :
  let c := run trimmed SessionController_init ops in
  ∃ c', settle (2 * length (timers c)) c = Some c' ∧ timers c' = [] ∧
    now c ≤ now c' ≤ now c + 850 ∧
    (state_ c' = Idle ∨ state_ c' = Authenticating ∨ state_ c' = Connected).
Proof.
  intros c. assert (timed (view c)) as [Hs Hd Hp].
  { unfold c. rewrite view_run. apply timed_run. split; [repeat constructor| |done].
    by intros t ?%elem_of_nil. }
  destruct (settle_ends (now c + 850) (2 * length (timers c)) c) as (c' & ? & ? & ? & Hc').
  - split; try done; [cbn; lia|left; cbn; lia].
  - apply total_length.
  - exists c'. split_and!; try done; try lia. destruct Hc' as (Hf & Hr & Hc').
    destruct (state_ c'); auto.
    + by destruct (Hr eq_refl) as (? & ?%elem_of_nil & _).
    + by destruct (Hc' eq_refl) as (? & ?%elem_of_nil & _).
    + by destruct Hf.
Qed.
End settle.
