(* ===== verification/UiMain.v ===== *)
(** * The start of the UI process ([ui/src/main.cpp])

    [main] makes a fixed sequence of calls on Qt's application and engine, of
    which the order matters: a failing load is only noticed by what was
    connected before it.  Qt is a parameter with the laws its documentation
    states; the version it was built with selects how the QML module is loaded. *)

From S2P Require Import Prelude.

(** What a slot does: [QCoreApplication::exit(code)]. *)
Inductive Slot := Exit (code : Z).

Inductive Target :=
  | FromModule (uri typename : string)
  | FromUrl (url : string).

Inductive Call :=
  | SetApplicationName (name : string)
  | SetOrganizationName (name : string)
  | SetApplicationVersion (version : string)
  | SetContextProperty (name value : string)
  | ConnectCreationFailed (queued : bool) (slot : Slot)
  | Load (target : Target).

(** What a QML front end can ask of the application and the engine. *)
Inductive Key := ApplicationName | OrganizationName | ApplicationVersion | Context (name : string).

#[export] Instance Key_eq_dec : EqDecision Key.
Proof. solve_decision. Defined.

Definition written (c : Call) : option (Key * string) :=
  match c with
  | SetApplicationName s => Some (ApplicationName, s)
  | SetOrganizationName s => Some (OrganizationName, s)
  | SetApplicationVersion s => Some (ApplicationVersion, s)
  | SetContextProperty n s => Some (Context n, s)
  | _ => None
  end.

(** ** Qt *)

Class Qt (App : Type) := {
  construct : App;
  call : Call → App → App;
  exec : App → Z;
  value : App → Key → option string;
  (* slots connected to [objectCreationFailed] by a queued connection *)
  connected : App → list Slot;
  (* slots that wait for the event loop *)
  posted : App → list Slot;
  (* whether the root object of a target can be created *)
  creates : App → Target → bool;
}.

(** Its laws: what the setters set; a queued connection runs nothing when the
    signal is emitted, but posts its slot; [objectCreationFailed] is emitted if the
    object cannot be created; the event loop runs what was posted first, and
    ends with the code given to [exit]. *)
Class QtLaws (App : Type) `{Qt App} := {
  construct_connected : connected construct = [];
  construct_posted : posted construct = [];
  value_written c k s a : written c = Some (k, s) → value (call c a) k = Some s;
  value_kept c k a :
    (∀ s, written c ≠ Some (k, s)) → value (call c a) k = value a k;
  connect_queued s a : connected (call (ConnectCreationFailed true s) a) = connected a ++ [s];
  set_connected c p a : written c = Some p → connected (call c a) = connected a;
  posted_kept c a : (∀ t, c ≠ Load t) → posted (call c a) = posted a;
  load_failed t a : creates a t = false → posted (call (Load t) a) = posted a ++ connected a;
  exec_exit code rest a : posted a = Exit code :: rest → exec a = code;
}.

(** ** The program *)

(** [QT_VERSION_CHECK]. *)
Definition QT_VERSION_CHECK (major minor patch : Z) : Z :=
  Z.lor (Z.lor (Z.shiftl major 16) (Z.shiftl minor 8)) patch.

(** The branch the preprocessor takes for the Qt it is built with. *)
Definition root_target (QT_VERSION : Z) : Target :=
  if QT_VERSION_CHECK 6 5 0 <=? QT_VERSION then FromModule "REDesk.UI" "Main"
  else FromUrl "qrc:/qt/qml/REDesk/UI/qml/Main.qml".

Section main.
Context {App : Type} `{Qt App}.
(** The generated version, as [QString::fromUtf8] decodes it. *)
Context (kVersion : string).

Definition preparation : list Call :=
  [SetApplicationName "REDesk"; SetOrganizationName "REDesk"; SetApplicationVersion kVersion;
   SetContextProperty "appVersion" kVersion; ConnectCreationFailed true (Exit (-1))].

Definition perform (cs : list Call) (a : App) : App := fold_left (λ a c, call c a) cs a.

(** The application when the QML module is loaded. *)
Definition prepared : App := perform preparation construct.

Definition main (QT_VERSION : Z) : Z :=
  exec (perform (preparation ++ [Load (root_target QT_VERSION)]) construct).

(** ** What it comes to *)

Context {laws : QtLaws App}.

Lemma prepared_connected : connected prepared = [Exit (-1)].
Proof.
  unfold prepared, preparation, perform. cbn [fold_left]. rewrite connect_queued.
  do 4 (erewrite set_connected by reflexivity). by rewrite construct_connected.
Qed.

Lemma prepared_posted : posted prepared = [].
Proof.
  unfold prepared, preparation, perform. cbn [fold_left]. rewrite !posted_kept by done.
  apply construct_posted.
Qed.

Lemma prepared_value k s :
  last (omap (λ c, '(k', s) ← written c; if decide (k = k') then Some s else None) preparation)
    = Some s →
  value prepared k = Some s.
Proof.
  unfold prepared, perform. generalize construct. generalize preparation.
  induction l as [|c cs IH] using rev_ind; intros a Hl; [done|].
  rewrite fold_left_app. simpl. rewrite omap_app, last_app in Hl. simpl in Hl.
  destruct (written c) as [[k' s']|] eqn:Ew; simpl in Hl.
  - destruct (decide (k = k')) as [<-|Hn]; simpl in Hl.
    + injection Hl as ->. by apply value_written.
    + rewrite value_kept by (intros ?; rewrite Ew; congruence). by apply IH.
  - rewrite value_kept by (intros ?; rewrite Ew; done). by apply IH.
Qed.

(** If the root object cannot be created, the process ends with -1,
    whatever Qt does with the event loop otherwise; and at the time the module
    is loaded the application bears its name, organisation and version, and
    the QML context has the version under [appVersion]. *)
Theorem ui_start QT_VERSION :
  (creates prepared (root_target QT_VERSION) = false → main QT_VERSION = -1) ∧
  value prepared ApplicationName = Some "REDesk" ∧
  value prepared OrganizationName = Some "REDesk" ∧
  value prepared ApplicationVersion = Some kVersion ∧
  value prepared (Context "appVersion") = Some kVersion.
Proof.
  split; [|split_and!; by apply prepared_value]. intros Hf. unfold main, perform.
  rewrite fold_left_app. cbn [fold_left]. fold (perform preparation construct). fold prepared.
  apply exec_exit with []. by rewrite load_failed, prepared_posted, prepared_connected.
Qed.
End main.

(** Qt 6.4 loads by resource URL, 6.5 and later by module. *)
Example targets :
  root_target (QT_VERSION_CHECK 6 4 2) = FromUrl "qrc:/qt/qml/REDesk/UI/qml/Main.qml" ∧
  root_target (QT_VERSION_CHECK 6 5 0) = FromModule "REDesk.UI" "Main" ∧
  root_target (QT_VERSION_CHECK 6 8 1) = FromModule "REDesk.UI" "Main".
Proof. done. Qed.

(** ** A Qt that can create nothing *)

Module Sample.

Record App := {
  values : list (Key * string);
  slots : list Slot;
  waiting : list Slot;
}.

Definition do_call (c : Call) (a : App) : App :=
  match c with
  | ConnectCreationFailed queued s =>
      {| values := values a; slots := if queued then slots a ++ [s] else slots a;
         waiting := waiting a |}
  | Load _ => {| values := values a; slots := slots a; waiting := waiting a ++ slots a |}
  | _ => match written c with
         | Some kv => {| values := kv :: values a; slots := slots a; waiting := waiting a |}
         | None => a
         end
  end.

Fixpoint find_value (k : Key) (vs : list (Key * string)) : option string :=
  match vs with
  | [] => None
  | (k', s) :: vs => if decide (k = k') then Some s else find_value k vs
  end.

#[export] Instance app_qt : Qt App := {
  construct := {| values := []; slots := []; waiting := [] |};
  call := do_call;
  exec a := match waiting a with Exit code :: _ => code | [] => 0 end;
  value a k := find_value k (values a);
  connected := slots;
  posted := waiting;
  creates _ _ := false;
}.

#[export] Instance app_laws : QtLaws App.
Proof.
  split; try done.
  - intros c k s a Hw. destruct c; cbn in Hw |- *; try discriminate Hw;
      injection Hw as <- <-; by rewrite decide_True.
  - intros c k a Hn. destruct c; cbn in Hn |- *; try done;
      (rewrite decide_False; [done|]); intros ->; by eapply Hn.
  - intros c p a Hw. by destruct c.
  - intros c a Hn. destruct c; try done. by destruct (Hn target).
  - intros code rest a Hp. simpl in *. by rewrite Hp.
Qed.

End Sample.

Lemma ui_start_witness :
  main (H := Sample.app_qt) "1.0" (QT_VERSION_CHECK 6 8 1) = -1.
Proof.
  exact (proj1 (ui_start (H := Sample.app_qt) (laws := Sample.app_laws) "1.0"
    (QT_VERSION_CHECK 6 8 1)) eq_refl).
Defined.
