(* ===== verification/Input.v ===== *)
(** * Input injection and clipboard stubs (src/core/input/input.h, input_stub.cpp)

    [Injector] is the recording injector, [Clipboard] the in-memory clipboard
    with its change callback. A [double] is kept as its 64-bit pattern: the code
    only stores it. The calls of the change callback are recorded; the theorems
    do not depend on what the callback does. *)

From S2P Require Import Prelude Types.

Inductive MouseButton := Left | Right | Middle | Back | Forward.
Inductive ButtonAction := Down | Up.

(** [enum class Modifier : uint32_t] and its operators. *)
Definition Modifier : Type := Z.
Module Mod.
Definition None : Modifier := 0.
Definition Shift : Modifier := Z.shiftl 1 0.
Definition Ctrl : Modifier := Z.shiftl 1 1.
Definition Alt : Modifier := Z.shiftl 1 2.
Definition Meta : Modifier := Z.shiftl 1 3.
Definition or (a b : Modifier) : Modifier := Z.lor a b.
Definition and (a b : Modifier) : Modifier := Z.land a b.
End Mod.

Module Injector.

Inductive Type_ :=
  TMouseMoveAbs | TMouseMoveRel | TMouseButton | TScroll | TKeyScancode | TKeyUnicode |
  TSetModifiers | TReset.

Record RecordedEvent := {
  type : Type_;
  display_id : string;
  nx : Z;
  ny : Z;
  dx : Z;
  dy : Z;
  sdx : Z;
  sdy : Z;
  hi_res : bool;
  button : MouseButton;
  action : ButtonAction;
  code : Z;
  modifiers : Modifier;
}.

(** A [RecordedEvent] with its default members (the bits of 0.0 are 0). *)
Definition RecordedEvent_init (t : Type_) : RecordedEvent :=
  {| type := t; display_id := ""; nx := 0; ny := 0; dx := 0; dy := 0; sdx := 0; sdy := 0;
     hi_res := false; button := Left; action := Down; code := 0; modifiers := Mod.None |}.

Record StubInputInjector := { events_ : list RecordedEvent; held_modifiers_ : Modifier }.

Definition createStubInputInjector : StubInputInjector :=
  {| events_ := []; held_modifiers_ := Mod.None |}.

(** [createInputInjector]: both branches of the build switch return the stub. *)
Definition createInputInjector : StubInputInjector := createStubInputInjector.

Definition push (e : RecordedEvent) (i : StubInputInjector) : StubInputInjector :=
  {| events_ := events_ i ++ [e]; held_modifiers_ := held_modifiers_ i |}.

Definition mouseMoveAbsolute (display : string) (x y : Z) (i : StubInputInjector)
    : Status * StubInputInjector :=
  (success, push {| type := TMouseMoveAbs; display_id := display; nx := x; ny := y;
    dx := 0; dy := 0; sdx := 0; sdy := 0; hi_res := false; button := Left; action := Down;
    code := 0; modifiers := Mod.None |} i).

Definition mouseMoveRelative (x y : Z) (i : StubInputInjector) : Status * StubInputInjector :=
  (success, push {| type := TMouseMoveRel; display_id := ""; nx := 0; ny := 0;
    dx := x; dy := y; sdx := 0; sdy := 0; hi_res := false; button := Left; action := Down;
    code := 0; modifiers := Mod.None |} i).

Definition mouseButton (b : MouseButton) (a : ButtonAction) (i : StubInputInjector)
    : Status * StubInputInjector :=
  (success, push {| type := TMouseButton; display_id := ""; nx := 0; ny := 0;
    dx := 0; dy := 0; sdx := 0; sdy := 0; hi_res := false; button := b; action := a;
    code := 0; modifiers := Mod.None |} i).

Definition scroll (x y : Z) (hires : bool) (i : StubInputInjector)
    : Status * StubInputInjector :=
  (success, push {| type := TScroll; display_id := ""; nx := 0; ny := 0;
    dx := 0; dy := 0; sdx := x; sdy := y; hi_res := hires; button := Left; action := Down;
    code := 0; modifiers := Mod.None |} i).

Definition keyScancode (scancode : Z) (a : ButtonAction) (i : StubInputInjector)
    : Status * StubInputInjector :=
  (success, push {| type := TKeyScancode; display_id := ""; nx := 0; ny := 0;
    dx := 0; dy := 0; sdx := 0; sdy := 0; hi_res := false; button := Left; action := a;
    code := scancode; modifiers := Mod.None |} i).

Definition keyUnicode (codepoint : Z) (a : ButtonAction) (i : StubInputInjector)
    : Status * StubInputInjector :=
  (success, push {| type := TKeyUnicode; display_id := ""; nx := 0; ny := 0;
    dx := 0; dy := 0; sdx := 0; sdy := 0; hi_res := false; button := Left; action := a;
    code := codepoint; modifiers := Mod.None |} i).

Definition setModifiers (m : Modifier) (i : StubInputInjector) : Status * StubInputInjector :=
  let e := {| type := TSetModifiers; display_id := ""; nx := 0; ny := 0;
    dx := 0; dy := 0; sdx := 0; sdy := 0; hi_res := false; button := Left; action := Down;
    code := 0; modifiers := m |} in
  (success, push e {| events_ := events_ i; held_modifiers_ := m |}).

Definition reset (i : StubInputInjector) : Status * StubInputInjector :=
  (success, push (RecordedEvent_init TReset)
              {| events_ := events_ i; held_modifiers_ := Mod.None |}).

Definition events (i : StubInputInjector) : list RecordedEvent := events_ i.

Definition clear (i : StubInputInjector) : StubInputInjector :=
  {| events_ := []; held_modifiers_ := held_modifiers_ i |}.

(** A call of the interface. *)
Inductive Call :=
  | MoveAbs (display : string) (x y : Z)
  | MoveRel (x y : Z)
  | Button (b : MouseButton) (a : ButtonAction)
  | Scroll (x y : Z) (hires : bool)
  | Scancode (c : Z) (a : ButtonAction)
  | Unicode (c : Z) (a : ButtonAction)
  | SetMods (m : Modifier)
  | Reset.

Definition exec (i : StubInputInjector) (c : Call) : Status * StubInputInjector :=
  match c with
  | MoveAbs d x y => mouseMoveAbsolute d x y i
  | MoveRel x y => mouseMoveRelative x y i
  | Button b a => mouseButton b a i
  | Scroll x y h => scroll x y h i
  | Scancode c a => keyScancode c a i
  | Unicode c a => keyUnicode c a i
  | SetMods m => setModifiers m i
  | Reset => reset i
  end.

Definition run (i : StubInputInjector) (cs : list Call) : StubInputInjector :=
  fold_left (λ i c, (exec i c).2) cs i.

(** The call an event tells of, read from the fields its type sets. *)
Definition replay (e : RecordedEvent) : Call :=
  match type e with
  | TMouseMoveAbs => MoveAbs (display_id e) (nx e) (ny e)
  | TMouseMoveRel => MoveRel (dx e) (dy e)
  | TMouseButton => Button (button e) (action e)
  | TScroll => Scroll (sdx e) (sdy e) (hi_res e)
  | TKeyScancode => Scancode (code e) (action e)
  | TKeyUnicode => Unicode (code e) (action e)
  | TSetModifiers => SetMods (modifiers e)
  | TReset => Reset
  end.

(** The modifiers held after a sequence of calls. *)
Definition held (m : Modifier) (cs : list Call) : Modifier :=
  fold_left (λ m c, match c with SetMods m' => m' | Reset => Mod.None | _ => m end) cs m.

(** The recording injector loses nothing: every call
    succeeds and appends one event, from which the call can be read back with
    all its arguments, so the log replays to exactly the sequence of calls; and
    the modifiers it holds are those last set, none after a reset. *)
Theorem injector_records i cs :
  map replay (events (run i cs)) = map replay (events i) ++ cs ∧
  held_modifiers_ (run i cs) = held (held_modifiers_ i) cs ∧
  Forall (λ c, (exec i c).1 = success) cs.
Proof.
  split_and!.
  - revert i. induction cs as [|c cs IH]; intros i; [by rewrite app_nil_r|].
    unfold run in *. simpl. rewrite IH. unfold events.
    destruct c; simpl; rewrite map_app, <-app_assoc; done.
  - revert i. induction cs as [|c cs IH]; intros i; [done|]. unfold run, held in *. simpl.
    rewrite IH. by destruct c.
  - apply Forall_forall. intros c _. by destruct c.
Qed.

End Injector.

Module Clipboard.

Inductive ClipboardKind := Text | Image | UriList.

#[export] Instance ClipboardKind_eq_dec : EqDecision ClipboardKind.
Proof. solve_decision. Defined.

Record ClipboardData := {
  kind : ClipboardKind;
  text : string;
  image_bytes : list Z;
  image_mime : string;
}.

#[export] Instance value_init_ClipboardData : ValueInit ClipboardData :=
  {| kind := Text; text := ""; image_bytes := []; image_mime := "" |}.

(** [fired]: the arguments of the change callback's calls so far. *)
Record StubClipboardSync := {
  store_ : list ClipboardData;
  change_cb_ : bool;  (* a callback is installed *)
  fired : list ClipboardData;
}.

Definition createClipboardSync : StubClipboardSync :=
  {| store_ := []; change_cb_ := false; fired := [] |}.

(** [get]'s loop: the first entry of the kind. *)
Fixpoint find_kind (k : ClipboardKind) (ds : list ClipboardData) : option ClipboardData :=
  match ds with
  | [] => None
  | d :: ds => if decide (kind d = k) then Some d else find_kind k ds
  end.

Definition get (k : ClipboardKind) (c : StubClipboardSync) : Result ClipboardData :=
  match find_kind k (store_ c) with
  | Some d => good d
  | None => fail NotFound "clipboard empty for kind"
  end.

Definition fire (d : ClipboardData) (c : StubClipboardSync) : StubClipboardSync :=
  if change_cb_ c
  then {| store_ := store_ c; change_cb_ := true; fired := fired c ++ [d] |}
  else c.

(** [set]'s loop: the store with the first entry of the kind replaced, if any. *)
Fixpoint replace_kind (data : ClipboardData) (ds : list ClipboardData)
    : option (list ClipboardData) :=
  match ds with
  | [] => None
  | d :: ds =>
      if decide (kind d = kind data) then Some (data :: ds)
      else option_map (cons d) (replace_kind data ds)
  end.

Definition set_store (ds : list ClipboardData) (c : StubClipboardSync) : StubClipboardSync :=
  {| store_ := ds; change_cb_ := change_cb_ c; fired := fired c |}.

Definition set (data : ClipboardData) (c : StubClipboardSync) : Status * StubClipboardSync :=
  match replace_kind data (store_ c) with
  | Some ds => (success, fire data (set_store ds c))
  | None => (success, fire data (set_store (store_ c ++ [data]) c))
  end.

Definition setChangeCallback (installed : bool) (c : StubClipboardSync) : StubClipboardSync :=
  {| store_ := store_ c; change_cb_ := installed; fired := fired c |}.

(** At most one entry per kind. *)
Definition clipboard_wf (c : StubClipboardSync) : Prop := NoDup (map kind (store_ c)).

Lemma find_kind_None k ds : find_kind k ds = None ↔ k ∉ map kind ds.
Proof.
  induction ds as [|d ds IH]; simpl; [set_solver|]. destruct (decide _) as [<-|Hne].
  - split; [done|]. set_solver.
  - rewrite IH, not_elem_of_cons. naive_solver.
Qed.

Lemma replace_kind_Some data ds ds' :
  replace_kind data ds = Some ds' →
  map kind ds' = map kind ds ∧
  ∀ k, find_kind k ds' = if decide (k = kind data) then Some data else find_kind k ds.
Proof.
  revert ds'. induction ds as [|d ds IH]; intros ds'; simpl; [done|].
  destruct (decide (kind d = kind data)) as [He|Hne].
  - intros ?. simplify_eq. simpl. rewrite He. split; [done|]. intros k.
    repeat case_decide; congruence.
  - destruct (replace_kind data ds) as [ds1|] eqn:E; [|done]. intros ?. simplify_eq/=.
    destruct (IH ds1 eq_refl) as [Hk Hf]. rewrite Hk. split; [done|]. intros k.
    rewrite Hf. repeat case_decide; congruence.
Qed.

Lemma replace_kind_None data ds : replace_kind data ds = None ↔ kind data ∉ map kind ds.
Proof.
  induction ds as [|d ds IH]; simpl; [set_solver|]. destruct (decide _) as [He|Hne].
  - split; [done|]. rewrite He. set_solver.
  - rewrite not_elem_of_cons. destruct (replace_kind data ds); simpl; naive_solver.
Qed.

Lemma find_kind_app k ds d :
  find_kind k (ds ++ [d]) =
    match find_kind k ds with Some x => Some x | None => if decide (kind d = k) then Some d else None end.
Proof. induction ds as [|x ds IH]; simpl; [done|]. by destruct (decide (kind x = k)). Qed.

Lemma store_fire d c : store_ (fire d c) = store_ c.
Proof. unfold fire. by destruct (change_cb_ c). Qed.

(** The clipboard is a map from kinds to values: a [set]
    succeeds and makes [get] of its kind return exactly its value, leaves the
    other kinds alone, keeps one entry per kind, and calls the installed callback
    exactly once with the value, also when it equals what is already there; a
    [get] of a kind never set is NotFound. *)
Theorem clipboard_laws data c :
  clipboard_wf c →
  (set data c).1 = success ∧ clipboard_wf (set data c).2 ∧
  (∀ k, get k (set data c).2 = if decide (k = kind data) then good data else get k c) ∧
  fired (set data c).2 = fired c ++ (if change_cb_ c then [data] else []) ∧
  (∀ k, k ∉ map kind (store_ c) → code (status (get k c)) = NotFound).
Proof.
  intros Hwf. assert (∀ k, k ∉ map kind (store_ c) → code (status (get k c)) = NotFound) as Hnf.
  { intros k Hk%find_kind_None. unfold get. by rewrite Hk. }
  unfold set. destruct (replace_kind data (store_ c)) as [ds|] eqn:E; simpl.
  - destruct (replace_kind_Some _ _ _ E) as [Hk Hf]. split_and!; [done| | | |done].
    + unfold clipboard_wf. rewrite store_fire. simpl. by rewrite Hk.
    + intros k. unfold get. rewrite store_fire. simpl. rewrite Hf. by case_decide.
    + unfold fire. simpl. destruct (change_cb_ c); simpl; by rewrite ?app_nil_r.
  - apply replace_kind_None in E. split_and!; [done| | | |done].
    + unfold clipboard_wf. rewrite store_fire. simpl. rewrite map_app. simpl.
      apply NoDup_app. split_and!; [done| |by apply NoDup_singleton]. set_solver.
    + intros k. unfold get. rewrite store_fire. simpl. rewrite find_kind_app.
      apply find_kind_None in E. destruct (decide (k = kind data)) as [->|Hk].
      * by rewrite E, decide_True.
      * destruct (find_kind k (store_ c)); [done|]. by rewrite decide_False.
    + unfold fire. simpl. destruct (change_cb_ c); simpl; by rewrite ?app_nil_r.
Qed.

Lemma clipboard_laws_witness :
  let old := {| kind := Text; text := "a"; image_bytes := []; image_mime := "" |} in
  let new := {| kind := Text; text := "b"; image_bytes := []; image_mime := "" |} in
  let c := {| store_ := [old]; change_cb_ := true; fired := [] |} in
  clipboard_wf c ∧ (set new c).1 = success ∧ clipboard_wf (set new c).2 ∧
  (∀ k, get k (set new c).2 = if decide (k = kind new) then good new else get k c) ∧
  fired (set new c).2 = [] ++ [new] ∧
  (∀ k, k ∉ map kind (store_ c) → code (status (get k c)) = NotFound).
Proof.
  intros old new c. assert (clipboard_wf c) as Hwf by (apply NoDup_singleton).
  split; [exact Hwf|]. exact (clipboard_laws new c Hwf).
Defined.

End Clipboard.
