(* ===== verification/Cursor.v ===== *)
(** * The cursor of the synthetic capturer ([core/capture/capturer_stub.cpp])

    [fastSin] and [fastCos] on IEEE doubles, computed with the Standard
    Library's executable specification of binary64 (rounding to nearest, ties to
    even, and no fused operations).  The two loops of [fastSin] get fuel, one
    unit for each round; [cursor_every_frame] shows it to be enough, and the
    position to be defined, for every frame index the conversion to a double
    represents, on the rounding analysis of [Rounding]. *)

From S2P Require Import Prelude Rounding.
From Stdlib Require Import SpecFloat Reals Lra.

Definition fmul : spec_float → spec_float → spec_float := SFmul 53 1024.
Definition fadd : spec_float → spec_float → spec_float := SFadd 53 1024.
Definition fsub : spec_float → spec_float → spec_float := SFsub 53 1024.
Definition fdiv : spec_float → spec_float → spec_float := SFdiv 53 1024.

(** The double nearest to [m * 2^e]: literals, and integers converted. *)
Definition lit (m e : Z) : spec_float := binary_normalize 53 1024 m e false.
Definition of_int (z : Z) : spec_float := lit z 0.

Lemma dbl_of_int z : (Z.abs z < 2 ^ 53)%Z → dbl (of_int z) (IZR z).
Proof.
  intros Hz. rewrite <-(Rmult_1_r (IZR z)), <-pow2_0. by apply normalize_exact.
Qed.

(** The literals, as the compiler rounds them. *)
Definition kPi : spec_float := lit 7074237752028440 (-51).
Definition half_pi : spec_float := lit 7074237752006388 (-52).
Definition d_0_1 : spec_float := lit 7205759403792794 (-56).

(** [static_cast<int32_t>] of a value in range: the integer part. *)
Definition trunc (x : spec_float) : option Z :=
  match x with
  | S754_zero _ => Some 0
  | S754_finite s m e =>
      let a := Z.pos m * 2 ^ Z.max 0 e / 2 ^ Z.max 0 (- e) in
      let v := if s then - a else a in
      if (- 2 ^ 31 <=? v) && (v <? 2 ^ 31) then Some v else None
  | _ => None
  end.

(** [while (x > kPi) x -= 2 * kPi]. *)
Fixpoint wrap_down (fuel : nat) (x : spec_float) : option spec_float :=
  if SFltb kPi x then
    match fuel with O => None | S fuel => wrap_down fuel (fsub x (fmul (of_int 2) kPi)) end
  else Some x.

(** [while (x < -kPi) x += 2 * kPi]. *)
Fixpoint wrap_up (fuel : nat) (x : spec_float) : option spec_float :=
  if SFltb x (SFopp kPi) then
    match fuel with O => None | S fuel => wrap_up fuel (fadd x (fmul (of_int 2) kPi)) end
  else Some x.

Definition polynomial (x : spec_float) : spec_float :=
  let x2 := fmul x x in
  fmul x (fadd (fsub (of_int 1) (fdiv x2 (of_int 6))) (fdiv (fmul x2 x2) (of_int 120))).

Definition fastSin (fuel : nat) (x : spec_float) : option spec_float :=
  x ← wrap_down fuel x; x ← wrap_up fuel x; Some (polynomial x).

Definition fastCos (fuel : nat) (x : spec_float) : option spec_float :=
  fastSin fuel (fadd x half_pi).

(** Each round takes 2 pi off an angle of [index / 10]. *)
Definition cursor_fuel (index : Z) : nat := Z.to_nat (index / 32 + 2).

(** The position in the sample of frame [index], on a screen of the given size;
    [None] where a loop has not ended or the conversion is undefined. *)
Definition cursor_position (screen_width screen_height index : Z) : option (Z * Z) :=
  let fuel := cursor_fuel index in
  let angle := fmul (of_int index) d_0_1 in
  dx ← fastCos fuel angle;
  dx ← trunc (fmul (of_int 200) dx);
  dy ← fastSin fuel angle;
  dy ← trunc (fmul (of_int 200) dy);
  Some (screen_width / 2 + dx, screen_height / 2 + dy).

(** ** On the stub's screen *)

Definition within (lo hi z : Z) : bool := (lo <=? z) && (z <=? hi).

Definition first_frames (n : nat) : list Z := map Z.of_nat (seq 0 n).

Lemma first_frames_checked :
  forallb (λ i, match cursor_position 1280 720 i with
                | Some (x, y) => within 440 840 x && within 160 560 y
                | None => false
                end) (first_frames 600) = true.
Proof. vm_cast_no_check (@eq_refl bool true). Qed.

Lemma elem_of_first_frames n i : 0 ≤ i < Z.of_nat n → In i (first_frames n).
Proof.
  intros Hi. apply in_map_iff. exists (Z.to_nat i). split; [lia|]. apply in_seq. lia.
Qed.

(** Once the angle is so large that a round does not change it, the loop does
    not end: with any fuel there is no result. *)
Lemma wrap_down_stalls fuel x :
  SFltb kPi x = true → fsub x (fmul (of_int 2) kPi) = x → wrap_down fuel x = None.
Proof.
  intros Hx Hs. induction fuel as [|fuel IH]; cbn [wrap_down]; rewrite Hx; [done|].
  by rewrite Hs.
Qed.

Lemma angle_stalls fuel : wrap_down fuel (of_int (2 ^ 60)) = None.
Proof. by apply wrap_down_stalls; vm_compute. Qed.

(** In the first ten seconds of a capture (600 frames) the cursor's position is
    defined, and it stays within 200 points of the middle of the 1280 by 720
    screen; the loops that bring the angle into range end.  Evaluated. *)
Lemma cursor_on_screen index :
  0 ≤ index < 600 →
  ∃ x y, cursor_position 1280 720 index = Some (x, y) ∧
    640 - 200 ≤ x ≤ 640 + 200 ∧ 360 - 200 ≤ y ≤ 360 + 200.
Proof.
  intros Hi%(elem_of_first_frames 600).
  pose proof (proj1 (forallb_forall _ _) first_frames_checked index Hi) as H. simpl in H.
  destruct (cursor_position 1280 720 index) as [[x y]|]; [|done].
  unfold within in H. exists x, y. split; [done|]. lia.
Qed.

(** ** For every frame *)

Section every_frame.
#[local] Open Scope R_scope.

(** The value of [kPi]. *)
Definition P : R := IZR 7074237752028440 * pow2 (-51).

Lemma dbl_kPi : dbl kPi P.
Proof. by apply normalize_exact. Qed.

Lemma dbl_two_pi : dbl (fmul (of_int 2) kPi) (2 * P).
Proof.
  replace (fmul (of_int 2) kPi) with (lit 7074237752028440 (-50)) by (by vm_compute).
  replace (2 * P) with (IZR 7074237752028440 * pow2 (-50)); [by apply normalize_exact|].
  unfold P. change (-50)%Z with (-51 + 1)%Z. rewrite pow2_add, pow2_1. ring.
Qed.

Lemma P_bounds : 3.1415 ≤ P ≤ 3.1416.
Proof. unfold P, pow2. simpl. lra. Qed.

Lemma u_eq : u = 1 / 9007199254740992.
Proof. unfold u, pow2. simpl. lra. Qed.

(** One round of the first loop takes more than six off the angle. *)
Lemma sub_round x v :
  dbl x v → P < v ≤ IZR (2 ^ 50) →
  ∃ w, dbl (fsub x (fmul (of_int 2) kPi)) w ∧ -3.15 ≤ w ≤ v - 6.
Proof.
  intros Hx [Hl Hu]. pose proof P_bounds as HP. pose proof u_eq as Eu.
  change (2 ^ 50)%Z with 1125899906842624%Z in Hu.
  destruct (dbl_sub _ _ v (2 * P) Hx dbl_two_pi) as (w & Hw & He).
  { apply Rle_lt_trans with (pow2 51); [|rewrite !pow2_int by done; by apply IZR_lt].
    rewrite pow2_int by done. cbn. apply Rabs_le. lra. }
  exists w. split; [done|]. apply Rabs_bounds in He. revert He.
  unfold Rabs. destruct (Rcase_abs (v - 2 * P)); intros He; rewrite Eu in He; lra.
Qed.

Lemma wrap_down_ends fuel x v :
  dbl x v → -3.15 ≤ v ≤ IZR (2 ^ 50) → v ≤ 3 + 6 * IZR (Z.of_nat fuel) →
  ∃ y w, wrap_down fuel x = Some y ∧ dbl y w ∧ -3.15 ≤ w ≤ P.
Proof.
  revert x v. induction fuel as [|fuel IH]; intros x v Hx Hv Hf; cbn [wrap_down];
    pose proof P_bounds as HP; pose proof (dbl_ltb _ _ _ _ dbl_kPi Hx) as Hlt;
    destruct (SFltb kPi x).
  - assert (P < v) by by apply Hlt. change (Z.of_nat 0) with 0%Z in Hf. lra.
  - exists x, v. assert (¬ P < v) by (intros ?%Hlt; done). split_and!; [done..|lra|lra].
  - assert (P < v) by by apply Hlt. destruct (sub_round x v Hx) as (w & Hw & Hr); [lra|].
    rewrite Nat2Z.inj_succ, succ_IZR in Hf. apply (IH _ w Hw); lra.
  - exists x, v. assert (¬ P < v) by (intros ?%Hlt; done). split_and!; [done..|lra|lra].
Qed.

(** The second loop takes at most one round. *)
Lemma wrap_up_ends fuel x v :
  dbl x v → -3.15 ≤ v ≤ P →
  ∃ y w, wrap_up (S fuel) x = Some y ∧ dbl y w ∧ Rabs w ≤ 3.15.
Proof.
  intros Hx Hv. pose proof P_bounds as HP.
  assert (∀ x v, dbl x v → SFltb x (SFopp kPi) = true ↔ v < - P) as Hlt.
  { intros. by apply dbl_ltb; [|apply dbl_opp, dbl_kPi]. }
  cbn [wrap_up]. destruct (SFltb x (SFopp kPi)) eqn:E.
  - apply (Hlt x v Hx) in E.
    destruct (dbl_add _ _ v (2 * P) Hx dbl_two_pi) as (w & Hw & He).
    { apply Rle_lt_trans with (pow2 51); rewrite !pow2_int by done; [|by apply IZR_lt].
      cbn. apply Rabs_le. lra. }
    rewrite (Rabs_pos_eq (v + 2 * P)) in He by lra. apply Rabs_bounds in He.
    rewrite u_eq in He.
    assert (SFltb (fadd x (fmul (of_int 2) kPi)) (SFopp kPi) = false) as Hstop.
    { apply not_true_is_false. intros ?%(Hlt _ w Hw). lra. }
    exists (fadd x (fmul (of_int 2) kPi)), w. split; [|split; [done|apply Rabs_le; lra]].
    destruct fuel; cbn [wrap_up]; by rewrite Hstop.
  - exists x, v. assert (¬ v < - P) by (intros ?%(Hlt x v Hx); congruence).
    split_and!; [done..|apply Rabs_le; lra].
Qed.

(** Each operation on numbers of this size is off by at most a millionth. *)
Definition tol : R := 1 / 1000000.

Lemma error_small v : Rabs v ≤ 900 → u * Rabs v + eta ≤ tol.
Proof.
  intros Hv. assert (eta ≤ u) by (by apply pow2_le). pose proof (Rabs_pos v).
  rewrite u_eq in *. unfold tol. lra.
Qed.

Lemma rounds_near x v : rounds x v → Rabs v ≤ 900 → near x v tol.
Proof.
  intros (w & Hw & He) Hv. exists w. split; [done|]. pose proof (error_small v Hv).
  pose proof eta_pos. lra.
Qed.

Lemma small_900 v : Rabs v ≤ 900 → Rabs v < pow2 1023.
Proof.
  intros Hv. apply Rle_lt_trans with (pow2 10); [rewrite pow2_int by done; cbn; lra|].
  apply Rlt_le_trans with (pow2 11); [rewrite !pow2_int by done; by apply IZR_lt|by apply pow2_le].
Qed.

Lemma near_mul x y v w : dbl x v → dbl y w → Rabs (v * w) ≤ 900 → near (fmul x y) (v * w) tol.
Proof.
  intros Hx Hy Hb. destruct (dbl_mul_near x y v w Hx Hy (small_900 _ Hb)) as (r & Hr & He).
  exists r. split; [done|]. pose proof (error_small _ Hb). lra.
Qed.

Lemma near_div x y v w :
  dbl x v → dbl y w → w ≠ 0 → Rabs (v / w) ≤ 900 → near (fdiv x y) (v / w) tol.
Proof.
  intros Hx Hy H0 Hb. destruct (dbl_div_near x y v w Hx Hy H0 (small_900 _ Hb)) as (r & Hr & He).
  exists r. split; [done|]. pose proof (error_small _ Hb). lra.
Qed.

Lemma near_add x y v w : dbl x v → dbl y w → Rabs (v + w) ≤ 900 → near (fadd x y) (v + w) tol.
Proof. intros Hx Hy Hb. apply rounds_near, Hb. by apply dbl_add, small_900. Qed.

Lemma near_sub x y v w : dbl x v → dbl y w → Rabs (v - w) ≤ 900 → near (fsub x y) (v - w) tol.
Proof. intros Hx Hy Hb. apply rounds_near, Hb. by apply dbl_sub, small_900. Qed.

(** The polynomial of [fastSin] on the reals, and its maximum. *)
Definition taylor (v : R) : R := v * (1 - v * v / 6 + v * v * (v * v) / 120).

Lemma taylor_bound v : Rabs v ≤ 3.15 → Rabs (taylor v) ≤ 1.0049.
Proof.
  intros Hv%Rabs_bounds. set (s := 10 - v * v).
  assert (0 ≤ s) as Hs by (unfold s; nra).
  assert (taylor v * taylor v = (10 - s) * ((s * s + 20) * (s * s + 20)) / 14400) as E
    by (unfold taylor, s; field).
  assert ((10 - s) * ((s * s + 20) * (s * s + 20)) ≤ 14541) as Hp.
  { assert (s ≤ 10) by (unfold s; nra). clearbody s.
    assert (0 ≤ s * s) by nra. assert (0 ≤ s * s * s) by (by apply Rmult_le_pos).
    assert (0 ≤ (s - 7.4641) * (s - 7.4641) * (s * s * s + 4.9282 * (s * s) + 57.856 * s + 189.1))
      by (apply Rmult_le_pos; [apply (Rle_0_sqr (s - 7.4641))|lra]).
    lra. }
  assert (taylor v * taylor v ≤ 1.0049 * 1.0049) as Ht by lra.
  generalize dependent (taylor v). intros t _ Ht. apply Rabs_le. split; nra.
Qed.

(** The computed polynomial is close to the exact one. *)
Lemma dbl_polynomial x v :
  dbl x v → Rabs v ≤ 3.15 → ∃ w, dbl (polynomial x) w ∧ Rabs w ≤ 1.00493.
Proof.
  intros Hx Hv. pose proof (taylor_bound v Hv) as Ht%Rabs_bounds. apply Rabs_bounds in Hv.
  assert (∀ n, (Z.abs n < 2 ^ 53)%Z → dbl (of_int n) (IZR n)) as Hint by apply dbl_of_int.
  assert (0 ≤ v * v ≤ 9.9225) as Hvv by nra. assert (tol = 1 / 1000000) as Htol by done.
  destruct (near_mul x x v v Hx Hx) as (x2 & Hx2 & E2%Rabs_bounds); [apply Rabs_le; lra|].
  rewrite Htol in E2. set (δ := x2 - v * v) in E2. assert (x2 = v * v + δ) as X2 by (unfold δ; ring).
  destruct (near_div (fmul x x) (of_int 6) x2 6) as (x6 & Hx6 & E6%Rabs_bounds);
    [done|by apply Hint|lra|apply Rabs_le; lra|].
  destruct (near_sub (of_int 1) _ 1 x6 (Hint 1%Z eq_refl) Hx6) as (a & Ha & Ea%Rabs_bounds);
    [apply Rabs_le; lra|].
  assert (0 ≤ x2 * x2 + 1 ∧ x2 * x2 ≤ 100) as [? ?] by (split; nra).
  destruct (near_mul _ _ x2 x2 Hx2 Hx2) as (x4 & Hx4 & E4%Rabs_bounds); [apply Rabs_le; lra|].
  destruct (near_div _ (of_int 120) x4 120 Hx4) as (b & Hb & Eb%Rabs_bounds);
    [by apply Hint|lra|apply Rabs_le; lra|].
  destruct (near_add _ _ a b Ha Hb) as (c & Hc & Ec%Rabs_bounds); [apply Rabs_le; lra|].
  set (p := 1 - v * v / 6 + v * v * (v * v) / 120).
  assert (- (5 / 1000000) ≤ c - p ≤ 5 / 1000000) as Ecp.
  { assert (- (21 / 1000000) ≤ x2 * x2 - v * v * (v * v) ≤ 21 / 1000000) by (rewrite X2; nra).
    unfold p. lra. }
  assert (- (16 / 1000000) ≤ v * c - taylor v ≤ 16 / 1000000) as Evc.
  { replace (v * c - taylor v) with (v * (c - p)) by (unfold taylor, p; ring). nra. }
  destruct (near_mul x _ v c Hx Hc) as (w & Hw & Ew%Rabs_bounds); [apply Rabs_le; lra|].
  exists w. split; [done|]. apply Rabs_le. lra.
Qed.

(** The conversion to an integer drops the fraction. *)
Lemma trunc_within x v n :
  (0 < n ≤ 2 ^ 31)%Z → dbl x v → Rabs v < IZR n → ∃ z, trunc x = Some z ∧ (Z.abs z < n)%Z.
Proof.
  intros Hn Hx Hv. destruct x as [s| | |s m e]; try done; [exists 0%Z; split; [done|lia]|].
  destruct Hx as [-> _]. pose proof (mag_pos m e). rewrite Rabs_sgn in Hv by lra. cbn [trunc].
  set (a := (Z.pos m * 2 ^ Z.max 0 e / 2 ^ Z.max 0 (- e))%Z).
  assert (0 < 2 ^ Z.max 0 (- e))%Z as Hk by (apply Z.pow_pos_nonneg; lia).
  assert (0 ≤ a)%Z as Ha0 by (apply Z.div_pos; [apply Z.mul_nonneg_nonneg; lia|done]).
  assert (a < n)%Z as Han.
  { apply lt_IZR. eapply Rle_lt_trans; [|exact Hv].
    apply (Rmult_le_reg_r (pow2 (Z.max 0 (- e)))); [apply pow2_pos|].
    rewrite Rmult_assoc, <-pow2_add. replace (e + Z.max 0 (- e))%Z with (Z.max 0 e) by lia.
    rewrite !pow2_int, <-!mult_IZR by lia. apply IZR_le.
    rewrite Z.mul_comm. by apply Z.mul_div_le. }
  exists (if s then - a else a)%Z. set (z := (if s then - a else a)%Z).
  assert (- n < z < n)%Z as Hz by (unfold z; destruct s; lia). split; [|lia].
  assert ((- 2 ^ 31 <=? z) && (z <? 2 ^ 31) = true)%Z as -> by lia. done.
Qed.

(** Twice hundred times the sine of an angle that the loops' fuel covers. *)
Lemma fastSin_within fuel x v :
  dbl x v → 0 ≤ v ≤ IZR (2 ^ 50) → v ≤ 3 + 6 * IZR (Z.of_nat fuel) → (0 < fuel)%nat →
  ∃ y z, fastSin fuel x = Some y ∧ trunc (fmul (of_int 200) y) = Some z ∧ (Z.abs z ≤ 200)%Z.
Proof.
  intros Hx Hv Hf Hfuel. destruct (wrap_down_ends fuel x v Hx) as (x1 & v1 & E1 & Hx1 & Hv1);
    [lra|done|].
  destruct fuel as [|fuel]; [lia|].
  destruct (wrap_up_ends fuel x1 v1 Hx1 Hv1) as (x2 & v2 & E2 & Hx2 & Hv2).
  destruct (dbl_polynomial x2 v2 Hx2 Hv2) as (r & Hr & Hrb%Rabs_bounds).
  exists (polynomial x2). unfold fastSin. rewrite E1. cbn [mbind option_bind]. rewrite E2.
  destruct (near_mul (of_int 200) (polynomial x2) 200 r) as (d & Hd & Ed%Rabs_bounds);
    [by apply dbl_of_int|done|apply Rabs_le; lra|].
  assert (tol = 1 / 1000000) as Htol by done.
  destruct (trunc_within _ d 201 ltac:(done) Hd) as (z & Hz & Hzb); [apply Rabs_def1; lra|].
  exists z. split_and!; [done|done|lia].
Qed.

(** The angle of a frame, and the shifted one. *)
Lemma angle_bounds index :
  (0 ≤ index < 2 ^ 53)%Z →
  ∃ a b, dbl (fmul (of_int index) d_0_1) a ∧
    dbl (fadd (fmul (of_int index) d_0_1) half_pi) b ∧
    0 ≤ a ≤ IZR index / 10 + 1 ∧ 0 ≤ b ≤ IZR index / 10 + 3.
Proof.
  intros Hi. assert (0 ≤ IZR index ≤ 9007199254740992) as Hir by (split; apply IZR_le; lia).
  assert (dbl d_0_1 (IZR 7205759403792794 * pow2 (-56))) as Hd by by apply normalize_exact.
  assert (dbl half_pi (IZR 7074237752006388 * pow2 (-52))) as Hh by by apply normalize_exact.
  set (t := IZR 7205759403792794 * pow2 (-56)) in *. set (h := IZR 7074237752006388 * pow2 (-52)) in *.
  assert (0.1 ≤ t ≤ 1 / 10 + 1 / 100000000000000000 ∧ 1 ≤ h ≤ 1.6) as [Ht Hh1]
    by (unfold t, h, pow2; simpl; lra).
  assert (0 ≤ IZR index * t ≤ IZR index / 10 + 1 / 10) as Hit by nra. pose proof u_eq as Hu.
  destruct (rounds_pos (fmul (of_int index) d_0_1) (IZR index * t)) as (a & Ha & Har); [|lra|].
  { apply dbl_mul; [apply dbl_of_int; lia|done|].
    destruct (decide (index = 0%Z)) as [->|Hne]; [left; ring|].
    assert (1 ≤ IZR index) by (apply IZR_le; lia).
    apply in_range_pos; [apply Rle_trans with (pow2 (-4)); [by apply pow2_le|]|
      apply Rle_lt_trans with (pow2 60); [rewrite pow2_int by done; cbn; lra|]].
    - unfold pow2. simpl. nra.
    - apply Rlt_le_trans with (pow2 61); [rewrite !pow2_int by done; by apply IZR_lt|by apply pow2_le]. }
  assert (0 ≤ a ≤ IZR index / 10 + 1 / 2) as Hab by (rewrite Hu in Har; nra).
  destruct (rounds_pos (fadd (fmul (of_int index) d_0_1) half_pi) (a + h)) as (b & Hb & Hbr); [|lra|].
  { apply dbl_add; [done..|]. apply Rle_lt_trans with (pow2 60).
    - rewrite pow2_int by done. cbn. apply Rabs_le. lra.
    - apply Rlt_le_trans with (pow2 61); [rewrite !pow2_int by done; by apply IZR_lt|by apply pow2_le]. }
  exists a, b. rewrite Hu in Hbr. split_and!; [done..|lra|lra|nra|nra].
Qed.

(** C31. For every frame of a capture (up to index [2^53], some millions
    of years at 60 frames a second) the loops that bring the angle into range
    end, and the cursor's position is defined and within 200 points of the
    middle of the screen, whatever its size. *)
Theorem cursor_every_frame screen_width screen_height index :
  (0 ≤ index < 2 ^ 53)%Z →
  ∃ dx dy, cursor_position screen_width screen_height index =
      Some (screen_width / 2 + dx, screen_height / 2 + dy)%Z ∧
    (Z.abs dx ≤ 200 ∧ Z.abs dy ≤ 200)%Z.
Proof.
  intros Hi. destruct (angle_bounds index Hi) as (a & b & Ha & Hb & Har & Hbr).
  assert (IZR index / 10 + 3 ≤ 3 + 6 * IZR (Z.of_nat (cursor_fuel index))) as Hf.
  { unfold cursor_fuel. rewrite Z2Nat.id by (pose proof (Z.div_pos index 32); lia).
    assert (IZR index ≤ IZR (32 * (index / 32 + 2))) as Hd.
    { apply IZR_le. pose proof (Z.div_mod index 32). pose proof (Z.mod_pos_bound index 32). lia. }
    rewrite mult_IZR in Hd. assert (0 ≤ IZR (index / 32 + 2)); [|lra].
    apply IZR_le. pose proof (Z.div_pos index 32). lia. }
  assert (0 < cursor_fuel index)%nat by (unfold cursor_fuel; pose proof (Z.div_pos index 32); lia).
  assert (IZR index ≤ 9007199254740992) by (apply IZR_le; lia).
  assert (IZR index / 10 + 3 ≤ IZR (2 ^ 50)) by (change (2 ^ 50)%Z with 1125899906842624%Z; lra).
  destruct (fastSin_within (cursor_fuel index) _ a Ha) as (sy & dy & Es & Ety & Hy); [lra|lra|done|].
  destruct (fastSin_within (cursor_fuel index) _ b Hb) as (sx & dx & Ec & Etx & Hx); [lra|lra|done|].
  exists dx, dy. split; [|done]. unfold cursor_position, fastCos.
  rewrite Ec. cbn [mbind option_bind]. rewrite Etx. cbn [mbind option_bind].
  rewrite Es. cbn [mbind option_bind]. by rewrite Ety.
Qed.

(** Frame 123456 of the stub's screen. *)
Lemma cursor_every_frame_witness :
  ∃ dx dy, cursor_position 1280 720 123456 = Some (1280 / 2 + dx, 720 / 2 + dy)%Z ∧
    (Z.abs dx ≤ 200 ∧ Z.abs dy ≤ 200)%Z.
Proof. exact (cursor_every_frame 1280 720 123456 ltac:(done)). Defined.
End every_frame.
