(* ===== verification/Capture.v ===== *)
(** * The synthetic capturer (src/core/capture/capturer.h, capturer_stub.cpp)

    On each [pump] the stub delivers one frame with a moving gradient and, if
    asked for, one cursor sample. The frames and samples a [pump] delivers are
    part of its result. The cursor's position comes from [Cursor]. *)

From S2P Require Import Prelude Types Cursor.

Record DisplayInfo := {
  id : string;
  name : string;
  display_size : Size;
  scale : Z;  (* the backing scale, whole in the stub *)
  isPrimary : bool;
}.

(** [position] is [x] and [y]; [None] as in [cursor_position]. *)
Record CursorSample := {
  position : option (Z * Z);
  hotspot_x : Z;
  hotspot_y : Z;
  shape_size : Size;
  image : list Z;
  visible : bool;
  cursor_timestamp_us : Z;
}.

Record CaptureConfig := {
  display_id : string;
  target_fps : Z;
  capture_cursor : bool;
  prefer_hdr : bool;
  preferred_format : PixelFormat;
}.

Definition CaptureConfig_init : CaptureConfig :=
  {| display_id := ""; target_fps := 60; capture_cursor := true; prefer_hdr := false;
     preferred_format := NV12 |}.

Definition kStubWidth : Z := 1280.
Definition kStubHeight : Z := 720.
Definition kFrameIntervalUs : Z := 16666.

Record StubCapturer := {
  frame_cb_ : bool;   (* a frame callback is installed *)
  cursor_cb_ : bool;  (* a cursor callback is installed *)
  config_ : CaptureConfig;
  capturing_ : bool;
  frame_index_ : Z;
}.

Definition createStubCapturer : StubCapturer :=
  {| frame_cb_ := false; cursor_cb_ := false; config_ := CaptureConfig_init;
     capturing_ := false; frame_index_ := 0 |}.

(** [createCapturer]: both branches of the build switch return the stub. *)
Definition createCapturer : StubCapturer := createStubCapturer.

Definition enumerateDisplays : Result (list DisplayInfo) :=
  good [{| id := "stub-display-0"; name := "REDesk Synthetic Display";
           display_size := {| width := kStubWidth; height := kStubHeight |};
           scale := 1; isPrimary := true |}].

Definition setFrameCallback (cb : bool) (c : StubCapturer) : StubCapturer :=
  {| frame_cb_ := cb; cursor_cb_ := cursor_cb_ c; config_ := config_ c;
     capturing_ := capturing_ c; frame_index_ := frame_index_ c |}.

Definition setCursorCallback (cb : bool) (c : StubCapturer) : StubCapturer :=
  {| frame_cb_ := frame_cb_ c; cursor_cb_ := cb; config_ := config_ c;
     capturing_ := capturing_ c; frame_index_ := frame_index_ c |}.

Definition start (config : CaptureConfig) (c : StubCapturer) : Status * StubCapturer :=
  if capturing_ c then (error InvalidArgument "already capturing", c)
  else (success, {| frame_cb_ := frame_cb_ c; cursor_cb_ := cursor_cb_ c; config_ := config;
                    capturing_ := true; frame_index_ := 0 |}).

Definition stop (c : StubCapturer) : StubCapturer :=
  {| frame_cb_ := frame_cb_ c; cursor_cb_ := cursor_cb_ c; config_ := config_ c;
     capturing_ := false; frame_index_ := frame_index_ c |}.

Definition isCapturing (c : StubCapturer) : bool := capturing_ c.

(** [frame_index_ * 4], converted to [uint32_t]. *)
Definition shift_of (index : Z) : Z := to_u32 (to_u64 (index * 4)).

(** The four bytes of the pixel at [x], [y]. *)
Definition gradient_pixel (shift x y : Z) : list Z :=
  [to_u8 (Z.land (to_u32 (x + shift)) 255);
   to_u8 (Z.land (to_u32 (y + shift)) 255);
   to_u8 (Z.land (to_u32 (to_u32 (x + y) + shift)) 255);
   255].

Definition gradient_row (shift y : Z) : list Z :=
  concat (map (λ x, gradient_pixel shift (Z.of_nat x) y) (seq 0 (Z.to_nat kStubWidth))).

(** The two loops that fill [cpu_pixels]. *)
Definition gradient (shift : Z) : list Z :=
  concat (map (λ y, gradient_row shift (Z.of_nat y)) (seq 0 (Z.to_nat kStubHeight))).

Definition stub_frame (index : Z) : VideoFrame :=
  {| frame_size := {| width := kStubWidth; height := kStubHeight |};
     format := BGRA8;
     timestamp_us := to_u64 (index * kFrameIntervalUs);
     native_handle := None;
     cpu_pixels := gradient (shift_of index);
     dirty_rects := [{| rect_x := 0; rect_y := 0; rect_width := to_s32 kStubWidth;
                        rect_height := to_s32 kStubHeight |}];
     is_idle := false |}.

(** The frames delivered, none without a callback. *)
Definition deliverFrame (c : StubCapturer) : list VideoFrame :=
  if negb (frame_cb_ c) then [] else [stub_frame (frame_index_ c)].

Definition deliverCursor (c : StubCapturer) : list CursorSample :=
  if negb (cursor_cb_ c) || negb (capture_cursor (config_ c)) then []
  else
    let first := frame_index_ c =? 0 in
    [{| position := cursor_position kStubWidth kStubHeight (frame_index_ c);
        hotspot_x := 0; hotspot_y := 0; visible := true;
        cursor_timestamp_us := to_u64 (frame_index_ c * kFrameIntervalUs);
        shape_size := if first then {| width := 8; height := 8 |}
                      else {| width := 0; height := 0 |};
        image := if first then replicate 256 255 else [] |}].

Definition pump (c : StubCapturer) : list VideoFrame * list CursorSample * StubCapturer :=
  if negb (capturing_ c) then ([], [], c)
  else
    (deliverFrame c, deliverCursor c,
     {| frame_cb_ := frame_cb_ c; cursor_cb_ := cursor_cb_ c; config_ := config_ c;
        capturing_ := capturing_ c; frame_index_ := to_u64 (frame_index_ c + 1) |}).

(** [n] pumps in a row. *)
Fixpoint pumps (n : nat) (c : StubCapturer)
    : list VideoFrame * list CursorSample * StubCapturer :=
  match n with
  | O => ([], [], c)
  | S n =>
      let '(fs, cs, c) := pump c in
      let '(fs', cs', c) := pumps n c in (fs ++ fs', cs ++ cs', c)
  end.

(** ** The gradient *)

Lemma to_u32_mod z : to_u32 z `mod` 256 = z `mod` 256.
Proof.
  unfold wrap. change (2 ^ 32) with (256 * 16777216). rewrite Z.rem_mul_r by lia.
  rewrite Z.mul_comm, Z_mod_plus_full. apply Zmod_mod.
Qed.

Lemma land_255_to_u32 z : to_u8 (Z.land (to_u32 z) 255) = z `mod` 256.
Proof. rewrite land_255, wrap_wrap. apply to_u32_mod. Qed.

Lemma shift_mod index : shift_of index `mod` 256 = (4 * index) `mod` 256.
Proof.
  unfold shift_of, wrap. change (2 ^ 32) with (256 * 16777216).
  rewrite Z.rem_mul_r by lia. rewrite (Z.mul_comm 256), Z_mod_plus_full, Zmod_mod.
  change (2 ^ 64) with (256 * 72057594037927936). rewrite Z.rem_mul_r by lia.
  rewrite (Z.mul_comm 256), Z_mod_plus_full, Zmod_mod. f_equal. lia.
Qed.

Lemma gradient_pixel_mod shift x y :
  gradient_pixel shift x y =
    [(x + shift `mod` 256) `mod` 256; (y + shift `mod` 256) `mod` 256;
     (x + y + shift `mod` 256) `mod` 256; 255].
Proof.
  assert (∀ a, (a + shift) `mod` 256 = (a + shift `mod` 256) `mod` 256) as H.
  { intros a. by rewrite Zplus_mod_idemp_r. }
  unfold gradient_pixel. rewrite !land_255_to_u32, !H.
  by rewrite <-(Zplus_mod_idemp_l (to_u32 (x + y))), to_u32_mod, Zplus_mod_idemp_l.
Qed.

(** The gradient depends on the shift modulo 256 only. *)
Lemma gradient_mod shift : gradient shift = gradient (shift `mod` 256).
Proof.
  unfold gradient, gradient_row.
  generalize (Z.to_nat kStubHeight) as h, (Z.to_nat kStubWidth) as w. intros h w.
  apply (f_equal (@concat Z)), map_ext. intros y.
  apply (f_equal (@concat Z)), map_ext. intros x.
  rewrite !gradient_pixel_mod. by rewrite Zmod_mod.
Qed.

Lemma seq_S_split n : seq 0 (S n) = 0%nat :: seq 1 n.
Proof. done. Qed.

(** Its first byte is the shift's low byte. *)
Lemma gradient_head shift : head (gradient shift) = Some (shift `mod` 256).
Proof.
  unfold gradient. replace (Z.to_nat kStubHeight) with (S (Z.to_nat 719))
    by (vm_compute; reflexivity).
  rewrite seq_S_split. cbn [map concat]. unfold gradient_row at 1.
  replace (Z.to_nat kStubWidth) with (S (Z.to_nat 1279)) by (vm_compute; reflexivity).
  rewrite seq_S_split. cbn [map concat]. rewrite gradient_pixel_mod. cbn [app head].
  by rewrite Z.add_0_l, Zmod_mod.
Qed.

(** The synthetic content changes from frame to frame and
    repeats every 64 frames: two frames of any indices have the same pixels
    exactly when the indices agree modulo 64. *)
Theorem gradient_period i j :
  cpu_pixels (stub_frame i) = cpu_pixels (stub_frame j) ↔ i `mod` 64 = j `mod` 64.
Proof.
  cbn [cpu_pixels stub_frame].
  assert (∀ n, shift_of n `mod` 256 = 4 * (n `mod` 64)) as Hs.
  { intros n. rewrite shift_mod. change 256 with (4 * 64). by rewrite Z.mul_mod_distr_l. }
  split.
  - intros H. apply (f_equal head) in H. rewrite !gradient_head, !Hs in H. injection H. lia.
  - intros H. rewrite (gradient_mod (shift_of i)), (gradient_mod (shift_of j)), !Hs.
    by rewrite H.
Qed.

(** The capturer after [k] pumps since [start], with both callbacks. *)
Lemma pumps_spec n k c :
  capturing_ c = true → frame_cb_ c = true → cursor_cb_ c = true →
  capture_cursor (config_ c) = true → frame_index_ c = Z.of_nat k →
  Z.of_nat k + Z.of_nat n < 2 ^ 40 →
  ∃ cs, pumps n c =
    (map (λ i, stub_frame (Z.of_nat i)) (seq k n), cs,
     {| frame_cb_ := true; cursor_cb_ := true; config_ := config_ c; capturing_ := true;
        frame_index_ := Z.of_nat (k + n) |}) ∧
    length cs = n ∧
    ∀ i s, cs !! i = Some s →
      cursor_timestamp_us s = Z.of_nat (k + i) * kFrameIntervalUs ∧
      (image s ≠ [] ↔ (k + i = 0)%nat) ∧
      position s = cursor_position kStubWidth kStubHeight (Z.of_nat (k + i)).
Proof.
  revert k c. induction n as [|n IH]; intros k c Hc Hf Hcu Hcfg Hi Hb.
  - exists []. simpl. rewrite Nat.add_0_r. split; [|split; [done|by intros [] ?]].
    destruct c. simpl in *. by subst.
  - cbn [pumps]. unfold pump. rewrite Hc. cbn [negb].
    set (c1 := {| frame_cb_ := _ |}).
    destruct (IH (S k) c1) as (cs & E & Hl & Hs); [done..| |lia|].
    { simpl. rewrite Hi, wrap_id; [lia|]. unfold fits. lia. }
    rewrite E. unfold deliverFrame, deliverCursor. rewrite Hf, Hcu, Hcfg, Hi. simpl.
    eexists. split; [by rewrite Nat.add_succ_r|]. split; [simpl; by rewrite Hl|].
    intros [|i] s; simpl.
    + intros ?. simplify_eq. simpl. rewrite Nat.add_0_r. split; [|split; [|done]].
      * apply wrap_id. unfold fits, kFrameIntervalUs. lia.
      * destruct (Z.eqb_spec (Z.of_nat k) 0); split; try done; lia.
    + intros Ht%Hs. by rewrite Nat.add_succ_r.
Qed.

(** A capture from start to stop: starting an idle capturer
    succeeds and begins again at frame 0; [n] pumps then deliver exactly the
    frames 0 .. n-1 in order, at 16,666 microseconds apart, and as many cursor
    samples, of which only the first carries the shape and the first 600 lie
    within 200 points of the middle of the frame; starting again while
    capturing is an error that changes nothing, and after [stop] a pump
    delivers nothing. *)
Theorem capture_run c cfg n :
  capturing_ c = false → frame_cb_ c = true → cursor_cb_ c = true →
  capture_cursor cfg = true → Z.of_nat n < 2 ^ 40 →
  ∃ c1 c2 cs, start cfg c = (success, c1) ∧
    pumps n c1 = (map (λ i, stub_frame (Z.of_nat i)) (seq 0 n), cs, c2) ∧
    map timestamp_us (map (λ i, stub_frame (Z.of_nat i)) (seq 0 n)) =
      map (λ i, Z.of_nat i * kFrameIntervalUs) (seq 0 n) ∧
    length cs = n ∧ (∀ i s, cs !! i = Some s → (image s ≠ [] ↔ i = 0%nat)) ∧
    (∀ i s, cs !! i = Some s → (i < 600)%nat →
       ∃ x y, position s = Some (x, y) ∧ 640 - 200 ≤ x ≤ 640 + 200 ∧
         360 - 200 ≤ y ≤ 360 + 200) ∧
    (∀ cfg', start cfg' c2 = (error InvalidArgument "already capturing", c2)) ∧
    pump (stop c2) = ([], [], stop c2) ∧ stop (stop c2) = stop c2.
Proof.
  intros Hc Hf Hcu Hcfg Hn.
  set (c1 := {| frame_cb_ := frame_cb_ c; cursor_cb_ := cursor_cb_ c; config_ := cfg;
                capturing_ := true; frame_index_ := 0 |}).
  destruct (pumps_spec n 0 c1) as (cs & E & Hl & Hs); [done..|lia|].
  eexists c1, _, cs. split; [unfold start; by rewrite Hc|]. split; [exact E|].
  split_and!; try done.
  - rewrite map_map. apply map_ext_in. intros i Hi%in_seq. cbn [stub_frame timestamp_us].
    apply wrap_id. unfold fits, kFrameIntervalUs. lia.
  - intros i s H. by destruct (Hs i s H) as (_ & Himg & _).
  - intros i s H Hi. destruct (Hs i s H) as (_ & _ & ->). apply cursor_on_screen. lia.
Qed.

Lemma capture_run_witness :
  let c := setCursorCallback true (setFrameCallback true createStubCapturer) in
  ∃ c1 c2 cs, start CaptureConfig_init c = (success, c1) ∧
    pumps 3 c1 = (map (λ i, stub_frame (Z.of_nat i)) (seq 0 3), cs, c2) ∧
    map timestamp_us (map (λ i, stub_frame (Z.of_nat i)) (seq 0 3)) =
      map (λ i, Z.of_nat i * kFrameIntervalUs) (seq 0 3) ∧
    length cs = 3%nat ∧ (∀ i s, cs !! i = Some s → (image s ≠ [] ↔ i = 0%nat)) ∧
    (∀ i s, cs !! i = Some s → (i < 600)%nat →
       ∃ x y, position s = Some (x, y) ∧ 640 - 200 ≤ x ≤ 640 + 200 ∧
         360 - 200 ≤ y ≤ 360 + 200) ∧
    (∀ cfg', start cfg' c2 = (error InvalidArgument "already capturing", c2)) ∧
    pump (stop c2) = ([], [], stop c2) ∧ stop (stop c2) = stop c2.
Proof.
  intros c. refine (capture_run c CaptureConfig_init 3 _ _ _ _ _); reflexivity.
Defined.
