(* ===== verification/Native.v ===== *)
(** * The platform backends ([platform/])

    [platform_backends.h] declares four factories; the host system and the build
    option REDESK_USE_REAL_BACKENDS decide which source files define them.  The
    Windows and Linux backends are skeletons whose operations refuse; the macOS
    capturer is [SckCapturer].  The skeletons name some types that no header
    declares ([EncodeHints], [CursorState], their [EncoderConfig]): these are
    type parameters here, as the code ignores their values. *)

From S2P Require Import Prelude Types Capture Input.

Inductive Host := Windows | MacOs | Linux.

(** ** The skeletons' operations *)

Module CapturerOps.
Record ops (CursorState : Type) := {
  EnumerateDisplays : Result (list DisplayInfo);
  Start : CaptureConfig → Status;
  Stop : Status;
  AcquireFrame : Z → Result VideoFrame;
  AcquireCursor : Result CursorState;
}.
Arguments EnumerateDisplays {CursorState}.
Arguments Start {CursorState}.
Arguments Stop {CursorState}.
Arguments AcquireFrame {CursorState}.
Arguments AcquireCursor {CursorState}.
End CapturerOps.

Module EncoderOps.
Record ops (EncoderConfig EncodeHints : Type) := {
  Configure : EncoderConfig → Status;
  Encode : VideoFrame → EncodeHints → Result EncodedPacket;
  RequestKeyframe : Status;
}.
Arguments Configure {EncoderConfig EncodeHints}.
Arguments Encode {EncoderConfig EncodeHints}.
Arguments RequestKeyframe {EncoderConfig EncodeHints}.
End EncoderOps.

(** The normalised coordinates of [MoveAbsolute] are doubles; no backend looks
    at them. *)
Module InjectorOps.
Record ops (Double : Type) := {
  MoveAbsolute : Double → Double → Status;
  MoveRelative : Z → Z → Status;
  Button : MouseButton → bool → Status;
  Scroll : Z → Z → Status;
  KeyScancode : Z → bool → bool → Status;
  TypeUnicode : list Z → Status;
  ResetModifiers : Status;
}.
Arguments MoveAbsolute {Double}.
Arguments MoveRelative {Double}.
Arguments Button {Double}.
Arguments Scroll {Double}.
Arguments KeyScancode {Double}.
Arguments TypeUnicode {Double}.
Arguments ResetModifiers {Double}.
End InjectorOps.

Module KeyStoreOps.
Record ops := {
  Store : string → list Z → Status;
  Load : string → Result (list Z);
  Erase : string → Status;
}.
End KeyStoreOps.

Section backends.
Context {CursorState EncoderConfig EncodeHints Double : Type} `{ValueInit CursorState}.

(** [platform/windows/capturer_dxgi.cpp]. *)
Definition DxgiCapturer : CapturerOps.ops CursorState := {|
  CapturerOps.EnumerateDisplays := fail Unsupported "DXGI EnumerateDisplays not implemented";
  CapturerOps.Start cfg := error Unsupported "DXGI Start not implemented";
  CapturerOps.Stop := success;
  CapturerOps.AcquireFrame timeout_ms := fail Unsupported "DXGI AcquireFrame not implemented";
  CapturerOps.AcquireCursor := fail Unsupported "DXGI cursor not implemented";
|}.

(** [platform/linux/capturer_pipewire.cpp]. *)
Definition PipeWirePortalCapturer : CapturerOps.ops CursorState := {|
  CapturerOps.EnumerateDisplays := fail Unsupported "PipeWire EnumerateDisplays not implemented";
  CapturerOps.Start cfg := error Unsupported "PipeWire/portal Start not implemented";
  CapturerOps.Stop := success;
  CapturerOps.AcquireFrame timeout_ms := fail Unsupported "PipeWire AcquireFrame not implemented";
  CapturerOps.AcquireCursor := fail Unsupported "PipeWire cursor not implemented";
|}.

(** [platform/windows/encoder_mf.cpp]. *)
Definition WindowsVideoEncoder : EncoderOps.ops EncoderConfig EncodeHints := {|
  EncoderOps.Configure cfg := error Unsupported "Windows HW encoder Configure not implemented";
  EncoderOps.Encode frame hints := fail Unsupported "Windows HW encode not implemented";
  EncoderOps.RequestKeyframe := error Unsupported "RequestKeyframe not implemented";
|}.

(** [platform/linux/encoder_vaapi.cpp]. *)
Definition LinuxVideoEncoder : EncoderOps.ops EncoderConfig EncodeHints := {|
  EncoderOps.Configure cfg := error Unsupported "Linux HW encoder Configure not implemented";
  EncoderOps.Encode frame hints := fail Unsupported "Linux HW encode not implemented";
  EncoderOps.RequestKeyframe := error Unsupported "RequestKeyframe not implemented";
|}.

(** [platform/windows/input_sendinput.cpp]. *)
Definition SendInput_Unsupported : Status :=
  error Unsupported "SendInput injection not implemented".
Definition SendInputInjector : InjectorOps.ops Double := {|
  InjectorOps.MoveAbsolute x_norm y_norm := SendInput_Unsupported;
  InjectorOps.MoveRelative dx dy := SendInput_Unsupported;
  InjectorOps.Button b down := SendInput_Unsupported;
  InjectorOps.Scroll dx_120 dy_120 := SendInput_Unsupported;
  InjectorOps.KeyScancode scancode extended down := SendInput_Unsupported;
  InjectorOps.TypeUnicode text := SendInput_Unsupported;
  InjectorOps.ResetModifiers := SendInput_Unsupported;
|}.

(** [platform/linux/input_ladder.cpp]: the rung is probed at construction. *)
Inductive Backend := Backend_None | PortalLibei | WlrootsVirtual | XTest.
Definition ProbeBackend : Backend := Backend_None.
Definition Ladder_Unsupported : Status :=
  error Unsupported "Linux input ladder: no usable backend / not implemented".
Definition LinuxInputLadder (backend_ : Backend) : InjectorOps.ops Double := {|
  InjectorOps.MoveAbsolute x_norm y_norm := Ladder_Unsupported;
  InjectorOps.MoveRelative dx dy := Ladder_Unsupported;
  InjectorOps.Button b down := Ladder_Unsupported;
  InjectorOps.Scroll dx_120 dy_120 := Ladder_Unsupported;
  InjectorOps.KeyScancode scancode extended down := Ladder_Unsupported;
  InjectorOps.TypeUnicode text := Ladder_Unsupported;
  InjectorOps.ResetModifiers := Ladder_Unsupported;
|}.

(** [platform/windows/keystore_dpapi.cpp]. *)
Definition Dpapi_Unsupported : Status := error Unsupported "DPAPI keystore not implemented".
Definition DpapiKeyStore : KeyStoreOps.ops := {|
  KeyStoreOps.Store key secret := Dpapi_Unsupported;
  KeyStoreOps.Load key := fail NotFound "DPAPI Load not implemented";
  KeyStoreOps.Erase key := Dpapi_Unsupported;
|}.

(** [platform/linux/keystore_libsecret.cpp]. *)
Definition LibSecret_Unsupported : Status :=
  error Unsupported "libsecret keystore not implemented".
Definition LibSecretKeyStore : KeyStoreOps.ops := {|
  KeyStoreOps.Store key secret := LibSecret_Unsupported;
  KeyStoreOps.Load key := fail NotFound "libsecret Load not implemented";
  KeyStoreOps.Erase key := LibSecret_Unsupported;
|}.

(** *** Of platform/macos, not part of any build *)

(** [platform/macos/encoder_videotoolbox.mm]. *)
Definition VideoToolboxEncoder : EncoderOps.ops EncoderConfig EncodeHints := {|
  EncoderOps.Configure cfg := error Unsupported "VideoToolbox Configure not implemented";
  EncoderOps.Encode frame hints := fail Unsupported "VideoToolbox encode not implemented";
  EncoderOps.RequestKeyframe := error Unsupported "RequestKeyframe not implemented";
|}.

(** [platform/macos/input_cgevent.mm]. *)
Definition CgEvent_Unsupported : Status := error Unsupported "CGEvent injection not implemented".
Definition CgEventInjector : InjectorOps.ops Double := {|
  InjectorOps.MoveAbsolute x_norm y_norm := CgEvent_Unsupported;
  InjectorOps.MoveRelative dx dy := CgEvent_Unsupported;
  InjectorOps.Button b down := CgEvent_Unsupported;
  InjectorOps.Scroll dx_120 dy_120 := CgEvent_Unsupported;
  InjectorOps.KeyScancode scancode extended down := CgEvent_Unsupported;
  InjectorOps.TypeUnicode text := CgEvent_Unsupported;
  InjectorOps.ResetModifiers := CgEvent_Unsupported;
|}.

(** [platform/macos/keystore_keychain.mm]. *)
Definition Keychain_Unsupported : Status := error Unsupported "Keychain keystore not implemented".
Definition KeychainKeyStore : KeyStoreOps.ops := {|
  KeyStoreOps.Store key secret := Keychain_Unsupported;
  KeyStoreOps.Load key := fail NotFound "Keychain Load not implemented";
  KeyStoreOps.Erase key := Keychain_Unsupported;
|}.

(** ** The factories *)

(** One for each host, as its source files define it in the build with real
    backends and in the portable one; [inl ()]: ScreenCaptureKit. *)

Definition windows_CreateNativeCapturer (real : bool) : option (() + CapturerOps.ops CursorState) :=
  if real then Some (inr DxgiCapturer) else None.
Definition linux_CreateNativeCapturer (real : bool) : option (() + CapturerOps.ops CursorState) :=
  if real then Some (inr PipeWirePortalCapturer) else None.
Definition macos_CreateNativeCapturer (real : bool) : option (() + CapturerOps.ops CursorState) :=
  if real then Some (inl ()) else None.

Definition windows_CreateNativeVideoEncoder (real : bool) : option (EncoderOps.ops EncoderConfig EncodeHints) :=
  if real then Some WindowsVideoEncoder else None.
Definition linux_CreateNativeVideoEncoder (real : bool) : option (EncoderOps.ops EncoderConfig EncodeHints) :=
  if real then Some LinuxVideoEncoder else None.
Definition macos_CreateNativeVideoEncoder (real : bool) : option (EncoderOps.ops EncoderConfig EncodeHints) := None.

Definition windows_CreateNativeInputInjector (real : bool) : option (InjectorOps.ops Double) :=
  if real then Some SendInputInjector else None.
Definition linux_CreateNativeInputInjector (real : bool) : option (InjectorOps.ops Double) :=
  if real then Some (LinuxInputLadder ProbeBackend) else None.
Definition macos_CreateNativeInputInjector (real : bool) : option (InjectorOps.ops Double) := None.

Definition windows_CreateNativeKeyStore (real : bool) : option KeyStoreOps.ops :=
  if real then Some DpapiKeyStore else None.
Definition linux_CreateNativeKeyStore (real : bool) : option KeyStoreOps.ops :=
  if real then Some LibSecretKeyStore else None.
Definition macos_CreateNativeKeyStore (real : bool) : option KeyStoreOps.ops := None.

(** The one that is linked. *)

Definition CreateNativeCapturer (h : Host) (real : bool) : option (() + CapturerOps.ops CursorState) :=
  match h with
  | Windows => windows_CreateNativeCapturer real
  | MacOs => macos_CreateNativeCapturer real
  | Linux => linux_CreateNativeCapturer real
  end.
Definition CreateNativeVideoEncoder (h : Host) (real : bool) : option (EncoderOps.ops EncoderConfig EncodeHints) :=
  match h with
  | Windows => windows_CreateNativeVideoEncoder real
  | MacOs => macos_CreateNativeVideoEncoder real
  | Linux => linux_CreateNativeVideoEncoder real
  end.
Definition CreateNativeInputInjector (h : Host) (real : bool) : option (InjectorOps.ops Double) :=
  match h with
  | Windows => windows_CreateNativeInputInjector real
  | MacOs => macos_CreateNativeInputInjector real
  | Linux => linux_CreateNativeInputInjector real
  end.
Definition CreateNativeKeyStore (h : Host) (real : bool) : option KeyStoreOps.ops :=
  match h with
  | Windows => windows_CreateNativeKeyStore real
  | MacOs => macos_CreateNativeKeyStore real
  | Linux => linux_CreateNativeKeyStore real
  end.

(** ** What they do *)

(** No backend a factory returns, but for the macOS capturer, does anything:
    each operation other than stopping reports an error. *)
Lemma native_backends_refuse h real :
  (∀ c, CreateNativeCapturer h real = Some (inr c) →
     Result_ok (CapturerOps.EnumerateDisplays c) = false ∧
     (∀ cfg, Status_ok (CapturerOps.Start c cfg) = false) ∧
     (∀ t, Result_ok (CapturerOps.AcquireFrame c t) = false) ∧
     Result_ok (CapturerOps.AcquireCursor c) = false ∧ CapturerOps.Stop c = success) ∧
  (∀ e, CreateNativeVideoEncoder h real = Some e →
     (∀ cfg, Status_ok (EncoderOps.Configure e cfg) = false) ∧
     (∀ f hints, Result_ok (EncoderOps.Encode e f hints) = false) ∧
     Status_ok (EncoderOps.RequestKeyframe e) = false) ∧
  (∀ k, CreateNativeKeyStore h real = Some k →
     (∀ i s, Status_ok (KeyStoreOps.Store k i s) = false) ∧
     (∀ i, code (status (KeyStoreOps.Load k i)) = NotFound) ∧
     (∀ i, Status_ok (KeyStoreOps.Erase k i) = false)).
Proof. split_and!; destruct h, real; intros ? [= <-]; by split_and!. Qed.

(** The injectors refuse every event with the same status. *)
Lemma native_injector_refuses h real i :
  CreateNativeInputInjector h real = Some i →
  ∃ st, Status_ok st = false ∧
    (∀ x y, InjectorOps.MoveAbsolute i x y = st) ∧ (∀ x y, InjectorOps.MoveRelative i x y = st) ∧
    (∀ b d, InjectorOps.Button i b d = st) ∧ (∀ x y, InjectorOps.Scroll i x y = st) ∧
    (∀ k e d, InjectorOps.KeyScancode i k e d = st) ∧ (∀ t, InjectorOps.TypeUnicode i t = st) ∧
    InjectorOps.ResetModifiers i = st.
Proof.
  destruct h, real; try done; intros [= <-];
    [exists SendInput_Unsupported|exists Ladder_Unsupported]; by split_and!.
Qed.

(** In the portable build there is no backend on any host. *)
Lemma portable_build_has_none h :
  CreateNativeCapturer h false = None ∧ CreateNativeVideoEncoder h false = None ∧
  CreateNativeInputInjector h false = None ∧ CreateNativeKeyStore h false = None.
Proof. by destruct h. Qed.
End backends.

(** ** The service's pipe ([platform/windows/named_pipe_acl.h]) *)

Module Pipe.

Record PipeAclPolicy := {
  allow_administrators : bool;
  allow_system : bool;
  extra_user_sid : string;
}.
Definition PipeAclPolicy_init : PipeAclPolicy :=
  {| allow_administrators := true; allow_system := true; extra_user_sid := "" |}.

(** [None] for a null pointer. *)
Record PipeSecurity := {
  security_attributes : option Z;
  security_descriptor : option Z;
}.
Definition PipeSecurity_init : PipeSecurity :=
  {| security_attributes := None; security_descriptor := None |}.
#[export] Instance value_init_PipeSecurity : ValueInit PipeSecurity := PipeSecurity_init.

Definition BuildServicePipeSecurity (real : bool) (policy : PipeAclPolicy) : Result PipeSecurity :=
  if real then fail Unsupported "BuildServicePipeSecurity not implemented"
  else fail Unsupported "named-pipe ACL unavailable in stub build".

Definition ReleaseServicePipeSecurity (sec : PipeSecurity) : PipeSecurity :=
  {| security_attributes := None; security_descriptor := None |}.

(** No pipe gets a descriptor, so that none is left to release. *)
Lemma pipe_security_absent real policy :
  let r := BuildServicePipeSecurity real policy in
  Result_ok r = false ∧ value r = ReleaseServicePipeSecurity (value r).
Proof. by destruct real. Qed.

End Pipe.
