(* ===== verification/Letterbox.v ===== *)
(** * Where the frame is painted (ui/src/ScreenView.cpp)

    The rectangle [ScreenView::paint] draws a frame into, on IEEE doubles as in
    [Cursor]: the frame is scaled to fit the item with its aspect ratio kept,
    and centred.  [letterbox_fits] evaluates common displays and windows;
    [letterbox_bounds] is for every frame and item, on the rounding analysis of
    [Rounding]. *)

From S2P Require Import Prelude Rounding Cursor.
From Stdlib Require Import SpecFloat Reals Lra.

Record QRectF := { rx : spec_float; ry : spec_float; rw : spec_float; rh : spec_float }.

(** [qMin]. *)
Definition qMin (a b : spec_float) : spec_float := if SFltb a b then a else b.

(** [QRectF::center]. *)
Definition center_x (r : QRectF) : spec_float := fadd (rx r) (fdiv (rw r) (of_int 2)).
Definition center_y (r : QRectF) : spec_float := fadd (ry r) (fdiv (rh r) (of_int 2)).

Definition target (bounds : QRectF) (width height : Z) : QRectF :=
  let scale := qMin (fdiv (rw bounds) (of_int width)) (fdiv (rh bounds) (of_int height)) in
  let draw_width := fmul (of_int width) scale in
  let draw_height := fmul (of_int height) scale in
  {| rx := fsub (center_x bounds) (fdiv draw_width (of_int 2));
     ry := fsub (center_y bounds) (fdiv draw_height (of_int 2));
     rw := draw_width; rh := draw_height |}.

(** The item's own rectangle. *)
Definition item (width height : Z) : QRectF :=
  {| rx := of_int 0; ry := of_int 0; rw := of_int width; rh := of_int height |}.

(** ** It fits *)

(** A thousandth of a pixel. *)
Definition slack : spec_float := fdiv (of_int 1) (of_int 1000).
Definition near (a b : spec_float) : bool :=
  SFleb (fsub a b) slack && SFleb (fsub b a) slack.

(** The rectangle lies in the item, fills it in one direction, and is centred;
    all to a thousandth of a pixel. *)
Definition fits_item (width height : Z) (bounds r : QRectF) : bool :=
  SFleb (SFopp slack) (rx r) && SFleb (SFopp slack) (ry r) &&
  SFleb (fadd (rx r) (rw r)) (fadd (rw bounds) slack) &&
  SFleb (fadd (ry r) (rh r)) (fadd (rh bounds) slack) &&
  (near (rw r) (rw bounds) || near (rh r) (rh bounds)) &&
  near (center_x r) (center_x bounds) && near (center_y r) (center_y bounds).

Definition modes : list (Z * Z) :=
  [(1280, 720); (1366, 768); (1440, 900); (1512, 982); (1920, 1080); (2560, 1440);
   (3024, 1964); (3440, 1440); (3840, 2160); (1080, 1920); (64, 64); (1, 1)].

Definition window_sizes : list Z := map (λ n, 487 * Z.of_nat n + 1) (seq 0 5).

(** For these displays in windows of any of these widths and heights. *)
Lemma letterbox_fits :
  Forall (λ '(w, h), Forall (λ bw, Forall (λ bh,
    fits_item w h (item bw bh) (target (item bw bh) w h) = true)
    window_sizes) window_sizes) modes.
Proof.
  assert (forallb (λ '(w, h), forallb (λ bw, forallb (λ bh,
    fits_item w h (item bw bh) (target (item bw bh) w h)) window_sizes) window_sizes) modes =
    true) as H by (vm_cast_no_check (eq_refl true)).
  rewrite forallb_forall in H. apply Forall_forall. intros [w h] Hm%list_elem_of_In.
  specialize (H _ Hm). cbv beta iota in H. rewrite forallb_forall in H.
  apply Forall_forall. intros bw Hbw%list_elem_of_In. specialize (H _ Hbw). cbv beta iota in H.
  rewrite forallb_forall in H. apply Forall_forall. intros bh Hbh%list_elem_of_In.
  exact (H _ Hbh).
Qed.

(** An item without height has no scale to speak of: the target is empty. *)
Example no_height : SFeqb (rh (target (item 640 0) 1280 720)) (of_int 0) = true.
Proof. vm_compute. reflexivity. Qed.

(** ** For every frame and item *)

Section axis.
#[local] Open Scope R_scope.

(** The item's own rectangle, of any size. *)
Definition bounding (fw fh : spec_float) : QRectF :=
  {| rx := of_int 0; ry := of_int 0; rw := fw; rh := fh |}.

Lemma range_between a v b : (-1020 ≤ a)%Z → (b ≤ 1022)%Z → pow2 a ≤ v → v ≤ pow2 b → in_range v.
Proof.
  intros Ha Hb Hl Hu. apply pow2_le in Ha, Hb. apply in_range_pos; [lra|].
  assert (pow2 1022 < pow2 1023); [|lra].
  change 1023%Z with (1022 + 1)%Z. rewrite pow2_add, pow2_1. pose proof (pow2_pos 1022). lra.
Qed.

Lemma small_sum v b : (b ≤ 1022)%Z → Rabs v ≤ pow2 b → Rabs v < pow2 1023.
Proof.
  intros Hb Hv. apply pow2_le in Hb.
  assert (pow2 1022 < pow2 1023); [|lra].
  change 1023%Z with (1022 + 1)%Z. rewrite pow2_add, pow2_1. pose proof (pow2_pos 1022). lra.
Qed.

(** Halving. *)
Lemma dbl_half x v a b :
  (-1019 ≤ a)%Z → (b ≤ 1022)%Z → dbl x v → pow2 a ≤ v → v ≤ pow2 b →
  ∃ w, dbl (fdiv x (of_int 2)) w ∧ v / 2 * (1 - u) ≤ w ≤ v / 2 * (1 + u).
Proof.
  intros Ha Hb Hx Hl Hu. pose proof (pow2_pos a). apply rounds_pos; [|lra].
  apply dbl_div; [done|by apply dbl_of_int|lra|].
  apply (range_between (a - 1) _ b); [lia|lia| |lra].
  rewrite pow2_sub, pow2_1. lra.
Qed.

(** One axis: an item of length [b], a scale [s] that does not exceed [b / n]. *)
Lemma axis n fb b fs s :
  (1 ≤ n < 2 ^ 31)%Z → dbl fb b → pow2 (-64) ≤ b ≤ pow2 64 →
  dbl fs s → pow2 (-100) ≤ s → IZR n * s ≤ b * (1 + u) →
  let fd := fmul (of_int n) fs in
  ∃ d x, dbl fd d ∧
    dbl (fsub (fadd (of_int 0) (fdiv fb (of_int 2))) (fdiv fd (of_int 2))) x ∧
    IZR n * s * (1 - u) ≤ d ≤ IZR n * s * (1 + u) ∧
    - (8 * u * b) ≤ x + d / 2 - b / 2 ≤ 8 * u * b.
Proof.
  intros Hn Hb Hbr Hs Hsl Hfit fd. pose proof u_small as Hu.
  assert (1 ≤ IZR n) as Hn1 by (apply IZR_le; lia).
  pose proof (pow2_pos (-100)). pose proof (pow2_pos (-64)).
  assert (pow2 65 = pow2 64 * 2) as E65 by (rewrite <-pow2_1; apply (pow2_add 64 1)).
  assert (pow2 66 = pow2 65 * 2) as E66 by (rewrite <-pow2_1; apply (pow2_add 65 1)).
  assert (pow2 (-101) = pow2 (-100) / 2) as E101 by (rewrite <-pow2_1; apply (pow2_sub (-100) 1)).
  assert (IZR n * s ≤ pow2 65) by nra.
  destruct (rounds_pos fd (IZR n * s)) as (d & Hd & Hdr); [|nra|].
  { apply dbl_mul; [apply dbl_of_int; lia|done|].
    apply (range_between (-100) _ 65); [done..|nra|done]. }
  destruct (dbl_half fd d (-101) 66) as (hd & Hhd & Hhdr); [done..|nra|nra|].
  destruct (dbl_half fb b (-64) 64) as (hb & Hhb & Hhbr); [done..|lra|lra|].
  destruct (rounds_pos (fadd (of_int 0) (fdiv fb (of_int 2))) (0 + hb)) as (c & Hc & Hcr); [|nra|].
  { apply dbl_add; [by apply dbl_of_int|done|]. apply (small_sum _ 66); [done|].
    apply Rabs_le. nra. }
  destruct (dbl_sub _ _ c hd Hc Hhd) as (x & Hx & Hxr).
  { apply (small_sum _ 66); [done|]. apply Rabs_le. nra. }
  exists d, x. apply Rabs_bounds in Hxr.
  assert (d ≤ 2 * b) by nra. assert (0 ≤ d) by nra. assert (hb ≤ b) by nra. assert (hd ≤ 2 * b) by nra.
  assert (0 ≤ c ≤ 2 * b ∧ 0 ≤ hd) as [Hc2 Hhd0] by nra.
  assert (u * Rabs (c - hd) ≤ u * (2 * b)) by
    (apply Rmult_le_compat_l; [lra|apply Rabs_le; lra]).
  assert (u * hb ≤ u * b ∧ u * d ≤ u * (2 * b)) as [? ?] by (split; apply Rmult_le_compat_l; lra).
  split_and!; [done..|apply Hdr|apply Hdr|lra|lra].
Qed.

Definition size_ok (b : R) : Prop := pow2 (-64) ≤ b ≤ pow2 64.

Lemma dbl_ratio n fb b :
  (1 ≤ n < 2 ^ 31)%Z → dbl fb b → size_ok b →
  ∃ s, dbl (fdiv fb (of_int n)) s ∧ pow2 (-96) ≤ s ∧
    b * (1 - u) ≤ IZR n * s ≤ b * (1 + u).
Proof.
  intros Hn Hb [Hl Hh]. pose proof u_small. pose proof (pow2_pos (-64)).
  assert (1 ≤ IZR n) as Hn1 by (apply IZR_le; lia).
  assert (IZR n ≤ pow2 31) as Hn31 by (rewrite pow2_int by done; apply IZR_le; lia).
  assert (b / IZR n * IZR n = b) as Eq by (field; lra). set (q := b / IZR n) in *.
  assert (0 < q) by (by apply Rdiv_lt_0_compat; lra).
  assert (pow2 (-64) = pow2 (-95) * pow2 31) as E64 by apply (pow2_add (-95) 31).
  assert (pow2 (-96) = pow2 (-95) / 2) as E96 by (rewrite <-pow2_1; apply (pow2_sub (-95) 1)).
  assert (pow2 (-95) ≤ q).
  { apply (Rmult_le_reg_r (pow2 31)); [apply pow2_pos|]. rewrite <-E64.
    apply Rle_trans with b; [done|]. rewrite <-Eq. apply Rmult_le_compat_l; lra. }
  destruct (rounds_pos (fdiv fb (of_int n)) q) as (s & Hs & Hsr); [|lra|].
  { apply dbl_div; [done|apply dbl_of_int; lia|lra|].
    fold q. assert (q ≤ b) by nra. apply (range_between (-95) _ 64); done || lra. }
  exists s. split_and!; [done|nra|nra|nra].
Qed.

Lemma dbl_min x y v w :
  dbl x v → dbl y w → ∃ m, dbl (qMin x y) m ∧ m ≤ v ∧ m ≤ w ∧ (m = v ∨ m = w).
Proof.
  intros Hx Hy. unfold qMin. pose proof (dbl_ltb x y v w Hx Hy) as Hlt.
  destruct (SFltb x y).
  - exists v. assert (v < w) by by apply Hlt. split_and!; auto; lra.
  - exists w. assert (¬ v < w) by (intros ?%Hlt; done). split_and!; auto; lra.
Qed.

(** What of an axis lies in the item. *)
Lemma axis_inside b d x :
  0 < b → d ≤ b * (1 + u) * (1 + u) → - (8 * u * b) ≤ x + d / 2 - b / 2 ≤ 8 * u * b →
  - (16 * u * b) ≤ x ∧ x + d ≤ b + 16 * u * b.
Proof. pose proof u_small. intros Hb Hd Hx. nra. Qed.

Lemma aspect_kept w h s dw dh :
  1 ≤ w → 1 ≤ h → 0 < s →
  w * s * (1 - u) ≤ dw ≤ w * s * (1 + u) → h * s * (1 - u) ≤ dh ≤ h * s * (1 + u) →
  Rabs (dw * h - dh * w) ≤ 16 * u * (dw * h).
Proof.
  intros Hw Hh Hs [Hdw Hdw'] [Hdh Hdh']. pose proof u_small as Hu.
  apply (Rmult_le_compat_r h) in Hdw, Hdw'; [|lra..].
  apply (Rmult_le_compat_r w) in Hdh, Hdh'; [|lra..].
  assert (0 < w * h * s) as Hk by (apply Rmult_lt_0_compat; [nra|done]).
  set (k := w * h * s) in *.
  replace (w * s * (1 - u) * h) with (k - u * k) in * by (unfold k; ring).
  replace (w * s * (1 + u) * h) with (k + u * k) in * by (unfold k; ring).
  replace (h * s * (1 - u) * w) with (k - u * k) in * by (unfold k; ring).
  replace (h * s * (1 + u) * w) with (k + u * k) in * by (unfold k; ring).
  assert (u * (k / 2) ≤ u * (dw * h)) by (apply Rmult_le_compat_l; nra).
  apply Rabs_le. nra.
Qed.

(** C30. The painted rectangle of a frame of [w] by [h] pixels in an item of any size:
    all four numbers are finite, the rectangle lies in the item and is centred in
    it, it fills the item in one direction, and it has the frame's aspect ratio;
    each up to sixteen units in the last place of the item's size. *)
Theorem letterbox_bounds w h fw fh bw bh :
  (1 ≤ w < 2 ^ 31)%Z → (1 ≤ h < 2 ^ 31)%Z →
  dbl fw bw → size_ok bw → dbl fh bh → size_ok bh →
  let r := target (bounding fw fh) w h in
  ∃ x y dw dh, dbl (rx r) x ∧ dbl (ry r) y ∧ dbl (rw r) dw ∧ dbl (rh r) dh ∧
    let ε := 16 * u in
    (- (ε * bw) ≤ x ∧ x + dw ≤ bw + ε * bw) ∧ (- (ε * bh) ≤ y ∧ y + dh ≤ bh + ε * bh) ∧
    Rabs (x + dw / 2 - bw / 2) ≤ ε * bw ∧ Rabs (y + dh / 2 - bh / 2) ≤ ε * bh ∧
    (bw * (1 - ε) ≤ dw ∨ bh * (1 - ε) ≤ dh) ∧
    Rabs (dw * IZR h - dh * IZR w) ≤ ε * (dw * IZR h).
Proof.
  intros Hw Hh Hbw Hsw Hbh Hsh r. pose proof u_small as Hu.
  destruct (dbl_ratio w fw bw Hw Hbw Hsw) as (s1 & Hs1 & Hl1 & Hr1).
  destruct (dbl_ratio h fh bh Hh Hbh Hsh) as (s2 & Hs2 & Hl2 & Hr2).
  destruct (dbl_min _ _ s1 s2 Hs1 Hs2) as (s & Hs & Hle1 & Hle2 & Hor).
  assert (1 ≤ IZR w ∧ 1 ≤ IZR h) as [Hw1 Hh1] by (split; apply IZR_le; lia).
  assert (0 < bw ∧ 0 < bh) as [Hbw0 Hbh0].
  { pose proof (pow2_pos (-64)). destruct Hsw, Hsh. split; lra. }
  assert (pow2 (-100) ≤ s) as Hsl.
  { pose proof (pow2_le (-100) (-96) ltac:(done)). destruct Hor as [-> | ->]; lra. }
  assert (0 < s) as Hs0 by (pose proof (pow2_pos (-100)); lra).
  assert (IZR w * s ≤ bw * (1 + u) ∧ IZR h * s ≤ bh * (1 + u)) as [Hfw Hfh] by (split; nra).
  destruct (axis w fw bw _ s Hw Hbw Hsw Hs Hsl Hfw) as (dw & x & Hdw & Hx & Hdwr & Hcx).
  destruct (axis h fh bh _ s Hh Hbh Hsh Hs Hsl Hfh) as (dh & y & Hdh & Hy & Hdhr & Hcy).
  assert (dw ≤ bw * (1 + u) * (1 + u) ∧ dh ≤ bh * (1 + u) * (1 + u)) as [Hdw2 Hdh2].
  { split; (eapply Rle_trans; [apply Hdwr || apply Hdhr|apply Rmult_le_compat_r; lra]). }
  pose proof (axis_inside bw dw x Hbw0 Hdw2 Hcx). pose proof (axis_inside bh dh y Hbh0 Hdh2 Hcy).
  exists x, y, dw, dh. do 4 (split; [done|]). cbv zeta.
  split_and!; [lra..|apply Rabs_le; nra|apply Rabs_le; nra| |].
  - destruct Hor as [-> | ->]; [left|right]; nra.
  - by apply (aspect_kept (IZR w) (IZR h) s).
Qed.

Lemma size_ok_int z : (1 ≤ z < 2 ^ 64)%Z → size_ok (IZR z).
Proof.
  intros Hz. pose proof (pow2_le (-64) 0 ltac:(done)). rewrite pow2_0 in *.
  assert (1 ≤ IZR z) by (apply IZR_le; lia). split; [lra|].
  rewrite pow2_int by done. apply IZR_le. lia.
Qed.

(** A display of 1920 by 1080 pixels in an item of 800 by 600. *)
Lemma letterbox_bounds_witness :
  let r := target (bounding (of_int 800) (of_int 600)) 1920 1080 in
  ∃ x y dw dh, dbl (rx r) x ∧ dbl (ry r) y ∧ dbl (rw r) dw ∧ dbl (rh r) dh ∧
    let ε := 16 * u in
    (- (ε * 800) ≤ x ∧ x + dw ≤ 800 + ε * 800) ∧
    (- (ε * 600) ≤ y ∧ y + dh ≤ 600 + ε * 600) ∧
    Rabs (x + dw / 2 - 800 / 2) ≤ ε * 800 ∧ Rabs (y + dh / 2 - 600 / 2) ≤ ε * 600 ∧
    (800 * (1 - ε) ≤ dw ∨ 600 * (1 - ε) ≤ dh) ∧
    Rabs (dw * 1080 - dh * 1920) ≤ ε * (dw * 1080).
Proof.
  exact (letterbox_bounds 1920 1080 (of_int 800) (of_int 600) 800 600
    ltac:(done) ltac:(done) (dbl_of_int 800 ltac:(done)) (size_ok_int 800 ltac:(done))
    (dbl_of_int 600 ltac:(done)) (size_ok_int 600 ltac:(done))).
Defined.
End axis.
