(* ===== verification/LocalScreen.v ===== *)
(** * The screen preview ([ui/src/LocalScreenSource.cpp], [ui/src/ScreenView.cpp],
    [ui/src/VideoItem.cpp])

    [LocalScreenSource] owns a capturer, the platform's if there is one and the
    core stub otherwise, and hands its frames to the GUI thread through the Qt
    event queue; [ScreenView] paints the last one.  [VideoItem] is the surface
    for remote video, whose renderer only clears.

    Qt's images are a parameter: [wrap_copy] is the [QImage] constructor over a
    buffer followed by [copy].  The native capturer is any implementation of
    [Capturer]; its callback runs on its own thread, at any time between two GUI
    events, and what it posts is taken from the queue later.  The core stub
    delivers frames from [pump] only, which is not a member of [ICapturer].
    A capturer changes here by the calls made of it alone: one that stops capturing
    by itself is not covered, nor what the destructor of a native capturer does
    when [start] lets go of it after a failure.

    The two objects with Qt properties carry what the QML bindings on them show
    ([shown], [video_shown]), as [QtProperties] explains. *)

From S2P Require Import Prelude QtProperties Types Capture.

(** ** The capturer interface *)

Class Capturer (C : Type) := {
  cap_setFrameCallback : C → C;
  cap_start : CaptureConfig → C → Status * C;
  cap_stop : C → C;
  cap_isCapturing : C → bool;
}.

(** What [capturer.h] promises. *)
Class CapturerContract (C : Type) `{Capturer C} := {
  start_captures cfg c :
    Status_ok (cap_start cfg c).1 = true → cap_isCapturing (cap_start cfg c).2 = true;
  stop_captures_not c : cap_isCapturing (cap_stop c) = false;
}.

#[export] Instance StubCapturer_capturer : Capturer StubCapturer := {
  cap_setFrameCallback := Capture.setFrameCallback true;
  cap_start := Capture.start;
  cap_stop := Capture.stop;
  cap_isCapturing := Capture.isCapturing;
}.

#[export] Instance StubCapturer_contract : CapturerContract StubCapturer.
Proof.
  split; [|done]. intros cfg c. simpl. unfold Capture.start.
  by destruct (capturing_ c) eqn:E.
Qed.

(** A [unique_ptr<ICapturer>] that holds one or the other. *)
#[export] Instance sum_capturer {C D} `{Capturer C, Capturer D} : Capturer (C + D) := {
  cap_setFrameCallback := sum_map cap_setFrameCallback cap_setFrameCallback;
  cap_start cfg c :=
    match c with
    | inl c => let '(st, c) := cap_start cfg c in (st, inl c)
    | inr d => let '(st, d) := cap_start cfg d in (st, inr d)
    end;
  cap_stop := sum_map cap_stop cap_stop;
  cap_isCapturing c := match c with inl c => cap_isCapturing c | inr d => cap_isCapturing d end;
}.

#[export] Instance sum_contract {C D} `{CapturerContract C, CapturerContract D} :
  CapturerContract (C + D).
Proof.
  split.
  - intros cfg [c|d]; simpl.
    + pose proof (start_captures cfg c). by destruct (cap_start cfg c).
    + pose proof (start_captures cfg d). by destruct (cap_start cfg d).
  - intros [c|d]; simpl; apply stop_captures_not.
Qed.

(** ** The source *)

Inductive Signal := activeChanged | statusTextChanged | frameArrived.

#[export] Instance Signal_eq_dec : EqDecision Signal.
Proof. solve_decision. Defined.

Record LocalScreenSource (N Img : Type) := {
  capturer_ : option (N + StubCapturer);
  last_frame_ : Img;
  status_text_ : string;
  active_ : bool;
  using_real_backend_ : bool;
}.
Arguments capturer_ {N Img}.
Arguments last_frame_ {N Img}.
Arguments status_text_ {N Img}.
Arguments active_ {N Img}.
Arguments using_real_backend_ {N Img}.

(** The properties, their signals and getters ([frameSize] is the size of the
    last frame, for which the frame stands). *)
Inductive Property := active | statusText | frameSize | usingRealBackend.

Definition notify (p : Property) : Signal :=
  match p with
  | active | usingRealBackend => activeChanged
  | statusText => statusTextChanged
  | frameSize => frameArrived
  end.

Inductive Value (Img : Type) := VBool (b : bool) | VText (t : string) | VSizeOf (i : Img).
Arguments VBool {Img}.
Arguments VText {Img}.
Arguments VSizeOf {Img}.

Definition read {N Img} (s : LocalScreenSource N Img) (p : Property) : Value Img :=
  match p with
  | active => VBool (active_ s)
  | statusText => VText (status_text_ s)
  | frameSize => VSizeOf (last_frame_ s)
  | usingRealBackend => VBool (using_real_backend_ s)
  end.

(** The object, the [deliverFrame] calls in the event queue, the signals emitted
    so far, and what the QML bindings on the properties show. *)
Record Gui (N Img : Type) := {
  source : LocalScreenSource N Img;
  queued : list Img;
  signals : list Signal;
  shown : Property → Value Img;
}.
Arguments source {N Img}.
Arguments queued {N Img}.
Arguments signals {N Img}.
Arguments shown {N Img}.

Section screen.
Context {N : Type} `{Capturer N}.
Context {Img : Type} (null_image : Img).
(** [QImage(data, width, height, bytesPerLine, Format_ARGB32).copy()]. *)
Context (wrap_copy : list Z → Z → Z → Z → Img).

Abbreviation Gui := (Gui N Img).
Abbreviation LocalScreenSource := (LocalScreenSource N Img).

Definition LocalScreenSource_init : LocalScreenSource :=
  {| capturer_ := None; last_frame_ := null_image; status_text_ := "Idle";
     active_ := false; using_real_backend_ := false |}.

Definition Gui_init : Gui :=
  {| source := LocalScreenSource_init; queued := []; signals := [];
     shown := read LocalScreenSource_init |}.

Definition upd (f : LocalScreenSource → LocalScreenSource) : State Gui () := modify (λ g,
  {| source := f (source g); queued := queued g; signals := signals g; shown := shown g |}).
Definition emit (s : Signal) : State Gui () := modify (λ g,
  {| source := source g; queued := queued g; signals := signals g ++ [s];
     shown := rebind read notify s (source g) (shown g) |}).

Definition set_capturer (c : option (N + StubCapturer)) (s : LocalScreenSource) :=
  {| capturer_ := c; last_frame_ := last_frame_ s; status_text_ := status_text_ s;
     active_ := active_ s; using_real_backend_ := using_real_backend_ s |}.
Definition set_last_frame (i : Img) (s : LocalScreenSource) :=
  {| capturer_ := capturer_ s; last_frame_ := i; status_text_ := status_text_ s;
     active_ := active_ s; using_real_backend_ := using_real_backend_ s |}.
Definition set_status_text (t : string) (s : LocalScreenSource) :=
  {| capturer_ := capturer_ s; last_frame_ := last_frame_ s; status_text_ := t;
     active_ := active_ s; using_real_backend_ := using_real_backend_ s |}.
Definition set_active (b : bool) (s : LocalScreenSource) :=
  {| capturer_ := capturer_ s; last_frame_ := last_frame_ s; status_text_ := status_text_ s;
     active_ := b; using_real_backend_ := using_real_backend_ s |}.
Definition set_using_real (b : bool) (s : LocalScreenSource) :=
  {| capturer_ := capturer_ s; last_frame_ := last_frame_ s; status_text_ := status_text_ s;
     active_ := active_ s; using_real_backend_ := b |}.

Definition setStatus (t : string) : State Gui () :=
  old ← gets (λ g, status_text_ (source g));
  if bool_decide (old = t) then mret ()
  else upd (set_status_text t);; emit statusTextChanged.

(** The configuration [start] asks for. *)
Definition preview_config : CaptureConfig :=
  {| display_id := ""; target_fps := 60; capture_cursor := true; prefer_hdr := false;
     preferred_format := BGRA8 |}.

Definition permission_text : string :=
  "Screen Recording permission needed — grant REDesk in System " +:+
  "Settings ▸ Privacy & Security ▸ Screen Recording, then retry.".

Definition capturing_text (real : bool) : string :=
  if real then "Capturing real screen" else "Capturing synthetic test pattern (stub)".

(** [start()], where [CreateNativeCapturer()] returns [native]. *)
Definition start (native : option N) : State Gui () :=
  running ← gets (λ g, active_ (source g));
  if running : bool then mret ()
  else
    upd (set_capturer (inl <$> native));;
    upd (set_using_real (bool_decide (is_Some native)));;
    let chosen := match native with
                  | Some c => inl c
                  | None => inr Capture.createCapturer
                  end in
    let '(st, c) := cap_start preview_config (cap_setFrameCallback chosen) in
    upd (set_capturer (Some c));;
    if negb (Status_ok st) then
      setStatus (if decide (code st = PermissionDenied) then permission_text else message st);;
      upd (set_capturer None)
    else
      upd (set_active true);;
      real ← gets (λ g, using_real_backend_ (source g));
      setStatus (capturing_text real);;
      emit activeChanged.

Definition stop : State Gui () :=
  c ← gets (λ g, capturer_ (source g));
  match c with
  | Some c => upd (set_capturer (Some (cap_stop c)));; upd (set_capturer None)
  | None => mret ()
  end;;
  running ← gets (λ g, active_ (source g));
  when running (upd (set_active false);; emit activeChanged);;
  setStatus "Idle".

Definition deliverFrame (img : Img) : State Gui () :=
  upd (set_last_frame img);; emit frameArrived.

Definition currentFrame (s : LocalScreenSource) : Img := last_frame_ s.

(** *** The frame callback *)

(** The guard of the callback. *)
Definition wanted (f : VideoFrame) : bool :=
  negb (bool_decide (cpu_pixels f = []) || (width (frame_size f) =? 0)
        || (height (frame_size f) =? 0)).

(** The image is well defined if the stride is an [int] and the rows lie in the
    buffer. *)
Definition wrap_defined (f : VideoFrame) : bool :=
  let w := to_s32 (width (frame_size f)) in
  let h := to_s32 (height (frame_size f)) in
  (- 2 ^ 31 <=? w * 4) && (w * 4 <? 2 ^ 31) &&
  ((w <=? 0) || (h <=? 0) || (h * (w * 4) <=? Z.of_nat (length (cpu_pixels f)))).

Definition image_of (f : VideoFrame) : Img :=
  wrap_copy (cpu_pixels f) (to_s32 (width (frame_size f))) (to_s32 (height (frame_size f)))
    (to_s32 (width (frame_size f)) * 4).

(** The callback, on the capture thread; [None] where it is undefined. *)
Definition frame_callback (f : VideoFrame) (g : Gui) : option Gui :=
  if negb (wanted f) then Some g
  else if negb (wrap_defined f) then None
  else Some {| source := source g; queued := queued g ++ [image_of f];
               signals := signals g; shown := shown g |}.

(** Tightly packed 32-bit frames are safe. *)
Lemma packed_wraps f :
  let w := width (frame_size f) in
  let h := height (frame_size f) in
  0 < w < 2 ^ 29 → 0 < h < 2 ^ 31 → Z.of_nat (length (cpu_pixels f)) = h * (w * 4) →
  wanted f = true ∧ wrap_defined f = true.
Proof.
  intros w h Hw Hh Hl. subst w h. split.
  - unfold wanted. rewrite bool_decide_eq_false_2.
    + rewrite !(proj2 (Z.eqb_neq _ _)) by lia. done.
    + intros E. rewrite E in Hl. simpl in Hl. nia.
  - unfold wrap_defined. rewrite !to_s32_small by lia. rewrite <-Hl, Z.leb_refl, orb_true_r.
    rewrite (proj2 (Z.leb_le _ _)), (proj2 (Z.ltb_lt _ _)) by lia. done.
Qed.

(** *** Histories *)

Inductive Event :=
| EStart (native : option N)   (* the slot, and what the platform factory returns *)
| EStop
| EFrame (f : VideoFrame)      (* the native capturer delivers *)
| EDeliver.                    (* the event loop takes a posted call *)

(** [None]: cannot happen in this state, or undefined. *)
Definition exec (e : Event) (g : Gui) : option Gui :=
  match e with
  | EStart native => Some (start native g).2
  | EStop => Some (stop g).2
  | EFrame f =>
      match capturer_ (source g) with
      | Some (inl _) => frame_callback f g
      | _ => None
      end
  | EDeliver =>
      match queued g with
      | [] => None
      | img :: rest =>
          Some (deliverFrame img {| source := source g; queued := rest; signals := signals g;
                                    shown := shown g |}).2
      end
  end.

Fixpoint runs (es : list Event) (g : Gui) : option Gui :=
  match es with
  | [] => Some g
  | e :: es => g ← exec e g; runs es g
  end.

(** *** What the slots do *)

Lemma runs_app es es' g : runs (es ++ es') g = g ← runs es g; runs es' g.
Proof.
  revert g. induction es as [|e es IH]; intros g; simpl; [done|].
  destruct (exec e g); [apply IH|done].
Qed.

(** Signals that say nothing about the capture state. *)
Definition count (s : Signal) (ss : list Signal) : nat := length (filter (s =.) ss).

Lemma count_app s a b : count s (a ++ b) = (count s a + count s b)%nat.
Proof. unfold count. by rewrite filter_app, length_app. Qed.

(** A step that is only about starting and stopping. *)
Definition quiet (g g' : Gui) : Prop :=
  queued g' = queued g ∧ last_frame_ (source g') = last_frame_ (source g) ∧
  ∃ new, signals g' = signals g ++ new ∧ count frameArrived new = O.

(** Closes [quiet] once the slot has been evaluated. *)
Ltac quiet_done :=
  split_and!; [done|done|]; rewrite <-?app_assoc;
  first [eexists; split; [reflexivity|done] | exists []; rewrite app_nil_r; split; done].

Lemma start_quiet native g : quiet g (start native g).2.
Proof.
  unfold start, setStatus, upd, emit. run_state.
  destruct (active_ (source g)); simpl; [quiet_done|].
  destruct native as [c|]; simpl.
  - destruct (cap_start _ _) as [st c']; simpl. destruct (Status_ok st); simpl;
      repeat case_bool_decide; simpl; quiet_done.
  - repeat case_bool_decide; simpl; quiet_done.
Qed.

Lemma stop_quiet g : quiet g (stop g).2.
Proof.
  unfold stop, setStatus, upd, emit. run_state.
  destruct (capturer_ (source g)); simpl; destruct (active_ (source g)); simpl;
    repeat case_bool_decide; simpl; quiet_done.
Qed.

(** *** What the status says *)

Definition consistent (g : Gui) : Prop :=
  let s := source g in
  active_ s = bool_decide (is_Some (capturer_ s)) ∧
  Nat.odd (count activeChanged (signals g)) = active_ s ∧
  ∀ c, capturer_ s = Some c →
    cap_isCapturing c = true ∧ status_text_ s = capturing_text (using_real_backend_ s) ∧
    using_real_backend_ s = match c with inl _ => true | inr _ => false end.

Lemma odd_snoc ss : Nat.odd (count activeChanged (ss ++ [activeChanged])) =
  negb (Nat.odd (count activeChanged ss)).
Proof.
  rewrite count_app. replace (count activeChanged [activeChanged]) with 1%nat by done.
  by rewrite Nat.add_1_r, Nat.odd_succ, <-Nat.negb_odd.
Qed.

Lemma odd_other ss s : s ≠ activeChanged →
  Nat.odd (count activeChanged (ss ++ [s])) = Nat.odd (count activeChanged ss).
Proof.
  intros Hs. rewrite count_app.
  replace (count activeChanged [s]) with 0%nat by (by destruct s). by rewrite Nat.add_0_r.
Qed.

Section contract.
Context {contract : CapturerContract N}.

Lemma start_consistent native g : consistent g → consistent (start native g).2.
Proof.
  intros Hg. pose proof Hg as (Ha & Ho & Hc). unfold start, setStatus, upd, emit. run_state.
  destruct (active_ (source g)) eqn:Hact; simpl; [exact Hg|].
  set (chosen := match native with Some c => inl c | None => inr createCapturer end).
  pose proof (start_captures preview_config (sum_map (cap_setFrameCallback)
    (Capture.setFrameCallback true) chosen)) as Hs.
  destruct native as [c|]; simpl in *; [destruct (cap_start _ _) as [st c']|];
    simpl in *; [destruct (Status_ok st)|];
    simpl; repeat case_bool_decide; simpl; split_and!; simpl;
    rewrite ?odd_snoc, ?odd_other by done; rewrite ?odd_other, ?Ho by done; try done;
    intros ? [= <-]; split_and!; auto.
Qed.

Lemma stop_consistent g : consistent g → consistent (stop g).2.
Proof.
  intros Hg. pose proof Hg as (Ha & Ho & Hc). unfold stop, setStatus, upd, emit. run_state.
  destruct (capturer_ (source g)) eqn:Hcap; simpl in Ha; rewrite Ha in Ho; simpl;
    rewrite Ha; simpl; case_bool_decide; simpl; split_and!; simpl;
    rewrite ?odd_other, ?odd_snoc, ?Ho, ?Hcap, ?Ha by done; done.
Qed.

(** *** What is shown *)

(** The frames a history captures that make an image. *)
Definition captured (es : list Event) : list Img :=
  omap (λ e, match e with
             | EFrame f => if wanted f then Some (image_of f) else None
             | _ => None
             end) es.

Definition is_deliver (e : Event) : bool := match e with EDeliver => true | _ => false end.
Definition deliveries (es : list Event) : nat := length (filter is_deliver es).

(** The images shown so far and those still queued. *)
Definition shows (es : list Event) (g : Gui) : Prop :=
  let n := deliveries es in
  (n ≤ length (captured es))%nat ∧ queued g = drop n (captured es) ∧
  last_frame_ (source g) = default null_image (last (take n (captured es))) ∧
  count frameArrived (signals g) = n.

Lemma captured_snoc es e : captured (es ++ [e]) = captured es ++ captured [e].
Proof. unfold captured. by rewrite omap_app. Qed.

Lemma deliveries_snoc es e :
  deliveries (es ++ [e]) = if is_deliver e then S (deliveries es) else deliveries es.
Proof.
  unfold deliveries. rewrite filter_app, length_app. destruct e; simpl; lia.
Qed.

(** A slot shows nothing. *)
Lemma shows_quiet es e g g' :
  captured [e] = [] → is_deliver e = false → quiet g g' → shows es g → shows (es ++ [e]) g'.
Proof.
  intros He Hd (Hq & Hl & new & Hs & Hn) (? & ? & ? & ?).
  unfold shows. rewrite captured_snoc, deliveries_snoc, He, Hd, app_nil_r.
  rewrite Hq, Hl, Hs, count_app, Hn. split_and!; try done. lia.
Qed.

Lemma shows_step es e g g' : shows es g → exec e g = Some g' → shows (es ++ [e]) g'.
Proof.
  intros Hg. destruct e as [native| |f|]; simpl.
  - intros [= <-]. by eapply shows_quiet; [..|apply start_quiet|].
  - intros [= <-]. by eapply shows_quiet; [..|apply stop_quiet|].
  - destruct (capturer_ _) as [[c|]|]; try done. unfold frame_callback.
    destruct (wanted f) eqn:Hw; simpl; [destruct (wrap_defined f); simpl; [|done]|]; intros [= <-].
    + destruct Hg as (Hle & Hq & Hl & Hc). unfold shows.
      rewrite captured_snoc, deliveries_snoc. simpl. rewrite Hw. simpl.
      rewrite length_app, drop_app_le, take_app_le by lia. simpl.
      split_and!; [lia|by rewrite Hq|done|done].
    + apply (shows_quiet es _ g); [simpl; by rewrite Hw|done| |done].
      split_and!; [done|done|]. exists []. by rewrite app_nil_r.
  - destruct (queued g) as [|img rest] eqn:Hqueue; [done|]. intros [= <-].
    destruct Hg as (Hle & Hq & Hl & Hc). rewrite Hqueue in Hq.
    assert (captured es !! deliveries es = Some img) as Himg
      by (by rewrite <-(Nat.add_0_r (deliveries es)), <-lookup_drop, <-Hq).
    pose proof (lookup_lt_Some _ _ _ Himg).
    unfold shows. rewrite captured_snoc, deliveries_snoc, app_nil_r. simpl.
    split_and!; [lia| | |].
    + by rewrite <-Nat.add_1_r, <-drop_drop, <-Hq.
    + by rewrite (take_S_r _ _ img), last_snoc.
    + rewrite count_app, Hc.
      replace (count frameArrived [frameArrived]) with 1%nat by done. lia.
Qed.

(** *** What the bindings show *)

(** The bindings are fresh, but for that on the backend of an inactive preview. *)
Definition truthful (g : Gui) : Prop :=
  fresh_on read (λ p, p = usingRealBackend → active_ (source g) = true) (source g) (shown g).

(** Closes [truthful] for a slot that has been evaluated: by the property. *)
Ltac truthful_done Hg :=
  pose proof (Hg active ltac:(done)) as Ea; pose proof (Hg statusText ltac:(done)) as Et;
  pose proof (Hg frameSize ltac:(done)) as Ef; simpl in Ea, Et, Ef;
  intros p Hp; destruct p; cbn in Hp |- *; try specialize (Hp eq_refl);
  first [done | congruence | exact (Hg usingRealBackend (λ _, Hp))].

Lemma start_truthful native g : truthful g → truthful (start native g).2.
Proof.
  intros Hg. unfold start, setStatus, upd, emit. run_state.
  destruct (active_ (source g)) eqn:Hact; simpl; [exact Hg|].
  destruct native as [c|]; simpl; [destruct (cap_start _ _) as [st c']|];
    simpl; [destruct (Status_ok st)|]; simpl; repeat case_bool_decide; simpl; truthful_done Hg.
Qed.

Lemma stop_truthful g : truthful g → truthful (stop g).2.
Proof.
  intros Hg. unfold stop, setStatus, upd, emit. run_state.
  destruct (capturer_ (source g)); simpl; destruct (active_ (source g)) eqn:Hact; simpl;
    case_bool_decide; simpl; truthful_done Hg.
Qed.

Lemma exec_truthful e g g' : exec e g = Some g' → truthful g → truthful g'.
Proof.
  destruct e as [native| |f|]; simpl.
  - intros [= <-]. apply start_truthful.
  - intros [= <-]. apply stop_truthful.
  - destruct (capturer_ _) as [[c|]|]; try done. unfold frame_callback.
    by repeat case_match; intros [= <-].
  - destruct (queued g); [done|]. intros [= <-] Hg. truthful_done Hg.
Qed.

Lemma exec_consistent e g g' : exec e g = Some g' → consistent g → consistent g'.
Proof.
  destruct e as [native| |f|]; simpl.
  - intros [= <-]. apply start_consistent.
  - intros [= <-]. apply stop_consistent.
  - destruct (capturer_ _) as [[c|]|]; try done. unfold frame_callback.
    by repeat case_match; intros [= <-].
  - destruct (queued g); [done|]. intros [= <-] (Ha & Ho & Hc). split_and!; [done| |done].
    simpl. by rewrite odd_other.
Qed.

Lemma runs_invariant es g :
  runs es Gui_init = Some g → consistent g ∧ shows es g ∧ truthful g.
Proof.
  revert g. induction es as [|e es IH] using rev_ind; intros g.
  { intros [= <-]. by split_and!. }
  rewrite runs_app. intros (g1 & Hg1 & He)%bind_Some. simpl in He.
  apply bind_Some in He as (g2 & He & [= ->]).
  destruct (IH g1 Hg1) as (? & ? & ?).
  split; [by eapply exec_consistent|split; [by eapply shows_step|by eapply exec_truthful]].
Qed.

(** C28. What the user sees of the preview is true: after any
    history of slot calls, captured frames and deliveries, the bindings on its
    properties show it active exactly when it holds a capturer, its status and
    its last frame; and while they show it active, the capturer is capturing
    and status and backend are shown as those of the kind it is.  (Of an
    inactive preview the backend can be shown wrongly.) *)
Theorem preview_shows_truth es g :
  runs es Gui_init = Some g →
  let s := source g in
  shown g active = VBool (bool_decide (is_Some (capturer_ s))) ∧
  shown g statusText = VText (status_text_ s) ∧ shown g frameSize = VSizeOf (last_frame_ s) ∧
  (shown g active = VBool true → ∃ c, capturer_ s = Some c ∧ cap_isCapturing c = true ∧
    let native := match c with inl _ => true | inr _ => false end in
    shown g statusText = VText (capturing_text native) ∧
    shown g usingRealBackend = VBool native).
Proof.
  intros Hr. destruct (runs_invariant es g Hr) as ((Ha & _ & Hc) & _ & Ht). intros s.
  pose proof (Ht active ltac:(done)) as Ea. pose proof (Ht statusText ltac:(done)) as Et.
  simpl in Ea, Et. rewrite Ea, Ha. split; [done|]. split; [done|].
  split; [exact (Ht frameSize ltac:(done))|].
  intros [= (c & Hcap)%bool_decide_eq_true]. exists c.
  destruct (Hc c Hcap) as (Hcapt & Hst & Hu). split; [done|]. split; [done|]. split.
  - by rewrite Et, Hst, Hu.
  - rewrite <-Hu. apply (Ht usingRealBackend). intros _. rewrite Ha.
    by apply bool_decide_eq_true.
Qed.

(** What the preview says is true: after any history of slot
    calls, captured frames and deliveries it is active exactly when it holds a
    capturer, which is then capturing; the status names the kind of backend it
    holds; and [activeChanged] has been emitted once for every change of
    [active], and not otherwise. *)
Theorem preview_status es g :
  runs es Gui_init = Some g →
  let s := source g in
  (active_ s = true ↔ capturer_ s ≠ None) ∧
  Nat.odd (count activeChanged (signals g)) = active_ s ∧
  ∀ c, capturer_ s = Some c →
    cap_isCapturing c = true ∧ status_text_ s = capturing_text (using_real_backend_ s) ∧
    using_real_backend_ s = match c with inl _ => true | inr _ => false end.
Proof.
  intros Hr. destruct (runs_invariant es g Hr) as ((Ha & Ho & Hc) & _).
  split_and!; [|done|done]. rewrite Ha, bool_decide_eq_true.
  by rewrite not_eq_None_Some.
Qed.

(** Captured frames reach the screen in order, none lost and
    none twice, whatever else happens: after a history with [n] deliveries the
    image shown is that of the [n]-th captured frame that had pixels (none if
    [n] is 0), the later ones wait in the queue in order, and [frameArrived] was
    emitted [n] times.  Starting and stopping do not enter: a stopped preview
    goes on showing its last frame and those still queued. *)
Theorem preview_frames es g :
  runs es Gui_init = Some g →
  let n := deliveries es in
  (n ≤ length (captured es))%nat ∧ queued g = drop n (captured es) ∧
  currentFrame (source g) = default null_image (last (take n (captured es))) ∧
  count frameArrived (signals g) = n.
Proof. intros Hr. by destruct (runs_invariant es g Hr) as (_ & ? & _). Qed.
End contract.

(** ** The view *)

Inductive Painted := Nothing | NoSignal | Frame (img : Img).

(** [ScreenView::paint], but for where the frame is put; [isNull] is [QImage]'s. *)
Definition paint (isNull : Img → bool) (source_ : option LocalScreenSource) : Painted :=
  match source_ with
  | None => Nothing
  | Some s => let frame := currentFrame s in if isNull frame then NoSignal else Frame frame
  end.

Lemma no_native_no_capture es g :
  (∀ c, EStart (Some c) ∉ es) → runs es Gui_init = Some g →
  captured es = [] ∧ ∀ c, capturer_ (source g) ≠ Some (inl c).
Proof.
  revert g. induction es as [|e es IH] using rev_ind; intros g Hno.
  { intros [= <-]. by split. }
  rewrite runs_app. intros (g1 & Hg1 & He)%bind_Some. simpl in He.
  apply bind_Some in He as (g2 & He & [= ->]).
  destruct (IH g1) as [Hc Hcap]; [set_solver|done|]. rewrite captured_snoc, Hc.
  destruct e as [[c|]| |f|]; simpl in *.
  - destruct (Hno c). set_solver.
  - split; [done|]. injection He as <-. unfold start, setStatus, upd, emit. run_state.
    destruct (active_ (source g1)); simpl; [done|]. by case_bool_decide.
  - split; [done|]. injection He as <-. unfold stop, setStatus, upd, emit. run_state.
    destruct (capturer_ (source g1)) eqn:E; simpl; destruct (active_ (source g1)); simpl;
      case_bool_decide; simpl; rewrite ?E; done.
  - destruct (capturer_ (source g1)) as [[c|]|]; [|done..]. by destruct (Hcap c).
  - split; [done|]. destruct (queued g1); [done|]. by injection He as <-.
Qed.

(** Without a platform capturer the preview shows
    nothing: it starts, reports itself active and capturing a synthetic test
    pattern, but in no history is a frame captured or delivered, and a view of it
    paints "No signal" for ever. *)
Theorem stub_preview_blank {contract : CapturerContract N} isNull es g :
  isNull null_image = true → (∀ c, EStart (Some c) ∉ es) → runs es Gui_init = Some g →
  paint isNull (Some (source g)) = NoSignal ∧ queued g = [] ∧
  count frameArrived (signals g) = 0%nat ∧
  let started := source (start None g).2 in
  active_ started = true ∧ using_real_backend_ started = false ∧
  status_text_ started = "Capturing synthetic test pattern (stub)" ∧
  paint isNull (Some started) = NoSignal.
Proof.
  intros Hnull Hno Hr. destruct (no_native_no_capture es g Hno Hr) as [Hc Hcap].
  destruct (runs_invariant es g Hr) as ((Ha & _ & Hst) & (Hle & Hq & Hl & Hn) & _).
  rewrite Hc in *. simpl in Hle. rewrite drop_nil in Hq. rewrite take_nil in Hl. simpl in Hl.
  assert (deliveries es = 0%nat) as H0 by lia. unfold paint, currentFrame.
  assert (last_frame_ (source (start None g).2) = null_image) as Hs.
  { destruct (start_quiet None g) as (_ & -> & _). exact Hl. }
  rewrite Hl, Hs, Hnull. split_and!; try done; [by rewrite Hn|..];
    unfold start, setStatus, upd, emit; run_state;
    destruct (active_ (source g)) eqn:E; simpl.
  all: destruct (capturer_ (source g)) as [[c|c]|]; simpl in Ha; try congruence;
    first [by destruct (Hcap c)|destruct (Hst _ eq_refl) as (_ & Ht & Hu); by rewrite ?Ht, Hu
          |case_bool_decide; simpl; done].
Qed.
End screen.

(** ** The view's subscription *)

Module View.

(** Sources by identity; [connections] is the list of [frameArrived]
    connections to the view, [updates] counts the repaints it asked for. *)
Record ScreenView := {
  source_ : option nat;
  connections : list nat;
  updates : nat;
  sourceChanged : nat;
}.

Definition ScreenView_init : ScreenView :=
  {| source_ := None; connections := []; updates := 0; sourceChanged := 0 |}.

(** [setSource]. *)
Definition setSource (s : option nat) (v : ScreenView) : ScreenView :=
  if decide (source_ v = s) then v
  else
    let kept := match source_ v with
                | Some old => filter (λ c, c ≠ old) (connections v)
                | None => connections v
                end in
    {| source_ := s;
       connections := match s with Some new => kept ++ [new] | None => kept end;
       updates := S (updates v);
       sourceChanged := S (sourceChanged v) |}.

(** A source emits [frameArrived]: one repaint per connection. *)
Definition on_frameArrived (from : nat) (v : ScreenView) : ScreenView :=
  {| source_ := source_ v; connections := connections v;
     updates := updates v + length (filter (from =.) (connections v));
     sourceChanged := sourceChanged v |}.

Definition set_sources (ss : list (option nat)) : ScreenView :=
  fold_left (λ v s, setSource s v) ss ScreenView_init.

Lemma setSource_connections s v :
  connections v = option_list (source_ v) →
  connections (setSource s v) = option_list (source_ (setSource s v)).
Proof.
  intros Hc. unfold setSource. case_decide; [done|]. simpl. rewrite Hc.
  destruct (source_ v) as [old|]; simpl; [|by destruct s].
  rewrite filter_cons_False by (intros Hn; by destruct Hn). by destruct s.
Qed.

(** A view listens to its source and to no other: after any calls of [setSource],
    a frame of source [k] makes the view repaint, once, exactly if [k] is the
    source set last. *)
Lemma view_follows_source ss k :
  source_ (set_sources ss) = default None (last ss) ∧
  updates (on_frameArrived k (set_sources ss)) =
    (updates (set_sources ss) + if decide (last ss = Some (Some k)) then 1 else 0)%nat.
Proof.
  assert (source_ (set_sources ss) = default None (last ss) ∧
    connections (set_sources ss) = option_list (source_ (set_sources ss))) as [Hs Hc].
  { induction ss as [|s ss [IH IHc]] using rev_ind; [done|].
    unfold set_sources. rewrite fold_left_app, last_snoc. simpl.
    split; [|by apply setSource_connections]. unfold setSource. by case_decide. }
  split; [done|]. simpl. f_equal. rewrite Hc, Hs.
  destruct (last ss) as [[j|]|] eqn:E; simpl; [|done..].
  destruct (decide (k = j)) as [->|Hn].
  - rewrite filter_cons_True by done. by rewrite decide_True.
  - rewrite filter_cons_False by done. rewrite decide_False; [done|]. by intros [= ->].
Qed.

End View.

(** ** The remote-video surface *)

Module Video.
Section video.
Context {Color : Type} `{EqDecision Color} (initial : Color).

Inductive VideoSignal := placeholderColorChanged | sourceSizeChanged | hasFrameChanged | Update.

#[local] Instance VideoSignal_eq_dec : EqDecision VideoSignal.
Proof. solve_decision. Defined.

Inductive VideoProperty := placeholderColor | sourceSize | hasFrame.

Definition video_notify (p : VideoProperty) : VideoSignal :=
  match p with
  | placeholderColor => placeholderColorChanged
  | sourceSize => sourceSizeChanged
  | hasFrame => hasFrameChanged
  end.

Inductive VideoValue := VColor (c : Color) | VSize (s : Z * Z) | VHas (b : bool).

(** [emitted] has the signals and the calls of [update]; [video_shown] is what
    the bindings show. *)
Record VideoItem := {
  placeholder_color_ : Color;
  source_size_ : Z * Z;
  has_frame_ : bool;
  emitted : list VideoSignal;
  video_shown : VideoProperty → VideoValue;
}.

Definition video_read (v : VideoItem) (p : VideoProperty) : VideoValue :=
  match p with
  | placeholderColor => VColor (placeholder_color_ v)
  | sourceSize => VSize (source_size_ v)
  | hasFrame => VHas (has_frame_ v)
  end.

Definition VideoItem_init : VideoItem :=
  let v sh := {| placeholder_color_ := initial; source_size_ := (0, 0); has_frame_ := false;
                 emitted := []; video_shown := sh |} in
  v (video_read (v (λ _, VHas false))).

Definition store_color (c : Color) (v : VideoItem) : VideoItem :=
  {| placeholder_color_ := c; source_size_ := source_size_ v; has_frame_ := has_frame_ v;
     emitted := emitted v; video_shown := video_shown v |}.
Definition store_size (s : Z * Z) (v : VideoItem) : VideoItem :=
  {| placeholder_color_ := placeholder_color_ v; source_size_ := s; has_frame_ := has_frame_ v;
     emitted := emitted v; video_shown := video_shown v |}.
Definition store_has (b : bool) (v : VideoItem) : VideoItem :=
  {| placeholder_color_ := placeholder_color_ v; source_size_ := source_size_ v; has_frame_ := b;
     emitted := emitted v; video_shown := video_shown v |}.
Definition emit_video (s : VideoSignal) (v : VideoItem) : VideoItem :=
  {| placeholder_color_ := placeholder_color_ v; source_size_ := source_size_ v;
     has_frame_ := has_frame_ v; emitted := emitted v ++ [s];
     video_shown := rebind video_read video_notify s v (video_shown v) |}.

Definition setPlaceholderColor (c : Color) (v : VideoItem) : VideoItem :=
  if decide (placeholder_color_ v = c) then v
  else
    let v := emit_video placeholderColorChanged (store_color c v) in
    emit_video Update v.

Definition presentStubFrame (size : Z * Z) (v : VideoItem) : VideoItem :=
  let v := if decide (source_size_ v = size) then v
           else emit_video sourceSizeChanged (store_size size v) in
  let v := if has_frame_ v then v else emit_video hasFrameChanged (store_has true v) in
  emit_video Update v.

(** [VideoItemRenderer]: the colour copied by [synchronize], which [render]
    clears to if there is a render target. *)
Record VideoItemRenderer := { clear_color_ : Color }.
Definition createRenderer : VideoItemRenderer := {| clear_color_ := initial |}.
Definition synchronize (v : VideoItem) (r : VideoItemRenderer) : VideoItemRenderer :=
  {| clear_color_ := placeholder_color_ v |}.
Definition render (target : bool) (r : VideoItemRenderer) : option Color :=
  if negb target then None else Some (clear_color_ r).

(** The number of times [x] changes along a list, from a first value. *)
Fixpoint changes {A} `{EqDecision A} (from : A) (xs : list A) : nat :=
  match xs with
  | [] => O
  | x :: xs => (if decide (from = x) then changes from xs else S (changes x xs))
  end.

Definition present_all (sizes : list (Z * Z)) (v : VideoItem) : VideoItem :=
  fold_left (λ v s, presentStubFrame s v) sizes v.

Definition count_video (p : VideoSignal → bool) (v : VideoItem) : nat :=
  length (filter p (emitted v)).
Definition is_size s := match s with sourceSizeChanged => true | _ => false end.
Definition is_has s := match s with hasFrameChanged => true | _ => false end.
Definition is_update s := match s with Update => true | _ => false end.

Lemma count_emit p s v :
  count_video p (emit_video s v) = (count_video p v + if p s then 1 else 0)%nat.
Proof.
  unfold count_video. cbn [emitted emit_video]. rewrite filter_app, length_app, filter_cons.
  case_decide; destruct (p s); simpl in *; done || lia.
Qed.

Lemma count_size p s v : count_video p (store_size s v) = count_video p v.
Proof. done. Qed.

Lemma count_has p b v : count_video p (store_has b v) = count_video p v.
Proof. done. Qed.

(** What presenting one frame does. *)
Lemma present_one size v :
  let v' := presentStubFrame size v in
  source_size_ v' = size ∧ has_frame_ v' = true ∧ placeholder_color_ v' = placeholder_color_ v ∧
  ∀ p, count_video p v' =
    (count_video p v +
     (if decide (source_size_ v = size) then 0 else if p sourceSizeChanged then 1 else 0) +
     (if has_frame_ v then 0 else if p hasFrameChanged then 1 else 0) +
     if p Update then 1 else 0)%nat.
Proof.
  unfold presentStubFrame. destruct (decide (source_size_ v = size)) as [Hs|Hs];
    cbn [emit_video store_size has_frame_]; destruct (has_frame_ v) eqn:Hh;
    (split_and!; [done..|]); intros p; rewrite !count_emit, ?count_has, ?count_emit, ?count_size; lia.
Qed.

(** Presenting frames notifies exactly the changes: one [sourceSizeChanged] for
    every frame whose size differs from the one before, one [hasFrameChanged] at
    the first frame ever, a repaint for every frame; the surface, whatever was
    presented, is cleared to the colour synchronised last. *)
Lemma present_notifies sizes v :
  let v' := present_all sizes v in
  source_size_ v' = default (source_size_ v) (last sizes) ∧
  has_frame_ v' = has_frame_ v || negb (bool_decide (sizes = [])) ∧
  count_video is_size v' = (count_video is_size v + changes (source_size_ v) sizes)%nat ∧
  count_video is_has v' =
    (count_video is_has v +
     if has_frame_ v || bool_decide (sizes = []) then 0 else 1)%nat ∧
  count_video is_update v' = (count_video is_update v + length sizes)%nat ∧
  render true (synchronize v' createRenderer) = Some (placeholder_color_ v).
Proof.
  revert v. induction sizes as [|s sizes IH]; intros v; simpl.
  { rewrite orb_true_r, orb_false_r. split_and!; try done; lia. }
  destruct (IH (presentStubFrame s v)) as (Hs & Hh & Hc & Hf & Hu & Hr).
  destruct (present_one s v) as (Es & Eh & Ec & En).
  rewrite Es, Eh, Ec in *. rewrite En in Hc, Hf, Hu. cbn [is_size is_has is_update] in Hc, Hf, Hu.
  fold (present_all sizes (presentStubFrame s v)). rewrite Hh, Hc, Hf, Hu, Hr, orb_false_r.
  split_and!; [|by destruct (has_frame_ v)| | | |done].
  - rewrite Hs. destruct sizes as [|s' sizes]; [done|]. cbn [last].
    by destruct (last (s' :: sizes)) eqn:E; [|apply last_None in E].
  - case_decide; subst; destruct (has_frame_ v); lia.
  - case_decide; destruct (has_frame_ v); simpl; lia.
  - case_decide; destruct (has_frame_ v); simpl; lia.
Qed.

(** The bindings on the item's properties are never stale, whatever colours and
    frames come. *)
Lemma video_bindings_fresh (os : list (Color + Z * Z)) p :
  let v := fold_left (λ v o, match o with
                             | inl c => setPlaceholderColor c v
                             | inr s => presentStubFrame s v
                             end) os VideoItem_init in
  video_shown v p = video_read v p.
Proof.
  intros v. assert (fresh video_read v (video_shown v)) as Hf; [|by apply Hf]. subst v.
  assert (∀ s v v', (∀ p, video_notify p ≠ s → video_read v' p = video_read v p) →
    video_shown v' = video_shown v → fresh video_read v (video_shown v) →
    fresh video_read (emit_video s v') (video_shown (emit_video s v'))) as Hemit.
  { intros s v v' Hr Hs Hv. cbn [video_shown emit_video]. rewrite Hs.
    exact (fresh_announced video_read video_notify _ s v v' _ Hr Hv). }
  induction os as [|[c|s] os IH] using rev_ind; [by intros []|..]; rewrite fold_left_app; simpl.
  all: set (v := fold_left _ os VideoItem_init) in *; clearbody v.
  - unfold setPlaceholderColor. case_decide; [done|]. eapply Hemit; [done..|].
    by apply (Hemit _ v); [intros []| |].
  - unfold presentStubFrame. eapply Hemit; [done..|].
    assert (∀ w, fresh video_read w (video_shown w) →
      fresh video_read (if has_frame_ w then w else emit_video hasFrameChanged (store_has true w))
        (video_shown (if has_frame_ w then w else emit_video hasFrameChanged (store_has true w))))
      as Hhas.
    { intros w Hw. destruct (has_frame_ w); [done|]. by apply (Hemit _ w); [intros []| |]. }
    apply Hhas. case_decide; [done|]. by apply (Hemit _ v); [intros []| |].
Qed.
End video.
End Video.

(** ** Samples *)

Module Sample.

(** An image is the buffer with its size. *)
Definition image : Type := option (list Z * Z * Z).
Definition wrap_image (buf : list Z) (w h stride : Z) : image := Some (buf, w, h).

Definition frame (format : PixelFormat) (pixels : list Z) : VideoFrame :=
  {| frame_size := {| width := 1; height := 1 |}; format := format; timestamp_us := 0;
     native_handle := None; cpu_pixels := pixels; dirty_rects := []; is_idle := false |}.

(** One pixel is shown, the second still queued when the preview stops. *)
Definition history : list (Event (N := StubCapturer)) :=
  [EStart (Some createStubCapturer); EFrame (frame BGRA8 [1; 2; 3; 4]);
   EFrame (frame BGRA8 [5; 6; 7; 8]); EDeliver; EStop; EDeliver].

Definition after (es : list Event) : Gui StubCapturer image :=
  default (Gui_init None) (runs wrap_image es (Gui_init None)).

(** A pixel in a smaller format passes the guard and is read out of bounds. *)
Example other_format_undefined (g : Gui StubCapturer image) :
  wanted (frame NV12 [1; 2]) = true ∧
  frame_callback wrap_image (frame NV12 [1; 2]) g = None.
Proof. done. Qed.

End Sample.

Lemma preview_status_witness :
  ∃ g, runs Sample.wrap_image (take 3 Sample.history) (Gui_init None) = Some g ∧
    active_ (source g) = true ∧ Nat.odd (count activeChanged (signals g)) = active_ (source g).
Proof.
  exists (Sample.after (take 3 Sample.history)).
  split; [reflexivity|]. split; [reflexivity|].
  exact (proj1 (proj2 (preview_status (N := StubCapturer) None Sample.wrap_image
    (take 3 Sample.history) (Sample.after (take 3 Sample.history)) eq_refl))).
Defined.

Lemma preview_shows_truth_witness :
  ∃ g, runs Sample.wrap_image (take 3 Sample.history) (Gui_init None) = Some g ∧
    shown g active = VBool true ∧ ∃ c, capturer_ (source g) = Some c ∧ cap_isCapturing c = true.
Proof.
  exists (Sample.after (take 3 Sample.history)).
  assert (runs Sample.wrap_image (take 3 Sample.history) (Gui_init None) =
    Some (Sample.after (take 3 Sample.history))) as Hr by reflexivity.
  split; [exact Hr|]. split; [reflexivity|].
  destruct (preview_shows_truth (N := StubCapturer) None Sample.wrap_image
    (take 3 Sample.history) (Sample.after (take 3 Sample.history)) Hr) as (_ & _ & _ & H).
  destruct (H eq_refl) as (c & Hc & Hcap & _). exists c. split; [exact Hc|exact Hcap].
Defined.

Lemma preview_frames_witness :
  ∃ g, runs Sample.wrap_image Sample.history (Gui_init None) = Some g ∧
    currentFrame (source g) = Some ([5; 6; 7; 8], 1, 1) ∧ active_ (source g) = false ∧
    count frameArrived (signals g) = 2%nat.
Proof.
  exists (Sample.after Sample.history).
  assert (runs Sample.wrap_image Sample.history (Gui_init None) =
    Some (Sample.after Sample.history)) as Hr by (vm_compute; reflexivity).
  split; [exact Hr|].
  destruct (preview_frames (N := StubCapturer) None Sample.wrap_image Sample.history
    (Sample.after Sample.history) Hr) as (_ & _ & Hf & Hc).
  split; [exact Hf|]. split; [reflexivity|]. exact Hc.
Defined.

Lemma stub_preview_blank_witness :
  ∃ g, runs Sample.wrap_image [EStart None; EStop; EStart None] (Gui_init None) = Some g ∧
    active_ (source g) = true ∧
    paint (N := StubCapturer) (λ i, bool_decide (i = None)) (Some (source g)) = NoSignal.
Proof.
  set (es := [EStart None; EStop; EStart None]). exists (Sample.after es).
  assert (runs Sample.wrap_image es (Gui_init None) = Some (Sample.after es)) as Hr
    by (vm_compute; reflexivity).
  split; [exact Hr|]. split; [vm_compute; reflexivity|].
  refine (proj1 (stub_preview_blank (N := StubCapturer) None Sample.wrap_image
    (λ i, bool_decide (i = None)) es (Sample.after es) eq_refl _ Hr)).
  intros c Hin. unfold es in Hin.
  by repeat (apply elem_of_cons in Hin as [?|Hin]); try apply elem_of_nil in Hin.
Defined.
