(* ===== verification/SckCapturer.v ===== *)
(** * The macOS capturer ([platform/macos/capturer_sck.mm])

    The one platform backend that is wired: ScreenCaptureKit behind [ICapturer].
    Calls of the frameworks are recorded with their answers; what they answer is
    an arbitrary function of the calls before.  [runAndWait] gives a completion
    handler ten seconds, so that an asynchronous call has three outcomes.

    The theorems: when [start] succeeds and what it captures; that it never
    touches ScreenCaptureKit without the screen-recording grant; that the frame
    it delivers is the source buffer without its row padding; and, through
    [LocalScreen], that this is what the preview shows. *)

From S2P Require Import Prelude Types Cstdlib Capture LocalScreen.

(** ** The frameworks *)

Record SCDisplay := { displayID : Z; display_width : Z; display_height : Z }.

(** What [start] puts in the stream configuration. *)
Record StreamConfiguration := {
  sc_width : Z;
  sc_height : Z;
  frame_rate : Z;  (* minimumFrameInterval is 1 / frame_rate *)
  shows_cursor : bool;
}.

Inductive SckCall :=
| Preflight             (* CGPreflightScreenCaptureAccess *)
| RequestAccess         (* CGRequestScreenCaptureAccess *)
| GetContent            (* getShareableContent..., waited for *)
| MainDisplayID         (* CGMainDisplayID *)
| AddOutput (display : SCDisplay) (config : StreamConfiguration)
| StartCapture          (* startCapture..., waited for *)
| StopCapture.          (* stopCapture..., waited for *)

(** How a call that is waited for ends. *)
Inductive Completion (A : Type) := TimedOut | Failed | Done (a : A).
Arguments TimedOut {A}.
Arguments Failed {A}.
Arguments Done {A} a.

(** The parts of an answer; each call reads its own. *)
Record SckAnswer := {
  granted : bool;
  content : Completion (list SCDisplay);
  main_display : Z;
  output_error : bool;
  started : Completion ();
}.

(** ** The class *)

(** [stream_] says whether the pointer is set. *)
Record SckCapturer := {
  frame_cb_ : bool;
  cursor_cb_ : bool;
  stream_ : bool;
  capturing_ : bool;
  width_ : Z;
  height_ : Z;
  sck_calls : list (SckCall * SckAnswer);
}.

(** [CreateNativeCapturer]. *)
Definition CreateNativeCapturer : SckCapturer :=
  {| frame_cb_ := false; cursor_cb_ := false; stream_ := false; capturing_ := false;
     width_ := 0; height_ := 0; sck_calls := [] |}.

Definition setFrameCallback (cb : bool) (c : SckCapturer) : SckCapturer :=
  {| frame_cb_ := cb; cursor_cb_ := cursor_cb_ c; stream_ := stream_ c;
     capturing_ := capturing_ c; width_ := width_ c; height_ := height_ c;
     sck_calls := sck_calls c |}.
Definition setCursorCallback (cb : bool) (c : SckCapturer) : SckCapturer :=
  {| frame_cb_ := frame_cb_ c; cursor_cb_ := cb; stream_ := stream_ c;
     capturing_ := capturing_ c; width_ := width_ c; height_ := height_ c;
     sck_calls := sck_calls c |}.
Definition set_stream (b : bool) (c : SckCapturer) : SckCapturer :=
  {| frame_cb_ := frame_cb_ c; cursor_cb_ := cursor_cb_ c; stream_ := b;
     capturing_ := capturing_ c; width_ := width_ c; height_ := height_ c;
     sck_calls := sck_calls c |}.
Definition set_capturing (b : bool) (c : SckCapturer) : SckCapturer :=
  {| frame_cb_ := frame_cb_ c; cursor_cb_ := cursor_cb_ c; stream_ := stream_ c;
     capturing_ := b; width_ := width_ c; height_ := height_ c; sck_calls := sck_calls c |}.
Definition set_target (w h : Z) (c : SckCapturer) : SckCapturer :=
  {| frame_cb_ := frame_cb_ c; cursor_cb_ := cursor_cb_ c; stream_ := stream_ c;
     capturing_ := capturing_ c; width_ := w; height_ := h; sck_calls := sck_calls c |}.

Definition isCapturing (c : SckCapturer) : bool := capturing_ c.

(** The display with the wanted id, or else the first. *)
Definition choose (want : Z) (ds : list SCDisplay) : option SCDisplay :=
  match filter (λ d, displayID d = want) ds with
  | d :: _ => Some d
  | [] => head ds
  end.

Definition stream_config (cfg : CaptureConfig) (target : SCDisplay) : StreamConfiguration :=
  {| sc_width := display_width target; sc_height := display_height target;
     frame_rate := to_s32 (if target_fps cfg =? 0 then 60 else target_fps cfg);
     shows_cursor := capture_cursor cfg |}.

Definition prompt_text : string :=
  "Screen Recording permission needed. Grant REDesk in System " +:+
  "Settings > Privacy & Security > Screen Recording, then click Start again.".

Section sck.
Context (sck : list (SckCall * SckAnswer) → SckCall → SckAnswer).

Definition ask (call : SckCall) : State SckCapturer SckAnswer := λ c,
  let a := sck (sck_calls c) call in
  (a, {| frame_cb_ := frame_cb_ c; cursor_cb_ := cursor_cb_ c; stream_ := stream_ c;
         capturing_ := capturing_ c; width_ := width_ c; height_ := height_ c;
         sck_calls := sck_calls c ++ [(call, a)] |}).

Definition display_info (main : Z) (d : SCDisplay) : DisplayInfo :=
  {| id := pretty (displayID d); name := "Display " +:+ pretty (displayID d);
     display_size := {| width := to_u32 (display_width d); height := to_u32 (display_height d) |};
     scale := 1; isPrimary := bool_decide (main = displayID d) |}.

(** One question for the main display per display. *)
Fixpoint display_infos (ds : list SCDisplay) : State SckCapturer (list DisplayInfo) :=
  match ds with
  | [] => mret []
  | d :: ds =>
      main ← ask MainDisplayID;
      infos ← display_infos ds;
      mret (display_info (main_display main) d :: infos)
  end.

Definition enumerateDisplays : State SckCapturer (Result (list DisplayInfo)) :=
  a ← ask GetContent;
  match content a with
  | TimedOut => mret (fail Internal "no content")
  | Failed =>
      mret (fail PermissionDenied "SCShareableContent failed (Screen Recording permission?)")
  | Done ds => infos ← display_infos ds; mret (good infos)
  end.

(** The id [start] looks for; [None] where [std::stoul] throws. *)
Definition wanted_id (cfg : CaptureConfig) : State SckCapturer (option Z) :=
  if bool_decide (display_id cfg = "") then
    a ← ask MainDisplayID; mret (Some (to_u32 (main_display a)))
  else mret (to_u32 <$> stoul (display_id cfg)).

(** The part of [start] after a display has been found. *)
Definition start_stream (cfg : CaptureConfig) (target : SCDisplay) : State SckCapturer Status :=
  modify (set_target (to_u32 (display_width target)) (to_u32 (display_height target)));;
  modify (set_stream true);;
  added ← ask (AddOutput target (stream_config cfg target));
  if output_error added : bool then mret (error Internal "addStreamOutput failed")
  else
    a ← ask StartCapture;
    match started a with
    | Failed => mret (error Internal "startCapture failed")
    | _ => modify (set_capturing true);; mret success
    end.

(** The part of [start] after the grant has been checked; [None]: an exception
    leaves the function. *)
Definition start_content (cfg : CaptureConfig) : State SckCapturer (option Status) :=
  a ← ask GetContent;
  match content a with
  | Done ds =>
      want ← wanted_id cfg;
      match want with
      | None => mret None
      | Some want =>
          match choose want ds with
          | None => mret (Some (error NotFound "no display to capture"))
          | Some target => st ← start_stream cfg target; mret (Some st)
          end
      end
  | _ => mret (Some (error PermissionDenied
                       "Screen Recording permission denied or unavailable"))
  end.

Definition start (cfg : CaptureConfig) : State SckCapturer (option Status) :=
  c ← get;
  if capturing_ c then mret (Some success)
  else
    access ← ask Preflight;
    if negb (granted access) then
      ask RequestAccess;; mret (Some (error PermissionDenied prompt_text))
    else start_content cfg.

Definition stop : State SckCapturer () :=
  c ← get;
  if negb (capturing_ c) && negb (stream_ c) then mret ()
  else
    modify (set_capturing false);;
    when (stream_ c) (ask StopCapture;; modify (set_stream false)).
End sck.

(** *** Frames *)

(** A locked pixel buffer; [base] is [None] for a null address. *)
Record PixelBuffer := {
  buffer_width : Z;
  buffer_height : Z;
  bytes_per_row : Z;
  base : option (list Z);
}.

(** The loop over the rows: [dst] is written from the front. *)
Fixpoint copy_rows (src : list Z) (src_stride dst_stride y h : nat) : list Z :=
  match h with
  | O => []
  | S h => take dst_stride (drop (y * src_stride) src) ++
           copy_rows src src_stride dst_stride (S y) h
  end.

Definition packed_frame (b : PixelBuffer) : VideoFrame :=
  let w := to_u32 (buffer_width b) in
  let h := to_u32 (buffer_height b) in
  {| frame_size := {| width := w; height := h |};
     format := BGRA8;
     timestamp_us := 0;
     native_handle := None;
     cpu_pixels :=
       match base b with
       | Some src => copy_rows src (Z.to_nat (bytes_per_row b)) (Z.to_nat (w * 4)) 0 (Z.to_nat h)
       | None => replicate (Z.to_nat (w * 4 * h)) 0
       end;
     dirty_rects := [];
     is_idle := false |}.

(** [onSample]: the frame handed to the callback.  [valid] is
    [CMSampleBufferIsValid], [image] [CMSampleBufferGetImageBuffer]. *)
Definition onSample (c : SckCapturer) (valid : bool) (image : option PixelBuffer)
    : option VideoFrame :=
  if negb (frame_cb_ c) || negb valid then None else packed_frame <$> image.

(** *** The delegate of the stream *)

(** [SCStreamOutputType]. *)
Inductive SCStreamOutputType := OutputScreen | OutputAudio | OutputMicrophone.

#[export] Instance SCStreamOutputType_eq_dec : EqDecision SCStreamOutputType.
Proof. solve_decision. Defined.

(** The two pointers of [RedeskStreamOutput], as set or null. *)
Record RedeskStreamOutput := { owner_set : bool; handler_set : bool }.

(** The constructor of the capturer sets both; nothing resets them. *)
Definition output_ : RedeskStreamOutput := {| owner_set := true; handler_set := true |}.

(** [stream:didOutputSampleBuffer:ofType:], for the owner [c]; the handler is
    the trampoline to [onSample]. *)
Definition didOutputSampleBuffer (out : RedeskStreamOutput) (ty : SCStreamOutputType)
    (c : SckCapturer) (valid : bool) (image : option PixelBuffer) : option VideoFrame :=
  if negb (bool_decide (ty = OutputScreen)) then None
  else if handler_set out && owner_set out then onSample c valid image else None.

(** [stream:didStopWithError:] does nothing. *)
Definition didStopWithError (c : SckCapturer) : SckCapturer := c.

(** ** What [start] does *)

Section facts.
Context (sck : list (SckCall * SckAnswer) → SckCall → SckAnswer).

Lemma choose_spec want ds :
  match choose want ds with
  | None => ds = []
  | Some d => d ∈ ds ∧ ((∃ d', d' ∈ ds ∧ displayID d' = want) → displayID d = want)
  end.
Proof.
  unfold choose. destruct (filter _ ds) as [|d rest] eqn:E.
  - destruct ds as [|d ds]; [done|]. simpl. split; [by left|]. intros (d' & Hin & Hid).
    assert (d' ∈ filter (λ d, displayID d = want) (d :: ds)) as Hf
      by (by apply list_elem_of_filter).
    by rewrite E in Hf; apply elem_of_nil in Hf.
  - assert (d ∈ filter (λ d, displayID d = want) ds) as Hf by (rewrite E; by left).
    apply list_elem_of_filter in Hf as [? ?]. by split.
Qed.

(** The last stage: what it calls, and that it captures exactly if it succeeds. *)
Lemma start_stream_spec cfg target c :
  let '(st, c') := start_stream sck cfg target c in
  ∃ new, sck_calls c' = sck_calls c ++ new ∧
  (capturing_ c' = true → capturing_ c = true ∨ ∃ a1 a2,
     new = [(AddOutput target (stream_config cfg target), a1); (StartCapture, a2)] ∧
     output_error a1 = false ∧ started a2 ≠ Failed) ∧
  ((st = success ∧ capturing_ c' = true) ∨
   (Status_ok st = false ∧ capturing_ c' = capturing_ c)).
Proof.
  unfold start_stream, ask. run_state.
  destruct (output_error _) eqn:Ho; simpl; [eexists; split; [done|]; auto|].
  destruct (started _) as [| |[]] eqn:Hs; simpl; eexists; rewrite <-app_assoc;
    (split; [done|]); (split; [|by auto]); intros Hc; auto;
    right; eexists _, _; by rewrite Hs.
Qed.

(** Which display id is looked for, and the calls made to find it. *)
Definition looks_for (cfg : CaptureConfig) (mid : list (SckCall * SckAnswer)) (want : Z) : Prop :=
  (display_id cfg = "" ∧ ∃ a, mid = [(MainDisplayID, a)] ∧ want = to_u32 (main_display a)) ∨
  (display_id cfg ≠ "" ∧ mid = [] ∧ ∃ n, stoul (display_id cfg) = Some n ∧ want = to_u32 n).

Lemma wanted_id_spec cfg c :
  let '(want, c') := wanted_id sck cfg c in
  capturing_ c' = capturing_ c ∧
  ∃ mid, sck_calls c' = sck_calls c ++ mid ∧
    match want with
    | Some want => looks_for cfg mid want
    | None => display_id cfg ≠ "" ∧ stoul (display_id cfg) = None
    end.
Proof.
  unfold wanted_id, ask. case_bool_decide as Hd; run_state.
  - split; [done|]. eexists. split; [done|]. left. split; [done|]. by eexists.
  - split; [done|]. exists []. split; [by rewrite app_nil_r|].
    destruct (stoul (display_id cfg)) as [n|] eqn:E; [|done]. right. split_and!; [done..|].
    by exists n.
Qed.

(** What has been called when a capture has been started. *)
Definition started_with (cfg : CaptureConfig) (new : list (SckCall * SckAnswer)) : Prop :=
  ∃ a2 mid want ds target a3 a4,
    new = (GetContent, a2) :: mid ++
          [(AddOutput target (stream_config cfg target), a3); (StartCapture, a4)] ∧
    content a2 = Done ds ∧ looks_for cfg mid want ∧
    target ∈ ds ∧ ((∃ d, d ∈ ds ∧ displayID d = want) → displayID target = want) ∧
    output_error a3 = false ∧ started a4 ≠ Failed.

(** The outcome of [start] once the grant has been checked. *)
Definition content_outcome (cfg : CaptureConfig) (c : SckCapturer) (r : option Status)
    (c' : SckCapturer) : Prop :=
  ∃ new, sck_calls c' = sck_calls c ++ new ∧
    (∀ st, r = Some st → Status_ok st = capturing_ c') ∧ (capturing_ c' = true → r = Some success) ∧
    (capturing_ c' = true → started_with cfg new) ∧
    (r = None → display_id cfg ≠ "" ∧ stoul (display_id cfg) = None).

Lemma idle_outcome cfg c r c' new :
  sck_calls c' = sck_calls c ++ new → capturing_ c' = false →
  (∀ st, r = Some st → Status_ok st = false) →
  (r = None → display_id cfg ≠ "" ∧ stoul (display_id cfg) = None) →
  content_outcome cfg c r c'.
Proof. intros Hn Hc Hr Hx. exists new. rewrite Hc. by split_and!. Qed.

Lemma start_content_spec cfg c :
  capturing_ c = false →
  let '(r, c') := start_content sck cfg c in content_outcome cfg c r c'.
Proof.
  intros Hc. unfold start_content. rewrite state_bind_run. unfold ask at 1. cbn [fst snd].
  set (a2 := sck (sck_calls c) GetContent).
  destruct (content a2) as [| |ds] eqn:Hcont;
    [by eapply idle_outcome; [..|intros st [= <-]|]|by eapply idle_outcome; [..|intros st [= <-]|]|].
  rewrite state_bind_run.
  match goal with |- context [wanted_id sck cfg ?s] => set (c2 := s) end.
  pose proof (wanted_id_spec cfg c2) as Hw.
  destruct (wanted_id sck cfg c2) as [want c3]. cbn [fst snd].
  destruct Hw as (Hc3 & mid & Hm & Hw). change (capturing_ c2) with (capturing_ c) in Hc3.
  rewrite Hc in Hc3. change (sck_calls c2) with (sck_calls c ++ [(GetContent, a2)]) in Hm.
  rewrite <-app_assoc in Hm.
  destruct want as [want|]; [|by eapply idle_outcome].
  pose proof (choose_spec want ds) as Hch.
  destruct (choose want ds) as [target|];
    [|by eapply idle_outcome; [..|intros st [= <-]|]].
  rewrite state_bind_run. pose proof (start_stream_spec cfg target c3) as Hs.
  destruct (start_stream sck cfg target c3) as [st c4]. cbn.
  destruct Hs as (more & Hmore & Hok & Hst). rewrite Hm, <-app_assoc in Hmore.
  exists ((GetContent, a2) :: mid ++ more). split; [exact Hmore|]. split_and!; [|..|done].
  - intros st' [= <-]. by destruct Hst as [[-> ->]|[-> ->]].
  - rewrite Hc3 in Hst. by destruct Hst as [[-> ->]|[Hn ->]].
  - intros [Hc3'|(a1 & a3 & -> & Ho & Hsa)]%Hok; [by rewrite Hc3 in Hc3'|].
    exists a2, mid, want, ds, target, a1, a3. by destruct Hch.
Qed.

(** The outcome without the calls that led to it. *)
Lemma start_result cfg c :
  let '(r, c') := start sck cfg c in
  (r = None → display_id cfg ≠ "" ∧ stoul (display_id cfg) = None) ∧
  (∀ st, r = Some st → Status_ok st = true → capturing_ c' = true).
Proof.
  unfold start. rewrite state_bind_run. cbn [get fst snd].
  destruct (capturing_ c) eqn:Hc; [by split|]. rewrite state_bind_run.
  destruct (granted _); cbn [negb]; [|rewrite state_bind_run; by split; [|intros st [= <-]]].
  pose proof (start_content_spec cfg (ask sck Preflight c).2 Hc) as Hs.
  destruct (start_content sck cfg (ask sck Preflight c).2) as [r c'].
  destruct Hs as (_ & _ & Hst & _ & _ & Hn). split; [done|]. intros st Hr Hok.
  by rewrite <-(Hst st Hr).
Qed.

(** Starting an idle capturer asks for the grant first.
    Without it the system prompt is requested, nothing else is called and
    [PermissionDenied] returned.  It captures afterwards exactly if it returned
    success, and then it has found a display, the one asked for (by id, or the
    main display) if there is such a one, and attached the output with the
    configuration that was asked for; a completion handler that did not run in
    ten seconds counts as a successful start.  An exception can only come from
    an id that is not a number. *)
Theorem sck_start_outcome cfg c :
  capturing_ c = false →
  let '(r, c') := start sck cfg c in
  ∃ a1 new, sck_calls c' = sck_calls c ++ (Preflight, a1) :: new ∧
    (granted a1 = false →
       r = Some (error PermissionDenied prompt_text) ∧ ∃ a, new = [(RequestAccess, a)]) ∧
    (r = Some success ↔ capturing_ c' = true) ∧
    (capturing_ c' = true → started_with cfg new) ∧
    (r = None → display_id cfg ≠ "" ∧ stoul (display_id cfg) = None).
Proof.
  intros Hc. unfold start. run_state. rewrite Hc.
  set (a1 := sck (sck_calls c) Preflight).
  destruct (granted a1) eqn:Hg; simpl.
  - set (c1 := {| frame_cb_ := _ |}). pose proof (start_content_spec cfg c1 Hc) as Hs.
    destruct (start_content sck cfg c1) as [r c'].
    destruct Hs as (new & Hn & Hst & Hr & ? & ?). exists a1, new.
    simpl in Hn. rewrite Hn, <-app_assoc, Hg. split_and!; try done.
    split; [|done]. intros Hs. by rewrite <-(Hst success Hs).
  - exists a1. eexists. rewrite Hg, Hc, <-app_assoc. split_and!; eauto; done.
Qed.

(** *** The grant *)

Inductive Op :=
| OStart (cfg : CaptureConfig)
| OStop
| OFrameCallback (cb : bool)
| OCursorCallback (cb : bool).

Definition perform (op : Op) (c : SckCapturer) : SckCapturer :=
  match op with
  | OStart cfg => (start sck cfg c).2
  | OStop => (stop sck c).2
  | OFrameCallback cb => setFrameCallback cb c
  | OCursorCallback cb => setCursorCallback cb c
  end.

(** The call before a question for the content found the grant given. *)
Definition gated (pre : list (SckCall * SckAnswer)) (e : SckCall * SckAnswer) : Prop :=
  e.1 = GetContent → ∃ a, last pre = Some (Preflight, a) ∧ granted a = true.

Definition clean (c : SckCapturer) : Prop := always gated (sck_calls c).

Lemma ask_clean call c : call ≠ GetContent → clean c → clean (ask sck call c).2.
Proof. intros Hcall Hc. apply always_snoc; [done|]. by intros ?%Hcall. Qed.

Lemma wanted_id_clean cfg c : clean c → clean (wanted_id sck cfg c).2.
Proof.
  intros Hc. unfold wanted_id. case_bool_decide; [|done].
  rewrite state_bind_run. by apply ask_clean.
Qed.

Lemma start_stream_clean cfg target c : clean c → clean (start_stream sck cfg target c).2.
Proof.
  intros Hc. unfold start_stream, ask. run_state.
  destruct (output_error _); simpl; [by apply always_snoc|].
  destruct (started _) as [| |[]]; simpl; apply always_snoc; [by apply always_snoc|done|
    by apply always_snoc|done|by apply always_snoc|done].
Qed.

Lemma start_clean cfg c : clean c → clean (start sck cfg c).2.
Proof.
  intros Hc. unfold start. rewrite state_bind_run. cbn [get fst snd].
  destruct (capturing_ c); [done|]. rewrite state_bind_run.
  pose proof (ask_clean Preflight c ltac:(done) Hc) as H1.
  destruct (granted (ask sck Preflight c).1) eqn:Hg; cbn [negb].
  2: { rewrite state_bind_run. by apply ask_clean. }
  set (c1 := (ask sck Preflight c).2) in *. unfold start_content. rewrite state_bind_run.
  assert (clean (ask sck GetContent c1).2) as H2.
  { apply always_snoc; [done|]. intros _. eexists. unfold c1, ask. cbn [snd sck_calls].
    rewrite last_snoc. by split. }
  destruct (content _) as [| |ds]; [done..|]. rewrite state_bind_run.
  pose proof (wanted_id_clean cfg _ H2) as H3.
  destruct (wanted_id sck cfg _) as [[want|] c3]; [|done]. cbn [fst snd] in *.
  destruct (choose want ds); [|done]. rewrite state_bind_run.
  by apply start_stream_clean.
Qed.

Lemma stop_clean c : clean c → clean (stop sck c).2.
Proof.
  intros Hc. unfold stop, when. run_state.
  destruct (_ && _); simpl; [done|]. destruct (stream_ c); [|done]. simpl.
  by apply always_snoc.
Qed.

(** C35. Starting and stopping never touches ScreenCaptureKit without
    the screen-recording grant: in any sequence of calls of [start], [stop] and
    the setters, each request for the shareable content comes directly after a
    preflight check that found the grant given. *)
Theorem sck_gate ops :
  always gated (sck_calls (fold_left (λ c op, perform op c) ops CreateNativeCapturer)).
Proof.
  induction ops as [|op ops IH] using rev_ind; [apply always_nil|].
  rewrite fold_left_app. simpl. destruct op; [by apply start_clean|by apply stop_clean|done..].
Qed.

Lemma display_infos_calls ds c :
  ∃ more, sck_calls (display_infos sck ds c).2 = sck_calls c ++ more.
Proof.
  revert c. induction ds as [|d ds IH]; intros c; [exists []; by rewrite app_nil_r|].
  cbn [display_infos]. rewrite state_bind_run.
  destruct (IH (ask sck MainDisplayID c).2) as [more E]. rewrite state_bind_run.
  eexists. cbn [mret state_ret snd]. rewrite E. cbn. by rewrite <-app_assoc.
Qed.

Lemma enumerate_starts :
  ∃ a more, sck_calls (enumerateDisplays sck CreateNativeCapturer).2 = (GetContent, a) :: more.
Proof.
  unfold enumerateDisplays. rewrite state_bind_run. exists (sck [] GetContent).
  destruct (content _) as [| |ds]; [by eexists..|]. rewrite state_bind_run.
  match goal with |- context [display_infos sck ds ?c] =>
    destruct (display_infos_calls ds c) as [more E] end.
  eexists. exact E.
Qed.

(** Listing the displays has no such gate. *)
Lemma enumerate_ungated : ¬ always gated (sck_calls (enumerateDisplays sck CreateNativeCapturer).2).
Proof.
  destruct (enumerate_starts) as (a & more & Hm). rewrite Hm. intros Hc.
  by destruct (Hc [] (GetContent, a) more eq_refl eq_refl) as (? & ? & _).
Qed.
End facts.

(** ** What [stop] leaves *)

Lemma stop_idle sck c : capturing_ (stop sck c).2 = false ∧ stream_ (stop sck c).2 = false.
Proof.
  unfold stop, when. run_state. destruct (capturing_ c) eqn:Hc, (stream_ c) eqn:Hs; simpl; auto.
Qed.

Lemma capturing_kept sck op c :
  op ≠ OStop → capturing_ c = true →
  capturing_ (perform sck op c) = true ∧ sck_calls (perform sck op c) = sck_calls c ∧
  ∀ cfg, op = OStart cfg → (start sck cfg c).1 = Some success.
Proof.
  intros Hop Hc. destruct op as [cfg| |cb|cb]; simpl; [|done|done..].
  unfold start. run_state. by rewrite Hc.
Qed.

(** A stream that ends with an error is not noticed: the capturer goes on saying
    that it captures, and until [stop] is called every [start] succeeds without
    asking the system for anything.  And [stop] does not mute the delegate: a
    sample that still arrives goes to the frame callback as before. *)
Theorem lost_stream_unnoticed sck c ops cfg :
  capturing_ c = true → OStop ∉ ops →
  let c' := fold_left (λ c op, perform sck op c) ops (didStopWithError c) in
  isCapturing c' = true ∧ sck_calls c' = sck_calls c ∧
  start sck cfg c' = (Some success, c') ∧
  ∀ ty valid image, didOutputSampleBuffer output_ ty (stop sck c').2 valid image =
    didOutputSampleBuffer output_ ty c' valid image.
Proof.
  intros Hc Hops c'.
  assert (capturing_ c' = true ∧ sck_calls c' = sck_calls c) as [Hc' Hcalls].
  { unfold c', didStopWithError. clear c'. revert c Hc.
    induction ops as [|op ops IH]; intros c Hc; [done|].
    apply not_elem_of_cons in Hops as [Hop Hops]. simpl.
    destruct (capturing_kept sck op c) as (Hc1 & Hs & _); [done..|].
    destruct (IH Hops _ Hc1) as [Hc2 Hs2]. by rewrite Hs2. }
  split_and!; [done|done| |].
  - unfold start. run_state. by rewrite Hc'.
  - intros ty valid image. unfold didOutputSampleBuffer, onSample, stop, when. run_state.
    rewrite Hc'. by destruct (stream_ c').
Qed.

(** ** Frames *)

(** The rows lie in the buffer. *)
Definition buffer_ok (b : PixelBuffer) (src : list Z) : Prop :=
  ∀ y, 0 ≤ y < buffer_height b →
    y * bytes_per_row b + buffer_width b * 4 ≤ Z.of_nat (length src).

Lemma copy_rows_lookup src stride d h y0 :
  (∀ y, (y < h)%nat → ((y0 + y) * stride + d ≤ length src)%nat) →
  length (copy_rows src stride d y0 h) = (h * d)%nat ∧
  ∀ y i, (y < h)%nat → (i < d)%nat →
    copy_rows src stride d y0 h !! (y * d + i)%nat = src !! ((y0 + y) * stride + i)%nat.
Proof.
  revert y0. induction h as [|h IH]; intros y0 Hb; simpl; [by split; [|lia]|].
  destruct (IH (S y0)) as [Hl Hs].
  { intros y Hy. specialize (Hb (S y) ltac:(lia)). by rewrite Nat.add_succ_r in Hb. }
  pose proof (Hb 0%nat ltac:(lia)) as H0. rewrite Nat.add_0_r in H0.
  assert (length (take d (drop (y0 * stride) src)) = d) as Ht
    by (rewrite length_take, length_drop; lia).
  split; [by rewrite length_app, Ht, Hl|].
  intros [|y] i Hy Hi.
  - rewrite Nat.add_0_r. simpl. rewrite lookup_app_l by lia.
    by rewrite lookup_take_lt, lookup_drop by done.
  - rewrite lookup_app_r by (rewrite Ht; simpl; lia). rewrite Ht.
    replace (S y * d + i - d)%nat with (y * d + i)%nat by (simpl; lia).
    rewrite Hs by lia. f_equal. lia.
Qed.

Lemma packed_frame_exact b src :
  base b = Some src → buffer_ok b src → 0 < buffer_width b < 2 ^ 29 →
  0 < buffer_height b < 2 ^ 31 → 0 ≤ bytes_per_row b →
  let f := packed_frame b in
  frame_size f = {| width := buffer_width b; height := buffer_height b |} ∧
  Z.of_nat (length (cpu_pixels f)) = buffer_height b * (buffer_width b * 4) ∧
  ∀ y i, 0 ≤ y < buffer_height b → 0 ≤ i < buffer_width b * 4 →
    cpu_pixels f !! Z.to_nat (y * (buffer_width b * 4) + i) =
      src !! Z.to_nat (y * bytes_per_row b + i).
Proof.
  intros Hbase Hok Hw Hh Hstride. unfold packed_frame. rewrite Hbase. cbn [frame_size cpu_pixels].
  rewrite !wrap_id by (unfold fits; lia). split; [done|].
  destruct (copy_rows_lookup src (Z.to_nat (bytes_per_row b)) (Z.to_nat (buffer_width b * 4))
    (Z.to_nat (buffer_height b)) 0) as [Hl Hs].
  { intros y Hy. specialize (Hok (Z.of_nat y) ltac:(lia)). lia. }
  split; [rewrite Hl; lia|]. intros y i Hy Hi.
  replace (Z.to_nat (y * (buffer_width b * 4) + i)) with
    (Z.to_nat y * Z.to_nat (buffer_width b * 4) + Z.to_nat i)%nat by lia.
  rewrite Hs by lia. f_equal. lia.
Qed.

(** ** Behind the preview *)

Section preview.
Context (sck : list (SckCall * SckAnswer) → SckCall → SckAnswer).

(** An exception out of [start] would end the program; the preview asks for no
    display by id, so that none is thrown ([preview_start_returns]). *)
#[export] Instance SckCapturer_capturer : Capturer SckCapturer := {
  cap_setFrameCallback := setFrameCallback true;
  cap_start cfg c := let '(st, c) := start sck cfg c in
    (default (error Internal "std::stoul") st, c);
  cap_stop c := (stop sck c).2;
  cap_isCapturing := isCapturing;
}.

Lemma preview_start_returns c : (start sck preview_config c).1 ≠ None.
Proof.
  intros Hn. pose proof (start_result sck preview_config c) as Hs.
  destruct (start sck preview_config c) as [r c']. destruct Hs as [Hs _]. by destruct (Hs Hn).
Qed.

#[export] Instance SckCapturer_contract : CapturerContract SckCapturer.
Proof.
  split; [|intros c; apply stop_idle]. intros cfg c. simpl. unfold isCapturing.
  pose proof (start_result sck cfg c) as Hs.
  destruct (start sck cfg c) as [[st|] c']; simpl; [|done]. apply Hs, eq_refl.
Qed.

Context {Img : Type} (null_image : Img) (wrap_copy : list Z → Z → Z → Z → Img).

(** The preview shows the screen: a sample buffer of the
    stream (its rows lie in the buffer, with any padding) makes the callback of a
    started preview post exactly one image, built from pixels that are, for every
    row and every byte of it, those of the screen's buffer, without the padding
    and within the bounds the image reads. *)
Theorem sck_preview_exact (g : Gui SckCapturer Img) c b src :
  capturer_ (source g) = Some (inl c) → frame_cb_ c = true →
  base b = Some src → buffer_ok b src → 0 < buffer_width b < 2 ^ 29 →
  0 < buffer_height b < 2 ^ 31 → 0 ≤ bytes_per_row b →
  ∃ f pixels,
    onSample c true (Some b) = Some f ∧
    LocalScreen.exec wrap_copy (LocalScreen.EFrame f) g = Some
      {| source := source g; signals := signals g; shown := shown g;
         queued := queued g ++
           [wrap_copy pixels (buffer_width b) (buffer_height b) (buffer_width b * 4)] |} ∧
    Z.of_nat (length pixels) = buffer_height b * (buffer_width b * 4) ∧
    ∀ y i, 0 ≤ y < buffer_height b → 0 ≤ i < buffer_width b * 4 →
      pixels !! Z.to_nat (y * (buffer_width b * 4) + i) =
        src !! Z.to_nat (y * bytes_per_row b + i).
Proof.
  intros Hcap Hcb Hbase Hok Hw Hh Hs.
  destruct (packed_frame_exact b src Hbase Hok Hw Hh Hs) as (Hsize & Hl & Hpix).
  exists (packed_frame b), (cpu_pixels (packed_frame b)). split_and!; [|..|done|done].
  - unfold onSample. by rewrite Hcb.
  - destruct (packed_wraps (packed_frame b)) as [Hwant Hdef]; rewrite ?Hsize; [done..|].
    simpl. rewrite Hcap. unfold frame_callback, image_of. rewrite Hwant, Hdef, Hsize. simpl.
    by rewrite !to_s32_small by lia.
Qed.

(** A preview started without the screen-recording
    grant asks for it and tells the user so: the system prompt is requested, the
    preview stays inactive, lets the capturer go, and shows the instructions. *)
Theorem preview_asks_permission (g : Gui SckCapturer Img) c :
  active_ (source g) = false → capturing_ c = false →
  granted (sck (sck_calls c) Preflight) = false →
  let g' := (LocalScreen.start (Some c) g).2 in
  active_ (source g') = false ∧ capturer_ (source g') = None ∧
  status_text_ (source g') = permission_text ∧ queued g' = queued g ∧
  signals g' = signals g ++
    (if bool_decide (status_text_ (source g) = permission_text) then [] else [statusTextChanged]) ∧
  ∃ a, sck_calls (cap_start preview_config (cap_setFrameCallback c)).2 =
    sck_calls c ++ [(Preflight, sck (sck_calls c) Preflight); (RequestAccess, a)].
Proof.
  intros Ha Hc Hg.
  assert (cap_start preview_config (cap_setFrameCallback c) =
    (error PermissionDenied prompt_text,
     (ask sck RequestAccess (ask sck Preflight (setFrameCallback true c)).2).2)) as E.
  { simpl. unfold start. rewrite state_bind_run. cbn [get fst snd].
    change (capturing_ (setFrameCallback true c)) with (capturing_ c).
    rewrite Hc, state_bind_run. unfold ask at 1. cbn [fst].
    change (sck_calls (setFrameCallback true c)) with (sck_calls c).
    rewrite Hg. cbn [negb]. rewrite state_bind_run. cbn. by rewrite Hc. }
  unfold LocalScreen.start, setStatus, upd, emit. run_state. rewrite Ha. simpl.
  simpl in E. rewrite E. simpl. case_bool_decide; simpl; rewrite ?app_nil_r;
    (split_and!; [done..|]); eexists; by rewrite <-app_assoc.
Qed.
End preview.

(** ** Samples *)

Module Sample.

(** A Mac with one display of 2 by 1 points and the grant given or not. *)
Definition mac (ok : bool) (cs : list (SckCall * SckAnswer)) (c : SckCall) : SckAnswer :=
  {| granted := ok; content := Done [{| displayID := 7; display_width := 2; display_height := 1 |}];
     main_display := 7; output_error := false; started := Done () |}.

(** Two rows of one pixel, padded to eight bytes. *)
Definition rows : list Z := [1; 2; 3; 4; 0; 0; 0; 0; 5; 6; 7; 8; 0; 0; 0; 0].
Definition buffer : PixelBuffer :=
  {| buffer_width := 1; buffer_height := 2; bytes_per_row := 8; base := Some rows |}.

Definition capturer : SckCapturer :=
  (start (mac true) preview_config (setFrameCallback true CreateNativeCapturer)).2.

Definition gui : Gui SckCapturer (list Z) :=
  {| source := {| capturer_ := Some (inl capturer); last_frame_ := []; status_text_ := "";
                  active_ := true; using_real_backend_ := true |};
     queued := []; signals := []; shown := λ _, VBool true |}.

End Sample.

(** A start that is refused for lack of the grant leaves [usingRealBackend] true
    without announcing it: the binding goes on showing false. *)
Lemma backend_binding_stale :
  let g' := (LocalScreen.start (H := SckCapturer_capturer (Sample.mac false))
    (Some CreateNativeCapturer) (Gui_init ([] : list Z))).2 in
  read (source g') usingRealBackend = VBool true ∧ shown g' usingRealBackend = VBool false ∧
  signals g' = [statusTextChanged].
Proof. vm_compute. done. Qed.

Lemma lost_stream_unnoticed_witness :
  let c := set_capturing true (set_stream true CreateNativeCapturer) in
  start (Sample.mac true) preview_config c = (Some success, c).
Proof.
  intros c. apply (lost_stream_unnoticed (Sample.mac true) c [] preview_config).
  - reflexivity.
  - apply not_elem_of_nil.
Defined.

Lemma sck_start_outcome_witness :
  ∃ a1 new, sck_calls Sample.capturer = (Preflight, a1) :: new ∧ capturing_ Sample.capturer = true ∧
    started_with preview_config new.
Proof.
  destruct (sck_start_outcome (Sample.mac true) preview_config
    (setFrameCallback true CreateNativeCapturer) eq_refl) as (a1 & new & Hn & _ & _ & Hs & _).
  exists a1, new. split; [exact Hn|]. split; [reflexivity|]. apply Hs. reflexivity.
Defined.

Lemma sck_preview_exact_witness :
  ∃ f pixels,
    onSample Sample.capturer true (Some Sample.buffer) = Some f ∧
    LocalScreen.exec (H := SckCapturer_capturer (Sample.mac true))
      (λ p _ _ _, p) (LocalScreen.EFrame f) Sample.gui = Some
      {| source := source Sample.gui; signals := []; shown := shown Sample.gui;
         queued := [pixels] |} ∧
    pixels = [1; 2; 3; 4; 5; 6; 7; 8].
Proof.
  assert (buffer_ok Sample.buffer Sample.rows) as Hok.
  { intros y Hy. cbn in *. lia. }
  destruct (sck_preview_exact (Sample.mac true) (λ p _ _ _, p) Sample.gui Sample.capturer
    Sample.buffer Sample.rows eq_refl eq_refl eq_refl Hok ltac:(cbn; lia) ltac:(cbn; lia)
    ltac:(cbn; lia)) as (f & pixels & Hf & He & _ & _).
  exists f, pixels. split; [exact Hf|]. split; [exact He|].
  injection Hf as <-. cbv in He. by injection He.
Defined.

Lemma preview_asks_permission_witness :
  let g' := (LocalScreen.start (H := SckCapturer_capturer (Sample.mac false))
    (Some CreateNativeCapturer) (Gui_init ([] : list Z))).2 in
  status_text_ (source g') = permission_text ∧ active_ (source g') = false.
Proof.
  destruct (preview_asks_permission (Sample.mac false) (Gui_init ([] : list Z))
    CreateNativeCapturer eq_refl eq_refl eq_refl) as (Ha & _ & Hs & _).
  split; [exact Hs|exact Ha].
Defined.
