(* ===== verification/Pipeline.v ===== *)
(** * The media pipeline, end to end

    The stubs of the core run one after the other: a frame of the synthetic
    capturer ([Capture]), the stub encoder and decoder ([Codec]), the loopback
    transport ([Transport]), the Noise session ([Crypto]) and the fragment
    arithmetic of the wire contract ([Wire]). *)

From S2P Require Import Prelude Types Wire Capture Codec Transport Crypto.

(** ** The size of a frame *)

Lemma length_concat_map {A} (f : nat → list A) n k xs :
  (∀ x, length (f x) = n) → length xs = k → length (concat (map f xs)) = (k * n)%nat.
Proof.
  intros Hf <-. induction xs as [|x xs IH]; [done|]. simpl. by rewrite length_app, Hf, IH.
Qed.

Lemma length_gradient shift : Z.of_nat (length (gradient shift)) = 3686400.
Proof.
  unfold gradient.
  rewrite (length_concat_map _ (Z.to_nat kStubWidth * 4) (Z.to_nat kStubHeight)).
  - rewrite !Nat2Z.inj_mul, !Z2Nat.id by done. done.
  - intros y. unfold gradient_row. by apply length_concat_map; [|rewrite length_seq].
  - by rewrite length_seq.
Qed.

Lemma stub_frame_wf i : VideoFrame_wf (stub_frame i).
Proof. split; try done. by apply wrap_fits. Qed.

Lemma length_packet f key :
  Z.of_nat (length (data (encode_packet f key))) = 32 + Z.of_nat (length (cpu_pixels f)).
Proof.
  cbn [data encode_packet]. rewrite length_app, length_StubHeader_bytes.
  unfold sizeof_StubHeader. lia.
Qed.

(** ** What the transport and the cipher do with it *)

Lemma send_oversized s ch payload p :
  Transport.state_ (endpoint s p) = Transport.Connected →
  kMaxTransportMessage < Z.of_nat (length payload) →
  Transport.send s ch payload p =
    (error InvalidArgument "payload exceeds 65535-byte transport cap", p).
Proof.
  intros Hs Hl. unfold Transport.send. run_state. rewrite Hs. simpl.
  by rewrite (proj2 (Z.ltb_lt _ _)).
Qed.

Lemma encrypt_oversized plain ad out s :
  Noise.handshake_done_ s = true → Noise.kMaxMessage < Z.of_nat (length plain) →
  Noise.encrypt plain ad out s =
    (error InvalidArgument "plaintext exceeds 65535-byte Noise cap", out, s).
Proof. intros Hd Hl. unfold Noise.encrypt. rewrite Hd. simpl. by rewrite (proj2 (Z.ltb_lt _ _)). Qed.

(** A frame of the synthetic capturer survives the
    stub codec and nothing else: whichever frame it is, the encoder accepts it
    and the decoder returns its size, format, timestamp and pixels; but its
    packet has 3,686,432 bytes, which a connected transport refuses on every
    channel and a completed Noise session refuses to encrypt, both without
    effect.  The wire contract would cut it into 57 fragments; nothing does. *)
Theorem pipeline_needs_fragments i e d :
  packet_cb_ e = true → Codec.frame_cb_ d = true →
  ∃ packet e' frame,
    encode (stub_frame i) e = (success, Some packet, e') ∧
    decode packet d = (success, Some frame) ∧
    frame_size frame = frame_size (stub_frame i) ∧ format frame = format (stub_frame i) ∧
    timestamp_us frame = timestamp_us (stub_frame i) ∧
    cpu_pixels frame = cpu_pixels (stub_frame i) ∧
    Z.of_nat (length (data packet)) = 3686432 ∧
    (∀ s ch p, Transport.state_ (endpoint s p) = Transport.Connected →
       Transport.send s ch (data packet) p =
         (error InvalidArgument "payload exceeds 65535-byte transport cap", p)) ∧
    (∀ session ad out, Noise.handshake_done_ session = true →
       Noise.encrypt (data packet) ad out session =
         (error InvalidArgument "plaintext exceeds 65535-byte Noise cap", out, session)) ∧
    fragmentCount (Z.of_nat (length (data packet))) (usablePayloadBudget kNoiseMessageMax) = 57.
Proof.
  intros He Hd. set (f := stub_frame i). set (key := force_keyframe_ e || first_frame_ e).
  assert (Z.of_nat (length (cpu_pixels f)) = 3686400) as Hl by apply length_gradient.
  assert (VideoFrame_wf f) as Hwf by apply stub_frame_wf. clearbody f.
  assert (Z.of_nat (length (data (encode_packet f key))) = 3686432) as Hp
    by (rewrite length_packet, Hl; done).
  exists (encode_packet f key), (set_flags false false e),
    (carried f (to_u32 (Z.of_nat (length (cpu_pixels f))))).
  split_and!; try done.
  - unfold encode. rewrite He. cbn [negb]. rewrite bool_decide_eq_false_2; [done|].
    intros E. by rewrite E in Hl.
  - by apply decode_encode_packet.
  - apply carried_pixels. by rewrite Hl.
  - intros s ch p Hs. by apply send_oversized; [|rewrite Hp].
  - intros session ad out Hs. by apply encrypt_oversized; [|rewrite Hp].
  - by rewrite Hp.
Qed.

Lemma pipeline_needs_fragments_witness :
  ∃ packet, (encode (stub_frame 7) (setPacketCallback true (createVideoEncoder H264))).1.2 =
      Some packet ∧
    Z.of_nat (length (data packet)) = 3686432.
Proof.
  destruct (pipeline_needs_fragments 7 (setPacketCallback true (createVideoEncoder H264))
    sample_decoder eq_refl eq_refl) as (packet & e' & frame & He & _ & _ & _ & _ & _ & Hl & _).
  exists packet. split; [by rewrite He|exact Hl].
Defined.
