(* ===== verification/Factories.v ===== *)
(** * The factories of the core, by build ([core/crypto/crypto_stub.cpp],
    [core/codec/codec_stub.cpp])

    [real] is [REDESK_USE_REAL_BACKENDS].  In a build with real backends the
    Noise factory refuses and returns no session; the key store and the codecs
    are the stubs all the same.  What that means for a device: the identity its
    key store generates is one of 256 that anyone can compute, and the first one
    is the same on every device. *)

From S2P Require Import Prelude Types Crypto.
From S2P Require Codec.
Import KeyStore.

Definition createNoiseSession (real : bool) (pattern : NoisePattern) (role : HandshakeRole)
    (local_static : Identity) (remote_static : PublicKey) : option Noise.StubNoiseSession :=
  if real then None
  else Some (Noise.createNoiseSession pattern role local_static remote_static).

Definition createKeyStore (real : bool) : StubKeyStore :=
  if real then KeyStore.createKeyStore else KeyStore.createKeyStore.

Definition createVideoEncoder (real : bool) (c : Codec.Codec) : Codec.StubEncoder :=
  if real then Codec.createVideoEncoder c else Codec.createVideoEncoder c.

Definition createVideoDecoder (real : bool) (c : Codec.Codec) : Codec.StubDecoder :=
  if real then Codec.createVideoDecoder c else Codec.createVideoDecoder c.

(** ** Calls of a key store *)

Inductive Op := Load | Generate | LoadOrGenerate | Store (i : Identity).

Definition exec (o : Op) (s : StubKeyStore) : StubKeyStore :=
  match o with
  | Load => (load s).2
  | Generate => (generate s).2
  | LoadOrGenerate => (loadOrGenerate s).2
  | Store i => (store i s).2
  end.

Definition run (os : list Op) (s : StubKeyStore) : StubKeyStore :=
  fold_left (λ s o, exec o s) os s.

(** The identity kept after [n] were generated, the last call that set it
    being a generation or the [Store] of [i]. *)
Fixpoint kept (n : nat) (i : option Identity) (os : list Op) : option Identity :=
  match os with
  | [] => i
  | Load :: os => kept n i os
  | Generate :: os => kept (S n) (Some (makeStubIdentity (to_u8 (1 + Z.of_nat n)))) os
  | LoadOrGenerate :: os =>
      match i with
      | Some _ => kept n i os
      | None => kept (S n) (Some (makeStubIdentity (to_u8 (1 + Z.of_nat n)))) os
      end
  | Store j :: os => kept n (Some j) os
  end.

(** A store after [n] generations that keeps [i]. *)
Definition keeps (n : nat) (i : option Identity) (s : StubKeyStore) : Prop :=
  seed_ s = to_u8 (1 + Z.of_nat n) ∧
  match i with Some i => have_ s = true ∧ identity_ s = i | None => have_ s = false end.

Lemma next_seed n : to_u8 (to_u8 (1 + Z.of_nat n) + 1) = to_u8 (1 + Z.of_nat (S n)).
Proof.
  unfold wrap. rewrite Zplus_mod_idemp_l. f_equal. lia.
Qed.

Lemma generate_keeps n i s :
  keeps n i s →
  keeps (S n) (Some (makeStubIdentity (to_u8 (1 + Z.of_nat n)))) (generate s).2.
Proof.
  intros [Hs _]. unfold keeps, generate. simpl. rewrite Hs. by rewrite next_seed.
Qed.

Lemma run_keeps os n i s :
  keeps n i s → ∃ n', keeps n' (kept n i os) (run os s).
Proof.
  revert n i s. induction os as [|o os IH]; intros n i s Hk; [by exists n|].
  pose proof (generate_keeps n i s Hk) as Hg.
  destruct o as [| | |j]; simpl; [|by eapply IH| |].
  - unfold load. run_state. by apply IH.
  - unfold loadOrGenerate. run_state. destruct Hk as [Hs Hi].
    destruct i as [i|]; [destruct Hi as [Hh Hid]|]; rewrite ?Hh, ?Hi; eapply IH; [by split|done].
  - apply IH. by destruct Hk.
Qed.

(** An identity made by the stub's generator. *)
Definition stub_made (i : Identity) : Prop := ∃ k, fits 8 k ∧ i = makeStubIdentity k.

Definition from_outside (o : Op) : bool := if o is Store _ then true else false.

Lemma kept_stub_made os n i :
  Forall (λ o, from_outside o = false) os →
  (∀ j, i = Some j → stub_made j) → ∀ j, kept n i os = Some j → stub_made j.
Proof.
  intros Hos. revert n i. induction Hos as [|o os Ho Hos IH]; intros n i Hi; [done|].
  assert (∀ j, Some (makeStubIdentity (to_u8 (1 + Z.of_nat n))) = Some j → stub_made j) as Hnew.
  { intros j [= <-]. eexists. split; [by apply wrap_fits|done]. }
  destruct o; simpl; [exact (IH _ _ Hi)|exact (IH _ _ Hnew)| |done].
  destruct i; [exact (IH _ _ Hi)|exact (IH _ _ Hnew)].
Qed.

(** The refusal of the Noise factory is the only difference the build makes. *)
Lemma real_build_differs real pat role l r c :
  (createNoiseSession real pat role l r = None ↔ real = true) ∧
  createKeyStore real = createKeyStore (negb real) ∧
  createVideoEncoder real c = createVideoEncoder (negb real) c ∧
  createVideoDecoder real c = createVideoDecoder (negb real) c.
Proof. by destruct real. Qed.

(** In either build: [load] after any calls gives the identity the calls say, the
    last one stored or generated; unless one is stored from outside it is one of
    256 that are computed from a number; and on every new device [loadOrGenerate]
    gives the same one, secret key and fingerprint included. *)
Theorem identities_known real os :
  let s := run os (createKeyStore real) in
  (load s).1 = match kept 0 None os with
               | Some i => good i
               | None => fail NotFound "no stored identity"
               end ∧
  (Forall (λ o, from_outside o = false) os → ∀ i, (load s).1 = good i → stub_made i) ∧
  (loadOrGenerate (createKeyStore real)).1 = good (makeStubIdentity 1) ∧
  fingerprint (makeStubIdentity 1) = "62979 44928 32659 02432 31489".
Proof.
  intros s. assert (keeps 0 None (createKeyStore real)) as Hk by by destruct real.
  destruct (run_keeps os 0 None _ Hk) as (n & _ & Hn). fold s in Hn.
  assert ((load s).1 = match kept 0 None os with
    | Some i => good i | None => fail NotFound "no stored identity" end) as Hload.
  { unfold load. run_state. destruct (kept 0 None os); [destruct Hn as [-> ->]|rewrite Hn]; done. }
  split_and!; [done| | |by vm_compute].
  - intros Hos i. rewrite Hload. destruct (kept 0 None os) as [j|] eqn:Hj; [|done].
    intros [= <-]. by apply (kept_stub_made os 0 None Hos).
  - destruct real; vm_compute; reflexivity.
Qed.
