(* ===== verification/Negotiation.v ===== *)
(** * The two codec negotiations ([core/codec/codec_stub.cpp],
    [proto/codec.proto.h])

    The core negotiates over capability flags and a direction, the wire contract
    over lists of tiers that each side advertises.  Here the two are compared:
    what an endpoint's flags say is advertised as a list of tiers, and the tier
    the lists lead to is set beside the codec and chroma format the core
    chooses. *)

From S2P Require Import Prelude Types.
From S2P Require Codec Wire.

(** The tier of a core codec choice. *)
Definition tier_of (n : Codec.NegotiatedCodec) : Wire.CodecTier :=
  if Codec.ok n then
    match Codec.codec n, Codec.chroma n with
    | Codec.H264, _ => Wire.kH264High420
    | Codec.HEVC, Codec.Yuv420 => Wire.kHevc420
    | Codec.HEVC, Codec.Yuv444 => Wire.kHevc444
    | Codec.AV1, _ => Wire.kAv1
    end
  else Wire.kNone.

(** What the flags say of a tier, for an end that encodes and for one that
    decodes. *)
Definition encodes (c : Codec.CodecCapabilities) (t : Wire.CodecTier) : bool :=
  match t with
  | Wire.kNone => false
  | Wire.kH264High420 => Codec.h264_encode c
  | Wire.kHevc420 => Codec.hevc_encode c
  | Wire.kHevc444 => Codec.hevc_444_encode c
  | Wire.kAv1 => Codec.av1_encode c
  end.

Definition decodes (c : Codec.CodecCapabilities) (t : Wire.CodecTier) : bool :=
  match t with
  | Wire.kNone => false
  | Wire.kH264High420 => Codec.h264_decode c
  | Wire.kHevc420 => Codec.hevc_decode c
  | Wire.kHevc444 => Codec.hevc_444_decode c
  | Wire.kAv1 => Codec.av1_decode c
  end.

(** A list of tiers that advertises, in any order and with any repetition,
    what [f] says (the sentinel [kNone] may be among them). *)
Definition advertises (f : Wire.CodecTier → bool) (l : list Wire.CodecTier) : Prop :=
  ∀ t, t ≠ Wire.kNone → t ∈ l ↔ f t = true.

(** The tier both ends share. *)
Definition shared (enc dec : Codec.CodecCapabilities) (t : Wire.CodecTier) : bool :=
  encodes enc t && decodes dec t.

(** The best shared tier, found by going down the ranks. *)
Definition best_shared (enc dec : Codec.CodecCapabilities) : Wire.CodecTier :=
  if shared enc dec Wire.kAv1 then Wire.kAv1
  else if shared enc dec Wire.kHevc444 then Wire.kHevc444
  else if shared enc dec Wire.kHevc420 then Wire.kHevc420
  else if shared enc dec Wire.kH264High420 then Wire.kH264High420
  else Wire.kNone.

Lemma best_shared_greatest enc dec :
  Wire.greatest (λ t, shared enc dec t = true) (best_shared enc dec).
Proof.
  unfold best_shared.
  repeat case_match; (split; [by auto|]); intros [] ? ?; simpl; (congruence || lia).
Qed.

Lemma greatest_proper P Q best :
  (∀ t, t ≠ Wire.kNone → P t ↔ Q t) → Wire.greatest P best → Wire.greatest Q best.
Proof.
  intros HPQ [[->|Hb] Hm]; (split; [|naive_solver]); [by left|].
  destruct best; [by left|right; by apply HPQ..].
Qed.

Lemma negotiated_best enc dec local remote :
  advertises (encodes enc) local → advertises (decodes dec) remote →
  Wire.negotiateCodec local remote = best_shared enc dec.
Proof.
  intros Hl Hr. eapply Wire.greatest_unique; [apply Wire.negotiateCodec_greatest|].
  eapply greatest_proper; [|apply best_shared_greatest].
  intros t Hn. unfold shared. by rewrite andb_true_iff, (Hl t Hn), (Hr t Hn).
Qed.

Lemma negotiation_comm local remote :
  Wire.negotiateCodec local remote = Wire.negotiateCodec remote local.
Proof.
  eapply Wire.greatest_unique; [apply Wire.negotiateCodec_greatest|].
  eapply Wire.greatest_ext; [|apply Wire.negotiateCodec_greatest]. naive_solver.
Qed.

(** C39. When each end advertises exactly the tiers its flags
    give it for the direction, in any order, the two ends find the same tier on
    the wire, and the core's choice is that tier unless the ends share HEVC
    4:4:4 but neither AV1 nor HEVC 4:2:0: there the wire settles on 4:4:4, and
    the core, which takes 4:4:4 only on top of 4:2:0, on H.264 or on nothing. *)
Theorem negotiations_agree local remote (sender : bool) here there :
  let enc := if sender then local else remote in
  let dec := if sender then remote else local in
  let core := tier_of (Codec.negotiateCodec local remote sender) in
  let wire := Wire.negotiateCodec here there in
  advertises (if sender then encodes local else decodes local) here →
  advertises (if sender then decodes remote else encodes remote) there →
  Wire.negotiateCodec there here = wire ∧
  if shared enc dec Wire.kHevc444 && negb (shared enc dec Wire.kAv1 || shared enc dec Wire.kHevc420)
  then wire = Wire.kHevc444 ∧
       core = (if shared enc dec Wire.kH264High420 then Wire.kH264High420 else Wire.kNone)
  else wire = core.
Proof.
  intros enc dec core wire Hh Ht.
  split; [apply negotiation_comm|].
  assert (wire = best_shared enc dec) as ->.
  { subst wire enc dec. destruct sender; [by apply negotiated_best|].
    rewrite negotiation_comm. by apply negotiated_best. }
  assert (core = tier_of (Codec.negotiateCodec enc dec true)) as ->
    by by subst core enc dec; destruct sender.
  clearbody enc dec. clear.
  unfold best_shared, Codec.negotiateCodec, shared, encodes, decodes.
  destruct (Codec.av1_encode enc && _), (Codec.hevc_encode enc && _),
    (Codec.hevc_444_encode enc && _), (Codec.h264_encode enc && _); by repeat split.
Qed.

(** A receiver that claims 4:4:4 without 4:2:0: the two ends of one connection
    can settle on different codecs. *)
Lemma negotiations_agree_witness :
  let here := [Wire.kH264High420; Wire.kAv1; Wire.kHevc444; Wire.kHevc420; Wire.kAv1] in
  let there := [Wire.kHevc444; Wire.kH264High420] in
  let odd := {| Codec.h264_encode := false; Codec.h264_decode := true;
    Codec.hevc_encode := false; Codec.hevc_decode := false;
    Codec.hevc_444_encode := false; Codec.hevc_444_decode := true;
    Codec.av1_encode := false; Codec.av1_decode := false |} in
  Wire.negotiateCodec here there = Wire.kHevc444 ∧
  tier_of (Codec.negotiateCodec Codec.localCodecCapabilities odd true) = Wire.kH264High420.
Proof.
  intros here there odd.
  assert (advertises (encodes Codec.localCodecCapabilities) here) as Hh
    by by intros [] ?; subst here; rewrite ?elem_of_cons, ?elem_of_nil; naive_solver.
  assert (advertises (decodes odd) there) as Ht
    by by intros [] ?; subst there; rewrite ?elem_of_cons, ?elem_of_nil; naive_solver.
  exact (proj2 (negotiations_agree Codec.localCodecCapabilities odd true here there Hh Ht)).
Defined.
