(* ===== verification/TestBackends.v ===== *)
(** * The reference backends of the test suite ([tests/stub_backends.h])

    The tests carry backends of their own, which stand for what core is expected
    to provide: a codec container, a Noise session whose two ends share a key, a
    loopback transport with a drop budget, and a permission gate.  Undefined
    behaviour (the remainder by the length of an empty key) is [None]. *)

From stdpp Require Import functions.
From S2P Require Import Prelude Types Wire.

(** ** (1) The codec *)

Module RefCodec.

Definition kStubCodecMagic : Z := 1380275011.

(** [put32] appends the four bytes, least significant first. *)
Definition encode (frame : VideoFrame) : Result EncodedPacket :=
  good {|
    data :=
      le_bytes 4 kStubCodecMagic ++ le_bytes 4 (width (frame_size frame)) ++
      le_bytes 4 (height (frame_size frame)) ++
      le_bytes 4 (PixelFormat_to_u32 (format frame)) ++
      le_bytes 4 (to_u32 (Z.of_nat (length (cpu_pixels frame)))) ++ cpu_pixels frame;
    pkt_timestamp_us := timestamp_us frame;
    keyframe := true |}.

(** [get32] at offset [off]. *)
Definition get32 (d : list Z) (off : nat) : Z := le_value (take 4 (drop off d)).

Definition decode (packet : EncodedPacket) : Result VideoFrame :=
  let d := data packet in
  if (length d <? 20)%nat then fail InvalidArgument "stub packet too small"
  else if negb (get32 d 0 =? kStubCodecMagic) then
    fail InvalidArgument "stub codec magic mismatch"
  else
    let n := get32 d 16 in
    if negb (20 + n =? Z.of_nat (length d)) then
      fail InvalidArgument "stub payload length mismatch"
    else good {|
      frame_size := {| width := get32 d 4; height := get32 d 8 |};
      format := PixelFormat_of_u32 (get32 d 12);
      timestamp_us := pkt_timestamp_us packet;
      native_handle := None;
      cpu_pixels := drop 20 d;
      dirty_rects := [];
      is_idle := false |}.

(** What the container carries of a frame. *)
Definition carried (f : VideoFrame) : VideoFrame := {|
  frame_size := frame_size f; format := format f; timestamp_us := timestamp_us f;
  native_handle := None; cpu_pixels := cpu_pixels f; dirty_rects := []; is_idle := false |}.

(** The frames whose fields have their C++ types and whose size fits its field. *)
Record frame_ok (f : VideoFrame) : Prop := {
  width_ok : fits 32 (width (frame_size f));
  height_ok : fits 32 (height (frame_size f));
  format_ok : PixelFormat_wf (format f);
  pixels_ok : fits 32 (Z.of_nat (length (cpu_pixels f)));
}.

Lemma get32_at pre z rest off :
  length pre = off → fits 32 z → get32 (pre ++ le_bytes 4 z ++ rest) off = z.
Proof.
  intros Ho Hz. unfold get32. rewrite drop_app_exact by done.
  rewrite take_app_exact by apply length_le_bytes. rewrite le_value_le_bytes. by apply wrap_id.
Qed.

(** The reference codec loses nothing of the pixels: decoding an encoded frame
    gives its size, format, time stamp and pixels back. *)
Theorem ref_codec_roundtrip f :
  frame_ok f → decode (value (encode f)) = good (carried f).
Proof.
  intros [Hw Hh Hf Hp]. unfold decode, encode. cbn [value good data pkt_timestamp_us].
  set (w := le_bytes 4 (width (frame_size f))). set (h := le_bytes 4 (height (frame_size f))).
  set (fm := le_bytes 4 (PixelFormat_to_u32 (format f))).
  rewrite (wrap_id 32) by done. set (n := le_bytes 4 (Z.of_nat (length (cpu_pixels f)))).
  set (m := le_bytes 4 kStubCodecMagic). set (px := cpu_pixels f).
  assert (length (m ++ w ++ h ++ fm ++ n ++ px) = (20 + length px)%nat) as Hlen
    by (rewrite !length_app; unfold m, w, h, fm, n; rewrite !length_le_bytes; lia).
  rewrite Hlen, (proj2 (Nat.ltb_ge _ _)) by lia.
  assert (get32 (m ++ w ++ h ++ fm ++ n ++ px) 0 = kStubCodecMagic) as ->
    by (apply (get32_at []); done).
  assert (get32 (m ++ w ++ h ++ fm ++ n ++ px) 4 = width (frame_size f)) as ->
    by (apply (get32_at m); [apply length_le_bytes|done]).
  assert (get32 (m ++ w ++ h ++ fm ++ n ++ px) 8 = height (frame_size f)) as ->
    by (rewrite app_assoc; apply (get32_at (m ++ w)); [by rewrite length_app|done]).
  assert (get32 (m ++ w ++ h ++ fm ++ n ++ px) 12 = PixelFormat_to_u32 (format f)) as ->.
  { rewrite app_assoc, app_assoc. apply (get32_at ((m ++ w) ++ h)).
    - rewrite !length_app. unfold m, w, h. by rewrite !length_le_bytes.
    - apply PixelFormat_to_u32_fits. }
  assert (get32 (m ++ w ++ h ++ fm ++ n ++ px) 16 = Z.of_nat (length px)) as ->.
  { rewrite app_assoc, app_assoc, app_assoc. apply (get32_at (((m ++ w) ++ h) ++ fm)); [|done].
    rewrite !length_app. unfold m, w, h, fm. by rewrite !length_le_bytes. }
  rewrite (proj2 (Z.eqb_eq _ _)) by lia. simpl negb. cbv iota.
  rewrite (proj2 (Z.eqb_eq _ _)) by lia. simpl negb. cbv iota.
  unfold carried. rewrite PixelFormat_of_to_u32 by done. f_equal.
  rewrite !app_assoc, drop_app_exact; [by destruct (frame_size f)|].
  rewrite !length_app. unfold m, w, h, fm, n. by rewrite !length_le_bytes.
Qed.

End RefCodec.

(** ** (2) The Noise session *)

Module RefNoise.

Inductive HandshakeRole := kInitiator | kResponder.

#[export] Instance HandshakeRole_eq_dec : EqDecision HandshakeRole.
Proof. solve_decision. Defined.

Definition HandshakeRole_to_u8 (r : HandshakeRole) : Z :=
  match r with kInitiator => 0 | kResponder => 1 end.

Record StubNoiseSession := {
  role_ : HandshakeRole;
  transcript_ : list Z;
  key_ : list Z;
  hash_ : list Z;
  established_ : bool;
  rounds_seen_ : Z;
  sent_ : Z;
  send_nonce_ : Z;
}.

Definition makeStub (role : HandshakeRole) : StubNoiseSession := {|
  role_ := role; transcript_ := []; key_ := []; hash_ := []; established_ := false;
  rounds_seen_ := 0; sent_ := 0; send_nonce_ := 0 |}.
Definition makeStubInitiator := makeStub kInitiator.
Definition makeStubResponder := makeStub kResponder.

(** The digest of [deriveKey] over the transcript. *)
Definition digest (transcript : list Z) : Z :=
  fold_left (λ h b, to_u64 (Z.lxor h b * 1099511628211)) transcript 1469598103934665603.

(** The loop that fills the hash: [n] bytes, from the running [h]. *)
Fixpoint hash_loop (n : nat) (h : Z) : list Z :=
  match n with
  | O => []
  | S n =>
      let h := to_u64 (Z.lxor h (Z.shiftr h 7) * 1099511628211) in
      to_u8 (Z.land h 255) :: hash_loop n h
  end.

Definition deriveKey (s : StubNoiseSession) : StubNoiseSession :=
  if bool_decide (key_ s ≠ []) then s
  else
    let h := digest (transcript_ s) in
    {| role_ := role_ s; transcript_ := transcript_ s;
       key_ := (λ i, to_u8 (Z.land (Z.shiftr h (Z.of_nat (i `mod` 8) * 8)) 255)) <$> List.seq 0 16;
       hash_ := hash_loop 32 h;
       established_ := established_ s; rounds_seen_ := rounds_seen_ s; sent_ := sent_ s;
       send_nonce_ := send_nonce_ s |}.

(** The fields [writeHandshake] assigns. *)
Definition progress (transcript : list Z) (established : bool) (rounds sent : Z)
    (s : StubNoiseSession) : StubNoiseSession :=
  {| role_ := role_ s; transcript_ := transcript; key_ := key_ s; hash_ := hash_ s;
     established_ := established; rounds_seen_ := rounds; sent_ := sent;
     send_nonce_ := send_nonce_ s |}.

Definition writeHandshake (incoming : list Z) (s : StubNoiseSession)
    : Result (list Z) * StubNoiseSession :=
  let s :=
    if bool_decide (incoming ≠ []) then
      progress (transcript_ s ++ incoming) (established_ s) (rounds_seen_ s + 1) (sent_ s) s
    else s in
  let '(out, s) :=
    match role_ s with
    | kInitiator =>
        if sent_ s =? 0 then
          let out := [88; 75; 105; HandshakeRole_to_u8 (role_ s)] in
          (out, progress (transcript_ s ++ out) (established_ s) (rounds_seen_ s) (sent_ s + 1) s)
        else if 1 <=? rounds_seen_ s then
          ([], progress (transcript_ s) true (rounds_seen_ s) (sent_ s) s)
        else ([], s)
    | kResponder =>
        if (1 <=? rounds_seen_ s) && (sent_ s =? 0) then
          let out := [88; 75; 114; HandshakeRole_to_u8 (role_ s)] in
          (out, progress (transcript_ s ++ out) true (rounds_seen_ s) (sent_ s + 1) s)
        else ([], s)
    end in
  let s := if established_ s then deriveKey s else s in
  (good out, s).

Definition established (s : StubNoiseSession) : bool := established_ s.
Definition handshakeHash (s : StubNoiseSession) : list Z := hash_ s.

(** [p[i] ^ key_[i % key_.size()] ^ nonce] for every position; [None] where the
    remainder by zero is reached. *)
Definition mask (key : list Z) (nonce : Z) (p : list Z) : option (list Z) :=
  if bool_decide (key = []) && bool_decide (p ≠ []) then None
  else Some (imap (λ i b, to_u8 (Z.lxor (Z.lxor b (key !!! (i `mod` length key)%nat)) nonce)) p).

Definition encrypt (pt : list Z) (s : StubNoiseSession) : option (list Z * StubNoiseSession) :=
  let nonce := to_u8 (send_nonce_ s) in
  ct ← mask (key_ s) nonce pt;
  Some (nonce :: ct,
    {| role_ := role_ s; transcript_ := transcript_ s; key_ := key_ s; hash_ := hash_ s;
       established_ := established_ s; rounds_seen_ := rounds_seen_ s; sent_ := sent_ s;
       send_nonce_ := to_u32 (send_nonce_ s + 1) |}).

Definition decrypt (ct : list Z) (s : StubNoiseSession) : option (Result (list Z)) :=
  match ct with
  | [] => Some (fail InvalidArgument "empty ciphertext")
  | nonce :: body => pt ← mask (key_ s) nonce body; Some (good pt)
  end.

(** ** What the tests ask of it, for every message *)

Lemma mask_total key nonce p : key ≠ [] → is_Some (mask key nonce p).
Proof. intros Hk. unfold mask. rewrite bool_decide_false by done. by eexists. Qed.

Lemma length_mask key nonce p c : mask key nonce p = Some c → length c = length p.
Proof. unfold mask. case_match; [done|]. intros [= <-]. apply length_imap. Qed.

Lemma unmask_byte b k n :
  byte_ok b → byte_ok k → byte_ok n →
  to_u8 (Z.lxor (Z.lxor (to_u8 (Z.lxor (Z.lxor b k) n)) k) n) = b.
Proof.
  intros Hb Hk Hn. unfold byte_ok in *.
  rewrite (wrap_id 8 (Z.lxor (Z.lxor b k) n)) by auto using fits_lxor with lia.
  assert (Z.lxor (Z.lxor (Z.lxor (Z.lxor b k) n) k) n = b) as ->; [|by apply wrap_id].
  rewrite (Z.lxor_assoc (Z.lxor b k)), (Z.lxor_comm n k), <-!Z.lxor_assoc.
  rewrite (Z.lxor_assoc b), Z.lxor_nilpotent, Z.lxor_0_r.
  by rewrite Z.lxor_assoc, Z.lxor_nilpotent, Z.lxor_0_r.
Qed.

Lemma mask_mask key nonce p :
  key ≠ [] → bytes_ok key → byte_ok nonce → bytes_ok p →
  mask key nonce p ≫= mask key nonce = Some p.
Proof.
  intros Hk Hbk Hn Hp. unfold mask. rewrite bool_decide_false by done. simpl. f_equal.
  apply list_eq. intros i. rewrite !list_lookup_imap.
  destruct (p !! i) as [b|] eqn:E; [|done]. simpl. f_equal.
  apply unmask_byte; [by eapply Forall_lookup_1| |done].
  apply (Forall_lookup_total_1 _ key _ Hbk), Nat.mod_upper_bound. by destruct key.
Qed.

(** A session whose handshake is over: the key is there. *)
Definition keyed (s : StubNoiseSession) : Prop := key_ s ≠ [] ∧ bytes_ok (key_ s).

(** Two ends with the same key understand each other, in both directions: what one
    encrypts is defined, is never the plaintext, and the other decrypts it to the
    plaintext, whatever either sent before. *)
Theorem ref_noise_roundtrip a b p :
  keyed a → key_ b = key_ a → bytes_ok p → fits 32 (send_nonce_ a) →
  ∃ ct a', encrypt p a = Some (ct, a') ∧ ct ≠ p ∧ decrypt ct b = Some (good p) ∧
    key_ a' = key_ a.
Proof.
  intros [Hk Hbk] Hb Hp Hn. unfold encrypt.
  destruct (mask_total (key_ a) (to_u8 (send_nonce_ a)) p Hk) as [ct Hct]. rewrite Hct. simpl.
  eexists _, _. split; [done|]. split_and!; [| |done].
  - intros H. apply (f_equal length) in H. apply length_mask in Hct. simpl in H. lia.
  - simpl. rewrite Hb. pose proof (mask_mask (key_ a) (to_u8 (send_nonce_ a)) p Hk Hbk) as Hm.
    rewrite Hct in Hm. simpl in Hm. rewrite Hm by (done || apply byte_ok_wrap). done.
Qed.

(** The nonce on the wire is a byte: equal plaintexts have different ciphertexts
    within 256 messages, and the 257th repeats the first. *)
Theorem ref_noise_nonce_period a p ct a' s k :
  encrypt p a = Some (ct, a') → fits 32 (send_nonce_ a) → fits 32 (send_nonce_ s) →
  key_ s = key_ a → send_nonce_ s = send_nonce_ a + k → 0 ≤ k →
  (∃ ct' s', encrypt p s = Some (ct', s') ∧ (ct' = ct ↔ k `mod` 256 = 0)).
Proof.
  intros Henc Hn Hn' Hkey Hk Hk0. unfold encrypt in *. rewrite Hkey.
  destruct (mask (key_ a) (to_u8 (send_nonce_ a)) p) as [c|] eqn:E; [|done].
  simpl in Henc. injection Henc as <- <-.
  assert (is_Some (mask (key_ a) (to_u8 (send_nonce_ s)) p)) as [c' E'].
  { unfold mask in *. by destruct (_ && _). }
  rewrite E'. simpl. eexists _, _. split; [done|]. rewrite Hk in *. split.
  - intros [= Hb _]. unfold wrap in Hb. change (2 ^ 8) with 256 in Hb.
    pose proof (Z.mod_pos_bound (send_nonce_ a) 256). pose proof (Z.mod_pos_bound k 256).
    rewrite Zplus_mod in Hb.
    destruct (decide (send_nonce_ a `mod` 256 + k `mod` 256 < 256)).
    + rewrite Z.mod_small in Hb by lia. lia.
    + rewrite <-(Z_mod_plus_full _ (-1)) in Hb. rewrite Z.mod_small in Hb by lia. lia.
  - intros Hm. assert (to_u8 (send_nonce_ a + k) = to_u8 (send_nonce_ a)) as Hw.
    { unfold wrap. change (2 ^ 8) with 256. rewrite Zplus_mod, Hm, Z.add_0_r. apply Zmod_mod. }
    rewrite Hw in *. congruence.
Qed.

End RefNoise.

(** ** (3) The loopback transport *)

Module RefTransport.

Record DeliveredFrame := { header : FrameHeader; payload : list Z }.

(** One endpoint.  [peer_] is the index of another object; a channel with a
    handler records what the handler was called with. *)
Record LoopbackTransport := {
  peer_ : option nat;
  handlers_ : Channel → bool;
  next_seq_ : Channel → Z;
  drop_budget_ : Channel → Z;
  received : list DeliveredFrame;
}.

Definition LoopbackTransport_init : LoopbackTransport := {|
  peer_ := None; handlers_ := λ _, false; next_seq_ := λ _, 0; drop_budget_ := λ _, 0;
  received := [] |}.

(** The endpoints that exist, by index. *)
Abbreviation World := (list LoopbackTransport).
#[export] Instance loopback_inhabited : Inhabited LoopbackTransport :=
  populate LoopbackTransport_init.

Definition onChannel (i : nat) (ch : Channel) : State World () :=
  modify (alter (λ e, {| peer_ := peer_ e; handlers_ := <[ch := true]> (handlers_ e);
    next_seq_ := next_seq_ e; drop_budget_ := drop_budget_ e; received := received e |}) i).

Definition dropNextInbound (i : nat) (ch : Channel) (n : Z) : State World () :=
  modify (alter (λ e, {| peer_ := peer_ e; handlers_ := handlers_ e;
    next_seq_ := next_seq_ e; drop_budget_ := <[ch := n]> (drop_budget_ e);
    received := received e |}) i).

Definition set_peer (i j : nat) : State World () :=
  modify (alter (λ e, {| peer_ := Some j; handlers_ := handlers_ e; next_seq_ := next_seq_ e;
    drop_budget_ := drop_budget_ e; received := received e |}) i).

Definition link (a b : nat) : State World () := set_peer a b;; set_peer b a.

(** [next_seq_[ch]++]: the value before. *)
Definition take_seq (i : nat) (ch : Channel) : State World Z :=
  n ← gets (λ w, next_seq_ (w !!! i) ch);
  modify (alter (λ e, {| peer_ := peer_ e; handlers_ := handlers_ e;
    next_seq_ := <[ch := to_u32 (n + 1)]> (next_seq_ e); drop_budget_ := drop_budget_ e;
    received := received e |}) i);;
  mret n.

Definition deliver (j : nat) (f : DeliveredFrame) : State World () :=
  modify (alter (λ e,
    if handlers_ e (channel (header f)) then
      {| peer_ := peer_ e; handlers_ := handlers_ e; next_seq_ := next_seq_ e;
         drop_budget_ := drop_budget_ e; received := received e ++ [f] |}
    else e) j).

Definition send (i : nat) (ch : Channel) (ty : MessageType) (bytes : list Z) (fl : Z)
    : State World Status :=
  peer ← gets (λ w, peer_ (w !!! i));
  match peer with
  | None => mret (error ConnectionLost "loopback not linked")
  | Some j =>
      n ← take_seq i ch;
      let h := {| channel := ch; reserved0 := 0; frame_type := ty; flags := fl;
                  frag_index := 0; frag_count := 1; seq := n;
                  frame_length := to_u32 (Z.of_nat (length bytes)) |} in
      budget ← gets (λ w, drop_budget_ (w !!! j) ch);
      if bool_decide (reliabilityFor ch = kUnreliable) && (0 <? budget) then
        dropNextInbound j ch (budget - 1);; mret success
      else
        deliver j {| header := h; payload := bytes |};; mret success
  end.

(** *** What arrives *)

Record Message := { m_channel : Channel; m_type : MessageType; m_bytes : list Z; m_flags : Z }.

Definition send_all (i : nat) (ms : list Message) (w : World) : World :=
  fold_left (λ w m, (send i (m_channel m) (m_type m) (m_bytes m) (m_flags m) w).2) ms w.

(** The frame of the message numbered [n]. *)
Definition frame_of (n : Z) (m : Message) : DeliveredFrame := {|
  header := {| channel := m_channel m; reserved0 := 0; frame_type := m_type m;
    flags := m_flags m; frag_index := 0; frag_count := 1; seq := n;
    frame_length := to_u32 (Z.of_nat (length (m_bytes m))) |};
  payload := m_bytes m |}.

(** Messages of one channel, numbered from [n] modulo 2^32. *)
Fixpoint numbered (n : Z) (ms : list Message) : list DeliveredFrame :=
  match ms with
  | [] => []
  | m :: ms => frame_of n m :: numbered (to_u32 (n + 1)) ms
  end.

Definition on_channel (ch : Channel) (f : DeliveredFrame) : Prop := channel (header f) = ch.
#[export] Instance on_channel_dec ch f : Decision (on_channel ch f).
Proof. unfold on_channel. apply _. Defined.

(** How many of the next messages on [ch] the budget [b] swallows. *)
Definition swallowed (ch : Channel) (b : Z) : nat :=
  if bool_decide (reliabilityFor ch = kUnreliable) then Z.to_nat b else 0.

Lemma alter_as_insert (f : LoopbackTransport → LoopbackTransport) i (w : World) e :
  w !! i = Some e → alter f i w = <[i := f e]> w.
Proof.
  intros Hi. apply list_eq. intros k. destruct (decide (k = i)) as [->|].
  - rewrite list_lookup_alter_eq, Hi. symmetry. apply list_lookup_insert_eq.
    by eapply lookup_lt_Some.
  - by rewrite list_lookup_alter_ne, list_lookup_insert_ne.
Qed.

(** What a send from [i] to another endpoint [j] does to the two. *)
Lemma send_effect i j ch ty bytes fl (w : World) e p :
  i ≠ j → w !! i = Some e → peer_ e = Some j → w !! j = Some p →
  let drop := bool_decide (reliabilityFor ch = kUnreliable) && (0 <? drop_budget_ p ch) in
  let m := {| m_channel := ch; m_type := ty; m_bytes := bytes; m_flags := fl |} in
  (send i ch ty bytes fl w).1 = success ∧
  (send i ch ty bytes fl w).2 =
    <[i := {| peer_ := Some j; handlers_ := handlers_ e;
              next_seq_ := <[ch := to_u32 (next_seq_ e ch + 1)]> (next_seq_ e);
              drop_budget_ := drop_budget_ e; received := received e |}]>
    (<[j := {| peer_ := peer_ p; handlers_ := handlers_ p; next_seq_ := next_seq_ p;
               drop_budget_ := if drop then <[ch := drop_budget_ p ch - 1]> (drop_budget_ p)
                               else drop_budget_ p;
               received := if negb drop && handlers_ p ch
                           then received p ++ [frame_of (next_seq_ e ch) m] else received p |}]> w).
Proof.
  intros Hne Hi Hpeer Hj drop m. unfold send, take_seq, deliver, dropNextInbound.
  rewrite !state_bind_run, state_gets_run. cbn [fst snd].
  rewrite (list_lookup_total_correct w i e Hi), Hpeer.
  rewrite !state_bind_run, !state_gets_run. cbn [fst snd].
  rewrite (list_lookup_total_correct w i e Hi). unfold modify, mret, state_ret. cbn [fst snd].
  rewrite (alter_as_insert _ i w e Hi), Hpeer. set (e' := {| peer_ := _ |}).
  assert (<[i := e']> w !! j = Some p) as Hj' by by rewrite list_lookup_insert_ne.
  rewrite (list_lookup_total_correct _ j p Hj'). fold drop.
  destruct drop; simpl;
    (split; [done|]); rewrite (alter_as_insert _ j _ p Hj'), list_insert_insert_ne by done; [done|].
  unfold frame_of. simpl. destruct (handlers_ p ch); [done|]. by destruct p.
Qed.

Lemma swallowed_drop ch b :
  bool_decide (reliabilityFor ch = kUnreliable) && (0 <? b) = true →
  swallowed ch b = S (swallowed ch (b - 1)).
Proof.
  intros [Hr Hb%Z.ltb_lt]%andb_true_iff. unfold swallowed. rewrite Hr. lia.
Qed.

Lemma swallowed_none ch b :
  bool_decide (reliabilityFor ch = kUnreliable) && (0 <? b) = false → swallowed ch b = 0%nat.
Proof.
  unfold swallowed. intros [->|Hb%Z.ltb_ge]%andb_false_iff; [done|]. case_match; lia.
Qed.

(** Delivery, exactly: when one endpoint sends any messages to another that has a
    handler for a channel, the handler is called with the messages of that channel,
    in order, unchanged and numbered one after the other; on a reliable channel with
    all of them, on an unreliable one without the first ones, as many as the drop
    budget says.  Traffic on other channels makes no difference. *)
Theorem ref_transport_delivery i j ch ms (w : World) e p :
  i ≠ j → w !! i = Some e → peer_ e = Some j → w !! j = Some p → handlers_ p ch = true →
  ∃ p', send_all i ms w !! j = Some p' ∧
    filter (on_channel ch) (received p') =
      filter (on_channel ch) (received p) ++
        drop (swallowed ch (drop_budget_ p ch))
          (numbered (next_seq_ e ch) (filter (λ m, m_channel m = ch) ms)).
Proof.
  intros Hne. revert w e p. induction ms as [|m ms IH]; intros w e p Hi Hpeer Hj Hh.
  { exists p. split; [done|]. rewrite filter_nil. simpl. by rewrite drop_nil, app_nil_r. }
  destruct (send_effect i j (m_channel m) (m_type m) (m_bytes m) (m_flags m) w e p)
    as [_ Hw]; [done..|]. cbv zeta in Hw. simpl. rewrite Hw. clear Hw.
  set (drop0 := bool_decide (reliabilityFor (m_channel m) = kUnreliable) && _).
  set (e' := {| peer_ := Some j |}). set (p1 := {| peer_ := peer_ p |}).
  edestruct (IH (<[i := e']> (<[j := p1]> w)) e' p1) as (p' & Hp' & Hf).
  - apply list_lookup_insert_eq. rewrite length_insert. by eapply lookup_lt_Some.
  - done.
  - rewrite list_lookup_insert_ne by done. apply list_lookup_insert_eq. by eapply lookup_lt_Some.
  - done.
  - exists p'. split; [done|]. rewrite Hf. simpl. clear Hf.
    assert (∀ f l, filter (on_channel ch) (l ++ [f]) = filter (on_channel ch) l ++
      (if decide (on_channel ch f) then [f] else [])) as Hsnoc
      by (intros; rewrite filter_app; f_equal; by rewrite filter_cons, filter_nil).
    rewrite filter_cons. destruct (decide (m_channel m = ch)) as [Hc|Hc].
    + assert (on_channel ch (frame_of (next_seq_ e ch) m)) as Hon by exact Hc.
      assert (bool_decide (reliabilityFor ch = kUnreliable) && (0 <? drop_budget_ p ch) = drop0)
        as Hd by (unfold drop0; by rewrite Hc).
      rewrite Hc in *. rewrite fn_lookup_insert. simpl numbered.
      assert (frame_of (next_seq_ e ch) {| m_channel := ch; m_type := m_type m;
        m_bytes := m_bytes m; m_flags := m_flags m |} = frame_of (next_seq_ e ch) m) as ->
        by (unfold on_channel in Hon; simpl in Hon; unfold frame_of; simpl; by rewrite Hon).
      destruct drop0 eqn:Ed; simpl.
      * rewrite fn_lookup_insert. by rewrite (swallowed_drop ch (drop_budget_ p ch)) by done.
      * rewrite Hh, Hsnoc, decide_True by exact Hon.
        rewrite (swallowed_none ch) by done. simpl. by rewrite drop_0, <-app_assoc.
    + rewrite (fn_lookup_insert_ne (next_seq_ e)) by done. f_equal.
      * destruct (negb drop0 && handlers_ p (m_channel m)); [|done].
        rewrite Hsnoc, decide_False by (unfold on_channel; simpl; done).
        by rewrite app_nil_r.
      * by destruct drop0; [rewrite fn_lookup_insert_ne|].
Qed.

End RefTransport.

(** ** (4) The permission gate *)

Module RefGate.

Record AuditEntry := {
  fingerprint : string;
  capability : Capability;
  allowed : bool;
  action : string;
}.

Record PermissionGate := {
  grants_ : gmap string Z;
  audit_ : list AuditEntry;
}.

Definition PermissionGate_init : PermissionGate := {| grants_ := ∅; audit_ := [] |}.

Definition log (fp : string) (cap : Capability) (ok : bool) (act : string)
    : State PermissionGate () :=
  modify (λ g, {| grants_ := grants_ g;
    audit_ := audit_ g ++ [{| fingerprint := fp; capability := cap; allowed := ok;
                              action := act |}] |}).

Definition set_grants (f : gmap string Z → gmap string Z) : State PermissionGate () :=
  modify (λ g, {| grants_ := f (grants_ g); audit_ := audit_ g |}).

(** [grants_[fingerprint]] creates an empty set. *)
Definition grant (fp : string) (cap : Capability) : State PermissionGate () :=
  set_grants (λ m, <[fp := Wire.grant (default kNoCapabilities (m !! fp)) cap]> m);;
  log fp cap true "grant".

Definition revoke (fp : string) (cap : Capability) : State PermissionGate () :=
  set_grants (λ m, match m !! fp with
                   | Some bits => <[fp := Wire.revoke bits cap]> m
                   | None => m
                   end);;
  log fp cap false "revoke".

Definition check (fp : string) (cap : Capability) : State PermissionGate bool :=
  g ← gets grants_;
  let ok := match g !! fp with Some bits => has bits cap | None => false end in
  log fp cap ok "check";;
  mret ok.

(** *** Specification: the last word on a peer and a capability *)

Inductive Op :=
| Grant (fp : string) (cap : Capability)
| Revoke (fp : string) (cap : Capability)
| Check (fp : string) (cap : Capability).

Definition exec (o : Op) (g : PermissionGate) : PermissionGate :=
  match o with
  | Grant fp cap => (grant fp cap g).2
  | Revoke fp cap => (revoke fp cap g).2
  | Check fp cap => (check fp cap g).2
  end.

Definition run (os : list Op) (g : PermissionGate) : PermissionGate :=
  fold_left (λ g o, exec o g) os g.

(** The answer after [os]: what the last grant or revocation of exactly this
    capability to exactly this peer said, and no if there was none. *)
Definition last_word (fp : string) (cap : Capability) (os : list Op) : bool :=
  fold_left (λ word o, match o with
    | Grant fp' cap' => if decide (fp' = fp ∧ cap' = cap) then true else word
    | Revoke fp' cap' => if decide (fp' = fp ∧ cap' = cap) then false else word
    | Check _ _ => word
    end) os false.

(** The audit entry of an operation, given the answer it got. *)
Definition entry (before : list Op) (o : Op) : AuditEntry :=
  match o with
  | Grant fp cap => {| fingerprint := fp; capability := cap; allowed := true; action := "grant" |}
  | Revoke fp cap => {| fingerprint := fp; capability := cap; allowed := false; action := "revoke" |}
  | Check fp cap => {| fingerprint := fp; capability := cap; allowed := last_word fp cap before;
                       action := "check" |}
  end.

Definition answer (g : PermissionGate) (fp : string) (cap : Capability) : bool :=
  match grants_ g !! fp with Some bits => has bits cap | None => false end.

Definition bits_fit (g : PermissionGate) : Prop := map_Forall (λ _, fits 32) (grants_ g).

Lemma answer_default g fp cap :
  answer g fp cap = has (default kNoCapabilities (grants_ g !! fp)) cap.
Proof.
  unfold answer. destruct (grants_ g !! fp); [done|]. simpl.
  by destruct (capability_set_laws 0 cap cap) as (-> & _).
Qed.

Lemma bits_fit_default g fp : bits_fit g → fits 32 (default kNoCapabilities (grants_ g !! fp)).
Proof. intros Hf. destruct (grants_ g !! fp) eqn:E; [by eapply Hf|done]. Qed.

Lemma grant_answer g fp cap fp' cap' :
  bits_fit g →
  let g' := (grant fp cap g).2 in
  bits_fit g' ∧ answer g' fp' cap' =
    if decide (fp = fp' ∧ cap = cap') then true else answer g fp' cap'.
Proof.
  intros Hf g'. pose proof (bits_fit_default g fp Hf) as Hb.
  destruct (capability_set_laws _ cap cap' Hb) as (_ & Hg & _ & Hfit & _). split.
  - apply map_Forall_insert_2; [done|exact Hf].
  - unfold answer at 1. simpl. destruct (decide (fp = fp')) as [->|Hne].
    + rewrite lookup_insert_eq, Hg, answer_default.
      destruct (decide (cap = cap')) as [->|].
      * by rewrite decide_True, bool_decide_true by done.
      * rewrite decide_False by tauto. by rewrite bool_decide_false.
    + rewrite lookup_insert_ne by done. rewrite decide_False by tauto. done.
Qed.

Lemma revoke_answer g fp cap fp' cap' :
  bits_fit g →
  let g' := (revoke fp cap g).2 in
  bits_fit g' ∧ answer g' fp' cap' =
    if decide (fp = fp' ∧ cap = cap') then false else answer g fp' cap'.
Proof.
  intros Hf g'. unfold g', revoke, bits_fit, answer. run_state.
  destruct (grants_ g !! fp) as [bits|] eqn:E.
  - destruct (capability_set_laws bits cap cap' (Hf _ _ E)) as (_ & _ & Hg & _ & Hfit). split.
    + by apply map_Forall_insert_2.
    + destruct (decide (fp = fp')) as [->|Hne].
      * rewrite lookup_insert_eq, Hg, E. destruct (decide (cap = cap')) as [->|].
        -- by rewrite decide_True, bool_decide_true by done.
        -- rewrite decide_False by tauto. by rewrite bool_decide_false.
      * rewrite lookup_insert_ne by done. by rewrite decide_False by tauto.
  - split; [done|]. case_decide as Hd; [|done]. destruct Hd as [<- _]. by rewrite E.
Qed.

Lemma check_answer g fp cap :
  (check fp cap g).1 = answer g fp cap ∧ grants_ (check fp cap g).2 = grants_ g.
Proof. done. Qed.

Lemma gate_run_snoc os o g : run (os ++ [o]) g = exec o (run os g).
Proof. apply fold_left_app. Qed.

Lemma last_word_snoc fp cap os o :
  last_word fp cap (os ++ [o]) =
    match o with
    | Grant fp' cap' => if decide (fp' = fp ∧ cap' = cap) then true else last_word fp cap os
    | Revoke fp' cap' => if decide (fp' = fp ∧ cap' = cap) then false else last_word fp cap os
    | Check _ _ => last_word fp cap os
    end.
Proof. unfold last_word. by rewrite fold_left_app. Qed.

Lemma run_answers os :
  let g := run os PermissionGate_init in
  bits_fit g ∧ ∀ fp cap, answer g fp cap = last_word fp cap os.
Proof.
  induction os as [|o os IH] using rev_ind; [split; [apply map_Forall_empty|done]|].
  rewrite gate_run_snoc. destruct IH as [Hf Ha]. destruct o as [fp cap|fp cap|fp cap].
  - split; [by apply (grant_answer _ fp cap "" kViewScreen)|].
    intros fp' cap'. rewrite last_word_snoc, <-Ha. by apply grant_answer.
  - split; [by apply (revoke_answer _ fp cap "" kViewScreen)|].
    intros fp' cap'. rewrite last_word_snoc, <-Ha. by apply revoke_answer.
  - split; [done|]. intros fp' cap'. rewrite last_word_snoc. apply Ha.
Qed.

(** Default deny, least privilege and a complete audit log: after
    any operations on a new gate a check is allowed exactly when the last grant or
    revocation of that very capability to that very peer was a grant, and the log
    holds one entry per operation, in order, with the peer, the capability and the
    decision made. *)
Theorem ref_gate_spec os fp cap :
  let g := run os PermissionGate_init in
  (check fp cap g).1 = last_word fp cap os ∧
  length (audit_ g) = length os ∧
  ∀ k o, os !! k = Some o → audit_ g !! k = Some (entry (take k os) o).
Proof.
  intros g. destruct (run_answers os) as [_ Ha]. fold g in Ha. split; [apply Ha|].
  unfold g. clear g Ha. induction os as [|o os [IHl IH]] using rev_ind; [done|].
  rewrite gate_run_snoc. destruct (run_answers os) as [_ Ha].
  set (g := run os PermissionGate_init) in *.
  assert (audit_ (exec o g) = audit_ g ++ [entry os o]) as Hl.
  { destruct o as [fp' cap'|fp' cap'|fp' cap']; simpl; [done..|].
    change (match _ with Some _ => _ | None => _ end) with (answer g fp' cap').
    by rewrite Ha. }
  rewrite Hl. split; [rewrite !length_app, IHl; done|].
  intros k o'. rewrite lookup_snoc_Some. intros [[Hk Ho]|[-> <-]].
  - rewrite lookup_app_l by lia. rewrite take_app_le by lia. by apply IH.
  - rewrite lookup_app_r by lia. rewrite IHl, Nat.sub_diag. simpl.
    by rewrite take_app_length.
Qed.

End RefGate.
