(* ===== verification/Conformance.v ===== *)
(** * The test suite, run ([tests/redesk_test.h], tests/test_*.cpp)

    The harness as a state monad over the context of a case, with the early
    return of a failed ASSERT and with undefined behaviour; the cases of the six
    test programs, statement by statement, on the definitions of [Wire] and on
    the reference backends; and the exit code of each program. *)

From stdpp Require Import functions.
From S2P Require Import IpcMessages.
From S2P Require Import Prelude Types Wire TestBackends.

(** ** The harness *)

Record TestContext := { failures : Z; aborted : bool; current : string }.

(** The body of a case: [None] is undefined behaviour, [Some (None, _)] a return
    from the case function. *)
Definition Body (A : Type) : Type := TestContext → option (option A * TestContext).

#[export] Instance body_ret : MRet Body := λ A a c, Some (Some a, c).
#[export] Instance body_bind : MBind Body := λ A B f m c,
  match m c with
  | None => None
  | Some (None, c) => Some (None, c)
  | Some (Some a, c) => f a c
  end.

Definition REDESK_FAIL (c : TestContext) : TestContext :=
  {| failures := failures c + 1; aborted := aborted c; current := current c |}.

Definition EXPECT_TRUE (cond : bool) : Body () := λ c,
  Some (Some (), if negb cond then REDESK_FAIL c else c).
Definition EXPECT_FALSE (cond : bool) : Body () := λ c,
  Some (Some (), if cond then REDESK_FAIL c else c).
Definition EXPECT_EQ {A} `{EqDecision A} (a b : A) : Body () := EXPECT_TRUE (bool_decide (a = b)).
Definition EXPECT_NE {A} `{EqDecision A} (a b : A) : Body () := EXPECT_TRUE (bool_decide (a ≠ b)).

Definition abort (c : TestContext) : TestContext :=
  {| failures := failures c + 1; aborted := true; current := current c |}.
Definition ASSERT_TRUE (cond : bool) : Body () := λ c,
  if negb cond then Some (None, abort c) else Some (Some (), c).
Definition ASSERT_FALSE (cond : bool) : Body () := λ c,
  if cond then Some (None, abort c) else Some (Some (), c).
Definition ASSERT_EQ {A} `{EqDecision A} (a b : A) : Body () := ASSERT_TRUE (bool_decide (a = b)).

(** A call that may have undefined behaviour. *)
Definition call {A} (o : option A) : Body A := λ c, (λ a, (Some a, c)) <$> o.

Record TestCase := { suite : string; name : string; fn : Body () }.

Definition run_case (tc : TestCase) : option TestContext :=
  snd <$> fn tc {| failures := 0; aborted := false;
                   current := suite tc +:+ "." +:+ name tc |}.

(** [runAll] on the registered cases: passed, failed, and the exit code. *)
Fixpoint run_cases (cases : list TestCase) (passed failed : Z) : option (Z * Z) :=
  match cases with
  | [] => Some (passed, failed)
  | tc :: cases =>
      ctx ← run_case tc;
      if failures ctx =? 0 then run_cases cases (passed + 1) failed
      else run_cases cases passed (failed + 1)
  end.

Definition runAll (cases : list TestCase) : option Z :=
  '(_, failed) ← run_cases cases 0 0;
  Some (if failed =? 0 then 0 else 1).

Lemma run_cases_counts cases passed failed p f :
  run_cases cases passed failed = Some (p, f) →
  p + f = passed + failed + Z.of_nat (length cases) ∧ passed ≤ p ∧ failed ≤ f ∧
  (f = failed ↔ Forall (λ tc, failures <$> run_case tc = Some 0) cases).
Proof.
  revert passed failed. induction cases as [|tc cases IH]; intros passed failed; simpl.
  { intros [= <- <-]. split_and!; [lia..|]. by split. }
  destruct (run_case tc) as [ctx|] eqn:E; simpl; [|done].
  destruct (Z.eqb_spec (failures ctx) 0) as [Hz|Hz]; intros H;
    apply IH in H as (Hsum & Hp & Hf & Hall); split_and!; try lia; rewrite Forall_cons, E; simpl.
  - rewrite Hall, Hz. naive_solver.
  - split; [lia|]. intros [[= ?] _]. done.
Qed.

(** The exit code tells: a program exits with 0 exactly when every case ran to its
    end or return without a failed check, and with 1 when one failed; every case is
    run, in a context of its own. *)
Theorem run_all_exit cases :
  (∀ tc, tc ∈ cases → is_Some (run_case tc)) →
  runAll cases = Some (if decide (Forall (λ tc, failures <$> run_case tc = Some 0) cases)
                       then 0 else 1).
Proof.
  intros Hdef. unfold runAll.
  assert (∀ p f, is_Some (run_cases cases p f)) as Hrun.
  { induction cases as [|tc cases IH]; intros p f; [by eexists|]. simpl.
    destruct (Hdef tc) as [ctx ->]; [set_solver|]. simpl. case_match; apply IH; set_solver. }
  destruct (Hrun 0 0) as [[p f] Hr]. rewrite Hr. simpl.
  destruct (run_cases_counts _ _ _ _ _ Hr) as (_ & _ & Hf & Hall).
  case_decide as Hd.
  - by rewrite (proj2 (Z.eqb_eq _ _)) by (by apply Hall).
  - rewrite (proj2 (Z.eqb_neq _ _)); [done|]. rewrite Hall. done.
Qed.

(** ** test_codec_negotiation.cpp *)

Definition test_codec_negotiation : list TestCase := [
  {| suite := "codec_negotiation"; name := "picks_highest_common_tier"; fn :=
       let local := [kH264High420; kHevc420; kHevc444; kAv1] in
       let remote := [kH264High420; kHevc420] in
       EXPECT_TRUE (bool_decide (negotiateCodec local remote = kHevc420)) |};
  {| suite := "codec_negotiation"; name := "both_full_ladder_yields_av1"; fn :=
       let full := [kH264High420; kHevc420; kHevc444; kAv1] in
       EXPECT_TRUE (bool_decide (negotiateCodec full full = kAv1)) |};
  {| suite := "codec_negotiation"; name := "floor_only_yields_floor"; fn :=
       EXPECT_TRUE (bool_decide
         (negotiateCodec floorCapabilities floorCapabilities = kH264High420)) |};
  {| suite := "codec_negotiation"; name := "order_independent"; fn :=
       let a := [kAv1; kH264High420] in
       let b := [kHevc444; kH264High420; kAv1] in
       EXPECT_TRUE (bool_decide (negotiateCodec a b = kAv1));;
       EXPECT_TRUE (bool_decide (negotiateCodec b a = kAv1)) |};
  {| suite := "codec_negotiation"; name := "no_common_tier_is_failure"; fn :=
       let only_av1 := [kAv1] in
       let only_floor := [kH264High420] in
       EXPECT_TRUE (bool_decide (negotiateCodec only_av1 only_floor = kNone)) |};
  {| suite := "codec_negotiation"; name := "hevc444_preferred_over_hevc420"; fn :=
       let local := [kHevc420; kHevc444] in
       let remote := [kHevc420; kHevc444] in
       EXPECT_TRUE (bool_decide (negotiateCodec local remote = kHevc444)) |}
].

(** ** test_codec_roundtrip.cpp *)

Definition makeFrame : VideoFrame := {|
  frame_size := {| width := 1280; height := 720 |};
  format := NV12;
  timestamp_us := 42000;
  native_handle := None;
  cpu_pixels := (λ i, to_u8 (Z.land (Z.of_nat i * 7 + 3) 255)) <$> List.seq 0 64;
  dirty_rects := [];
  is_idle := false |}.

Definition test_codec_roundtrip : list TestCase := [
  {| suite := "codec"; name := "roundtrip_preserves_frame"; fn :=
       let original := makeFrame in
       let encoded := RefCodec.encode original in
       ASSERT_TRUE (Result_ok encoded);;
       EXPECT_TRUE (keyframe (value encoded));;
       EXPECT_EQ (pkt_timestamp_us (value encoded)) (timestamp_us original);;
       EXPECT_FALSE (bool_decide (data (value encoded) = []));;
       let decoded := RefCodec.decode (value encoded) in
       ASSERT_TRUE (Result_ok decoded);;
       let got := value decoded in
       EXPECT_EQ (width (frame_size got)) (width (frame_size original));;
       EXPECT_EQ (height (frame_size got)) (height (frame_size original));;
       EXPECT_TRUE (bool_decide (format got = format original));;
       EXPECT_EQ (timestamp_us got) (timestamp_us original);;
       ASSERT_EQ (length (cpu_pixels got)) (length (cpu_pixels original));;
       EXPECT_TRUE (bool_decide (cpu_pixels got = cpu_pixels original)) |};
  {| suite := "codec"; name := "decode_rejects_garbage"; fn :=
       let junk := {| data := [0; 1; 2]; pkt_timestamp_us := 0; keyframe := false |} in
       let decoded := RefCodec.decode junk in
       EXPECT_FALSE (Result_ok decoded);;
       EXPECT_TRUE (bool_decide (code (status decoded) = InvalidArgument)) |}
].

(** ** test_crypto_handshake.cpp *)

Import RefNoise.

(** The rounds of [runHandshake]; the flag is its result. *)
Fixpoint handshake_rounds (n : nat) (initiator responder : StubNoiseSession)
    (resp_to_in : list Z) : bool * StubNoiseSession * StubNoiseSession :=
  match n with
  | O => (established initiator && established responder, initiator, responder)
  | S n =>
      let '(a, initiator) := writeHandshake resp_to_in initiator in
      if negb (Result_ok a) then (false, initiator, responder)
      else
        let in_to_resp := value a in
        let '(b, responder) := writeHandshake in_to_resp responder in
        if negb (Result_ok b) then (false, initiator, responder)
        else if established initiator && established responder then (true, initiator, responder)
        else handshake_rounds n initiator responder (value b)
  end.

Definition runHandshake (initiator responder : StubNoiseSession)
    : bool * StubNoiseSession * StubNoiseSession := handshake_rounds 8 initiator responder [].

Definition test_crypto_handshake : list TestCase := [
  {| suite := "crypto"; name := "handshake_completes_and_binds"; fn :=
       let '(ok, initiator, responder) := runHandshake makeStubInitiator makeStubResponder in
       ASSERT_TRUE ok;;
       EXPECT_TRUE (established initiator);;
       EXPECT_TRUE (established responder);;
       let hi := handshakeHash initiator in
       let hr := handshakeHash responder in
       EXPECT_FALSE (bool_decide (hi = []));;
       EXPECT_TRUE (bool_decide (hi = hr)) |};
  {| suite := "crypto"; name := "aead_roundtrip_both_directions"; fn :=
       let '(ok, initiator, responder) := runHandshake makeStubInitiator makeStubResponder in
       ASSERT_TRUE ok;;
       let msg1 := bytes_of_string "hello" in
       '(ct1, initiator) ← call (encrypt msg1 initiator);
       EXPECT_TRUE (bool_decide (ct1 ≠ msg1));;
       pt1 ← call (decrypt ct1 responder);
       ASSERT_TRUE (Result_ok pt1);;
       EXPECT_TRUE (bool_decide (value pt1 = msg1));;
       let msg2 := [0; 255; 16; 32] in
       '(ct2, responder) ← call (encrypt msg2 responder);
       pt2 ← call (decrypt ct2 initiator);
       ASSERT_TRUE (Result_ok pt2);;
       EXPECT_TRUE (bool_decide (value pt2 = msg2)) |};
  {| suite := "crypto"; name := "distinct_nonces_change_ciphertext"; fn :=
       let '(ok, initiator, responder) := runHandshake makeStubInitiator makeStubResponder in
       ASSERT_TRUE ok;;
       let msg := [1; 2; 3; 4] in
       '(c1, initiator) ← call (encrypt msg initiator);
       '(c2, initiator) ← call (encrypt msg initiator);
       EXPECT_TRUE (bool_decide (c1 ≠ c2));;
       p1 ← call (decrypt c1 responder);
       p2 ← call (decrypt c2 responder);
       ASSERT_TRUE (Result_ok p1);;
       ASSERT_TRUE (Result_ok p2);;
       EXPECT_TRUE (bool_decide (value p1 = msg));;
       EXPECT_TRUE (bool_decide (value p2 = msg)) |}
].

(** ** test_proto_framing.cpp *)

Definition with_frag (count fl : Z) (h : FrameHeader) : FrameHeader := {|
  channel := channel h; reserved0 := reserved0 h; frame_type := frame_type h; flags := fl;
  frag_index := frag_index h; frag_count := count; seq := seq h;
  frame_length := frame_length h |}.

Definition test_proto_framing : list TestCase := [
  {| suite := "proto_framing"; name := "header_size_is_pinned"; fn :=
       EXPECT_EQ sizeof_FrameHeader 18;;
       EXPECT_EQ (Z.of_nat (length (header_bytes IpcHeader_init))) 8 |};
  {| suite := "proto_framing"; name := "reliability_policy_matches_adr"; fn :=
       EXPECT_TRUE (bool_decide (reliabilityFor kVideo = kPartialReliable));;
       EXPECT_TRUE (bool_decide (reliabilityFor kAudio = kUnreliable));;
       EXPECT_TRUE (bool_decide (reliabilityFor kInput = kReliableOrdered));;
       EXPECT_TRUE (bool_decide (reliabilityFor kControl = kReliableOrdered));;
       EXPECT_TRUE (bool_decide (reliabilityFor kClipboard = kReliableOrdered));;
       EXPECT_TRUE (bool_decide (reliabilityFor kFile = kReliableOrdered)) |};
  {| suite := "proto_framing"; name := "whole_message_detection"; fn :=
       let h := FrameHeader_init in
       EXPECT_TRUE (isWholeMessage h);;
       let h := with_frag 3 (FrameFlags_to_u16 kFlagFragment) h in
       EXPECT_FALSE (isWholeMessage h) |};
  {| suite := "proto_framing"; name := "fragmentation_respects_noise_cap"; fn :=
       let budget := usablePayloadBudget kNoiseMessageMax in
       EXPECT_TRUE (0 <? budget);;
       EXPECT_TRUE (budget <? kNoiseMessageMax);;
       EXPECT_EQ (fragmentCount 100 budget) 1;;
       EXPECT_EQ (fragmentCount budget budget) 1;;
       EXPECT_EQ (fragmentCount (to_u32 (budget + 1)) budget) 2;;
       let big := 200 * 1024 in
       let n := fragmentCount big budget in
       EXPECT_TRUE (4 <=? n);;
       EXPECT_TRUE (big <=? to_u32 (n * budget));;
       EXPECT_TRUE (to_u32 ((n - 1) * budget) <? big) |};
  {| suite := "proto_framing"; name := "flag_helpers"; fn :=
       let h := with_frag 1 (Z.lor (FrameFlags_to_u16 kFlagKeyframe)
                                   (FrameFlags_to_u16 kFlagFragment)) FrameHeader_init in
       EXPECT_TRUE (hasFlag h kFlagKeyframe);;
       EXPECT_TRUE (hasFlag h kFlagFragment);;
       EXPECT_FALSE (hasFlag h kFlagFec);;
       EXPECT_FALSE (hasFlag h kFlagRetransmit) |}
].

(** ** test_session_permissions.cpp *)

Definition kPeerFp : string := "BLAKE2b:ab12-cd34-ef56-7890".
Definition kOtherFp : string := "BLAKE2b:99zz-88yy-77xx-6666".

(** A statement on the gate, inside a case. *)
Definition on_gate {A} (m : State RefGate.PermissionGate A) (g : RefGate.PermissionGate)
    : Body (A * RefGate.PermissionGate) := mret (m g).

(** The range-for of the last case: every entry is the peer's. *)
Fixpoint expect_each {A} (f : A → Body ()) (l : list A) : Body () :=
  match l with
  | [] => mret ()
  | x :: l => f x;; expect_each f l
  end.

(** The flag loop: some entry is a check of [cap] with the decision [ok]. *)
Definition saw (cap : Capability) (ok : bool) (audit : list RefGate.AuditEntry) : bool :=
  fold_left (λ b e,
    if bool_decide (RefGate.action e = "check") && bool_decide (RefGate.capability e = cap) &&
       Bool.eqb (RefGate.allowed e) ok then true else b) audit false.

Definition test_session_permissions : list TestCase := [
  {| suite := "session_permissions"; name := "default_deny"; fn :=
       let gate := RefGate.PermissionGate_init in
       '(b, gate) ← on_gate (RefGate.check kPeerFp kControlInput) gate; EXPECT_FALSE b;;
       '(b, gate) ← on_gate (RefGate.check kPeerFp kClipboardSync) gate; EXPECT_FALSE b;;
       '(b, gate) ← on_gate (RefGate.check kPeerFp kFileTransfer) gate; EXPECT_FALSE b;;
       '(b, gate) ← on_gate (RefGate.check kPeerFp kUacElevation) gate; EXPECT_FALSE b |};
  {| suite := "session_permissions"; name := "grant_allows_only_that_capability"; fn :=
       let gate := RefGate.PermissionGate_init in
       '(_, gate) ← on_gate (RefGate.grant kPeerFp kControlInput) gate;
       '(b, gate) ← on_gate (RefGate.check kPeerFp kControlInput) gate; EXPECT_TRUE b;;
       '(b, gate) ← on_gate (RefGate.check kPeerFp kClipboardSync) gate; EXPECT_FALSE b;;
       '(b, gate) ← on_gate (RefGate.check kPeerFp kFileTransfer) gate; EXPECT_FALSE b |};
  {| suite := "session_permissions"; name := "grants_are_per_fingerprint"; fn :=
       let gate := RefGate.PermissionGate_init in
       '(_, gate) ← on_gate (RefGate.grant kPeerFp kViewScreen) gate;
       '(b, gate) ← on_gate (RefGate.check kPeerFp kViewScreen) gate; EXPECT_TRUE b;;
       '(b, gate) ← on_gate (RefGate.check kOtherFp kViewScreen) gate; EXPECT_FALSE b |};
  {| suite := "session_permissions"; name := "revoke_returns_to_deny"; fn :=
       let gate := RefGate.PermissionGate_init in
       '(_, gate) ← on_gate (RefGate.grant kPeerFp kClipboardSync) gate;
       '(b, gate) ← on_gate (RefGate.check kPeerFp kClipboardSync) gate; EXPECT_TRUE b;;
       '(_, gate) ← on_gate (RefGate.revoke kPeerFp kClipboardSync) gate;
       '(b, gate) ← on_gate (RefGate.check kPeerFp kClipboardSync) gate; EXPECT_FALSE b |};
  {| suite := "session_permissions"; name := "audit_log_records_by_fingerprint"; fn :=
       let gate := RefGate.PermissionGate_init in
       '(_, gate) ← on_gate (RefGate.grant kPeerFp kControlInput) gate;
       '(_, gate) ← on_gate (RefGate.check kPeerFp kControlInput) gate;
       '(_, gate) ← on_gate (RefGate.check kPeerFp kUacElevation) gate;
       let audit := RefGate.audit_ gate in
       ASSERT_TRUE (3 <=? length audit)%nat;;
       expect_each (λ e, EXPECT_TRUE (bool_decide (RefGate.fingerprint e = kPeerFp))) audit;;
       EXPECT_TRUE (saw kControlInput true audit);;
       EXPECT_TRUE (saw kUacElevation false audit) |}
].

(** ** test_transport_loopback.cpp *)

Import RefTransport.

(** Two new endpoints, 0 and 1. *)
Definition two_ends : list LoopbackTransport := [LoopbackTransport_init; LoopbackTransport_init].

(** A statement on the endpoints, inside a case. *)
Definition on_ends {A} (m : State (list LoopbackTransport) A) (w : list LoopbackTransport)
    : Body (A * list LoopbackTransport) := mret (m w).

(** What the handler of [ch] at endpoint [i] was called with. *)
Definition rx (i : nat) (ch : Channel) (w : list LoopbackTransport) : list DeliveredFrame :=
  filter (on_channel ch) (received (w !!! i)).

Definition no_flags : Z := FrameFlags_to_u16 kFlagNone.

Definition test_transport_loopback : list TestCase := [
  {| suite := "transport"; name := "delivers_on_correct_channel"; fn :=
       '(_, w) ← on_ends (link 0 1) two_ends;
       '(_, w) ← on_ends (onChannel 1 kInput) w;
       '(_, w) ← on_ends (onChannel 1 kVideo) w;
       '(st, w) ← on_ends (send 0 kInput MT_kInputEvent [170; 187] no_flags) w;
       EXPECT_TRUE (Status_ok st);;
       let input_rx := rx 1 kInput w in
       let video_rx := rx 1 kVideo w in
       ASSERT_EQ (length input_rx) 1%nat;;
       EXPECT_EQ (length video_rx) 0%nat;;
       f ← call (input_rx !! 0%nat);
       EXPECT_TRUE (bool_decide (channel (header f) = kInput));;
       EXPECT_TRUE (MessageType_to_u16 (frame_type (header f)) =? 300);;
       ASSERT_EQ (length (payload f)) 2%nat;;
       b0 ← call (payload f !! 0%nat); EXPECT_EQ b0 170;;
       b1 ← call (payload f !! 1%nat); EXPECT_EQ b1 187 |};
  {| suite := "transport"; name := "reliable_channel_preserves_order"; fn :=
       '(_, w) ← on_ends (link 0 1) two_ends;
       '(_, w) ← on_ends (onChannel 1 kInput) w;
       EXPECT_TRUE (bool_decide (reliabilityFor kInput = kReliableOrdered));;
       let w := send_all 0 ((λ i, {| m_channel := kInput; m_type := MT_kInputEvent;
                  m_bytes := [to_u8 (Z.of_nat i)]; m_flags := no_flags |}) <$> List.seq 0 5) w in
       let seqs := (λ f, seq (header f)) <$> rx 1 kInput w in
       ASSERT_EQ (length seqs) 5%nat;;
       expect_each (λ i, s ← call (seqs !! i); EXPECT_EQ s (Z.of_nat i)) (List.seq 0 5) |};
  {| suite := "transport"; name := "input_not_blocked_by_file_transfer"; fn :=
       '(_, w) ← on_ends (link 0 1) two_ends;
       '(_, w) ← on_ends (onChannel 1 kFile) w;
       '(_, w) ← on_ends (onChannel 1 kInput) w;
       '(_, w) ← on_ends (send 0 kFile kFileChunk (replicate 4096 90) no_flags) w;
       '(_, w) ← on_ends (send 0 kInput MT_kInputEvent [1] no_flags) w;
       '(_, w) ← on_ends (send 0 kFile kFileChunk (replicate 4096 90) no_flags) w;
       EXPECT_EQ (length (rx 1 kFile w)) 2%nat;;
       EXPECT_TRUE (bool_decide (rx 1 kInput w ≠ [])) |};
  {| suite := "transport"; name := "unreliable_channel_drops_late"; fn :=
       '(_, w) ← on_ends (link 0 1) two_ends;
       '(_, w) ← on_ends (onChannel 1 kAudio) w;
       EXPECT_TRUE (bool_decide (reliabilityFor kAudio = kUnreliable));;
       '(_, w) ← on_ends (dropNextInbound 1 kAudio 1) w;
       '(_, w) ← on_ends (send 0 kAudio kAudioFrame [16] no_flags) w;
       '(_, w) ← on_ends (send 0 kAudio kAudioFrame [32] no_flags) w;
       EXPECT_EQ (length (rx 1 kAudio w)) 1%nat |};
  {| suite := "transport"; name := "send_without_link_fails"; fn :=
       '(st, _) ← on_ends (send 0 kControl kKeepalive [] no_flags) [LoopbackTransport_init];
       EXPECT_FALSE (Status_ok st);;
       EXPECT_TRUE (bool_decide (code st = ConnectionLost)) |}
].

(** ** The programs *)

(** The six [main] functions of [REDESK_TEST_MAIN], in the order of the build file. *)
Definition programs : list (list TestCase) :=
  [test_proto_framing; test_codec_negotiation; test_codec_roundtrip; test_transport_loopback;
   test_crypto_handshake; test_session_permissions].

(** The whole test suite passes in the model: every one of the six
    test programs runs all its cases without undefined behaviour and exits with 0. *)
Theorem suite_passes : runAll <$> programs = replicate 6 (Some 0).
Proof. vm_cast_no_check (@eq_refl (list (option Z)) (replicate 6 (Some 0))). Qed.

(** ** Beyond the tested messages *)

(** [ms] encrypted by [a] one after the other and decrypted by [b]. *)
Fixpoint exchange (ms : list (list Z)) (a b : StubNoiseSession) : option (list (Result (list Z))) :=
  match ms with
  | [] => Some []
  | m :: ms =>
      '(ct, a) ← encrypt m a;
      pt ← decrypt ct b;
      rest ← exchange ms a b;
      Some (pt :: rest)
  end.

Lemma encrypt_nonce m a ct a' : encrypt m a = Some (ct, a') → fits 32 (send_nonce_ a').
Proof.
  unfold encrypt. destruct (mask _ _ _); [|done]. intros [= _ <-]. by apply wrap_fits.
Qed.

Lemma exchange_good ms a b :
  keyed a → key_ b = key_ a → fits 32 (send_nonce_ a) → Forall bytes_ok ms →
  exchange ms a b = Some (good <$> ms).
Proof.
  intros Hk Hb Hn Hms. revert a Hk Hb Hn. induction Hms as [|m ms Hm _ IH]; intros a Hk Hb Hn; [done|].
  destruct (ref_noise_roundtrip a b m Hk Hb Hm Hn) as (ct & a' & Henc & _ & Hdec & Hkey).
  simpl. rewrite Henc. simpl. rewrite Hdec. simpl. rewrite IH; [done| | |].
  - unfold keyed. by rewrite Hkey.
  - by rewrite Hkey.
  - by eapply encrypt_nonce.
Qed.

(** The reference session does for every message what the tests check for three:
    after [runHandshake] both ends are established and have the same hash, and any
    messages sent in either direction arrive as they were sent. *)
Theorem ref_noise_channel ms :
  Forall bytes_ok ms →
  let '(ok, i, r) := runHandshake makeStubInitiator makeStubResponder in
  ok = true ∧ established i = true ∧ established r = true ∧
  handshakeHash i = handshakeHash r ∧ length (handshakeHash i) = 32%nat ∧
  exchange ms i r = Some (good <$> ms) ∧ exchange ms r i = Some (good <$> ms).
Proof.
  intros Hms. destruct (runHandshake makeStubInitiator makeStubResponder) as [[ok i] r] eqn:E.
  vm_compute in E. injection E as <- <- <-.
  do 5 (split; [done|]).
  split; (apply exchange_good; [split; [done|]|done|done|done]);
    apply (bool_decide_unpack (Forall (λ b, 0 ≤ b < 256) _)); by vm_compute.
Qed.
